(* ===== verification/_CoqProject ===== *)
-Q . S2P
Prelude.v
StreamBuffer.v
Events.v
Kernel.v
LoopFd.v
LoopIo.v
LoopHeavy.v
LoopLife.v
Channel.v
LoopSlots.v
Reactor.v
Executors.v
InetAddr.v
StreamIo.v
StreamLoops.v
StreamSession.v
StreamClient.v
StreamServer.v
Sessions.v
StreamGrows.v
Timer.v
TimerRuns.v
TimerServed.v
Factories.v
Dgram.v
Multicast.v
Udp.v
UdpSessions.v
TcpUnix.v
Clients.v
Ledger.v
Sockets.v
UnixPaths.v
Log.v
Framing.v
Examples.v
Served.v
SessionsServed.v
EndToEnd.v
UdpServed.v
MulticastExample.v
Http.v
