(* ===== verification/Prelude.v ===== *)
(** * KZevent: a verification library

    KZevent is a C++ library of event loops over epoll, with stream and datagram
    sockets and timers on top.  This development models its sources
    ([src/src], [src/include/kzevent]) as executable definitions, one file per
    component, and proves what each component promises.

    ** The program

    A [core::Loop] owns two threads.  The io thread waits in [epoll_wait], calls
    the callbacks of the descriptor table, and runs the io tasks other threads
    post; the heavy thread runs the heavy tasks.  A [core::LoopChannel] owns one
    descriptor of a loop: its constructor registers it, its destructor
    unregisters it, and its methods post the tasks that change its subscription.
    Everything else holds channels: [net::DgramSocket], the stream sessions,
    servers and clients of [net/inet.hpp], and [timer::Timer]; the TCP, unix and
    UDP classes fill in their virtual functions with the callbacks of the user.

    ** The files

    - [Prelude]: machine integers, outcomes, byte vectors, shared tactics.
    - [StreamBuffer] ([stream_buffer.cpp]): the byte queue on a vector; module
      [SB], one definition for each method.
    - [Events] ([core.hpp], [core.cpp]): event masks and their epoll masks.
    - [Kernel]: epoll_ctl and close as a class with laws.
    - [LoopFd] ([core.cpp]): the table [events_], the tasks of [register_fd],
      [unregister_fd], [enable_fd], [disable_fd], the dispatch of an event.
    - [LoopIo], [LoopHeavy] ([core.hpp], [core.cpp]): the two executors as step
      relations, one step for each access to shared state.
    - [LoopLife] ([core.cpp]): [start], [stop] and the joins of the destructor
      interleaved with both threads.
    - [Channel] ([core.hpp], [core.cpp]): [LoopChannel], moves included, and the
      programs that use channels.
    - [LoopSlots]: what each table task does to each slot of the table.
    - [Reactor] ([core.hpp], [core.cpp]): the three put together, channels of any
      thread, the io queue, the table its tasks and events work on, and the
      descriptor numbers the kernel reuses.
    - [Executors]: any object whose callbacks run on the io thread and whose
      tasks run on either thread, between a user and both queues.
    - [InetAddr] ([net/inet.cpp]): addresses, down to their bytes.
    - [StreamIo], [StreamLoops] ([net/inet.cpp]): socket input and output, and
      the loops both kinds of stream callback are made of.
    - [StreamSession], [StreamClient], [StreamServer] ([net/inet.cpp]): the
      three stream classes.  [Sessions]: a server and the byte streams of all its
      sessions as one state.  [StreamGrows]: what was accepted stays accepted.
    - [Timer] ([timer/timer.cpp]): delayed and periodic tasks.  [TimerRuns]: its
      runs, whatever the order of posts, cancellations and callbacks.
      [TimerServed]: the timer on both threads, identifiers taken by the posters,
      and the timer example.
    - [Factories] ([net/inet.cpp], [timer.cpp]): the [make_*_channel] functions.
    - [Dgram], [Multicast] ([net/inet.cpp]), [Udp] ([net/udp_socket.cpp]):
      datagram sockets, their multicast groups, UDP nodes, clients, servers and
      their sessions.  [UdpSessions]: how long a session of a server lives.
    - [TcpUnix] ([net/tcp_socket.cpp], [net/unix_socket.cpp]): what the user of
      a session is told, the setters of callbacks, and the paths of unix sockets.
    - [Clients]: TCP and unix clients with callbacks that connect again or stop.
    - [Ledger]: who gives back a registration.  [Sockets]: the public classes
      from factory to destructor, with any use in between.  [UnixPaths]: the
      unix classes with their callbacks and the files their paths name.
    - [Log] ([log.cpp], [log.hpp], [sys_error.hpp]): the rotating log file, the
      logging front end and [sys_error].
    - [Framing], [Examples] ([examples/]): the callbacks of the stream and
      datagram examples, run on the library's loops.  [Served]: one session and
      its user on both threads; [SessionsServed], [UdpServed], [Http]: the stream,
      datagram and pressure examples there, with all their clients.  [EndToEnd]:
      the main function of the stream examples, server and client on one loop.
      [MulticastExample]: the multicast example, a node on its loop.

    ** Conventions

    Definitions keep the names of the code.  A function of the code that can
    reach undefined behaviour, or throw, returns [res]: [Ok], [Undef] or
    [Fatal].  Integers are in [Z] with their wrap-around written out.  Code that
    is not part of the repository is a class ([EpollKernel], [StreamKernel],
    [StreamNet], [ConnectKernel], [SocketKernel], [DgramKernel], [DgramNet],
    [PathKernel], [AddrServices]), its documented behaviour a second class of
    laws; each has an instance the witnesses compute with.  [std::priority_queue] is such an interface too
    ([TimerQueue]), and the steady clock is the sequence of its readings.  What
    a derived class does in a virtual function is a class ([StreamHandler],
    [DgramHandler]): the base classes are verified against it, and [TcpUnix] and
    [Udp] give its instances.  What an object does on the threads of its loop is
    a class with laws too ([Service], [ServiceLaws]): [Executors] is proved
    against it, and [TimerServed], [Served], [SessionsServed], [UdpServed],
    [EndToEnd] and [MulticastExample] give its instances.
    A callable posted to a loop is a name; the tasks
    and subscriptions a component posts are recorded in order, and [Channel]
    connects those records to the table of [LoopFd].

    ** Conditions

    Definedness holds under any answers of the kernel that its laws allow; other
    claims need more, and name it.  [closes]: [close] succeeds (the code keeps the
    slot of a descriptor otherwise).  [CleanKernel P]: from states in [P] no socket
    call reports a system error; a session is [plain] when its socket is one of
    these and no event came after the end of its stream.  [SplitLaws], [split_ok]:
    a split callback returns no more than the bytes it is given.  [admissible]: the inputs
    of a server come as the kernel and the loop can give them.  The examples start
    their loops before they set their callbacks: [UdpServed] and [MulticastExample]
    have the setters among their inputs, the claims about stream servers
    ([SessionsServed], [Http], [EndToEnd]) begin when the callbacks are set.

    ** Fuel

    The loops of the callbacks are fixpoints with fuel, [Undef] when it runs
    out.  The fuel is one more than the bytes to read, to write or to cut
    ([read_fuel], [write_fuel], [frame_fuel]), the datagrams queued, or the
    timer units queued; that it is enough is part of the theorems, which prove
    [Ok].

    ** The theorems

    - Loop: the table stays consistent and its tasks stay in range
      ([fd_table_invariant]); tasks run once, in order, and none is left behind
      by a sleeping thread ([io_no_lost_wakeup], and for both threads at once
      [executors_sound] and [executors_progress]); [stop],
      [start] and the destructor join what they must ([stop_start_safe]).
    - Composition: queue, table and channels refine their parts under every
      interleaving ([reactor_sound]), an event never reaches the callback of
      another file although numbers are reused ([no_stale_dispatch]), and the
      destructor of a loop closes what is registered ([loop_dtor_closes]).
    - Channels: a descriptor is registered exactly while a channel owns it
      ([channels_own_registrations]); factories and destructors leak none
      ([factories_leak_nothing], [sockets_release_descriptors]).
    - Streams: the buffer is a queue ([stream_buffer_is_queue]) that shrinks
      back ([shrink_converges]); sessions and clients keep both byte streams
      intact ([session_streams_intact], [client_streams_intact]) and stay within
      defined behaviour ([session_cb_safe], [client_run_safe]); the table of a
      server is sound ([server_sessions_sound], [stop_task_erases_own]), and each
      of its sessions is served as if it were alone ([sessions_streams_intact]); the
      users are told what happened ([user_calls_follow_events],
      [client_calls_follow_events]), and an error callback that connects again
      recurses a bounded number of times ([error_retry_terminates]).
    - Datagrams: the queue is drained in order ([dgram_cb_drains]), the session
      table of a server refines a map ([udp_server_refines]) whose sessions live
      while they are heard of ([sessions_live_while_heard]), groups follow the
      calls ([groups_follow_calls]).
    - Files: the path of a unix socket is there while its object listens, and
      gone with it ([unix_files_follow_objects]).
    - Addresses: well-formedness ([addr_well_formed]), comparison and hash, the
      round trips through [sockaddr].
    - Timers: due tasks fire, once, in order, the timer never oversleeps, and no
      task runs more often than its interval allows ([timer_cb_fires_due],
      [timer_never_oversleeps], [runs_are_spaced]), also when its posts and its
      tasks interleave on both threads ([timer_served]).
    - Log: a line for each call that had a file, the others accounted for
      ([log_rotates]).
    - Examples: what their users get back, on the threads of a loop
      ([stream_server_served], [datagram_example_served], [multicast_example],
      [http_requests_answered]), and what the stream example prints, from what
      [main] posts to both ends of the connection and back ([example_prints]).

    Some lemmas state where the code does not do what it means to
    ([stop_can_lose_wakeup], [start_on_running_blocks],
    [write_error_drops_received], [negative_interval_spins],
    [huge_timeout_drops_all], [huge_length_cuts_short], [reconnect_ignored],
    [refused_listen_leaves_file]).

    ** Not modelled

    The C++ memory model below sequential consistency of the atomics and
    mutexes; allocation failures; what a failed write leaves of a log line, and
    the printing of times and thread identifiers; [errno] changed by the logging
    between a failed call and its use; errors that are documented for no call
    the code makes ([read] on its eventfd and timerfds other than EAGAIN,
    [timerfd_settime] on a valid value); [start] and [stop] of a loop called by
    different threads at once, and [start] called by a task; [connect] of a client
    beside a callback of the same client on the io thread (it is one step, and its
    tasks are ordered with the others); user callbacks that call [connect] or
    [stop] more than once ([Clients]); the tests; the [main] functions of the
    examples beyond the callbacks they register and, for the stream examples, what
    they post. *)

From Stdlib Require Export ZArith Lia.
From stdpp Require Export prelude gmap list fin_maps.

#[global] Open Scope Z_scope.

(** ** Machine integers

    An unsigned [w]-bit value is a [Z] in [0, 2^w); [wrap w] is the reduction
    the C++ language performs on it.  [i64] is the two's complement reading of
    a 64-bit pattern (conversion from [uint64_t] to [int64_t]). *)

Definition wrap (w z : Z) : Z := z mod 2 ^ w.
Definition u8 (z : Z) : Z := wrap 8 z.
Definition u16 (z : Z) : Z := wrap 16 z.
Definition u32 (z : Z) : Z := wrap 32 z.
Definition u64 (z : Z) : Z := wrap 64 z.
Definition i64 (z : Z) : Z := (z + 2 ^ 63) mod 2 ^ 64 - 2 ^ 63.

Definition in_u (w z : Z) : Prop := 0 <= z < 2 ^ w.
Definition in_i64 (z : Z) : Prop := - 2 ^ 63 <= z < 2 ^ 63.

#[export] Instance in_u_dec w z : Decision (in_u w z).
Proof. unfold in_u. apply _. Defined.
#[export] Instance in_i64_dec z : Decision (in_i64 z).
Proof. unfold in_i64. apply _. Defined.

Lemma wrap_bound w z : 0 <= w -> in_u w (wrap w z).
Proof. intros Hw. unfold in_u, wrap. apply Z.mod_pos_bound. lia. Qed.

Lemma wrap_id w z : in_u w z -> wrap w z = z.
Proof. intros H. apply Z.mod_small, H. Qed.

Lemma i64_id z : in_i64 z -> i64 z = z.
Proof. unfold in_i64, i64. intros H. rewrite Z.mod_small; lia. Qed.

Lemma i64_bound z : in_i64 (i64 z).
Proof.
  unfold in_i64, i64. pose proof (Z.mod_pos_bound (z + 2 ^ 63) (2 ^ 64)). lia.
Qed.

(** ** Outcomes

    [Ok a]: the C++ code returns.  [Undef]: it reaches undefined behaviour (an
    index outside a vector, an iterator range outside its buffer, a signed
    overflow, a failed [assert]).  [Fatal e]: [sys_error::fatal()] logs and
    throws [std::system_error] with errno [e]. *)

Inductive res (A : Type) : Type :=
| Ok (a : A)
| Undef
| Fatal (err : Z).
Arguments Ok {A} a.
Arguments Undef {A}.
Arguments Fatal {A} err.

#[export] Instance res_ret : MRet res := fun A a => Ok a.
#[export] Instance res_bind : MBind res := fun A B f m =>
  match m with Ok a => f a | Undef => Undef | Fatal e => Fatal e end.

Definition of_option {A} (o : option A) : res A :=
  match o with Some a => Ok a | None => Undef end.

Definition assert_ (b : bool) : res unit := if b then Ok tt else Undef.

Lemma res_bind_Ok {A B} (m : res A) (f : A -> res B) b :
  (m ≫= f) = Ok b -> exists a, m = Ok a /\ f a = Ok b.
Proof. destruct m; simpl; try discriminate. eauto. Qed.

(** ** Byte vectors indexed by [ssize_t] *)

Abbreviation byte := Z (only parsing).

Definition zlen {A} (l : list A) : Z := Z.of_nat (length l).
Definition ztake {A} (n : Z) (l : list A) : list A := take (Z.to_nat n) l.
Definition zdrop {A} (n : Z) (l : list A) : list A := drop (Z.to_nat n) l.

(** [slice i j l]: the elements of the iterator range [begin + i, begin + j). *)
Definition slice {A} (i j : Z) (l : list A) : list A := ztake (j - i) (zdrop i l).

(** [write_at i d l]: [std::copy] (or a kernel write) of [d] to [begin + i]. *)
Definition write_at {A} (i : Z) (d l : list A) : list A :=
  ztake i l ++ d ++ zdrop (i + zlen d) l.

(** [vresize n x l]: [std::vector::resize(n)] whose new elements are [x]. *)
Definition vresize {A} (n : Z) (x : A) (l : list A) : list A :=
  resize (Z.to_nat n) x l.

Create HintDb zlist.
Create Rewrite HintDb zlist.

Section zlist.
Context {A : Type}.
Implicit Types (l d : list A) (i j n m : Z).

Lemma zlen_nonneg l : 0 <= zlen l.
Proof. unfold zlen. lia. Qed.

Lemma zlen_nil : zlen (@nil A) = 0.
Proof. done. Qed.

Lemma zlen_app l d : zlen (l ++ d) = zlen l + zlen d.
Proof. unfold zlen. rewrite length_app. lia. Qed.

Lemma zlen_nil_inv l : zlen l = 0 -> l = [].
Proof. destruct l; unfold zlen; simpl; [done | lia]. Qed.

Lemma zlen_take n l : zlen (ztake n l) = Z.max 0 (Z.min n (zlen l)).
Proof. unfold zlen, ztake. rewrite length_take. lia. Qed.

Lemma zlen_drop n l : zlen (zdrop n l) = Z.max 0 (zlen l - Z.max 0 n).
Proof. unfold zlen, zdrop. rewrite length_drop. lia. Qed.

Lemma zlen_vresize n x l : zlen (vresize n x l) = Z.max 0 n.
Proof. unfold zlen, vresize. rewrite length_resize. lia. Qed.

Lemma ztake_all n l : zlen l <= n -> ztake n l = l.
Proof. unfold zlen, ztake. intros. apply take_ge. lia. Qed.

Lemma ztake_nonpos n l : n <= 0 -> ztake n l = [].
Proof. unfold ztake. intros. replace (Z.to_nat n) with 0%nat by lia. done. Qed.

Lemma zdrop_nonpos n l : n <= 0 -> zdrop n l = l.
Proof. unfold zdrop. intros. replace (Z.to_nat n) with 0%nat by lia. done. Qed.

Lemma zdrop_all n l : zlen l <= n -> zdrop n l = [].
Proof. unfold zlen, zdrop. intros. apply drop_ge. lia. Qed.

Lemma ztake_zdrop n l : ztake n l ++ zdrop n l = l.
Proof. apply take_drop. Qed.

Lemma zdrop_zdrop i j l : 0 <= i -> 0 <= j -> zdrop i (zdrop j l) = zdrop (j + i) l.
Proof. unfold zdrop. intros. rewrite drop_drop. f_equal. lia. Qed.

Lemma ztake_app_le n l d : n <= zlen l -> ztake n (l ++ d) = ztake n l.
Proof. unfold zlen, ztake. intros. apply take_app_le. lia. Qed.

Lemma ztake_app_exact l d n : n = zlen l -> ztake n (l ++ d) = l.
Proof. unfold zlen, ztake. intros ->. rewrite Nat2Z.id. by rewrite take_app_length. Qed.

Lemma zdrop_app_exact l d n : n = zlen l -> zdrop n (l ++ d) = d.
Proof. unfold zlen, zdrop. intros ->. rewrite Nat2Z.id. by rewrite drop_app_length. Qed.

Lemma zdrop_app_le n l d : n <= zlen l -> zdrop n (l ++ d) = zdrop n l ++ d.
Proof. unfold zlen, zdrop. intros. apply drop_app_le. lia. Qed.

Lemma ztake_app_ge n l d :
  zlen l <= n -> ztake n (l ++ d) = l ++ ztake (n - zlen l) d.
Proof.
  unfold zlen, ztake. intros. rewrite take_app_ge by lia. do 2 f_equal. lia.
Qed.

Lemma zdrop_app_ge n l d :
  zlen l <= n -> zdrop n (l ++ d) = zdrop (n - zlen l) d.
Proof. unfold zlen, zdrop. intros. rewrite drop_app_ge by lia. f_equal. lia. Qed.

Lemma zdrop_ztake n m l : 0 <= n -> zdrop n (ztake m l) = ztake (m - n) (zdrop n l).
Proof.
  unfold zdrop, ztake. intros. rewrite skipn_firstn_comm. f_equal. lia.
Qed.

Lemma ztake_ztake n m l : ztake n (ztake m l) = ztake (Z.min n m) l.
Proof. unfold ztake. rewrite take_take. f_equal. lia. Qed.

Lemma zlen_slice i j l :
  0 <= i -> i <= j -> j <= zlen l -> zlen (slice i j l) = j - i.
Proof. intros. unfold slice. rewrite zlen_take, zlen_drop. lia. Qed.

Lemma slice_empty i j l : j <= i -> slice i j l = [].
Proof. intros. unfold slice. apply ztake_nonpos. lia. Qed.

Lemma slice_all l : slice 0 (zlen l) l = l.
Proof. unfold slice. rewrite zdrop_nonpos by lia. apply ztake_all. lia. Qed.

Lemma slice_app i j k l :
  0 <= i -> i <= j -> j <= k -> slice i k l = slice i j l ++ slice j k l.
Proof.
  intros. unfold slice. rewrite <- (ztake_zdrop (j - i) (ztake (k - i) (zdrop i l))).
  rewrite ztake_ztake, zdrop_ztake, zdrop_zdrop by lia.
  f_equal; f_equal; try lia; f_equal; lia.
Qed.

Lemma zdrop_slice n i j l :
  0 <= n -> 0 <= i -> zdrop n (slice i j l) = slice (i + n) j l.
Proof.
  intros. unfold slice. rewrite zdrop_ztake, zdrop_zdrop by lia. f_equal. lia.
Qed.

Lemma ztake_slice n i j l :
  n <= j - i -> ztake n (slice i j l) = slice i (i + n) l.
Proof.
  intros. unfold slice. rewrite ztake_ztake. f_equal. lia.
Qed.

Lemma zlen_write_at i d l :
  0 <= i -> i + zlen d <= zlen l -> zlen (write_at i d l) = zlen l.
Proof.
  intros. unfold write_at. pose proof (zlen_nonneg d).
  rewrite !zlen_app, zlen_take, zlen_drop. lia.
Qed.

(** What is written is what is read back ... *)
Lemma slice_write_at i d l :
  0 <= i -> i + zlen d <= zlen l -> slice i (i + zlen d) (write_at i d l) = d.
Proof.
  intros. unfold slice, write_at. pose proof (zlen_nonneg d).
  rewrite zdrop_app_exact by (rewrite zlen_take; lia).
  apply ztake_app_exact. lia.
Qed.

(** ... and what precedes it is left alone. *)
Lemma slice_write_at_before i j k d l :
  0 <= i -> j <= k -> k <= zlen l -> slice i j (write_at k d l) = slice i j l.
Proof.
  intros. destruct (decide (j <= i)); [by rewrite !slice_empty by lia|].
  unfold slice, write_at.
  rewrite zdrop_app_le by (rewrite zlen_take; lia).
  rewrite ztake_app_le by (rewrite zlen_drop, zlen_take; lia).
  rewrite zdrop_ztake, ztake_ztake by lia. f_equal. lia.
Qed.

Lemma slice_vresize i j n x l :
  0 <= i -> j <= zlen l -> j <= n -> slice i j (vresize n x l) = slice i j l.
Proof.
  intros. destruct (decide (j <= i)); [by rewrite !slice_empty by lia|].
  unfold slice, vresize, ztake, zdrop, zlen in *. apply list_eq. intros k.
  rewrite !lookup_take, !lookup_drop. case_decide; [|done].
  rewrite lookup_resize by lia. done.
Qed.
End zlist.

Lemma prefix_map_take {A B} (f : A -> B) (l : list B) ms :
  l `prefix_of` map f ms -> l = map f (take (length l) ms).
Proof. intros [k Hk]. rewrite <- firstn_map, Hk. by rewrite take_app_length. Qed.

#[export] Hint Rewrite @zlen_app @zlen_take @zlen_drop @zlen_vresize @zlen_nil : zlist.
#[export] Hint Resolve zlen_nonneg : zlist.

(** ** Tactics *)

(** [zl]: length arithmetic over lists, then [lia]. *)
Ltac zl :=
  repeat match goal with
         | l : list ?A |- _ =>
             lazymatch goal with
             | _ : 0 <= zlen l |- _ => fail
             | _ => pose proof (zlen_nonneg l)
             end
         end;
  autorewrite with zlist in *; try lia.

(** [inv_res]: take apart a monadic equation [m ≫= f = Ok _]. *)
Ltac inv_res :=
  repeat match goal with
         | H : (?m ≫= ?f) = Ok ?b |- _ =>
             let a := fresh "a" in let Ha := fresh "Hm" in
             apply res_bind_Ok in H as (a & Ha & H)
         | H : Ok _ = Ok _ |- _ => injection H as H; try subst
         | H : Undef = Ok _ |- _ => discriminate H
         | H : Fatal _ = Ok _ |- _ => discriminate H
         end.

(** [dlia]: [lia] over goals with division and remainder by constants. *)
Ltac dlia := zify; Z.to_euclidean_division_equations; lia.

(** ** Single bits *)

Lemma land_bit z k : 0 <= k ->
  Z.land z (Z.shiftl 1 k) = if Z.testbit z k then Z.shiftl 1 k else 0.
Proof.
  intros Hk. apply Z.bits_inj'. intros n Hn.
  rewrite Z.land_spec, Z.shiftl_1_l, Z.pow2_bits_eqb by done.
  destruct (Z.eqb_spec k n) as [->|Hne].
  - destruct (Z.testbit z n); rewrite ?Z.pow2_bits_true, ?Z.bits_0 by done; done.
  - rewrite andb_false_r. destruct (Z.testbit z k);
      rewrite ?Z.pow2_bits_false, ?Z.bits_0 by done; done.
Qed.

(** What holds of all elements holds of those picked out. *)
Lemma Forall_sublist {A} (P : A -> Prop) (l' l : list A) : l' `sublist_of` l -> Forall P l -> Forall P l'.
Proof. induction 1; intros Hl; [constructor|inversion Hl; constructor; auto|inversion Hl; auto]. Qed.
