(* ===== verification/StreamBuffer.v ===== *)
(** * StreamBuffer: the byte queue of the stream sockets

    Models [include/kzevent/stream_buffer.hpp] and [src/stream_buffer.cpp].
    The vector is a list of bytes ([std::vector::size] is its length; capacity
    and [shrink_to_fit] have no observable effect), the two cursors are the
    [ssize_t] members.  A pointer returned by [data]/[begin]/[end_] is the
    offset from [buffer_.data()].  A copy outside the vector is [Undef]. *)

From S2P Require Import Prelude.

Module SB.

Record stream_buffer := mk_sb {
  buffer_ : list byte;
  reader_ : Z;
  writer_ : Z;
  shrink_count_ : Z;
  initial_size_ : Z
}.

Definition kShrinkThreshold : Z := 10.
Definition kShrinkDivisor : Z := 2.

Definition make_sb (initial_size : Z) : stream_buffer :=
  mk_sb (replicate (Z.to_nat initial_size) 0) 0 0 0 initial_size.

Definition data (b : stream_buffer) : Z := reader_ b.
Definition begin (b : stream_buffer) : Z := reader_ b.
Definition end_ (b : stream_buffer) : Z := writer_ b.
Definition size (b : stream_buffer) : Z := writer_ b - reader_ b.
Definition space (b : stream_buffer) : Z := zlen (buffer_ b) - writer_ b.
Definition empty (b : stream_buffer) : bool := reader_ b =? writer_ b.

Definition push (len : Z) (b : stream_buffer) : stream_buffer :=
  mk_sb (buffer_ b) (reader_ b) (writer_ b + len) (shrink_count_ b) (initial_size_ b).

Definition clear (b : stream_buffer) : stream_buffer :=
  mk_sb (buffer_ b) 0 0 (shrink_count_ b) (initial_size_ b).

(** [std::copy] of [d] to [begin() + i]: defined when it stays in the vector. *)
Definition copy_to (i : Z) (d l : list byte) : res (list byte) :=
  if (0 <=? i) && (i + zlen d <=? zlen l) then Ok (write_at i d l) else Undef.

Definition insert (d : list byte) (b : stream_buffer) : res stream_buffer :=
  let buf :=
    if space b <? zlen d
    then vresize (writer_ b + zlen d) 0 (buffer_ b)
    else buffer_ b in
  buf' ← copy_to (writer_ b) d buf;
  Ok (mk_sb buf' (reader_ b) (writer_ b + zlen d) (shrink_count_ b) (initial_size_ b)).

Definition compact (b : stream_buffer) : res stream_buffer :=
  if (0 <=? reader_ b) && (reader_ b <=? writer_ b) && (writer_ b <=? zlen (buffer_ b)) then
    buf' ← copy_to 0 (slice (reader_ b) (writer_ b) (buffer_ b)) (buffer_ b);
    Ok (mk_sb buf' 0 (writer_ b - reader_ b) (shrink_count_ b) (initial_size_ b))
  else Undef.

Definition shrink (b : stream_buffer) : stream_buffer :=
  if zlen (buffer_ b) <=? initial_size_ b then
    mk_sb (buffer_ b) (reader_ b) (writer_ b) 0 (initial_size_ b)
  else if shrink_count_ b <? kShrinkThreshold then
    mk_sb (buffer_ b) (reader_ b) (writer_ b) (u8 (shrink_count_ b + 1)) (initial_size_ b)
  else
    let new_size :=
      if zlen (buffer_ b) / kShrinkDivisor <? initial_size_ b
      then initial_size_ b
      else zlen (buffer_ b) / kShrinkDivisor in
    mk_sb (vresize new_size 0 (buffer_ b)) (reader_ b) (writer_ b) 0 (initial_size_ b).

Definition pop (len : Z) (b : stream_buffer) : res stream_buffer :=
  let b1 := mk_sb (buffer_ b) (reader_ b + len) (writer_ b) (shrink_count_ b) (initial_size_ b) in
  if writer_ b1 <=? reader_ b1 then
    let b2 := shrink b1 in
    Ok (mk_sb (buffer_ b2) 0 0 (shrink_count_ b2) (initial_size_ b2))
  else if zlen (buffer_ b1) / 2 <? reader_ b1 then compact b1
  else Ok b1.

(** The bytes a caller sees through [begin()] and [size()]. *)
Definition contents (b : stream_buffer) : list byte :=
  slice (reader_ b) (writer_ b) (buffer_ b).

(** The kernel filling [d] at [end()], as [readv] does before [push]. *)
Definition fill_end (d : list byte) (b : stream_buffer) : stream_buffer :=
  mk_sb (write_at (writer_ b) d (buffer_ b)) (reader_ b) (writer_ b)
        (shrink_count_ b) (initial_size_ b).

(** ** Invariant *)

Record sb_inv (b : stream_buffer) : Prop := {
  inv_reader : 0 <= reader_ b;
  inv_order : reader_ b <= writer_ b;
  inv_writer : writer_ b <= zlen (buffer_ b);
  inv_half : reader_ b <= zlen (buffer_ b) / 2;
  inv_count : 0 <= shrink_count_ b <= kShrinkThreshold;
  inv_initial : 0 <= initial_size_ b <= zlen (buffer_ b)
}.

Ltac sb_unfold :=
  unfold insert, pop, compact, shrink, push, clear, copy_to, contents, size,
    space, empty, data, begin, end_, fill_end, kShrinkThreshold, kShrinkDivisor in *.

Ltac sb_case :=
  repeat match goal with
         | |- context [?x <=? ?y] => destruct (Z.leb_spec x y)
         | |- context [?x <? ?y] => destruct (Z.ltb_spec x y)
         | |- context [?x =? ?y] => destruct (Z.eqb_spec x y)
         end; simpl.

Lemma make_sb_inv n : 0 <= n -> sb_inv (make_sb n).
Proof.
  intros. assert (Hl : zlen (buffer_ (make_sb n)) = n)
    by (unfold zlen, make_sb; simpl; rewrite length_replicate; lia).
  split; rewrite ?Hl; unfold kShrinkThreshold; simpl; dlia.
Qed.

Lemma contents_len b : sb_inv b -> zlen (contents b) = size b.
Proof. intros []. unfold contents. by rewrite zlen_slice by lia. Qed.

Lemma empty_contents b : sb_inv b -> empty b = true <-> contents b = [].
Proof.
  intros Hi. pose proof (contents_len b Hi) as Hl. destruct Hi. sb_unfold.
  rewrite Z.eqb_eq. split; intros H.
  - apply slice_empty. lia.
  - rewrite H, zlen_nil in Hl. lia.
Qed.

(** ** Each operation against its effect on [contents] *)

Lemma copy_to_ok i d l :
  0 <= i -> i + zlen d <= zlen l -> copy_to i d l = Ok (write_at i d l).
Proof. intros. unfold copy_to. sb_case; [done | lia | lia | lia]. Qed.

(** The vector [insert] copies into: large enough, and the same live bytes. *)
Lemma insert_room (d : list byte) b :
  sb_inv b ->
  let buf := if space b <? zlen d then vresize (writer_ b + zlen d) 0 (buffer_ b)
             else buffer_ b in
  zlen (buffer_ b) <= zlen buf /\ writer_ b + zlen d <= zlen buf /\
  zlen buf <= Z.max (zlen (buffer_ b)) (writer_ b + zlen d) /\
  slice (reader_ b) (writer_ b) buf = contents b.
Proof.
  intros []. unfold space, contents. sb_case.
  - rewrite zlen_vresize, slice_vresize by lia. repeat split; zl.
  - repeat split; zl.
Qed.

Lemma insert_ok (d : list byte) b :
  sb_inv b ->
  exists b', insert d b = Ok b' /\ sb_inv b' /\ contents b' = contents b ++ d /\
    initial_size_ b' = initial_size_ b /\ reader_ b' = reader_ b /\
    shrink_count_ b' = shrink_count_ b /\
    zlen (buffer_ b) <= zlen (buffer_ b') <=
      Z.max (zlen (buffer_ b)) (writer_ b + zlen d).
Proof.
  intros Hi. pose proof (insert_room d b Hi) as (Hge & Hfit & Hle & Hsl). destruct Hi.
  unfold insert. cbv zeta in *.
  set (buf := if space b <? zlen d then _ else _) in *.
  rewrite copy_to_ok by lia. simpl. eexists. split; [done|]. simpl.
  rewrite zlen_write_at by lia. pose proof (zlen_nonneg d).
  split; [split; simpl; rewrite ?zlen_write_at by lia; dlia|].
  split; [|lia]. unfold contents. simpl.
  rewrite (slice_app _ (writer_ b)), slice_write_at, slice_write_at_before by lia.
  by rewrite Hsl.
Qed.

Lemma compact_ok b :
  0 <= reader_ b <= writer_ b -> writer_ b <= zlen (buffer_ b) ->
  0 <= shrink_count_ b <= kShrinkThreshold ->
  0 <= initial_size_ b <= zlen (buffer_ b) ->
  exists b', compact b = Ok b' /\ sb_inv b' /\ contents b' = contents b /\
    initial_size_ b' = initial_size_ b /\ zlen (buffer_ b') = zlen (buffer_ b).
Proof.
  intros. unfold compact.
  do 3 (rewrite (proj2 (Z.leb_le _ _)) by lia). simpl.
  pose proof (zlen_slice (reader_ b) (writer_ b) (buffer_ b)) as Hs.
  rewrite copy_to_ok by lia. simpl. eexists. split; [done|]. simpl.
  rewrite zlen_write_at by lia. split; [|split; [|done]].
  - split; simpl; rewrite ?zlen_write_at by lia; dlia.
  - unfold contents. simpl.
    replace (writer_ b - reader_ b) with
      (0 + zlen (slice (reader_ b) (writer_ b) (buffer_ b))) by lia.
    apply slice_write_at; dlia.
Qed.

Lemma shrink_bound b :
  0 <= initial_size_ b <= zlen (buffer_ b) ->
  0 <= shrink_count_ b <= kShrinkThreshold ->
  let b' := shrink b in
  initial_size_ b' = initial_size_ b /\
  initial_size_ b <= zlen (buffer_ b') <= zlen (buffer_ b) /\
  0 <= shrink_count_ b' <= kShrinkThreshold.
Proof.
  intros ??. unfold shrink, u8, wrap, kShrinkThreshold, kShrinkDivisor in *.
  sb_case; rewrite ?zlen_vresize; try (rewrite Z.mod_small); dlia.
Qed.

Lemma pop_ok n b :
  sb_inv b -> 0 <= n ->
  exists b', pop n b = Ok b' /\ sb_inv b' /\ contents b' = zdrop n (contents b) /\
    initial_size_ b' = initial_size_ b /\ zlen (buffer_ b') <= zlen (buffer_ b).
Proof.
  intros Hi Hn. pose proof (contents_len b Hi) as Hl. destruct Hi. unfold pop. simpl.
  destruct (Z.leb_spec (writer_ b) (reader_ b + n)).
  - set (b1 := mk_sb _ (reader_ b + n) _ _ _).
    destruct (shrink_bound b1) as (Hini & Hlen & Hcnt); [done..|]. simpl in *.
    eexists. split; [done|]. simpl. rewrite zdrop_all by (unfold size in *; lia).
    split; [split; simpl; dlia | split; [by apply slice_empty | lia]].
  - unfold contents at 2. rewrite zdrop_slice by lia.
    destruct (Z.ltb_spec (zlen (buffer_ b) / 2) (reader_ b + n)).
    + destruct (compact_ok (mk_sb (buffer_ b) (reader_ b + n) (writer_ b)
        (shrink_count_ b) (initial_size_ b)))
        as (b' & -> & ? & Hc & ? & Hz); simpl in *; [lia..|].
      exists b'. rewrite Hc, Hz. done.
    + eexists. split; [done|]. simpl. split; [split; simpl; dlia | done].
Qed.

Lemma clear_ok b :
  sb_inv b -> sb_inv (clear b) /\ contents (clear b) = [] /\
    zlen (buffer_ (clear b)) = zlen (buffer_ b).
Proof.
  intros []. split; [split; simpl; try dlia | split; [|done]].
  unfold contents. by rewrite slice_empty.
Qed.

(** [readv] into the tail followed by [push]. *)
Lemma fill_push_ok (d : list byte) b :
  sb_inv b -> zlen d <= space b ->
  let b' := push (zlen d) (fill_end d b) in
  sb_inv b' /\ contents b' = contents b ++ d /\
  initial_size_ b' = initial_size_ b /\ zlen (buffer_ b') = zlen (buffer_ b).
Proof.
  intros [] Hd b'. unfold space in *. pose proof (zlen_nonneg d).
  assert (zlen (buffer_ b') = zlen (buffer_ b)) as Hlen by (simpl; apply zlen_write_at; lia).
  split; [split; rewrite ?Hlen; simpl; lia | split; [|done]].
  unfold contents. simpl.
  by rewrite (slice_app _ (writer_ b)), slice_write_at, slice_write_at_before by lia.
Qed.

(** ** Shrinking

    One message through the buffer: it is inserted, then taken out whole. *)

Definition through (d : list byte) (b : stream_buffer) : res stream_buffer :=
  b1 ← insert d b; pop (size b1) b1.

Fixpoint through_all (ds : list (list byte)) (b : stream_buffer) : res stream_buffer :=
  match ds with
  | [] => Ok b
  | d :: ds' => b1 ← through d b; through_all ds' b1
  end.

(** What the emptying [pop] does to the length and the counter. *)
Definition shrunk_len (b : stream_buffer) : Z :=
  if zlen (buffer_ b) <=? initial_size_ b then zlen (buffer_ b)
  else if shrink_count_ b <? kShrinkThreshold then zlen (buffer_ b)
  else Z.max (initial_size_ b) (zlen (buffer_ b) / kShrinkDivisor).

Definition shrunk_count (b : stream_buffer) : Z :=
  if zlen (buffer_ b) <=? initial_size_ b then 0
  else if shrink_count_ b <? kShrinkThreshold then shrink_count_ b + 1 else 0.

Lemma shrink_len b :
  0 <= initial_size_ b -> 0 <= shrink_count_ b <= kShrinkThreshold ->
  zlen (buffer_ (shrink b)) = shrunk_len b /\ shrink_count_ (shrink b) = shrunk_count b.
Proof.
  intros. unfold shrink, shrunk_len, shrunk_count, u8, wrap, kShrinkThreshold, kShrinkDivisor in *.
  pose proof (zlen_nonneg (buffer_ b)).
  sb_case; rewrite ?zlen_vresize; split; try (rewrite Z.mod_small); dlia.
Qed.

Lemma through_ok (d : list byte) b :
  sb_inv b -> reader_ b = 0 -> writer_ b = 0 -> zlen d <= initial_size_ b ->
  exists b', through d b = Ok b' /\ sb_inv b' /\ reader_ b' = 0 /\ writer_ b' = 0 /\
    initial_size_ b' = initial_size_ b /\
    zlen (buffer_ b') = shrunk_len b /\ shrink_count_ b' = shrunk_count b.
Proof.
  intros Hi Hr Hw Hd. pose proof (zlen_nonneg d).
  destruct (insert_ok d b Hi) as (b1 & He & Hi1 & _ & Hini & Hr1 & Hc & Hl).
  unfold through. rewrite He. simpl.
  assert (Hlb : zlen (buffer_ b1) = zlen (buffer_ b)) by (destruct Hi; lia).
  destruct (pop_ok (size b1) b1 Hi1) as (b' & Hp & Hi' & _ & Hini' & _).
  { destruct Hi1. unfold size. lia. }
  rewrite Hp. exists b'. split; [done|]. split; [done|].
  unfold pop, size in Hp. simpl in Hp.
  rewrite (proj2 (Z.leb_le _ _)) in Hp by lia. injection Hp as <-. simpl in *.
  destruct (shrink_len (mk_sb (buffer_ b1) (reader_ b1 + (writer_ b1 - reader_ b1))
    (writer_ b1) (shrink_count_ b1) (initial_size_ b1))) as [-> ->];
    [destruct Hi1; simpl; lia | destruct Hi1; done |].
  unfold shrunk_len, shrunk_count. simpl. rewrite Hini, Hc, Hlb.
  repeat split; congruence.
Qed.

(** A buffer at rest: no data, cursors at the head. *)
Definition at_rest (b : stream_buffer) : Prop :=
  sb_inv b /\ reader_ b = 0 /\ writer_ b = 0.

Lemma at_rest_contents b : at_rest b -> contents b = [].
Proof. intros (? & Hr & Hw). unfold contents. apply slice_empty. lia. Qed.

(** Enough messages to reach the threshold halve the vector once. *)
Lemma through_all_halve ds b :
  at_rest b -> Forall (fun d : list byte => zlen d <= initial_size_ b) ds ->
  zlen ds = kShrinkThreshold - shrink_count_ b + 1 ->
  initial_size_ b < zlen (buffer_ b) ->
  exists b', through_all ds b = Ok b' /\ at_rest b' /\
    initial_size_ b' = initial_size_ b /\ shrink_count_ b' = 0 /\
    zlen (buffer_ b') = Z.max (initial_size_ b) (zlen (buffer_ b) / kShrinkDivisor).
Proof.
  revert b. induction ds as [|d ds IH]; intros b (Hi & Hr & Hw) Hds Hn Hbig.
  { destruct Hi. unfold zlen in Hn at 1. simpl in Hn. lia. }
  apply Forall_cons in Hds as [Hd Hds].
  destruct (through_ok d b Hi Hr Hw Hd) as (b1 & He & Hi1 & Hr1 & Hw1 & Hini & Hl & Hc).
  assert (zlen (d :: ds) = 1 + zlen ds) as Hcons by (unfold zlen; simpl; lia).
  simpl. rewrite He. simpl. unfold shrunk_len, shrunk_count in *.
  rewrite (proj2 (Z.leb_gt _ _)) in Hl, Hc by lia.
  pose proof (zlen_nonneg ds).
  destruct (Z.ltb_spec (shrink_count_ b) kShrinkThreshold).
  - destruct (IH b1) as (b' & ? & ? & ? & ? & ?);
      [done | by rewrite Hini | lia | lia |].
    exists b'. split_and!; try done; congruence.
  - destruct ds; [|unfold zlen in *; simpl in *; lia].
    exists b1. by split_and!.
Qed.

(** A vector that has not grown stays as it is. *)
Lemma through_all_stay ds b :
  at_rest b -> Forall (fun d : list byte => zlen d <= initial_size_ b) ds ->
  shrink_count_ b = 0 -> zlen (buffer_ b) = initial_size_ b ->
  exists b', through_all ds b = Ok b' /\ at_rest b' /\
    initial_size_ b' = initial_size_ b /\ shrink_count_ b' = 0 /\
    zlen (buffer_ b') = zlen (buffer_ b).
Proof.
  revert b. induction ds as [|d ds IH]; intros b (Hi & Hr & Hw) Hds Hc0 Hlen.
  { exists b. by split_and!. }
  apply Forall_cons in Hds as [Hd Hds].
  destruct (through_ok d b Hi Hr Hw Hd) as (b1 & He & Hi1 & Hr1 & Hw1 & Hini & Hl & Hc).
  simpl. rewrite He. simpl. unfold shrunk_len, shrunk_count in *.
  rewrite (proj2 (Z.leb_le _ _)) in Hl, Hc by lia.
  destruct (IH b1) as (b' & ? & ? & ? & ? & ?); [done | by rewrite Hini | lia | lia |].
  exists b'. split_and!; try done; congruence.
Qed.

Lemma through_all_app ds1 ds2 b :
  through_all (ds1 ++ ds2) b = (b1 ← through_all ds1 b; through_all ds2 b1).
Proof.
  revert b. induction ds1 as [|d ds1 IH]; intros b; simpl; [done|].
  destruct (through d b); simpl; [apply IH | done | done].
Qed.

(** The vector of a buffer that carries messages no longer than its
    initial size goes back to that size: every eleven messages halve what a
    burst made it grow to, and it never goes below the initial size.  The run
    never leaves defined behaviour and keeps no byte. *)
Lemma shrink_converges k ds b :
  at_rest b -> shrink_count_ b = 0 -> 0 <= k ->
  Forall (fun d : list byte => zlen d <= initial_size_ b) ds ->
  zlen ds = (kShrinkThreshold + 1) * k ->
  exists b', through_all ds b = Ok b' /\ contents b' = [] /\
    zlen (buffer_ b') = Z.max (initial_size_ b) (zlen (buffer_ b) / kShrinkDivisor ^ k).
Proof.
  intros Hb Hc Hk. revert k Hk ds b Hb Hc. refine (natlike_ind _ _ _).
  - intros ds b Hb Hc _ Hn. rewrite Z.mul_0_r in Hn. apply zlen_nil_inv in Hn as ->.
    exists b. rewrite Z.pow_0_r, Z.div_1_r, at_rest_contents by done.
    destruct Hb as [[] _]. split_and!; [done..|lia].
  - intros k Hk IH ds b Hb Hc Hds Hn. unfold kShrinkThreshold, kShrinkDivisor in *.
    rewrite <- (ztake_zdrop 11 ds) in Hds. apply Forall_app in Hds as [H1 H2].
    assert (Hl1 : zlen (ztake 11 ds) = 11) by (rewrite zlen_take; nia).
    assert (Hl2 : zlen (zdrop 11 ds) = 11 * k) by (rewrite zlen_drop; nia).
    rewrite <- (ztake_zdrop 11 ds), through_all_app.
    assert (exists b1, through_all (ztake 11 ds) b = Ok b1 /\ at_rest b1 /\
      initial_size_ b1 = initial_size_ b /\ shrink_count_ b1 = 0 /\
      zlen (buffer_ b1) = Z.max (initial_size_ b) (zlen (buffer_ b) / 2))
      as (b1 & -> & Hb1 & Hini & Hc1 & Hz1).
    { destruct (decide (initial_size_ b < zlen (buffer_ b))).
      - apply through_all_halve; unfold kShrinkThreshold; auto; lia.
      - assert (zlen (buffer_ b) = initial_size_ b) as Heq by (destruct Hb as [[] _]; lia).
        destruct (through_all_stay _ b Hb H1 Hc Heq) as (b1 & ? & ? & ? & ? & ?).
        exists b1. split_and!; try done. destruct Hb as [[] _]. dlia. }
    simpl. destruct (IH (zdrop 11 ds) b1 Hb1 Hc1) as (b' & ? & ? & Hz); [by rewrite Hini | done |].
    exists b'. split_and!; [done..|].
    rewrite Hz, Hini, Hz1, Z.pow_succ_r, <- Z.div_div by lia.
    assert (0 < 2 ^ k) by lia.
    destruct (Z.max_spec (initial_size_ b) (zlen (buffer_ b) / 2)) as [[? ->]|[? ->]]; [done|].
    assert (initial_size_ b / 2 ^ k <= initial_size_ b).
    { apply Z.div_le_upper_bound; [done|]. destruct Hb as [[] _]. nia. }
    assert (zlen (buffer_ b) / 2 / 2 ^ k <= initial_size_ b / 2 ^ k)
      by (apply Z.div_le_mono; lia).
    lia.
Qed.

Lemma shrink_converges_witness :
  exists b', through_all (replicate 11 [1; 2; 3])
    (mk_sb (replicate 40 0) 0 0 0 4) = Ok b' /\ contents b' = [] /\
    zlen (buffer_ b') = Z.max 4 (40 / kShrinkDivisor ^ 1).
Proof.
  apply (shrink_converges 1 (replicate 11 [1; 2; 3]) (mk_sb (replicate 40 0) 0 0 0 4));
    [| reflexivity | lia | repeat constructor; vm_compute; discriminate | reflexivity].
  split; [split; vm_compute; repeat split; discriminate | split; reflexivity].
Defined.

End SB.
