(* ===== verification/Events.v ===== *)
(** * Events: event masks and their translation to epoll masks

    Models the two [enum class] bit masks of [include/kzevent/core.hpp] with
    their operators, and the translation tables of [src/core.cpp].  A mask is
    the [uint32_t] under the enumeration.  The [EPOLL*] constants and the errno
    values are those of the Linux headers, the only platform of the project. *)

From S2P Require Import Prelude.

(** ** Linux values *)

Definition EPOLLIN : Z := 0x001.
Definition EPOLLOUT : Z := 0x004.
Definition EPOLLERR : Z := 0x008.
Definition EPOLLRDHUP : Z := 0x2000.
Definition EPOLLONESHOT : Z := Z.shiftl 1 30.
Definition EPOLLET : Z := Z.shiftl 1 31.

Definition EPERM : Z := 1.
Definition ENOENT : Z := 2.
Definition EINTR : Z := 4.
Definition EBADF : Z := 9.
Definition EAGAIN : Z := 11.
Definition ENOMEM : Z := 12.
Definition EACCES : Z := 13.
Definition EEXIST : Z := 17.
Definition EPIPE : Z := 32.
Definition EADDRNOTAVAIL : Z := 99.
Definition ENETUNREACH : Z := 101.
Definition ECONNABORTED : Z := 103.
Definition ECONNRESET : Z := 104.
Definition ETIMEDOUT : Z := 110.
Definition ECONNREFUSED : Z := 111.
Definition EHOSTUNREACH : Z := 113.
Definition EINPROGRESS : Z := 115.

(** ** EventType and EventMode *)

Module EventType.
Definition kDefault : Z := 0.
Definition kRead : Z := Z.shiftl 1 0.
Definition kWrite : Z := Z.shiftl 1 1.
Definition kError : Z := Z.shiftl 1 2.
Definition kShutdown : Z := Z.shiftl 1 3.
Definition or (a b : Z) : Z := Z.lor a b.
Definition and (a b : Z) : Z := Z.land a b.
Definition not (a : Z) : Z := u32 (Z.lnot a).
End EventType.

Module EventMode.
Definition kDefault : Z := 0.
Definition kOneShot : Z := Z.shiftl 1 0.
Definition or (a b : Z) : Z := Z.lor a b.
Definition and (a b : Z) : Z := Z.land a b.
Definition not (a : Z) : Z := u32 (Z.lnot a).
End EventMode.

Declare Scope event_scope.
Delimit Scope event_scope with ev.
Infix "|||" := EventType.or (at level 50, left associativity) : event_scope.
Infix "&&&" := EventType.and (at level 40, left associativity) : event_scope.
Notation "~~~ a" := (EventType.not a) (at level 35, right associativity) : event_scope.
#[global] Open Scope event_scope.

(** [(types & t) == t], the test every callback makes. *)
Definition has (types t : Z) : bool := (types &&& t) =? t.

(** ** Translation tables *)

Definition kEventTypeToEpoll : list (Z * Z) :=
  [(EventType.kRead, EPOLLIN); (EventType.kWrite, EPOLLOUT);
   (EventType.kError, EPOLLERR); (EventType.kShutdown, EPOLLRDHUP)].

Definition kEventModeToEpoll : list (Z * Z) := [(EventMode.kOneShot, EPOLLONESHOT)].

(** The accumulation of both directions: for each row whose source bits are
    set, the target bits are ored in. *)
Fixpoint translate (rows : list (Z * Z)) (src acc : Z) : Z :=
  match rows with
  | [] => acc
  | (from, to) :: rows' =>
      translate rows' src (if Z.land src from =? 0 then acc else Z.lor acc to)
  end.

Definition kz_to_local_types (events : Z) : res Z :=
  let local_events := translate kEventTypeToEpoll events 0 in
  _ ← assert_ (negb (local_events =? 0));
  Ok local_events.

Definition kz_to_local_modes (modes : Z) : res Z :=
  let local_modes := translate kEventModeToEpoll modes EPOLLET in
  _ ← assert_ (Z.land local_modes EPOLLET =? EPOLLET);
  Ok local_modes.

Definition local_to_kz (local_events : Z) : Z :=
  translate (map (fun r => (r.2, r.1)) kEventTypeToEpoll) local_events EventType.kDefault.

(** ** Masks *)

(** The masks built from the declared enumerators. *)
Definition all_types : Z :=
  EventType.kRead ||| EventType.kWrite ||| EventType.kError ||| EventType.kShutdown.
Definition all_epoll : Z := Z.lor (Z.lor (Z.lor EPOLLIN EPOLLOUT) EPOLLERR) EPOLLRDHUP.

Definition is_mask (m t : Z) : Prop := 0 <= t /\ Z.land t m = t.

(** Every single-bit test of the tables becomes a [Z.testbit]. *)
Lemma land_kRead t : Z.land t EventType.kRead = if Z.testbit t 0 then 1 else 0.
Proof. apply (land_bit t 0). lia. Qed.
Lemma land_kWrite t : Z.land t EventType.kWrite = if Z.testbit t 1 then 2 else 0.
Proof. apply (land_bit t 1). lia. Qed.
Lemma land_kError t : Z.land t EventType.kError = if Z.testbit t 2 then 4 else 0.
Proof. apply (land_bit t 2). lia. Qed.
Lemma land_kShutdown t : Z.land t EventType.kShutdown = if Z.testbit t 3 then 8 else 0.
Proof. apply (land_bit t 3). lia. Qed.
Lemma land_kOneShot t : Z.land t EventMode.kOneShot = if Z.testbit t 0 then 1 else 0.
Proof. apply (land_bit t 0). lia. Qed.

Lemma land_all_types t :
  Z.land t all_types =
  Z.lor (Z.lor (Z.lor (Z.land t EventType.kRead) (Z.land t EventType.kWrite))
    (Z.land t EventType.kError)) (Z.land t EventType.kShutdown).
Proof. unfold all_types, EventType.or. by rewrite !Z.land_lor_distr_r. Qed.

Create Rewrite HintDb ev_bits.
#[export] Hint Rewrite land_kRead land_kWrite land_kError land_kShutdown
  land_kOneShot land_all_types : ev_bits.

(** [ev_bits]: case analysis on the bits a goal about masks tests. *)
Ltac ev_bits :=
  autorewrite with ev_bits;
  repeat match goal with
         | |- context [Z.testbit ?t ?k] => is_var t; destruct (Z.testbit t k)
         end; try done.

Lemma has_kRead t : has t EventType.kRead = Z.testbit t 0.
Proof. unfold has, EventType.and. ev_bits. Qed.
Lemma has_kWrite t : has t EventType.kWrite = Z.testbit t 1.
Proof. unfold has, EventType.and. ev_bits. Qed.
Lemma has_kError t : has t EventType.kError = Z.testbit t 2.
Proof. unfold has, EventType.and. ev_bits. Qed.

(** Adding and removing the write interest, as the send paths do. *)
Lemma add_write_bits t :
  has (t ||| EventType.kWrite) EventType.kWrite = true /\
  has (t ||| EventType.kWrite) EventType.kRead = has t EventType.kRead /\
  has (t ||| EventType.kWrite) EventType.kError = has t EventType.kError.
Proof.
  rewrite !has_kWrite, !has_kRead, !has_kError. unfold EventType.or.
  rewrite !Z.lor_spec. by destruct (Z.testbit t 0), (Z.testbit t 1), (Z.testbit t 2).
Qed.

Lemma not_write_bit k :
  0 <= k -> Z.testbit (~~~ EventType.kWrite) k = (k <? 32) && negb (k =? 1).
Proof.
  intros Hk. unfold EventType.not, u32, wrap, EventType.kWrite.
  destruct (Z.ltb_spec k 32).
  - rewrite Z.mod_pow2_bits_low by lia. rewrite Z.lnot_spec by lia.
    rewrite Z.shiftl_1_l, Z.pow2_bits_eqb, Z.eqb_sym by lia. done.
  - by rewrite Z.mod_pow2_bits_high by lia.
Qed.

Lemma drop_write_bits t :
  has (t &&& ~~~ EventType.kWrite) EventType.kWrite = false /\
  has (t &&& ~~~ EventType.kWrite) EventType.kRead = has t EventType.kRead /\
  has (t &&& ~~~ EventType.kWrite) EventType.kError = has t EventType.kError.
Proof.
  rewrite !has_kWrite, !has_kRead, !has_kError. unfold EventType.and.
  rewrite !Z.land_spec, !not_write_bit by lia. simpl.
  by rewrite !andb_true_r, andb_false_r.
Qed.

Lemma kz_to_local_modes_ok m :
  kz_to_local_modes m =
    Ok (Z.lor EPOLLET (if Z.testbit m 0 then EPOLLONESHOT else 0)).
Proof. unfold kz_to_local_modes, translate, kEventModeToEpoll. ev_bits. Qed.

(** The mask of a subscription is defined as soon as it names one event. *)
Lemma kz_to_local_types_ok t :
  has t EventType.kRead = true \/ has t EventType.kWrite = true \/
  has t EventType.kError = true ->
  exists l, kz_to_local_types t = Ok l.
Proof.
  rewrite has_kRead, has_kWrite, has_kError. intros H.
  unfold kz_to_local_types, translate, kEventTypeToEpoll.
  revert H. ev_bits; try (intros; eexists; reflexivity); intros [?|[?|?]]; discriminate.
Qed.

Lemma kz_types_defined types :
  match kz_to_local_types types with
  | Ok _ => Z.land types all_types <> 0
  | Undef => Z.land types all_types = 0
  | Fatal _ => False
  end.
Proof.
  unfold kz_to_local_types, translate, kEventTypeToEpoll.
  rewrite (land_all_types types), !(land_kRead types), !(land_kWrite types),
    !(land_kError types), !(land_kShutdown types).
  by destruct (Z.testbit types 0), (Z.testbit types 1), (Z.testbit types 2),
    (Z.testbit types 3).
Qed.

(** The epoll mask of a subscription and the decoding of a reported mask
    are inverse on the events the library knows: the mask exists exactly when
    the subscription names at least one event (otherwise the source's [assert]
    fails), it always carries [EPOLLET], and decoding it, whatever the modes,
    gives back the subscribed events. *)
Lemma event_mask_roundtrip types modes :
  match kz_to_local_types types, kz_to_local_modes modes with
  | Ok l, Ok m =>
      Z.land types all_types <> 0 /\ Z.land (Z.lor l m) EPOLLET = EPOLLET /\
      local_to_kz (Z.lor l m) = Z.land types all_types
  | Undef, Ok _ => Z.land types all_types = 0
  | _, _ => False
  end.
Proof.
  rewrite kz_to_local_modes_ok.
  unfold kz_to_local_types, translate, kEventTypeToEpoll.
  rewrite (land_all_types types), !(land_kRead types), !(land_kWrite types),
    !(land_kError types), !(land_kShutdown types).
  destruct (Z.testbit types 0), (Z.testbit types 1), (Z.testbit types 2),
    (Z.testbit types 3), (Z.testbit modes 0); vm_compute;
    first [done | split_and!; done].
Qed.

(** Whatever mask the kernel reports (it may add [EPOLLERR] and [EPOLLHUP]
    to what was asked), the callback's [EventType] carries an event exactly
    when the report carries the matching epoll bit, and no undeclared bit. *)
Theorem local_to_kz_bits r :
  Z.land (local_to_kz r) all_types = local_to_kz r /\
  Forall (fun row => (Z.land (local_to_kz r) row.1 =? 0) = (Z.land r row.2 =? 0))
    kEventTypeToEpoll.
Proof.
  unfold local_to_kz, translate, kEventTypeToEpoll. rewrite !Forall_cons. simpl.
  destruct (Z.land r EPOLLIN =? 0), (Z.land r EPOLLOUT =? 0),
    (Z.land r EPOLLERR =? 0), (Z.land r EPOLLRDHUP =? 0);
    done.
Qed.
