(* ===== verification/Kernel.v ===== *)
(** * Kernel: what the library relies on from epoll

    [epoll_ctl] and [close] are kernel services: the loop is verified against
    the class below, whose laws are those of epoll_ctl(2) and epoll(7).  The
    concrete instance at the end (an interest list as a finite map that never
    refuses an allocation) is what the witnesses compute with. *)

From S2P Require Import Prelude Events.

Inductive ctl_op := EPOLL_CTL_ADD | EPOLL_CTL_MOD | EPOLL_CTL_DEL.

#[export] Instance ctl_op_eq_dec : EqDecision ctl_op.
Proof. solve_decision. Defined.

(** The result of a call: [None] is a return value [>= 0], [Some e] is [-1]
    with [errno = e]. *)
Definition sysret : Type := option Z.

Class EpollKernel (K : Type) := {
  epoll_ctl : K -> ctl_op -> Z -> Z -> K * sysret;
  sys_close : K -> Z -> K * sysret;
  (** the interest list: the mask a descriptor is subscribed with *)
  interest : K -> Z -> option Z
}.

Class EpollLaws (K : Type) `{EpollKernel K} := {
  (** a successful call changes the entry of its descriptor, and only it *)
  ctl_ok k op fd m k' :
    epoll_ctl k op fd m = (k', None) ->
    interest k' fd = (if decide (op = EPOLL_CTL_DEL) then None else Some m) /\
    (forall fd', fd' <> fd -> interest k' fd' = interest k fd');
  (** a refused call changes nothing *)
  ctl_err k op fd m k' e :
    epoll_ctl k op fd m = (k', Some e) ->
    forall fd', interest k' fd' = interest k fd';
  (** EEXIST: the descriptor is already registered (only [ADD] reports it) *)
  ctl_add_member k fd m k' r :
    epoll_ctl k EPOLL_CTL_ADD fd m = (k', r) ->
    (r = Some EEXIST <-> interest k fd <> None) /\ r <> Some ENOENT;
  (** ENOENT: the descriptor is not registered ([MOD] and [DEL] report it, or
      another error, as EBADF for a closed one) *)
  ctl_moddel_member k op fd m k' r :
    op <> EPOLL_CTL_ADD -> epoll_ctl k op fd m = (k', r) ->
    (r = Some ENOENT -> interest k fd = None) /\ (interest k fd = None -> r <> None) /\ r <> Some EEXIST;
  (** closing a descriptor removes it from the interest list *)
  close_ok k fd k' :
    sys_close k fd = (k', None) ->
    interest k' fd = None /\ (forall fd', fd' <> fd -> interest k' fd' = interest k fd');
  close_err k fd k' e :
    sys_close k fd = (k', Some e) ->
    forall fd', interest k' fd' = interest k fd'
}.

(** ** A concrete kernel *)

Module MapKernel.
Definition ctl (k : gmap Z Z) (op : ctl_op) (fd m : Z) : gmap Z Z * sysret :=
  match op, k !! fd with
  | EPOLL_CTL_ADD, Some _ => (k, Some EEXIST)
  | EPOLL_CTL_ADD, None => (<[fd := m]> k, None)
  | EPOLL_CTL_MOD, Some _ => (<[fd := m]> k, None)
  | EPOLL_CTL_DEL, Some _ => (delete fd k, None)
  | _, None => (k, Some ENOENT)
  end.

#[export] Instance map_kernel : EpollKernel (gmap Z Z) := {
  epoll_ctl := ctl;
  sys_close k fd := (delete fd k, None);
  interest k fd := k !! fd
}.

#[export] Instance map_laws : EpollLaws (gmap Z Z).
Proof.
  split; simpl.
  - intros k op fd m k' H. unfold ctl in H.
    destruct op, (k !! fd) eqn:E; simplify_eq; simpl;
      (split; [by simplify_map_eq | intros; by simplify_map_eq]).
  - intros k op fd m k' e H. unfold ctl in H.
    destruct op, (k !! fd) eqn:E; by simplify_eq.
  - intros k fd m k' r H. unfold ctl in H. destruct (k !! fd); by simplify_eq.
  - intros k op fd m k' r Hop H. unfold ctl in H.
    destruct op, (k !! fd); by simplify_eq.
  - intros k fd k' [= <-]. split; [|intros]; by simplify_map_eq.
  - done.
Qed.
End MapKernel.
