(* ===== verification/LoopFd.v ===== *)
(** * LoopFd: the descriptor table of a loop

    Models [Loop::events_] and the bodies of the tasks that [register_fd],
    [unregister_fd], the two [enable_fd] and [disable_fd] of [src/core.cpp]
    post to the io thread, and the table lookup of [io_executor].  The table is
    the vector [events_]; [events_[fd]] out of range is [Undef].  [CB] is the
    type of the stored callbacks. *)

From S2P Require Import Prelude Events Kernel.

Record event (CB : Type) := mk_event {
  in_register : bool;
  in_epoll : bool;
  cb_ : option CB
}.
Arguments mk_event {CB} _ _ _.
Arguments in_register {CB} _.
Arguments in_epoll {CB} _.
Arguments cb_ {CB} _.

Definition kEpollMaxWaitLen : Z := 256.
Definition kEpollInitEventLen : Z := 512.

(** [Event{}]: the value a new slot of the vector gets. *)
Definition blank {CB} : event CB := mk_event false false None.

(** What the bodies log: the two information messages and [sys_error::error]. *)
Inductive fd_log :=
| LogRepeatedUnregister
| LogNotRegistered
| LogError (err : Z).

Section table.
Context {K : Type} `{EK : EpollKernel K} {CB : Type}.

Record fd_state := mk_fds {
  events_ : list (event CB);
  kernel : K
}.

Definition with_event (fd : Z) (ev : event CB) (s : fd_state) : fd_state :=
  mk_fds (<[Z.to_nat fd := ev]> (events_ s)) (kernel s).

Definition with_kernel (k : K) (s : fd_state) : fd_state := mk_fds (events_ s) k.

(** [auto &event = events_[fd]] *)
Definition get_event (fd : Z) (s : fd_state) : res (event CB) :=
  if (0 <=? fd) then of_option (events_ s !! Z.to_nat fd) else Undef.

(** The resizing of [register_fd]'s task: by half, or to [fd + 1] slots;
    [fd] is compared and resized as [size_t]. *)
Definition grow_events (fd : Z) (evs : list (event CB)) : list (event CB) :=
  if zlen evs <=? u64 fd then
    let new_size := zlen evs + zlen evs / 2 in
    vresize (if new_size <? u64 (u64 fd + 1) then u64 (fd + 1) else new_size) blank evs
  else evs.

(** The task of [register_fd]. *)
Definition register_task (fd : Z) (s : fd_state) : res (fd_state * list fd_log) :=
  let s1 := mk_fds (grow_events fd (events_ s)) (kernel s) in
  ev ← get_event fd s1;
  Ok (with_event fd (mk_event true (in_epoll ev) (cb_ ev)) s1, []).

(** The task of [unregister_fd]. *)
Definition unregister_task (fd : Z) (s : fd_state) : res (fd_state * list fd_log) :=
  ev ← get_event fd s;
  if negb (in_register ev) then Ok (s, [LogRepeatedUnregister])
  else
    let '(k1, l1) :=
      if in_epoll ev then
        match epoll_ctl (kernel s) EPOLL_CTL_DEL fd 0 with
        | (k, Some e) => (k, if e =? ENOENT then [] else [LogError e])
        | (k, None) => (k, [])
        end
      else (kernel s, []) in
    match sys_close k1 fd with
    | (k2, Some e) => Ok (with_kernel k2 s, l1 ++ [LogError e])
    | (k2, None) => Ok (with_event fd (mk_event false false None) (with_kernel k2 s), l1)
    end.

(** The [epoll_ctl] calls both [enable_fd] bodies make: [MOD] or [ADD]
    according to [in_epoll], the other one when the kernel disagrees. *)
Definition subscribe (was_in : bool) (fd mask : Z) (k : K) : K * sysret :=
  let epoll_op := if was_in then EPOLL_CTL_MOD else EPOLL_CTL_ADD in
  match epoll_ctl k epoll_op fd mask with
  | (k1, None) => (k1, None)
  | (k1, Some e) =>
      if bool_decide (epoll_op = EPOLL_CTL_ADD) && (e =? EEXIST)
      then epoll_ctl k1 EPOLL_CTL_MOD fd mask
      else if bool_decide (epoll_op = EPOLL_CTL_MOD) && (e =? ENOENT)
      then epoll_ctl k1 EPOLL_CTL_ADD fd mask
      else (k1, Some e)
  end.

(** The task of [enable_fd(fd, types, modes, cb)]. *)
Definition enable_cb_task (fd types modes : Z) (cb : CB) (s : fd_state)
    : res (fd_state * list fd_log) :=
  ev ← get_event fd s;
  if negb (in_register ev) then Ok (s, [LogNotRegistered])
  else
    t ← kz_to_local_types types;
    m ← kz_to_local_modes modes;
    match subscribe (in_epoll ev) fd (Z.lor t m) (kernel s) with
    | (k, Some e) => Ok (with_kernel k s, [LogError e])
    | (k, None) =>
        Ok (with_event fd (mk_event (in_register ev) true (Some cb)) (with_kernel k s), [])
    end.

(** The task of [enable_fd(fd, types, modes)]: the callback stays. *)
Definition enable_task (fd types modes : Z) (s : fd_state)
    : res (fd_state * list fd_log) :=
  ev ← get_event fd s;
  if negb (in_register ev) then Ok (s, [LogNotRegistered])
  else
    t ← kz_to_local_types types;
    m ← kz_to_local_modes modes;
    match subscribe (in_epoll ev) fd (Z.lor t m) (kernel s) with
    | (k, Some e) => Ok (with_kernel k s, [LogError e])
    | (k, None) =>
        Ok (with_event fd (mk_event (in_register ev) true (cb_ ev)) (with_kernel k s), [])
    end.

(** The task of [disable_fd]. *)
Definition disable_task (fd : Z) (s : fd_state) : res (fd_state * list fd_log) :=
  ev ← get_event fd s;
  if negb (in_register ev) then Ok (s, [LogNotRegistered])
  else
    match epoll_ctl (kernel s) EPOLL_CTL_DEL fd 0 with
    | (k, Some e) =>
        if e =? ENOENT
        then Ok (with_event fd (mk_event (in_register ev) false None) (with_kernel k s), [])
        else Ok (with_kernel k s, [LogError e])
    | (k, None) =>
        Ok (with_event fd (mk_event (in_register ev) false None) (with_kernel k s), [])
    end.

(** [io_executor] on an event of a descriptor other than the wake-up one:
    the callback to call, if the slot has one, with the decoded events. *)
Definition dispatch (fd mask : Z) (s : fd_state) : res (option (CB * Z)) :=
  ev ← get_event fd s;
  Ok (cb ← cb_ ev; Some (cb, local_to_kz mask)).

(** [events_(kEpollInitEventLen)] *)
Definition init_table (k : K) : fd_state :=
  mk_fds (replicate (Z.to_nat kEpollInitEventLen) blank) k.

(** [Loop::Loop()]: [epoll_ret] and [wake_ret] are the descriptors
    [epoll_create1] and [eventfd] return, [err] the errno of a failure. *)
Definition loop_ctor (k : K) (epoll_ret wake_ret err : Z) : res fd_state :=
  if epoll_ret <? 0 then Fatal err
  else if wake_ret <? 0 then Fatal err
  else match epoll_ctl k EPOLL_CTL_ADD wake_ret (Z.lor EPOLLIN EPOLLET) with
       | (_, Some e) => Fatal e
       | (k', None) => Ok (init_table k')
       end.

(** The last loop of [Loop::~Loop()]: every registered descriptor is closed. *)
Fixpoint close_registered (fd : Z) (evs : list (event CB)) (k : K) : K * list fd_log :=
  match evs with
  | [] => (k, [])
  | ev :: evs' =>
      if in_register ev then
        let '(k1, r) := sys_close k fd in
        let '(k2, l) := close_registered (fd + 1) evs' k1 in
        (k2, match r with Some e => LogError e :: l | None => l end)
      else close_registered (fd + 1) evs' k
  end.

(** The rest of [~Loop()], when both threads are joined: the descriptors of the
    loop itself, then the registered ones. *)
Definition log_error (r : sysret) : list fd_log :=
  match r with Some e => [LogError e] | None => [] end.

Definition loop_dtor (epoll_fd_ io_wake_fd_ : Z) (s : fd_state) : K * list fd_log :=
  let '(k1, r1) := sys_close (kernel s) epoll_fd_ in
  let '(k2, r2) := sys_close k1 io_wake_fd_ in
  let '(k3, l) := close_registered 0 (events_ s) k2 in
  (k3, log_error r1 ++ log_error r2 ++ l).

(** The posted tasks that touch the table. *)
Inductive fd_task :=
| TRegister (fd : Z)
| TUnregister (fd : Z)
| TEnableCb (fd types modes : Z) (cb : CB)
| TEnable (fd types modes : Z)
| TDisable (fd : Z).

Definition run_fd_task (t : fd_task) (s : fd_state) : res (fd_state * list fd_log) :=
  match t with
  | TRegister fd => register_task fd s
  | TUnregister fd => unregister_task fd s
  | TEnableCb fd types modes cb => enable_cb_task fd types modes cb s
  | TEnable fd types modes => enable_task fd types modes s
  | TDisable fd => disable_task fd s
  end.

Fixpoint run_fd_tasks (ts : list fd_task) (s : fd_state) : res (fd_state * list fd_log) :=
  match ts with
  | [] => Ok (s, [])
  | t :: ts' =>
      r ← run_fd_task t s;
      r' ← run_fd_tasks ts' r.1;
      Ok (r'.1, r.2 ++ r'.2)
  end.

Definition task_fd (t : fd_task) : Z :=
  match t with
  | TRegister fd | TUnregister fd | TEnableCb fd _ _ _ | TEnable fd _ _ | TDisable fd => fd
  end.
End table.
Arguments fd_state : clear implicits.
Arguments fd_task : clear implicits.

(** ** Lemmas *)

Section facts.
Context {K : Type} `{EK : EpollKernel K, EL : !EpollLaws K} {CB : Type}.
Implicit Types (s : fd_state K CB) (ev : event CB).

Lemma get_event_Ok fd s ev :
  get_event fd s = Ok ev <-> 0 <= fd /\ events_ s !! Z.to_nat fd = Some ev.
Proof.
  unfold get_event. destruct (Z.leb_spec 0 fd).
  - destruct (events_ s !! Z.to_nat fd); simpl; split.
    all: intros; destruct_and?; simplify_eq; auto.
  - split; [done | lia].
Qed.

Lemma get_event_in_range fd s :
  0 <= fd < zlen (events_ s) -> exists ev, get_event fd s = Ok ev.
Proof.
  intros H. destruct (lookup_lt_is_Some_2 (events_ s) (Z.to_nat fd)) as [ev He];
    [unfold zlen in *; lia|].
  exists ev. apply get_event_Ok. split; [lia | done].
Qed.

Lemma get_event_with fd fd' ev ev' s :
  get_event fd s = Ok ev' ->
  get_event fd' (with_event fd ev s) =
    (if decide (fd' = fd) then Ok ev else get_event fd' s).
Proof.
  intros [H1 H2]%get_event_Ok. apply lookup_lt_Some in H2 as Hlt.
  unfold get_event, with_event. simpl. destruct (Z.leb_spec 0 fd') as [H|H].
  - case_decide as Hd; subst.
    + by rewrite list_lookup_insert_eq.
    + rewrite list_lookup_insert_ne by lia. done.
  - case_decide; [lia | done].
Qed.

(** The outcome of [subscribe] in terms of the interest list only: a success
    subscribes with the mask, whatever [in_epoll] believed, and the only
    errors are those of the kernel other than EEXIST and ENOENT. *)
Lemma subscribe_spec was_in fd mask (k k' : K) r :
  subscribe was_in fd mask k = (k', r) ->
  match r with
  | None => interest k' fd = Some mask /\
      (forall fd', fd' <> fd -> interest k' fd' = interest k fd')
  | Some e => (forall fd', interest k' fd' = interest k fd') /\
      e <> EEXIST /\ e <> ENOENT
  end.
Proof.
  intros H. unfold subscribe in H.
  destruct (epoll_ctl k _ fd mask) as [k1 [e|]] eqn:E1; cycle 1.
  { injection H as <- <-. apply ctl_ok in E1 as [Hi ?]. split; [|done].
    rewrite Hi. by destruct was_in. }
  pose proof (ctl_err _ _ _ _ _ _ E1) as Hsame.
  assert (Hret : e <> ENOENT -> e <> EEXIST -> (k1, Some e) = (k', r) ->
    match r with
    | None => interest k' fd = Some mask /\
        (forall fd', fd' <> fd -> interest k' fd' = interest k fd')
    | Some e => (forall fd', interest k' fd' = interest k fd') /\
        e <> EEXIST /\ e <> ENOENT
    end) by (intros ?? [= <- <-]; done).
  destruct was_in; simpl in *.
  - pose proof (ctl_moddel_member _ EPOLL_CTL_MOD _ _ _ _ ltac:(done) E1) as (Hm & _ & Hex).
    destruct (Z.eqb_spec e ENOENT) as [->|Hne]; [|apply Hret; congruence].
    destruct (ctl_add_member _ _ _ _ _ H) as [[Hadd _] ?].
    rewrite Hsame, (Hm eq_refl) in Hadd. clear Hret.
    destruct r as [e'|].
    + split; [intros; by rewrite (ctl_err _ _ _ _ _ _ H), Hsame|].
      split; [|congruence]. intros ->. by apply Hadd.
    + destruct (ctl_ok _ _ _ _ _ H) as [? Ho]. split; [done|].
      intros. by rewrite Ho, Hsame.
  - destruct (ctl_add_member _ _ _ _ _ E1) as [[Hm _] Hen].
    destruct (Z.eqb_spec e EEXIST) as [->|Hne]; [|apply Hret; congruence].
    pose proof (ctl_moddel_member _ EPOLL_CTL_MOD _ _ _ _ ltac:(done) H) as (Hmod & _ & ?).
    rewrite Hsame in Hmod. clear Hret. specialize (Hm eq_refl).
    destruct r as [e'|].
    + split; [intros; by rewrite (ctl_err _ _ _ _ _ _ H), Hsame|].
      split; [congruence|]. intros ->. by apply Hm, Hmod.
    + destruct (ctl_ok _ _ _ _ _ H) as [? Ho]. split; [done|].
      intros. by rewrite Ho, Hsame.
Qed.

(** *** The table invariant

    A slot without a registered descriptor is blank (no callback of a former
    owner survives), and every descriptor the kernel watches is marked
    [in_epoll] in the table.  [wake] is the wake-up descriptor, which has no
    slot. *)
Record fd_inv (wake : Z) (s : fd_state K CB) : Prop := {
  inv_blank fd ev : events_ s !! fd = Some ev -> in_register ev = false -> ev = blank;
  inv_interest fd :
    interest (kernel s) fd <> None ->
    fd = wake \/ exists ev, get_event fd s = Ok ev /\ in_epoll ev = true
}.

Lemma inv_with_kernel wake k s :
  fd_inv wake s ->
  (forall fd, interest k fd <> None -> interest (kernel s) fd <> None) ->
  fd_inv wake (with_kernel k s).
Proof. intros [Hb Hi] Hk. split; [exact Hb|]. intros fd H. by apply Hi, Hk. Qed.

Lemma inv_with_event wake fd ev ev0 k s :
  fd_inv wake s -> get_event fd s = Ok ev0 ->
  (in_register ev = false -> ev = blank) ->
  (forall fd', fd' <> fd -> interest k fd' = interest (kernel s) fd') ->
  (interest k fd <> None -> in_epoll ev = true) ->
  fd_inv wake (with_event fd ev (with_kernel k s)).
Proof.
  intros [Hb Hi] Hg Hev Hother Hfd. split.
  - intros i e Hl Hr. simpl in Hl. apply list_lookup_insert_Some in Hl.
    destruct Hl as [(<- & <- & ?)|[? ?]]; [by apply Hev | by apply (Hb i)].
  - intros fd' H. simpl in H. rewrite (get_event_with _ _ _ ev0) by done.
    case_decide as Hd; [subst; right; eauto|].
    apply (Hi fd'). by rewrite <- Hother.
Qed.

Lemma unregister_inv wake fd s s' l :
  fd_inv wake s -> unregister_task fd s = Ok (s', l) -> fd_inv wake s'.
Proof.
  intros Hinv H. unfold unregister_task in H. inv_res.
  destruct (in_register a); simpl in H; [|by inv_res].
  destruct (if in_epoll a then _ else _) as [k1 l1] eqn:E1.
  assert (Hsub : forall fd', interest k1 fd' <> None -> interest (kernel s) fd' <> None).
  { destruct (in_epoll a); [|by simplify_eq].
    destruct (epoll_ctl _ _ _ _) as [k [e|]] eqn:E; simplify_eq; intros fd' Hf.
    - by rewrite <- (ctl_err _ _ _ _ _ _ E).
    - destruct (ctl_ok _ _ _ _ _ E) as [Hn Ho]. case_decide; [|done].
      destruct (decide (fd' = fd)); [congruence | by rewrite <- Ho]. }
  assert (Hoth : forall fd', fd' <> fd -> interest k1 fd' = interest (kernel s) fd').
  { destruct (in_epoll a); [|by simplify_eq].
    destruct (epoll_ctl _ _ _ _) as [k [e|]] eqn:E; simplify_eq; intros fd' Hf.
    - by rewrite (ctl_err _ _ _ _ _ _ E).
    - by apply (ctl_ok _ _ _ _ _ E). }
  destruct (sys_close k1 fd) as [k2 [e|]] eqn:E2; simplify_eq.
  - apply inv_with_kernel; [done|]. intros fd' Hf. apply Hsub.
    by rewrite <- (close_err _ _ _ _ E2).
  - destruct (close_ok _ _ _ E2) as [Hn Ho].
    eapply inv_with_event; [done..| |congruence].
    intros fd' Hf. rewrite Ho by done. by apply Hoth.
Qed.

Lemma grow_events_ok fd (evs : list (event CB)) :
  0 <= fd < 2 ^ 31 - 1 ->
  let evs' := grow_events fd evs in
  zlen evs <= zlen evs' /\ fd < zlen evs' /\
  zlen evs' <= Z.max (zlen evs + zlen evs / 2) (fd + 1) /\
  (forall i, 0 <= i < zlen evs -> evs' !! Z.to_nat i = evs !! Z.to_nat i) /\
  (forall i ev, zlen evs <= i -> evs' !! Z.to_nat i = Some ev -> ev = blank).
Proof.
  intros Hfd evs'. pose proof (zlen_nonneg evs). unfold evs', grow_events.
  assert (u64 fd = fd) as -> by (apply wrap_id; unfold in_u; lia).
  assert (u64 (fd + 1) = fd + 1) as -> by (apply wrap_id; unfold in_u; lia).
  assert (0 <= zlen evs / 2) by dlia.
  destruct (Z.leb_spec (zlen evs) fd); cycle 1.
  { split_and!; [lia..|done|].
    intros i ev Hi Hl. apply lookup_lt_Some in Hl. unfold zlen in *. lia. }
  set (n := if _ <? _ then fd + 1 else _).
  assert (zlen evs <= n /\ fd < n /\ n <= Z.max (zlen evs + zlen evs / 2) (fd + 1))
    as (? & ? & ?) by (unfold n; destruct (Z.ltb_spec (zlen evs + zlen evs / 2) (fd + 1)); lia).
  rewrite !zlen_vresize. split_and!; [lia..| |]; unfold vresize, zlen in *.
  - intros i Hi. by rewrite lookup_resize by lia.
  - intros i ev Hi Hl. destruct (decide (i < n)).
    + rewrite lookup_resize_new in Hl by lia. congruence.
    + by rewrite lookup_resize_old in Hl by lia.
Qed.

Lemma register_Ok fd s :
  0 <= fd < 2 ^ 31 - 1 ->
  exists s' ev, register_task fd s = Ok (s', []) /\
    get_event fd (mk_fds (grow_events fd (events_ s)) (kernel s)) = Ok ev /\
    s' = with_event fd (mk_event true (in_epoll ev) (cb_ ev))
           (mk_fds (grow_events fd (events_ s)) (kernel s)) /\
    (zlen (events_ s) <= fd -> ev = blank) /\
    (fd < zlen (events_ s) -> get_event fd s = Ok ev).
Proof.
  intros Hfd. destruct (grow_events_ok fd (events_ s) Hfd) as (? & ? & ? & Hold & Hnew).
  unfold register_task.
  destruct (get_event_in_range fd (mk_fds (grow_events fd (events_ s)) (kernel s)))
    as [ev Hev]; [simpl; lia|].
  rewrite Hev. simpl. do 2 eexists. split_and!; try done.
  all: apply get_event_Ok in Hev as [? Hl]; simpl in Hl; intros.
  - by apply (Hnew fd).
  - apply get_event_Ok. by rewrite <- Hold.
Qed.

Lemma register_inv wake fd s s' l :
  0 <= fd < 2 ^ 31 - 1 -> fd <> wake ->
  fd_inv wake s -> register_task fd s = Ok (s', l) -> fd_inv wake s'.
Proof.
  intros Hfd Hw [Hb Hi] H. destruct (register_Ok fd s Hfd) as (s1 & ev & Hr & Hev & -> & _ & _).
  rewrite Hr in H. simplify_eq.
  destruct (grow_events_ok fd (events_ s) Hfd) as (? & ? & ? & Hold & Hnew).
  set (sg := mk_fds (grow_events fd (events_ s)) (kernel s)) in *.
  assert (Hg : fd_inv wake sg).
  { split.
    - intros i e Hl Hreg. simpl in Hl. rewrite <- (Nat2Z.id i) in Hl.
      destruct (decide (Z.of_nat i < zlen (events_ s))) as [Hlt|Hge].
      + rewrite Hold, Nat2Z.id in Hl by lia. by apply (Hb i).
      + apply (Hnew (Z.of_nat i)); [lia | done].
    - intros i Hn. destruct (Hi i Hn) as [->|(e & He & ?)]; [by left|].
      right. exists e. split; [|done]. apply get_event_Ok in He as [? He].
      apply get_event_Ok. split; [done|]. simpl. rewrite Hold; [done|].
      apply lookup_lt_Some in He. unfold zlen. lia. }
  apply (inv_with_event _ _ _ ev (kernel s) _ Hg); try done.
  intros Hn. simpl. destruct Hg as [_ Hgi].
  destruct (Hgi fd Hn) as [->|(e & He & ?)]; congruence.
Qed.

(** Both [enable_fd] bodies end in the same update. *)
Lemma subscribe_inv wake fd ev mask k s cb :
  fd_inv wake s -> get_event fd s = Ok ev -> in_register ev = true ->
  subscribe (in_epoll ev) fd mask (kernel s) = (k, None) ->
  fd_inv wake (with_event fd (mk_event true true cb) (with_kernel k s)).
Proof.
  intros Hinv Hev Hr H. apply subscribe_spec in H as [_ Ho].
  by apply (inv_with_event _ _ _ ev).
Qed.

Lemma subscribe_err_inv wake was_in fd mask k s e :
  fd_inv wake s -> subscribe was_in fd mask (kernel s) = (k, Some e) ->
  fd_inv wake (with_kernel k s).
Proof.
  intros Hinv H. apply subscribe_spec in H as [Hs _].
  apply inv_with_kernel; [done|]. intros ? Hn. by rewrite <- Hs.
Qed.

Lemma enable_cb_inv wake fd types modes cb s s' l :
  fd_inv wake s -> enable_cb_task fd types modes cb s = Ok (s', l) -> fd_inv wake s'.
Proof.
  intros Hinv H. unfold enable_cb_task in H. inv_res.
  destruct (in_register a) eqn:Hr; simpl in H; inv_res; [|done].
  destruct (subscribe _ _ _ _) as [k [e|]] eqn:Es; simplify_eq.
  - by eapply subscribe_err_inv.
  - by eapply subscribe_inv.
Qed.

Lemma enable_inv wake fd types modes s s' l :
  fd_inv wake s -> enable_task fd types modes s = Ok (s', l) -> fd_inv wake s'.
Proof.
  intros Hinv H. unfold enable_task in H. inv_res.
  destruct (in_register a) eqn:Hr; simpl in H; inv_res; [|done].
  destruct (subscribe _ _ _ _) as [k [e|]] eqn:Es; simplify_eq.
  - by eapply subscribe_err_inv.
  - by eapply subscribe_inv.
Qed.

Lemma disable_inv wake fd s s' l :
  fd_inv wake s -> disable_task fd s = Ok (s', l) -> fd_inv wake s'.
Proof.
  intros Hinv H. unfold disable_task in H. inv_res.
  destruct (in_register a) eqn:Hr; simpl in H; [|by simplify_eq].
  destruct (epoll_ctl _ _ _ _) as [k [e|]] eqn:E.
  - pose proof (ctl_err _ _ _ _ _ _ E) as Hs.
    destruct (ctl_moddel_member _ EPOLL_CTL_DEL _ _ _ _ ltac:(done) E) as (Hno & _).
    destruct (Z.eqb_spec e ENOENT) as [->|]; simplify_eq.
    + apply (inv_with_event _ _ _ a); try done. intros Hn. by rewrite Hs, Hno in Hn.
    + apply inv_with_kernel; [done|]. intros ? Hn. by rewrite <- Hs.
  - destruct (ctl_ok _ _ _ _ _ E) as [Hn Ho]. case_decide; [|done]. simplify_eq.
    apply (inv_with_event _ _ _ a); try done.
Qed.

(** A descriptor a task may name: an [int] the kernel returned, not the
    wake-up one. *)
Definition fd_ok (wake fd : Z) : Prop := 0 <= fd < 2 ^ 31 - 1 /\ fd <> wake.

Lemma run_fd_task_inv wake t s s' l :
  fd_ok wake (task_fd t) -> fd_inv wake s -> run_fd_task t s = Ok (s', l) ->
  fd_inv wake s'.
Proof.
  destruct t; simpl; intros [? ?] ? ?;
    eauto using register_inv, unregister_inv, enable_cb_inv, enable_inv, disable_inv.
Qed.

Lemma run_fd_tasks_inv wake ts s s' l :
  Forall (fun t => fd_ok wake (task_fd t)) ts ->
  fd_inv wake s -> run_fd_tasks ts s = Ok (s', l) -> fd_inv wake s'.
Proof.
  revert s s' l. induction ts as [|t ts IH]; intros s s' l Hts Hinv H; simpl in H.
  { by simplify_eq. }
  apply Forall_cons in Hts as [Ht Hts]. inv_res. destruct a as [s1 l1], a0 as [s2 l2].
  simpl in *. simplify_eq/=.
  apply (IH s1 s2 l2 Hts); [by eapply run_fd_task_inv | done].
Qed.

Lemma loop_ctor_inv k epoll_ret wake_ret err s :
  (forall fd, interest k fd = None) ->
  loop_ctor k epoll_ret wake_ret err = Ok s ->
  fd_inv wake_ret s /\ zlen (events_ s) = kEpollInitEventLen.
Proof.
  intros Hk H. unfold loop_ctor in H.
  destruct (epoll_ret <? 0); [done|]. destruct (wake_ret <? 0); [done|].
  destruct (epoll_ctl _ _ _ _) as [k' [e|]] eqn:E; [done|].
  assert (s = init_table k') as -> by congruence.
  destruct (ctl_ok _ _ _ _ _ E) as [_ Ho]. split; [split|].
  - intros fd ev Hl _. unfold init_table in Hl. cbn [events_] in Hl.
    by apply lookup_replicate in Hl as [-> _].
  - intros fd Hn. destruct (decide (fd = wake_ret)); [by left|].
    unfold init_table in Hn. cbn [kernel] in Hn. by rewrite Ho, Hk in Hn.
  - unfold zlen, init_table. cbn [events_]. by rewrite length_replicate.
Qed.

(** *** Defined behaviour

    A task list the channels may post: each descriptor is registered before
    it is named, and each subscription names an event. *)
Fixpoint wf_tasks (wake : Z) (known : gset Z) (ts : list (fd_task CB)) : Prop :=
  match ts with
  | [] => True
  | t :: ts' =>
      fd_ok wake (task_fd t) /\
      match t with
      | TRegister fd => wf_tasks wake ({[fd]} ∪ known) ts'
      | TEnableCb fd types _ _ | TEnable fd types _ =>
          fd ∈ known /\ Z.land types all_types <> 0 /\ wf_tasks wake known ts'
      | TUnregister fd | TDisable fd => fd ∈ known /\ wf_tasks wake known ts'
      end
  end.

Definition covers (known : gset Z) (s : fd_state K CB) : Prop :=
  forall fd, fd ∈ known -> 0 <= fd < zlen (events_ s).

Lemma kz_to_local_types_nonzero types :
  Z.land types all_types <> 0 -> exists m, kz_to_local_types types = Ok m.
Proof.
  intros Ht. pose proof (kz_types_defined types) as H.
  destruct (kz_to_local_types types); [eauto | tauto | tauto].
Qed.

Lemma zlen_with_event fd ev s : zlen (events_ (with_event fd ev s)) = zlen (events_ s).
Proof. unfold zlen. simpl. by rewrite length_insert. Qed.

Lemma unregister_defined fd s :
  0 <= fd < zlen (events_ s) ->
  exists s' l, unregister_task fd s = Ok (s', l) /\ zlen (events_ s') = zlen (events_ s).
Proof.
  intros Hfd. destruct (get_event_in_range fd s Hfd) as [ev Hev].
  unfold unregister_task. rewrite Hev. simpl.
  destruct (in_register ev); simpl; [|eauto].
  destruct (if in_epoll ev then _ else _) as [k1 l1].
  destruct (sys_close k1 fd) as [k2 [e|]]; do 2 eexists; (split; [done|]).
  - done.
  - by rewrite zlen_with_event.
Qed.

Lemma disable_defined fd s :
  0 <= fd < zlen (events_ s) ->
  exists s' l, disable_task fd s = Ok (s', l) /\ zlen (events_ s') = zlen (events_ s).
Proof.
  intros Hfd. destruct (get_event_in_range fd s Hfd) as [ev Hev].
  unfold disable_task. rewrite Hev. simpl.
  destruct (in_register ev); simpl; [|eauto].
  destruct (epoll_ctl _ _ _ _) as [k [e|]]; [destruct (e =? ENOENT)|];
    do 2 eexists; (split; [done|]); rewrite ?zlen_with_event; done.
Qed.

Lemma enable_defined fd types modes (cb : option CB) s :
  0 <= fd < zlen (events_ s) -> Z.land types all_types <> 0 ->
  exists s' l, match cb with
               | Some c => enable_cb_task fd types modes c s
               | None => enable_task fd types modes s
               end = Ok (s', l) /\ zlen (events_ s') = zlen (events_ s).
Proof.
  intros Hfd Ht. destruct (get_event_in_range fd s Hfd) as [ev Hev].
  destruct (kz_to_local_types_nonzero types Ht) as [t Hkt].
  unfold enable_cb_task, enable_task. rewrite Hev, Hkt, kz_to_local_modes_ok. simpl.
  destruct cb; (destruct (in_register ev); simpl; [|eauto]);
    (destruct (subscribe _ _ _ _) as [k [e|]]; do 2 eexists; (split; [done|]);
     rewrite ?zlen_with_event; done).
Qed.

Lemma wf_tasks_defined wake ts known s :
  wf_tasks wake known ts -> covers known s ->
  exists s' l, run_fd_tasks ts s = Ok (s', l).
Proof.
  revert known s. induction ts as [|t ts IH]; intros known s Hwf Hc; [simpl; eauto|].
  assert (Hstep : exists s1 l1 known', run_fd_task t s = Ok (s1, l1) /\
    covers known' s1 /\ wf_tasks wake known' ts).
  { destruct t; simpl in *; destruct Hwf as [[Hfd _] Hwf].
    - destruct (register_Ok fd s Hfd) as (s1 & ev & Hr & _ & -> & _).
      eexists _, _, _. split_and!; [done| |done]. intros i Hi.
      rewrite zlen_with_event. simpl.
      destruct (grow_events_ok fd (events_ s) Hfd) as (? & ? & _).
      apply elem_of_union in Hi as [Hi%elem_of_singleton|Hi]; [lia|].
      specialize (Hc i Hi). lia.
    - destruct Hwf as [Hk Hwf]. destruct (unregister_defined fd s) as (s1 & l & ? & Hl); [auto|].
      eexists _, _, _. split_and!; [done| |done]. intros i Hi. rewrite Hl. auto.
    - destruct Hwf as (Hk & Ht & Hwf).
      destruct (enable_defined fd types modes (Some cb) s) as (s1 & l & ? & Hl); [auto..|].
      eexists _, _, _. split_and!; [done| |done]. intros i Hi. rewrite Hl. auto.
    - destruct Hwf as (Hk & Ht & Hwf).
      destruct (enable_defined fd types modes None s) as (s1 & l & ? & Hl); [auto..|].
      eexists _, _, _. split_and!; [done| |done]. intros i Hi. rewrite Hl. auto.
    - destruct Hwf as [Hk Hwf]. destruct (disable_defined fd s) as (s1 & l & ? & Hl); [auto|].
      eexists _, _, _. split_and!; [done| |done]. intros i Hi. rewrite Hl. auto. }
  destruct Hstep as (s1 & l1 & known' & Hr & Hc1 & Hwf1).
  destruct (IH known' s1 Hwf1 Hc1) as (s2 & l2 & H2).
  simpl. rewrite Hr. simpl. rewrite H2. simpl. eauto.
Qed.

Lemma wf_tasks_fd_ok wake known ts :
  wf_tasks wake known ts -> Forall (fun t => fd_ok wake (task_fd t)) ts.
Proof.
  revert known. induction ts as [|t ts IH]; intros known Hwf; [constructor|].
  destruct t; simpl in Hwf; destruct_and!; constructor; eauto.
Qed.

(** C2: from the constructor on, whatever tasks the channels post, the table
    keeps its invariant: a released slot is blank, so no callback of a former
    owner of the descriptor can run, and the kernel never watches a
    descriptor the table does not mark [in_epoll]. *)
Theorem fd_table_invariant k epoll_ret wake_ret err s0 ts s l :
  (forall fd, interest k fd = None) ->
  loop_ctor k epoll_ret wake_ret err = Ok s0 ->
  Forall (fun t => fd_ok wake_ret (task_fd t)) ts ->
  run_fd_tasks ts s0 = Ok (s, l) ->
  fd_inv wake_ret s.
Proof.
  intros Hk H0 Hts H. destruct (loop_ctor_inv _ _ _ _ _ Hk H0) as [Hinv _].
  by eapply run_fd_tasks_inv.
Qed.

(** A task list that registers a descriptor before naming it, and only
    subscribes to non-empty event sets, never indexes [events_] out of range
    nor fails an [assert], from the constructor's table on. *)
Theorem fd_tasks_defined k epoll_ret wake_ret err s0 ts :
  loop_ctor k epoll_ret wake_ret err = Ok s0 ->
  wf_tasks wake_ret ∅ ts ->
  exists s l, run_fd_tasks ts s0 = Ok (s, l).
Proof.
  intros H0 Hwf. apply (wf_tasks_defined wake_ret ts ∅ s0 Hwf). intros fd Hfd. set_solver.
Qed.

(** [enable_fd] on a registered descriptor, on every branch: whatever
    [in_epoll] says about the kernel's interest list, the task either
    subscribes the descriptor with the edge-triggered mask, marks it and
    installs the callback, or logs the kernel's error (never EEXIST or
    ENOENT, which it recovers from) and changes neither table nor interest. *)
Theorem enable_fd_spec fd types modes cb s ev t m s' l :
  get_event fd s = Ok ev -> in_register ev = true ->
  kz_to_local_types types = Ok t -> kz_to_local_modes modes = Ok m ->
  enable_cb_task fd types modes cb s = Ok (s', l) ->
  (l = [] /\ interest (kernel s') fd = Some (Z.lor t m) /\
   get_event fd s' = Ok (mk_event true true (Some cb)) /\
   (forall fd', fd' <> fd ->
      interest (kernel s') fd' = interest (kernel s) fd' /\
      get_event fd' s' = get_event fd' s)) \/
  (exists e, l = [LogError e] /\ e <> EEXIST /\ e <> ENOENT /\
   (forall fd', interest (kernel s') fd' = interest (kernel s) fd') /\
   events_ s' = events_ s).
Proof.
  intros Hev Hr Ht Hm H. unfold enable_cb_task in H.
  rewrite Hev, Ht, Hm in H. simpl in H. rewrite Hr in H. simpl in H.
  destruct (subscribe _ _ _ _) as [k [e|]] eqn:Es; simplify_eq.
  - right. exists e. apply subscribe_spec in Es as (? & ? & ?). done.
  - left. apply subscribe_spec in Es as [? Ho]. split_and!; try done.
    + rewrite (get_event_with _ _ _ ev) by done. by case_decide.
    + intros fd' Hne. rewrite (get_event_with _ _ _ ev) by done.
      case_decide; [done|]. split; [by apply Ho | done].
Qed.

(** When [close] succeeds, [unregister_fd] leaves the slot blank and the
    descriptor out of the interest list, so that an event still queued for it
    in the same [epoll_wait] batch calls nothing. *)
Theorem unregister_fd_spec fd s ev s' l mask :
  get_event fd s = Ok ev -> in_register ev = true ->
  (forall k, (sys_close k fd).2 = None) ->
  unregister_task fd s = Ok (s', l) ->
  get_event fd s' = Ok blank /\ interest (kernel s') fd = None /\
  dispatch fd mask s' = Ok None /\
  (forall e, LogError e ∈ l -> e <> ENOENT).
Proof.
  intros Hev Hr Hclose H. unfold unregister_task in H. rewrite Hev in H. simpl in H.
  rewrite Hr in H. simpl in H.
  destruct (if in_epoll ev then _ else _) as [k1 l1] eqn:E1.
  specialize (Hclose k1). destruct (sys_close k1 fd) as [k2 r] eqn:E2. simpl in Hclose.
  subst r. simplify_eq.
  assert (Hg : get_event fd (with_event fd (mk_event false false None) (with_kernel k2 s))
               = Ok blank).
  { rewrite (get_event_with _ _ _ ev) by done. by case_decide. }
  split_and!; [done | by apply (close_ok k1) | unfold dispatch; by rewrite Hg |].
  intros e He. destruct (in_epoll ev); [|simplify_eq; set_solver].
  destruct (epoll_ctl _ _ _ _) as [k [e'|]]; simplify_eq; [|set_solver].
  destruct (Z.eqb_spec e' ENOENT); set_solver.
Qed.
End facts.

(** ** Witnesses, on the concrete kernel *)

Import MapKernel.

Definition demo_tasks : list (fd_task nat) :=
  [TRegister 700; TEnableCb 700 EventType.kRead EventMode.kDefault 1%nat;
   TEnable 700 (EventType.kRead ||| EventType.kWrite) EventMode.kDefault;
   TDisable 700; TUnregister 700; TUnregister 700].

Definition demo_state (ts : list (fd_task nat)) : fd_state (gmap Z Z) nat :=
  match loop_ctor ∅ 3 4 0 with
  | Ok s0 => match run_fd_tasks ts s0 with Ok (s, _) => s | _ => s0 end
  | _ => mk_fds [] ∅
  end.

Definition demo_log (ts : list (fd_task nat)) : list fd_log :=
  match loop_ctor (K := gmap Z Z) ∅ 3 4 0 with
  | Ok s0 => match run_fd_tasks ts s0 with Ok (_, l) => l | _ => [] end
  | _ => []
  end.

Lemma fd_table_invariant_witness :
  fd_inv 4 (demo_state demo_tasks) /\
  demo_log demo_tasks = [LogRepeatedUnregister] /\
  zlen (events_ (demo_state demo_tasks)) = 768.
Proof.
  split; [|split; vm_compute; reflexivity].
  apply (fd_table_invariant (∅ : gmap Z Z) 3 4 0 (demo_state []) demo_tasks
    (demo_state demo_tasks) (demo_log demo_tasks)).
  - intros fd. reflexivity.
  - vm_compute. reflexivity.
  - repeat constructor; vm_compute; congruence.
  - vm_compute. reflexivity.
Defined.

Lemma fd_tasks_defined_witness :
  exists s l, run_fd_tasks demo_tasks (demo_state []) = Ok (s, l).
Proof.
  apply (fd_tasks_defined (∅ : gmap Z Z) 3 4 0).
  - vm_compute. reflexivity.
  - simpl. unfold fd_ok.
    split_and!; try lia; try set_solver; vm_compute; discriminate.
Defined.

(** The kernel lost the subscription although [in_epoll] is set: MOD fails with
    ENOENT, and the task adds the descriptor again. *)
Definition stale_state : fd_state (gmap Z Z) nat :=
  mk_fds [blank; mk_event true true (Some 7%nat)] ∅.

Lemma enable_fd_spec_witness :
  exists s', enable_cb_task 1 EventType.kRead EventMode.kOneShot 9%nat stale_state = Ok (s', []) /\
    (([] : list fd_log) = [] /\
     interest (kernel s') 1 = Some (Z.lor EPOLLIN (Z.lor EPOLLET EPOLLONESHOT)) /\
     get_event 1 s' = Ok (mk_event true true (Some 9%nat)) /\
     (forall fd', fd' <> 1 ->
        interest (kernel s') fd' = interest (kernel stale_state) fd' /\
        get_event fd' s' = get_event fd' stale_state) \/
     (exists e, [] = [LogError e] /\ e <> EEXIST /\ e <> ENOENT /\
       (forall fd', interest (kernel s') fd' = interest (kernel stale_state) fd') /\
       events_ s' = events_ stale_state)).
Proof.
  eexists. split; [vm_compute; reflexivity|].
  apply (enable_fd_spec 1 EventType.kRead EventMode.kOneShot 9%nat stale_state
    (mk_event true true (Some 7%nat))); vm_compute; reflexivity.
Defined.

Lemma unregister_fd_spec_witness :
  exists s', unregister_task 1 stale_state = Ok (s', []) /\
    (get_event 1 s' = Ok blank /\ interest (kernel s') 1 = None /\
     dispatch 1 EPOLLIN s' = Ok None /\ (forall e, LogError e ∈ [] -> e <> ENOENT)).
Proof.
  eexists. split; [vm_compute; reflexivity|].
  apply (unregister_fd_spec 1 stale_state (mk_event true true (Some 7%nat)));
    [vm_compute; reflexivity | reflexivity | reflexivity | vm_compute; reflexivity].
Defined.
