(* ===== verification/LoopIo.v ===== *)
(** * LoopIo: the io task queue, the wake-up descriptor and the io thread

    Models [post_io_task], [wake_io_up] and [io_executor] of [src/core.cpp] as
    a step relation.  Any thread may post at any time: a post is one step (the
    push under [io_queue_mtx_]) followed by a separate step (the [write] to the
    eventfd), and [io_pending_wakes] counts the posters between the two.  The
    io thread's program counter ranges over the points of [io_executor] where
    other threads can intervene.  [io_posted] and [io_executed] are ghosts: the
    tasks in the order they were pushed and in the order they were called. *)

From S2P Require Import Prelude Events Kernel LoopFd.

(** [Loop::ExeState] *)
Inductive exe_state := Stopped | Running | Stopping.

#[export] Instance exe_state_eq_dec : EqDecision exe_state.
Proof. solve_decision. Defined.

(** One entry of the array [epoll_wait] fills. *)
Inductive io_event := EvWake | EvFd (fd mask : Z).

#[export] Instance io_event_eq_dec : EqDecision io_event.
Proof. solve_decision. Defined.

(** Where the io thread is.  [IO_batch evs]: at the head of the [for] over the
    events not handled yet; [IO_swap evs]: the eventfd is drained, the queues
    not swapped; [IO_run n evs]: [n] tasks of the execution queue were called;
    [IO_fatal]: [sys_error::fatal()] threw. *)
Inductive io_pc :=
| IO_none
| IO_check
| IO_wait
| IO_batch (evs : list io_event)
| IO_swap (evs : list io_event)
| IO_run (n : nat) (evs : list io_event)
| IO_done
| IO_fatal (err : Z).

(** The eventfd counter saturates at [2^64 - 2]: a further [write] is EAGAIN. *)
Definition eventfd_max : Z := 2 ^ 64 - 2.

Section io.
Context {T : Type}.

Record io_side := mk_io {
  io_at : io_pc;
  io_buffer_queue_ : list T;
  io_exe_queue_ : list T;
  io_pending_wakes : nat;
  wake_count : Z;
  wake_ready : bool;
  io_posted : list T;
  io_executed : list T
}.

Definition io_init : io_side := mk_io IO_none [] [] 0 0 false [] [].

Definition io_goto (pc : io_pc) (s : io_side) : io_side :=
  mk_io pc (io_buffer_queue_ s) (io_exe_queue_ s) (io_pending_wakes s)
    (wake_count s) (wake_ready s) (io_posted s) (io_executed s).

(** [post_io_task], the part under the lock *)
Definition io_push (t : T) (s : io_side) : io_side :=
  mk_io (io_at s) (io_buffer_queue_ s ++ [t]) (io_exe_queue_ s)
    (S (io_pending_wakes s)) (wake_count s) (wake_ready s)
    (io_posted s ++ [t]) (io_executed s).

(** [wake_io_up]: the [write] of 1, and the edge it makes *)
Definition wake_io_up (s : io_side) : io_side :=
  if wake_count s <? eventfd_max then
    mk_io (io_at s) (io_buffer_queue_ s) (io_exe_queue_ s) (io_pending_wakes s)
      (wake_count s + 1) true (io_posted s) (io_executed s)
  else s.

Definition io_woke (s : io_side) : io_side :=
  mk_io (io_at s) (io_buffer_queue_ s) (io_exe_queue_ s) (pred (io_pending_wakes s))
    (wake_count s) (wake_ready s) (io_posted s) (io_executed s).

(** [epoll_wait] returns [evs]; reporting the eventfd consumes its edge. *)
Definition io_report (evs : list io_event) (s : io_side) : io_side :=
  mk_io (IO_batch evs) (io_buffer_queue_ s) (io_exe_queue_ s) (io_pending_wakes s)
    (wake_count s) (wake_ready s && negb (bool_decide (EvWake ∈ evs)))
    (io_posted s) (io_executed s).

Definition io_clear_ready (s : io_side) : io_side :=
  mk_io (io_at s) (io_buffer_queue_ s) (io_exe_queue_ s) (io_pending_wakes s)
    (wake_count s) false (io_posted s) (io_executed s).

(** The [read] loop on the eventfd.  It ends with EAGAIN: of the errors [read]
    documents for a nonblocking eventfd the other, EINVAL, is for buffers shorter
    than eight bytes; so the [fatal()] after the loop is not a step. *)
Definition io_drain (evs : list io_event) (s : io_side) : io_side :=
  mk_io (IO_swap evs) (io_buffer_queue_ s) (io_exe_queue_ s) (io_pending_wakes s)
    0 (wake_ready s) (io_posted s) (io_executed s).

(** [std::swap(io_exe_queue_, io_buffer_queue_)] under the lock *)
Definition io_swap (evs : list io_event) (s : io_side) : io_side :=
  mk_io (IO_run 0 evs) (io_exe_queue_ s) (io_buffer_queue_ s) (io_pending_wakes s)
    (wake_count s) (wake_ready s) (io_posted s) (io_executed s).

(** [task()] *)
Definition io_call (t : T) (n : nat) (evs : list io_event) (s : io_side) : io_side :=
  mk_io (IO_run (S n) evs) (io_buffer_queue_ s) (io_exe_queue_ s) (io_pending_wakes s)
    (wake_count s) (wake_ready s) (io_posted s) (io_executed s ++ [t]).

(** [io_exe_queue_.clear()] *)
Definition io_clear (evs : list io_event) (s : io_side) : io_side :=
  mk_io (IO_batch evs) (io_buffer_queue_ s) [] (io_pending_wakes s)
    (wake_count s) (wake_ready s) (io_posted s) (io_executed s).

(** What [epoll_wait(.., kEpollMaxWaitLen, -1)] may return: at least one
    event, the eventfd at most once and only when its edge is pending and its
    counter is positive. *)
Definition reportable (evs : list io_event) (s : io_side) : Prop :=
  evs <> [] /\ zlen evs <= kEpollMaxWaitLen /\
  (EvWake ∈ evs -> wake_ready s = true /\ 0 < wake_count s) /\
  (forall e1 e2, evs = e1 ++ EvWake :: e2 -> EvWake ∉ e2).

Inductive io_step (exe : exe_state) : io_side -> io_side -> Prop :=
| io_step_post t s :
    io_step exe s (io_push t s)
| io_step_wake s :
    (0 < io_pending_wakes s)%nat ->
    io_step exe s (io_woke (wake_io_up s))
| io_step_enter s :
    io_at s = IO_check -> exe = Running -> io_step exe s (io_goto IO_wait s)
| io_step_leave s :
    io_at s = IO_check -> exe <> Running -> io_step exe s (io_goto IO_done s)
| io_step_report evs s :
    io_at s = IO_wait -> reportable evs s -> io_step exe s (io_report evs s)
| io_step_drop s :
    (* the kernel drops the edge of a descriptor that is not readable *)
    io_at s = IO_wait -> wake_count s = 0 -> io_step exe s (io_clear_ready s)
| io_step_intr s :
    (* -1 with EINTR: continue *)
    io_at s = IO_wait -> io_step exe s (io_goto IO_check s)
| io_step_fatal e s :
    io_at s = IO_wait -> e <> EINTR -> io_step exe s (io_goto (IO_fatal e) s)
| io_step_drain evs s :
    io_at s = IO_batch (EvWake :: evs) -> io_step exe s (io_drain evs s)
| io_step_swap evs s :
    io_at s = IO_swap evs -> io_step exe s (io_swap evs s)
| io_step_call t n evs s :
    io_at s = IO_run n evs -> io_exe_queue_ s !! n = Some t ->
    io_step exe s (io_call t n evs s)
| io_step_clear n evs s :
    io_at s = IO_run n evs -> n = length (io_exe_queue_ s) ->
    io_step exe s (io_clear evs s)
| io_step_fd fd mask evs s :
    (* the callback of [fd], see [dispatch]; its posts are [io_step_post] *)
    io_at s = IO_batch (EvFd fd mask :: evs) -> io_step exe s (io_goto (IO_batch evs) s)
| io_step_end s :
    io_at s = IO_batch [] -> io_step exe s (io_goto IO_check s).

(** ** Invariants *)

(** The tasks of the execution queue that were not called yet. *)
Definition io_rest (s : io_side) : list T :=
  match io_at s with
  | IO_run n _ => drop n (io_exe_queue_ s)
  | _ => io_exe_queue_ s
  end.

(** The events of the current batch that were not handled yet. *)
Definition io_events (s : io_side) : list io_event :=
  match io_at s with
  | IO_batch evs | IO_swap evs | IO_run _ evs => evs
  | _ => []
  end.

Definition at_swap (s : io_side) : Prop :=
  match io_at s with IO_swap _ => True | _ => False end.

Record io_inv (s : io_side) : Prop := {
  (** nothing is lost, duplicated or reordered *)
  inv_fifo : io_posted s = io_executed s ++ io_rest s ++ io_buffer_queue_ s;
  inv_exe : match io_at s with
            | IO_run n _ => (n <= length (io_exe_queue_ s))%nat
            | _ => io_exe_queue_ s = []
            end;
  inv_count : 0 <= wake_count s <= eventfd_max;
  inv_edge : 0 < wake_count s -> wake_ready s = true \/ EvWake ∈ io_events s;
  (** a queued task has someone who will see it *)
  inv_wake : io_buffer_queue_ s <> [] ->
    (0 < io_pending_wakes s)%nat \/ 0 < wake_count s \/
    EvWake ∈ io_events s \/ at_swap s
}.

Lemma io_init_inv : io_inv io_init.
Proof. split; simpl; unfold eventfd_max; try done; lia. Qed.

Lemma io_push_inv t s : io_inv s -> io_inv (io_push t s).
Proof.
  intros [Hf He Hc Hd Hw]. split; try done.
  - simpl. rewrite Hf, <- !app_assoc. done.
  - intros _. left. simpl. lia.
Qed.

Lemma wake_io_up_inv s : io_inv s -> io_inv (wake_io_up s).
Proof.
  intros [Hf He Hc Hd Hw]. unfold wake_io_up. destruct (Z.ltb_spec (wake_count s) eventfd_max);
    [|by split].
  split; simpl; try done; [lia | by left | intros _; right; left; lia].
Qed.

Lemma wake_io_up_count s : io_inv s -> 0 < wake_count (wake_io_up s).
Proof.
  intros [_ _ Hc _ _]. unfold wake_io_up.
  destruct (Z.ltb_spec (wake_count s) eventfd_max); simpl; unfold eventfd_max in *; lia.
Qed.

Lemma io_woke_inv s : io_inv s -> io_inv (io_woke (wake_io_up s)).
Proof.
  intros Hi. pose proof (wake_io_up_count s Hi).
  destruct (wake_io_up_inv s Hi) as [Hf He Hc Hd Hw]. split; try done.
  intros _. right. left. done.
Qed.

(** Moving between points where no batch is in progress. *)
Lemma io_goto_inv pc s :
  io_inv s -> io_events s = [] -> io_exe_queue_ s = [] -> ~ at_swap s ->
  match pc with
  | IO_batch _ | IO_swap _ | IO_run _ _ => False | _ => True
  end -> io_inv (io_goto pc s).
Proof.
  intros [Hf He Hc Hd Hw] Hev Hex Hsw Hpc.
  assert (io_rest s = []) as Hr by (unfold io_rest; rewrite Hex; destruct (io_at s); by rewrite ?drop_nil).
  rewrite Hev in *. rewrite Hr in *.
  split; destruct pc; unfold io_rest, io_events, at_swap; simpl; try done;
    rewrite ?Hex; try done; intros Hne; destruct (Hw Hne) as [?|[?|[?|?]]]; auto.
Qed.

Lemma io_report_inv evs s :
  io_inv s -> io_at s = IO_wait -> reportable evs s -> io_inv (io_report evs s).
Proof.
  intros [Hf He Hc Hd Hw] Hat (_ & _ & Hrep & _).
  unfold io_rest, io_events, at_swap in *. rewrite Hat in *.
  split; unfold io_rest, io_events, at_swap; simpl; try done.
  - intros Hp. destruct (Hd Hp) as [Hr|Hin]; [|set_solver].
    rewrite Hr. case_bool_decide; auto.
  - intros Hne. destruct (Hw Hne) as [?|[?|[?|?]]]; auto. set_solver.
Qed.

Lemma io_step_inv exe s s' : io_inv s -> io_step exe s s' -> io_inv s'.
Proof.
  intros Hi Hs. pose proof Hi as [Hf He Hc Hd Hw].
  unfold io_rest, io_events, at_swap in *.
  destruct Hs as [t s|s ?|s Hat ?|s Hat ?|evs s Hat ?|s Hat Hz|s Hat|e s Hat ?|evs s Hat
    |evs s Hat|t n evs s Hat Ht|n evs s Hat Hn|fd mask evs s Hat|s Hat]; rewrite ?Hat in *.
  - by apply io_push_inv.
  - by apply io_woke_inv.
  - apply io_goto_inv; unfold io_events, at_swap; rewrite ?Hat; auto.
  - apply io_goto_inv; unfold io_events, at_swap; rewrite ?Hat; auto.
  - by apply io_report_inv.
  - split; unfold io_rest, io_events, at_swap; simpl; rewrite ?Hat; try done; lia.
  - apply io_goto_inv; unfold io_events, at_swap; rewrite ?Hat; auto.
  - apply io_goto_inv; unfold io_events, at_swap; rewrite ?Hat; auto.
  - split; unfold io_rest, io_events, at_swap, eventfd_max; simpl; try done; try lia; auto.
  - split; unfold io_rest, io_events, at_swap; simpl; rewrite ?He in *; try done.
    + by rewrite Hf, drop_0, app_nil_r.
    + lia.
  - split; unfold io_rest, io_events, at_swap; simpl; try done.
    + rewrite Hf. rewrite (drop_S _ _ _ Ht), <- app_assoc. done.
    + by apply lookup_lt_Some in Ht.
  - split; unfold io_rest, io_events, at_swap; simpl; try done.
    by rewrite Hf, drop_ge by lia.
  - split; unfold io_rest, io_events, at_swap; simpl; try done.
    + intros Hp. destruct (Hd Hp) as [?|[?|?]%elem_of_cons]; auto; congruence.
    + intros Hne. destruct (Hw Hne) as [?|[?|[[?|?]%elem_of_cons|?]]]; auto; congruence.
  - apply io_goto_inv; unfold io_events, at_swap; rewrite ?Hat; auto.
Qed.

(** *** Reachability

    [io_any]: a step under whatever executor state the other threads have set,
    or [Loop::start] creating the io thread. *)
Definition io_any (s s' : io_side) : Prop :=
  (exists exe, io_step exe s s') \/
  ((io_at s = IO_none \/ io_at s = IO_done) /\ s' = io_goto IO_check s).

Lemma io_any_inv s s' : io_inv s -> io_any s s' -> io_inv s'.
Proof.
  intros Hi [[exe Hs]|[Hat ->]]; [by eapply io_step_inv|].
  destruct Hi as [Hf He ? ? ?]. apply io_goto_inv; [by split|..]; unfold io_events, at_swap;
    destruct Hat as [Hat|Hat]; rewrite Hat in *; auto.
Qed.

Lemma io_reach_inv s s' : io_inv s -> rtc io_any s s' -> io_inv s'.
Proof. intros Hi. induction 1; eauto using io_any_inv. Qed.

(** *** Progress of the io thread *)

(** The other threads' part of a run of [io_drains]: the wakes already owed. *)
Lemma io_wakes_fire exe s :
  io_inv s ->
  exists s', rtc (io_step exe) s s' /\ io_pending_wakes s' = 0%nat /\
    io_at s' = io_at s /\ io_posted s' = io_posted s /\ io_inv s'.
Proof.
  remember (io_pending_wakes s) as n eqn:Hn. revert s Hn.
  induction n as [|n IH]; intros s Hn Hi; [by exists s|].
  destruct (IH (io_woke (wake_io_up s))) as (s' & Hr & ? & Hat & Hp & ?).
  { unfold wake_io_up. destruct (_ <? _); simpl; lia. }
  { by apply io_woke_inv. }
  exists s'. split_and!; try done.
  - eapply rtc_l; [|done]. apply io_step_wake. lia.
  - rewrite Hat. unfold wake_io_up. by destruct (_ <? _).
  - rewrite Hp. unfold wake_io_up. by destruct (_ <? _).
Qed.

(** The [for] over the execution queue runs it to its end. *)
Lemma io_run_all exe s n evs :
  io_at s = IO_run n evs -> (n <= length (io_exe_queue_ s))%nat ->
  exists s', rtc (io_step exe) s s' /\ io_at s' = IO_batch evs /\
    io_executed s' = io_executed s ++ drop n (io_exe_queue_ s) /\
    io_posted s' = io_posted s /\ io_buffer_queue_ s' = io_buffer_queue_ s /\
    io_pending_wakes s' = io_pending_wakes s.
Proof.
  remember (length (io_exe_queue_ s) - n)%nat as d eqn:Hd. revert s n Hd.
  induction d as [|d IH]; intros s n Hd Hat Hn.
  - exists (io_clear evs s). split_and!; try done.
    + apply rtc_once, (io_step_clear exe n); [done | lia].
    + simpl. by rewrite drop_ge, app_nil_r by lia.
  - destruct (lookup_lt_is_Some_2 (io_exe_queue_ s) n) as [t Ht]; [lia|].
    destruct (IH (io_call t n evs s) (S n)) as (s' & Hr & ? & He & ? & ? & ?);
      [simpl; lia | done | simpl; lia |].
    exists s'. split_and!; try done.
    + eapply rtc_l; [|done]. by apply io_step_call.
    + rewrite He. simpl. by rewrite (drop_S _ _ _ Ht), <- app_assoc.
Qed.

(** The [for] over a batch, down to the [while] condition. *)
Lemma io_batch_all exe s evs :
  io_inv s -> io_at s = IO_batch evs ->
  exists s', rtc (io_step exe) s s' /\ io_at s' = IO_check /\
    io_posted s' = io_posted s /\ io_pending_wakes s' = io_pending_wakes s /\
    (EvWake ∈ evs -> io_buffer_queue_ s' = []) /\
    (io_buffer_queue_ s = [] -> io_buffer_queue_ s' = []).
Proof.
  revert s. induction evs as [|[|fd mask] evs IH]; intros s Hi Hat.
  - exists (io_goto IO_check s). split_and!; try done; [|set_solver].
    apply rtc_once. by apply io_step_end.
  - set (s1 := io_drain evs s). set (s2 := io_swap evs s1).
    assert (H1 : io_step exe s s1) by (by apply io_step_drain).
    assert (H2 : io_step exe s1 s2) by (by apply io_step_swap).
    assert (Hi2 : io_inv s2) by eauto using io_step_inv.
    assert (Hex : io_exe_queue_ s = []).
    { destruct Hi as [_ He _ _ _]. by rewrite Hat in He. }
    destruct (io_run_all exe s2 0 evs) as (s3 & Hr3 & Hat3 & _ & Hp3 & Hb3 & Hw3);
      [done | lia |].
    assert (Hi3 : io_inv s3).
    { revert Hi2. clear -Hr3. induction Hr3; eauto using io_step_inv. }
    destruct (IH s3 Hi3 Hat3) as (s4 & Hr4 & ? & Hp4 & Hw4 & _ & Hb4).
    assert (io_buffer_queue_ s4 = []) by (apply Hb4; rewrite Hb3; done).
    exists s4. split_and!; try done; [|by rewrite Hp4, Hp3|by rewrite Hw4, Hw3].
    eapply rtc_l; [done|]. eapply rtc_l; [done|]. by etrans.
  - destruct (IH (io_goto (IO_batch evs) s)) as (s' & Hr & ? & ? & ? & Hb & ?).
    { eapply io_step_inv; [exact Hi | by eapply (io_step_fd exe)]. }
    { done. }
    exists s'. split_and!; try done; [|set_solver].
    eapply rtc_l; [|done]. by eapply io_step_fd.
Qed.

(** The io thread runs [io_executor]. *)
Definition io_live (s : io_side) : Prop :=
  match io_at s with IO_none | IO_done | IO_fatal _ => False | _ => True end.

Lemma io_steps_inv exe s s' : io_inv s -> rtc (io_step exe) s s' -> io_inv s'.
Proof. intros Hi. induction 1; eauto using io_step_inv. Qed.

Lemma io_to_check exe s :
  io_inv s -> io_live s ->
  exists s', rtc (io_step exe) s s' /\ io_at s' = IO_check /\ io_posted s' = io_posted s.
Proof.
  intros Hi Hl. unfold io_live in Hl. destruct (io_at s) as [| | |evs|evs|n evs| |] eqn:Hat;
    try done.
  - by exists s.
  - exists (io_goto IO_check s). split_and!; try done. by apply rtc_once, io_step_intr.
  - destruct (io_batch_all exe s evs Hi Hat) as (s' & ? & ? & ? & _). by exists s'.
  - assert (Hs : io_step exe s (io_swap evs s)) by (by apply io_step_swap).
    pose proof (io_step_inv _ _ _ Hi Hs) as Hi1.
    destruct (io_run_all exe (io_swap evs s) 0 evs) as (s2 & Hr & Hat2 & _ & Hp & _);
      [done | lia |].
    destruct (io_batch_all exe s2 evs (io_steps_inv _ _ _ Hi1 Hr) Hat2)
      as (s' & ? & ? & Hp' & _).
    exists s'. split_and!; [|done|by rewrite Hp', Hp].
    eapply rtc_l; [done|]. by etrans.
  - destruct (io_run_all exe s n evs Hat) as (s2 & Hr & Hat2 & _ & Hp & _).
    { destruct Hi as [_ He _ _ _]. by rewrite Hat in He. }
    destruct (io_batch_all exe s2 evs (io_steps_inv _ _ _ Hi Hr) Hat2)
      as (s' & ? & ? & Hp' & _).
    exists s'. split_and!; [by etrans | done | by rewrite Hp', Hp].
Qed.

Lemma io_idle_done s :
  io_inv s -> io_at s = IO_check \/ io_at s = IO_wait -> io_buffer_queue_ s = [] ->
  io_executed s = io_posted s.
Proof.
  intros [Hf He _ _ _] Hat Hb. rewrite Hf, Hb. unfold io_rest.
  destruct Hat as [Hat|Hat]; rewrite Hat in *; by rewrite He, !app_nil_r.
Qed.

(** Asleep with a task queued: someone owes a wake, or the kernel can report. *)
Lemma io_wait_reportable s :
  io_inv s -> io_at s = IO_wait -> io_buffer_queue_ s <> [] ->
  (0 < io_pending_wakes s)%nat \/ reportable [EvWake] s.
Proof.
  intros [_ _ _ Hd Hw] Hat Hne. unfold io_events, at_swap in *. rewrite Hat in *.
  destruct (Hw Hne) as [?|[Hc|[?|?]]]; [by left| |set_solver|done].
  right. destruct (Hd Hc) as [?|?]; [|set_solver].
  split_and!; [done | vm_compute; discriminate | done |].
  intros [|? []] ? [=]; subst. set_solver.
Qed.

(** Io tasks run in the order they were posted, each once: whatever the
    interleaving of the posters, the wake-ups, the io thread and its restarts,
    the tasks called so far, then the ones of the batch being run, then the
    queued ones are exactly the tasks posted so far. *)
Lemma io_tasks_fifo s :
  rtc io_any io_init s ->
  io_posted s = io_executed s ++ io_rest s ++ io_buffer_queue_ s /\
  io_executed s `prefix_of` io_posted s.
Proof.
  intros Hr. destruct (io_reach_inv _ _ io_init_inv Hr) as [Hf _ _ _ _].
  split; [done|]. rewrite Hf. by apply prefix_app_r.
Qed.

(** C7: no lost wake-up on the io queue: if the io thread is in [epoll_wait]
    while a task is queued, then a poster still owes its [write], or the
    kernel can report the eventfd now (its edge is pending and its counter is
    positive). *)
Theorem io_no_lost_wakeup s :
  rtc io_any io_init s -> io_at s = IO_wait -> io_buffer_queue_ s <> [] ->
  (0 < io_pending_wakes s)%nat \/ reportable [EvWake] s.
Proof.
  intros Hr. apply io_wait_reportable, (io_reach_inv io_init), Hr. apply io_init_inv.
Qed.

(** Progress: from every reachable state in which the io thread runs and
    the loop is [Running], the io thread alone, with the wakes already owed,
    can bring every posted task to execution. *)
Lemma io_tasks_progress s :
  rtc io_any io_init s -> io_live s ->
  exists s', rtc (io_step Running) s s' /\ io_posted s' = io_posted s /\
    io_executed s' = io_posted s.
Proof.
  intros Hr Hl. pose proof (io_reach_inv _ _ io_init_inv Hr) as Hi.
  destruct (io_to_check Running s Hi Hl) as (s1 & Hr1 & Hat1 & Hp1).
  pose proof (io_steps_inv _ _ _ Hi Hr1) as Hi1.
  destruct (io_wakes_fire Running s1 Hi1) as (s2 & Hr2 & Hw2 & Hat2 & Hp2 & Hi2).
  rewrite Hat1 in Hat2.
  destruct (decide (io_buffer_queue_ s2 = [])) as [Hb|Hb].
  { exists s2. rewrite (io_idle_done s2) by auto. split_and!; [by etrans|congruence..]. }
  set (s3 := io_goto IO_wait s2).
  assert (H3 : io_step Running s2 s3) by (by apply io_step_enter).
  pose proof (io_step_inv _ _ _ Hi2 H3) as Hi3.
  destruct (io_wait_reportable s3 Hi3 eq_refl Hb) as [?|Hrep]; [simpl in *; lia|].
  assert (H4 : io_step Running s3 (io_report [EvWake] s3)) by (by apply io_step_report).
  pose proof (io_step_inv _ _ _ Hi3 H4) as Hi4.
  destruct (io_batch_all Running _ [EvWake] Hi4 eq_refl)
    as (s5 & Hr5 & Hat5 & Hp5 & _ & Hb5 & _).
  pose proof (io_steps_inv _ _ _ Hi4 Hr5) as Hi5.
  assert (io_posted s5 = io_posted s) by (rewrite Hp5; simpl; congruence).
  exists s5. rewrite (io_idle_done s5) by (auto; apply Hb5; set_solver).
  split_and!; [|done..]. etrans; [done|]. etrans; [done|].
  eapply rtc_l; [done|]. by eapply rtc_l.
Qed.
End io.
Arguments io_side : clear implicits.

(** ** Witnesses: two posts, one wake, the first task called *)

Definition io_demo_wait : io_side nat :=
  io_goto IO_wait (io_woke (wake_io_up (io_push 2%nat (io_push 1%nat (io_goto IO_check io_init))))).
Definition io_demo : io_side nat :=
  io_call 1%nat 0 [] (io_swap [] (io_drain [] (io_report [EvWake] io_demo_wait))).

Lemma io_demo_wait_reach : rtc io_any io_init io_demo_wait.
Proof.
  eapply rtc_l; [right; split; [by left | reflexivity]|].
  eapply rtc_l; [left; exists Running; apply (io_step_post _ 1%nat)|].
  eapply rtc_l; [left; exists Running; apply (io_step_post _ 2%nat)|].
  eapply rtc_l; [left; exists Running; apply io_step_wake; simpl; lia|].
  eapply rtc_l; [left; exists Running; by apply io_step_enter|]. constructor.
Qed.

Lemma io_demo_reach : rtc io_any io_init io_demo.
Proof.
  etrans; [apply io_demo_wait_reach|].
  eapply rtc_l; [left; exists Running; apply (io_step_report _ [EvWake]); [done|]|].
  { split_and!; [done | vm_compute; discriminate | done |].
    intros [|? []] ? [=]; subst. set_solver. }
  eapply rtc_l; [left; exists Running; by apply io_step_drain|].
  eapply rtc_l; [left; exists Running; by apply io_step_swap|].
  eapply rtc_l; [left; exists Running; by apply io_step_call|]. constructor.
Qed.

Lemma io_tasks_fifo_witness :
  [1; 2]%nat = [1]%nat ++ [2]%nat ++ [] /\ [1]%nat `prefix_of` [1; 2]%nat.
Proof. exact (io_tasks_fifo io_demo io_demo_reach). Defined.

Lemma io_no_lost_wakeup_witness :
  (0 < io_pending_wakes io_demo_wait)%nat \/ reportable [EvWake] io_demo_wait.
Proof.
  apply (io_no_lost_wakeup io_demo_wait io_demo_wait_reach); [reflexivity | discriminate].
Defined.

Lemma io_tasks_progress_witness :
  exists s', rtc (io_step Running) io_demo s' /\ io_posted s' = [1; 2]%nat /\
    io_executed s' = [1; 2]%nat.
Proof. exact (io_tasks_progress io_demo io_demo_reach I). Defined.
