(* ===== verification/LoopHeavy.v ===== *)
(** * LoopHeavy: the heavy task queue and the heavy thread

    Models [post_heavy_task], [wake_heavy_up] and [heavy_executor] of
    [src/core.cpp] as a step relation.  A post is the push under
    [heavy_queue_mtx_] and, separately, the [notify_one]; [hv_pending_notify]
    counts the posters between the two.  [condition_variable::wait] with a
    predicate is the loop it stands for: evaluate the predicate under the lock,
    then release and sleep in one step, then take the lock again on a
    notification or spuriously.  A notification reaches the thread only while
    it sleeps.  The predicate reads [exe_state_], which is not protected by the
    mutex, so [HV_sleepy] (predicate false, not asleep yet) is a point where
    the other threads can change it. *)

From S2P Require Import Prelude LoopIo.

Inductive hv_pc :=
| HV_none
| HV_check            (* [while (exe_state_ == Running)] *)
| HV_lock             (* [unique_lock wait_lock{heavy_queue_mtx_}] *)
| HV_pred             (* holds the lock, at the predicate *)
| HV_sleepy           (* holds the lock, predicate was false *)
| HV_sleep            (* lock released, waiting on [heavy_wake_cv_] *)
| HV_swap             (* holds the lock, predicate was true *)
| HV_run (n : nat)    (* lock released, [n] tasks of the queue were called *)
| HV_done.

#[export] Instance hv_pc_eq_dec : EqDecision hv_pc.
Proof. solve_decision. Defined.

Definition hv_locked (pc : hv_pc) : bool :=
  match pc with HV_pred | HV_sleepy | HV_swap => true | _ => false end.

Section heavy.
Context {T : Type}.

Record hv_side := mk_hv {
  hv_at : hv_pc;
  heavy_buffer_queue_ : list T;
  heavy_exe_queue_ : list T;
  hv_pending_notify : nat;
  hv_posted : list T;
  hv_executed : list T
}.

Definition hv_init : hv_side := mk_hv HV_none [] [] 0 [] [].

Definition hv_goto (pc : hv_pc) (s : hv_side) : hv_side :=
  mk_hv pc (heavy_buffer_queue_ s) (heavy_exe_queue_ s) (hv_pending_notify s)
    (hv_posted s) (hv_executed s).

(** [post_heavy_task], the part under the lock *)
Definition hv_push (t : T) (s : hv_side) : hv_side :=
  mk_hv (hv_at s) (heavy_buffer_queue_ s ++ [t]) (heavy_exe_queue_ s)
    (S (hv_pending_notify s)) (hv_posted s ++ [t]) (hv_executed s).

(** [heavy_wake_cv_.notify_one()]: the only possible waiter is the heavy
    thread, which goes back for the lock *)
Definition wake_heavy_up (s : hv_side) : hv_side :=
  match hv_at s with HV_sleep => hv_goto HV_lock s | _ => s end.

Definition hv_notified (s : hv_side) : hv_side :=
  mk_hv (hv_at s) (heavy_buffer_queue_ s) (heavy_exe_queue_ s)
    (pred (hv_pending_notify s)) (hv_posted s) (hv_executed s).

(** The predicate of the [wait]. *)
Definition hv_predicate (exe : exe_state) (s : hv_side) : bool :=
  negb (bool_decide (length (heavy_buffer_queue_ s) = 0%nat)) ||
  negb (bool_decide (exe = Running)).

(** [std::swap(heavy_exe_queue_, heavy_buffer_queue_)] and [unlock] *)
Definition hv_swap (s : hv_side) : hv_side :=
  mk_hv (HV_run 0) (heavy_exe_queue_ s) (heavy_buffer_queue_ s) (hv_pending_notify s)
    (hv_posted s) (hv_executed s).

Definition hv_call (t : T) (n : nat) (s : hv_side) : hv_side :=
  mk_hv (HV_run (S n)) (heavy_buffer_queue_ s) (heavy_exe_queue_ s) (hv_pending_notify s)
    (hv_posted s) (hv_executed s ++ [t]).

Definition hv_clear (s : hv_side) : hv_side :=
  mk_hv HV_check (heavy_buffer_queue_ s) [] (hv_pending_notify s)
    (hv_posted s) (hv_executed s).

(** The heavy thread's own steps; [exe] is the state it reads. *)
Inductive hv_thread (exe : exe_state) : hv_side -> hv_side -> Prop :=
| hv_step_enter s :
    hv_at s = HV_check -> exe = Running -> hv_thread exe s (hv_goto HV_lock s)
| hv_step_leave s :
    hv_at s = HV_check -> exe <> Running -> hv_thread exe s (hv_goto HV_done s)
| hv_step_lock s :
    hv_at s = HV_lock -> hv_thread exe s (hv_goto HV_pred s)
| hv_step_pred s :
    hv_at s = HV_pred ->
    hv_thread exe s (hv_goto (if hv_predicate exe s then HV_swap else HV_sleepy) s)
| hv_step_sleep s :
    hv_at s = HV_sleepy -> hv_thread exe s (hv_goto HV_sleep s)
| hv_step_swap s :
    hv_at s = HV_swap -> hv_thread exe s (hv_swap s)
| hv_step_call t n s :
    hv_at s = HV_run n -> heavy_exe_queue_ s !! n = Some t ->
    hv_thread exe s (hv_call t n s)
| hv_step_clear n s :
    hv_at s = HV_run n -> n = length (heavy_exe_queue_ s) ->
    hv_thread exe s (hv_clear s).

(** ... and everything that can happen to the heavy side. *)
Inductive hv_step (exe : exe_state) : hv_side -> hv_side -> Prop :=
| hv_step_thread s s' : hv_thread exe s s' -> hv_step exe s s'
| hv_step_post t s :
    hv_locked (hv_at s) = false -> hv_step exe s (hv_push t s)
| hv_step_notify s :
    (0 < hv_pending_notify s)%nat -> hv_step exe s (hv_notified (wake_heavy_up s))
| hv_step_spurious s :
    hv_at s = HV_sleep -> hv_step exe s (hv_goto HV_lock s).

(** ** Invariants *)

Definition hv_rest (s : hv_side) : list T :=
  match hv_at s with
  | HV_run n => drop n (heavy_exe_queue_ s)
  | _ => heavy_exe_queue_ s
  end.

(** The thread is asleep, or committed to it. *)
Definition hv_drowsy (s : hv_side) : Prop :=
  match hv_at s with HV_sleepy | HV_sleep => True | _ => False end.

Record hv_inv (s : hv_side) : Prop := {
  hinv_fifo : hv_posted s = hv_executed s ++ hv_rest s ++ heavy_buffer_queue_ s;
  hinv_exe : match hv_at s with
             | HV_run n => (n <= length (heavy_exe_queue_ s))%nat
             | _ => heavy_exe_queue_ s = []
             end;
  hinv_sleepy : hv_at s = HV_sleepy -> heavy_buffer_queue_ s = [];
  hinv_sleep : hv_at s = HV_sleep -> heavy_buffer_queue_ s <> [] ->
    (0 < hv_pending_notify s)%nat
}.

Lemma hv_init_inv : hv_inv hv_init.
Proof. split; simpl; done. Qed.

(** Moving between points where the execution queue is not being run. *)
Lemma hv_goto_inv pc s :
  hv_inv s -> heavy_exe_queue_ s = [] ->
  match pc with
  | HV_run _ => False
  | HV_sleepy | HV_sleep => heavy_buffer_queue_ s = []
  | _ => True
  end -> hv_inv (hv_goto pc s).
Proof.
  intros [Hf He Hs1 Hs2] Hex Hpc.
  assert (hv_rest s = []) as Hr
    by (unfold hv_rest; rewrite Hex; destruct (hv_at s); by rewrite ?drop_nil).
  rewrite Hr in Hf.
  split; destruct pc; unfold hv_rest; simpl; rewrite ?Hex; done.
Qed.

Lemma hv_predicate_false exe s :
  hv_predicate exe s = false -> heavy_buffer_queue_ s = [] /\ exe = Running.
Proof.
  unfold hv_predicate. rewrite orb_false_iff, !negb_false_iff, !bool_decide_eq_true.
  intros [H ?]. by apply length_zero_iff_nil in H.
Qed.

Lemma hv_thread_inv exe s s' : hv_inv s -> hv_thread exe s s' -> hv_inv s'.
Proof.
  intros Hi Hs. pose proof Hi as [Hf He Hs1 Hs2]. unfold hv_rest in *.
  destruct Hs as [s Hat ?|s Hat ?|s Hat|s Hat|s Hat|s Hat|t n s Hat Ht|n s Hat Hn];
    rewrite ?Hat in *.
  1-3: by apply hv_goto_inv.
  - apply hv_goto_inv; [done..|]. destruct (hv_predicate exe s) eqn:Hp; [done|].
    by apply hv_predicate_false in Hp as [? _].
  - apply hv_goto_inv; auto.
  - split; unfold hv_rest; simpl; try done; [|lia].
    by rewrite Hf, He, drop_0, app_nil_r.
  - split; unfold hv_rest; simpl; try done.
    + by rewrite Hf, (drop_S _ _ _ Ht), <- app_assoc.
    + by apply lookup_lt_Some in Ht.
  - split; unfold hv_rest; simpl; try done. by rewrite Hf, drop_ge by lia.
Qed.

Lemma wake_heavy_up_inv s : hv_inv s -> hv_inv (wake_heavy_up s).
Proof.
  intros Hi. unfold wake_heavy_up. destruct (hv_at s) eqn:Hat; try done.
  apply hv_goto_inv; [done| |done]. destruct Hi as [_ He _ _]. by rewrite Hat in He.
Qed.

Lemma hv_step_inv exe s s' : hv_inv s -> hv_step exe s s' -> hv_inv s'.
Proof.
  intros Hi Hs. destruct Hs as [s s' Hs|t s Hl|s Hp|s Hat].
  - by eapply hv_thread_inv.
  - destruct Hi as [Hf He Hs1 Hs2]. split; simpl; try done.
    + unfold hv_rest in *. simpl. by rewrite Hf, <- !app_assoc.
    + intros Hat. by rewrite Hat in Hl.
    + intros _ _. lia.
  - destruct (wake_heavy_up_inv s Hi) as [Hf He Hs1 Hs2]. split; try done.
    simpl. unfold wake_heavy_up. destruct (hv_at s) eqn:Hat; simpl; congruence.
  - apply hv_goto_inv; [done| |done]. destruct Hi as [_ He _ _]. by rewrite Hat in He.
Qed.

(** A step under whatever executor state the other threads have set, or
    [Loop::start] creating the heavy thread. *)
Definition hv_any (s s' : hv_side) : Prop :=
  (exists exe, hv_step exe s s') \/
  ((hv_at s = HV_none \/ hv_at s = HV_done) /\ s' = hv_goto HV_check s).

Lemma hv_any_inv s s' : hv_inv s -> hv_any s s' -> hv_inv s'.
Proof.
  intros Hi [[exe Hs]|[Hat ->]]; [by eapply hv_step_inv|].
  apply hv_goto_inv; [done| |done]. destruct Hi as [_ He _ _].
  by destruct Hat as [Hat|Hat]; rewrite Hat in He.
Qed.

Lemma hv_reach_inv s s' : hv_inv s -> rtc hv_any s s' -> hv_inv s'.
Proof. intros Hi. induction 1; eauto using hv_any_inv. Qed.

Lemma hv_steps_inv exe s s' : hv_inv s -> rtc (hv_step exe) s s' -> hv_inv s'.
Proof. intros Hi. induction 1; eauto using hv_step_inv. Qed.

Definition hv_live (s : hv_side) : Prop :=
  match hv_at s with HV_none | HV_done => False | _ => True end.

Lemma hv_own exe s s' : hv_thread exe s s' -> rtc (hv_step exe) s s'.
Proof. intros. by apply rtc_once, hv_step_thread. Qed.

(** The [for] over the execution queue runs it to its end. *)
Lemma hv_run_all exe s n :
  hv_at s = HV_run n -> (n <= length (heavy_exe_queue_ s))%nat ->
  exists s', rtc (hv_step exe) s s' /\ hv_at s' = HV_check /\
    hv_executed s' = hv_executed s ++ drop n (heavy_exe_queue_ s) /\
    hv_posted s' = hv_posted s /\ heavy_buffer_queue_ s' = heavy_buffer_queue_ s.
Proof.
  remember (length (heavy_exe_queue_ s) - n)%nat as d eqn:Hd. revert s n Hd.
  induction d as [|d IH]; intros s n Hd Hat Hn.
  - exists (hv_clear s). split_and!; try done.
    + apply hv_own, (hv_step_clear exe n); [done | lia].
    + simpl. by rewrite drop_ge, app_nil_r by lia.
  - destruct (lookup_lt_is_Some_2 (heavy_exe_queue_ s) n) as [t Ht]; [lia|].
    destruct (IH (hv_call t n s) (S n)) as (s' & Hr & ? & He & ? & ?);
      [simpl; lia | done | simpl; lia |].
    exists s'. split_and!; try done.
    + etrans; [|done]. by apply hv_own, hv_step_call.
    + rewrite He. simpl. by rewrite (drop_S _ _ _ Ht), <- app_assoc.
Qed.

(** Between two batches, with nothing queued, everything posted was run. *)
Lemma hv_idle_done s :
  hv_inv s -> heavy_exe_queue_ s = [] -> heavy_buffer_queue_ s = [] ->
  hv_executed s = hv_posted s.
Proof.
  intros [Hf _ _ _] He Hb. rewrite Hf, Hb. unfold hv_rest. rewrite He.
  destruct (hv_at s); by rewrite ?drop_nil, !app_nil_r.
Qed.

(** From the swap, one batch runs everything that was queued. *)
Lemma hv_swap_runs exe s :
  hv_inv s -> hv_at s = HV_swap ->
  exists s', rtc (hv_step exe) s s' /\ hv_posted s' = hv_posted s /\
    hv_executed s' = hv_posted s.
Proof.
  intros Hi Hat. pose proof Hi as [_ He _ _]. rewrite Hat in He.
  assert (Hs : hv_thread exe s (hv_swap s)) by (by apply hv_step_swap).
  pose proof (hv_thread_inv _ _ _ Hi Hs) as Hi1.
  destruct (hv_run_all exe (hv_swap s) 0) as (s' & Hr & Hat' & _ & Hp & Hb); [done|lia|].
  exists s'. split_and!; [etrans; [by apply hv_own|done] | done |].
  rewrite (hv_idle_done s'); [done| | |by rewrite Hb].
  - by eapply hv_steps_inv.
  - assert (hv_inv s') as [_ He' _ _] by (by eapply hv_steps_inv). by rewrite Hat' in He'.
Qed.

(** From the acquisition of the lock, whatever is queued gets run. *)
Lemma hv_lock_runs exe s :
  hv_inv s -> hv_at s = HV_lock ->
  exists s', rtc (hv_step exe) s s' /\ hv_posted s' = hv_posted s /\
    hv_executed s' = hv_posted s.
Proof.
  intros Hi Hat. destruct (decide (length (heavy_buffer_queue_ s) = 0%nat)) as [Hz|Hz].
  { exists s. split_and!; [done..|]. apply hv_idle_done; [done| |by apply length_zero_iff_nil].
    destruct Hi as [_ He _ _]. by rewrite Hat in He. }
  set (s1 := hv_goto HV_pred s). set (s2 := hv_goto HV_swap s1).
  assert (H1 : hv_thread exe s s1) by (by apply hv_step_lock).
  assert (H2 : hv_thread exe s1 s2).
  { replace s2 with (hv_goto (if hv_predicate exe s1 then HV_swap else HV_sleepy) s1);
      [by apply hv_step_pred|].
    unfold hv_predicate. simpl. by rewrite (bool_decide_eq_false_2 _ Hz). }
  destruct (hv_swap_runs exe s2) as (s' & ? & ? & ?); [|done|].
  { eapply hv_thread_inv; [|done]. by eapply hv_thread_inv. }
  exists s'. split_and!; try done.
  etrans; [by apply hv_own|]. etrans; [by apply hv_own|done].
Qed.

(** Every live program point leads to one of the two above, or to rest. *)
Lemma hv_live_runs s :
  hv_inv s -> hv_live s ->
  exists s', rtc (hv_step Running) s s' /\ hv_posted s' = hv_posted s /\
    hv_executed s' = hv_posted s.
Proof.
  intros Hi Hl. unfold hv_live in Hl.
  assert (Hgo : forall s1, rtc (hv_step Running) s s1 -> hv_at s1 = HV_lock ->
    hv_posted s1 = hv_posted s -> exists s', rtc (hv_step Running) s s' /\
      hv_posted s' = hv_posted s /\ hv_executed s' = hv_posted s).
  { intros s1 Hr Hat Hp. destruct (hv_lock_runs Running s1) as (s' & ? & ? & ?);
      [by eapply hv_steps_inv | done |].
    exists s'. split_and!; [by etrans | congruence..]. }
  assert (Hstay : heavy_exe_queue_ s = [] -> heavy_buffer_queue_ s = [] ->
    exists s', rtc (hv_step Running) s s' /\
      hv_posted s' = hv_posted s /\ hv_executed s' = hv_posted s).
  { intros. exists s. split_and!; [done..|]. by apply hv_idle_done. }
  pose proof Hi as [_ He Hs1 Hs2].
  destruct (hv_at s) as [| | | | | | |n|] eqn:Hat; try done.
  - apply (Hgo (hv_goto HV_lock s)); try done. by apply hv_own, hv_step_enter.
  - by apply (Hgo s).
  - destruct (decide (length (heavy_buffer_queue_ s) = 0%nat)) as [Hz|Hz].
    { apply Hstay; [done | by apply length_zero_iff_nil]. }
    assert (H1 : hv_thread Running s (hv_goto HV_swap s)).
    { replace (hv_goto HV_swap s) with
        (hv_goto (if hv_predicate Running s then HV_swap else HV_sleepy) s);
        [by apply hv_step_pred|].
      unfold hv_predicate. simpl. by rewrite (bool_decide_eq_false_2 _ Hz). }
    destruct (hv_swap_runs Running (hv_goto HV_swap s)) as (s' & ? & ? & ?);
      [by eapply hv_thread_inv | done |].
    exists s'. split_and!; try done. etrans; [by apply hv_own | done].
  - auto.
  - destruct (decide (heavy_buffer_queue_ s = [])) as [|Hb]; [auto|].
    specialize (Hs2 eq_refl Hb). apply (Hgo (hv_notified (wake_heavy_up s))).
    + by apply rtc_once, hv_step_notify.
    + unfold wake_heavy_up. by rewrite Hat.
    + unfold wake_heavy_up. by rewrite Hat.
  - by apply hv_swap_runs.
  - destruct (hv_run_all Running s n Hat He) as (s1 & Hr & Hat1 & _ & Hp & _).
    apply (Hgo (hv_goto HV_lock s1)); try done.
    etrans; [done|]. by apply hv_own, hv_step_enter.
Qed.

(** Heavy tasks run in the order they were posted, each once, whatever
    the interleaving of posters, notifications (spurious ones included), the
    heavy thread and its restarts. *)
Lemma heavy_tasks_fifo s :
  rtc hv_any hv_init s ->
  hv_posted s = hv_executed s ++ hv_rest s ++ heavy_buffer_queue_ s /\
  hv_executed s `prefix_of` hv_posted s.
Proof.
  intros Hr. destruct (hv_reach_inv _ _ hv_init_inv Hr) as [Hf _ _ _].
  split; [done|]. rewrite Hf. by apply prefix_app_r.
Qed.

(** No task wake-up is lost, because the push is under the mutex the
    predicate is evaluated under: if the heavy thread is asleep (or committed
    to it) while a task is queued, a poster still owes its [notify_one]; and
    from every reachable state in which it runs, every posted task can be
    brought to execution. *)
Lemma heavy_no_lost_task s :
  rtc hv_any hv_init s ->
  (hv_drowsy s -> heavy_buffer_queue_ s <> [] -> (0 < hv_pending_notify s)%nat) /\
  (hv_live s -> exists s', rtc (hv_step Running) s s' /\
     hv_posted s' = hv_posted s /\ hv_executed s' = hv_posted s).
Proof.
  intros Hr. pose proof (hv_reach_inv _ _ hv_init_inv Hr) as Hi. split.
  - destruct Hi as [_ _ H1 H2]. unfold hv_drowsy.
    destruct (hv_at s); try done; intros _ Hne; auto. by rewrite H1 in Hne.
  - by apply hv_live_runs.
Qed.
End heavy.
Arguments hv_side : clear implicits.

(** ** Witness: the thread falls asleep, then a task is posted *)

Definition hv_demo : hv_side nat := hv_push 5%nat (hv_goto HV_sleep (hv_goto HV_sleepy
  (hv_goto HV_pred (hv_goto HV_lock (hv_goto HV_check hv_init))))).

Lemma hv_demo_reach : rtc hv_any hv_init hv_demo.
Proof.
  eapply rtc_l; [right; split; [by left | reflexivity]|].
  eapply rtc_l; [left; exists Running; apply hv_step_thread; by apply hv_step_enter|].
  eapply rtc_l; [left; exists Running; apply hv_step_thread; by apply hv_step_lock|].
  eapply rtc_l; [left; exists Running; apply hv_step_thread; by apply (hv_step_pred Running)|].
  eapply rtc_l; [left; exists Running; apply hv_step_thread; by apply hv_step_sleep|].
  eapply rtc_l; [left; exists Running; by apply (hv_step_post _ 5%nat)|]. constructor.
Qed.

Lemma heavy_tasks_fifo_witness :
  [5]%nat = [] ++ [] ++ [5]%nat /\ [] `prefix_of` [5]%nat.
Proof. exact (heavy_tasks_fifo hv_demo hv_demo_reach). Defined.

Lemma heavy_no_lost_task_witness :
  (hv_drowsy hv_demo -> heavy_buffer_queue_ hv_demo <> [] ->
    (0 < hv_pending_notify hv_demo)%nat) /\
  (hv_live hv_demo -> exists s', rtc (hv_step Running) hv_demo s' /\
     hv_posted s' = [5]%nat /\ hv_executed s' = [5]%nat).
Proof. exact (heavy_no_lost_task hv_demo hv_demo_reach). Defined.
