(* ===== verification/LoopLife.v ===== *)
(** * LoopLife: starting and stopping a loop

    Models [Loop::start], [Loop::stop] and the executor state machine
    ([exe_state_]) of [src/core.cpp] together with the two executor threads of
    [LoopIo] and [LoopHeavy].  [ctl] is the program counter of the thread that
    owns the loop; it calls [start] and [stop] one after the other, and destroys
    the loop at the end.  A task or
    callback may also call [stop] from an executor thread: from the io thread
    the call only moves the state machine (the self-join test returns); from
    the heavy thread it also joins the io thread ([hv_joining]).  Calls of
    [start] and [stop] by different threads are assumed not to overlap (the
    source joins [std::thread] objects without a lock).  Creating a thread and
    storing it in its [std::thread] member is one step, and no task calls [start]. *)

From S2P Require Import Prelude LoopIo LoopHeavy.

(** Points of [start] and [stop] between two shared accesses. *)
Inductive ctl_pc :=
| C_idle
| C_stop_cas | C_stop_io | C_stop_join_io | C_stop_hv | C_stop_join_hv | C_stop_set
| C_start_io | C_start_join_io | C_start_hv | C_start_join_hv | C_start_cas
| C_start_spawn_io | C_start_spawn_hv
| C_stop_returned
| C_start_returned (r : bool)
| C_dtor_io | C_dtor_join_io | C_dtor_hv | C_dtor_join_hv | C_dtor_close
| C_terminated.

(** The owner is between two calls. *)
Definition ctl_free (pc : ctl_pc) : Prop :=
  match pc with C_idle | C_stop_returned | C_start_returned _ => True | _ => False end.

(** Who makes a step: the owner, an executor thread, a poster completing its
    post with the wake it owes, a new post, a spurious wake-up of the condition
    variable, or a task of an executor thread calling [stop]. *)
Inductive actor := A_ctl | A_io | A_hv | A_wake | A_post | A_spurious | A_self_stop.

Section life.
Context {T : Type}.

Record loop := mk_loop {
  exe_state_ : exe_state;
  io : io_side T;
  hv : hv_side T;
  io_joinable : bool;
  hv_joinable : bool;
  hv_joining : bool;
  ctl : ctl_pc
}.

Definition loop_init : loop :=
  mk_loop Stopped io_init hv_init false false false C_idle.

Definition set_exe (e : exe_state) (s : loop) : loop :=
  mk_loop e (io s) (hv s) (io_joinable s) (hv_joinable s) (hv_joining s) (ctl s).
Definition set_io (i : io_side T) (s : loop) : loop :=
  mk_loop (exe_state_ s) i (hv s) (io_joinable s) (hv_joinable s) (hv_joining s) (ctl s).
Definition set_hv (h : hv_side T) (s : loop) : loop :=
  mk_loop (exe_state_ s) (io s) h (io_joinable s) (hv_joinable s) (hv_joining s) (ctl s).
Definition set_joinable (i h : bool) (s : loop) : loop :=
  mk_loop (exe_state_ s) (io s) (hv s) i h (hv_joining s) (ctl s).
Definition set_joining (b : bool) (s : loop) : loop :=
  mk_loop (exe_state_ s) (io s) (hv s) (io_joinable s) (hv_joinable s) b (ctl s).
Definition goto (pc : ctl_pc) (s : loop) : loop :=
  mk_loop (exe_state_ s) (io s) (hv s) (io_joinable s) (hv_joinable s) (hv_joining s) pc.

(** [exe_state_.compare_exchange_strong(Running, Stopping)] *)
Definition cas_stop (e : exe_state) : exe_state :=
  match e with Running => Stopping | _ => e end.

(** [stop()] from the owner, one shared access at a time. *)
Inductive stop_step : loop -> loop -> Prop :=
| stop_call s : ctl_free (ctl s) -> hv_joining s = false -> stop_step s (goto C_stop_cas s)
| stop_cas s : ctl s = C_stop_cas ->
    stop_step s (goto C_stop_io (set_exe (cas_stop (exe_state_ s)) s))
| stop_io s : ctl s = C_stop_io ->
    (* wake_io_up() *)
    stop_step s (if io_joinable s
                 then goto C_stop_join_io (set_io (wake_io_up (io s)) s)
                 else goto C_stop_hv s)
| stop_join_io s : ctl s = C_stop_join_io -> io_at (io s) = IO_done ->
    stop_step s (goto C_stop_hv (set_joinable false (hv_joinable s) s))
| stop_hv s : ctl s = C_stop_hv ->
    (* wake_heavy_up() *)
    stop_step s (if hv_joinable s
                 then goto C_stop_join_hv (set_hv (wake_heavy_up (hv s)) s)
                 else goto C_stop_set s)
| stop_join_hv s : ctl s = C_stop_join_hv -> hv_at (hv s) = HV_done ->
    stop_step s (goto C_stop_set (set_joinable (io_joinable s) false s))
| stop_set s : ctl s = C_stop_set ->
    stop_step s (goto C_stop_returned (set_exe Stopped s)).

(** [start()] from the owner. *)
Inductive start_step : loop -> loop -> Prop :=
| start_call s : ctl_free (ctl s) -> hv_joining s = false -> start_step s (goto C_start_io s)
| start_io s : ctl s = C_start_io ->
    start_step s (goto (if io_joinable s then C_start_join_io else C_start_hv) s)
| start_join_io s : ctl s = C_start_join_io -> io_at (io s) = IO_done ->
    start_step s (goto C_start_hv (set_exe Stopped (set_joinable false (hv_joinable s) s)))
| start_hv s : ctl s = C_start_hv ->
    start_step s (goto (if hv_joinable s then C_start_join_hv else C_start_cas) s)
| start_join_hv s : ctl s = C_start_join_hv -> hv_at (hv s) = HV_done ->
    start_step s (goto C_start_cas (set_exe Stopped (set_joinable (io_joinable s) false s)))
| start_cas s : ctl s = C_start_cas ->
    start_step s (if decide (exe_state_ s = Stopped)
                  then goto C_start_spawn_io (set_exe Running s)
                  else goto (C_start_returned false) s)
| start_spawn_io s : ctl s = C_start_spawn_io ->
    (* assigning to a joinable std::thread terminates the program *)
    start_step s (if io_joinable s then goto C_terminated s
                  else goto C_start_spawn_hv (set_joinable true (hv_joinable s)
                         (set_io (io_goto IO_check (io s)) s)))
| start_spawn_hv s : ctl s = C_start_spawn_hv ->
    start_step s (if hv_joinable s then goto C_terminated s
                  else goto (C_start_returned true) (set_joinable (io_joinable s) true
                         (set_hv (hv_goto HV_check (hv s)) s))).

(** [~Loop()] from the owner, after its call of [stop()] has returned: threads
    left joinable are joined; at [C_dtor_close] nothing but the closing of the
    descriptors is left ([LoopFd.loop_dtor]). *)
Inductive dtor_step : loop -> loop -> Prop :=
| dtor_stopped s : ctl s = C_stop_returned -> dtor_step s (goto C_dtor_io s)
| dtor_io s : ctl s = C_dtor_io ->
    dtor_step s (goto (if io_joinable s then C_dtor_join_io else C_dtor_hv) s)
| dtor_join_io s : ctl s = C_dtor_join_io -> io_at (io s) = IO_done ->
    dtor_step s (goto C_dtor_hv (set_exe Stopped (set_joinable false (hv_joinable s) s)))
| dtor_hv s : ctl s = C_dtor_hv ->
    dtor_step s (goto (if hv_joinable s then C_dtor_join_hv else C_dtor_close) s)
| dtor_join_hv s : ctl s = C_dtor_join_hv -> hv_at (hv s) = HV_done ->
    dtor_step s (goto C_dtor_close (set_exe Stopped (set_joinable (io_joinable s) false s))).

(** The io thread is inside a task or a callback. *)
Definition io_in_call (s : loop) : Prop :=
  match io_at (io s) with IO_run _ _ | IO_batch _ => True | _ => False end.

Definition hv_in_call (s : loop) : Prop :=
  match hv_at (hv s) with HV_run _ => True | _ => False end.

(** One step of the system.  The io thread's own steps are those of [io_step]
    other than a post and a wake; the heavy thread does not move while it
    joins the io thread. *)
Inductive lstep : actor -> loop -> loop -> Prop :=
| L_stop s s' : stop_step s s' -> lstep A_ctl s s'
| L_start s s' : start_step s s' -> lstep A_ctl s s'
| L_dtor s s' : dtor_step s s' -> lstep A_ctl s s'
| L_io s i : io_step (exe_state_ s) (io s) i -> io_posted i = io_posted (io s) ->
    io_pending_wakes i = io_pending_wakes (io s) -> lstep A_io s (set_io i s)
| L_hv s h : hv_thread (exe_state_ s) (hv s) h -> hv_joining s = false ->
    lstep A_hv s (set_hv h s)
| L_post_io s t : lstep A_post s (set_io (io_push t (io s)) s)
| L_post_hv s t : hv_locked (hv_at (hv s)) = false ->
    lstep A_post s (set_hv (hv_push t (hv s)) s)
| L_wake_io s : (0 < io_pending_wakes (io s))%nat ->
    lstep A_wake s (set_io (io_woke (wake_io_up (io s))) s)
| L_wake_hv s : (0 < hv_pending_notify (hv s))%nat ->
    lstep A_wake s (set_hv (hv_notified (wake_heavy_up (hv s))) s)
| L_spurious s : hv_at (hv s) = HV_sleep ->
    lstep A_spurious s (set_hv (hv_goto HV_lock (hv s)) s)
| L_io_stop s : io_in_call s ->
    (* io_thread_ is joinable and is this thread: stop() returns *)
    lstep A_self_stop s (set_exe (cas_stop (exe_state_ s)) s)
| L_hv_stop s : hv_in_call s -> hv_joining s = false -> ctl_free (ctl s) ->
    lstep A_self_stop s
      (let s1 := set_exe (cas_stop (exe_state_ s)) s in
       if io_joinable s then set_joining true (set_io (wake_io_up (io s)) s1) else s1)
| L_hv_joined s : hv_joining s = true -> io_at (io s) = IO_done ->
    lstep A_hv s (set_joining false (set_joinable false (hv_joinable s) s)).

Definition lany (s s' : loop) : Prop := exists a, lstep a s s'.
Definition reachable (s : loop) : Prop := rtc lany loop_init s.

(** ** The lifecycle invariant *)

Definition io_off (s : loop) : Prop := io_at (io s) = IO_none \/ io_at (io s) = IO_done.
Definition hv_off (s : loop) : Prop := hv_at (hv s) = HV_none \/ hv_at (hv s) = HV_done.

(** What the owner knows at each of its points. *)
Definition ctl_knows (s : loop) : Prop :=
  match ctl s with
  | C_idle | C_stop_returned | C_dtor_io | C_dtor_hv | C_dtor_close =>
      exe_state_ s = Stopped /\ io_joinable s = false /\ hv_joinable s = false
  | C_stop_cas | C_start_io | C_start_returned _ =>
      exe_state_ s = Running -> io_joinable s = true /\ hv_joinable s = true
  | C_stop_io => exe_state_ s <> Running
  | C_stop_join_io => exe_state_ s <> Running /\ io_joinable s = true
  | C_stop_hv => exe_state_ s <> Running /\ io_joinable s = false
  | C_stop_join_hv =>
      exe_state_ s <> Running /\ io_joinable s = false /\ hv_joinable s = true
  | C_stop_set => io_joinable s = false /\ hv_joinable s = false
  | C_start_join_io => io_joinable s = true
  | C_start_hv => exe_state_ s <> Running /\ io_joinable s = false
  | C_start_join_hv =>
      exe_state_ s <> Running /\ io_joinable s = false /\ hv_joinable s = true
  | C_start_cas =>
      exe_state_ s <> Running /\ io_joinable s = false /\ hv_joinable s = false
  | C_start_spawn_io => io_joinable s = false /\ hv_joinable s = false
  | C_start_spawn_hv => io_joinable s = true /\ hv_joinable s = false
  | C_dtor_join_io | C_dtor_join_hv | C_terminated => False
  end.

Record life_inv (s : loop) : Prop := {
  linv_io : io_inv (io s);
  linv_hv : hv_inv (hv s);
  linv_io_off : io_joinable s = false -> io_off s;
  linv_hv_off : hv_joinable s = false -> hv_off s;
  (** a thread that left its executor did so because the loop was stopped *)
  linv_io_done : io_joinable s = true -> io_at (io s) = IO_done -> exe_state_ s <> Running;
  linv_hv_done : hv_joinable s = true -> hv_at (hv s) = HV_done -> exe_state_ s <> Running;
  linv_joining : hv_joining s = true ->
    io_joinable s = true /\ exe_state_ s <> Running /\ ctl_free (ctl s) /\
    ctl s <> C_idle /\ ctl s <> C_stop_returned /\ hv_in_call s;
  linv_ctl : ctl_knows s
}.

(** *** What the steps of the parts do to the program counters *)

Lemma io_own_at exe (i i' : io_side T) :
  io_step exe i i' -> io_posted i' = io_posted i ->
  io_pending_wakes i' = io_pending_wakes i ->
  io_at i <> IO_none /\ io_at i <> IO_done /\ io_at i' <> IO_none /\
  (io_at i' = IO_done -> exe <> Running).
Proof.
  intros H Hp Hw. destruct H; simpl in *; try (split_and!; congruence).
  - exfalso. apply (f_equal length) in Hp. rewrite length_app in Hp. simpl in Hp. lia.
  - exfalso. revert Hw. unfold wake_io_up. destruct (_ <? _); simpl; lia.
Qed.

Lemma hv_own_at exe (h h' : hv_side T) :
  hv_thread exe h h' ->
  hv_at h <> HV_none /\ hv_at h <> HV_done /\ hv_at h' <> HV_none /\
  (hv_at h' = HV_done -> exe <> Running).
Proof.
  intros H. destruct H; simpl in *; try (split_and!; congruence).
  destruct (hv_predicate exe s); split_and!; congruence.
Qed.

Lemma wake_io_up_at (i : io_side T) : io_at (wake_io_up i) = io_at i.
Proof. unfold wake_io_up. by destruct (_ <? _). Qed.

Lemma wake_heavy_up_at (h : hv_side T) :
  (hv_at (wake_heavy_up h) = HV_none <-> hv_at h = HV_none) /\
  (hv_at (wake_heavy_up h) = HV_done <-> hv_at h = HV_done) /\
  ((exists n, hv_at (wake_heavy_up h) = HV_run n) <-> exists n, hv_at h = HV_run n).
Proof.
  unfold wake_heavy_up. destruct (hv_at h) eqn:Hat; rewrite ?Hat; simpl; split_and!; try done;
    split; intros [? ?]; congruence.
Qed.

Lemma cas_stop_ne e : cas_stop e <> Running.
Proof. by destruct e. Qed.

(** [life]: the goals left by a case of the preservation proof. *)
Ltac life :=
  unfold ctl_knows, io_off, hv_off, io_in_call, hv_in_call in *; simpl in *;
  rewrite ?wake_io_up_at in *;
  intuition (subst; simpl in *; auto; try congruence; try (exfalso; by eapply cas_stop_ne)).

Lemma stop_step_inv s s' : life_inv s -> stop_step s s' -> life_inv s'.
Proof.
  intros [Hio Hhv Hio0 Hhv0 Hiod Hhvd Hj Hk] Hs.
  destruct Hs as [s Hf Hnj|s Hc|s Hc|s Hc Hd|s Hc|s Hc Hd|s Hc];
    destruct s as [e i h ij hj hg c]; simpl in *; try subst c.
  - destruct c; try done; split; life.
  - split; life.
  - destruct ij; split; try (by apply wake_io_up_inv); life.
  - split; life.
  - pose proof (wake_heavy_up_at h) as (H1 & H2 & H3).
    destruct hj; split; try (by apply wake_heavy_up_inv); life.
  - split; life.
  - split; life.
Qed.

Lemma start_step_inv s s' : life_inv s -> start_step s s' -> life_inv s'.
Proof.
  intros [Hio Hhv Hio0 Hhv0 Hiod Hhvd Hj Hk] Hs.
  destruct Hs as [s Hf Hnj|s Hc|s Hc Hd|s Hc|s Hc Hd|s Hc|s Hc|s Hc];
    destruct s as [e i h ij hj hg c]; simpl in *; try subst c.
  - destruct c; try done; split; life.
  - destruct ij; split; life.
  - split; life.
  - destruct hj; split; life.
  - split; life.
  - case_decide; split; life.
  - unfold ctl_knows in Hk. simpl in Hk. destruct Hk as [-> ->].
    assert (io_inv (io_goto IO_check i))
      by (apply (io_any_inv i); [done|]; right; split; [by apply Hio0 | done]).
    split; life.
  - unfold ctl_knows in Hk. simpl in Hk. destruct Hk as [-> ->].
    assert (hv_inv (hv_goto HV_check h))
      by (apply (hv_any_inv h); [done|]; right; split; [by apply Hhv0 | done]).
    split; life.
Qed.

Lemma dtor_step_inv s s' : life_inv s -> dtor_step s s' -> life_inv s'.
Proof.
  intros [Hio Hhv Hio0 Hhv0 Hiod Hhvd Hj Hk] Hs.
  destruct Hs as [s Hc|s Hc|s Hc Hd|s Hc|s Hc Hd];
    destruct s as [e i h ij hj hg c]; simpl in *; subst c; try done;
    try destruct ij; try destruct hj; try (split; life); life.
Qed.

(** Steps that leave both program counters where they are. *)
Lemma same_io_inv s i :
  life_inv s -> io_inv i -> io_at i = io_at (io s) -> life_inv (set_io i s).
Proof.
  intros [Hio Hhv Hio0 Hhv0 Hiod Hhvd Hj Hk] Hi Hai.
  unfold ctl_knows, io_off in *. rewrite <- Hai in *. by split.
Qed.

Lemma same_hv_inv s h :
  life_inv s -> hv_inv h -> hv_at h = hv_at (hv s) -> life_inv (set_hv h s).
Proof.
  intros [Hio Hhv Hio0 Hhv0 Hiod Hhvd Hj Hk] Hh Hah.
  unfold ctl_knows, hv_off, hv_in_call in *. rewrite <- Hah in *. by split.
Qed.

Lemma woken_hv_inv s h :
  life_inv s -> hv_inv h -> hv_at (hv s) = HV_sleep -> hv_at h = HV_lock ->
  life_inv (set_hv h s).
Proof.
  intros [Hio Hhv Hio0 Hhv0 Hiod Hhvd Hj Hk] Hh Hat Hat'.
  destruct s as [e i h0 ij hj hg c]. simpl in *.
  split; try done; unfold ctl_knows, hv_off, hv_in_call in *; simpl in *;
    rewrite Hat in *; rewrite ?Hat' in *; try done; intros.
  - destruct (Hhv0 H); done.
Qed.

Lemma own_steps_inv a s s' : life_inv s -> lstep a s s' -> a = A_io \/ a = A_hv -> life_inv s'.
Proof.
  intros [Hio Hhv Hio0 Hhv0 Hiod Hhvd Hj Hk] Hs Ha.
  destruct Hs as [| | |s i Hi Hp Hw|s h Hh Hnj| | | | | | | |s Hjn Hd]; try (by destruct Ha);
    destruct s as [e i0 h0 ij hj hg c]; simpl in *.
  - pose proof (io_own_at _ _ _ Hi Hp Hw) as (? & ? & ? & ?).
    split; try (by eapply io_step_inv); life.
  - pose proof (hv_own_at _ _ _ Hh) as (? & ? & ? & ?).
    split; try (by eapply hv_thread_inv); life.
  - split; try life. destruct c; life.
Qed.

Lemma lstep_inv a s s' : life_inv s -> lstep a s s' -> life_inv s'.
Proof.
  intros Hinv Hs. pose proof Hinv as [Hio Hhv Hio0 Hhv0 Hiod Hhvd Hj Hk].
  destruct Hs as [s s' Hs|s s' Hs|s s' Hs|s i Hi Hp Hw|s h Hh Hnj|s t|s t Hl|s Hp|s Hp|s Hat
    |s Hin|s Hin Hnj Hf|s Hjn Hd].
  - by eapply stop_step_inv.
  - by eapply start_step_inv.
  - by eapply dtor_step_inv.
  - eapply own_steps_inv; [done | by apply L_io | auto].
  - eapply own_steps_inv; [done | by apply L_hv | auto].
  - by apply same_io_inv; [|apply io_push_inv|].
  - apply same_hv_inv; [done| |done].
    eapply (hv_step_inv Running); [done|]. by apply hv_step_post.
  - apply same_io_inv; [done|by apply io_woke_inv|]. apply wake_io_up_at.
  - pose proof (hv_step_inv Running _ _ Hhv (hv_step_notify _ _ Hp)) as Hh.
    destruct (decide (hv_at (hv s) = HV_sleep)) as [Hat|Hat].
    + apply woken_hv_inv; try done. unfold wake_heavy_up. by rewrite Hat.
    + apply same_hv_inv; try done. unfold wake_heavy_up.
      destruct (hv_at (hv s)) eqn:E; simpl; congruence.
  - apply woken_hv_inv; try done.
    eapply (hv_step_inv Running); [done|]. by apply hv_step_spurious.
  - destruct s as [e i h ij hj hg c]. simpl in *.
    destruct c; split; try done; life.
  - destruct s as [e i h ij hj hg c]. simpl in *.
    destruct ij, c; try done; split; try done; try (by apply wake_io_up_inv); life.
  - eapply own_steps_inv; [done | by apply L_hv_joined | auto].
Qed.

Lemma loop_init_inv : life_inv loop_init.
Proof.
  split; [apply io_init_inv | apply hv_init_inv | by left | by left | done..].
Qed.

Lemma reachable_inv s : reachable s -> life_inv s.
Proof.
  intros Hr. pose proof loop_init_inv as Hi. induction Hr as [|s1 s2 s3 [a Hs] ? IH]; [done|].
  apply IH. by eapply lstep_inv.
Qed.

(** ** What [start] and [stop] guarantee *)

(** C20: [stop] called by the owner of the loop returns only when the loop is
    stopped and both executor threads have left and are joined (a [stop] called by
    a task on one of these threads returns with them unjoined, see
    [restart_after_self_stop_blocks]); and, where calls of [start] and [stop] by
    different threads do not overlap, no interleaving makes [start] assign a thread
    to a joinable [std::thread] (which would terminate the program): when it
    creates them, no executor thread is running; and the destructor closes the
    descriptors only when no executor thread is left. *)
Theorem stop_start_safe s :
  reachable s ->
  (ctl s = C_stop_returned \/ ctl s = C_dtor_close ->
     exe_state_ s = Stopped /\ io_off s /\ hv_off s /\
     io_joinable s = false /\ hv_joinable s = false) /\
  (ctl s = C_start_spawn_io -> io_off s /\ hv_off s) /\
  ctl s <> C_terminated.
Proof.
  intros Hr. destruct (reachable_inv s Hr) as [_ _ Hi Hh _ _ _ Hk]. unfold ctl_knows in Hk.
  split_and!.
  - intros [Hc|Hc]; rewrite Hc in Hk; destruct Hk as (? & ? & ?); auto.
  - intros Hc. rewrite Hc in Hk. destruct Hk. auto.
  - intros Hc. by rewrite Hc in Hk.
Qed.

(** A run in which no task calls [stop]. *)
Definition lstep_no_self_stop (s s' : loop) : Prop :=
  exists a, a <> A_self_stop /\ lstep a s s'.

Definition starting_running (s : loop) : Prop :=
  exe_state_ s = Running /\ (ctl s = C_start_io \/ ctl s = C_start_join_io).

Lemma starting_running_step s s' :
  life_inv s -> starting_running s -> lstep_no_self_stop s s' -> starting_running s'.
Proof.
  intros [_ _ _ _ Hiod _ Hj Hk] [He Hc] (a & Ha & Hs). unfold ctl_knows, starting_running in *.
  assert (Hij : io_joinable s = true)
    by (destruct Hc as [Hc|Hc]; rewrite Hc in Hk; [by apply Hk | done]).
  destruct Hs as [s s' Hs|s s' Hs|s s' Hs| | | | | | | | | |]; try done.
  - destruct Hs as [s Hf ?|s ?|s ?|s ? ?|s ?|s ? ?|s ?]; try (destruct Hc; congruence).
    destruct Hc as [Hc|Hc]; by rewrite Hc in Hf.
  - destruct Hs as [s Hf ?|s ?|s ? Hd|s ?|s ? ?|s ?|s ?|s ?]; try (destruct Hc; congruence).
    + destruct Hc as [Hc|Hc]; by rewrite Hc in Hf.
    + rewrite Hij. simpl. auto.
    + by destruct (Hiod Hij Hd).
  - destruct Hs; destruct Hc; congruence.
Qed.

(** [start] on a running loop does not return [false] as its log message
    says: it joins the running io thread, so it stays blocked, with the loop
    [Running], as long as no task of the loop calls [stop] itself. *)
Theorem start_on_running_blocks s s' :
  reachable s -> ctl s = C_start_io -> exe_state_ s = Running ->
  rtc lstep_no_self_stop s s' ->
  exe_state_ s' = Running /\ (ctl s' = C_start_io \/ ctl s' = C_start_join_io).
Proof.
  intros Hr Hc He Hrun. pose proof (reachable_inv s Hr) as Hi.
  assert (Hst : starting_running s) by (split; auto).
  enough (starting_running s') by done. clear Hr Hc He.
  induction Hrun as [|s1 s2 s3 Hs ? IH]; [done|].
  apply IH; [|by eapply starting_running_step].
  destruct Hs as (a & _ & Hs). by eapply lstep_inv.
Qed.

(** *** Blocked states *)

(** Only a new post or a spurious wake-up can move the system: no thread of
    the loop, and no call in progress, will ever take a step by itself. *)
Definition blocked (s : loop) : Prop :=
  forall a s', lstep a s s' -> a = A_post \/ a = A_spurious.

Definition at_heavy_join (pc : ctl_pc) : Prop := pc = C_stop_join_hv \/ pc = C_start_join_hv.

Lemma asleep_blocked s :
  at_heavy_join (ctl s) -> io_at (io s) = IO_done -> hv_at (hv s) = HV_sleep ->
  io_pending_wakes (io s) = 0%nat -> hv_pending_notify (hv s) = 0%nat ->
  hv_joining s = false -> blocked s.
Proof.
  intros Hc Hio Hhv Hpi Hph Hj a s' Hs. unfold at_heavy_join in Hc.
  destruct Hs as [s s' Hs|s s' Hs|s s' Hs|s i Hi Hp Hw|s h Hh Hnj|s t|s t Hl|s Hp|s Hp|s Hat
    |s Hin|s Hin Hnj Hf|s Hjn Hd]; auto; try lia.
  - destruct Hs as [s Hf ?|s ?|s ?|s ? ?|s ?|s ? ?|s ?]; try (destruct Hc; congruence).
    destruct Hc as [Hc|Hc]; by rewrite Hc in Hf.
  - destruct Hs as [s Hf ?|s ?|s ? ?|s ?|s ? ?|s ?|s ?|s ?]; try (destruct Hc; congruence).
    destruct Hc as [Hc|Hc]; by rewrite Hc in Hf.
  - destruct Hs; destruct Hc; congruence.
  - destruct (io_own_at _ _ _ Hi Hp Hw) as (_ & ? & _). congruence.
  - inversion Hh; congruence.
  - unfold io_in_call in Hin. by rewrite Hio in Hin.
  - unfold hv_in_call in Hin. by rewrite Hhv in Hin.
  - congruence.
Qed.

(** *** Runs, as lists of steps *)

Lemma step_then a s1 s2 s3 : lstep a s1 s2 -> rtc lany s2 s3 -> rtc lany s1 s3.
Proof. intros. eapply rtc_l; [|done]. by exists a. Qed.
End life.
Arguments loop : clear implicits.

(** [go_stop c], [go_start c], [go_io c], [go_hv c]: one step of that actor in
    a concrete run, by the constructor [c]. *)
Ltac go_with tac := eapply step_then; [tac (); simpl; try done; try exact I|]; cbn.
Tactic Notation "go_stop" uconstr(c) := go_with ltac:(fun _ => apply L_stop; apply c).
Tactic Notation "go_start" uconstr(c) := go_with ltac:(fun _ => apply L_start; apply c).
Tactic Notation "go_dtor" uconstr(c) := go_with ltac:(fun _ => apply L_dtor; apply c).
Tactic Notation "go_io" uconstr(c) := go_with ltac:(fun _ => apply L_io; [apply c|..]).
Tactic Notation "go_hv" uconstr(c) := go_with ltac:(fun _ => apply L_hv; [apply c|..]).

(** [start()] up to its return. *)
Definition started : loop nat :=
  mk_loop Running (io_goto IO_check io_init) (hv_goto HV_check hv_init) true true false
    (C_start_returned true).

Lemma started_reach : reachable started.
Proof.
  unfold reachable. go_start start_call. go_start start_io. go_start start_hv.
  go_start start_cas. go_start start_spawn_io. go_start start_spawn_hv. constructor.
Qed.

(** The heavy thread evaluates its predicate (queue empty, [Running]) ... *)
Definition about_to_sleep : loop nat := set_hv (hv_goto HV_sleepy hv_init) started.

Lemma about_to_sleep_reach : reachable about_to_sleep.
Proof.
  unfold reachable. etrans; [apply started_reach|]. unfold started.
  go_hv hv_step_enter. go_hv hv_step_lock. go_hv hv_step_pred. constructor.
Qed.

(** ... and [stop] does all its work before it goes to sleep. *)
Definition lost_stop : loop nat :=
  mk_loop Stopping (io_goto IO_done (wake_io_up io_init)) (hv_goto HV_sleep hv_init)
    false true false C_stop_join_hv.

Lemma lost_stop_reach : reachable lost_stop.
Proof.
  unfold reachable. etrans; [apply about_to_sleep_reach|].
  unfold about_to_sleep, started, set_hv. simpl.
  go_stop stop_call. go_stop stop_cas. go_stop stop_io. go_io io_step_leave.
  go_stop stop_join_io. go_stop stop_hv. go_hv hv_step_sleep. constructor.
Qed.

(** [stop] can lose its wake-up of the heavy thread: [exe_state_] is changed
    without [heavy_queue_mtx_], so the change and the [notify_one] can both fall
    between the evaluation of the wait predicate and the sleep.  The owner then
    waits in [heavy_thread_.join()] for a thread that sleeps, and nothing but a
    new post or a spurious wake-up moves the system. *)
Theorem stop_can_lose_wakeup :
  exists s : loop nat, reachable s /\ ctl s = C_stop_join_hv /\
    heavy_buffer_queue_ (hv s) = [] /\ blocked s.
Proof.
  exists lost_stop. split_and!; [apply lost_stop_reach | done..|].
  apply asleep_blocked; try done. by left.
Qed.

(** A started loop whose heavy thread sleeps, while a posted io task runs ... *)
Definition task_running : loop nat :=
  mk_loop Running (mk_io (IO_run 0 []) [] [1%nat] 0 0 false [1%nat] [])
    (hv_goto HV_sleep hv_init) true true false (C_start_returned true).

Lemma task_running_reach : reachable task_running.
Proof.
  unfold reachable. etrans; [apply about_to_sleep_reach|].
  unfold about_to_sleep, started, set_hv. simpl.
  go_hv hv_step_sleep.
  eapply step_then; [apply (L_post_io _ 1%nat)|]; cbn.
  eapply step_then; [apply L_wake_io; simpl; lia|]; cbn.
  go_io io_step_enter.
  eapply step_then; [apply L_io; [apply (io_step_report _ [EvWake]); [done|]|done..]|].
  { split_and!; [done | vm_compute; discriminate | done |].
    intros [|? []] ? [=]; subst. set_solver. }
  cbn. go_io (io_step_drain _ []). go_io (io_step_swap _ []). constructor.
Qed.

(** ... and calls [stop]: the io thread leaves, the heavy thread is not told,
    and the next [start] of the owner joins it. *)
Definition lost_start : loop nat :=
  mk_loop Stopped (mk_io IO_done [] [] 0 0 false [1%nat] [1%nat])
    (hv_goto HV_sleep hv_init) false true false C_start_join_hv.

Lemma lost_start_reach : reachable lost_start.
Proof.
  unfold reachable. etrans; [apply task_running_reach|]. unfold task_running.
  eapply step_then; [apply L_io_stop; exact I|]; cbn.
  eapply step_then; [apply L_io; [by apply (io_step_call _ 1%nat 0)|done..]|]; cbn.
  eapply step_then; [apply L_io; [by apply (io_step_clear _ 1)|done..]|]; cbn.
  go_io io_step_end. go_io io_step_leave.
  go_start start_call. go_start start_io. go_start start_join_io. go_start start_hv.
  constructor.
Qed.

(** After a task of the io thread called [stop] (which returns there without
    waking the heavy thread), the owner's [start], meant to clean up and restart,
    joins the heavy thread while it sleeps: the system is blocked. *)
Theorem restart_after_self_stop_blocks :
  exists s : loop nat, reachable s /\ ctl s = C_start_join_hv /\
    exe_state_ s = Stopped /\ blocked s.
Proof.
  exists lost_start. split_and!; [apply lost_start_reach | done..|].
  apply asleep_blocked; try done. by right.
Qed.

(** ** Witnesses *)

Definition stopped_again : loop nat :=
  mk_loop Stopped (io_goto IO_done (wake_io_up io_init)) (hv_goto HV_done hv_init)
    false false false C_stop_returned.

Lemma stopped_again_reach : reachable stopped_again.
Proof.
  unfold reachable. etrans; [apply started_reach|]. unfold started.
  go_stop stop_call. go_stop stop_cas. go_stop stop_io. go_io io_step_leave.
  go_stop stop_join_io. go_hv hv_step_leave. go_stop stop_hv. go_stop stop_join_hv.
  go_stop stop_set. constructor.
Qed.

Lemma destroyed_reach : reachable (goto C_dtor_close stopped_again).
Proof.
  unfold reachable. etrans; [apply stopped_again_reach|]. unfold stopped_again, goto.
  go_dtor dtor_stopped. go_dtor dtor_io. go_dtor dtor_hv. constructor.
Qed.

Lemma stop_start_safe_witness :
  let s := goto C_dtor_close stopped_again in
  exe_state_ s = Stopped /\ io_off s /\ hv_off s /\ io_joinable s = false /\ hv_joinable s = false.
Proof. apply (stop_start_safe _ destroyed_reach). right. reflexivity. Defined.

Lemma restart_call_reach : reachable (goto C_start_io started).
Proof.
  unfold reachable. etrans; [apply started_reach|]. unfold started, goto.
  go_start start_call. constructor.
Qed.

Lemma start_on_running_blocks_witness :
  exe_state_ (goto C_start_io started) = Running /\
  (ctl (goto C_start_io started) = C_start_io \/ ctl (goto C_start_io started) = C_start_join_io).
Proof.
  apply (start_on_running_blocks (goto C_start_io started) (goto C_start_io started));
    [apply restart_call_reach | reflexivity | reflexivity | constructor].
Defined.
