(* ===== verification/Channel.v ===== *)
(** * Channel: the owner of a registered descriptor

    Models [LoopChannel] of [src/core.cpp] and [include/kzevent/core.hpp]:
    construction, destruction, moves and swaps, the event subscriptions and the
    life-checked wrappers around callbacks and tasks.  What a method posts to
    its loop is returned as a list of [post]s; the table tasks among them are
    those of [LoopFd], which the theorems run. *)

From S2P Require Import Prelude Events Kernel LoopFd.

(** A callable and the [std::weak_ptr] it is wrapped with. *)
Record guarded (F : Type) := mk_guarded { life_checker : nat; body : F }.
Arguments mk_guarded {F} _ _.
Arguments life_checker {F} _.
Arguments body {F} _.

(** The wrapper lambdas: [lock()] the life checker, and return when the object
    is gone ([alive] tells which objects still are owned). *)
Definition call_guarded {F} (alive : nat -> bool) (g : guarded F) : option F :=
  if alive (life_checker g) then Some (body g) else None.

Section channel.
Context {L : Type} `{EqDecision L} {F : Type}.

Record channel := mk_channel {
  in_loop_ : option L;
  fd_ : Z;
  event_types_ : Z;
  event_modes_ : Z
}.

Inductive post :=
| PostFd (l : L) (t : fd_task (guarded F))
| PostIo (l : L) (task : guarded F)
| PostHeavy (l : L) (task : guarded F).

(** The test every method starts with: the loop of a channel that may be used. *)
Definition valid (c : channel) : option L :=
  if fd_ c =? -1 then None else in_loop_ c.

Definition channel_ctor (loop : L) (fd : Z) : channel * list post :=
  (mk_channel (Some loop) fd EventType.kDefault EventMode.kDefault,
   [PostFd loop (TRegister fd)]).

Definition channel_dtor (c : channel) : list post :=
  match valid c with Some l => [PostFd l (TUnregister (fd_ c))] | None => [] end.

(** [LoopChannel(LoopChannel &&other)]: the new channel, then [other]. *)
Definition move_ctor (other : channel) : channel * channel :=
  (mk_channel (in_loop_ other) (fd_ other) EventType.kDefault EventMode.kDefault,
   mk_channel None (-1) (event_types_ other) (event_modes_ other)).

(** [swap(a, b)], which [operator=(LoopChannel &&)] calls. *)
Definition swap (a b : channel) : channel * channel :=
  (mk_channel (in_loop_ b) (fd_ b) (event_types_ a) (event_modes_ a),
   mk_channel (in_loop_ a) (fd_ a) (event_types_ b) (event_modes_ b)).

Definition move_assign (a other : channel) : channel * channel := swap a other.

Definition update_event_cb (life : nat) (types modes : Z) (cb : F) (c : channel)
    : channel * list post :=
  match valid c with
  | None => (c, [])
  | Some l => (mk_channel (in_loop_ c) (fd_ c) types modes,
               [PostFd l (TEnableCb (fd_ c) types modes (mk_guarded life cb))])
  end.

Definition update_event (types modes : Z) (c : channel) : channel * list post :=
  match valid c with
  | None => (c, [])
  | Some l => (mk_channel (in_loop_ c) (fd_ c) types modes,
               [PostFd l (TEnable (fd_ c) types modes)])
  end.

Definition get_event_info (c : channel) : Z * Z := (event_types_ c, event_modes_ c).

Definition disable_event (c : channel) : list post :=
  match valid c with Some l => [PostFd l (TDisable (fd_ c))] | None => [] end.

Definition post_io_task (life : nat) (task : F) (c : channel) : list post :=
  match valid c with Some l => [PostIo l (mk_guarded life task)] | None => [] end.

Definition post_heavy_task (life : nat) (task : F) (c : channel) : list post :=
  match valid c with Some l => [PostHeavy l (mk_guarded life task)] | None => [] end.

Definition get_fd (c : channel) : Z := match valid c with Some _ => fd_ c | None => -1 end.
Definition get_loop (c : channel) : option L := valid c.

(** ** Programs over channels

    A program creates, moves, uses and destroys named channels. *)
Inductive ch_op :=
| ChNew (i : nat) (loop : L) (fd : Z)
| ChDelete (i : nat)
| ChMoveNew (i j : nat)
| ChMoveAssign (i j : nat)
| ChUpdateCb (i life : nat) (types modes : Z) (cb : F)
| ChUpdate (i : nat) (types modes : Z)
| ChDisable (i : nat)
| ChPostIo (i life : nat) (task : F)
| ChPostHeavy (i life : nat) (task : F).

Definition ch_step (o : ch_op) (s : gmap nat channel) : option (gmap nat channel * list post) :=
  match o with
  | ChNew i loop fd =>
      match s !! i with
      | Some _ => None
      | None => let '(c, ps) := channel_ctor loop fd in Some (<[i := c]> s, ps)
      end
  | ChDelete i => c ← s !! i; Some (delete i s, channel_dtor c)
  | ChMoveNew i j =>
      match s !! i, s !! j with
      | None, Some b => let '(a', b') := move_ctor b in Some (<[i := a']> (<[j := b']> s), [])
      | _, _ => None
      end
  | ChMoveAssign i j =>
      a ← s !! i; b ← s !! j;
      if decide (i = j) then Some (s, [])
      else let '(a', b') := move_assign a b in Some (<[i := a']> (<[j := b']> s), [])
  | ChUpdateCb i life types modes cb =>
      c ← s !! i; let '(c', ps) := update_event_cb life types modes cb c in
      Some (<[i := c']> s, ps)
  | ChUpdate i types modes =>
      c ← s !! i; let '(c', ps) := update_event types modes c in
      Some (<[i := c']> s, ps)
  | ChDisable i => c ← s !! i; Some (s, disable_event c)
  | ChPostIo i life task => c ← s !! i; Some (s, post_io_task life task c)
  | ChPostHeavy i life task => c ← s !! i; Some (s, post_heavy_task life task c)
  end.

(** What the program owes: a descriptor given to a new channel is a fresh one
    of the kernel (no channel owns it), and a subscription names an event. *)
Definition ch_ok (wake : Z) (s : gmap nat channel) (o : ch_op) : Prop :=
  match o with
  | ChNew _ _ fd => fd_ok wake fd /\ map_Forall (fun _ c => valid c <> None -> fd_ c <> fd) s
  | ChUpdateCb _ _ types _ _ | ChUpdate _ types _ => Z.land types all_types <> 0
  | _ => True
  end.

#[export] Instance ch_ok_dec wake s o : Decision (ch_ok wake s o).
Proof. unfold ch_ok, fd_ok. destruct o; apply _. Defined.

Inductive ch_run (wake : Z) : gmap nat channel -> list post -> gmap nat channel -> Prop :=
| ch_run_nil s : ch_run wake s [] s
| ch_run_snoc s ps s1 o ps1 s2 :
    ch_run wake s ps s1 -> ch_ok wake s1 o -> ch_step o s1 = Some (s2, ps1) ->
    ch_run wake s (ps ++ ps1) s2.

(** The table tasks a loop receives, in order. *)
Definition table_tasks (l : L) (ps : list post) : list (fd_task (guarded F)) :=
  omap (fun p => match p with
                 | PostFd l' t => if decide (l' = l) then Some t else None
                 | _ => None
                 end) ps.
End channel.
Arguments channel : clear implicits.
Arguments post : clear implicits.
Arguments ch_op : clear implicits.

(** ** What a table task does to the registrations *)

Section registrations.
Context {K : Type} `{EK : EpollKernel K, EL : !EpollLaws K} {CB : Type}.
Implicit Types (s : fd_state K CB) (t : fd_task CB).

Definition registered (s : fd_state K CB) (fd : Z) : bool :=
  match get_event fd s with Ok ev => in_register ev | _ => false end.

Lemma registered_event s fd :
  registered s fd = true -> exists ev, get_event fd s = Ok ev /\ in_register ev = true.
Proof. unfold registered. destruct (get_event fd s); try done. eauto. Qed.

Lemma registered_with fd fd' ev ev0 s :
  get_event fd s = Ok ev0 ->
  registered (with_event fd ev s) fd' =
    (if decide (fd' = fd) then in_register ev else registered s fd').
Proof.
  intros H. unfold registered. rewrite (get_event_with _ _ _ ev0) by done.
  by case_decide.
Qed.

(** The two messages the bodies log when a channel misuses its descriptor. *)
Definition misuse (l : fd_log) : bool :=
  match l with LogError _ => false | _ => true end.

Definition tidy (l : list fd_log) : Prop := Forall (fun m => misuse m = false) l.

(** What a task needs of the table, and what it leaves. *)
Definition task_ready (s : fd_state K CB) (t : fd_task CB) : Prop :=
  match t with
  | TRegister _ => True
  | TUnregister fd | TDisable fd => registered s fd = true
  | TEnableCb fd types _ _ | TEnable fd types _ =>
      registered s fd = true /\ Z.land types all_types <> 0
  end.

Definition closes : Prop := forall k fd, (sys_close k fd).2 = None.

Definition task_leaves (t : fd_task CB) (r : bool) : Prop :=
  match t with TUnregister _ => closes -> r = false | _ => r = true end.

Lemma register_leaves fd s :
  0 <= fd < 2 ^ 31 - 1 ->
  exists s', register_task fd s = Ok (s', []) /\
    (forall fd', registered s' fd' = if decide (fd' = fd) then true else registered s fd').
Proof.
  intros Hfd. destruct (register_Ok fd s Hfd) as (s1 & ev & Hr & Hev & -> & _ & _).
  eexists. split; [exact Hr|]. intros fd'. rewrite (registered_with _ _ _ ev) by done.
  case_decide; [done|].
  destruct (grow_events_ok fd (events_ s) Hfd) as (Hl & _ & _ & Hold & Hnew).
  unfold registered, get_event. simpl. destruct (Z.leb_spec 0 fd'); [|done].
  destruct (Z.lt_ge_cases fd' (zlen (events_ s))) as [Hlt|Hge].
  - by rewrite Hold by lia.
  - rewrite (lookup_ge_None_2 (events_ s)) by (unfold zlen in Hge; lia).
    destruct (grow_events fd (events_ s) !! Z.to_nat fd') as [e|] eqn:He; [|done].
    simpl. by rewrite (Hnew fd' e).
Qed.

Lemma table_step t s :
  0 <= task_fd t < 2 ^ 31 - 1 -> task_ready s t ->
  exists s' l, run_fd_task t s = Ok (s', l) /\ tidy l /\
    (forall fd', fd' <> task_fd t -> registered s' fd' = registered s fd') /\
    task_leaves t (registered s' (task_fd t)).
Proof.
  intros Hfd Hr.
  assert (Hkeep : forall fd ev ev' k, get_event fd s = Ok ev -> in_register ev' = true ->
    (forall fd', fd' <> fd -> registered (with_event fd ev' (with_kernel k s)) fd' = registered s fd') /\
    registered (with_event fd ev' (with_kernel k s)) fd = true).
  { intros fd ev ev' k He Hi. split; intros; rewrite (registered_with _ _ _ ev) by done;
      by case_decide. }
  destruct t; simpl in *.
  - destruct (register_leaves fd s Hfd) as (s1 & H1 & H2). exists s1, [].
    split_and!; [done | constructor | |]; intros; rewrite H2; by case_decide.
  - destruct (registered_event _ _ Hr) as (ev & He & Hi). unfold unregister_task.
    rewrite He. simpl. rewrite Hi. simpl.
    destruct (if in_epoll ev then _ else _) as [k1 l1] eqn:E1.
    assert (tidy l1).
    { destruct (in_epoll ev); [|simplify_eq; constructor].
      destruct (epoll_ctl _ _ _ _) as [? [?|]]; simplify_eq; [|constructor].
      destruct (_ =? _); repeat constructor. }
    destruct (sys_close k1 fd) as [k2 [e|]] eqn:E2; do 2 eexists; (split; [done|]).
    + split_and!; [by apply Forall_app; split; [|repeat constructor] | done |].
      intros Hc. specialize (Hc k1 fd). by rewrite E2 in Hc.
    + split; [done|]. split; intros; rewrite (registered_with _ _ _ ev) by done;
        by case_decide.
  - destruct Hr as [Hr Ht]. destruct (registered_event _ _ Hr) as (ev & He & Hi).
    destruct (kz_to_local_types_nonzero types Ht) as [m Hm].
    unfold enable_cb_task. rewrite He, Hm, kz_to_local_modes_ok. simpl. rewrite Hi. simpl.
    destruct (subscribe _ _ _ _) as [k [e|]]; do 2 eexists; (split; [done|]).
    + split_and!; [repeat constructor | done | done].
    + split; [constructor | by apply (Hkeep _ ev)].
  - destruct Hr as [Hr Ht]. destruct (registered_event _ _ Hr) as (ev & He & Hi).
    destruct (kz_to_local_types_nonzero types Ht) as [m Hm].
    unfold enable_task. rewrite He, Hm, kz_to_local_modes_ok. simpl. rewrite Hi. simpl.
    destruct (subscribe _ _ _ _) as [k [e|]]; do 2 eexists; (split; [done|]).
    + split_and!; [repeat constructor | done | done].
    + split; [constructor | by apply (Hkeep _ ev)].
  - destruct (registered_event _ _ Hr) as (ev & He & Hi). unfold disable_task.
    rewrite He. simpl. rewrite Hi. simpl.
    destruct (epoll_ctl _ _ _ _) as [k [e|]]; [destruct (e =? ENOENT)|];
      do 2 eexists; (split; [done|]); (split; [repeat constructor|]);
      first [by apply (Hkeep _ ev) | done].
Qed.

Lemma run_fd_tasks_app ts1 ts2 s s1 l1 s2 l2 :
  run_fd_tasks ts1 s = Ok (s1, l1) -> run_fd_tasks ts2 s1 = Ok (s2, l2) ->
  run_fd_tasks (ts1 ++ ts2) s = Ok (s2, l1 ++ l2).
Proof.
  revert s l1. induction ts1 as [|t ts1 IH]; intros s l1 H1 H2; simpl in *.
  - by simplify_eq.
  - inv_res. destruct a0 as [sa la]. simpl in *. simplify_eq.
    rewrite Hm. simpl. rewrite (IH _ _ Hm0 H2). simpl. by rewrite app_assoc.
Qed.
End registrations.

(** ** Ownership *)

Section ownership.
Context {L : Type} `{EqDecision L} {F : Type}.
Context {K : Type} `{EK : EpollKernel K, EL : !EpollLaws K}.
Variable (wake : Z) (l : L).
Implicit Types (s : gmap nat (channel L)) (t : fd_state K (guarded F)) (own : nat -> option (L * Z)).

(** The loop and descriptor a named channel owns. *)
Definition owned (s : gmap nat (channel L)) (i : nat) : option (L * Z) :=
  c ← s !! i; lp ← valid c; Some (lp, fd_ c).

(** Each descriptor has one owner; the slots the table marks as registered are
    exactly those of the descriptors the channels of the loop own (at least
    those, when [close] may fail). *)
Record own_inv own t : Prop := {
  own_range i lp fd : own i = Some (lp, fd) -> fd_ok wake fd;
  own_unique i j l1 l2 fd : own i = Some (l1, fd) -> own j = Some (l2, fd) -> i = j;
  own_registered i fd : own i = Some (l, fd) -> registered t fd = true;
  own_no_leak fd : closes (K := K) -> registered t fd = true -> exists i, own i = Some (l, fd)
}.

(** The channels of a well-behaved program and the table of the loop. *)
Definition table_agrees s t (log : list fd_log) : Prop := own_inv (owned s) t /\ tidy log.

Lemma own_inv_ext own own' t :
  own_inv own t -> (forall i, own' i = own i) -> own_inv own' t.
Proof.
  intros [] He. split.
  - intros *. rewrite He. eauto.
  - intros *. rewrite !He. eauto.
  - intros *. rewrite He. eauto.
  - intros fd Hc Hr. destruct (own_no_leak0 fd Hc Hr) as [i Hi]. exists i. by rewrite He.
Qed.

Lemma own_inv_perm own own' (p : nat -> nat) t :
  own_inv own t -> (forall i, p (p i) = i) -> (forall i, own' i = own (p i)) ->
  own_inv own' t.
Proof.
  intros [] Hp He. split.
  - intros *. rewrite He. eauto.
  - intros i j l1 l2 fd. rewrite !He. intros H1 H2.
    rewrite <- (Hp i), <- (Hp j). apply (f_equal p). eauto.
  - intros *. rewrite He. eauto.
  - intros fd Hc Hr. destruct (own_no_leak0 fd Hc Hr) as [i Hi].
    exists (p i). by rewrite He, Hp.
Qed.

(** A task on a descriptor an owner of the loop subscribes or unsubscribes. *)
Lemma own_inv_use own i fd (tk : fd_task (guarded F)) t :
  own_inv own t -> own i = Some (l, fd) -> task_fd tk = fd -> task_ready t tk ->
  (forall r, task_leaves (K := K) tk r -> r = true) ->
  exists t' log, run_fd_task tk t = Ok (t', log) /\ tidy log /\ own_inv own t'.
Proof.
  intros Hi Ho <- Hready Hl. pose proof (own_range _ _ Hi _ _ _ Ho) as [Hr _].
  destruct (table_step tk t Hr Hready) as (t' & log & H1 & H2 & H3 & H4%Hl).
  exists t', log. split_and!; [done..|].
  assert (Hsame : forall fd, registered t' fd = registered t fd).
  { intros fd. destruct (decide (fd = task_fd tk)) as [->|]; [|auto].
    rewrite H4. symmetry. by apply (own_registered _ _ Hi _ _ Ho). }
  destruct Hi. split; try done.
  - intros *. rewrite Hsame. eauto.
  - intros *. rewrite Hsame. eauto.
Qed.

Lemma own_inv_add own own' i lp fd t t' :
  own_inv own t -> own i = None -> fd_ok wake fd ->
  (forall j lp', own j <> Some (lp', fd)) ->
  (forall j, own' j = if decide (j = i) then Some (lp, fd) else own j) ->
  (forall fd', registered t' fd' =
     if decide (fd' = fd) then (if decide (lp = l) then true else registered t fd)
     else registered t fd') ->
  own_inv own' t'.
Proof.
  intros [] Hn Hfd Hfresh Ho Hr. split.
  - intros j lp' fd'. rewrite Ho. destruct (decide (j = i)); [intros; simplify_eq; done | eauto].
  - intros j1 j2 l1 l2 fd'. rewrite !Ho.
    destruct (decide (j1 = i)), (decide (j2 = i)); intros; simplify_eq; try done;
      try (exfalso; by eapply Hfresh). eauto.
  - intros j fd'. rewrite Ho, Hr. intros H.
    destruct (decide (j = i)); simplify_eq.
    + by rewrite !decide_True by done.
    + rewrite decide_False by (intros ->; by eapply Hfresh). eauto.
  - intros fd' Hc. rewrite Hr. intros H.
    destruct (decide (fd' = fd)) as [->|]; [destruct (decide (lp = l)) as [->|]|].
    + exists i. rewrite Ho. by rewrite decide_True.
    + exfalso. destruct (own_no_leak0 fd Hc H) as [j Hj]. by eapply Hfresh.
    + destruct (own_no_leak0 fd' Hc H) as [j Hj]. exists j. rewrite Ho.
      rewrite decide_False; [done|]. congruence.
Qed.

Lemma own_inv_remove own own' i lp fd t t' :
  own_inv own t -> own i = Some (lp, fd) ->
  (forall j, own' j = if decide (j = i) then None else own j) ->
  (forall fd', fd' <> fd \/ lp <> l -> registered t' fd' = registered t fd') ->
  (lp = l -> closes (K := K) -> registered t' fd = false) ->
  own_inv own' t'.
Proof.
  intros [] Hi Ho Hr Hc. split.
  - intros j lp' fd'. rewrite Ho. destruct (decide (j = i)); [done | eauto].
  - intros j1 j2 l1 l2 fd'. rewrite !Ho.
    destruct (decide (j1 = i)), (decide (j2 = i)); try done. eauto.
  - intros j fd'. rewrite Ho. destruct (decide (j = i)); [done|]. intros Hj.
    rewrite Hr; [eauto|]. left. intros ->. by assert (j = i) by eauto.
  - intros fd' Hcl H. destruct (decide (fd' = fd /\ lp = l)) as [[-> ->]|Hne].
    + by rewrite Hc in H.
    + rewrite Hr in H by (destruct (decide (fd' = fd)); [right; naive_solver | by left]).
      destruct (own_no_leak0 fd' Hcl H) as [j Hj].
      exists j. rewrite Ho. rewrite decide_False; [done|]. intros ->. apply Hne. by simplify_eq.
Qed.
Lemma run_one (tk : fd_task (guarded F)) t t' log :
  run_fd_task tk t = Ok (t', log) -> run_fd_tasks [tk] t = Ok (t', log).
Proof. intros H. simpl. rewrite H. simpl. by rewrite app_nil_r. Qed.

(** What one operation does to the table and the ownership. *)
Definition step_agrees (own' : nat -> option (L * Z)) (ps : list (post L F)) t : Prop :=
  exists t' log, run_fd_tasks (table_tasks l ps) t = Ok (t', log) /\ tidy log /\ own_inv own' t'.

Lemma step_nothing own own' ps t :
  own_inv own t -> (forall i, own' i = own i) -> table_tasks l ps = [] ->
  step_agrees own' ps t.
Proof.
  intros H Ho Hp. exists t, []. rewrite Hp. split_and!; [done | constructor |].
  by apply (own_inv_ext own).
Qed.

(** A subscription or unsubscription through a channel. *)
Lemma step_use own own' i lp fd (tk : fd_task (guarded F)) t :
  own_inv own t -> own i = Some (lp, fd) -> (forall j, own' j = own j) ->
  task_fd tk = fd -> (registered t fd = true -> task_ready t tk) ->
  (forall r, task_leaves (K := K) tk r -> r = true) ->
  step_agrees own' [PostFd lp tk] t.
Proof.
  intros H Hi Ho Hf Hready Hl. destruct (decide (lp = l)) as [->|Hne].
  - destruct (own_inv_use own i fd tk t) as (t' & log & H1 & H2 & H3); try done.
    { apply Hready, (own_registered _ _ H i _ Hi). }
    exists t', log. split_and!; [|done|by apply (own_inv_ext own)].
    simpl. rewrite decide_True by done. by apply run_one.
  - apply (step_nothing own); [done..|]. simpl. by rewrite decide_False.
Qed.

Lemma step_new s i lp fd t :
  own_inv (owned s) t -> s !! i = None ->
  ch_ok (L := L) (F := F) wake s (ChNew i lp fd) ->
  step_agrees (owned (<[i := (channel_ctor (F := F) lp fd).1]> s)) [PostFd lp (TRegister fd)] t.
Proof.
  intros H Hi [Hfd Hfresh].
  assert (Hown : owned s i = None) by (unfold owned; by rewrite Hi).
  assert (Hnone : forall j lp', owned s j <> Some (lp', fd)).
  { intros j lp' Hj. unfold owned in Hj. destruct (s !! j) as [c|] eqn:E; [|done].
    simpl in Hj. destruct (valid c) eqn:Ev; [|done]. simplify_eq/=.
    apply (Hfresh j c E); congruence. }
  assert (Hown' : forall j, owned (<[i := (channel_ctor (F := F) lp fd).1]> s) j =
    if decide (j = i) then Some (lp, fd) else owned s j).
  { intros j. unfold owned. case_decide; subst.
    - rewrite lookup_insert_eq. simpl. unfold valid. simpl.
      destruct Hfd. destruct (Z.eqb_spec fd (-1)); [lia | done].
    - by rewrite lookup_insert_ne. }
  destruct (decide (lp = l)) as [->|Hne].
  - destruct Hfd as [Hb Hw]. destruct (register_leaves fd t Hb) as (t' & Hr & Hreg).
    exists t', []. split_and!; [simpl; rewrite decide_True by done; by apply run_one | constructor |].
    apply (own_inv_add (owned s) _ i l fd t t'); try done.
    intros fd'. rewrite Hreg. by rewrite (decide_True (P := l = l)).
  - exists t, []. split_and!; [simpl; by rewrite decide_False | constructor |].
    apply (own_inv_add (owned s) _ i lp fd t t); try done.
    intros fd'. rewrite (decide_False (P := lp = l)) by done. case_decide; congruence.
Qed.

Lemma step_delete s i c t :
  own_inv (owned s) t -> s !! i = Some c ->
  step_agrees (owned (delete i s)) (channel_dtor c) t.
Proof.
  intros H Hi.
  assert (Hown' : forall j, owned (delete i s) j = if decide (j = i) then None else owned s j).
  { intros j. unfold owned. case_decide; subst; [by rewrite lookup_delete_eq|].
    by rewrite lookup_delete_ne. }
  assert (Hown : owned s i = lp ← valid c; Some (lp, fd_ c)) by (unfold owned; by rewrite Hi).
  unfold channel_dtor. destruct (valid c) as [lp|]; simpl in Hown; cycle 1.
  { apply (step_nothing (owned s)); [done| |done]. intros j. rewrite Hown'. case_decide; congruence. }
  destruct (decide (lp = l)) as [->|Hne].
  - destruct (own_range _ _ H _ _ _ Hown) as [Hb _].
    destruct (table_step (TUnregister (fd_ c)) t Hb) as (t' & log & H1 & H2 & H3 & H4);
      [by apply (own_registered _ _ H i)|].
    exists t', log. split_and!; [simpl; rewrite decide_True by done; by apply run_one | done |].
    apply (own_inv_remove (owned s) _ i l (fd_ c) t t'); try done. intros fd' [?|?]; auto; congruence.
  - exists t, []. split_and!; [simpl; by rewrite decide_False | constructor |].
    by apply (own_inv_remove (owned s) _ i lp (fd_ c) t t).
Qed.

Lemma owned_insert_same s i c c' j :
  s !! i = Some c -> valid c' = valid c -> fd_ c' = fd_ c ->
  owned (<[i := c']> s) j = owned s j.
Proof.
  intros Hi Hv Hf. unfold owned. destruct (decide (j = i)) as [->|].
  - rewrite lookup_insert_eq, Hi. simpl. by rewrite Hv, Hf.
  - by rewrite lookup_insert_ne.
Qed.

(** Two channels exchange what they own: both kinds of move. *)
Lemma step_exchange s s' i j t :
  i <> j -> own_inv (owned s) t -> (forall k, k <> i -> k <> j -> owned s' k = owned s k) ->
  owned s' i = owned s j -> owned s' j = owned s i ->
  step_agrees (owned s') [] t.
Proof.
  intros Hne H Ho Hi Hj. exists t, []. split_and!; [done | constructor |].
  apply (own_inv_perm (owned s) _
    (fun k => if decide (k = i) then j else if decide (k = j) then i else k)); [done| |];
    intros k; repeat case_decide; subst; try congruence; auto.
Qed.

Lemma ch_step_agrees o s s' ps t :
  own_inv (owned s) t -> ch_ok wake s o -> ch_step o s = Some (s', ps) ->
  step_agrees (owned s') ps t.
Proof.
  intros H Hok Hs.
  assert (Howned : forall i c, s !! i = Some c -> owned s i = lp ← valid c; Some (lp, fd_ c)).
  { intros i c Hc. unfold owned. by rewrite Hc. }
  destruct o; simpl in Hs.
  - destruct (s !! i) eqn:Hi; simplify_eq. by apply step_new.
  - destruct (s !! i) as [c|] eqn:Hi; simplify_eq/=. by apply step_delete.
  - destruct (s !! i) eqn:Hi; [done|]. destruct (s !! j) as [b|] eqn:Hj; simplify_eq.
    assert (i <> j) by congruence.
    apply (step_exchange s _ i j); [done..| | |]; unfold owned.
    + intros k Hki Hkj. by rewrite !lookup_insert_ne.
    + rewrite lookup_insert_eq, Hj. done.
    + rewrite lookup_insert_ne, lookup_insert_eq, Hi by done. done.
  - destruct (s !! i) as [a|] eqn:Hi; simplify_eq/=.
    destruct (s !! j) as [b|] eqn:Hj; simplify_eq/=.
    destruct (decide (i = j)); simplify_eq; [by apply (step_nothing (owned s'))|].
    apply (step_exchange s _ i j); [done..| | |]; unfold owned.
    + intros k Hki Hkj. by rewrite !lookup_insert_ne.
    + rewrite lookup_insert_eq, Hj. done.
    + rewrite lookup_insert_ne, lookup_insert_eq, Hi by done. done.
  - destruct (s !! i) as [c|] eqn:Hi; simplify_eq/=. specialize (Howned _ _ Hi).
    unfold update_event_cb in Hs. destruct (valid c) as [lp|] eqn:Hv; simplify_eq/=.
    + apply (step_use (owned s) _ i lp (fd_ c)); try done.
      intros j. by apply (owned_insert_same _ _ c).
    + apply (step_nothing (owned s)); [done| |done]. intros j. by apply (owned_insert_same _ _ c).
  - destruct (s !! i) as [c|] eqn:Hi; simplify_eq/=. specialize (Howned _ _ Hi).
    unfold update_event in Hs. destruct (valid c) as [lp|] eqn:Hv; simplify_eq/=.
    + apply (step_use (owned s) _ i lp (fd_ c)); try done.
      intros j. by apply (owned_insert_same _ _ c).
    + apply (step_nothing (owned s)); [done| |done]. intros j. by apply (owned_insert_same _ _ c).
  - destruct (s !! i) as [c|] eqn:Hi; simplify_eq/=. specialize (Howned _ _ Hi).
    unfold disable_event. destruct (valid c) as [lp|]; simpl in Howned;
      [by apply (step_use (owned s') _ i lp (fd_ c)) | by apply (step_nothing (owned s'))].
  - destruct (s !! i) as [c|] eqn:Hi; simplify_eq/=. apply (step_nothing (owned s')); [done..|].
    unfold post_io_task. by destruct (valid c).
  - destruct (s !! i) as [c|] eqn:Hi; simplify_eq/=. apply (step_nothing (owned s')); [done..|].
    unfold post_heavy_task. by destruct (valid c).
Qed.

Lemma table_tasks_app (ps qs : list (post L F)) :
  table_tasks l (ps ++ qs) = table_tasks l ps ++ table_tasks l qs.
Proof. apply omap_app. Qed.

Lemma ch_run_agrees s ps s' t :
  ch_run wake s ps s' -> own_inv (owned s) t -> step_agrees (owned s') ps t.
Proof.
  intros Hr H. induction Hr as [s|s ps s1 o ps1 s2 Hr IH Hok Hs].
  - by apply (step_nothing (owned s)).
  - destruct (IH H) as (t1 & log1 & H1 & Ht1 & Hi1).
    destruct (ch_step_agrees o s1 s2 ps1 t1 Hi1 Hok Hs) as (t2 & log2 & H2 & Ht2 & Hi2).
    exists t2, (log1 ++ log2). rewrite table_tasks_app.
    split_and!; [by eapply run_fd_tasks_app | by apply Forall_app | done].
Qed.

Lemma owned_empty_inv (k : K) : own_inv (owned (∅ : gmap nat (channel L))) (init_table k).
Proof.
  split; try done. intros fd _ H. exfalso. unfold registered, get_event, init_table in H.
  cbn [events_] in H. destruct (0 <=? fd); [|done].
  destruct (replicate _ blank !! Z.to_nat fd) as [ev|] eqn:E; [|done].
  apply lookup_replicate in E as [-> _]. done.
Qed.

(** C9: a descriptor is registered exactly as long as a channel owns it.
    Whatever a program does with its channels (moves included), as long as the
    descriptors it hands to new channels are fresh and its subscriptions name
    an event, the tasks a loop receives never leave defined behaviour and never
    report a repeated unregistration or an unregistered descriptor; afterwards
    each valid channel's descriptor is registered and is its own, and, when
    [close] succeeds, no descriptor is registered without an owner. *)
Theorem channels_own_registrations k epoll_ret err t0 ps s :
  loop_ctor k epoll_ret wake err = Ok t0 ->
  ch_run wake (∅ : gmap nat (channel L)) ps s ->
  exists t log, run_fd_tasks (table_tasks l ps) t0 = Ok (t, log) /\
    LogRepeatedUnregister ∉ log /\ LogNotRegistered ∉ log /\
    (forall i c, s !! i = Some c -> valid c = Some l -> registered t (fd_ c) = true) /\
    (closes (K := K) -> forall fd, registered t fd = true ->
       exists! i, exists c, s !! i = Some c /\ valid c = Some l /\ fd_ c = fd).
Proof.
  intros H0 Hr. unfold loop_ctor in H0.
  destruct (_ <? 0); [done|]. destruct (_ <? 0); [done|].
  destruct (epoll_ctl _ _ _ _) as [k' [e|]]; simplify_eq.
  destruct (ch_run_agrees _ _ _ (init_table k') Hr (owned_empty_inv k'))
    as (t & log & H1 & H2 & [Hrng Hu Hreg Hleak]).
  assert (Hown : forall i c, s !! i = Some c -> valid c = Some l -> owned s i = Some (l, fd_ c)).
  { intros i c Hc Hv. unfold owned. rewrite Hc. simpl. by rewrite Hv. }
  exists t, log. split_and!; [done| | | |].
  - intros Hin. by eapply Forall_forall in H2; [|exact Hin].
  - intros Hin. by eapply Forall_forall in H2; [|exact Hin].
  - eauto.
  - intros Hc fd Hfd. destruct (Hleak fd Hc Hfd) as [i Hi]. exists i. split.
    + unfold owned in Hi. destruct (s !! i) as [c|]; [|done]. simpl in Hi.
      destruct (valid c) eqn:Hv; simplify_eq/=. by exists c.
    + intros j (c & Hj & Hv & <-). eapply Hu; [exact Hi|]. by apply Hown.
Qed.
End ownership.

(** ** A program *)

Import MapKernel.

(** Channel 0 is moved to 1, 1 is assigned to 2 (which exchanges descriptors 7
    and 8), and 0 and 1 are destroyed: descriptor 8 only is released. *)
Definition demo_ops : list (ch_op nat nat) :=
  [ChNew 0 5%nat 7; ChNew 2 5%nat 8;
   ChUpdateCb 0 1%nat EventType.kRead EventMode.kDefault 9%nat;
   ChMoveNew 1 0; ChMoveAssign 2 1; ChUpdate 2 EventType.kWrite EventMode.kDefault;
   ChDelete 0; ChDelete 1].

Fixpoint run_ops (os : list (ch_op nat nat)) (s : gmap nat (channel nat))
    : option (gmap nat (channel nat) * list (post nat nat)) :=
  match os with
  | [] => Some (s, [])
  | o :: os' => r ← ch_step o s; r' ← run_ops os' r.1; Some (r'.1, r.2 ++ r'.2)
  end.

Definition demo_end : gmap nat (channel nat) * list (post nat nat) :=
  default (∅, []) (run_ops demo_ops ∅).

Example demo_end_tasks : table_tasks 5%nat demo_end.2 =
  [TRegister 7; TRegister 8;
   TEnableCb 7 EventType.kRead EventMode.kDefault (mk_guarded 1%nat 9%nat);
   TEnable 7 EventType.kWrite EventMode.kDefault; TUnregister 8].
Proof. reflexivity. Qed.

Lemma ch_run_cons wake (s : gmap nat (channel nat)) (o : ch_op nat nat) ps s1 qs s2 :
  ch_ok wake s o -> ch_step o s = Some (s1, ps) -> ch_run wake s1 qs s2 ->
  ch_run wake s (ps ++ qs) s2.
Proof.
  intros Hok Hs Hr. induction Hr as [s1|s1 qs s2 o' ps' s3 Hr IH Hok' Hs'].
  - rewrite app_nil_r. apply (ch_run_snoc wake s [] s o ps s1); [constructor | done | done].
  - rewrite app_assoc. by eapply ch_run_snoc; [apply IH | |].
Qed.

Fixpoint ops_ok (wake : Z) (os : list (ch_op nat nat)) (s : gmap nat (channel nat)) : bool :=
  match os with
  | [] => true
  | o :: os' => bool_decide (ch_ok wake s o) &&
      match ch_step o s with Some (s1, _) => ops_ok wake os' s1 | None => false end
  end.

Lemma run_ops_ch_run wake os s s' ps :
  ops_ok wake os s = true -> run_ops os s = Some (s', ps) -> ch_run wake s ps s'.
Proof.
  revert s ps. induction os as [|o os IH]; intros s ps Hok Hr; simpl in *.
  - simplify_eq. constructor.
  - apply andb_true_iff in Hok as [Hok%bool_decide_eq_true Hoks].
    destruct (ch_step o s) as [[s1 ps1]|] eqn:Hs; simplify_eq/=.
    destruct (run_ops os s1) as [[s2 ps2]|] eqn:Hr2; simplify_eq/=.
    eapply ch_run_cons; [done..|]. by apply IH.
Qed.

Lemma channels_own_registrations_witness :
  exists t log, run_fd_tasks (table_tasks 5%nat demo_end.2)
      (init_table (<[4 := Z.lor EPOLLIN EPOLLET]> (∅ : gmap Z Z))) = Ok (t, log) /\
    LogRepeatedUnregister ∉ log /\ LogNotRegistered ∉ log /\
    (forall i c, demo_end.1 !! i = Some c -> valid c = Some 5%nat ->
       registered t (fd_ c) = true) /\
    (closes (K := gmap Z Z) -> forall fd, registered t fd = true ->
       exists! i, exists c, demo_end.1 !! i = Some c /\ valid c = Some 5%nat /\ fd_ c = fd).
Proof.
  apply (channels_own_registrations 4 5%nat (∅ : gmap Z Z) 3 0); [reflexivity|].
  apply (run_ops_ch_run 4 demo_ops); [vm_compute; reflexivity|].
  vm_compute. reflexivity.
Defined.
