(* ===== verification/LoopSlots.v ===== *)
(** * LoopSlots: the descriptor table, slot by slot

    What each task of [LoopFd] leaves in the slot it names and in the others,
    with or without a callback, and what the destructor of the loop closes; the
    lemmas [Reactor] composes the table with the queue of tasks by. *)

From S2P Require Import Prelude Events Kernel LoopFd Channel.

(** ** The table tasks, slot by slot *)

Section slots.
Context {K : Type} `{EK : EpollKernel K, EL : !EpollLaws K} {CB : Type}.
Implicit Types (s : fd_state K CB) (t : fd_task CB).

(** The two results a task leaves in the table: a slot rewritten, or nothing
    but the kernel's interest list changed. *)
Lemma task_shape t s s' l :
  0 <= task_fd t < 2 ^ 31 - 1 -> run_fd_task t s = Ok (s', l) ->
  match t with
  | TRegister fd => exists ev,
      get_event fd (mk_fds (grow_events fd (events_ s)) (kernel s)) = Ok ev /\
      s' = with_event fd (mk_event true (in_epoll ev) (cb_ ev))
             (mk_fds (grow_events fd (events_ s)) (kernel s))
  | TUnregister fd => exists ev k, get_event fd s = Ok ev /\
      (s' = with_kernel k s \/ s' = with_event fd blank (with_kernel k s))
  | TEnableCb fd _ _ cb => exists ev k, get_event fd s = Ok ev /\
      (s' = with_kernel k s /\ l <> [] \/
       s' = with_event fd (mk_event (in_register ev) true (Some cb)) (with_kernel k s) /\ l = [])
  | TEnable fd _ _ => exists ev k, get_event fd s = Ok ev /\
      (s' = with_kernel k s \/
       s' = with_event fd (mk_event (in_register ev) true (cb_ ev)) (with_kernel k s))
  | TDisable fd => exists ev k, get_event fd s = Ok ev /\
      (s' = with_kernel k s \/
       s' = with_event fd (mk_event (in_register ev) false None) (with_kernel k s))
  end.
Proof.
  intros Hfd H. assert (Hs : s = with_kernel (kernel s) s) by (by destruct s).
  destruct t; simpl in *.
  - destruct (register_Ok fd s Hfd) as (s1 & ev & Hr & Hev & -> & _). rewrite Hr in H.
    exists ev. split; [done | congruence].
  - unfold unregister_task in H. inv_res. exists a.
    destruct (in_register a); simpl in H; [|simplify_eq; eauto].
    destruct (if in_epoll a then _ else _) as [k1 l1].
    destruct (sys_close k1 fd) as [k2 [e|]]; simplify_eq; exists k2; auto.
  - unfold enable_cb_task in H. inv_res. exists a.
    destruct (in_register a) eqn:Hr; simpl in H; inv_res; [|eauto 6].
    destruct (subscribe _ _ _ _) as [k [e|]]; simplify_eq; exists k; eauto.
  - unfold enable_task in H. inv_res. exists a.
    destruct (in_register a) eqn:Hr; simpl in H; inv_res; [|eauto].
    destruct (subscribe _ _ _ _) as [k [e|]]; simplify_eq; exists k; eauto.
  - unfold disable_task in H. inv_res. exists a.
    destruct (in_register a) eqn:Hr; simpl in H; [|simplify_eq; eauto].
    destruct (epoll_ctl _ _ _ _) as [k [e|]]; [destruct (e =? ENOENT)|];
      simplify_eq; exists k; auto.
Qed.

Lemma get_event_with_kernel fd k s : get_event fd (with_kernel k s) = get_event fd s.
Proof. done. Qed.

(** Other slots keep their contents; a grown table has blank ones. *)
Lemma task_frame t s s' l fd ev :
  0 <= task_fd t < 2 ^ 31 - 1 -> run_fd_task t s = Ok (s', l) -> fd <> task_fd t ->
  get_event fd s' = Ok ev -> get_event fd s = Ok ev \/ ev = blank.
Proof.
  intros Hfd H Hne Hev. pose proof (task_shape t s s' l Hfd H) as Hsh.
  assert (Hw : forall e0 e k, get_event (task_fd t) s = Ok e0 ->
    s' = with_event (task_fd t) e (with_kernel k s) -> get_event fd s = Ok ev).
  { intros e0 e k He0 ->. rewrite (get_event_with _ _ _ e0) in Hev by done.
    by rewrite decide_False in Hev by done. }
  destruct t; simpl in *; [|destruct Hsh as (e & k & He & Hd); intuition subst; eauto..].
  destruct Hsh as (e & He & ->). rewrite (get_event_with _ _ _ e) in Hev by done.
  rewrite decide_False in Hev by done.
  destruct (grow_events_ok fd0 (events_ s) Hfd) as (_ & _ & _ & Hold & Hnew).
  apply get_event_Ok in Hev as [Hp Hl]. simpl in Hl.
  destruct (Z.lt_ge_cases fd (zlen (events_ s))).
  - left. apply get_event_Ok. by rewrite <- Hold.
  - right. by apply (Hnew fd).
Qed.

(** The slot of the task itself: its callback is gone, kept, or the task's. *)
Lemma task_own_slot t s s' l ev :
  0 <= task_fd t < 2 ^ 31 - 1 -> run_fd_task t s = Ok (s', l) ->
  get_event (task_fd t) s' = Ok ev ->
  cb_ ev = None \/
  (exists ev0, get_event (task_fd t) s = Ok ev0 /\ cb_ ev = cb_ ev0 /\
     (forall fd types modes cb, t = TEnableCb fd types modes cb -> l <> [])) \/
  (exists fd types modes cb, t = TEnableCb fd types modes cb /\ l = []).
Proof.
  intros Hfd H Hev. pose proof (task_shape t s s' l Hfd H) as Hsh.
  destruct t; simpl in *.
  - destruct Hsh as (e & He & ->). rewrite (get_event_with _ _ _ e), decide_True in Hev by done.
    simplify_eq/=. destruct (grow_events_ok fd (events_ s) Hfd) as (_ & _ & _ & Hold & Hnew).
    apply get_event_Ok in He as [Hp Hl]. simpl in Hl.
    destruct (Z.lt_ge_cases fd (zlen (events_ s))).
    + right. left. exists e. split; [|done]. apply get_event_Ok. by rewrite <- Hold.
    + left. by rewrite (Hnew fd e).
  - destruct Hsh as (e & k & He & [->| ->]); [right; left; by exists ev|].
    rewrite (get_event_with _ _ _ e), decide_True in Hev by done. simplify_eq/=. by left.
  - destruct Hsh as (e & k & He & [[-> ?]|[-> ->]]); [|right; right; by eauto 10].
    right. left. exists ev. split_and!; [done..|]. intros. done.
  - right. left. destruct Hsh as (e & k & He & [->| ->]); [by exists ev|].
    rewrite (get_event_with _ _ _ e), decide_True in Hev by done. simplify_eq/=. eauto.
  - destruct Hsh as (e & k & He & [->| ->]); [right; left; by exists ev|].
    rewrite (get_event_with _ _ _ e), decide_True in Hev by done. simplify_eq/=. by left.
Qed.

(** A slot in range stays in range. *)
Lemma task_keeps_range t s s' l fd ev :
  0 <= task_fd t < 2 ^ 31 - 1 -> run_fd_task t s = Ok (s', l) ->
  get_event fd s = Ok ev -> exists ev', get_event fd s' = Ok ev'.
Proof.
  intros Hfd H [Hp Hl%lookup_lt_Some]%get_event_Ok.
  pose proof (task_shape t s s' l Hfd H) as Hsh.
  assert (zlen (events_ s) <= zlen (events_ s')).
  { destruct t; simpl in *;
      [|destruct Hsh as (e & k & He & Hd); intuition subst; rewrite ?zlen_with_event; simpl; lia..].
    destruct Hsh as (e & He & ->). rewrite zlen_with_event. simpl.
    by destruct (grow_events_ok fd0 (events_ s) Hfd). }
  apply get_event_in_range. unfold zlen in *. lia.
Qed.

(** Where [close] succeeds, an unregistered slot is blank. *)
Lemma unregister_blanks wake fd s s' l ev :
  closes (K := K) -> fd_inv wake s -> unregister_task fd s = Ok (s', l) ->
  get_event fd s' = Ok ev -> ev = blank.
Proof.
  intros Hc [Hb _] H Hev. unfold unregister_task in H. inv_res.
  destruct (in_register a) eqn:Hr; simpl in H.
  - destruct (if in_epoll a then _ else _) as [k1 l1]. specialize (Hc k1 fd).
    destruct (sys_close k1 fd) as [k2 [e|]]; simplify_eq/=.
    rewrite (get_event_with _ _ _ a), decide_True in Hev by done.
    by injection Hev as <-.
  - simplify_eq. rewrite Hm in Hev. injection Hev as <-. apply get_event_Ok in Hm as [_ Hl]. eauto.
Qed.

Lemma tidy_silent l : tidy l -> LogRepeatedUnregister ∉ l /\ LogNotRegistered ∉ l.
Proof.
  intros Ht. unfold tidy in Ht. rewrite Forall_forall in Ht.
  split; intros Hin; specialize (Ht _ Hin); discriminate.
Qed.

(** A run of table tasks splits anywhere. *)
Lemma run_fd_tasks_split ts1 ts2 s r :
  run_fd_tasks (ts1 ++ ts2) s = Ok r ->
  exists s1 l1 l2, run_fd_tasks ts1 s = Ok (s1, l1) /\ run_fd_tasks ts2 s1 = Ok (r.1, l2) /\
    r.2 = l1 ++ l2.
Proof.
  revert s r. induction ts1 as [|t ts1 IH]; intros s r H; simpl in *.
  - destruct r. by exists s, [], l.
  - inv_res. destruct (IH _ _ Hm0) as (s1 & l1 & l2 & H1 & H2 & H3).
    exists s1, (a.2 ++ l1), l2. rewrite Hm. simpl. rewrite H1. simpl.
    split_and!; [done | done |]. by rewrite H3, app_assoc.
Qed.
(** A registered descriptor stays registered until its unregistration. *)
Lemma task_keeps_registered t s s' l fd :
  0 <= task_fd t < 2 ^ 31 - 1 -> run_fd_task t s = Ok (s', l) -> t <> TUnregister fd ->
  registered s fd = true -> registered s' fd = true.
Proof.
  intros Hfd H Hne Hr. pose proof (task_shape t s s' l Hfd H) as Hsh.
  assert (Hw : forall ev ev' k, get_event (task_fd t) s = Ok ev ->
    (fd = task_fd t -> in_register ev' = in_register ev) ->
    registered (with_event (task_fd t) ev' (with_kernel k s)) fd = true).
  { intros ev ev' k He Hi. rewrite (registered_with _ _ _ ev) by done.
    case_decide as Hd; [|done]. rewrite Hi by done. unfold registered in Hr.
    by rewrite Hd, He in Hr. }
  destruct t as [fd0|fd0|fd0 types modes cb|fd0 types modes|fd0]; simpl in *.
  - destruct (register_leaves fd0 s Hfd) as (s1 & H1 & H2). rewrite H1 in H. simplify_eq.
    rewrite H2. by case_decide.
  - destruct Hsh as (ev & k & He & [->| ->]); [done|]. apply (Hw ev); [done|]. congruence.
  - destruct Hsh as (ev & k & He & [[-> _]|[-> _]]); [done|]. by apply (Hw ev).
  - destruct Hsh as (ev & k & He & [->| ->]); [done|]. by apply (Hw ev).
  - destruct Hsh as (ev & k & He & [->| ->]); [done|]. by apply (Hw ev).
Qed.

(** *** The destructor's calls of [close], on a kernel that records them *)

#[export] Instance recorded_kernel : EpollKernel (K * list Z) := {
  epoll_ctl k op fd m := let '(k', r) := epoll_ctl k.1 op fd m in ((k', k.2), r);
  sys_close k fd := let '(k', r) := sys_close k.1 fd in ((k', k.2 ++ [fd]), r);
  interest k fd := interest k.1 fd
}.

Fixpoint registered_from (fd : Z) (evs : list (event CB)) : list Z :=
  match evs with
  | [] => []
  | ev :: evs' =>
      if in_register ev then fd :: registered_from (fd + 1) evs' else registered_from (fd + 1) evs'
  end.

Lemma close_registered_calls fd (evs : list (event CB)) (k : K) l :
  (close_registered fd evs (k, l)).1.2 = l ++ registered_from fd evs.
Proof.
  revert fd k l. induction evs as [|ev evs IH]; intros fd k l; simpl; [by rewrite app_nil_r|].
  destruct (in_register ev); [|apply IH]. destruct (sys_close k fd) as [k' r].
  specialize (IH (fd + 1) k' (l ++ [fd])).
  destruct (close_registered (fd + 1) evs (k', l ++ [fd])) as [k2 l2]. simpl in *.
  by rewrite IH, <- app_assoc.
Qed.

Lemma loop_dtor_calls epoll_fd wake_fd (evs : list (event CB)) (k : K) :
  (loop_dtor epoll_fd wake_fd (mk_fds evs (k, []))).1.2 = epoll_fd :: wake_fd :: registered_from 0 evs.
Proof.
  unfold loop_dtor. simpl. destruct (sys_close k epoll_fd) as [k1 r1]. simpl.
  destruct (sys_close k1 wake_fd) as [k2 r2].
  pose proof (close_registered_calls 0 evs k2 [epoll_fd; wake_fd]) as H. simpl in H.
  destruct (close_registered 0 evs (k2, [epoll_fd; wake_fd])). exact H.
Qed.

Lemma registered_from_spec fd (evs : list (event CB)) x :
  x ∈ registered_from fd evs <->
    fd <= x /\ exists ev, evs !! Z.to_nat (x - fd) = Some ev /\ in_register ev = true.
Proof.
  revert fd. induction evs as [|ev evs IH]; intros fd; simpl.
  { split; [by intros ?%elem_of_nil|]. by intros (_ & ev & Hl & _). }
  assert (Hs : fd < x -> (ev :: evs) !! Z.to_nat (x - fd) = evs !! Z.to_nat (x - (fd + 1))).
  { intros. by replace (Z.to_nat (x - fd)) with (S (Z.to_nat (x - (fd + 1)))) by lia. }
  destruct (decide (x = fd)) as [->|Hne].
  - rewrite Z.sub_diag. simpl. destruct (in_register ev) eqn:Hr.
    + split; [intros _; split; [lia|by exists ev]|intros _; by left].
    + rewrite IH. split; [intros [? _]; lia|]. intros (_ & ev' & [= <-] & ?). congruence.
  - assert (x ∈ registered_from (fd + 1) evs <->
      fd <= x /\ exists ev', (ev :: evs) !! Z.to_nat (x - fd) = Some ev' /\ in_register ev' = true) as <-.
    { rewrite IH. split; intros [? (e & ? & ?)]; (split; [lia|]); exists e; split; try done.
      - by rewrite Hs by lia. - by rewrite <- Hs by lia. }
    destruct (in_register ev); [|done]. rewrite elem_of_cons. naive_solver.
Qed.

Lemma registered_from_NoDup fd (evs : list (event CB)) : NoDup (registered_from fd evs).
Proof.
  revert fd. induction evs as [|ev evs IH]; intros fd; simpl; [constructor|].
  destruct (in_register ev); [|apply IH]. constructor; [|apply IH].
  rewrite registered_from_spec. lia.
Qed.
End slots.
