(* ===== verification/Reactor.v ===== *)
(** * Reactor: channels, io queue and descriptor table put together

    [Channel] says what the methods of [LoopChannel] post, [LoopIo] how posted
    tasks reach the io thread, [LoopFd] what they do to the table.  Here the
    three run together, as [Loop::io_executor] of [src/core.cpp] composes them:
    any thread uses channels at any time, the io thread runs the queued tasks on
    the table and dispatches the events of a batch through it.

    Descriptor numbers are reused by the kernel, so the state also remembers
    which file a number stands for: [opened] gives the generation of the file
    behind each open number, [seen] the generations when the current batch was
    reported, [cb_gen] the generation whose subscription installed the callback
    of a slot, and a queued table task carries the generation of its
    descriptor.  These are ghosts: no step of the program reads them. *)

From S2P Require Import Prelude Events Kernel LoopFd LoopIo Channel LoopSlots.

(** ** The composition *)

Section reactor.
Context {K : Type} `{EK : EpollKernel K, EL : !EpollLaws K} {F : Type}.
Variable wake : Z.

(** A task of the io queue: a table task, or a task posted by the user. *)
Inductive ltask :=
| LTable (t : fd_task (guarded F)) (gen : nat)
| LUser (task : guarded F).

Record reactor := mk_reactor {
  chans : gmap nat (channel unit);
  io : io_side ltask;
  table : fd_state K (guarded F);
  (** the calls made: a body, and the events a callback got *)
  ran : list (F * option Z);
  opened : gmap Z nat;
  generation : nat;
  seen : gmap Z nat;
  cb_gen : gmap Z nat
}.

Definition with_io (s : io_side ltask) (r : reactor) : reactor :=
  mk_reactor (chans r) s (table r) (ran r) (opened r) (generation r) (seen r) (cb_gen r).

(** The io task a post makes; a heavy task goes to the other queue. *)
Definition queued (op : gmap Z nat) (p : post unit F) : option ltask :=
  match p with
  | PostFd _ t => Some (LTable t (default 0%nat (op !! task_fd t)))
  | PostIo _ g => Some (LUser g)
  | PostHeavy _ _ => None
  end.

(** A new channel gets a descriptor the kernel has just opened. *)
Definition open_file (o : ch_op unit F) (gen : nat) (op : gmap Z nat) : gmap Z nat :=
  match o with ChNew _ _ fd => <[fd := gen]> op | _ => op end.

Definition op_ok (o : ch_op unit F) (op : gmap Z nat) : Prop :=
  match o with
  | ChNew _ _ fd => fd_ok wake fd /\ op !! fd = None
  | ChUpdateCb _ _ types _ _ | ChUpdate _ types _ => Z.land types all_types <> 0
  | _ => True
  end.

Definition do_op (o : ch_op unit F) (cs : gmap nat (channel unit)) (ps : list (post unit F))
    (r : reactor) : reactor :=
  let op := open_file o (generation r) (opened r) in
  mk_reactor cs (foldl (fun s t => io_push t s) (io r) (omap (queued op) ps)) (table r)
    (ran r) op (S (generation r)) (seen r) (cb_gen r).

(** [Loop::unregister_fd]'s task closes the descriptor when it gives up its
    slot; [Loop::enable_fd]'s installs a callback when it logs nothing. *)
Definition after_close (t : fd_task (guarded F)) (s : fd_state K (guarded F))
    (op : gmap Z nat) : gmap Z nat :=
  match t with TUnregister fd => if registered s fd then op else delete fd op | _ => op end.

Definition after_enable (t : fd_task (guarded F)) (gen : nat) (l : list fd_log)
    (cg : gmap Z nat) : gmap Z nat :=
  match t, l with TEnableCb fd _ _ _, [] => <[fd := gen]> cg | _, _ => cg end.

(** [task()] in [io_executor], for the task at index [n] of the queue. *)
Definition run_task (alive : nat -> bool) (x : ltask) (n : nat) (evs : list io_event)
    (r : reactor) : res reactor :=
  let s := io_call x n evs (io r) in
  match x with
  | LTable t g =>
      p ← run_fd_task t (table r);
      Ok (mk_reactor (chans r) s p.1 (ran r) (after_close t p.1 (opened r)) (generation r)
            (seen r) (after_enable t g p.2 (cb_gen r)))
  | LUser g =>
      Ok (mk_reactor (chans r) s (table r)
            (ran r ++ option_list ((fun f => (f, None)) <$> call_guarded alive g))
            (opened r) (generation r) (seen r) (cb_gen r))
  end.

(** The event of a descriptor in [io_executor]. *)
Definition run_event (alive : nat -> bool) (fd mask : Z) (evs : list io_event)
    (r : reactor) : res reactor :=
  d ← dispatch fd mask (table r);
  let called := '(g, m) ← d; f ← call_guarded alive g; Some (f, Some m) in
  Ok (mk_reactor (chans r) (io_goto (IO_batch evs) (io r)) (table r)
        (ran r ++ option_list called) (opened r) (generation r) (seen r) (cb_gen r)).

(** [epoll_wait]: only descriptors with a subscription are reported. *)
Definition run_report (evs : list io_event) (r : reactor) : reactor :=
  mk_reactor (chans r) (io_report evs (io r)) (table r) (ran r) (opened r) (generation r)
    (opened r) (cb_gen r).

Definition watched (evs : list io_event) (r : reactor) : Prop :=
  forall fd mask, EvFd fd mask ∈ evs -> fd <> wake /\ interest (kernel (table r)) fd <> None.

(** The steps of [LoopIo] that neither post, call, report nor dispatch. *)
Definition io_quiet (s s' : io_side ltask) : Prop :=
  io_posted s' = io_posted s /\ io_executed s' = io_executed s /\
  match io_at s with
  | IO_wait => io_events s' = []
  | IO_batch (EvFd _ _ :: _) => io_at s' = io_at s
  | _ => True
  end.

Inductive rx_step (r : reactor) : reactor -> Prop :=
| rx_op o cs ps :
    ch_step o (chans r) = Some (cs, ps) -> op_ok o (opened r) -> rx_step r (do_op o cs ps r)
| rx_io exe s :
    io_step exe (io r) s -> io_quiet (io r) s -> rx_step r (with_io s r)
| rx_start :
    io_at (io r) = IO_none \/ io_at (io r) = IO_done ->
    rx_step r (with_io (io_goto IO_check (io r)) r)
| rx_report evs :
    io_at (io r) = IO_wait -> reportable evs (io r) -> watched evs r ->
    rx_step r (run_report evs r)
| rx_task alive x n evs r' :
    io_at (io r) = IO_run n evs -> io_exe_queue_ (io r) !! n = Some x ->
    run_task alive x n evs r = Ok r' -> rx_step r r'
| rx_event alive fd mask evs r' :
    io_at (io r) = IO_batch (EvFd fd mask :: evs) ->
    run_event alive fd mask evs r = Ok r' -> rx_step r r'.

Definition rx_init (t : fd_state K (guarded F)) : reactor :=
  mk_reactor ∅ io_init t [] ∅ 0 ∅ ∅.

(** ** What one channel operation posts and owns *)

Implicit Types (cs : gmap nat (channel unit)) (q : list ltask) (r : reactor).

Definition unique_owners cs : Prop :=
  forall i j fd, owned cs i = Some ((), fd) -> owned cs j = Some ((), fd) -> i = j.

Lemma owned_lookup cs i c fd :
  cs !! i = Some c -> owned cs i = Some ((), fd) <-> valid c = Some () /\ fd_ c = fd.
Proof.
  intros Hc. unfold owned. rewrite Hc. simpl. destruct (valid c) as [[]|]; simpl; naive_solver.
Qed.

Lemma op_owned (o : ch_op unit F) cs cs' ps i fd :
  ch_step o cs = Some (cs', ps) -> owned cs' i = Some ((), fd) ->
  (exists j, owned cs j = Some ((), fd)) \/ (exists j, o = ChNew j () fd).
Proof.
  intros Hs Ho.
  assert (Hsame : forall k c c', cs !! k = Some c -> valid c' = valid c -> fd_ c' = fd_ c ->
    cs' = <[k := c']> cs -> exists j, owned cs j = Some ((), fd)).
  { intros k c c' Hk Hv Hf ->. exists i. by rewrite <- (owned_insert_same cs k c c'). }
  assert (Hmoved : forall i' j' a b, (forall k, k <> i' -> k <> j' -> owned cs' k = owned cs k) ->
    owned cs' i' = owned cs a -> owned cs' j' = owned cs b -> exists j, owned cs j = Some ((), fd)).
  { intros i' j' a b Hk Hi Hj. destruct (decide (i = i')) as [->|]; [exists a; congruence|].
    destruct (decide (i = j')) as [->|]; [exists b; congruence|]. exists i. by rewrite <- Hk. }
  destruct o as [i' [] fd'|i'|i' j'|i' j'|i' life types modes cb|i' types modes|i'|i' life task|i'
    life task];
    simpl in Hs.
  - destruct (cs !! i') eqn:Hi; simplify_eq. destruct (decide (i = i')) as [->|].
    + unfold owned in Ho. rewrite lookup_insert_eq in Ho. simpl in Ho.
      destruct (valid _); simplify_eq/=. eauto.
    + left. exists i. unfold owned in *. by rewrite lookup_insert_ne in Ho.
  - destruct (cs !! i') eqn:Hi; simplify_eq/=. left. exists i. unfold owned in *.
    destruct (decide (i = i')) as [->|]; [by rewrite lookup_delete_eq in Ho|].
    by rewrite lookup_delete_ne in Ho.
  - left. destruct (cs !! i') eqn:Hi; [done|]. destruct (cs !! j') as [b|] eqn:Hj; simplify_eq.
    assert (i' <> j') by congruence. apply (Hmoved i' j' j' i'); unfold owned; intros.
    + by rewrite !lookup_insert_ne.
    + by rewrite lookup_insert_eq, Hj.
    + by rewrite lookup_insert_ne, lookup_insert_eq, Hi.
  - left. destruct (cs !! i') as [a|] eqn:Hi; simplify_eq/=.
    destruct (cs !! j') as [b|] eqn:Hj; simplify_eq/=.
    destruct (decide (i' = j')); simplify_eq; [by exists i|].
    apply (Hmoved i' j' j' i'); unfold owned; intros.
    + by rewrite !lookup_insert_ne.
    + by rewrite lookup_insert_eq, Hj.
    + by rewrite lookup_insert_ne, lookup_insert_eq, Hi.
  - left. destruct (cs !! i') as [c|] eqn:Hi; simplify_eq/=. unfold update_event_cb in Hs.
    destruct (valid c) eqn:Hv; simplify_eq;
      (eapply (Hsame i' c _ Hi); cycle 2; [reflexivity | done..]).
  - left. destruct (cs !! i') as [c|] eqn:Hi; simplify_eq/=. unfold update_event in Hs.
    destruct (valid c) eqn:Hv; simplify_eq;
      (eapply (Hsame i' c _ Hi); cycle 2; [reflexivity | done..]).
  - left. destruct (cs !! i') as [c|] eqn:Hi; simplify_eq/=. eauto.
  - left. destruct (cs !! i') as [c|] eqn:Hi; simplify_eq/=. eauto.
  - left. destruct (cs !! i') as [c|] eqn:Hi; simplify_eq/=. eauto.
Qed.

(** An operation posts at most one task; a table task is the registration of a
    new channel's descriptor or names the descriptor of a channel, the last one
    when it unregisters it. *)
Lemma op_posts (o : ch_op unit F) cs cs' ps :
  ch_step o cs = Some (cs', ps) -> unique_owners cs ->
  (forall t, ps <> [PostFd () t]) /\ table_tasks () ps = [] /\ (length ps <= 1)%nat \/
  (exists t, ps = [PostFd () t] /\
    ((exists i, o = ChNew i () (task_fd t) /\ t = TRegister (task_fd t)) \/
     (exists i, owned cs i = Some ((), task_fd t) /\ (forall j l fd, o <> ChNew j l fd) /\
       (forall fd j, t = TUnregister fd -> owned cs' j <> Some ((), fd))))).
Proof.
  intros Hs Hu.
  destruct o as [i [] fd|i|i j|i j|i life types modes cb|i types modes|i|i life task|i life task];
    simpl in Hs.
  - destruct (cs !! i); simplify_eq. right. exists (TRegister fd). split; [done|]. left. eauto.
  - destruct (cs !! i) as [c|] eqn:Hi; simplify_eq/=. unfold channel_dtor.
    destruct (valid c) as [[]|] eqn:Hv; [right|left; split_and!; naive_solver lia].
    assert (Ho : owned cs i = Some ((), fd_ c)) by (by apply (owned_lookup _ _ c)).
    exists (TUnregister (fd_ c)). split; [done|]. right. exists i. split_and!; [done..|].
    intros fd j [= <-] Hj. unfold owned in Hj.
    destruct (decide (j = i)) as [->|Hne]; [by rewrite lookup_delete_eq in Hj|].
    rewrite lookup_delete_ne in Hj by done. by apply Hne, (Hu _ _ (fd_ c)).
  - left. destruct (cs !! i), (cs !! j); simplify_eq; split_and!; naive_solver lia.
  - left. destruct (cs !! i); simplify_eq/=. destruct (cs !! j); simplify_eq/=.
    destruct (decide (i = j)); simplify_eq; split_and!; naive_solver lia.
  - destruct (cs !! i) as [c|] eqn:Hi; simplify_eq/=. unfold update_event_cb in Hs.
    destruct (valid c) as [[]|] eqn:Hv; simplify_eq; [right|left; split_and!; naive_solver lia].
    eexists. split; [done|]. right. exists i. split_and!; [by apply (owned_lookup _ _ c)|done..].
  - destruct (cs !! i) as [c|] eqn:Hi; simplify_eq/=. unfold update_event in Hs.
    destruct (valid c) as [[]|] eqn:Hv; simplify_eq; [right|left; split_and!; naive_solver lia].
    eexists. split; [done|]. right. exists i. split_and!; [by apply (owned_lookup _ _ c)|done..].
  - destruct (cs !! i) as [c|] eqn:Hi; simplify_eq/=. unfold disable_event.
    destruct (valid c) as [[]|] eqn:Hv; simplify_eq; [right|left; split_and!; naive_solver lia].
    eexists. split; [done|]. right. exists i. split_and!; [by apply (owned_lookup _ _ c)|done..].
  - left. destruct (cs !! i) as [c|] eqn:Hi; simplify_eq/=. unfold post_io_task.
    destruct (valid c); split_and!; naive_solver lia.
  - left. destruct (cs !! i) as [c|] eqn:Hi; simplify_eq/=. unfold post_heavy_task.
    destruct (valid c); split_and!; naive_solver lia.
Qed.

(** ** The queued tasks *)

(** The io tasks not called yet, in the order they will be. *)
Definition pending (s : io_side ltask) : list ltask := io_rest s ++ io_buffer_queue_ s.

Definition tasks_of q : list (fd_task (guarded F)) :=
  omap (fun x => match x with LTable t _ => Some t | LUser _ => None end) q.

(** A queued table task names an open descriptor, the one it was posted for:
    nothing is queued behind the task that closes it, and nobody owns it. *)
Record pend_inv q (op : gmap Z nat) cs : Prop := {
  pend_own i fd : owned cs i = Some ((), fd) -> fd_ok wake fd /\ is_Some (op !! fd);
  pend_tag n t g : q !! n = Some (LTable t g) ->
    fd_ok wake (task_fd t) /\ op !! task_fd t = Some g;
  pend_last n m fd g t g' : q !! n = Some (LTable (TUnregister fd) g) ->
    q !! m = Some (LTable t g') -> (n < m)%nat -> task_fd t <> fd;
  pend_gone n fd g i : q !! n = Some (LTable (TUnregister fd) g) ->
    owned cs i <> Some ((), fd)
}.

Lemma pend_tail x q op cs : pend_inv (x :: q) op cs -> pend_inv q op cs.
Proof.
  intros [H1 H2 H3 H4]. split; [done| | |].
  - intros n t g Hn. by apply (H2 (S n)).
  - intros n m fd g t g' Hn Hm Hlt. apply (H3 (S n) (S m) fd g t g'); [done..|lia].
  - intros n fd g i Hn. by apply (H4 (S n) fd g).
Qed.

(** Nothing else names the descriptor a task has just closed. *)
Lemma pend_close fd g q op cs :
  pend_inv (LTable (TUnregister fd) g :: q) op cs -> pend_inv q (delete fd op) cs.
Proof.
  intros Hp. pose proof Hp as [H1 H2 H3 H4]. destruct (pend_tail _ _ _ _ Hp) as [_ T2 T3 T4].
  split; [| |done|done].
  - intros i fd' Ho. rewrite lookup_delete_ne; [by apply (H1 i)|].
    intros <-. by apply (H4 0%nat fd g i).
  - intros n t g' Hn. rewrite lookup_delete_ne; [by apply (T2 n)|].
    intros Heq. symmetry in Heq. revert Heq. apply (H3 0%nat (S n) fd g t g'); [done..|lia].
Qed.

Lemma open_file_keeps o gen op fd g :
  op_ok o op -> op !! fd = Some g -> open_file o gen op !! fd = Some g.
Proof.
  destruct o; simpl; try done. intros [_ Hn] Hg. rewrite lookup_insert_ne; [done|]. congruence.
Qed.

Lemma op_owned_open o gen op cs cs' ps q i fd :
  ch_step o cs = Some (cs', ps) -> op_ok o op -> pend_inv q op cs ->
  owned cs' i = Some ((), fd) -> fd_ok wake fd /\ is_Some (open_file o gen op !! fd).
Proof.
  intros Hs Hok Hp Ho. destruct (op_owned _ _ _ _ _ _ Hs Ho) as [[j Hj]|[j ->]].
  - destruct (pend_own _ _ _ Hp _ _ Hj) as [? [g Hg]]. split; [done|].
    exists g. by apply open_file_keeps.
  - simpl in *. rewrite lookup_insert_eq. destruct Hok. eauto.
Qed.

(** An operation that queues no table task. *)
Lemma pend_op_other o gen op cs cs' ps q :
  ch_step o cs = Some (cs', ps) -> op_ok o op -> pend_inv q op cs ->
  pend_inv q (open_file o gen op) cs'.
Proof.
  intros Hs Hok Hp. split.
  - intros i fd. by eapply op_owned_open.
  - intros n t g Hn. destruct (pend_tag _ _ _ Hp n t g Hn). split; [done|].
    by apply open_file_keeps.
  - apply (pend_last _ _ _ Hp).
  - intros n fd g i Hn Ho. destruct (op_owned _ _ _ _ _ _ Hs Ho) as [[j Hj]|[j ->]].
    + by apply (pend_gone _ _ _ Hp n fd g j).
    + destruct (pend_tag _ _ _ Hp _ _ _ Hn) as [_ Hg]. simpl in *. destruct Hok. congruence.
Qed.

Lemma pend_snoc q op cs t :
  pend_inv q op cs -> fd_ok wake (task_fd t) -> is_Some (op !! task_fd t) ->
  (forall n g, q !! n <> Some (LTable (TUnregister (task_fd t)) g)) ->
  (forall fd i, t = TUnregister fd -> owned cs i <> Some ((), fd)) ->
  pend_inv (q ++ [LTable t (default 0%nat (op !! task_fd t))]) op cs.
Proof.
  intros [H1 H2 H3 H4] Hok [g0 Hg0] Hno Hgone. split; [done| | |].
  - intros n t' g [[_ Hn]|[_ [= <- <-]]]%lookup_snoc_Some; [by apply (H2 n)|].
    by rewrite Hg0.
  - intros n m fd g t' g' [[? Hn]|[-> [= Ht _]]]%lookup_snoc_Some
      [[? Hm]|[-> [= <- _]]]%lookup_snoc_Some Hlt; try lia.
    + by eapply H3.
    + intros <-. by eapply Hno.
  - intros n fd g i [[_ Hn]|[_ [= Ht _]]]%lookup_snoc_Some; [by eapply H4 | by apply Hgone].
Qed.

Lemma pend_op o gen op cs cs' ps q :
  unique_owners cs -> ch_step o cs = Some (cs', ps) -> op_ok o op -> pend_inv q op cs ->
  exists new, omap (queued (open_file o gen op)) ps = new /\ (length new <= 1)%nat /\
    tasks_of new = table_tasks () ps /\ pend_inv (q ++ new) (open_file o gen op) cs'.
Proof.
  intros Hu Hs Hok Hp. pose proof (pend_op_other _ gen _ _ _ _ _ Hs Hok Hp) as Hp'.
  destruct (op_posts _ _ _ _ Hs Hu) as [(Hno & Hts & Hlen)|(t & -> & Ht)].
  - eexists. split; [done|]. destruct ps as [|p [|? ?]]; [simpl; rewrite app_nil_r;
      auto with lia| |simpl in Hlen; lia].
    destruct p as [[] t|[] g|[] g]; [by destruct (Hno t)| |].
    2: { simpl. rewrite app_nil_r. auto with lia. }
    split_and!; [done..|]. destruct Hp' as [H1 H2 H3 H4]. split; [done| | |].
    + intros n t' g' [[_ Hn]|[_ ?]]%lookup_snoc_Some; [by apply (H2 n) | done].
    + intros n m fd g' t' g'' [[_ Hn]|[_ ?]]%lookup_snoc_Some [[_ Hm]|[_ ?]]%lookup_snoc_Some;
        [by eapply H3 | done..].
    + intros n fd g' i [[_ Hn]|[_ ?]]%lookup_snoc_Some; [by eapply H4 | done].
  - eexists. split; [done|]. split_and!; [done..|]. simpl.
    destruct Ht as [(i & -> & ->)|(i & Ho & Hnew & Hgone)]; simpl in *.
    + destruct Hok as [Hfd Hfresh]. apply (pend_snoc _ _ _ (TRegister (task_fd t)));
        [done|done|simpl; rewrite lookup_insert_eq; eauto| |done].
      intros n g Hn. destruct (pend_tag _ _ _ Hp _ _ _ Hn) as [_ ?]. simpl in *. congruence.
    + destruct (pend_own _ _ _ Hp _ _ Ho) as [Hfd [g Hg]]. apply pend_snoc; [done|done| | |].
      * exists g. by apply open_file_keeps.
      * intros n g' Hn. by apply (pend_gone _ _ _ Hp n (task_fd t) g' i).
      * intros fd j Ht. by apply Hgone.
Qed.

(** ** The slots *)

Implicit Types (tb : fd_state K (guarded F)) (op cg sn : gmap Z nat).

(** A callback sits in the slot of an open descriptor, put there by the file
    that is open under that number now. *)
Record slot_inv tb op cg : Prop := {
  slot_cb fd ev : get_event fd tb = Ok ev -> cb_ ev <> None ->
    cg !! fd = op !! fd /\ is_Some (op !! fd);
  slot_reg fd : registered tb fd = true -> is_Some (op !! fd)
}.

Lemma registered_Ok tb fd ev : get_event fd tb = Ok ev -> registered tb fd = in_register ev.
Proof. intros H. unfold registered. by rewrite H. Qed.

Lemma after_other t tb g l op cg fd :
  fd <> task_fd t ->
  after_close t tb op !! fd = op !! fd /\ after_enable t g l cg !! fd = cg !! fd.
Proof.
  intros Hne. destruct t; simpl in *; try done.
  - destruct (registered tb fd0); [done|]. by rewrite lookup_delete_ne.
  - destruct l; [|done]. by rewrite lookup_insert_ne.
Qed.

Lemma after_close_keeps t tb op :
  (forall fd, t <> TUnregister fd) -> after_close t tb op = op.
Proof. destruct t; naive_solver. Qed.

Lemma after_enable_keeps t g l cg :
  (forall fd types modes cb, t = TEnableCb fd types modes cb -> l <> []) ->
  after_enable t g l cg = cg.
Proof. destruct t; try done. destruct l; naive_solver. Qed.

Lemma slot_task t tb g tb' l op cg :
  closes (K := K) -> fd_inv wake tb -> slot_inv tb op cg ->
  fd_ok wake (task_fd t) -> op !! task_fd t = Some g -> run_fd_task t tb = Ok (tb', l) ->
  slot_inv tb' (after_close t tb' op) (after_enable t g l cg).
Proof.
  intros Hc Hinv [Hcb Hreg] [Hfd _] Hg H.
  assert (Hblank : forall fd ev, t = TUnregister fd -> get_event (task_fd t) tb' = Ok ev -> ev = blank).
  { intros fd ev -> Hev. by eapply unregister_blanks. }
  split.
  - intros fd ev Hev Hne. destruct (decide (fd = task_fd t)) as [->|Hd].
    + assert (Hnu : forall fd, t <> TUnregister fd).
      { intros fd Ht. apply Hne. by rewrite (Hblank fd ev Ht Hev). }
      rewrite (after_close_keeps t) by done.
      destruct (task_own_slot t tb tb' l ev Hfd H Hev) as
        [?|[(ev0 & He0 & Hk & Hl)|(fd1 & types & modes & cb & -> & ->)]]; [done| |].
      * rewrite (after_enable_keeps t) by done. apply (Hcb _ ev0); congruence.
      * simpl in *. rewrite lookup_insert_eq. eauto.
    + destruct (after_other t tb' g l op cg fd Hd) as [-> ->].
      destruct (task_frame t tb tb' l fd ev Hfd H Hd Hev) as [Hold| ->]; [by eapply Hcb | done].
  - intros fd (ev & Hev & Hi)%registered_event. destruct (decide (fd = task_fd t)) as [->|Hd].
    + rewrite after_close_keeps by (intros fd Ht; by rewrite (Hblank fd ev Ht Hev) in Hi). eauto.
    + destruct (after_other t tb' g l op cg fd Hd) as [-> _]. apply Hreg.
      destruct (task_frame t tb tb' l fd ev Hfd H Hd Hev) as [Hold| ->]; [|done].
      by rewrite (registered_Ok _ _ _ Hold).
Qed.

(** ** The batch *)

Definition once (evs : list io_event) : Prop :=
  forall e1 e2, evs = e1 ++ EvWake :: e2 -> EvWake ∉ e2.

(** An event left in the batch whose number stands for another file by now, or
    for none: its slot has no callback, and none can come before the next
    batch, because the queues were swapped already and hold no task for it. *)
Definition dead_event (s : io_side ltask) tb (fd : Z) : Prop :=
  EvWake ∉ io_events s /\ ~ at_swap s /\
  (forall t g, LTable t g ∈ io_rest s -> task_fd t <> fd) /\
  (forall ev, get_event fd tb = Ok ev -> cb_ ev = None).

Record batch_inv (s : io_side ltask) tb op sn : Prop := {
  batch_once : match io_at s with
               | IO_batch evs => once evs
               | IO_swap evs | IO_run _ evs => EvWake ∉ evs
               | _ => True
               end;
  batch_seen fd mask : EvFd fd mask ∈ io_events s ->
    is_Some (sn !! fd) /\ exists ev, get_event fd tb = Ok ev;
  batch_stale fd mask : EvFd fd mask ∈ io_events s -> sn !! fd <> op !! fd ->
    dead_event s tb fd
}.

Lemma once_tail e evs : once (e :: evs) -> once evs.
Proof. intros H e1 e2 ->. by apply (H (e :: e1)). Qed.

(** Outside a batch there is nothing to say. *)
Lemma batch_idle s tb op sn :
  match io_at s with IO_batch _ | IO_swap _ | IO_run _ _ => False | _ => True end ->
  batch_inv s tb op sn.
Proof.
  intros Hat. split.
  - by destruct (io_at s).
  - intros fd mask. unfold io_events. destruct (io_at s); set_solver.
  - intros fd mask. unfold io_events. destruct (io_at s); set_solver.
Qed.

(** Same point, same queue to run: pushes and wake-ups. *)
Lemma batch_ext s s' tb op sn :
  io_at s' = io_at s -> io_exe_queue_ s' = io_exe_queue_ s ->
  batch_inv s tb op sn -> batch_inv s' tb op sn.
Proof.
  intros Hat Hq [H1 H2 H3].
  split; unfold dead_event, io_events, io_rest, at_swap in *; rewrite ?Hat, ?Hq; auto.
Qed.

Lemma batch_open s tb o gen op sn :
  op_ok o op -> batch_inv s tb op sn -> batch_inv s tb (open_file o gen op) sn.
Proof.
  intros Hok [H1 H2 H3]. split; [done..|]. intros fd mask Hin Hne. apply (H3 fd mask Hin).
  intros Heq. destruct (H2 fd mask Hin) as [[g Hg] _]. apply Hne.
  rewrite Hg in *. symmetry. by apply open_file_keeps.
Qed.

Lemma batch_report s tb op cg evs :
  fd_inv wake tb -> slot_inv tb op cg -> reportable evs s ->
  (forall fd mask, EvFd fd mask ∈ evs -> fd <> wake /\ interest (kernel tb) fd <> None) ->
  batch_inv (io_report evs s) tb op op.
Proof.
  intros [Hb Hi] [_ Hreg] (_ & _ & _ & Honce) Hw. split; [done| |done].
  intros fd mask Hin. destruct (Hw fd mask Hin) as [Hne Hint].
  destruct (Hi fd Hint) as [?|(ev & Hev & He)]; [done|]. split; [|by exists ev].
  apply Hreg. rewrite (registered_Ok _ _ _ Hev). destruct (in_register ev) eqn:Hr; [done|].
  pose proof Hev as [_ Hl]%get_event_Ok. by rewrite (Hb _ _ Hl Hr) in He.
Qed.

Lemma batch_event s tb op sn fd mask evs :
  io_at s = IO_batch (EvFd fd mask :: evs) -> batch_inv s tb op sn ->
  batch_inv (io_goto (IO_batch evs) s) tb op sn.
Proof.
  intros Hat [H1 H2 H3]. unfold dead_event, io_events, io_rest, at_swap in *. rewrite Hat in *.
  split; unfold dead_event, io_events, io_rest, at_swap; simpl.
  - by eapply once_tail.
  - intros fd' m Hin. apply (H2 fd' m). by right.
  - intros fd' m Hin Hne. destruct (H3 fd' m) as (? & ? & ? & ?); [by right|done|].
    split_and!; [set_solver|done..].
Qed.

(** A task called from the execution queue. *)
Lemma batch_task s tb op sn cs t g n evs tb' l q :
  closes (K := K) -> fd_inv wake tb -> batch_inv s tb op sn ->
  io_at s = IO_run n evs -> io_exe_queue_ s !! n = Some (LTable t g) ->
  pend_inv (io_rest s ++ q) op cs -> run_fd_task t tb = Ok (tb', l) ->
  batch_inv (io_call (LTable t g) n evs s) tb' (after_close t tb' op) sn.
Proof.
  intros Hc Hinv [H1 H2 H3] Hat Hx Hp H.
  unfold dead_event, io_events, io_rest, at_swap in *. rewrite Hat in *.
  rewrite (drop_S _ _ _ Hx) in *. simpl in Hp.
  destruct (pend_tag _ _ _ Hp 0%nat t g eq_refl) as [[Hfd Hw] Hg].
  split; unfold dead_event, io_events, io_rest, at_swap; simpl; [done| |].
  - intros fd m Hin. destruct (H2 fd m Hin) as [? [ev Hev]]. split; [done|].
    by eapply task_keeps_range.
  - intros fd m Hin Hne. destruct (decide (sn !! fd = op !! fd)) as [Heq|Hst].
    + assert (Ht : t = TUnregister fd).
      { destruct t; simpl in Hne; try done. destruct (registered tb' fd0); [done|].
        destruct (decide (fd0 = fd)); [by subst|]. by rewrite lookup_delete_ne in Hne. }
      subst t. split_and!; [done|tauto| |].
      * intros t' g' Hin'. apply list_elem_of_lookup in Hin' as [m' Hm'].
        apply (pend_last _ _ _ Hp 0%nat (S m') fd g t' g'); [done| |lia].
        simpl. by apply lookup_app_l_Some.
      * intros ev Hev. by rewrite (unregister_blanks wake fd tb tb' l ev Hc Hinv H Hev).
    + destruct (H3 fd m Hin Hst) as (? & ? & Hr & Hs). split_and!; [done..| |].
      * intros t' g' Hin'. apply (Hr t' g'). by right.
      * intros ev Hev. assert (fd <> task_fd t) as Hd by (intros ->; by apply (Hr t g); [left|]).
        destruct (task_frame t tb tb' l fd ev Hfd H Hd Hev) as [?| ->]; auto.
Qed.

Lemma batch_user s tb op sn x n evs :
  io_at s = IO_run n evs -> io_exe_queue_ s !! n = Some x -> batch_inv s tb op sn ->
  batch_inv (io_call x n evs s) tb op sn.
Proof.
  intros Hat Hx [H1 H2 H3]. unfold dead_event, io_events, io_rest, at_swap in *. rewrite Hat in *.
  rewrite (drop_S _ _ _ Hx) in *.
  split; unfold dead_event, io_events, io_rest, at_swap; simpl; [done..|].
  intros fd m Hin Hne. destruct (H3 fd m Hin Hne) as (? & ? & Hr & ?). split_and!; [done..| |done].
  intros t g Ht. apply (Hr t g). by right.
Qed.

Lemma batch_quiet exe s s' tb op sn :
  io_inv s -> io_step exe s s' -> io_quiet s s' -> batch_inv s tb op sn ->
  batch_inv s' tb op sn.
Proof.
  intros Hi Hs (Hpo & Hex & Hat') Hb. pose proof Hb as [H1 H2 H3].
  destruct Hs as [t s|s ?|s Hat ?|s Hat ?|evs s Hat [Hne _]|s Hat Hz|s Hat|e s Hat ?|evs s Hat
    |evs s Hat|t n evs s Hat Ht|n evs s Hat Hn|fd mask evs s Hat|s Hat];
    try rewrite Hat in Hat'; simpl in *.
  - apply (f_equal length) in Hpo. rewrite length_app in Hpo. simpl in Hpo. lia.
  - apply (batch_ext s); [| |done]; unfold wake_io_up; by destruct (_ <? _).
  - by apply batch_idle.
  - by apply batch_idle.
  - by unfold io_events in Hat'; simpl in Hat'.
  - by apply (batch_ext s).
  - by apply batch_idle.
  - by apply batch_idle.
  - unfold dead_event, io_events, io_rest, at_swap in *. rewrite Hat in *.
    split; unfold dead_event, io_events, io_rest, at_swap; simpl.
    + by apply (H1 []).
    + intros fd m Hin. apply (H2 fd m). by right.
    + intros fd m Hin Hne. destruct (H3 fd m) as (Hno & _); [by right|done|]. set_solver.
  - unfold dead_event, io_events, io_rest, at_swap in *. rewrite Hat in *.
    split; unfold dead_event, io_events, io_rest, at_swap; simpl; [done..|].
    intros fd m Hin Hne. destruct (H3 fd m) as (_ & Hno & _); [done..|]. by destruct Hno.
  - apply (f_equal length) in Hex. rewrite length_app in Hex. simpl in Hex. lia.
  - unfold dead_event, io_events, io_rest, at_swap in *. rewrite Hat in *.
    split; unfold dead_event, io_events, io_rest, at_swap; simpl; [|done|].
    + intros e1 e2 ->. set_solver.
    + intros fd m Hin Hne. destruct (H3 fd m Hin Hne) as (? & ? & _ & ?).
      split_and!; [done..|set_solver|done].
  - injection Hat' as Hat'. apply (f_equal length) in Hat'. simpl in Hat'. lia.
  - by apply batch_idle.
Qed.

(** ** The invariant of the composition *)

Record rx_inv (t0 : fd_state K (guarded F)) r : Prop := {
  rx_queue : io_inv (io r);
  rx_program : exists ps, ch_run wake ∅ ps (chans r) /\
    tasks_of (io_posted (io r)) = table_tasks () ps;
  rx_ran : exists log, run_fd_tasks (tasks_of (io_executed (io r))) t0 = Ok (table r, log);
  rx_table : fd_inv wake (table r);
  rx_pend : pend_inv (pending (io r)) (opened r) (chans r);
  rx_slot : slot_inv (table r) (opened r) (cb_gen r);
  rx_batch : batch_inv (io r) (table r) (opened r) (seen r)
}.

Lemma tasks_of_app q1 q2 : tasks_of (q1 ++ q2) = tasks_of q1 ++ tasks_of q2.
Proof. apply omap_app. Qed.

Lemma pending_same s s' :
  io_inv s -> io_inv s' -> io_posted s' = io_posted s -> io_executed s' = io_executed s ->
  pending s' = pending s.
Proof.
  intros [H _ _ _ _] [H' _ _ _ _] Hp He. rewrite Hp, He, H in H'.
  by apply app_inv_head in H'.
Qed.

(** Whatever the table tasks posted so far, they run on the fresh table. *)
Lemma program_runs k epoll_ret err (t0 : fd_state K (guarded F)) cs (ps : list (post unit F)) :
  loop_ctor k epoll_ret wake err = Ok t0 -> ch_run wake ∅ ps cs ->
  exists t log, run_fd_tasks (table_tasks () ps) t0 = Ok (t, log) /\ tidy log /\
    own_inv wake () (owned cs) t.
Proof.
  intros H0 Hr. unfold loop_ctor in H0.
  destruct (_ <? 0); [done|]. destruct (_ <? 0); [done|].
  destruct (epoll_ctl _ _ _ _) as [k' [e|]]; simplify_eq.
  apply (ch_run_agrees wake () ∅ ps cs (init_table k') Hr). apply owned_empty_inv.
Qed.

Lemma own_inv_unique cs tb : own_inv wake () (owned cs) tb -> unique_owners cs.
Proof. intros [_ Hu _ _] i j fd Hi Hj. by eapply Hu. Qed.

Lemma op_ok_ch_ok o cs op q : pend_inv q op cs -> op_ok o op -> ch_ok wake cs o.
Proof.
  intros Hp. destruct o; simpl; try done. intros [Hfd Hn]. split; [done|].
  intros i' c Hc Hv <-. destruct (pend_own _ _ _ Hp i' (fd_ c)) as [_ [g ?]]; [|congruence].
  apply (owned_lookup _ _ c); [done|]. by destruct (valid c) as [[]|].
Qed.

Lemma push_one s new :
  (length new <= 1)%nat -> io_inv s ->
  let s' := foldl (fun s t => io_push t s) s new in
  io_inv s' /\ io_posted s' = io_posted s ++ new /\ io_executed s' = io_executed s /\
  io_at s' = io_at s /\ io_exe_queue_ s' = io_exe_queue_ s /\ pending s' = pending s ++ new.
Proof.
  intros Hlen Hi. destruct new as [|t [|? ?]]; simpl in *; [| |lia].
  - by rewrite !app_nil_r.
  - split_and!; [by apply io_push_inv|done..|]. unfold pending, io_rest. simpl.
    by rewrite app_assoc.
Qed.

Section runs.
Context (k : K) (epoll_ret err : Z) (t0 : fd_state K (guarded F)).
Context (Hclose : closes (K := K)) (Hk : forall fd, interest k fd = None).
Context (H0 : loop_ctor k epoll_ret wake err = Ok t0).

Lemma rx_init_inv : rx_inv t0 (rx_init t0).
Proof.
  destruct (loop_ctor_inv _ _ _ _ _ Hk H0) as [Hinv _].
  destruct (program_runs k epoll_ret err t0 ∅ [] H0 (ch_run_nil _ _)) as (t & log & Hr & _ & _).
  assert (Hblank : forall fd ev, get_event fd t0 = Ok ev -> ev = blank).
  { intros fd ev [_ Hl]%get_event_Ok. unfold loop_ctor in H0. destruct (_ <? 0); [done|].
    destruct (_ <? 0); [done|]. destruct (epoll_ctl _ _ _ _) as [k' [e|]]; [done|].
    assert (t0 = init_table k') as -> by congruence. cbn [init_table events_] in Hl.
    by apply lookup_replicate in Hl as [-> _]. }
  split; [apply io_init_inv| | |done| | |by apply batch_idle].
  - exists []. split; [constructor | done].
  - by exists [].
  - by split.
  - split.
    + intros fd ev Hev Hne. by rewrite (Hblank fd ev Hev) in Hne.
    + intros fd (ev & Hev & Hi)%registered_event. by rewrite (Hblank fd ev Hev) in Hi.
Qed.

Lemma rx_owners r : rx_inv t0 r -> unique_owners (chans r).
Proof.
  intros [_ (ps & Hps & _) _ _ _ _ _].
  destruct (program_runs _ _ _ _ _ _ H0 Hps) as (t & log & _ & _ & Ho).
  by eapply own_inv_unique.
Qed.

Lemma rx_op_inv r o cs ps :
  rx_inv t0 r -> ch_step o (chans r) = Some (cs, ps) -> op_ok o (opened r) ->
  rx_inv t0 (do_op o cs ps r).
Proof.
  intros Hr Hs Hok. pose proof (rx_owners r Hr) as Hu.
  destruct Hr as [Hq (ps0 & Hps & Hts) Hran Htab Hp [Hcb Hreg] Hb].
  destruct (pend_op o (generation r) _ _ _ _ _ Hu Hs Hok Hp) as (new & Hnew & Hlen & Htn & Hp').
  pose proof (push_one (io r) new Hlen Hq) as (Hq' & Hpo & Hex & Hat & Hxq & Hpe).
  assert (Hopen : forall fd, is_Some (opened r !! fd) ->
    open_file o (generation r) (opened r) !! fd = opened r !! fd).
  { intros fd [g Hg]. rewrite Hg. by apply open_file_keeps. }
  unfold do_op. rewrite Hnew. split; cbn [chans io table opened cb_gen seen]; [done| | |done| | |].
  - exists (ps0 ++ ps). split.
    + eapply ch_run_snoc; [done| |done]. by eapply op_ok_ch_ok.
    + rewrite Hpo, tasks_of_app, table_tasks_app. congruence.
  - by rewrite Hex.
  - by rewrite Hpe.
  - split; [|intros fd Hf; rewrite Hopen; eauto].
    intros fd ev Hev Hne. destruct (Hcb fd ev Hev Hne) as [-> ?]. by rewrite Hopen.
  - apply (batch_ext (io r)); [done..|]. by apply batch_open.
Qed.

Lemma rx_io_inv r exe s :
  rx_inv t0 r -> io_step exe (io r) s -> io_quiet (io r) s -> rx_inv t0 (with_io s r).
Proof.
  intros [Hq Hprog Hran Htab Hp Hsl Hb] Hs Hquiet. pose proof Hquiet as (Hpo & Hex & _).
  pose proof (io_step_inv _ _ _ Hq Hs) as Hq'.
  split; simpl; rewrite ?Hpo, ?Hex, ?(pending_same (io r) s) by done; [done..|].
  by eapply (batch_quiet exe (io r)).
Qed.

(** Steps that keep the queues: [start], a report, an event. *)
Lemma rx_move_inv r s sn rn :
  rx_inv t0 r -> io_inv s -> io_posted s = io_posted (io r) ->
  io_executed s = io_executed (io r) -> batch_inv s (table r) (opened r) sn ->
  rx_inv t0 (mk_reactor (chans r) s (table r) rn (opened r) (generation r) sn (cb_gen r)).
Proof.
  intros [Hq Hprog Hran Htab Hp Hsl _] Hs Hpo Hex Hb.
  split; simpl; rewrite ?Hpo, ?Hex, ?(pending_same (io r) s) by done; done.
Qed.

Lemma pending_call x n evs s :
  io_at s = IO_run n evs -> io_exe_queue_ s !! n = Some x ->
  pending s = x :: pending (io_call x n evs s).
Proof. intros Hat Hx. unfold pending, io_rest. rewrite Hat. simpl. by rewrite (drop_S _ _ _ Hx). Qed.

Lemma rx_task_inv r alive x n evs r' :
  rx_inv t0 r -> io_at (io r) = IO_run n evs -> io_exe_queue_ (io r) !! n = Some x ->
  run_task alive x n evs r = Ok r' -> rx_inv t0 r'.
Proof.
  intros [Hq Hprog (log & Hran) Htab Hp Hsl Hb] Hat Hx H.
  assert (Hq' : io_inv (io_call x n evs (io r))) by (by eapply io_step_inv, (io_step_call Running)).
  pose proof (pending_call x n evs (io r) Hat Hx) as Hpe. rewrite Hpe in Hp.
  destruct x as [t g|task]; simpl in H.
  - inv_res. destruct a as [tb l]. simpl in *.
    destruct (pend_tag _ _ _ Hp 0%nat t g eq_refl) as [Hfd Hg].
    split; simpl; [done|done| | | | |].
    + exists (log ++ l). rewrite tasks_of_app. eapply run_fd_tasks_app; [done|]. by apply run_one.
    + by eapply run_fd_task_inv.
    + destruct t; try by eapply pend_tail. simpl. destruct (registered _ _);
        [by eapply pend_tail | by eapply pend_close].
    + by eapply slot_task.
    + eapply batch_task; [done..| |done]. unfold pending in Hpe. rewrite Hpe. exact Hp.
  - simplify_eq. split; simpl; [done|done| |done| |done|].
    + exists log. by rewrite tasks_of_app, app_nil_r.
    + by eapply pend_tail.
    + by apply batch_user.
Qed.

Lemma rx_step_inv r r' : rx_inv t0 r -> rx_step r r' -> rx_inv t0 r'.
Proof.
  intros Hr Hs. pose proof Hr as [Hq _ _ Htab _ Hsl Hb]. destruct Hs.
  - by apply rx_op_inv.
  - by eapply rx_io_inv.
  - apply rx_move_inv; [done| |done|done|by apply batch_idle].
    apply (io_any_inv (io r)); [done|]. by right.
  - apply rx_move_inv; [done|by apply io_report_inv|done|done|]. by eapply batch_report.
  - by eapply rx_task_inv.
  - unfold run_event in *. inv_res. apply rx_move_inv; [done| |done|done|by eapply batch_event].
    by eapply (io_step_inv Running), io_step_fd.
Qed.

Lemma rx_reach_inv r : rtc rx_step (rx_init t0) r -> rx_inv t0 r.
Proof.
  intros Hr. pose proof rx_init_inv as Hi. induction Hr; eauto using rx_step_inv.
Qed.

(** The next table task runs, because the whole program does. *)
Lemma rx_next_task r t g q :
  rx_inv t0 r -> pending (io r) = LTable t g :: q ->
  exists p, run_fd_task t (table r) = Ok p /\ tidy p.2.
Proof.
  intros [[Hf _ _ _ _] (ps & Hps & Hts) (log & Hran) _ _ _ _] Hq.
  destruct (program_runs _ _ _ _ _ _ H0 Hps) as (tb & log' & Hall & Htidy & _).
  assert (Hf' : io_posted (io r) = io_executed (io r) ++ LTable t g :: q).
  { rewrite Hf. by f_equal. }
  rewrite <- Hts, Hf', tasks_of_app in Hall.
  destruct (run_fd_tasks_split _ _ _ _ Hall) as (s1 & l1 & l2 & H1 & H2 & H3).
  rewrite Hran in H1. simplify_eq. simpl in H2. inv_res. simpl in H3. subst.
  eexists. split; [done|]. apply Forall_app in Htidy as [_ Htidy].
  by apply Forall_app in Htidy as [? _].
Qed.

(** C3: the composition refines its parts, as long as [close] succeeds ([closes]:
    when it fails, [core.cpp] logs and leaves the slot registered).  Whatever the
    threads do with their channels and however the io thread is interleaved with
    them: the table is
    the one the called table tasks make from the constructor's, the next queued
    table task runs within defined behaviour and finds its descriptor
    registered, each event of the batch has a slot to look at, and when every
    posted task was called, the registered descriptors are exactly those of the
    valid channels, all of them open. *)
Theorem reactor_sound r :
  rtc rx_step (rx_init t0) r ->
  (exists log, run_fd_tasks (tasks_of (io_executed (io r))) t0 = Ok (table r, log)) /\
  (forall t g q, pending (io r) = LTable t g :: q ->
     exists tb log, run_fd_task t (table r) = Ok (tb, log) /\
       LogRepeatedUnregister ∉ log /\ LogNotRegistered ∉ log) /\
  (forall fd mask, EvFd fd mask ∈ io_events (io r) ->
     exists d, dispatch fd mask (table r) = Ok d) /\
  (io_executed (io r) = io_posted (io r) -> forall fd, registered (table r) fd = true <->
     exists i c, chans r !! i = Some c /\ valid c = Some () /\ fd_ c = fd) /\
  (forall fd, registered (table r) fd = true -> is_Some (opened r !! fd)).
Proof.
  intros Hr%rx_reach_inv. pose proof Hr as [_ (ps & Hps & Hts) (log & Hran) _ _ [_ Hreg] Hb].
  split_and!; [by exists log| | | |done].
  - intros t g q Hq. destruct (rx_next_task r t g q Hr Hq) as ([tb l] & Ht & Htidy).
    exists tb, l. split; [done|].
    by apply tidy_silent.
  - intros fd mask Hin. destruct (batch_seen _ _ _ _ Hb _ _ Hin) as [_ [ev Hev]].
    unfold dispatch. rewrite Hev. simpl. eauto.
  - intros Hidle fd. destruct (program_runs _ _ _ _ _ _ H0 Hps) as (tb & l & Hall & _ & Ho).
    rewrite <- Hts, <- Hidle, Hran in Hall. simplify_eq. split.
    + intros Hf. destruct (own_no_leak _ _ _ _ Ho fd Hclose Hf) as [i Hi]. exists i.
      destruct (chans r !! i) as [c|] eqn:Hc; [|unfold owned in Hi; by rewrite Hc in Hi].
      exists c. split; [done|]. by apply (owned_lookup (chans r) i).
    + intros (i & c & Hc & Hv). apply (own_registered _ _ _ _ Ho i). by apply (owned_lookup _ _ c).
Qed.

(** C4: as long as [close] succeeds ([closes]: when it fails, the slot keeps its
    registration and its callback), a descriptor number reused by the kernel never
    brings a callback to the wrong file: when the io thread takes an event of the batch to a
    callback, the file behind the number is the one the event was reported for,
    and it is the one whose subscription installed the callback; although other
    threads open, subscribe and destroy channels while the batch is handled,
    and tasks of the same batch close descriptors the batch still names. *)
Theorem no_stale_dispatch r fd mask evs g m :
  rtc rx_step (rx_init t0) r ->
  io_at (io r) = IO_batch (EvFd fd mask :: evs) ->
  dispatch fd mask (table r) = Ok (Some (g, m)) ->
  exists file, opened r !! fd = Some file /\ seen r !! fd = Some file /\
    cb_gen r !! fd = Some file.
Proof.
  intros Hr%rx_reach_inv Hat Hd. pose proof Hr as [_ _ _ _ _ [Hcb _] [_ _ Hstale]].
  unfold dispatch in Hd. inv_res. destruct (cb_ a) as [g'|] eqn:Hg; simplify_eq/=.
  destruct (Hcb fd a) as [Hgen [file Hf]]; [done|by rewrite Hg|].
  exists file. split; [done|]. rewrite Hgen. split; [|done].
  destruct (decide (seen r !! fd = opened r !! fd)) as [->|Hne]; [done|].
  destruct (Hstale fd mask) as (_ & _ & _ & Hno);
    [unfold io_events; rewrite Hat; by left|done|].
  by rewrite (Hno a) in Hg.
Qed.
(** *** Open descriptors *)

(** An open descriptor is registered, or its registration is queued. *)
Definition covered r : Prop :=
  forall fd, is_Some (opened r !! fd) ->
    registered (table r) fd = true \/ exists g, LTable (TRegister fd) g ∈ pending (io r).

Lemma covered_op r o cs ps :
  rx_inv t0 r -> covered r -> ch_step o (chans r) = Some (cs, ps) -> op_ok o (opened r) ->
  covered (do_op o cs ps r).
Proof.
  intros Hr Hc Hs Hok fd Hf. pose proof (rx_owners r Hr) as Hu. destruct Hr as [Hq _ _ _ Hp _ _].
  destruct (pend_op o (generation r) _ _ _ _ _ Hu Hs Hok Hp) as (new & Hnew & Hlen & _ & _).
  pose proof (push_one (io r) new Hlen Hq) as (_ & _ & _ & _ & _ & Hpe).
  unfold do_op in *. rewrite Hnew. cbn [io table opened] in *. rewrite Hpe.
  destruct (opened r !! fd) as [g|] eqn:Ho.
  - destruct (Hc fd) as [?|[g' Hg']]; [by exists g|by left|].
    right. exists g'. apply elem_of_app. by left.
  - right. destruct o as [i l fd'| | | | | | | |]; simpl in Hf; rewrite ?Ho in Hf; try (by destruct Hf).
    destruct (decide (fd' = fd)) as [->|]; [|rewrite lookup_insert_ne, Ho in Hf by done; by destruct Hf].
    simpl in Hs. destruct (chans r !! i); simplify_eq/=. eexists. apply elem_of_app. right.
    left.
Qed.

#[local] Instance is_register_dec (t : fd_task (guarded F)) fd : Decision (t = TRegister fd).
Proof.
  destruct t as [fd'| | | |]; try (by right).
  destruct (decide (fd' = fd)) as [->|]; [by left|right; congruence].
Defined.

#[local] Instance is_unregister_dec (t : fd_task (guarded F)) fd : Decision (t = TUnregister fd).
Proof.
  destruct t as [|fd'| | |]; try (by right).
  destruct (decide (fd' = fd)) as [->|]; [by left|right; congruence].
Defined.

Lemma covered_task r t g q tb l op :
  covered r -> pending (io r) = LTable t g :: q -> fd_ok wake (task_fd t) ->
  run_fd_task t (table r) = Ok (tb, l) -> op = after_close t tb (opened r) ->
  forall fd, is_Some (op !! fd) ->
    registered tb fd = true \/ exists g, LTable (TRegister fd) g ∈ q.
Proof.
  intros Hc Hq [Hfd _] H -> fd Hf.
  destruct (decide (t = TRegister fd)) as [->|Hnr].
  { left. simpl in *. destruct (register_leaves fd (table r) Hfd) as (s' & Hr & Hreg).
    rewrite Hr in H. simplify_eq. rewrite Hreg. by case_decide. }
  destruct (decide (t = TUnregister fd)) as [->|Hnu].
  { left. simpl in Hf. destruct (registered tb fd); [done|]. rewrite lookup_delete_eq in Hf.
    by destruct Hf. }
  assert (Hop : is_Some (opened r !! fd)).
  { destruct t; simpl in Hf; try done. destruct (registered tb fd0); [done|].
    by rewrite lookup_delete_ne in Hf by congruence. }
  destruct (Hc fd Hop) as [Hr|[g' Hg']].
  - left. by eapply task_keeps_registered.
  - right. exists g'. rewrite Hq in Hg'. apply elem_of_cons in Hg' as [Heq|?]; [|done].
    by injection Heq as <- _.
Qed.

Lemma covered_step r r' : rx_inv t0 r -> covered r -> rx_step r r' -> covered r'.
Proof.
  intros Hr Hc Hs. pose proof (rx_step_inv _ _ Hr Hs) as [Hq' _ _ _ _ _ _].
  pose proof Hr as [Hq _ _ _ Hp _ _].
  assert (Hmove : forall s, io_inv s -> io_posted s = io_posted (io r) ->
    io_executed s = io_executed (io r) -> pending s = pending (io r)) by eauto using pending_same.
  destruct Hs as [o cs ps H1 H2|exe s H1 H2|H1|evs H1 H2 H3|alive x n evs r' Hat Hx H|alive fd mask
    evs r' Hat H].
  - by apply covered_op.
  - intros fd Hf. simpl in *. destruct H2 as (Hpo & Hex & _). rewrite Hmove by done. by apply Hc.
  - intros fd Hf. simpl in *. rewrite Hmove by done. by apply Hc.
  - intros fd Hf. simpl in *. rewrite Hmove by done. by apply Hc.
  - pose proof (pending_call x n evs (io r) Hat Hx) as Hpe. unfold run_task in H.
    destruct x as [t g|task].
    + inv_res. destruct a as [tb l]. intros fd Hf. simpl in *. rewrite Hpe in Hp.
      destruct (pend_tag _ _ _ Hp 0%nat t g eq_refl) as [Hfd _]. by eapply covered_task.
    + simplify_eq. intros fd Hf. simpl in *. destruct (Hc fd Hf) as [?|[g Hg]]; [by left|].
      rewrite Hpe in Hg. apply elem_of_cons in Hg as [?|?]; [done|]. right. by exists g.
  - unfold run_event in H. inv_res. intros fd' Hf. simpl in *. rewrite Hmove by done. by apply Hc.
Qed.

Lemma covered_reach r : rtc rx_step (rx_init t0) r -> covered r.
Proof.
  intros Hr. assert (H : rx_inv t0 (rx_init t0) /\ covered (rx_init t0)).
  { split; [apply rx_init_inv|]. intros fd [g Hg]. simpl in Hg. by rewrite lookup_empty in Hg. }
  induction Hr as [|r1 r2 r3 Hs _ IH]; [by destruct H|]. apply IH. destruct H as [Hi Hc].
  split; [by eapply rx_step_inv | by eapply covered_step].
Qed.

(** Only the descriptors of channels are open. *)
Lemma open_reach r fd : rtc rx_step (rx_init t0) r -> is_Some (opened r !! fd) -> fd_ok wake fd.
Proof.
  intros Hr. assert (H : forall fd, is_Some (opened (rx_init t0) !! fd) -> fd_ok wake fd).
  { intros fd' [g Hg]. simpl in Hg. by rewrite lookup_empty in Hg. }
  revert H. generalize (rx_init t0) Hr. clear Hr. intros r0 Hr. revert fd.
  induction Hr as [r|r1 r2 r3 Hs _ IH]; intros fd H; [apply H|]. apply IH. clear IH fd.
  intros fd Hf. destruct Hs as [o cs ps _ Hok|exe s _ _|_|evs _ _ _|alive x n evs r' _ _ Hx|alive fd'
    mask evs r' _ Hx].
  - destruct o; simpl in *; auto. destruct (decide (fd0 = fd)) as [->|]; [by destruct Hok|].
    rewrite lookup_insert_ne in Hf by done. auto.
  - by apply H.
  - by apply H.
  - by apply H.
  - unfold run_task in Hx. destruct x as [t g|task]; [|simplify_eq; by apply H].
    inv_res. simpl in Hf. apply H. destruct t; simpl in Hf; try done.
    destruct (registered a.1 fd0); [done|]. apply lookup_delete_is_Some in Hf. tauto.
  - unfold run_event in Hx. inv_res. by apply H.
Qed.

(** C19: the destructor of a loop leaves no descriptor behind, as long as [close]
    succeeds ([closes]): whatever the threads and the io thread did before,
      it closes the epoll descriptor, the eventfd, and then each registered
    descriptor exactly once; the descriptors it misses are those whose channel
    was made but whose registration the io thread never ran. *)
Theorem loop_dtor_closes r epoll_fd :
  rtc rx_step (rx_init t0) r ->
  exists fds,
    (loop_dtor epoll_fd wake (mk_fds (events_ (table r)) (kernel (table r), []))).1.2 =
      epoll_fd :: wake :: fds /\
    NoDup fds /\ wake ∉ fds /\
    (forall fd, fd ∈ fds <-> registered (table r) fd = true) /\
    (forall fd, is_Some (opened r !! fd) ->
       fd ∈ fds \/ exists g, LTable (TRegister fd) g ∈ pending (io r)) /\
    (forall fd, fd ∈ fds -> is_Some (opened r !! fd)).
Proof.
  intros Hreach. pose proof (covered_reach r Hreach) as Hcov. pose proof (rx_reach_inv r Hreach) as Hr.
  pose proof Hr as [_ (ps & Hps & Hts) (log & Hran) _ Hp [_ Hreg] _].
  exists (registered_from 0 (events_ (table r))).
  assert (Hiff : forall fd, fd ∈ registered_from 0 (events_ (table r)) <-> registered (table r) fd = true).
  { intros fd. rewrite registered_from_spec. unfold registered, get_event. rewrite Z.sub_0_r.
    destruct (Z.leb_spec 0 fd); simpl; [|split; [lia|done]].
    destruct (events_ (table r) !! Z.to_nat fd) as [ev|] eqn:E; simpl; [|split; [naive_solver|done]].
    split; [intros (_ & ev' & ? & ?); congruence|]. intros Hi. split; [done|]. by exists ev. }
  split_and!.
  - by apply loop_dtor_calls.
  - apply registered_from_NoDup.
  - rewrite Hiff. intros Hw%Hreg. by destruct (open_reach r wake Hreach Hw).
  - exact Hiff.
  - intros fd Hf. rewrite Hiff. by apply Hcov.
  - intros fd Hf%Hiff. by apply Hreg.
Qed.
End runs.

(** ** Running it *)

Inductive move :=
| MOp (o : ch_op unit F)
| MWake
| MStart
| MEnter
| MReport (evs : list io_event)
| MDrain
| MSwap
| MTask
| MClear
| MEvent
| MEnd.

Definition wakes (evs : list io_event) : nat := length (filter (fun e => e = EvWake) evs).

Definition do_report (evs : list io_event) r : option reactor :=
  let s := io r in
  if bool_decide (evs <> []) && (zlen evs <=? kEpollMaxWaitLen) && (wakes evs <=? 1)%nat &&
     (bool_decide (EvWake ∉ evs) || wake_ready s && (0 <? wake_count s)) &&
     forallb (fun e => match e with
       | EvWake => true
       | EvFd fd _ => bool_decide (fd <> wake) &&
           match interest (kernel (table r)) fd with Some _ => true | None => false end
       end) evs
  then Some (run_report evs r) else None.

#[export] Instance op_ok_dec o op : Decision (op_ok o op).
Proof. unfold op_ok, fd_ok. destruct o; apply _. Defined.

Definition of_res {A} (x : res A) : option A := match x with Ok a => Some a | _ => None end.

(** One move of a scenario, [None] when it is not enabled. *)
Definition do_move (alive : nat -> bool) (m : move) r : option reactor :=
  let s := io r in
  match m, io_at s with
  | MOp o, _ =>
      p ← ch_step o (chans r);
      if decide (op_ok o (opened r)) then Some (do_op o p.1 p.2 r) else None
  | MWake, _ =>
      if (0 <? io_pending_wakes s)%nat then Some (with_io (io_woke (wake_io_up s)) r) else None
  | MStart, (IO_none | IO_done) => Some (with_io (io_goto IO_check s) r)
  | MEnter, IO_check => Some (with_io (io_goto IO_wait s) r)
  | MReport evs, IO_wait => do_report evs r
  | MDrain, IO_batch (EvWake :: evs) => Some (with_io (io_drain evs s) r)
  | MSwap, IO_swap evs => Some (with_io (io_swap evs s) r)
  | MTask, IO_run n evs => x ← io_exe_queue_ s !! n; of_res (run_task alive x n evs r)
  | MClear, IO_run n evs =>
      if decide (n = length (io_exe_queue_ s)) then Some (with_io (io_clear evs s) r) else None
  | MEvent, IO_batch (EvFd fd mask :: evs) => of_res (run_event alive fd mask evs r)
  | MEnd, IO_batch [] => Some (with_io (io_goto IO_check s) r)
  | _, _ => None
  end.

Fixpoint do_moves alive (ms : list move) r : option reactor :=
  match ms with
  | [] => Some r
  | m :: ms' => r1 ← do_move alive m r; do_moves alive ms' r1
  end.

Lemma wakes_once evs : (wakes evs <= 1)%nat -> once evs.
Proof.
  intros Hw e1 e2 ->. unfold wakes in Hw. rewrite filter_app, length_app in Hw.
  rewrite filter_cons_True in Hw by done. simpl in Hw.
  destruct (decide (EvWake ∈ e2)) as [Hin|]; [|done].
  assert (EvWake ∈ filter (fun e => e = EvWake) e2) as Hf by (by apply list_elem_of_filter).
  destruct (filter _ e2); [set_solver|simpl in Hw; lia].
Qed.

Lemma do_report_sound evs r r' :
  io_at (io r) = IO_wait -> do_report evs r = Some r' -> rx_step r r'.
Proof.
  intros Hat H. unfold do_report in H.
  match type of H with (if ?b then _ else _) = _ => destruct b eqn:Hb; [|done] end.
  simplify_eq. apply andb_true_iff in Hb as [[[[Hne Hlen]%andb_true_iff
    Hwk]%andb_true_iff Hrd]%andb_true_iff Hw]. apply rx_report; [done| |].
  - apply bool_decide_eq_true in Hne. split_and!; [done|lia| |].
    + intros Hin. apply orb_true_iff in Hrd as [?%bool_decide_eq_true|[??]%andb_true_iff];
        [done|]. split; [done|lia].
    + apply wakes_once. by apply Nat.leb_le.
  - intros fd mask Hin. rewrite forallb_forall in Hw.
    specialize (Hw (EvFd fd mask)). rewrite <- list_elem_of_In in Hw. specialize (Hw Hin).
    apply andb_true_iff in Hw as [?%bool_decide_eq_true Hi]. split; [done|].
    by destruct (interest _ fd).
Qed.

Lemma do_move_sound alive m r r' : do_move alive m r = Some r' -> rx_step r r'.
Proof.
  intros H. destruct m; simpl in H.
  - destruct (ch_step _ _) as [[cs ps]|] eqn:Hs; simplify_eq/=. case_decide; simplify_eq.
    by apply rx_op.
  - destruct (Nat.ltb_spec 0 (io_pending_wakes (io r))); simplify_eq.
    apply (rx_io _ Running); [by apply io_step_wake|]. unfold io_quiet, io_events, wake_io_up.
    destruct (_ <? _); simpl; (split_and!; [done..|]);
      destruct (io_at (io r)) as [| | |[|[] ?]| | | |]; done.
  - destruct (io_at (io r)) eqn:Hat; simplify_eq; apply rx_start; auto.
  - destruct (io_at (io r)) eqn:Hat; simplify_eq.
    apply (rx_io _ Running); [by apply io_step_enter|]. split_and!; [done..|by rewrite Hat].
  - destruct (io_at (io r)) eqn:Hat; simplify_eq. by eapply do_report_sound.
  - destruct (io_at (io r)) as [| | |[|[] ?]| | | |] eqn:Hat; simplify_eq.
    apply (rx_io _ Running); [by apply io_step_drain|]. split_and!; [done..|by rewrite Hat].
  - destruct (io_at (io r)) eqn:Hat; simplify_eq.
    apply (rx_io _ Running); [by apply io_step_swap|]. split_and!; [done..|by rewrite Hat].
  - destruct (io_at (io r)) eqn:Hat; simplify_eq.
    destruct (io_exe_queue_ (io r) !! n) as [x|] eqn:Hx; simplify_eq/=.
    destruct (run_task _ _ _ _ _) eqn:Ht; simplify_eq/=. by eapply rx_task.
  - destruct (io_at (io r)) eqn:Hat; simplify_eq. case_decide; simplify_eq.
    apply (rx_io _ Running); [by eapply io_step_clear|]. split_and!; [done..|by rewrite Hat].
  - destruct (io_at (io r)) as [| | |[|[] ?]| | | |] eqn:Hat; simplify_eq.
    destruct (run_event _ _ _ _ _) eqn:Ht; simplify_eq/=. by eapply rx_event.
  - destruct (io_at (io r)) as [| | |[|[] ?]| | | |] eqn:Hat; simplify_eq.
    apply (rx_io _ Running); [by apply io_step_end|]. split_and!; [done..|by rewrite Hat].
Qed.

Lemma do_moves_sound alive ms r r' : do_moves alive ms r = Some r' -> rtc rx_step r r'.
Proof.
  revert r. induction ms as [|m ms IH]; intros r H; simpl in H; [by simplify_eq|].
  destruct (do_move alive m r) as [r1|] eqn:Hm; simplify_eq/=.
  eapply rtc_l; [by eapply do_move_sound | by apply IH].
Qed.
End reactor.
Arguments reactor : clear implicits.

(** ** A scenario

    Channels 0 and 1 own descriptors 7 and 8 and subscribe to both.  Both become
    readable together with the eventfd, whose task closes 7; before the event of
    7 is handled, another thread opens a file that gets number 7 again and
    subscribes to it. *)

Import MapKernel.

Definition demo_moves : list (move (F := nat)) :=
  [MOp (ChNew 0 () 7); MOp (ChUpdateCb 0 1 EventType.kRead EventMode.kDefault 10%nat);
   MOp (ChNew 1 () 8); MOp (ChUpdateCb 1 2 EventType.kRead EventMode.kDefault 20%nat);
   MWake; MStart; MEnter; MReport [EvWake]; MDrain; MSwap; MTask; MTask; MTask; MTask; MClear;
   MEnd; MEnter; MOp (ChDelete 0); MWake; MReport [EvWake; EvFd 7 EPOLLIN; EvFd 8 EPOLLIN];
   MDrain; MSwap; MTask; MClear; MOp (ChNew 2 () 7);
   MOp (ChUpdateCb 2 3 EventType.kRead EventMode.kDefault 30%nat); MEvent].

Definition demo_table0 : fd_state (gmap Z Z) (guarded nat) :=
  init_table (<[4 := Z.lor EPOLLIN EPOLLET]> (∅ : gmap Z Z)).

Definition demo_rx (ms : list move) : reactor (gmap Z Z) nat :=
  default (rx_init demo_table0) (do_moves 4 (fun _ => true) ms (rx_init demo_table0)).

Lemma demo_rx_reach ms :
  is_Some (do_moves 4 (fun _ => true) ms (rx_init demo_table0)) ->
  rtc (rx_step 4) (rx_init demo_table0) (demo_rx ms).
Proof.
  intros [r Hr]. unfold demo_rx. rewrite Hr. by eapply do_moves_sound.
Qed.

(** The event of the closed 7 called nothing; 8 is dispatched. *)
Lemma no_stale_dispatch_witness :
  ran (demo_rx demo_moves) = [] /\
  opened (demo_rx demo_moves) !! 7 = Some 5%nat /\ seen (demo_rx demo_moves) !! 7 = Some 0%nat /\
  exists file, opened (demo_rx demo_moves) !! 8 = Some file /\
    seen (demo_rx demo_moves) !! 8 = Some file /\ cb_gen (demo_rx demo_moves) !! 8 = Some file.
Proof.
  split; [vm_compute; reflexivity|]. split; [vm_compute; reflexivity|].
  split; [vm_compute; reflexivity|].
  apply (no_stale_dispatch 4 (∅ : gmap Z Z) 3 0 demo_table0) with (mask := EPOLLIN)
    (evs := []) (g := mk_guarded 2%nat 20%nat) (m := EventType.kRead).
  - done.
  - done.
  - reflexivity.
  - apply demo_rx_reach. vm_compute. eauto.
  - vm_compute. reflexivity.
  - vm_compute. reflexivity.
Defined.

Lemma reactor_sound_witness :
  let r := demo_rx (demo_moves ++ [MEvent]) in
  ran r = [(20%nat, Some EventType.kRead)] /\
  (exists log, run_fd_tasks (tasks_of (io_executed (io r))) demo_table0 = Ok (table r, log)) /\
  (forall t g q, pending (io r) = LTable t g :: q ->
     exists tb log, run_fd_task t (table r) = Ok (tb, log) /\
       LogRepeatedUnregister ∉ log /\ LogNotRegistered ∉ log) /\
  (forall fd mask, EvFd fd mask ∈ io_events (io r) ->
     exists d, dispatch fd mask (table r) = Ok d) /\
  (io_executed (io r) = io_posted (io r) -> forall fd, registered (table r) fd = true <->
     exists i c, chans r !! i = Some c /\ valid c = Some () /\ fd_ c = fd) /\
  (forall fd, registered (table r) fd = true -> is_Some (opened r !! fd)).
Proof.
  split; [vm_compute; reflexivity|].
  apply (reactor_sound 4 (∅ : gmap Z Z) 3 0); [done|done|reflexivity|].
  apply demo_rx_reach. vm_compute. eauto.
Defined.

(** The loop is destroyed while the registration of the new file 7 is queued:
    8 is closed, 7 is not. *)
Lemma loop_dtor_closes_witness :
  let r := demo_rx demo_moves in
  registered_from 0 (events_ (table r)) = [8] /\ opened r !! 7 = Some 5%nat /\
  exists fds,
    (loop_dtor 3 4 (mk_fds (events_ (table r)) (kernel (table r), []))).1.2 = 3 :: 4 :: fds /\
    NoDup fds /\ 4 ∉ fds /\
    (forall fd, fd ∈ fds <-> registered (table r) fd = true) /\
    (forall fd, is_Some (opened r !! fd) ->
       fd ∈ fds \/ exists g, LTable (TRegister fd) g ∈ pending (io r)) /\
    (forall fd, fd ∈ fds -> is_Some (opened r !! fd)).
Proof.
  split; [vm_compute; reflexivity|]. split; [vm_compute; reflexivity|].
  apply (loop_dtor_closes 4 (∅ : gmap Z Z) 3 0 demo_table0); [done|done|reflexivity|].
  apply demo_rx_reach. vm_compute. eauto.
Defined.
