(* ===== verification/Executors.v ===== *)
(** * Executors: an object on both threads of a loop

    The objects of the library live on two threads.  The io thread of
    [Loop::io_executor] ([src/core.cpp]) runs their callbacks and the io tasks
    posted to them, and only it touches their state; what these hand to the
    user goes to the heavy queue, and [Loop::heavy_executor] runs it.  The
    user's functions post io tasks back.  Every callable is wrapped with a life
    checker ([LoopChannel] of [core.hpp]) and does nothing once its owner is
    gone.

    Here [LoopIo] and [LoopHeavy] run together, one step for each access to
    shared state, with any object that is a [Service]: the posts of a callable
    are separate steps, so that other threads come between them.  The theorems
    say what the object and its user may rely on: the object sees its tasks in
    the order they were posted and its callbacks in between, its outputs reach
    the user in the order they were made, each once, nothing is left behind by
    a sleeping thread, and nothing runs for a dead owner. *)

From S2P Require Import Prelude Events LoopFd LoopIo LoopHeavy Channel.

(** ** Objects *)

(** [svc_step]: an io task or a part of an epoll callback, with the heavy tasks
    it posts; [svc_heavy]: a heavy task, with the io tasks it posts; [svc_owner]:
    whose life the wrapper of a heavy task checks; [svc_event]: what a callback
    may have to deal with. *)
Class Service (St I O W : Type) := {
  svc_init : St;
  svc_world : W;
  svc_step : I -> St -> res (St * list O);
  svc_event : I -> Prop;
  svc_heavy : O -> W -> res (W * list I);
  svc_owner : O -> nat
}.

(** A callable in a queue: of the object, or of anything else on the loop. *)
Inductive task (A : Type) :=
| Own (x : A)
| Other (k : nat).
Arguments Own {A} x.
Arguments Other {A} k.

Definition own {A} (l : list (task A)) : list A :=
  omap (fun t => match t with Own x => Some x | Other _ => None end) l.

Lemma own_app {A} (l k : list (task A)) : own (l ++ k) = own l ++ own k.
Proof. apply omap_app. Qed.

(** ** Runs of an object by itself *)

(** Running [xs] one after the other, collecting what each gives. *)
Section fold.
Context {A B C : Type}.
Variable (f : A -> B -> res (B * list C)).

Fixpoint run_all (xs : list A) (b : B) : res (B * list C) :=
  match xs with
  | [] => Ok (b, [])
  | x :: xs' => r ← f x b; r' ← run_all xs' r.1; Ok (r'.1, r.2 ++ r'.2)
  end.

Lemma run_all_app xs ys b :
  run_all (xs ++ ys) b = (r ← run_all xs b; r' ← run_all ys r.1; Ok (r'.1, r.2 ++ r'.2)).
Proof.
  revert b. induction xs as [|x xs IH]; intros b; simpl.
  - by destruct (run_all ys b) as [[]| |].
  - destruct (f x b) as [[b1 c1]| |]; try done. simpl. rewrite IH.
    destruct (run_all xs b1) as [[b2 c2]| |]; try done. simpl.
    destruct (run_all ys b2) as [[b3 c3]| |]; try done. simpl. by rewrite app_assoc.
Qed.

Lemma run_all_snoc xs x b b1 c1 b2 c2 :
  run_all xs b = Ok (b1, c1) -> f x b1 = Ok (b2, c2) -> run_all (xs ++ [x]) b = Ok (b2, c1 ++ c2).
Proof. intros H1 H2. rewrite run_all_app, H1. simpl. rewrite H2. simpl. by rewrite app_nil_r. Qed.

Lemma run_all_more xs ys b b1 c1 b2 c2 :
  run_all xs b = Ok (b1, c1) -> run_all ys b1 = Ok (b2, c2) -> run_all (xs ++ ys) b = Ok (b2, c1 ++ c2).
Proof. intros H1 H2. rewrite run_all_app, H1. simpl. by rewrite H2. Qed.

Lemma run_all_total xs b : (forall x b, exists r, f x b = Ok r) -> exists r, run_all xs b = Ok r.
Proof.
  intros Hf. revert b. induction xs as [|x xs IH]; intros b; simpl; [by eexists|].
  destruct (Hf x b) as [[b1 c1] ->]. simpl. destruct (IH b1) as [r ->]. by eexists.
Qed.

(** What a longer run needs of a shorter one. *)
Lemma run_all_next xs x b b1 c1 r :
  run_all xs b = Ok (b1, c1) -> run_all (xs ++ [x]) b = Ok r -> exists r', f x b1 = Ok r'.
Proof.
  intros H1. rewrite run_all_app, H1. simpl. destruct (f x b1) as [r'| |]; [by exists r'|done..].
Qed.
End fold.

(** A function whose outputs are another one's, translated. *)
Lemma run_all_map {A B C D} (f : A -> B -> res (B * list D)) (g : A -> B -> res (B * list C)) (m : C -> D) :
  (forall x b, f x b = (r ← g x b; Ok (r.1, map m r.2))) ->
  forall xs b, run_all f xs b = (r ← run_all g xs b; Ok (r.1, map m r.2)).
Proof.
  intros Hfg xs. induction xs as [|x xs IH]; intros b; [done|]. cbn [run_all]. rewrite Hfg.
  destruct (g x b) as [[b1 cs]| |]; try done. cbn [mbind res_bind fst snd]. rewrite IH.
  destruct (run_all g xs b1) as [[b2 cs']| |]; try done. simpl. by rewrite map_app.
Qed.

Section executors.
Context {St I O W : Type} `{SV : Service St I O W}.

(** What of the outputs [os] its user may have seen: for each owner, the first
    ones. *)
Definition of_owner (k : nat) (os : list O) : list O := filter (fun o => svc_owner o = k) os.

Definition delivered (os cs : list O) : Prop :=
  cs `sublist_of` os /\ forall k, of_owner k cs `prefix_of` of_owner k os.

(** When all heavy tasks check the same life, those called are the first ones. *)
Lemma delivered_one k os cs : (forall o, svc_owner o = k) -> delivered os cs -> cs `prefix_of` os.
Proof.
  intros Ho [_ Hp]. assert (Hall : forall l, of_owner k l = l).
  { induction l as [|o l IH]; [done|]. unfold of_owner. rewrite filter_cons_True by done. by f_equal. }
  specialize (Hp k). by rewrite !Hall in Hp.
Qed.

(** What makes an object safe on a loop: on the inputs it is meant for, neither
    its tasks nor its user's functions leave defined behaviour. *)
Class ServiceLaws := {
  inputs_ok : list I -> Prop;
  inputs_ok_app xs ys : inputs_ok (xs ++ ys) -> inputs_ok xs;
  svc_step_ok xs : inputs_ok xs -> exists r, run_all svc_step xs svc_init = Ok r;
  svc_heavy_ok xs st os cs :
    inputs_ok xs -> run_all svc_step xs svc_init = Ok (st, os) -> delivered os cs ->
    exists r, run_all svc_heavy cs svc_world = Ok r
}.

(** ** The composition *)

(** [log]: what the object was given, [true] for a task; [called]: the heavy
    tasks that found their owner alive; [back]: the io tasks these posted.  All
    three are ghosts; [io_out] and [hv_out] is what the callables being run
    have still to post. *)
Record sys := mk_sys {
  sio : io_side (task I);
  shv : hv_side (task O);
  object : St;
  world : W;
  dead : gset nat;
  io_out : list O;
  hv_out : list I;
  log : list (bool * I);
  called : list O;
  back : list I
}.

Definition with_io (q : io_side (task I)) (s : sys) : sys :=
  mk_sys q (shv s) (object s) (world s) (dead s) (io_out s) (hv_out s) (log s) (called s) (back s).
Definition with_hv (q : hv_side (task O)) (s : sys) : sys :=
  mk_sys (sio s) q (object s) (world s) (dead s) (io_out s) (hv_out s) (log s) (called s) (back s).
Definition ran_io (st : St) (os : list O) (xs : list (bool * I)) (s : sys) : sys :=
  mk_sys (sio s) (shv s) st (world s) (dead s) os (hv_out s) (log s ++ xs) (called s) (back s).
Definition ran_hv (w : W) (xs : list I) (o : O) (s : sys) : sys :=
  mk_sys (sio s) (shv s) (object s) w (dead s) (io_out s) xs (log s) (called s ++ [o]) (back s).

Section steps.
(** The object's own life. *)
Variable (life : nat).

Definition sys_init : sys := mk_sys io_init hv_init svc_init svc_world ∅ [] [] [] [] [].

(** [task()] of the io thread, and of the heavy thread. *)
Definition run_io (t : task I) (n : nat) (evs : list io_event) (s : sys) : res sys :=
  let s1 := with_io (io_call t n evs (sio s)) s in
  match t with
  | Other _ => Ok s1
  | Own x =>
      if decide (life ∈ dead s) then Ok s1
      else r ← svc_step x (object s); Ok (ran_io r.1 r.2 [(true, x)] s1)
  end.

Definition run_heavy (t : task O) (n : nat) (s : sys) : res sys :=
  let s1 := with_hv (hv_call t n (shv s)) s in
  match t with
  | Other _ => Ok s1
  | Own o =>
      if decide (svc_owner o ∈ dead s) then Ok s1
      else r ← svc_heavy o (world s); Ok (ran_hv r.1 r.2 o s1)
  end.

(** The object's epoll callback, which reads [xs] from its descriptor. *)
Definition run_event (xs : list I) (evs : list io_event) (s : sys) : res sys :=
  r ← run_all svc_step xs (object s);
  Ok (ran_io r.1 r.2 (pair false <$> xs) (with_io (io_goto (IO_batch evs) (sio s)) s)).

(** Steps of a thread, or of the kernel, that neither post nor call. *)
Definition io_quiet (q q' : io_side (task I)) : Prop :=
  io_any q q' /\ io_posted q' = io_posted q /\ io_executed q' = io_executed q.
Definition hv_quiet (q q' : hv_side (task O)) : Prop :=
  hv_any q q' /\ hv_posted q' = hv_posted q /\ hv_executed q' = hv_executed q.

Inductive sys_step (s : sys) : sys -> Prop :=
| sys_post t : sys_step s (with_io (io_push t (sio s)) s)
| sys_post_heavy k :
    hv_locked (hv_at (shv s)) = false -> sys_step s (with_hv (hv_push (Other k) (shv s)) s)
| sys_wake :
    (0 < io_pending_wakes (sio s))%nat -> sys_step s (with_io (io_woke (wake_io_up (sio s))) s)
| sys_notify :
    (0 < hv_pending_notify (shv s))%nat ->
    sys_step s (with_hv (hv_notified (wake_heavy_up (shv s))) s)
| sys_io q : io_out s = [] -> io_quiet (sio s) q -> sys_step s (with_io q s)
| sys_hv q : hv_out s = [] -> hv_quiet (shv s) q -> sys_step s (with_hv q s)
| sys_call t n evs s' :
    io_out s = [] -> io_at (sio s) = IO_run n evs -> io_exe_queue_ (sio s) !! n = Some t ->
    run_io t n evs s = Ok s' -> sys_step s s'
| sys_event fd mask xs evs s' :
    io_out s = [] -> io_at (sio s) = IO_batch (EvFd fd mask :: evs) -> life ∉ dead s ->
    Forall svc_event xs -> run_event xs evs s = Ok s' -> sys_step s s'
| sys_flush_heavy o os :
    io_out s = o :: os -> hv_locked (hv_at (shv s)) = false ->
    sys_step s (mk_sys (sio s) (hv_push (Own o) (shv s)) (object s) (world s) (dead s) os (hv_out s)
                  (log s) (called s) (back s))
| sys_heavy t n s' :
    hv_out s = [] -> hv_at (shv s) = HV_run n -> heavy_exe_queue_ (shv s) !! n = Some t ->
    run_heavy t n s = Ok s' -> sys_step s s'
| sys_flush_io x xs :
    hv_out s = x :: xs ->
    sys_step s (mk_sys (io_push (Own x) (sio s)) (shv s) (object s) (world s) (dead s) (io_out s) xs
                  (log s) (called s) (back s ++ [x]))
| sys_die k :
    sys_step s (mk_sys (sio s) (shv s) (object s) (world s) ({[k]} ∪ dead s) (io_out s) (hv_out s)
                  (log s) (called s) (back s)).

(** ** The invariant *)

Lemma prefix_sublist {A} (l k : list A) : l `prefix_of` k -> l `sublist_of` k.
Proof. intros [m ->]. by apply sublist_inserts_r. Qed.

Definition tasks (l : list (bool * I)) : list I :=
  omap (fun e => if e.1 : bool then Some e.2 else None) l.

Record sys_inv (s : sys) : Prop := {
  si_io : rtc io_any io_init (sio s);
  si_hv : rtc hv_any hv_init (shv s);
  si_replay : run_all svc_step (snd <$> log s) svc_init =
    Ok (object s, own (hv_posted (shv s)) ++ io_out s);
  si_events : Forall (fun e => e.1 = false -> svc_event e.2) (log s);
  si_tasks : tasks (log s) `prefix_of` own (io_executed (sio s)) /\
    (life ∉ dead s -> tasks (log s) = own (io_executed (sio s)));
  si_called : run_all svc_heavy (called s) svc_world = Ok (world s, back s ++ hv_out s);
  si_delivered : delivered (own (hv_executed (shv s))) (called s);
  si_alive : forall k, k ∉ dead s ->
    of_owner k (called s) = of_owner k (own (hv_executed (shv s)));
  si_back : back s `sublist_of` own (io_posted (sio s));
  si_running : hv_out s <> [] -> exists n, hv_at (shv s) = HV_run n
}.

Lemma sys_init_inv : sys_inv sys_init.
Proof.
  split; simpl; try done; constructor; done.
Qed.

(** A step that only moves the io side. *)
Lemma with_io_inv q s :
  sys_inv s -> io_any (sio s) q -> io_executed q = io_executed (sio s) ->
  own (io_posted (sio s)) `prefix_of` own (io_posted q) -> sys_inv (with_io q s).
Proof.
  intros [Hio Hhv Hr Hev Ht Hc Hd Ha Hb Hn] Hq He Hp. split; try done; simpl.
  - by eapply rtc_r.
  - by rewrite He.
  - etrans; [done|]. by apply prefix_sublist.
Qed.

Lemma with_hv_inv q s :
  sys_inv s -> hv_any (shv s) q -> hv_executed q = hv_executed (shv s) ->
  own (hv_posted q) = own (hv_posted (shv s)) ->
  (hv_out s <> [] -> hv_at q = hv_at (shv s)) -> sys_inv (with_hv q s).
Proof.
  intros [Hio Hhv Hr Hev Ht Hc Hd Ha Hb Hn] Hq He Hp Hat. split; try done; simpl.
  - by eapply rtc_r.
  - by rewrite Hp.
  - by rewrite He.
  - by rewrite He.
  - intros Ho. rewrite (Hat Ho). by apply Hn.
Qed.

Lemma io_pushed t (q : io_side (task I)) : io_any q (io_push t q).
Proof. left. exists Running. apply io_step_post. Qed.

Lemma hv_pushed t (q : hv_side (task O)) : hv_locked (hv_at q) = false -> hv_any q (hv_push t q).
Proof. intros. left. exists Running. by apply hv_step_post. Qed.

Lemma io_called t n evs (q : io_side (task I)) :
  io_at q = IO_run n evs -> io_exe_queue_ q !! n = Some t -> io_any q (io_call t n evs q).
Proof. intros. left. exists Running. by apply io_step_call. Qed.

Lemma hv_called t n (q : hv_side (task O)) :
  hv_at q = HV_run n -> heavy_exe_queue_ q !! n = Some t -> hv_any q (hv_call t n q).
Proof. intros. left. exists Running. by apply hv_step_thread, hv_step_call. Qed.

Lemma io_posted_woke (q : io_side (task I)) :
  io_posted (io_woke (wake_io_up q)) = io_posted q /\ io_executed (io_woke (wake_io_up q)) = io_executed q.
Proof. unfold wake_io_up. by destruct (_ <? _). Qed.

Lemma hv_notified_same (q : hv_side (task O)) :
  hv_posted (hv_notified (wake_heavy_up q)) = hv_posted q /\
  hv_executed (hv_notified (wake_heavy_up q)) = hv_executed q /\
  (hv_at q <> HV_sleep -> hv_at (hv_notified (wake_heavy_up q)) = hv_at q).
Proof. unfold wake_heavy_up. by destruct (hv_at q) eqn:H; simpl; rewrite ?H. Qed.

Lemma tasks_events l xs : tasks (l ++ (pair false <$> xs)) = tasks l.
Proof.
  unfold tasks. rewrite omap_app.
  assert (omap (fun e : bool * I => if e.1 : bool then Some e.2 else None) (pair false <$> xs) = []) as ->;
    [|by rewrite app_nil_r].
  by induction xs.
Qed.

(** What callbacks give nothing to is given by the tasks. *)
Lemma only_tasks {A} (f : list I -> list A) (ev : I -> Prop) (l : list (bool * I)) :
  (forall xs ys, f (xs ++ ys) = f xs ++ f ys) -> (forall x, ev x -> f [x] = []) ->
  Forall (fun e => e.1 = false -> ev e.2) l -> f (snd <$> l) = f (tasks l).
Proof.
  intros Happ Hev Hl. induction Hl as [|[b x] l Hx _ IH]; [done|].
  change (snd <$> ((b, x) :: l)) with ([x] ++ (snd <$> l)). rewrite Happ, IH. destruct b.
  - change (tasks ((true, x) :: l)) with ([x] ++ tasks l). by rewrite Happ.
  - rewrite Hev by (by apply Hx). done.
Qed.

Lemma snd_events (l : list (bool * I)) xs : snd <$> (l ++ (pair false <$> xs)) = (snd <$> l) ++ xs.
Proof. rewrite fmap_app, <- list_fmap_compose. f_equal. apply list_fmap_id. Qed.

(** A called io task: the object sees it, unless its life is over. *)
Lemma run_io_inv t n evs s s' :
  sys_inv s -> io_out s = [] -> io_at (sio s) = IO_run n evs -> io_exe_queue_ (sio s) !! n = Some t ->
  run_io t n evs s = Ok s' -> sys_inv s'.
Proof.
  intros [Hio Hhv Hr Hev [Ht1 Ht2] Hc Hd Ha Hb Hn] Ho Hat Hq H.
  assert (Hio' : rtc io_any io_init (io_call t n evs (sio s))) by (eapply rtc_r; [done|by apply io_called]).
  unfold run_io in H. destruct t as [x|k]; [destruct (decide (life ∈ dead s)) as [Hdd|Hdd]|]; inv_res.
  - split; try done; simpl; rewrite own_app; simpl.
    split; [by apply prefix_app_r|done].
  - destruct a as [st os]. split; try done; simpl.
    + rewrite Ho, app_nil_r in Hr. rewrite fmap_app. by eapply run_all_snoc.
    + apply Forall_app. split; [done|]. by constructor.
    + rewrite own_app. unfold tasks. rewrite omap_app. fold (tasks (log s)). simpl.
      rewrite Ht2 by done. done.
  - split; try done; simpl; rewrite own_app; simpl; by rewrite app_nil_r.
Qed.

Lemma run_event_inv fd mask xs evs s s' :
  sys_inv s -> io_out s = [] -> io_at (sio s) = IO_batch (EvFd fd mask :: evs) ->
  Forall svc_event xs -> run_event xs evs s = Ok s' -> sys_inv s'.
Proof.
  intros [Hio Hhv Hr Hev Ht Hc Hd Ha Hb Hn] Ho Hat Hxs H. unfold run_event in H. inv_res.
  destruct a as [st os]. split; try done; simpl.
  - eapply rtc_r; [done|]. left. exists Running. by eapply io_step_fd.
  - rewrite Ho, app_nil_r in Hr. rewrite snd_events. by eapply run_all_more.
  - apply Forall_app. split; [done|]. apply Forall_fmap.
    eapply Forall_impl; [exact Hxs|]. intros x Hx _. exact Hx.
  - by rewrite tasks_events.
Qed.

Lemma of_owner_snoc k os o :
  of_owner k (os ++ [o]) = of_owner k os ++ if decide (svc_owner o = k) then [o] else [].
Proof. unfold of_owner. rewrite filter_app, filter_cons, filter_nil. done. Qed.

(** A heavy task called or dropped. *)
Lemma delivered_call os cs o :
  delivered os cs -> of_owner (svc_owner o) cs = of_owner (svc_owner o) os ->
  delivered (os ++ [o]) (cs ++ [o]).
Proof.
  intros [Hs Hp] He. split; [by apply sublist_app|]. intros k. rewrite !of_owner_snoc.
  destruct (decide _) as [<-|]; [by rewrite He|]. rewrite !app_nil_r. apply Hp.
Qed.

Lemma delivered_drop os cs o : delivered os cs -> delivered (os ++ [o]) cs.
Proof.
  intros [Hs Hp]. split; [by apply sublist_inserts_r|]. intros k. rewrite of_owner_snoc.
  by apply prefix_app_r.
Qed.

Lemma run_heavy_inv t n s s' :
  sys_inv s -> hv_out s = [] -> hv_at (shv s) = HV_run n -> heavy_exe_queue_ (shv s) !! n = Some t ->
  run_heavy t n s = Ok s' -> sys_inv s'.
Proof.
  intros [Hio Hhv Hr Hev Ht Hc Hd Ha Hb Hn] Ho Hat Hq H.
  assert (Hhv' : rtc hv_any hv_init (hv_call t n (shv s))) by (eapply rtc_r; [done|by apply hv_called]).
  unfold run_heavy in H. destruct t as [o|k]; [destruct (decide (svc_owner o ∈ dead s)) as [Hdd|Hdd]|];
    inv_res.
  - split; try done; simpl; rewrite ?own_app; simpl; [by apply delivered_drop|].
    intros k Hk. rewrite of_owner_snoc, decide_False by congruence. by rewrite app_nil_r, Ha.
  - destruct a as [w xs]. split; try done; simpl; rewrite ?own_app; simpl.
    + rewrite Ho, app_nil_r in Hc. by eapply run_all_snoc.
    + apply delivered_call; [done|]. by apply Ha.
    + intros k Hk. by rewrite !of_owner_snoc, Ha.
    + intros _. by exists (S n).
  - split; try done; simpl; rewrite ?own_app; simpl; by rewrite ?app_nil_r.
Qed.

Lemma sys_step_inv s s' : sys_inv s -> sys_step s s' -> sys_inv s'.
Proof.
  intros Hi Hs. pose proof Hi as [Hio Hhv Hr Hev Ht Hc Hd Ha Hb Hn].
  destruct Hs as [t|k Hl|Hw|Hw|q Ho (Hq & Hp & He)|q Ho (Hq & Hp & He)|t n evs s' Ho Hat Hx Hrun
    |fd mask xs evs s' Ho Hat Hlf Hxs Hrun|o os Ho Hl|t n s' Ho Hat Hx Hrun|x xs Ho|k].
  - apply with_io_inv; [done|apply io_pushed|done|]. simpl. rewrite own_app. by apply prefix_app_r.
  - apply with_hv_inv; [done|by apply hv_pushed|done| |done]. simpl. rewrite own_app. simpl.
    by rewrite app_nil_r.
  - destruct (io_posted_woke (sio s)) as [Hp He]. apply with_io_inv; [done| |done|by rewrite Hp].
    left. exists Running. by apply io_step_wake.
  - destruct (hv_notified_same (shv s)) as (Hp & He & Hat).
    apply with_hv_inv; [done| |done|by rewrite Hp|].
    + left. exists Running. by apply hv_step_notify.
    + intros [n Hrun]%Hn. apply Hat. congruence.
  - apply with_io_inv; [done|done|done|by rewrite Hp].
  - apply with_hv_inv; [done|done|done|by rewrite Hp|]. intros []. done.
  - by eapply run_io_inv.
  - by eapply run_event_inv.
  - split; try done; simpl.
    + eapply rtc_r; [done|by apply hv_pushed].
    + rewrite Hr, own_app, Ho. simpl. by rewrite <- app_assoc.
  - by eapply run_heavy_inv.
  - split; try done; simpl.
    + eapply rtc_r; [done|apply io_pushed].
    + by rewrite Hc, Ho, <- app_assoc.
    + rewrite own_app. by apply sublist_app.
    + intros _. apply Hn. by rewrite Ho.
  - split; try done; simpl.
    + destruct Ht as [? Ht]. split; [done|]. intros Hk. apply Ht. set_solver.
    + intros k' Hk. apply Ha. set_solver.
Qed.

Definition reachable (s : sys) : Prop := rtc sys_step sys_init s.

Lemma sys_reach_inv s : reachable s -> sys_inv s.
Proof.
  intros Hr. pose proof sys_init_inv as Hi. unfold reachable in Hr. revert Hi.
  induction Hr; eauto using sys_step_inv.
Qed.

(** ** Safety *)

Lemma of_owner_prefix k os os' : os `prefix_of` os' -> of_owner k os `prefix_of` of_owner k os'.
Proof. intros [l ->]. unfold of_owner. rewrite filter_app. by apply prefix_app_r. Qed.

Lemma delivered_prefix os os' cs : os `prefix_of` os' -> delivered os cs -> delivered os' cs.
Proof.
  intros Hp [Hs Ho]. split; [etrans; [done|by apply prefix_sublist]|].
  intros k. etrans; [apply Ho|by apply of_owner_prefix].
Qed.

Lemma own_prefix {A} (l k : list (task A)) : l `prefix_of` k -> own l `prefix_of` own k.
Proof. intros [m ->]. rewrite own_app. by apply prefix_app_r. Qed.

Lemma hv_executed_next (q : hv_side (task O)) n t :
  rtc hv_any hv_init q -> hv_at q = HV_run n -> heavy_exe_queue_ q !! n = Some t ->
  (hv_executed q ++ [t]) `prefix_of` hv_posted q.
Proof.
  intros Hr Hat Ht. destruct (heavy_tasks_fifo q Hr) as [-> _]. unfold hv_rest. rewrite Hat.
  rewrite (drop_S _ _ _ Ht), <- app_comm_cons. apply prefix_app, prefix_cons, prefix_nil.
Qed.

(** Everything posted for the user so far, the outputs of the log. *)
Lemma called_delivered s n o :
  sys_inv s -> hv_at (shv s) = HV_run n -> heavy_exe_queue_ (shv s) !! n = Some (Own o) ->
  svc_owner o ∉ dead s -> delivered (own (hv_posted (shv s)) ++ io_out s) (called s ++ [o]).
Proof.
  intros [Hio Hhv Hr Hev Ht Hc Hd Ha Hb Hn] Hat Hx Hk.
  apply (delivered_prefix (own (hv_executed (shv s)) ++ [o])).
  - etrans; [|by apply prefix_app_r]. change [o] with (own [Own o]). rewrite <- own_app.
    apply own_prefix. by eapply hv_executed_next.
  - apply delivered_call; [done|]. by apply Ha.
Qed.

Lemma run_io_ok t n evs s :
  sys_inv s -> io_out s = [] ->
  (life ∉ dead s -> exists r, run_all svc_step ((snd <$> log s) ++ own [t]) svc_init = Ok r) ->
  exists s', run_io t n evs s = Ok s'.
Proof.
  intros Hi Ho Hok. unfold run_io. destruct t as [x|k]; [|by eexists].
  destruct (decide _) as [|Hk]; [by eexists|]. destruct (Hok Hk) as [r Hr].
  destruct (run_all_next _ _ _ _ _ _ _ (si_replay _ Hi) Hr) as [r' ->]. by eexists.
Qed.

Lemma run_heavy_ok t n s :
  sys_inv s -> hv_at (shv s) = HV_run n -> heavy_exe_queue_ (shv s) !! n = Some t ->
  (forall cs, delivered (own (hv_posted (shv s)) ++ io_out s) cs ->
     exists r, run_all svc_heavy cs svc_world = Ok r) ->
  exists s', run_heavy t n s = Ok s'.
Proof.
  intros Hi Hat Hx Hok. unfold run_heavy. destruct t as [o|k]; [|by eexists].
  destruct (decide _) as [|Hk]; [by eexists|].
  destruct (Hok (called s ++ [o])) as [r Hr]; [by eapply called_delivered|].
  destruct (run_all_next _ _ _ _ _ _ _ (si_called _ Hi) Hr) as [r' ->]. by eexists.
Qed.

(** ** Progress *)

(** What the two threads do by themselves, and the posters that still owe a
    [write] or a [notify_one]: no [EINTR], no spurious wake-up. *)
Definition io_prompt (q q' : io_side (task I)) : Prop :=
  io_step Running q q' /\ io_posted q' = io_posted q /\ io_executed q' = io_executed q /\
  (io_at q = IO_wait -> io_at q' <> IO_check /\ forall e, io_at q' <> IO_fatal e).

Definition hv_prompt (q q' : hv_side (task O)) : Prop :=
  (hv_thread Running q q' \/ (0 < hv_pending_notify q)%nat /\ q' = hv_notified (wake_heavy_up q)) /\
  hv_posted q' = hv_posted q /\ hv_executed q' = hv_executed q.

(** The steps of a run in which nobody posts, nothing ends and nothing happens by
    chance. *)
Inductive prompt_step (s : sys) : sys -> Prop :=
| prompt_io q : io_out s = [] -> io_prompt (sio s) q -> prompt_step s (with_io q s)
| prompt_hv q : hv_out s = [] -> hv_prompt (shv s) q -> prompt_step s (with_hv q s)
| prompt_call t n evs s' :
    io_out s = [] -> io_at (sio s) = IO_run n evs -> io_exe_queue_ (sio s) !! n = Some t ->
    run_io t n evs s = Ok s' -> prompt_step s s'
| prompt_flush_heavy o os :
    io_out s = o :: os -> hv_locked (hv_at (shv s)) = false ->
    prompt_step s (mk_sys (sio s) (hv_push (Own o) (shv s)) (object s) (world s) (dead s) os (hv_out s)
                     (log s) (called s) (back s))
| prompt_heavy t n s' :
    hv_out s = [] -> hv_at (shv s) = HV_run n -> heavy_exe_queue_ (shv s) !! n = Some t ->
    run_heavy t n s = Ok s' -> prompt_step s s'
| prompt_flush_io x xs :
    hv_out s = x :: xs ->
    prompt_step s (mk_sys (io_push (Own x) (sio s)) (shv s) (object s) (world s) (dead s) (io_out s) xs
                     (log s) (called s) (back s ++ [x])).

Lemma io_prompt_quiet q q' : io_prompt q q' -> io_quiet q q'.
Proof. intros (? & ? & ? & _). split; [left; by exists Running|done]. Qed.

Lemma hv_prompt_quiet q q' : hv_prompt q q' -> hv_quiet q q'.
Proof.
  intros ([Hs|[Hp ->]] & ? & ?); (split; [left; exists Running|done]);
    [by apply hv_step_thread|by apply hv_step_notify].
Qed.

Lemma io_prompts q q' : rtc io_prompt q q' -> rtc io_quiet q q'.
Proof. apply rtc_subrel. exact io_prompt_quiet. Qed.
Lemma hv_prompts q q' : rtc hv_prompt q q' -> rtc hv_quiet q q'.
Proof. apply rtc_subrel. exact hv_prompt_quiet. Qed.

Lemma prompt_sys s s' : prompt_step s s' -> sys_step s s'.
Proof.
  intros []; [by apply sys_io, io_prompt_quiet|by apply sys_hv, hv_prompt_quiet|by eapply sys_call
    |by apply sys_flush_heavy|by eapply sys_heavy|by apply sys_flush_io].
Qed.

Lemma prompt_steps s s' : rtc prompt_step s s' -> rtc sys_step s s'.
Proof. apply rtc_subrel. exact prompt_sys. Qed.

Lemma io_prompt_step (q q' : io_side (task I)) :
  io_step Running q q' -> io_posted q' = io_posted q -> io_executed q' = io_executed q ->
  io_at q <> IO_wait -> io_prompt q q'.
Proof. intros. by split_and!. Qed.

Lemma io_quiet_step exe (q q' : io_side (task I)) :
  io_step exe q q' -> io_posted q' = io_posted q -> io_executed q' = io_executed q -> io_quiet q q'.
Proof. intros. split; [left; by exists exe|done]. Qed.

(** The io thread is about to call its next task. *)
Definition at_call (q : io_side (task I)) : Prop :=
  exists n evs t, io_at q = IO_run n evs /\ io_exe_queue_ q !! n = Some t.

Lemma swap_to_call evs (q : io_side (task I)) :
  io_at q = IO_swap evs -> io_buffer_queue_ q <> [] -> exists q', rtc io_prompt q q' /\ at_call q'.
Proof.
  intros Hat Hb. exists (io_swap evs q). split.
  - apply rtc_once, io_prompt_step; [by apply io_step_swap|done..|congruence].
  - destruct (io_buffer_queue_ q) as [|t l] eqn:E; [done|]. exists 0%nat, evs, t. simpl. by rewrite E.
Qed.

Lemma wake_to_call evs (q : io_side (task I)) :
  io_at q = IO_batch (EvWake :: evs) -> io_buffer_queue_ q <> [] ->
  exists q', rtc io_prompt q q' /\ at_call q'.
Proof.
  intros Hat Hb. destruct (swap_to_call evs (io_drain evs q)) as (q' & Hr & Hc); [done|done|].
  exists q'. split; [|done]. eapply rtc_l; [|done].
  apply io_prompt_step; [by apply io_step_drain|done..|congruence].
Qed.

Lemma woke_same (q : io_side (task I)) :
  io_at (io_woke (wake_io_up q)) = io_at q /\
  io_buffer_queue_ (io_woke (wake_io_up q)) = io_buffer_queue_ q.
Proof. unfold wake_io_up. by destruct (_ <? _). Qed.

Lemma reportable_woke (q : io_side (task I)) :
  io_inv q -> io_at q = IO_wait -> reportable [EvWake] (io_woke (wake_io_up q)).
Proof.
  intros Hi Hat. pose proof (wake_io_up_count q Hi) as Hc.
  destruct (io_woke_inv q Hi) as [_ _ _ Hd _].
  destruct (woke_same q) as [Hat' _]. unfold io_events in Hd. rewrite Hat', Hat in Hd.
  split_and!; [done|vm_compute; discriminate| |intros [|? []] ? [=]; subst; set_solver].
  intros _. destruct (Hd Hc) as [?|?]; [done|set_solver].
Qed.

Lemma wait_to_call (q : io_side (task I)) :
  io_inv q -> io_at q = IO_wait -> io_buffer_queue_ q <> [] -> exists q', rtc io_prompt q q' /\ at_call q'.
Proof.
  intros Hi Hat Hb.
  assert (Hgo : forall q1, io_at q1 = IO_wait -> io_buffer_queue_ q1 <> [] -> reportable [EvWake] q1 ->
    exists q', rtc io_prompt q1 q' /\ at_call q').
  { intros q1 Hat1 Hb1 Hrep. destruct (wake_to_call [] (io_report [EvWake] q1)) as (q' & ? & ?); [done..|].
    exists q'. split; [|done]. eapply rtc_l; [|done].
    split_and!; [by apply io_step_report|done..]. }
  destruct (io_wait_reportable q Hi Hat Hb) as [Hp|Hrep]; [|by apply Hgo].
  destruct (woke_same q) as [Hat' Hb'], (io_posted_woke q) as [Hpo He].
  destruct (Hgo (io_woke (wake_io_up q))) as (q' & Hr & Hc);
    [congruence|congruence|by apply reportable_woke|].
  exists q'. split; [|done]. eapply rtc_l; [|done].
  split_and!; [by apply io_step_wake|done..|]. by rewrite Hat', Hat.
Qed.

Lemma check_to_call (q : io_side (task I)) :
  io_inv q -> io_at q = IO_check -> io_buffer_queue_ q <> [] -> exists q', rtc io_prompt q q' /\ at_call q'.
Proof.
  intros Hi Hat Hb.
  assert (Hs : io_step Running q (io_goto IO_wait q)) by (by apply io_step_enter).
  destruct (wait_to_call (io_goto IO_wait q)) as (q' & ? & ?); [by eapply io_step_inv|done|done|].
  exists q'. split; [|done]. eapply rtc_l; [|done]. apply io_prompt_step; [done..|congruence].
Qed.

Lemma batch_to_call evs (q : io_side (task I)) :
  io_inv q -> io_at q = IO_batch evs -> io_buffer_queue_ q <> [] ->
  exists q', rtc io_prompt q q' /\ at_call q'.
Proof.
  revert q. induction evs as [|[|fd mask] evs IH]; intros q Hi Hat Hb.
  - assert (Hs : io_step Running q (io_goto IO_check q)) by (by apply io_step_end).
    destruct (check_to_call (io_goto IO_check q)) as (q' & ? & ?); [by eapply io_step_inv|done|done|].
    exists q'. split; [|done]. eapply rtc_l; [|done]. apply io_prompt_step; [done..|congruence].
  - by eapply wake_to_call.
  - assert (Hs : io_step Running q (io_goto (IO_batch evs) q)) by (by eapply io_step_fd).
    destruct (IH (io_goto (IO_batch evs) q)) as (q' & ? & ?); [by eapply io_step_inv|done|done|].
    exists q'. split; [|done]. eapply rtc_l; [|done]. apply io_prompt_step; [done..|congruence].
Qed.

(** With a task queued, the io thread gets to a call by itself, whatever it is
    doing; a poster may have to do the [write] it owes. *)
Lemma io_to_call (q : io_side (task I)) :
  io_inv q -> io_live q -> io_rest q ++ io_buffer_queue_ q <> [] ->
  exists q', rtc io_prompt q q' /\ at_call q'.
Proof.
  intros Hi Hl Hp. pose proof Hi as [_ He _ _ _]. unfold io_live, io_rest in *.
  destruct (io_at q) as [| | |evs|evs|n evs| |] eqn:Hat; try done; try rewrite He in Hp.
  - by apply check_to_call.
  - by apply wait_to_call.
  - by eapply batch_to_call.
  - by eapply swap_to_call.
  - destruct (io_exe_queue_ q !! n) as [t|] eqn:Ht; [exists q; split; [done|by exists n, evs, t]|].
    apply lookup_ge_None in Ht. rewrite drop_ge in Hp by done.
    assert (Hs : io_step Running q (io_clear evs q)) by (apply (io_step_clear _ n); [done|lia]).
    destruct (batch_to_call evs (io_clear evs q)) as (q' & ? & ?); [by eapply io_step_inv|done|done|].
    exists q'. split; [|done]. eapply rtc_l; [|done]. apply io_prompt_step; [done..|congruence].
Qed.

(** The same for the heavy thread. *)
Definition at_heavy (q : hv_side (task O)) : Prop :=
  exists n t, hv_at q = HV_run n /\ heavy_exe_queue_ q !! n = Some t.

Lemma hv_prompt_thread (q q' : hv_side (task O)) :
  hv_thread Running q q' -> hv_posted q' = hv_posted q -> hv_executed q' = hv_executed q -> hv_prompt q q'.
Proof. intros. split; [by left|done]. Qed.

Lemma hswap_to_call (q : hv_side (task O)) :
  hv_at q = HV_swap -> heavy_buffer_queue_ q <> [] -> exists q', rtc hv_prompt q q' /\ at_heavy q'.
Proof.
  intros Hat Hb. exists (hv_swap q). split.
  - apply rtc_once, hv_prompt_thread; [by apply hv_step_swap|done..].
  - destruct (heavy_buffer_queue_ q) as [|t l] eqn:E; [done|]. exists 0%nat, t. simpl. by rewrite E.
Qed.

Lemma pred_to_call (q : hv_side (task O)) :
  hv_at q = HV_pred -> heavy_buffer_queue_ q <> [] -> exists q', rtc hv_prompt q q' /\ at_heavy q'.
Proof.
  intros Hat Hb. destruct (hswap_to_call (hv_goto HV_swap q)) as (q' & Hr & Hc); [done|done|].
  exists q'. split; [|done]. eapply rtc_l; [|done]. apply hv_prompt_thread; [|done..].
  replace (hv_goto HV_swap q) with (hv_goto (if hv_predicate Running q then HV_swap else HV_sleepy) q);
    [by apply hv_step_pred|].
  unfold hv_predicate. by destruct (heavy_buffer_queue_ q).
Qed.

Lemma lock_to_call (q : hv_side (task O)) :
  hv_at q = HV_lock -> heavy_buffer_queue_ q <> [] -> exists q', rtc hv_prompt q q' /\ at_heavy q'.
Proof.
  intros Hat Hb. destruct (pred_to_call (hv_goto HV_pred q)) as (q' & Hr & Hc); [done|done|].
  exists q'. split; [|done]. eapply rtc_l; [|done].
  apply hv_prompt_thread; [by apply hv_step_lock|done..].
Qed.

Lemma hcheck_to_call (q : hv_side (task O)) :
  hv_at q = HV_check -> heavy_buffer_queue_ q <> [] -> exists q', rtc hv_prompt q q' /\ at_heavy q'.
Proof.
  intros Hat Hb. destruct (lock_to_call (hv_goto HV_lock q)) as (q' & Hr & Hc); [done|done|].
  exists q'. split; [|done]. eapply rtc_l; [|done].
  apply hv_prompt_thread; [by apply hv_step_enter|done..].
Qed.

Lemma hv_to_call (q : hv_side (task O)) :
  hv_inv q -> hv_live q -> hv_rest q ++ heavy_buffer_queue_ q <> [] ->
  exists q', rtc hv_prompt q q' /\ at_heavy q'.
Proof.
  intros [_ He Hs1 Hs2] Hl Hp. unfold hv_live, hv_rest in *.
  destruct (hv_at q) as [| | | | | | |n|] eqn:Hat; try done; try rewrite He in Hp.
  - by apply hcheck_to_call.
  - by apply lock_to_call.
  - by apply pred_to_call.
  - by rewrite Hs1 in Hp.
  - destruct (lock_to_call (hv_notified (hv_goto HV_lock q))) as (q' & Hr & Hc); [done|done|].
    exists q'. split; [|done]. eapply rtc_l; [|done].
    split; [right; split; [by apply Hs2|by unfold wake_heavy_up; rewrite Hat]|by rewrite ?Hat].
  - by apply hswap_to_call.
  - destruct (heavy_exe_queue_ q !! n) as [t|] eqn:Ht; [exists q; split; [done|by exists n, t]|].
    apply lookup_ge_None in Ht. rewrite drop_ge in Hp by done.
    destruct (hcheck_to_call (hv_clear q)) as (q' & ? & ?); [done|done|].
    exists q'. split; [|done]. eapply rtc_l; [|done]. apply hv_prompt_thread; [|done..].
    apply (hv_step_clear _ n); [done|lia].
Qed.

Lemma steps_inv s s' : sys_inv s -> rtc prompt_step s s' -> sys_inv s'.
Proof. intros Hi Hr%prompt_steps. revert Hi. induction Hr; eauto using sys_step_inv. Qed.

Lemma steps_io q s : io_out s = [] -> rtc io_prompt (sio s) q -> rtc prompt_step s (with_io q s).
Proof.
  intros Ho Hr. remember (sio s) as q0 eqn:E. revert s Ho E.
  induction Hr as [q|q q1 q2 Hq _ IH]; intros s Ho ->; [destruct s; done|].
  eapply rtc_l; [by apply (prompt_io _ q1)|]. by apply (IH (with_io q1 s)).
Qed.

Lemma steps_hv q s : hv_out s = [] -> rtc hv_prompt (shv s) q -> rtc prompt_step s (with_hv q s).
Proof.
  intros Ho Hr. remember (shv s) as q0 eqn:E. revert s Ho E.
  induction Hr as [q|q q1 q2 Hq _ IH]; intros s Ho ->; [destruct s; done|].
  eapply rtc_l; [by apply (prompt_hv _ q1)|]. by apply (IH (with_hv q1 s)).
Qed.

(** The mutex of the heavy queue gets free. *)
Lemma hv_unlocks (q : hv_side (task O)) :
  exists q', rtc hv_prompt q q' /\ hv_locked (hv_at q') = false /\ (hv_live q -> hv_live q').
Proof.
  assert (Hsl : forall q : hv_side (task O), hv_at q = HV_sleepy ->
    exists q', rtc hv_prompt q q' /\ hv_locked (hv_at q') = false /\ hv_live q').
  { intros q1 Hat. exists (hv_goto HV_sleep q1). split; [|done].
    apply rtc_once, hv_prompt_thread; [by apply hv_step_sleep|done..]. }
  assert (Hsw : forall q : hv_side (task O), hv_at q = HV_swap ->
    exists q', rtc hv_prompt q q' /\ hv_locked (hv_at q') = false /\ hv_live q').
  { intros q1 Hat. exists (hv_swap q1). split; [|done].
    apply rtc_once, hv_prompt_thread; [by apply hv_step_swap|done..]. }
  destruct (hv_at q) eqn:Hat; try (exists q; rewrite Hat; done).
  - pose proof (hv_step_pred Running q Hat) as Hs.
    destruct (hv_predicate Running q);
      [destruct (Hsw (hv_goto HV_swap q)) as (q' & ? & ? & ?)|
       destruct (Hsl (hv_goto HV_sleepy q)) as (q' & ? & ? & ?)]; try done;
      (exists q'; split; [|done]; eapply rtc_l; [|done]; by apply hv_prompt_thread).
  - destruct (Hsl q) as (q' & ? & ? & ?); [done|]. by exists q'.
  - destruct (Hsw q) as (q' & ? & ? & ?); [done|]. by exists q'.
Qed.

Lemma unlock s :
  sys_inv s -> hv_live (shv s) ->
  exists q, rtc prompt_step s (with_hv q s) /\ hv_locked (hv_at q) = false /\ hv_live q.
Proof.
  intros Hi Hl. destruct (hv_unlocks (shv s)) as (q & Hr & Hk & Hlive).
  destruct (decide (hv_out s = [])) as [Ho|Ho]; [exists q; split; [by apply steps_hv|auto]|].
  destruct (si_running _ Hi Ho) as [n Hat]. exists (shv s).
  split_and!; [by destruct s|by rewrite Hat|done].
Qed.

(** The callable on the io thread gets its outputs posted. *)
Lemma io_flushes s :
  sys_inv s -> hv_live (shv s) ->
  exists s', rtc prompt_step s s' /\ io_out s' = [] /\ sio s' = sio s /\ log s' = log s /\
    dead s' = dead s /\ hv_live (shv s').
Proof.
  remember (io_out s) as os eqn:E. revert s E. induction os as [|o os IH]; intros s E Hi Hl.
  - by exists s.
  - destruct (unlock s Hi Hl) as (q & Hr & Hk & Hlq).
    pose proof (prompt_flush_heavy (with_hv q s) o os (eq_sym E) Hk) as Hf.
    assert (Hi' : sys_inv (with_hv q s)) by (by eapply steps_inv).
    match type of Hf with prompt_step _ ?s1 =>
      destruct (IH s1) as (s' & Hr' & ? & ? & ? & ? & ?);
        [done|by eapply sys_step_inv, prompt_sys|done|] end.
    exists s'. split_and!; try done. etrans; [done|]. by eapply rtc_l.
Qed.

(** The io tasks posted and not called yet. *)
Definition waiting (q : io_side (task I)) : list (task I) := io_rest q ++ io_buffer_queue_ q.

Lemma waiting_posted (q : io_side (task I)) :
  rtc io_any io_init q -> io_posted q = io_executed q ++ waiting q.
Proof. intros Hr. apply (io_tasks_fifo q Hr). Qed.

(** Quiet steps leave them as they are. *)
Lemma quiet_waiting (q q' : io_side (task I)) :
  rtc io_any io_init q -> rtc io_prompt q q' ->
  rtc io_any io_init q' /\ io_posted q' = io_posted q /\ io_executed q' = io_executed q /\
  waiting q' = waiting q.
Proof.
  intros Hq Hr%io_prompts. assert (H : rtc io_any io_init q' /\ io_posted q' = io_posted q /\
    io_executed q' = io_executed q).
  { revert Hq. induction Hr as [q|q q1 q2 (Ha & Hp & He) _ IH]; intros Hq; [done|].
    destruct IH as (? & ? & ?); [by eapply rtc_r|]. split_and!; [done|congruence..]. }
  destruct H as (Hq' & Hp & He). split_and!; try done.
  pose proof (waiting_posted q Hq) as H1. pose proof (waiting_posted q' Hq') as H2.
  rewrite Hp, He, H1 in H2. by apply app_inv_head in H2.
Qed.

Lemma run_io_frame t n evs s s' :
  run_io t n evs s = Ok s' ->
  sio s' = io_call t n evs (sio s) /\ shv s' = shv s /\ dead s' = dead s /\
  snd <$> log s' = (snd <$> log s) ++ (if decide (life ∈ dead s) then [] else own [t]).
Proof.
  unfold run_io. intros H.
  destruct t as [x|k]; [destruct (decide (life ∈ dead s))|]; inv_res; simpl; split_and!; try done.
  - by rewrite app_nil_r.
  - by rewrite fmap_app.
  - destruct (decide _); by rewrite app_nil_r.
Qed.

(** The io thread up to and through its next call. *)
Lemma io_calls_next t xs s :
  sys_inv s -> waiting (sio s) = t :: xs -> io_live (sio s) -> hv_live (shv s) ->
  (life ∉ dead s -> exists r, run_all svc_step ((snd <$> log s) ++ own [t]) svc_init = Ok r) ->
  exists s', rtc prompt_step s s' /\ waiting (sio s') = xs /\ io_live (sio s') /\ hv_live (shv s') /\
    io_posted (sio s') = io_posted (sio s) /\ dead s' = dead s /\
    snd <$> log s' = (snd <$> log s) ++ (if decide (life ∈ dead s) then [] else own [t]).
Proof.
  intros Hi Hw Hl Hh Hok.
  destruct (io_flushes s Hi Hh) as (s1 & Hr1 & Ho1 & Hio1 & Hlog1 & Hd1 & Hh1).
  pose proof (steps_inv _ _ Hi Hr1) as Hi1. pose proof (si_io _ Hi1) as Hrio.
  destruct (io_to_call (sio s1)) as (q & Hq & n & evs & t' & Hat & Hx);
    [by eapply io_reach_inv, Hrio; apply io_init_inv|by rewrite Hio1|by fold (waiting (sio s1));
      rewrite Hio1, Hw|].
  destruct (quiet_waiting _ _ Hrio Hq) as (Hrq & Hpq & Heq & Hwq).
  assert (waiting q = t' :: waiting (io_call t' n evs q)) as Hnext.
  { unfold waiting, io_rest. simpl. rewrite Hat. by rewrite (drop_S _ _ _ Hx). }
  rewrite Hwq, Hio1, Hw in Hnext. injection Hnext as <- Hrest.
  assert (Hi2 : sys_inv (with_io q s1)) by (eapply steps_inv; [done|by apply steps_io]).
  destruct (run_io_ok t n evs (with_io q s1) Hi2 Ho1) as [s' Hrun].
  { simpl. by rewrite Hlog1, Hd1. }
  destruct (run_io_frame _ _ _ _ _ Hrun) as (Hs & Hv & Hd & Hlog).
  cbn [sio shv dead log with_io] in Hs, Hv, Hd, Hlog.
  exists s'. rewrite Hs, Hv, Hd, Hd1, Hlog, Hlog1. split_and!; try done.
  - etrans; [done|]. etrans; [by apply steps_io|]. apply rtc_once.
    by eapply (prompt_call (with_io q s1)).
  - simpl. congruence.
  - by rewrite Hd1.
Qed.

(** The user's side: the heavy thread up to and through its next call. *)
Lemma hv_flushes s :
  sys_inv s ->
  exists s', rtc prompt_step s s' /\ hv_out s' = [] /\ shv s' = shv s /\ log s' = log s /\
    dead s' = dead s /\ io_out s' = io_out s.
Proof.
  remember (hv_out s) as xs eqn:E. revert s E. induction xs as [|x xs IH]; intros s E Hi.
  - by exists s.
  - pose proof (prompt_flush_io s x xs (eq_sym E)) as Hf.
    match type of Hf with prompt_step _ ?s1 =>
      destruct (IH s1) as (s' & Hr' & ? & ? & ? & ? & ?); [done|by eapply sys_step_inv, prompt_sys|] end.
    exists s'. split_and!; try done. by eapply rtc_l.
Qed.

Definition hv_waiting (q : hv_side (task O)) : list (task O) := hv_rest q ++ heavy_buffer_queue_ q.

Lemma hv_waiting_posted (q : hv_side (task O)) :
  rtc hv_any hv_init q -> hv_posted q = hv_executed q ++ hv_waiting q.
Proof. intros Hr. apply (heavy_tasks_fifo q Hr). Qed.

Lemma hv_quiet_waiting (q q' : hv_side (task O)) :
  rtc hv_any hv_init q -> rtc hv_prompt q q' ->
  rtc hv_any hv_init q' /\ hv_posted q' = hv_posted q /\ hv_executed q' = hv_executed q /\
  hv_waiting q' = hv_waiting q.
Proof.
  intros Hq Hr%hv_prompts. assert (H : rtc hv_any hv_init q' /\ hv_posted q' = hv_posted q /\
    hv_executed q' = hv_executed q).
  { revert Hq. induction Hr as [q|q q1 q2 (Ha & Hp & He) _ IH]; intros Hq; [done|].
    destruct IH as (? & ? & ?); [by eapply rtc_r|]. split_and!; [done|congruence..]. }
  destruct H as (Hq' & Hp & He). split_and!; try done.
  pose proof (hv_waiting_posted q Hq) as H1. pose proof (hv_waiting_posted q' Hq') as H2.
  rewrite Hp, He, H1 in H2. by apply app_inv_head in H2.
Qed.

Lemma run_heavy_frame t n s s' :
  run_heavy t n s = Ok s' ->
  shv s' = hv_call t n (shv s) /\ dead s' = dead s /\ log s' = log s /\ io_out s' = io_out s.
Proof.
  unfold run_heavy. intros H.
  by destruct t as [o|k]; [destruct (decide (svc_owner o ∈ dead s))|]; inv_res.
Qed.

Lemma heavy_calls_next t xs s :
  sys_inv s -> hv_waiting (shv s) = t :: xs -> hv_live (shv s) ->
  (forall cs, delivered (own (hv_posted (shv s)) ++ io_out s) cs ->
     exists r, run_all svc_heavy cs svc_world = Ok r) ->
  exists s', rtc prompt_step s s' /\ hv_waiting (shv s') = xs /\ hv_live (shv s') /\
    hv_posted (shv s') = hv_posted (shv s) /\ dead s' = dead s /\ log s' = log s /\ io_out s' = io_out s.
Proof.
  intros Hi Hw Hh Hok.
  destruct (hv_flushes s Hi) as (s1 & Hr1 & Ho1 & Hhv1 & Hlog1 & Hd1 & Hio1).
  pose proof (steps_inv _ _ Hi Hr1) as Hi1. pose proof (si_hv _ Hi1) as Hrhv.
  destruct (hv_to_call (shv s1)) as (q & Hq & n & t' & Hat & Hx);
    [by eapply hv_reach_inv, Hrhv; apply hv_init_inv|by rewrite Hhv1|
     by fold (hv_waiting (shv s1)); rewrite Hhv1, Hw|].
  destruct (hv_quiet_waiting _ _ Hrhv Hq) as (Hrq & Hpq & Heq & Hwq).
  assert (hv_waiting q = t' :: hv_waiting (hv_call t' n q)) as Hnext.
  { unfold hv_waiting, hv_rest. simpl. rewrite Hat. by rewrite (drop_S _ _ _ Hx). }
  rewrite Hwq, Hhv1, Hw in Hnext. injection Hnext as <- Hrest.
  assert (Hi2 : sys_inv (with_hv q s1)) by (eapply steps_inv; [done|by apply steps_hv]).
  destruct (run_heavy_ok t n (with_hv q s1) Hi2 Hat Hx) as [s' Hrun].
  { simpl. by rewrite Hpq, Hio1, Hhv1. }
  destruct (run_heavy_frame _ _ _ _ Hrun) as (Hs & Hd & Hlog & Hio).
  cbn [shv dead log with_hv io_out] in Hs, Hd, Hlog, Hio.
  exists s'. rewrite Hs, Hd, Hlog, Hio. split_and!; try done.
  - etrans; [done|]. etrans; [by apply steps_hv|]. apply rtc_once.
    by eapply (prompt_heavy (with_hv q s1)).
  - simpl. congruence.
Qed.

(** ** Schedules: the same steps as a function *)

Inductive move :=
| MPost (t : task I) | MWake | MNotify | MDie (k : nat)
| MStart | MEnter | MReportWake | MReportFd (fd mask : Z) | MDrain | MSwap | MClear | MEnd
| MCall | MEvent (xs : list I) | MFlushHeavy
| HStart | HEnter | HLock | HPred | HSleep | HSwap | HClear
| HCall | MFlushIo.

(** The quiet steps of the two threads. *)
Definition io_move (m : move) (q : io_side (task I)) : option (io_side (task I)) :=
  match m, io_at q with
  | MStart, IO_none | MStart, IO_done => Some (io_goto IO_check q)
  | MEnter, IO_check => Some (io_goto IO_wait q)
  | MReportWake, IO_wait =>
      if wake_ready q && (0 <? wake_count q) then Some (io_report [EvWake] q) else None
  | MReportFd fd mask, IO_wait => Some (io_report [EvFd fd mask] q)
  | MDrain, IO_batch (EvWake :: evs) => Some (io_drain evs q)
  | MSwap, IO_swap evs => Some (io_swap evs q)
  | MClear, IO_run n evs =>
      if decide (n = length (io_exe_queue_ q)) then Some (io_clear evs q) else None
  | MEnd, IO_batch [] => Some (io_goto IO_check q)
  | _, _ => None
  end.

Definition hv_move (m : move) (q : hv_side (task O)) : option (hv_side (task O)) :=
  match m, hv_at q with
  | HStart, HV_none | HStart, HV_done => Some (hv_goto HV_check q)
  | HEnter, HV_check => Some (hv_goto HV_lock q)
  | HLock, HV_lock => Some (hv_goto HV_pred q)
  | HPred, HV_pred => Some (hv_goto (if hv_predicate Running q then HV_swap else HV_sleepy) q)
  | HSleep, HV_sleepy => Some (hv_goto HV_sleep q)
  | HSwap, HV_swap => Some (hv_swap q)
  | HClear, HV_run n =>
      if decide (n = length (heavy_exe_queue_ q)) then Some (hv_clear q) else None
  | _, _ => None
  end.

Definition ok_of {A} (r : res A) : option A := match r with Ok a => Some a | _ => None end.

Definition do_move (m : move) (s : sys) : option sys :=
  match m with
  | MPost t => Some (with_io (io_push t (sio s)) s)
  | MWake =>
      if decide (0 < io_pending_wakes (sio s))%nat
      then Some (with_io (io_woke (wake_io_up (sio s))) s) else None
  | MNotify =>
      if decide (0 < hv_pending_notify (shv s))%nat
      then Some (with_hv (hv_notified (wake_heavy_up (shv s))) s) else None
  | MDie k =>
      Some (mk_sys (sio s) (shv s) (object s) (world s) ({[k]} ∪ dead s) (io_out s) (hv_out s)
              (log s) (called s) (back s))
  | MCall =>
      match io_out s, io_at (sio s) with
      | [], IO_run n evs => t ← io_exe_queue_ (sio s) !! n; ok_of (run_io t n evs s)
      | _, _ => None
      end
  | MEvent xs =>
      match io_out s, io_at (sio s) with
      | [], IO_batch (EvFd _ _ :: evs) =>
          if decide (life ∈ dead s) then None else ok_of (run_event xs evs s)
      | _, _ => None
      end
  | MFlushHeavy =>
      match io_out s, hv_locked (hv_at (shv s)) with
      | o :: os, false =>
          Some (mk_sys (sio s) (hv_push (Own o) (shv s)) (object s) (world s) (dead s) os (hv_out s)
                  (log s) (called s) (back s))
      | _, _ => None
      end
  | HCall =>
      match hv_out s, hv_at (shv s) with
      | [], HV_run n => t ← heavy_exe_queue_ (shv s) !! n; ok_of (run_heavy t n s)
      | _, _ => None
      end
  | MFlushIo =>
      match hv_out s with
      | x :: xs =>
          Some (mk_sys (io_push (Own x) (sio s)) (shv s) (object s) (world s) (dead s) (io_out s) xs
                  (log s) (called s) (back s ++ [x]))
      | [] => None
      end
  | HStart | HEnter | HLock | HPred | HSleep | HSwap | HClear =>
      match hv_out s with [] => (fun q => with_hv q s) <$> hv_move m (shv s) | _ => None end
  | _ => match io_out s with [] => (fun q => with_io q s) <$> io_move m (sio s) | _ => None end
  end.

Lemma io_move_quiet m q q' : io_move m q = Some q' -> io_quiet q q'.
Proof.
  assert (Hf : forall fd mask, io_at q = IO_wait -> reportable [EvFd fd mask] q).
  { intros fd mask Hat. split_and!; [done|vm_compute; discriminate|set_solver|].
    intros [|? []] ? [=]. }
  intros H. unfold io_move in H. destruct m, (io_at q) as [| | |[|[|fd' mask'] evs]|evs|n evs| |] eqn:Hat;
    try done; repeat case_decide; try (destruct (wake_ready q && (0 <? wake_count q)) eqn:Hw; [|done]);
    simplify_eq; try (split; [right; by auto|done]);
    try (apply (io_quiet_step Running); [|done..]; by constructor).
  - apply (io_quiet_step Running); [|done..]. apply io_step_report; [done|].
    apply andb_true_iff in Hw as [Hw Hc%Z.ltb_lt]. split_and!; [done|vm_compute; discriminate|done|].
    intros [|? []] ? [=]; subst. set_solver.
  - apply (io_quiet_step Running); [|done..]. apply io_step_report; auto.
  - apply (io_quiet_step Running); [|done..]. by apply (io_step_clear _ (length (io_exe_queue_ q))).
Qed.

Lemma hv_quiet_thread (q q' : hv_side (task O)) :
  hv_thread Running q q' -> hv_posted q' = hv_posted q -> hv_executed q' = hv_executed q -> hv_quiet q q'.
Proof. intros. split; [left; exists Running; by apply hv_step_thread|done]. Qed.

Lemma hv_move_quiet m q q' : hv_move m q = Some q' -> hv_quiet q q'.
Proof.
  intros H. unfold hv_move in H. destruct m, (hv_at q) as [| | | | | | |n|] eqn:Hat; try done;
    repeat case_decide; simplify_eq; try (split; [right; by auto|done]);
    apply hv_quiet_thread; try done; try by constructor.
  by apply (hv_step_clear _ (length (heavy_exe_queue_ q))).
Qed.

Lemma ok_of_Ok {A} (r : res A) a : ok_of r = Some a -> r = Ok a.
Proof. destruct r; simpl; congruence. Qed.

Definition move_ok (m : move) : Prop := match m with MEvent xs => Forall svc_event xs | _ => True end.

Lemma do_move_step m s s' : move_ok m -> do_move m s = Some s' -> sys_step s s'.
Proof.
  assert (Hio : io_out s = [] -> forall q, io_move m (sio s) = Some q -> sys_step s (with_io q s)).
  { intros Ho q Hq%io_move_quiet. by apply sys_io. }
  assert (Hhv : hv_out s = [] -> forall q, hv_move m (shv s) = Some q -> sys_step s (with_hv q s)).
  { intros Ho q Hq%hv_move_quiet. by apply sys_hv. }
  intros Hm H. destruct m; simpl in H; repeat case_decide; simplify_eq; try by constructor.
  all: try (destruct (io_out s) eqn:Ho; [|done]; apply fmap_Some in H as (q & Hq & ->); by apply Hio).
  all: try (destruct (hv_out s) eqn:Ho; [|done]; apply fmap_Some in H as (q & Hq & ->); by apply Hhv).
  - destruct (io_out s) eqn:Ho; [|done]. destruct (io_at (sio s)) eqn:Hat; try done.
    apply bind_Some in H as (t & Ht & H%ok_of_Ok). by eapply sys_call.
  - destruct (io_out s) eqn:Ho; [|done].
    by destruct (io_at (sio s)) as [| | |[|[|fd mask] evs]| | | |].
  - destruct (io_out s) eqn:Ho; [|done].
    destruct (io_at (sio s)) as [| | |[|[|fd mask] evs]| | | |] eqn:Hat; try done.
    apply ok_of_Ok in H. by eapply sys_event.
  - destruct (io_out s) as [|o os] eqn:Ho; [done|]. destruct (hv_locked _) eqn:Hl; [done|].
    simplify_eq. by apply sys_flush_heavy.
  - destruct (hv_out s) eqn:Ho; [|done]. destruct (hv_at (shv s)) eqn:Hat; try done.
    apply bind_Some in H as (t & Ht & H%ok_of_Ok). by eapply sys_heavy.
  - destruct (hv_out s) as [|x xs] eqn:Ho; [done|]. simplify_eq. by apply sys_flush_io.
Qed.

Fixpoint run_moves (ms : list move) (s : sys) : option sys :=
  match ms with
  | [] => Some s
  | m :: ms' => s1 ← do_move m s; run_moves ms' s1
  end.

(** A schedule that works out is a run. *)
Lemma run_moves_steps ms s s' : Forall move_ok ms -> run_moves ms s = Some s' -> rtc sys_step s s'.
Proof.
  intros Hms. revert s. induction Hms as [|m ms Hm _ IH]; intros s H; simpl in H; [by simplify_eq|].
  apply bind_Some in H as (s1 & H1 & H). eapply rtc_l; [by eapply do_move_step|]. by apply IH.
Qed.

Lemma run_moves_reach ms d :
  Forall move_ok ms -> bool_decide (is_Some (run_moves ms sys_init)) = true ->
  reachable (default d (run_moves ms sys_init)).
Proof.
  intros Hms [s Hs]%bool_decide_eq_true. rewrite Hs. simpl. by eapply run_moves_steps.
Qed.

(** ** The end of a life *)

Record frozen (s s' : sys) : Prop := {
  fz_dead : dead s ⊆ dead s';
  fz_object : life ∈ dead s -> object s' = object s /\ log s' = log s;
  fz_called k : k ∈ dead s -> of_owner k (called s') = of_owner k (called s)
}.

Lemma frozen_refl s : frozen s s.
Proof. by split. Qed.

Lemma frozen_trans s1 s2 s3 : frozen s1 s2 -> frozen s2 s3 -> frozen s1 s3.
Proof.
  intros [Hd Ho Hc] [Hd' Ho' Hc']. split; [by etrans| |].
  - intros Hl. destruct (Ho Hl) as [<- <-]. by apply Ho', Hd.
  - intros k Hk. rewrite Hc' by (by apply Hd). by apply Hc.
Qed.

Lemma sys_step_frozen s s' : sys_step s s' -> frozen s s'.
Proof.
  intros Hs. destruct Hs as [t|k Hl|Hw|Hw|q Ho Hq|q Ho Hq|t n evs s' Ho Hat Hx Hrun
    |fd mask xs evs s' Ho Hat Hlf Hxs Hrun|o os Ho Hl|t n s' Ho Hat Hx Hrun|x xs Ho|k]; try done.
  - unfold run_io in Hrun. destruct t as [x|k]; [destruct (decide _)|]; inv_res; by split.
  - unfold run_event in Hrun. inv_res. by split.
  - unfold run_heavy in Hrun. destruct t as [o|k]; [destruct (decide _) as [|Hk]|]; inv_res; try done.
    split; [done|done|]. intros k Hd. simpl. rewrite of_owner_snoc, decide_False by congruence.
    by rewrite app_nil_r.
  - split; [simpl; set_solver|done|done].
Qed.

Lemma steps_frozen s s' : rtc sys_step s s' -> frozen s s'.
Proof. induction 1; [apply frozen_refl|]. eapply frozen_trans; [by apply sys_step_frozen|done]. Qed.

(** ** The theorems *)

Notation inputs s := (snd <$> log s).

(** What a client needs of it: the run of the object, and what its user got. *)
Lemma reachable_log s :
  reachable s ->
  exists outs, run_all svc_step (inputs s) svc_init = Ok (object s, outs) /\
    tasks (log s) `prefix_of` own (io_posted (sio s)) /\
    Forall (fun e => e.1 = false -> svc_event e.2) (log s) /\
    delivered outs (called s) /\
    run_all svc_heavy (called s) svc_world = Ok (world s, back s ++ hv_out s).
Proof.
  intros [Hio Hhv Hrun Hev [Ht _] Hc Hd _ _ _]%sys_reach_inv.
  eexists. split_and!; [exact Hrun| |done| |done].
  - etrans; [done|]. apply own_prefix. apply (io_tasks_fifo _ Hio).
  - eapply delivered_prefix, Hd. etrans; [|by apply prefix_app_r].
    apply own_prefix. apply (heavy_tasks_fifo _ Hhv).
Qed.

(** No call leaves defined behaviour, when the object and its user do not on what
    they are given. *)
Lemma reachable_heavy s t n :
  reachable s -> hv_at (shv s) = HV_run n -> heavy_exe_queue_ (shv s) !! n = Some t ->
  (forall outs cs, run_all svc_step (inputs s) svc_init = Ok (object s, outs) -> delivered outs cs ->
     exists r, run_all svc_heavy cs svc_world = Ok r) ->
  exists s', run_heavy t n s = Ok s'.
Proof.
  intros Hr%sys_reach_inv Hat Hx Hok. eapply run_heavy_ok; [done..|]. intros cs. by apply Hok, si_replay.
Qed.

Lemma reachable_io s t n evs :
  reachable s -> io_out s = [] ->
  (life ∉ dead s -> exists r, run_all svc_step (inputs s ++ own [t]) svc_init = Ok r) ->
  exists s', run_io t n evs s = Ok s'.
Proof. intros Hr%sys_reach_inv. by apply run_io_ok. Qed.

Lemma reachable_event s xs evs :
  reachable s -> (exists r, run_all svc_step (inputs s ++ xs) svc_init = Ok r) ->
  exists s', run_event xs evs s = Ok s'.
Proof.
  intros Hr%sys_reach_inv [r H]. unfold run_event. rewrite run_all_app, (si_replay _ Hr) in H.
  cbn [mbind res_bind fst snd] in H. destruct (run_all svc_step xs (object s)) as [r'| |]; [|done..].
  by eexists.
Qed.

Context {SL : ServiceLaws}.

Lemma io_runs_all xs s :
  sys_inv s -> waiting (sio s) = xs -> io_live (sio s) -> hv_live (shv s) ->
  inputs_ok (inputs s) -> (life ∉ dead s -> inputs_ok (inputs s ++ own xs)) ->
  exists s', rtc prompt_step s s' /\ waiting (sio s') = [] /\ io_out s' = [] /\ hv_live (shv s') /\
    io_posted (sio s') = io_posted (sio s) /\ dead s' = dead s /\ inputs_ok (inputs s').
Proof.
  revert s. induction xs as [|t xs IH]; intros s Hi Hw Hl Hh Hin Hok.
  - destruct (io_flushes s Hi Hh) as (s' & Hr & Ho & Hio & Hlog & Hd & Hh'). exists s'.
    by rewrite Hio, Hlog.
  - change (t :: xs) with ([t] ++ xs) in Hok. rewrite own_app, app_assoc in Hok.
    destruct (io_calls_next t xs s Hi Hw Hl Hh) as (s1 & Hr & Hw1 & Hl1 & Hh1 & Hp1 & Hd1 & Hlog1).
    { intros Hk. by apply svc_step_ok, (inputs_ok_app _ (own xs)), Hok. }
    destruct (IH s1) as (s' & Hr' & ? & ? & ? & ? & ? & ?);
      [by eapply steps_inv|done|done|done| | |exists s'; split_and!; try done; [by etrans|congruence..]];
      rewrite Hlog1, ?Hd1.
    + destruct (decide _); [by rewrite app_nil_r|]. by apply (inputs_ok_app _ (own xs)), Hok.
    + intros Hk. rewrite decide_False by done. by apply Hok.
Qed.

Lemma heavy_runs_all xs s :
  sys_inv s -> hv_waiting (shv s) = xs -> hv_live (shv s) -> inputs_ok (inputs s) ->
  exists s', rtc prompt_step s s' /\ hv_waiting (shv s') = [] /\
    hv_posted (shv s') = hv_posted (shv s) /\ dead s' = dead s /\ log s' = log s /\
    io_out s' = io_out s.
Proof.
  revert s. induction xs as [|t xs IH]; intros s Hi Hw Hh Hin; [by exists s|].
  destruct (heavy_calls_next t xs s Hi Hw Hh) as (s1 & Hr & Hw1 & Hh1 & Hp1 & Hd1 & Hlog1 & Hio1).
  { intros cs. by eapply svc_heavy_ok, si_replay. }
  destruct (IH s1) as (s' & Hr' & ? & ? & ? & ? & ?);
    [by eapply steps_inv|done|done|by rewrite Hlog1|].
  exists s'. split_and!; [by etrans|done|congruence..].
Qed.

Lemma reachable_runs s :
  reachable s ->
  exists outs, run_all svc_step (inputs s) svc_init = Ok (object s, outs) /\
    tasks (log s) `prefix_of` own (io_posted (sio s)) /\
    Forall (fun e => e.1 = false -> svc_event e.2) (log s) /\
    delivered outs (called s) /\
    run_all svc_heavy (called s) svc_world = Ok (world s, back s ++ hv_out s) /\
    (forall t n, inputs_ok (inputs s) -> hv_at (shv s) = HV_run n ->
       heavy_exe_queue_ (shv s) !! n = Some t -> exists s', run_heavy t n s = Ok s') /\
    (forall s', rtc sys_step s s' -> frozen s s').
Proof.
  intros Hr. destruct (reachable_log s Hr) as (outs & ? & ? & ? & ? & ?). exists outs.
  split_and!; try done; [|apply steps_frozen].
  intros t n Hin Hat Hx. eapply reachable_heavy; [done..|]. intros outs' cs. by apply svc_heavy_ok.
Qed.

(** C5: an object on a loop, whatever the threads that post to it, the kernel,
    the io and the heavy thread do, in any interleaving: its state is the one a
    run by itself has on what it was given, its tasks in the order they were
    posted and its callbacks in between; its user is called with the outputs of
    that run, for each owner the first ones in their order, each once; what the
    user's functions post goes back in their order; no call leaves defined
    behaviour; and once a life has ended nothing happens to its object, and no
    output reaches its owner, any more. *)
Theorem executors_sound s :
  reachable s ->
  exists outs, run_all svc_step (inputs s) svc_init = Ok (object s, outs) /\
    tasks (log s) `prefix_of` own (io_posted (sio s)) /\
    Forall (fun e => e.1 = false -> svc_event e.2) (log s) /\
    delivered outs (called s) /\
    run_all svc_heavy (called s) svc_world = Ok (world s, back s ++ hv_out s) /\
    back s `sublist_of` own (io_posted (sio s)) /\
    (forall t n evs, io_out s = [] -> (life ∉ dead s -> inputs_ok (inputs s ++ own [t])) ->
       exists s', run_io t n evs s = Ok s') /\
    (forall t n, inputs_ok (inputs s) -> hv_at (shv s) = HV_run n ->
       heavy_exe_queue_ (shv s) !! n = Some t -> exists s', run_heavy t n s = Ok s') /\
    (forall s', rtc sys_step s s' -> frozen s s').
Proof.
  intros Hr. destruct (reachable_runs s Hr) as (outs & ? & ? & ? & ? & ? & ? & ?).
  apply sys_reach_inv in Hr. pose proof (si_back _ Hr).
  exists outs. split_and!; try done.
  intros t n evs Ho Hok. apply run_io_ok; [done|done|]. intros Hk. by apply svc_step_ok, Hok.
Qed.

(** C6: nothing is left behind: from every reachable state in which both threads
    run, and for inputs the object is meant for, the threads can go on by
    themselves to a state in which a living object has seen every task posted to it
    so far, and every living owner has been called with all outputs.  "By
    themselves": the steps are those of the two threads, and the [write]s and
    [notify_one]s that posters still owe; nothing is posted from outside, no call
    is interrupted and no wait wakes up spuriously. *)
Theorem executors_progress s :
  reachable s -> io_live (sio s) -> hv_live (shv s) -> life ∉ dead s ->
  inputs_ok (inputs s ++ own (waiting (sio s))) ->
  exists s' outs, rtc prompt_step s s' /\ dead s' = dead s /\
    own (io_posted (sio s)) `prefix_of` tasks (log s') /\
    run_all svc_step (inputs s') svc_init = Ok (object s', outs) /\
    (forall k, k ∉ dead s -> of_owner k (called s') = of_owner k outs).
Proof.
  intros Hr%sys_reach_inv Hl Hh Hk Hok.
  destruct (io_runs_all _ s Hr eq_refl Hl Hh) as (s1 & Hr1 & Hw1 & Ho1 & Hh1 & Hp1 & Hd1 & Hin1);
    [by eapply inputs_ok_app|done|].
  pose proof (steps_inv _ _ Hr Hr1) as Hi1.
  destruct (heavy_runs_all _ s1 Hi1 eq_refl Hh1 Hin1) as (s2 & Hr2 & Hw2 & Hp2 & Hd2 & Hlog2 & Ho2).
  pose proof (steps_inv _ _ Hi1 Hr2) as [_ Hhv2 Hrun2 _ _ _ _ Ha2 _ _].
  destruct Hi1 as [Hio1 _ _ _ [_ Ht1] _ _ _ _ _].
  exists s2, (own (hv_posted (shv s2)) ++ io_out s2). split_and!; [by etrans|congruence| |done|].
  - rewrite Hlog2, Ht1 by congruence. rewrite <- Hp1, (waiting_posted _ Hio1), Hw1. by rewrite app_nil_r.
  - intros k Hkk. rewrite Ha2 by congruence. rewrite (hv_waiting_posted _ Hhv2), Hw2, Ho2, Ho1.
    by rewrite !app_nil_r.
Qed.
End steps.
End executors.
Arguments sys : clear implicits.
Arguments move : clear implicits.

(** ** Witnesses: an object that keeps what it gets and passes it on *)

(** Its user answers 1 with 11. *)
#[local] Instance keeper : Service (list nat) nat nat (list nat) := {|
  svc_init := [];
  svc_world := [];
  svc_step x st := Ok (st ++ [x], [x]);
  svc_event x := x = 7%nat;
  svc_heavy o w := Ok (w ++ [o], if decide (o = 1%nat) then [11%nat] else []);
  svc_owner _ := 0%nat
|}.

#[local] Instance keeper_laws : ServiceLaws (St := list nat) (W := list nat).
Proof.
  refine {| inputs_ok _ := True |}; try done.
  - intros xs _. apply run_all_total. intros x st. by eexists.
  - intros xs st os cs _ _ _. apply run_all_total. intros o w. by eexists.
Defined.

(** 1 is posted, an event brings 7, another thread posts between the outputs, the
    user has been called with 7. *)
Definition demo_moves : list (move nat) :=
  [MStart; HStart; MPost (Own 1%nat); MEnter; MReportFd 5 1; MEvent [7%nat]; MPost (Other 3);
   MFlushHeavy; MEnd; MWake; HEnter; HLock; HPred; HSwap; HCall; MEnter; MReportWake; MDrain; MSwap;
   MCall; MPost (Own 2%nat)].

Definition demo_sys : sys (list nat) nat nat (list nat) :=
  default sys_init (run_moves 0 demo_moves sys_init).

Example demo_sys_object : object demo_sys = [7;
  1]%nat /\ world demo_sys = [7%nat] /\ io_out demo_sys = [1%nat].
Proof. vm_compute. done. Qed.

Lemma demo_sys_reachable : reachable 0 demo_sys.
Proof. apply run_moves_reach; [by repeat constructor|]. vm_compute. reflexivity. Qed.

Lemma executors_sound_witness :
  exists outs, run_all svc_step (snd <$> log demo_sys) svc_init = Ok (object demo_sys, outs) /\
    tasks (log demo_sys) `prefix_of` own (io_posted (sio demo_sys)) /\
    Forall (fun e => e.1 = false -> svc_event e.2) (log demo_sys) /\
    delivered outs (called demo_sys) /\
    run_all svc_heavy (called demo_sys) svc_world = Ok (world demo_sys, back demo_sys ++ hv_out demo_sys) /\
    back demo_sys `sublist_of` own (io_posted (sio demo_sys)) /\
    (forall t n evs, io_out demo_sys = [] ->
       (0%nat ∉ dead demo_sys -> inputs_ok ((snd <$> log demo_sys) ++ own [t])) ->
       exists s', run_io 0 t n evs demo_sys = Ok s') /\
    (forall t n, inputs_ok (snd <$> log demo_sys) -> hv_at (shv demo_sys) = HV_run n ->
       heavy_exe_queue_ (shv demo_sys) !! n = Some t -> exists s', run_heavy t n demo_sys = Ok s') /\
    (forall s', rtc (sys_step 0) demo_sys s' -> frozen 0 demo_sys s').
Proof. apply (executors_sound 0 demo_sys), demo_sys_reachable. Defined.

Lemma executors_progress_witness :
  exists s' outs, rtc (prompt_step 0) demo_sys s' /\ dead s' = dead demo_sys /\
    own (io_posted (sio demo_sys)) `prefix_of` tasks (log s') /\
    run_all svc_step (snd <$> log s') svc_init = Ok (object s', outs) /\
    (forall k, k ∉ dead demo_sys -> of_owner k (called s') = of_owner k outs).
Proof.
  apply (executors_progress 0 demo_sys demo_sys_reachable).
  - vm_compute. exact I.
  - vm_compute. exact I.
  - assert (dead demo_sys = ∅) as -> by (vm_compute; reflexivity). set_solver.
  - exact I.
Defined.
