(* ===== verification/InetAddr.v ===== *)
(** * InetAddr: socket addresses

    Models [InetAddr] of [src/net/inet.cpp] down to the bytes of its
    [sockaddr_storage] (128 bytes, host little-endian): comparison, hash, the
    factories and the accessors.  [inet_pton], [inet_ntop] and the two
    [std::hash] specialisations that read more than the field itself are
    services of the C library; the theorems rely only on the laws of
    [AddrLaws]. *)

From S2P Require Import Prelude.

Definition AF_UNIX : Z := 1.
Definition AF_INET : Z := 2.
Definition AF_INET6 : Z := 10.

(** Layout of the C structures ([sizeof] and [offsetof]). *)
Definition sizeof_storage : Z := 128.
Definition sizeof_in : Z := 16.
Definition sizeof_in6 : Z := 28.
Definition sizeof_un : Z := 110.
Definition sizeof_sun_path : Z := 108.
Definition offset_port : Z := 2.
Definition offset_addr4 : Z := 4.
Definition offset_addr6 : Z := 8.
Definition offset_scope : Z := 24.
Definition base : Z := 2.

(** Little-endian fields of a byte vector. *)
Definition le16 (n : Z) : list byte := [n mod 256; n / 256].
Definition le32 (n : Z) : list byte :=
  [n mod 256; n / 256 mod 256; n / 65536 mod 256; n / 16777216].
Definition get_byte (i : Z) (l : list byte) : Z := default 0 (l !! Z.to_nat i).
Definition get16 (i : Z) (l : list byte) : Z := get_byte i l + 256 * get_byte (i + 1) l.
Definition get32 (i : Z) (l : list byte) : Z :=
  get16 i l + 65536 * get16 (i + 2) l.

(** [htons] and [ntohs] on a little-endian host. *)
Definition htons (p : Z) : Z := p / 256 + 256 * (p mod 256).
Definition ntohs (p : Z) : Z := htons p.

(** [s.c_str()] as the C library reads it: up to the first NUL. *)
Fixpoint c_str (s : list byte) : list byte :=
  match s with
  | [] => []
  | c :: s' => if c =? 0 then [] else c :: c_str s'
  end.

(** [while (!s.empty() && s.back() == '\0') s.pop_back();] *)
Fixpoint strip_zeros (s : list byte) : list byte :=
  match s with
  | [] => []
  | c :: s' =>
      match strip_zeros s' with
      | [] => if c =? 0 then [] else [c]
      | r => c :: r
      end
  end.

Record inet_addr := mk_addr {
  addr_storage_ : list byte;
  socklen_ : Z
}.

(** [inet_pton]: 1 with the address bytes, 0 or -1. *)
Inductive pton_result := PtonOk (bytes : list byte) | PtonInvalid | PtonError (err : Z).

Class AddrServices := {
  inet_pton : Z -> list byte -> pton_result;
  inet_ntop : Z -> list byte -> option (list byte);
  (** [std::hash<uint16_t>], [std::hash<uint32_t>], [std::hash<std::string_view>] *)
  hash16 : Z -> Z;
  hash32 : Z -> Z;
  hash_view : list byte -> Z
}.

Class AddrLaws `{AddrServices} := {
  (** the presentation formats denote 4 and 16 bytes *)
  pton4 s b : inet_pton AF_INET s = PtonOk b -> zlen b = 4 /\ Forall (in_u 8) b;
  pton6 s b : inet_pton AF_INET6 s = PtonOk b -> zlen b = 16 /\ Forall (in_u 8) b
}.

Section addr.
Context `{AddrServices}.

Definition family (a : inet_addr) : Z := get16 0 (addr_storage_ a).
Definition sun_path (a : inet_addr) : list byte := slice base sizeof_un (addr_storage_ a).

(** [memcmp(x, y, n) == 0] *)
Definition memeq (n : Z) (x y : list byte) : bool := bool_decide (ztake n x = ztake n y).

Definition addr_eq (a b : inet_addr) : bool :=
  if negb (family a =? family b) then false
  else
    let sa := addr_storage_ a in let sb := addr_storage_ b in
    if family a =? AF_INET then
      (get16 offset_port sa =? get16 offset_port sb) &&
      (get32 offset_addr4 sa =? get32 offset_addr4 sb)
    else if family a =? AF_INET6 then
      (get16 offset_port sa =? get16 offset_port sb) &&
      memeq 16 (zdrop offset_addr6 sa) (zdrop offset_addr6 sb)
    else if family a =? AF_UNIX then
      if negb (socklen_ a =? socklen_ b) then false
      else if socklen_ a <=? base then false
      else memeq (socklen_ a - base) (zdrop base sa) (zdrop base sb)
    else false.

Definition addr_ne (a b : inet_addr) : bool := negb (addr_eq a b).

(** [seed ^= v + 0x9e3779b9 + (seed << 6) + (seed >> 2)] on [size_t] *)
Definition hash_combine (seed v : Z) : Z :=
  Z.lxor seed (u64 (v + 0x9e3779b9 + u64 (Z.shiftl seed 6) + Z.shiftr seed 2)).

Definition hash (a : inet_addr) : Z :=
  let s := addr_storage_ a in
  let seed := hash_combine 0 (hash16 (family a)) in
  if family a =? AF_INET then
    hash_combine (hash_combine seed (hash32 (get32 offset_addr4 s))) (hash16 (get16 offset_port s))
  else if family a =? AF_INET6 then
    hash_combine (hash_combine seed (hash_view (slice offset_addr6 (offset_addr6 + 16) s)))
      (hash16 (get16 offset_port s))
  else if family a =? AF_UNIX then
    if base <? socklen_ a
    then hash_combine seed (hash_view (slice base (socklen_ a) s))
    else seed
  else 0.

(** The value-initialised storage. *)
Definition zero_storage : list byte := replicate (Z.to_nat sizeof_storage) 0.

Definition make_ipv4 (ip : list byte) (port : Z) : option inet_addr :=
  match inet_pton AF_INET (c_str ip) with
  | PtonInvalid | PtonError _ => None
  | PtonOk b =>
      let s := write_at offset_addr4 b zero_storage in
      let s := write_at 0 (le16 AF_INET) s in
      let s := write_at offset_port (le16 (htons port)) s in
      Some (mk_addr s sizeof_in)
  end.

Definition make_ipv6 (ip : list byte) (port scope_id : Z) : option inet_addr :=
  match inet_pton AF_INET6 (c_str ip) with
  | PtonInvalid | PtonError _ => None
  | PtonOk b =>
      let s := write_at offset_addr6 b zero_storage in
      let s := write_at 0 (le16 AF_INET6) s in
      let s := write_at offset_port (le16 (htons port)) s in
      let s := write_at offset_scope (le32 scope_id) s in
      Some (mk_addr s sizeof_in6)
  end.

Definition make_unix (path : list byte) : option inet_addr :=
  if bool_decide (0 ∈ path) then None
  else if bool_decide (path = []) then None
  else if sizeof_sun_path <? zlen path + 1 then None
  else
    let s := write_at 0 (le16 AF_UNIX) zero_storage in
    let s := write_at base path s in
    let s := write_at (base + zlen path) [0] s in
    Some (mk_addr s (base + zlen path + 1)).

Definition make_abstract (name : list byte) : option inet_addr :=
  if bool_decide (0 ∈ name) then None
  else if bool_decide (name = []) then None
  else if sizeof_sun_path <? zlen name + 1 then None
  else
    let s := write_at 0 (le16 AF_UNIX) zero_storage in
    let s := write_at base [0] s in
    let s := write_at (base + 1) name s in
    Some (mk_addr s (base + 1 + zlen name)).

(** [addr] is the memory behind the pointer ([None]: the null pointer), at
    least as long as the structure its family announces. *)
Definition make_from_sockaddr (addr : option (list byte)) (len : Z) : option inet_addr :=
  match addr with
  | None => None
  | Some m =>
      if get16 0 m =? AF_INET then
        if len <? sizeof_in then None
        else Some (mk_addr (write_at 0 (slice 0 sizeof_in m) zero_storage) sizeof_in)
      else if get16 0 m =? AF_INET6 then
        if len <? sizeof_in6 then None
        else Some (mk_addr (write_at 0 (slice 0 sizeof_in6 m) zero_storage) sizeof_in6)
      else if get16 0 m =? AF_UNIX then
        if (len <=? base) || (sizeof_un <? len) then None
        else
          let sun_len := len - base in
          let path := zdrop base m in
          if get_byte 0 path =? 0
          then make_abstract (strip_zeros (slice 1 sun_len path))
          else make_unix (strip_zeros (slice 0 sun_len path))
      else None
  end.

Definition get_sockaddr (a : inet_addr) : list byte := addr_storage_ a.
Definition get_socklen (a : inet_addr) : Z := socklen_ a.

Definition get_ip_or_path (a : inet_addr) : list byte :=
  let s := addr_storage_ a in
  if family a =? AF_INET then
    default [] (c_str <$> inet_ntop AF_INET (slice offset_addr4 (offset_addr4 + 4) s))
  else if family a =? AF_INET6 then
    default [] (c_str <$> inet_ntop AF_INET6 (slice offset_addr6 (offset_addr6 + 16) s))
  else if family a =? AF_UNIX then
    if socklen_ a <=? base then []
    else
      let sun_len := socklen_ a - base in
      if get_byte base s =? 0
      then 64 :: slice (base + 1) (base + sun_len) s
      else c_str (zdrop base s)
  else [].

Definition get_port (a : inet_addr) : Z :=
  if family a =? AF_INET then ntohs (get16 offset_port (addr_storage_ a))
  else if family a =? AF_INET6 then ntohs (get16 offset_port (addr_storage_ a))
  else 0.
End addr.

(** ** Equality and hash

    [addr_eq] compares a key: the family and what identifies an endpoint of
    that family.  An address without a key (unknown family, unnamed unix
    address) is equal to nothing. *)

Section equality.
Context `{AddrServices}.
Implicit Types a b c : inet_addr.

Definition addr_key a : option (Z * Z * list Z) :=
  let s := addr_storage_ a in
  if family a =? AF_INET then Some (AF_INET, get16 offset_port s, [get32 offset_addr4 s])
  else if family a =? AF_INET6 then
    Some (AF_INET6, get16 offset_port s, slice offset_addr6 (offset_addr6 + 16) s)
  else if family a =? AF_UNIX then
    if socklen_ a <=? base then None else Some (AF_UNIX, socklen_ a, slice base (socklen_ a) s)
  else None.

Lemma memeq_spec n (x y : list byte) : memeq n x y = true <-> ztake n x = ztake n y.
Proof. unfold memeq. by rewrite bool_decide_eq_true. Qed.

Lemma addr_eq_key a b :
  addr_eq a b = true <-> exists k, addr_key a = Some k /\ addr_key b = Some k.
Proof.
  unfold addr_eq, addr_key. destruct (Z.eqb_spec (family a) (family b)) as [<-|Hne]; simpl; cycle 1.
  { split; [done|]. intros (k & Ha & Hb).
    repeat case_match; simplify_eq; repeat match goal with H : (_ =? _) = true |- _ =>
      apply Z.eqb_eq in H end; congruence. }
  destruct (family a =? AF_INET).
  { rewrite andb_true_iff, !Z.eqb_eq. split.
    - intros [-> ->]. eauto.
    - intros (k & Ha & Hb). by simplify_eq. }
  destruct (family a =? AF_INET6).
  { rewrite andb_true_iff, Z.eqb_eq, memeq_spec. unfold slice.
    change (offset_addr6 + 16 - offset_addr6) with 16. split.
    - intros [-> ->]. eauto.
    - intros (k & Ha & Hb). by simplify_eq. }
  destruct (family a =? AF_UNIX); [|split; [done | naive_solver]].
  destruct (Z.eqb_spec (socklen_ a) (socklen_ b)) as [<-|Hne]; simpl; cycle 1.
  { split; [done|]. intros (k & Ha & Hb). repeat case_match; simplify_eq. }
  destruct (socklen_ a <=? base); [split; [done | naive_solver]|].
  rewrite memeq_spec. unfold slice. split.
  - intros ->. eauto.
  - intros (k & Ha & Hb). by simplify_eq.
Qed.

(** The hash is a function of the key. *)
Lemma hash_key a b k : addr_key a = Some k -> addr_key b = Some k -> hash a = hash b.
Proof.
  unfold addr_key, hash. intros Ha Hb.
  destruct (Z.eqb_spec (family a) AF_INET) as [Ea|]; [|destruct (Z.eqb_spec (family a) AF_INET6) as [Ea|];
    [|destruct (Z.eqb_spec (family a) AF_UNIX) as [Ea|]; [|done]]];
  (destruct (Z.eqb_spec (family b) AF_INET) as [Eb|]; [|destruct (Z.eqb_spec (family b) AF_INET6) as [Eb|];
    [|destruct (Z.eqb_spec (family b) AF_UNIX) as [Eb|]; [|done]]]);
  repeat case_match; simplify_eq; try lia; rewrite Ea, Eb; try congruence.
Qed.

(** C25: what [std::unordered_map<InetAddr, ...>] relies on: on the addresses
    that name an endpoint, [==] is an equivalence, it never identifies an
    address with an unnamed one, and equal addresses have equal hashes. *)
Theorem addr_eq_hash a b c :
  (addr_eq a a = true <-> addr_key a <> None) /\
  addr_eq a b = addr_eq b a /\
  (addr_eq a b = true -> hash a = hash b) /\
  (addr_eq a b = true -> addr_eq b c = true -> addr_eq a c = true).
Proof.
  split_and!.
  - rewrite addr_eq_key. split; [naive_solver|].
    destruct (addr_key a) as [k|]; [eauto | done].
  - apply eq_true_iff_eq. rewrite !addr_eq_key. naive_solver.
  - intros (k & Ha & Hb)%addr_eq_key. by eapply hash_key.
  - rewrite !addr_eq_key. intros (k & Ha & Hb) (k' & Hb' & Hc). exists k. naive_solver.
Qed.
End equality.

(** ** Shapes of the addresses the factories build *)

Section shapes.
Context `{AS : AddrServices, AL : !AddrLaws}.

(** The bytes written so far, then the zeros of the value-initialised storage. *)
Definition padded (p : list byte) : list byte := p ++ replicate (Z.to_nat (sizeof_storage - zlen p)) 0.

Lemma zero_storage_padded : zero_storage = padded [].
Proof. done. Qed.

Lemma write_at_padded p d i :
  i = zlen p -> zlen p + zlen d <= sizeof_storage -> write_at i d (padded p) = padded (p ++ d).
Proof.
  intros -> Hl. pose proof (zlen_nonneg p). pose proof (zlen_nonneg d).
  unfold write_at, padded.
  rewrite ztake_app_exact by done. rewrite zdrop_app_ge by lia.
  rewrite <- app_assoc. do 2 f_equal.
  unfold zdrop. rewrite drop_replicate. f_equal. rewrite zlen_app. unfold zlen in *. lia.
Qed.

Lemma zlen_padded p : zlen p <= sizeof_storage -> zlen (padded p) = sizeof_storage.
Proof.
  intros. unfold padded. rewrite zlen_app. unfold zlen at 2. rewrite length_replicate. lia.
Qed.

Lemma slice_padded i j p : 0 <= i -> j <= zlen p -> slice i j (padded p) = slice i j p.
Proof.
  intros. unfold slice, padded. destruct (decide (i <= j)).
  - rewrite zdrop_app_le by lia. rewrite ztake_app_le by (rewrite zlen_drop; lia). done.
  - by rewrite !ztake_nonpos by lia.
Qed.

(** A list of a known length is the list of its elements. *)
Lemma four_bytes (b : list byte) : zlen b = 4 -> exists x0 x1 x2 x3, b = [x0; x1; x2; x3].
Proof.
  unfold zlen. intros H. destruct b as [|x0 [|x1 [|x2 [|x3 [|]]]]]; simpl in H; try lia.
  by exists x0, x1, x2, x3.
Qed.

Lemma htons_ntohs p : in_u 16 p -> ntohs (htons p) = p.
Proof. unfold in_u, ntohs, htons. intros. dlia. Qed.

Lemma le16_get x y r : get16 0 (x :: y :: r) = x + 256 * y.
Proof. done. Qed.

Lemma le16_val n : 0 <= n -> n mod 256 + 256 * (n / 256) = n.
Proof. intros. dlia. Qed.

Lemma make_ipv4_shape ip port a :
  make_ipv4 ip port = Some a ->
  exists b, inet_pton AF_INET (c_str ip) = PtonOk b /\ zlen b = 4 /\
    a = mk_addr (padded (le16 AF_INET ++ le16 (htons port) ++ b)) sizeof_in.
Proof.
  unfold make_ipv4. destruct (inet_pton AF_INET (c_str ip)) as [b| |] eqn:E; try done.
  intros [= <-]. exists b. destruct (pton4 _ _ E) as [Hl _]. split_and!; [done..|].
  destruct (four_bytes b Hl) as (x0 & x1 & x2 & x3 & ->). done.
Qed.

Lemma make_ipv6_shape ip port scope a :
  make_ipv6 ip port scope = Some a ->
  exists b, inet_pton AF_INET6 (c_str ip) = PtonOk b /\ zlen b = 16 /\
    a = mk_addr (padded (le16 AF_INET6 ++ le16 (htons port) ++ [0; 0; 0; 0] ++ b ++ le32 scope))
          sizeof_in6.
Proof.
  unfold make_ipv6. destruct (inet_pton AF_INET6 (c_str ip)) as [b| |] eqn:E; try done.
  intros [= <-]. exists b. destruct (pton6 _ _ E) as [Hl _]. split_and!; [done..|].
  rewrite <- (ztake_zdrop 4 b) in Hl |- *.
  assert (zlen (ztake 4 b) = 4) as Ha by (revert Hl; rewrite zlen_app, zlen_take, zlen_drop; lia).
  rewrite zlen_app, Ha in Hl. set (b' := zdrop 4 b) in *. clearbody b'.
  rewrite <- (ztake_zdrop 4 b') in Hl |- *.
  assert (zlen (ztake 4 b') = 4) as Hb by (revert Hl; rewrite zlen_app, zlen_take, zlen_drop; lia).
  rewrite zlen_app, Hb in Hl. set (c := zdrop 4 b') in *. clearbody c.
  rewrite <- (ztake_zdrop 4 c) in Hl |- *.
  assert (zlen (ztake 4 c) = 4) as Hc by (revert Hl; rewrite zlen_app, zlen_take, zlen_drop; lia).
  rewrite zlen_app, Hc in Hl. assert (zlen (zdrop 4 c) = 4) as Hd by lia.
  destruct (four_bytes _ Ha) as (? & ? & ? & ? & ->), (four_bytes _ Hb) as (? & ? & ? & ? & ->),
    (four_bytes _ Hc) as (? & ? & ? & ? & ->), (four_bytes _ Hd) as (? & ? & ? & ? & ->). done.
Qed.

(** The shapes of the two unix forms, and when they exist. *)
Definition unix_ok (s : list byte) : Prop := 0 ∉ s /\ s <> [] /\ zlen s + 1 <= sizeof_sun_path.

Lemma write_family : write_at 0 (le16 AF_UNIX) zero_storage = padded (le16 AF_UNIX).
Proof. rewrite zero_storage_padded. by apply (write_at_padded []). Qed.

Lemma make_unix_shape path a :
  make_unix path = Some a <->
  unix_ok path /\ a = mk_addr (padded (le16 AF_UNIX ++ path ++ [0])) (base + zlen path + 1).
Proof.
  unfold make_unix, unix_ok. pose proof (zlen_nonneg path).
  case_bool_decide; [naive_solver|]. case_bool_decide; [naive_solver|].
  destruct (Z.ltb_spec sizeof_sun_path (zlen path + 1)); [split; [done | intros [(?&?&?) ?]; lia]|].
  rewrite write_family. unfold sizeof_sun_path in *.
  rewrite write_at_padded by (rewrite ?zlen_app; unfold sizeof_storage; simpl; try done;
    unfold zlen at 1; simpl; lia).
  rewrite write_at_padded by (rewrite ?zlen_app; unfold sizeof_storage, base;
    change (zlen (le16 AF_UNIX)) with 2; change (zlen [0]) with 1; lia).
  rewrite <- app_assoc. naive_solver.
Qed.

Lemma make_abstract_shape name a :
  make_abstract name = Some a <->
  unix_ok name /\ a = mk_addr (padded (le16 AF_UNIX ++ [0] ++ name)) (base + 1 + zlen name).
Proof.
  unfold make_abstract, unix_ok. pose proof (zlen_nonneg name).
  case_bool_decide; [naive_solver|]. case_bool_decide; [naive_solver|].
  destruct (Z.ltb_spec sizeof_sun_path (zlen name + 1)); [split; [done | intros [(?&?&?) ?]; lia]|].
  rewrite write_family. unfold sizeof_sun_path in *.
  rewrite write_at_padded by done.
  rewrite write_at_padded by (unfold sizeof_storage; change (zlen (le16 AF_UNIX ++ [0])) with 3;
    try done; lia).
  rewrite <- app_assoc. naive_solver.
Qed.
End shapes.

(** ** Round trips *)

Section roundtrips.
Context `{AS : AddrServices, AL : !AddrLaws}.

Inductive made : inet_addr -> Prop :=
| made_ipv4 ip port a : make_ipv4 ip port = Some a -> made a
| made_ipv6 ip port scope a : make_ipv6 ip port scope = Some a -> made a
| made_unix path a : make_unix path = Some a -> made a
| made_abstract name a : make_abstract name = Some a -> made a.

Lemma strip_zeros_snoc s n : strip_zeros (s ++ replicate n 0) = strip_zeros s.
Proof.
  induction s as [|c s IH]; simpl; [|by rewrite IH].
  induction n as [|n IH]; [done|]. simpl. by rewrite IH.
Qed.

Lemma strip_zeros_id s : 0 ∉ s -> strip_zeros s = s.
Proof.
  induction s as [|c s IH]; [done|]. intros H. apply not_elem_of_cons in H as [Hc H].
  simpl. rewrite IH by done. destruct s; [|done]. destruct (Z.eqb_spec c 0); [congruence | done].
Qed.

Lemma c_str_id s : 0 ∉ s -> c_str s = s.
Proof.
  induction s as [|c s IH]; [done|]. intros H. apply not_elem_of_cons in H as [Hc H].
  simpl. destruct (Z.eqb_spec c 0); [congruence|]. by rewrite IH.
Qed.

Lemma c_str_zero s r : 0 ∉ s -> c_str (s ++ 0 :: r) = s.
Proof.
  induction s as [|c s IH]; [done|]. intros H. apply not_elem_of_cons in H as [Hc H].
  simpl. destruct (Z.eqb_spec c 0); [congruence|]. by rewrite IH.
Qed.

Lemma head_not_zero s : 0 ∉ s -> s <> [] -> forall r, (get_byte 0 (s ++ r) =? 0) = false.
Proof.
  intros H Hn r. destruct s as [|c s]; [done|]. apply not_elem_of_cons in H as [Hc _].
  unfold get_byte. simpl. apply Z.eqb_neq. congruence.
Qed.

Lemma zdrop_family (x y : byte) l : zdrop 2 (x :: y :: l) = l.
Proof. done. Qed.

(** Reading back a unix [sockaddr] of [n] trailing zeros. *)
Lemma from_sockaddr_path path n r :
  unix_ok path -> zlen path + Z.of_nat n <= sizeof_sun_path ->
  make_from_sockaddr (Some (le16 AF_UNIX ++ path ++ replicate n 0 ++ r))
    (base + zlen path + Z.of_nat n) = make_unix path.
Proof.
  intros (Hz & Hne & Hl) Hn. pose proof (zlen_nonneg path).
  assert (0 < zlen path) by (destruct path; [done|]; unfold zlen; simpl; lia).
  unfold make_from_sockaddr. change (get16 0 _) with AF_UNIX. simpl (AF_UNIX =? _).
  unfold sizeof_sun_path, sizeof_un, base in *.
  destruct (Z.leb_spec (2 + zlen path + Z.of_nat n) 2); [lia|].
  destruct (Z.ltb_spec 110 (2 + zlen path + Z.of_nat n)); [lia|]. simpl.
  rewrite zdrop_family.
  rewrite head_not_zero by done.
  rewrite app_assoc. unfold slice. rewrite zdrop_nonpos by lia.
  rewrite ztake_app_exact.
  - by rewrite strip_zeros_snoc, strip_zeros_id.
  - rewrite zlen_app. unfold zlen at 3. rewrite length_replicate. lia.
Qed.

Lemma from_sockaddr_abstract name n r :
  unix_ok name -> zlen name + 1 + Z.of_nat n <= sizeof_sun_path ->
  make_from_sockaddr (Some (le16 AF_UNIX ++ [0] ++ name ++ replicate n 0 ++ r))
    (base + 1 + zlen name + Z.of_nat n) = make_abstract name.
Proof.
  intros (Hz & Hne & Hl) Hn. pose proof (zlen_nonneg name).
  unfold make_from_sockaddr. change (get16 0 _) with AF_UNIX. simpl (AF_UNIX =? _).
  unfold sizeof_sun_path, sizeof_un, base in *.
  destruct (Z.leb_spec (2 + 1 + zlen name + Z.of_nat n) 2); [lia|].
  destruct (Z.ltb_spec 110 (2 + 1 + zlen name + Z.of_nat n)); [lia|]. simpl.
  rewrite zdrop_family.
  change (get_byte 0 (0 :: _) =? 0) with true. simpl.
  unfold slice. change (zdrop 1 (0 :: ?x)) with x.
  rewrite app_assoc, ztake_app_exact.
  - by rewrite strip_zeros_snoc, strip_zeros_id.
  - rewrite zlen_app. unfold zlen at 3. rewrite length_replicate. lia.
Qed.

Lemma padded_reload p :
  zlen p <= sizeof_storage -> forall n, n = zlen p ->
  write_at 0 (slice 0 n (padded p)) zero_storage = padded p.
Proof.
  intros Hp n ->. rewrite slice_padded by lia. rewrite slice_all, zero_storage_padded.
  by rewrite write_at_padded.
Qed.

Lemma padded_zeros p k :
  zlen p + Z.of_nat k <= sizeof_storage -> padded p = padded (p ++ replicate k 0).
Proof.
  intros. unfold padded. rewrite <- app_assoc, <- replicate_add. do 2 f_equal.
  rewrite zlen_app. unfold zlen in *. rewrite length_replicate. lia.
Qed.

(** C23: an address the library made survives the trip through the socket
    calls: [make_from_sockaddr] on [get_sockaddr], [get_socklen] gives back the
    very same bytes and length.  And the kernel's other spellings of a unix
    address, a path with any number of trailing NULs (or none) and an abstract
    name padded with NULs, are brought to the one form the factories build. *)
Theorem addr_sockaddr_roundtrip a :
  made a ->
  make_from_sockaddr (Some (get_sockaddr a)) (get_socklen a) = Some a /\
  forall s n r, unix_ok s ->
    (zlen s + Z.of_nat n <= sizeof_sun_path ->
     make_from_sockaddr (Some (le16 AF_UNIX ++ s ++ replicate n 0 ++ r))
       (base + zlen s + Z.of_nat n) = make_unix s) /\
    (zlen s + 1 + Z.of_nat n <= sizeof_sun_path ->
     make_from_sockaddr (Some (le16 AF_UNIX ++ [0] ++ s ++ replicate n 0 ++ r))
       (base + 1 + zlen s + Z.of_nat n) = make_abstract s).
Proof.
  intros Hm. split; [|split; [by apply from_sockaddr_path | by apply from_sockaddr_abstract]].
  unfold get_sockaddr, get_socklen. destruct Hm as [ip port a H|ip port scope a H|path a H|name a H].
  - apply make_ipv4_shape in H as (b & _ & Hb & ->). cbn [addr_storage_ socklen_].
    destruct (four_bytes b Hb) as (? & ? & ? & ? & ->).
    rewrite (padded_zeros _ 8) by done.
    unfold make_from_sockaddr. cbn [negb].
    assert (forall x, (get16 0 (padded ((le16 AF_INET ++ x) ++ replicate 8 0)) =? AF_INET) = true)
      as -> by done.
    rewrite Z.ltb_irrefl. rewrite padded_reload; done.
  - apply make_ipv6_shape in H as (b & _ & Hb & ->). cbn [addr_storage_ socklen_].
    assert (Hl : zlen (le16 AF_INET6 ++ le16 (htons port) ++ [0; 0; 0; 0] ++ b ++ le32 scope) = sizeof_in6)
      by (rewrite !zlen_app, Hb; done).
    unfold make_from_sockaddr.
    assert (forall x, get16 0 (padded (le16 AF_INET6 ++ x)) = AF_INET6) as -> by done.
    change (AF_INET6 =? AF_INET) with false. rewrite Z.eqb_refl, Z.ltb_irrefl. cbv iota.
    rewrite padded_reload; rewrite ?Hl; done.
  - apply make_unix_shape in H as [Hok ->]. cbn [addr_storage_ socklen_].
    assert (padded (le16 AF_UNIX ++ path ++ [0]) = le16 AF_UNIX ++ path ++ replicate 1 0 ++
      replicate (Z.to_nat (sizeof_storage - zlen (le16 AF_UNIX ++ path ++ [0]))) 0) as Hp
      by (unfold padded; by rewrite <- !app_assoc).
    rewrite Hp at 1. etrans; [apply (from_sockaddr_path path 1); [done | destruct Hok; lia]|].
    by apply make_unix_shape.
  - apply make_abstract_shape in H as [Hok ->]. cbn [addr_storage_ socklen_].
    assert (padded (le16 AF_UNIX ++ [0] ++ name) = le16 AF_UNIX ++ [0] ++ name ++ replicate 0 0 ++
      replicate (Z.to_nat (sizeof_storage - zlen (le16 AF_UNIX ++ [0] ++ name))) 0) as Hp
      by (unfold padded; by rewrite <- !app_assoc).
    rewrite Hp at 1. pose proof (from_sockaddr_abstract name 0) as Hf. rewrite !Z.add_0_r in Hf.
    etrans; [apply Hf|]; [done | destruct Hok; lia | by apply make_abstract_shape].
Qed.

Lemma get_port_field fam port r :
  in_u 16 port -> fam = AF_INET \/ fam = AF_INET6 ->
  forall n, get_port (mk_addr (padded (le16 fam ++ le16 (htons port) ++ r)) n) = port.
Proof.
  intros Hp Hf n. unfold get_port, family. cbn [addr_storage_].
  assert (get16 offset_port (padded (le16 fam ++ le16 (htons port) ++ r)) = htons port) as ->.
  { change (get16 offset_port _) with (htons port mod 256 + 256 * (htons port / 256)).
    apply le16_val. unfold htons, in_u in *. dlia. }
  destruct Hf as [-> | ->]; change (get16 0 _) with AF_INET || change (get16 0 _) with AF_INET6;
    simpl (_ =? _); cbv iota; by apply htons_ntohs.
Qed.

Lemma unix_info a s :
  make_unix s = Some a -> family a = AF_UNIX /\ get_port a = 0 /\ get_ip_or_path a = s.
Proof.
  intros H.
  apply make_unix_shape in H as [(Hz & Hne & Hl) ->]. pose proof (zlen_nonneg s).
  split_and!; [done | done |]. unfold get_ip_or_path. cbn [addr_storage_ socklen_].
  change (family _) with AF_UNIX. simpl (AF_UNIX =? _). cbv iota. unfold base.
  destruct (Z.leb_spec (2 + zlen s + 1) 2); [lia|]. unfold padded. rewrite <- !app_assoc.
  match goal with |- context [get_byte 2 (le16 AF_UNIX ++ s ++ ?x)] =>
    assert ((get_byte 2 (le16 AF_UNIX ++ s ++ x) =? 0) = false) as ->
      by (apply (head_not_zero s); done) end.
  simpl. rewrite zdrop_family. by apply c_str_zero.
Qed.

Lemma abstract_info a s :
  make_abstract s = Some a -> family a = AF_UNIX /\ get_port a = 0 /\ get_ip_or_path a = 64 :: s.
Proof.
  intros H.
  apply make_abstract_shape in H as [(Hz & Hne & Hl) ->]. pose proof (zlen_nonneg s).
  split_and!; [done | done |]. unfold get_ip_or_path. cbn [addr_storage_ socklen_].
  change (family _) with AF_UNIX. simpl (AF_UNIX =? _). cbv iota. unfold base.
  destruct (Z.leb_spec (2 + 1 + zlen s) 2); [lia|]. unfold padded. rewrite <- !app_assoc.
  change (get_byte 2 _ =? 0) with true. cbv iota. f_equal.
  unfold slice. change (zdrop (2 + 1) (le16 AF_UNIX ++ [0] ++ ?x)) with x.
  apply ztake_app_exact. lia.
Qed.

(** The accessors give back what an address was made from: the port, the
    textual form of the parsed bytes, the path of a unix socket, and ['@'] with
    the name of an abstract one. *)
Theorem addr_info a ip port scope s :
  in_u 16 port ->
  (make_ipv4 ip port = Some a -> exists b, inet_pton AF_INET (c_str ip) = PtonOk b /\
     family a = AF_INET /\ get_port a = port /\
     get_ip_or_path a = default [] (c_str <$> inet_ntop AF_INET b)) /\
  (make_ipv6 ip port scope = Some a -> exists b, inet_pton AF_INET6 (c_str ip) = PtonOk b /\
     family a = AF_INET6 /\ get_port a = port /\
     get_ip_or_path a = default [] (c_str <$> inet_ntop AF_INET6 b)) /\
  (make_unix s = Some a -> family a = AF_UNIX /\ get_port a = 0 /\ get_ip_or_path a = s) /\
  (make_abstract s = Some a -> family a = AF_UNIX /\ get_port a = 0 /\ get_ip_or_path a = 64 :: s).
Proof.
  intros Hp. split_and!; intros H.
  - apply make_ipv4_shape in H as (b & Hb & Hl & ->). exists b.
    split_and!; [done | done | apply get_port_field; auto |].
    destruct (four_bytes b Hl) as (? & ? & ? & ? & ->). done.
  - apply make_ipv6_shape in H as (b & Hb & Hl & ->). exists b.
    split_and!; [done | done | apply get_port_field; auto |].
    unfold get_ip_or_path, family. cbn [addr_storage_].
    assert (forall x, get16 0 (padded (le16 AF_INET6 ++ x)) = AF_INET6) as -> by done.
    simpl (_ =? _). cbv iota. do 3 f_equal. unfold offset_addr6.
    rewrite slice_padded, !app_assoc by (rewrite ?zlen_app, ?Hl; vm_compute; congruence).
    unfold slice. rewrite <- (app_assoc _ b), zdrop_app_exact by done.
    by apply ztake_app_exact.
  - by apply unix_info.
  - by apply abstract_info.
Qed.
End roundtrips.

(** ** Well-formed addresses *)

Section wellformed.
Context `{AS : AddrServices, AL : !AddrLaws}.

(** What every user of an address relies on: the storage is the 128 bytes of a
    [sockaddr_storage], the length is the one of its family, within the
    storage, and nothing but zeros lies behind it. *)
Record addr_wf (a : inet_addr) : Prop := {
  wf_size : zlen (addr_storage_ a) = sizeof_storage;
  wf_bytes : Forall (in_u 8) (addr_storage_ a);
  wf_family : (family a = AF_INET /\ socklen_ a = sizeof_in) \/
    (family a = AF_INET6 /\ socklen_ a = sizeof_in6) \/
    (family a = AF_UNIX /\ base + 1 < socklen_ a <= sizeof_un);
  wf_tail : Forall (fun x => x = 0) (zdrop (socklen_ a) (addr_storage_ a))
}.

(** The memory behind a [sockaddr] pointer: bytes, as many as the family needs. *)
Definition readable (m : list byte) (len : Z) : Prop :=
  Forall (in_u 8) m /\ 2 <= zlen m /\
  (get16 0 m = AF_INET -> sizeof_in <= zlen m) /\ (get16 0 m = AF_INET6 -> sizeof_in6 <= zlen m) /\
  (get16 0 m = AF_UNIX -> len <= zlen m).

(** Every way the library makes an address, from arguments of their types. *)
Inductive built : inet_addr -> Prop :=
| built_ipv4 ip port a : in_u 16 port -> make_ipv4 ip port = Some a -> built a
| built_ipv6 ip port scope a :
    in_u 16 port -> in_u 32 scope -> make_ipv6 ip port scope = Some a -> built a
| built_unix path a : Forall (in_u 8) path -> make_unix path = Some a -> built a
| built_abstract name a : Forall (in_u 8) name -> make_abstract name = Some a -> built a
| built_from m len a : readable m len -> make_from_sockaddr (Some m) len = Some a -> built a.

Lemma byte_zero : in_u 8 0.
Proof. unfold in_u. lia. Qed.

Lemma bytes_padded p : Forall (in_u 8) p -> Forall (in_u 8) (padded p).
Proof. intros H. apply Forall_app. split; [done|]. apply Forall_replicate, byte_zero. Qed.

Lemma tail_padded p n : zlen p <= n -> Forall (fun x => x = 0) (zdrop n (padded p)).
Proof.
  intros Hn. unfold padded. pose proof (zlen_nonneg p). rewrite zdrop_app_ge by done.
  unfold zdrop. by apply Forall_drop, Forall_replicate.
Qed.

(** One criterion for all of them. *)
Lemma padded_wf p n :
  Forall (in_u 8) p -> zlen p <= n -> zlen p <= sizeof_storage ->
  (get16 0 (padded p) = AF_INET /\ n = sizeof_in) \/
  (get16 0 (padded p) = AF_INET6 /\ n = sizeof_in6) \/
  (get16 0 (padded p) = AF_UNIX /\ base + 1 < n <= sizeof_un) ->
  addr_wf (mk_addr (padded p) n).
Proof.
  intros Hb Hn Hs Hf. split; [by apply zlen_padded | by apply bytes_padded | done |].
  by apply tail_padded.
Qed.

Lemma le16_bytes n : in_u 16 n -> Forall (in_u 8) (le16 n).
Proof. unfold in_u. intros. repeat constructor; unfold in_u; dlia. Qed.

Lemma le32_bytes n : in_u 32 n -> Forall (in_u 8) (le32 n).
Proof. unfold in_u. intros. repeat constructor; unfold in_u; dlia. Qed.

Lemma htons_u16 p : in_u 16 p -> in_u 16 (htons p).
Proof. unfold in_u, htons. intros. dlia. Qed.

Lemma unix_wf s pre post a n :
  Forall (in_u 8) s -> unix_ok s -> zlen pre + zlen post = 1 ->
  Forall (in_u 8) pre -> Forall (in_u 8) post ->
  a = mk_addr (padded (le16 AF_UNIX ++ pre ++ s ++ post)) n -> n = base + 1 + zlen s -> addr_wf a.
Proof.
  intros Hs (_ & Hne & Hl) Hp Hb1 Hb2 -> ->.
  assert (0 < zlen s) by (destruct s; [done|]; unfold zlen; simpl; lia).
  unfold sizeof_sun_path, base in *. apply padded_wf.
  - rewrite !Forall_app. split_and!; [|done..]. apply le16_bytes. by vm_compute.
  - rewrite !zlen_app. change (zlen (le16 AF_UNIX)) with 2. lia.
  - rewrite !zlen_app. change (zlen (le16 AF_UNIX)) with 2. unfold sizeof_storage. lia.
  - right. right. split; [done|]. unfold base, sizeof_un. lia.
Qed.

Lemma strip_zeros_sub s x : x ∈ strip_zeros s -> x ∈ s.
Proof.
  induction s as [|c s IH]; [done|]. simpl. intros H.
  destruct (strip_zeros s) as [|d r]; [destruct (c =? 0); set_solver | set_solver].
Qed.

Lemma make_unix_wf s a : Forall (in_u 8) s -> make_unix s = Some a -> addr_wf a.
Proof.
  intros Hs [Hok ->]%make_unix_shape.
  apply (unix_wf s [] [0] _ (base + zlen s + 1) Hs Hok);
    [done|done|repeat constructor; apply byte_zero|done|lia].
Qed.

Lemma make_abstract_wf s a : Forall (in_u 8) s -> make_abstract s = Some a -> addr_wf a.
Proof.
  intros Hs [Hok ->]%make_abstract_shape.
  apply (unix_wf s [0] [] _ (base + 1 + zlen s) Hs Hok);
    [done|repeat constructor; apply byte_zero|done|by rewrite app_nil_r|lia].
Qed.

Lemma slice_strip_bytes i j m : Forall (in_u 8) m -> Forall (in_u 8) (strip_zeros (slice i j m)).
Proof.
  intros Hm. assert (Hs : Forall (in_u 8) (slice i j m)) by (by apply Forall_take, Forall_drop).
  rewrite Forall_forall in Hs. apply Forall_forall. intros x Hx%strip_zeros_sub. auto.
Qed.

Lemma slice_len j (m : list byte) : 0 <= j <= zlen m -> zlen (slice 0 j m) = j.
Proof. intros. unfold slice. rewrite zdrop_nonpos by lia. rewrite zlen_take. lia. Qed.

Lemma family_prefix j (m : list byte) :
  2 <= j -> 2 <= zlen m -> get16 0 (padded (slice 0 j m)) = get16 0 m.
Proof.
  intros Hj Hm. unfold slice. rewrite zdrop_nonpos by lia. unfold zlen in Hm.
  destruct m as [|x [|y m]]; simpl in Hm; try lia.
  assert (ztake (j - 0) (x :: y :: m) = x :: y :: ztake (j - 2) m) as ->; [|done].
  unfold ztake. replace (Z.to_nat (j - 0)) with (S (S (Z.to_nat (j - 2)))) by lia. done.
Qed.

(** An address copied from memory keeps what its family needs. *)
Lemma copied_wf m n :
  Forall (in_u 8) m -> sizeof_in <= n <= zlen m -> n <= sizeof_storage ->
  (get16 0 m = AF_INET /\ n = sizeof_in \/ get16 0 m = AF_INET6 /\ n = sizeof_in6) ->
  addr_wf (mk_addr (write_at 0 (slice 0 n m) zero_storage) n).
Proof.
  intros Hm Hn Hs Hf. unfold sizeof_in in Hn. rewrite zero_storage_padded.
  rewrite write_at_padded by (rewrite ?slice_len by lia; done). apply padded_wf.
  - by apply Forall_take, Forall_drop.
  - simpl. rewrite slice_len by lia. done.
  - simpl. rewrite slice_len by lia. done.
  - simpl. rewrite family_prefix by lia. tauto.
Qed.

Lemma make_from_sockaddr_wf m len a :
  readable m len -> make_from_sockaddr (Some m) len = Some a -> addr_wf a.
Proof.
  intros (Hm & H2 & H4 & H6 & Hu) H. unfold make_from_sockaddr in H.
  destruct (Z.eqb_spec (get16 0 m) AF_INET) as [E|_].
  { destruct (len <? sizeof_in); simplify_eq. apply copied_wf; [done| |done|by left].
    specialize (H4 E). lia. }
  destruct (Z.eqb_spec (get16 0 m) AF_INET6) as [E|_].
  { destruct (len <? sizeof_in6); simplify_eq. apply copied_wf; [done| |done|by right].
    specialize (H6 E). unfold sizeof_in, sizeof_in6 in *. lia. }
  destruct (_ =? AF_UNIX); [|done]. destruct (_ || _); [done|].
  destruct (get_byte 0 _ =? 0);
    [eapply make_abstract_wf, H | eapply make_unix_wf, H]; by apply slice_strip_bytes, Forall_drop.
Qed.

(** Whatever memory a socket call left, an address made of it names an endpoint. *)
Lemma copied_named m n :
  2 <= n -> get16 0 m = AF_INET \/ get16 0 m = AF_INET6 ->
  addr_key (mk_addr (write_at 0 (slice 0 n m) zero_storage) n) <> None.
Proof.
  intros Hn Hf. assert (Hm : get16 0 (write_at 0 (slice 0 n m) zero_storage) = get16 0 m).
  { unfold write_at, slice. rewrite zdrop_nonpos, ztake_nonpos by lia. cbn [app].
    destruct m as [|x [|y m]]; [by destruct Hf| |]; unfold ztake; replace (Z.to_nat (n - 0)) with
      (S (S (Z.to_nat (n - 2)))) by lia; done. }
  unfold addr_key, family. simpl. rewrite Hm. by destruct Hf as [-> | ->].
Qed.

Lemma made_unix_named a :
  family a = AF_UNIX -> base < socklen_ a -> addr_key a <> None.
Proof. intros Hf Hl. unfold addr_key. rewrite Hf. simpl.
by destruct (Z.leb_spec (socklen_ a) base); [lia|]. Qed.

Lemma from_sockaddr_named m len a : make_from_sockaddr (Some m) len = Some a -> addr_key a <> None.
Proof.
  intros H. unfold make_from_sockaddr in H.
  destruct (Z.eqb_spec (get16 0 m) AF_INET) as [E|_].
  { destruct (len <? sizeof_in); simplify_eq. apply copied_named; [done|by left]. }
  destruct (Z.eqb_spec (get16 0 m) AF_INET6) as [E|_].
  { destruct (len <? sizeof_in6); simplify_eq. apply copied_named; [done|by right]. }
  destruct (_ =? AF_UNIX); [|done]. destruct (_ || _); [done|].
  destruct (get_byte 0 _ =? 0).
  - apply make_abstract_shape in H as [_ ->]. apply made_unix_named; [done|]. simpl.
    pose proof (zlen_nonneg (strip_zeros (slice 1 (len - base) (zdrop base m)))). lia.
  - apply make_unix_shape in H as [_ ->]. apply made_unix_named; [done|]. simpl.
    pose proof (zlen_nonneg (strip_zeros (slice 0 (len - base) (zdrop base m)))). lia.
Qed.

Lemma get16_u16 i l : Forall (in_u 8) l -> in_u 16 (get16 i l).
Proof.
  intros Hl. assert (Hb : forall j, in_u 8 (get_byte j l)).
  { intros j. unfold get_byte. destruct (l !! Z.to_nat j) as [x|] eqn:E; [|apply byte_zero].
    by apply (Forall_lookup_1 _ _ _ _ Hl E). }
  unfold get16. pose proof (Hb i). pose proof (Hb (i + 1)). unfold in_u in *. lia.
Qed.

Lemma get_port_u16 a : addr_wf a -> in_u 16 (get_port a).
Proof.
  intros [_ Hb _ _]. pose proof (get16_u16 offset_port _ Hb) as Hp.
  unfold get_port, ntohs. destruct (_ =? _); [by apply htons_u16|].
  destruct (_ =? _); [by apply htons_u16|]. unfold in_u. lia.
Qed.

(** C24: the type of addresses: however the library makes one, from text, from a
    path, or from what a socket call returned, its storage holds 128 bytes, its
    length is that of its family and fits, only zeros lie behind it; so that it
    names an endpoint (it equals itself) and its port is a port. *)
Theorem addr_well_formed a :
  built a -> addr_wf a /\ in_u 16 (get_port a) /\ addr_eq a a = true.
Proof.
  intros H. assert (Hwf : addr_wf a).
  { destruct H as [ip port a Hp H|ip port scope a Hp Hs H|path a Hb H|name a Hb H|m len a Hr H];
      [| |by eapply make_unix_wf|by eapply make_abstract_wf|by eapply make_from_sockaddr_wf].
    - apply make_ipv4_shape in H as (b & Hb & Hl & ->). destruct (pton4 _ _ Hb) as [_ Hbytes].
      apply padded_wf; rewrite ?zlen_app, ?Hl; try done; [|by left].
      rewrite !Forall_app. split_and!; [by apply le16_bytes|by apply le16_bytes, htons_u16|done].
    - apply make_ipv6_shape in H as (b & Hb & Hl & ->). destruct (pton6 _ _ Hb) as [_ Hbytes].
      apply padded_wf; rewrite ?zlen_app, ?Hl; try done; [|by right; left].
      rewrite !Forall_app. split_and!; [by apply le16_bytes|by apply le16_bytes, htons_u16| |done|
        by apply le32_bytes]. repeat constructor; apply byte_zero. }
  split; [done|]. split; [by apply get_port_u16|]. rewrite addr_eq_key.
  destruct Hwf as [_ _ Hf _]. unfold addr_key, base in *.
  destruct Hf as [[-> _]|[[-> _]|[-> [Hlo _]]]]; simpl; [eauto..|].
  destruct (Z.leb_spec (socklen_ a) 2); [lia|eauto].
Qed.
End wellformed.

(** ** A concrete C library

    It knows the two loopback addresses; [std::hash] of an integer is the
    integer, as in libstdc++. *)

Definition loopback4 : list byte := [49; 50; 55; 46; 48; 46; 48; 46; 49].
Definition loopback6 : list byte := [58; 58; 49].

#[export] Instance demo_services : AddrServices := {
  inet_pton fam s :=
    if (fam =? AF_INET) && bool_decide (s = loopback4) then PtonOk [127; 0; 0; 1]
    else if (fam =? AF_INET6) && bool_decide (s = loopback6)
    then PtonOk (replicate 15 0 ++ [1]) else PtonInvalid;
  inet_ntop fam b := if fam =? AF_INET then Some loopback4 else Some loopback6;
  hash16 n := n;
  hash32 n := n;
  hash_view s := foldr (fun c h => u64 (31 * h + c)) 7 s
}.

#[export] Instance demo_addr_laws : AddrLaws.
Proof.
  split; intros s b H; simpl in H.
  - destruct (bool_decide (s = loopback4)); simplify_eq/=. split; [done|].
    repeat constructor; unfold in_u; lia.
  - destruct (bool_decide (s = loopback6)); simplify_eq/=. split; [done|].
    repeat constructor; unfold in_u; lia.
Qed.

Definition demo_addr (o : option inet_addr) : inet_addr := default (mk_addr [] 0) o.
Definition demo_path : list byte := [47; 116; 109; 112].

Lemma addr_sockaddr_roundtrip_witness :
  let a := demo_addr (make_unix demo_path) in
  make_from_sockaddr (Some (get_sockaddr a)) (get_socklen a) = Some a /\
  forall s n r, unix_ok s ->
    (zlen s + Z.of_nat n <= sizeof_sun_path ->
     make_from_sockaddr (Some (le16 AF_UNIX ++ s ++ replicate n 0 ++ r))
       (base + zlen s + Z.of_nat n) = make_unix s) /\
    (zlen s + 1 + Z.of_nat n <= sizeof_sun_path ->
     make_from_sockaddr (Some (le16 AF_UNIX ++ [0] ++ s ++ replicate n 0 ++ r))
       (base + 1 + zlen s + Z.of_nat n) = make_abstract s).
Proof.
  intros a. apply addr_sockaddr_roundtrip. apply (made_unix demo_path).
  vm_compute. reflexivity.
Defined.

Lemma addr_info_witness :
  let a := demo_addr (make_ipv4 loopback4 8080) in
  get_port a = 8080 /\ get_ip_or_path a = loopback4.
Proof.
  destruct (addr_info (demo_addr (make_ipv4 loopback4 8080)) loopback4 8080 0 demo_path)
    as (H4 & _); [unfold in_u; lia|].
  destruct H4 as (b & Hb & _ & Hp & Hi); [vm_compute; reflexivity|].
  split; [exact Hp|]. etrans; [exact Hi|].
  vm_compute in Hb. injection Hb as <-. vm_compute. reflexivity.
Defined.

Lemma addr_well_formed_witness :
  let a := demo_addr (make_from_sockaddr (Some (le16 AF_UNIX ++ [0; 97; 98; 0; 0])) 7) in
  a = demo_addr (make_abstract [97; 98]) /\
  addr_wf a /\ in_u 16 (get_port a) /\ addr_eq a a = true.
Proof.
  split; [vm_compute; reflexivity|].
  apply addr_well_formed. apply (built_from (le16 AF_UNIX ++ [0; 97; 98; 0; 0]) 7).
  - split_and!; try (vm_compute; congruence). repeat constructor; unfold in_u; vm_compute; congruence.
  - vm_compute. reflexivity.
Defined.

(** The textual form is ambiguous: a path that starts with ['@'] and an
    abstract name print alike, although the addresses differ. *)
Example path_at_ambiguous :
  let p := demo_addr (make_unix (64 :: demo_path)) in
  let q := demo_addr (make_abstract demo_path) in
  addr_eq p q = false /\ get_ip_or_path p = get_ip_or_path q.
Proof. split; vm_compute; reflexivity. Qed.
