(* ===== verification/StreamIo.v ===== *)
(** * StreamIo: sending and receiving on a stream socket

    Models [stream_send] (both overloads), [stream_recv] and [IoStatus] of
    [src/net/inet.cpp] and [include/kzevent/net/inet.hpp].  The socket calls
    are services of the kernel, an instance of [StreamKernel]; [StreamLaws] is
    what send(2) and readv(2) document.  Its two ghost views are the bytes the
    kernel has accepted for sending on a descriptor and the bytes it will still
    deliver to the reads of the current event. *)

From S2P Require Import Prelude Events StreamBuffer.

Inductive IoStatus := kSuccess | kTryAgain | kDisconnected | kError.

#[export] Instance IoStatus_eq_dec : EqDecision IoStatus.
Proof. solve_decision. Defined.

(** The result of a socket call: a value [>= 0], or [-1] and errno. *)
Inductive sock_ret (A : Type) := Ret (a : A) | Err (e : Z).
Arguments Ret {A} a.
Arguments Err {A} e.

Class StreamKernel (K : Type) := {
  (** [send(fd, data, size, MSG_NOSIGNAL)]: how many bytes were accepted *)
  sock_send : K -> Z -> list byte -> K * sock_ret Z;
  (** [readv] into [cap] bytes: the bytes read, empty at the end of the stream *)
  sock_readv : K -> Z -> Z -> K * sock_ret (list byte);
  (** [getsockopt(fd, SOL_SOCKET, SO_ERROR)], which also clears it *)
  so_error : K -> Z -> K * Z;
  accepted : K -> Z -> list byte;
  unread : K -> Z -> list byte
}.

Class StreamLaws (K : Type) `{StreamKernel K} := {
  send_ret k fd d k' n :
    sock_send k fd d = (k', Ret n) ->
    0 <= n <= zlen d /\ (d <> [] -> 0 < n) /\
    accepted k' fd = accepted k fd ++ ztake n d /\ unread k' fd = unread k fd;
  send_err k fd d k' e :
    sock_send k fd d = (k', Err e) ->
    accepted k' fd = accepted k fd /\ unread k' fd = unread k fd;
  readv_ret k fd cap k' d :
    sock_readv k fd cap = (k', Ret d) ->
    zlen d <= Z.max 0 cap /\ unread k fd = d ++ unread k' fd /\ accepted k' fd = accepted k fd;
  readv_err k fd cap k' e :
    sock_readv k fd cap = (k', Err e) ->
    accepted k' fd = accepted k fd /\ unread k' fd = unread k fd;
  so_error_views k fd k' e :
    so_error k fd = (k', e) ->
    accepted k' fd = accepted k fd /\ unread k' fd = unread k fd
}.

(** Between two calls the network brings more bytes to a socket. *)
Class StreamNet (K : Type) `{StreamKernel K} := {
  stream_arrive : list byte -> K -> Z -> K
}.

Class StreamNetLaws (K : Type) `{StreamNet K} := {
  arrive_unread d k fd : unread (stream_arrive d k fd) fd = unread k fd ++ d;
  arrive_accepted d k fd : accepted (stream_arrive d k fd) fd = accepted k fd
}.

Definition UINT16_MAX : Z := 65535.

Section io.
Context {K : Type} `{SK : StreamKernel K}.

(** [stream_send(channel, data)]: the status and, on success, the count. *)
Definition stream_send_data (k : K) (fd : Z) (data : list byte) : K * (Z * IoStatus) :=
  match sock_send k fd data with
  | (k', Err e) =>
      (k', (-1, if e =? EAGAIN then kTryAgain else if e =? EPIPE then kDisconnected else kError))
  | (k', Ret n) => (k', (n, kSuccess))
  end.

(** [stream_send(channel, buf)] *)
Definition stream_send (k : K) (fd : Z) (buf : SB.stream_buffer)
    : res (K * SB.stream_buffer * IoStatus) :=
  match sock_send k fd (SB.contents buf) with
  | (k', Err e) =>
      Ok (k', buf, if e =? EAGAIN then kTryAgain else if e =? EPIPE then kDisconnected else kError)
  | (k', Ret n) => buf' ← SB.pop n buf; Ok (k', buf', kSuccess)
  end.

(** What [readv] leaves in the two regions becomes the tail of the buffer. *)
Definition take_in (d : list byte) (buf : SB.stream_buffer) : res SB.stream_buffer :=
  let buf_space := SB.space buf in
  if buf_space <? zlen d then
    let ex_buf := zdrop buf_space d in
    SB.insert (ztake (zlen d - buf_space) ex_buf)
      (SB.push buf_space (SB.fill_end (ztake buf_space d) buf))
  else Ok (SB.push (zlen d) (SB.fill_end d buf)).

Definition stream_recv (k : K) (fd : Z) (buf : SB.stream_buffer)
    : res (K * SB.stream_buffer * IoStatus) :=
  match sock_readv k fd (SB.space buf + UINT16_MAX) with
  | (k', Err e) =>
      Ok (k', buf, if e =? EAGAIN then kTryAgain else if e =? ECONNRESET then kDisconnected else kError)
  | (k', Ret []) => Ok (k', buf, kDisconnected)
  | (k', Ret d) => buf' ← take_in d buf; Ok (k', buf', kSuccess)
  end.
End io.

(** ** What they do to the buffer and the socket *)

Section facts.
Context {K : Type} `{SK : StreamKernel K, SL : !StreamLaws K}.
Implicit Types (b : SB.stream_buffer) (k : K).

Lemma take_in_ok (d : list byte) b :
  SB.sb_inv b ->
  exists b', take_in d b = Ok b' /\ SB.sb_inv b' /\
    SB.contents b' = SB.contents b ++ d /\ SB.initial_size_ b' = SB.initial_size_ b /\
    zlen (SB.buffer_ b') <=
      Z.max (zlen (SB.buffer_ b)) (zlen (SB.buffer_ b) / 2 + zlen (SB.contents b')).
Proof.
  intros Hi. assert (0 <= SB.space b) by (destruct Hi; unfold SB.space; lia).
  unfold take_in. destruct (Z.ltb_spec (SB.space b) (zlen d)).
  - pose proof (zlen_take (SB.space b) d) as Ht.
    destruct (SB.fill_push_ok (ztake (SB.space b) d) b Hi) as (Hi1 & Hc1 & Hini1 & Hl1); [lia|].
    rewrite Ht in Hi1, Hc1, Hini1, Hl1.
    replace (Z.max 0 (Z.min (SB.space b) (zlen d))) with (SB.space b) in * by lia.
    rewrite ztake_all by (rewrite zlen_drop; lia).
    set (b1 := SB.push _ _) in *.
    destruct (SB.insert_ok (zdrop (SB.space b) d) b1 Hi1)
      as (b' & -> & Hi' & Hc' & Hini' & Hr' & _ & Hl').
    exists b'. rewrite Hc' at 1. rewrite Hc1, <- app_assoc, ztake_zdrop, Hini'.
    split_and!; try done.
    pose proof (SB.contents_len b' Hi') as Hs. rewrite Hc', zlen_app in Hs.
    pose proof (SB.contents_len b1 Hi1) as Hs1. rewrite Hs1 in Hs.
    assert (SB.reader_ b' <= zlen (SB.buffer_ b) / 2)
      by (rewrite Hr', <- Hl1; by destruct Hi1).
    rewrite Hc', zlen_app, Hs1. unfold SB.size in *. lia.
  - destruct (SB.fill_push_ok d b Hi) as (? & Hc & ? & Hl); [lia|].
    eexists. split_and!; try done. rewrite Hl. lia.
Qed.

(** Send: what the kernel accepted followed by what is still buffered never
    changes, and a successful send of a non-empty buffer makes progress. *)
Lemma stream_send_ok k fd b :
  SB.sb_inv b ->
  exists k' b' st, stream_send k fd b = Ok (k', b', st) /\ SB.sb_inv b' /\
    accepted k' fd ++ SB.contents b' = accepted k fd ++ SB.contents b /\
    unread k' fd = unread k fd /\
    (st = kSuccess -> SB.contents b <> [] ->
       (length (SB.contents b') < length (SB.contents b))%nat) /\
    (st <> kSuccess -> b' = b).
Proof.
  intros Hi. unfold stream_send.
  destruct (sock_send k fd (SB.contents b)) as [k' [n|e]] eqn:E.
  - apply send_ret in E as (Hn & Hpos & Ha & Hu).
    destruct (SB.pop_ok n b Hi) as (b' & -> & Hi' & Hc & _); [lia|].
    exists k', b', kSuccess. simpl. rewrite Hc, Ha, <- app_assoc, ztake_zdrop.
    split_and!; try done. intros _ Hne. specialize (Hpos Hne).
    unfold zdrop, zlen in *. rewrite length_drop. lia.
  - apply send_err in E as [Ha Hu]. do 3 eexists. split_and!; try done; [by rewrite Ha|].
    by repeat case_match.
Qed.

(** Receive: what is buffered followed by what is still to be read never
    changes, and each success consumes some of the latter. *)
Lemma stream_recv_ok k fd b :
  SB.sb_inv b ->
  exists k' b' st, stream_recv k fd b = Ok (k', b', st) /\ SB.sb_inv b' /\
    SB.contents b' ++ unread k' fd = SB.contents b ++ unread k fd /\
    accepted k' fd = accepted k fd /\
    (st = kSuccess -> (length (unread k' fd) < length (unread k fd))%nat) /\
    (st <> kSuccess -> b' = b).
Proof.
  intros Hi. unfold stream_recv.
  destruct (sock_readv k fd (SB.space b + UINT16_MAX)) as [k' [d|e]] eqn:E.
  - apply readv_ret in E as (_ & Hu & Ha). destruct d as [|x d].
    + do 3 eexists. simpl in Hu. split_and!; try done. by rewrite Hu.
    + destruct (take_in_ok (x :: d) b Hi) as (b' & -> & Hi' & Hc & _).
      do 3 eexists. simpl. split_and!; try done.
      * by rewrite Hc, <- app_assoc, Hu.
      * intros _. rewrite Hu, length_app. simpl. lia.
  - apply readv_err in E as [Ha Hu]. do 3 eexists. split_and!; try done; [by rewrite Hu|].
    by repeat case_match.
Qed.

Lemma stream_send_data_ok k fd (d : list byte) k' n st :
  stream_send_data k fd d = (k', (n, st)) ->
  unread k' fd = unread k fd /\
  (st = kSuccess -> 0 <= n <= zlen d /\ accepted k' fd = accepted k fd ++ ztake n d) /\
  (st <> kSuccess -> accepted k' fd = accepted k fd).
Proof.
  unfold stream_send_data. destruct (sock_send k fd d) as [k1 [m|e]] eqn:E; intros; simplify_eq.
  - apply send_ret in E as (? & ? & ? & ?). done.
  - apply send_err in E as [? ?]. by repeat case_match.
Qed.
End facts.

(** ** The buffer as a byte queue

    Abstract specification: a queue of bytes.  The concrete buffer follows it
    over any run of the operations the sockets perform on it. *)

Inductive buf_op :=
| BInsert (d : list byte)
| BTakeIn (d : list byte)
| BPop (n : Z)
| BClear.

Definition run_buf_op (o : buf_op) (b : SB.stream_buffer) : res SB.stream_buffer :=
  match o with
  | BInsert d => SB.insert d b
  | BTakeIn d => take_in d b
  | BPop n => SB.pop n b
  | BClear => Ok (SB.clear b)
  end.

Fixpoint run_buf_ops (os : list buf_op) (b : SB.stream_buffer) : res SB.stream_buffer :=
  match os with
  | [] => Ok b
  | o :: os' => b1 ← run_buf_op o b; run_buf_ops os' b1
  end.

Definition queue_op (o : buf_op) (q : list byte) : list byte :=
  match o with
  | BInsert d | BTakeIn d => q ++ d
  | BPop n => zdrop n q
  | BClear => []
  end.

Definition queue_ops (os : list buf_op) (q : list byte) : list byte :=
  fold_left (fun q o => queue_op o q) os q.

(** The most bytes the queue holds during the run. *)
Fixpoint peak (os : list buf_op) (q : list byte) : Z :=
  match os with
  | [] => zlen q
  | o :: os' => Z.max (zlen q) (peak os' (queue_op o q))
  end.

Definition buf_op_ok (o : buf_op) : Prop := match o with BPop n => 0 <= n | _ => True end.

Lemma zlen_queue_le_peak os q : zlen q <= peak os q.
Proof. destruct os; simpl; lia. Qed.

Lemma run_buf_op_ok o b :
  SB.sb_inv b -> buf_op_ok o ->
  exists b', run_buf_op o b = Ok b' /\ SB.sb_inv b' /\
    SB.contents b' = queue_op o (SB.contents b) /\ SB.initial_size_ b' = SB.initial_size_ b /\
    zlen (SB.buffer_ b') <=
      Z.max (zlen (SB.buffer_ b)) (zlen (SB.buffer_ b) / 2 + zlen (SB.contents b')).
Proof.
  intros Hi Ho. destruct o as [d|d|n|]; simpl in *.
  - destruct (SB.insert_ok d b Hi) as (b' & He & Hi' & Hc & Hini & Hr & _ & Hl).
    exists b'. split_and!; try done.
    pose proof (SB.contents_len b' Hi') as Hs. pose proof (SB.contents_len b Hi) as Hs0.
    rewrite Hc, zlen_app, Hs0 in *. unfold SB.size in *. destruct Hi. lia.
  - by apply take_in_ok.
  - destruct (SB.pop_ok n b Hi Ho) as (b' & He & Hi' & Hc & Hini & Hl).
    exists b'. split_and!; try done. lia.
  - destruct (SB.clear_ok b Hi) as (Hi' & Hc & Hl). eexists. split_and!; try done. simpl. lia.
Qed.

Lemma run_buf_ops_ok os b bound :
  SB.sb_inv b -> Forall buf_op_ok os ->
  zlen (SB.buffer_ b) <= bound -> 2 * peak os (SB.contents b) <= bound ->
  exists b', run_buf_ops os b = Ok b' /\ SB.sb_inv b' /\
    SB.contents b' = queue_ops os (SB.contents b) /\
    SB.initial_size_ b' = SB.initial_size_ b /\ zlen (SB.buffer_ b') <= bound.
Proof.
  revert b. induction os as [|o os IH]; intros b Hi Hos Hb Hp; simpl.
  { by exists b. }
  apply Forall_cons in Hos as [Ho Hos].
  destruct (run_buf_op_ok o b Hi Ho) as (b1 & -> & Hi1 & Hc1 & Hini1 & Hl1). simpl in *.
  rewrite <- Hc1 in Hp. pose proof (zlen_queue_le_peak os (SB.contents b1)).
  destruct (IH b1) as (b2 & -> & ? & Hc & Hini & ?); [done|done| |lia|].
  { assert (zlen (SB.buffer_ b) / 2 <= bound / 2) by (apply Z.div_le_mono; lia). dlia. }
  exists b2. rewrite Hc, Hc1, Hini. done.
Qed.

(** C10: the byte queue.  From its constructor on, over any sequence of inserts,
    receptions (which may overflow into the stack buffer), removals and
    clearings, a [StreamBuffer] never leaves its vector, holds exactly the bytes
    of the abstract queue in order, reports its size and emptiness, and its
    vector never exceeds the larger of its initial size and twice the most
    bytes the queue held. *)
Theorem stream_buffer_is_queue n os :
  0 <= n -> Forall buf_op_ok os ->
  exists b, run_buf_ops os (SB.make_sb n) = Ok b /\
    SB.contents b = queue_ops os [] /\
    SB.size b = zlen (queue_ops os []) /\
    (SB.empty b = true <-> queue_ops os [] = []) /\
    zlen (SB.buffer_ b) <= Z.max n (2 * peak os []).
Proof.
  intros Hn Hos. pose proof (SB.make_sb_inv n Hn) as Hi.
  assert (SB.contents (SB.make_sb n) = []) as Hc0 by done.
  assert (zlen (SB.buffer_ (SB.make_sb n)) = n) as Hl0
    by (unfold zlen; simpl; rewrite length_replicate; lia).
  destruct (run_buf_ops_ok os (SB.make_sb n) (Z.max n (2 * peak os [])) Hi Hos)
    as (b & He & Hib & Hc & _ & Hl); [lia | rewrite Hc0; lia |].
  rewrite Hc0 in Hc. exists b. rewrite <- Hc.
  split_and!; [done | done | by rewrite SB.contents_len | by apply SB.empty_contents | done].
Qed.

(** A four-byte buffer receives six bytes, loses two and gets three more. *)
Definition demo_buf_ops : list buf_op := [BTakeIn [1; 2; 3; 4; 5; 6]; BPop 2; BInsert [7; 8; 9]; BPop 1].

Lemma stream_buffer_is_queue_witness :
  exists b, run_buf_ops demo_buf_ops (SB.make_sb 4) = Ok b /\
    SB.contents b = [4; 5; 6; 7; 8; 9] /\
    SB.size b = 6 /\ (SB.empty b = true <-> [4; 5; 6; 7; 8; 9] = []) /\
    zlen (SB.buffer_ b) <= Z.max 4 (2 * 7).
Proof.
  apply (stream_buffer_is_queue 4 demo_buf_ops); [lia|].
  repeat constructor; simpl; lia.
Defined.

(** ** A concrete socket

    What arrives is [inbox], [window] bytes may be sent before EAGAIN (a negative
    window makes [send] fail with EIO), [peer_closed] ends the stream,
    [pending_error] is SO_ERROR. *)

Definition EIO : Z := 5.

Record demo_sock := mk_sock {
  inbox : list byte;
  outbox : list byte;
  window : Z;
  peer_closed : bool;
  pending_error : Z
}.

#[export] Instance demo_stream : StreamKernel demo_sock := {
  sock_send k _ d :=
    let n := Z.min (window k) (zlen d) in
    match d with
    | [] => (k, Ret 0)
    | _ => if 0 <? n
           then (mk_sock (inbox k) (outbox k ++ ztake n d) (window k - n) (peer_closed k)
             (pending_error k), Ret n)
           else (k, Err (if window k <? 0 then EIO else EAGAIN))
    end;
  sock_readv k _ cap :=
    match inbox k with
    | [] => (k, if peer_closed k then Ret [] else Err EAGAIN)
    | _ => if 0 <? cap
           then (mk_sock (zdrop cap (inbox k)) (outbox k) (window k) (peer_closed k) (pending_error k),
                 Ret (ztake cap (inbox k)))
           else (k, Err EAGAIN)
    end;
  so_error k _ := (mk_sock (inbox k) (outbox k) (window k) (peer_closed k) 0, pending_error k);
  accepted k _ := outbox k;
  unread k _ := inbox k
}.

#[export] Instance demo_stream_laws : StreamLaws demo_sock.
Proof.
  split; simpl.
  - intros k _ d k' n H. destruct d as [|x d]; simplify_eq; [by rewrite app_nil_r|].
    destruct (Z.ltb_spec 0 (Z.min (window k) (zlen (x :: d)))); simplify_eq. simpl.
    split_and!; [lia | lia | done | done | done].
  - intros k _ d k' e H. destruct d; [done|]. by destruct (0 <? _); simplify_eq.
  - intros k _ cap k' d H. destruct (inbox k) as [|x i] eqn:Ei.
    + destruct (peer_closed k); simplify_eq. rewrite Ei. rewrite zlen_nil. split_and!; [lia|done|done].
    + destruct (Z.ltb_spec 0 cap); simplify_eq. simpl. rewrite ztake_zdrop, zlen_take.
      split_and!; [lia | done | done].
  - intros k _ cap k' e H. repeat case_match; by simplify_eq.
  - by intros k _ k' e [= <- <-].
Qed.

#[export] Instance demo_stream_net : StreamNet demo_sock := {
  stream_arrive d k _ := mk_sock (inbox k ++ d) (outbox k) (window k) (peer_closed k) (pending_error k)
}.

#[export] Instance demo_stream_net_laws : StreamNetLaws demo_sock.
Proof. by split. Qed.
