(* ===== verification/StreamLoops.v ===== *)
(** * StreamLoops: what sessions and clients do with their buffers

    The server session and the client of [src/net/inet.cpp] run the same three
    loops in their epoll callback (read until EAGAIN, write until the buffer is
    empty or EAGAIN, split the received bytes into frames) and the same send
    task.  They are modelled once here, on the part of the state the two share;
    [StreamServer] and [StreamClient] assemble them.  A loop takes fuel: one
    round more than the bytes it can move, which the theorems show to be enough
    ([Undef] stands for running out of it as well). *)

From S2P Require Import Prelude Events StreamBuffer LoopFd Channel StreamIo.

(** The virtual functions a socket calls; [U] is the state of the user.  A
    callback may post to the loop but cannot reach the socket's buffers. *)
Class StreamHandler (U : Type) := {
  on_split : list byte -> U -> U * Z;
  on_fragment : list byte -> U -> U;
  on_error : Z -> U -> U;
  on_disconnect : U -> U
}.

(** The contract of [on_split]: a frame is at most what is buffered. *)
Class SplitLaws (U : Type) `{StreamHandler U} := {
  on_split_bound d u u' n : on_split d u = (u', n) -> n <= zlen d
}.

Section loops.
Context {K : Type} `{SK : StreamKernel K} {L F U : Type} `{SH : StreamHandler U}.

(** What a callback or task does, in order: posts to the loop, calls of the
    user's functions. *)
Inductive obs :=
| ObsPost (p : post L F)
| ObsFragment (d : list byte)
| ObsError (err : Z)
| ObsDisconnect.

Record stream := mk_stream {
  kern : K;
  recv_buf_ : SB.stream_buffer;
  send_buf_ : SB.stream_buffer;
  channel_ : channel L;
  user_ : U;
  trace_ : list obs
}.

Definition fd_of (s : stream) : Z := get_fd (channel_ s).

Definition with_recv (k : K) (b : SB.stream_buffer) (s : stream) : stream :=
  mk_stream k b (send_buf_ s) (channel_ s) (user_ s) (trace_ s).
Definition with_send (k : K) (b : SB.stream_buffer) (s : stream) : stream :=
  mk_stream k (recv_buf_ s) b (channel_ s) (user_ s) (trace_ s).
Definition with_channel (c : channel L) (ps : list (post L F)) (s : stream) : stream :=
  mk_stream (kern s) (recv_buf_ s) (send_buf_ s) c (user_ s) (trace_ s ++ map ObsPost ps).
Definition with_user (u : U) (o : obs) (s : stream) : stream :=
  mk_stream (kern s) (recv_buf_ s) (send_buf_ s) (channel_ s) u (trace_ s ++ [o]).
Definition clear_recv (s : stream) : stream := with_recv (kern s) (SB.clear (recv_buf_ s)) s.
Definition clear_send (s : stream) : stream := with_send (kern s) (SB.clear (send_buf_ s)) s.

(** [update_event(old_types | kWrite, old_modes)] and [... & ~kWrite ...] *)
Definition want_write (s : stream) : stream :=
  let '(old_types, old_modes) := get_event_info (channel_ s) in
  let '(c, ps) := update_event (old_types ||| EventType.kWrite) old_modes (channel_ s) in
  with_channel c ps s.

Definition drop_write (s : stream) : stream :=
  let '(old_types, old_modes) := get_event_info (channel_ s) in
  let '(c, ps) := update_event (old_types &&& ~~~ EventType.kWrite) old_modes (channel_ s) in
  with_channel c ps s.

(** The reading loop; the result tells whether the peer disconnected. *)
Fixpoint read_loop (fuel : nat) (s : stream) : res (stream * bool) :=
  match fuel with
  | O => Undef
  | S fuel' =>
      r ← stream_recv (kern s) (fd_of s) (recv_buf_ s);
      let '(k, b, status) := r in
      let s1 := with_recv k b s in
      match status with
      | kSuccess => read_loop fuel' s1
      | kTryAgain => Ok (s1, false)
      | kDisconnected => Ok (s1, true)
      | kError => Ok (clear_recv s1, false)
      end
  end.

(** The writing loop. *)
Fixpoint write_loop (fuel : nat) (s : stream) : res (stream * bool) :=
  match fuel with
  | O => Undef
  | S fuel' =>
      r ← stream_send (kern s) (fd_of s) (send_buf_ s);
      let '(k, b, status) := r in
      let s1 := with_send k b s in
      match status with
      | kSuccess => if SB.empty b then Ok (drop_write s1, false) else write_loop fuel' s1
      | kTryAgain => Ok (s1, false)
      | kDisconnected => Ok (s1, true)
      | kError => Ok (clear_recv s1, false)
      end
  end.

(** [{recv_buf_.begin(), recv_buf_.begin() + consume_len}]: it may run past the
    live bytes, but not past the vector. *)
Definition frame_of (n : Z) (b : SB.stream_buffer) : res (list byte) :=
  if SB.reader_ b + n <=? zlen (SB.buffer_ b)
  then Ok (slice (SB.reader_ b) (SB.reader_ b + n) (SB.buffer_ b)) else Undef.

Fixpoint frame_loop (fuel : nat) (s : stream) : res stream :=
  match fuel with
  | O => Undef
  | S fuel' =>
      let '(u, consume_len) := on_split (SB.contents (recv_buf_ s)) (user_ s) in
      let s1 := mk_stream (kern s) (recv_buf_ s) (send_buf_ s) (channel_ s) u (trace_ s) in
      if consume_len <=? 0 then Ok s1
      else
        d ← frame_of consume_len (recv_buf_ s1);
        let s2 := with_user (on_fragment d u) (ObsFragment d) s1 in
        b ← SB.pop consume_len (recv_buf_ s2);
        frame_loop fuel' (with_recv (kern s2) b s2)
  end.

Definition read_fuel (s : stream) : nat := S (length (unread (kern s) (fd_of s))).
Definition write_fuel (s : stream) : nat := S (length (SB.contents (send_buf_ s))).
Definition frame_fuel (s : stream) : nat := S (length (SB.contents (recv_buf_ s))).

(** The part of [post_send_task]'s task after its first tests: an attempt to
    send directly, what is left is queued and the write interest declared. *)
Definition send_now (data : list byte) (s : stream) : res stream :=
  let '(k, (ret, status)) := stream_send_data (kern s) (fd_of s) data in
  let s1 := with_send k (send_buf_ s) s in
  match status with
  | kSuccess =>
      if u64 ret =? zlen data then Ok s1
      else
        b ← SB.insert (zdrop ret data) (send_buf_ s1);
        Ok (want_write (with_send (kern s1) b s1))
  | kTryAgain =>
      b ← SB.insert data (send_buf_ s1);
      Ok (want_write (with_send (kern s1) b s1))
  | kDisconnected | kError => Ok s1
  end.

Definition queue_send (data : list byte) (s : stream) : res stream :=
  b ← SB.insert data (send_buf_ s); Ok (with_send (kern s) b s).

(** The end of both callbacks: the peer is gone. *)
Definition disconnect (s : stream) : stream :=
  let s1 := clear_send (clear_recv s) in with_user (on_disconnect (user_ s1)) ObsDisconnect s1.

Definition report_error (err : Z) (s : stream) : stream :=
  let s1 := clear_send (clear_recv s) in with_user (on_error err (user_ s1)) (ObsError err) s1.

(** The subscription [start] makes: the write interest is included when bytes
    were queued meanwhile. *)
Definition start_types (s : stream) : Z :=
  if SB.empty (send_buf_ s) then EventType.kRead ||| EventType.kError
  else EventType.kRead ||| EventType.kWrite ||| EventType.kError.

Definition subscribe_stream (life : nat) (cb : F) (s : stream) : stream :=
  let '(c, ps) := update_event_cb life (start_types s) EventMode.kDefault cb (channel_ s) in
  with_channel c ps s.
End loops.
Arguments obs : clear implicits.
Arguments stream : clear implicits.

(** ** Invariant *)

Section facts.
Context {K : Type} `{SK : StreamKernel K, SL : !StreamLaws K} {L F U : Type}
  `{SH : StreamHandler U, SPL : !SplitLaws U}.
Implicit Types (s : stream K L F U).

(** Both buffers are sound, and bytes waiting to be sent are never without the
    write interest in the last subscription, so that the next EPOLLOUT resumes
    them. *)
Record buffers_ok s : Prop := {
  ok_recv : SB.sb_inv (recv_buf_ s);
  ok_send : SB.sb_inv (send_buf_ s)
}.

Definition write_armed s : Prop :=
  SB.contents (send_buf_ s) <> [] -> has (event_types_ (channel_ s)) EventType.kWrite = true.

Definition usable s : Prop := valid (channel_ s) <> None.

(** The two byte streams of a socket: what was accepted, then what waits ... *)
Definition sent_stream s : list byte :=
  accepted (kern s) (fd_of s) ++ SB.contents (send_buf_ s).
(** ... and what was received and not yet framed, then what will be read. *)
Definition received_stream s : list byte :=
  SB.contents (recv_buf_ s) ++ unread (kern s) (fd_of s).

(** The frames a trace delivered. *)
Definition fragments (tr : list (obs L F)) : list (list byte) :=
  omap (fun o => match o with ObsFragment d => Some d | _ => None end) tr.

Lemma fragments_app (t1 t2 : list (obs L F)) :
  fragments (t1 ++ t2) = fragments t1 ++ fragments t2.
Proof. apply omap_app. Qed.

Lemma fragments_posts (ps : list (post L F)) : fragments (map ObsPost ps) = [].
Proof. by induction ps. Qed.

Lemma update_event_valid types modes (c : channel L) c' ps :
  update_event (F := F) types modes c = (c', ps) ->
  valid c' = valid c /\ get_fd c' = get_fd c /\
  (valid c <> None -> event_types_ c' = types) /\
  (valid c = None -> c' = c).
Proof.
  unfold update_event. destruct (valid c) as [l|] eqn:Hv; intros; simplify_eq; [|done].
  assert (valid (mk_channel (in_loop_ c) (fd_ c) types modes) = valid c) as Hv' by done.
  unfold get_fd. by rewrite Hv', Hv.
Qed.

(** Changing the write interest touches the channel and the trace only. *)
Lemma want_write_facts s :
  let s' := want_write s in
  kern s' = kern s /\ recv_buf_ s' = recv_buf_ s /\ send_buf_ s' = send_buf_ s /\
  user_ s' = user_ s /\ fd_of s' = fd_of s /\ (usable s -> usable s') /\
  (exists ps, trace_ s' = trace_ s ++ map ObsPost ps) /\
  (usable s -> has (event_types_ (channel_ s')) EventType.kWrite = true).
Proof.
  intros s'. unfold s', want_write. destruct (get_event_info _) as [ot om] eqn:E.
  destruct (update_event _ _ _) as [c ps] eqn:Eu.
  destruct (update_event_valid _ _ _ _ _ Eu) as (Hv & Hf & Ht & _).
  unfold usable, fd_of. simpl. rewrite Hv, Hf.
  split_and!; try done; [by exists ps|]. intros Hu. rewrite Ht by done. apply add_write_bits.
Qed.

Lemma drop_write_facts s :
  let s' := drop_write s in
  kern s' = kern s /\ recv_buf_ s' = recv_buf_ s /\ send_buf_ s' = send_buf_ s /\
  user_ s' = user_ s /\ fd_of s' = fd_of s /\ (usable s -> usable s') /\
  (exists ps, trace_ s' = trace_ s ++ map ObsPost ps) /\
  (usable s -> has (event_types_ (channel_ s')) EventType.kWrite = false).
Proof.
  intros s'. unfold s', drop_write. destruct (get_event_info _) as [ot om] eqn:E.
  destruct (update_event _ _ _) as [c ps] eqn:Eu.
  destruct (update_event_valid _ _ _ _ _ Eu) as (Hv & Hf & Ht & _).
  unfold usable, fd_of. simpl. rewrite Hv, Hf.
  split_and!; try done; [by exists ps|]. intros Hu. rewrite Ht by done. apply drop_write_bits.
Qed.

(** [a]: whether the write interest is tracked (it is while a socket is
    connected; a client queues bytes before that without subscribing). *)
Record good (a : bool) s : Prop := mk_good {
  good_buffers : buffers_ok s;
  good_armed : a = true -> write_armed s;
  good_usable : usable s
}.

(** What none of the loops changes. *)
Record frame_kept s s' : Prop := {
  kept_fd : fd_of s' = fd_of s;
  kept_user : user_ s' = user_ s;
  kept_trace : exists ps, trace_ s' = trace_ s ++ map ObsPost ps
}.

Lemma kept_same s s' :
  fd_of s' = fd_of s -> user_ s' = user_ s -> trace_ s' = trace_ s -> frame_kept s s'.
Proof. intros ?? Ht. split; [done..|]. exists []. by rewrite Ht, app_nil_r. Qed.

Lemma kept_refl s : frame_kept s s.
Proof. by apply kept_same. Qed.

Lemma kept_trans s1 s2 s3 : frame_kept s1 s2 -> frame_kept s2 s3 -> frame_kept s1 s3.
Proof.
  intros [Hf Hu [ps Hp]] [Hf' Hu' [qs Hq]]. split; [congruence..|].
  exists (ps ++ qs). by rewrite Hq, Hp, map_app, app_assoc.
Qed.

Lemma kept_fragments s s' :
  frame_kept s s' -> fragments (trace_ s') = fragments (trace_ s).
Proof. intros [_ _ [ps ->]]. by rewrite fragments_app, fragments_posts, app_nil_r. Qed.

(** Everything was sent: the write interest is dropped. *)
Lemma drained_ok a s :
  good false s -> SB.contents (send_buf_ s) = [] ->
  good a (drop_write s) /\ frame_kept s (drop_write s) /\
  sent_stream (drop_write s) = sent_stream s /\ kern (drop_write s) = kern s /\
  received_stream (drop_write s) = received_stream s.
Proof.
  intros [[Hr Hs] _ Hu] Hemp.
  destruct (drop_write_facts s) as (Hk & Hrb & Hsb & Hus & Hfd & Huse & Hfr & _). split_and!.
  - split; [by split; rewrite ?Hrb, ?Hsb| |by apply Huse]. intros _ Hne. by rewrite Hsb in Hne.
  - split; [by rewrite Hfd | by rewrite Hus | done].
  - unfold sent_stream. by rewrite Hk, Hsb, Hfd.
  - done.
  - unfold received_stream. by rewrite Hk, Hrb, Hfd.
Qed.

(** Bytes are left only of bytes that were there. *)
Lemma stream_send_left k fd b k' b' :
  SB.sb_inv b -> stream_send k fd b = Ok (k', b', kSuccess) -> SB.empty b' = false -> SB.sb_inv b' ->
  SB.contents b <> [].
Proof.
  intros Hb E Hemp Hb' Hnil. rewrite (proj2 (SB.empty_contents b' Hb')) in Hemp; [done|].
  unfold stream_send in E. rewrite Hnil in E.
  destruct (sock_send _ _ _) as [? [n|]] eqn:Esend; [|repeat case_match; simplify_eq].
  inv_res. simplify_eq. apply send_ret in Esend as ([Hn0 _] & _).
  destruct (SB.pop_ok n _ Hb Hn0) as (b2 & Hp & _ & Hc & _).
  assert (b2 = b') as <- by congruence. rewrite Hc, Hnil. unfold zdrop. by rewrite drop_nil.
Qed.

(** A kernel that reports nothing but EAGAIN, the end of the stream and resets
    of the peer: no system error. *)
Class CleanKernel (P : K -> Prop) := {
  clean_send k fd d k' r : P k -> sock_send k fd d = (k', r) ->
    P k' /\ (forall e, r = Err e -> e = EAGAIN);
  clean_readv k fd cap k' r : P k -> sock_readv k fd cap = (k', r) ->
    P k' /\ (forall e, r = Err e -> e = EAGAIN \/ e = ECONNRESET);
  clean_error k fd k' e : P k -> so_error k fd = (k', e) ->
    P k' /\ (e = 0 \/ e = ECONNRESET \/ e = EPIPE)
}.

Lemma stream_send_clean P `{!CleanKernel P} k fd b k' b' st :
  P k -> stream_send k fd b = Ok (k', b', st) -> P k' /\ (st = kSuccess \/ st = kTryAgain).
Proof.
  intros HP H. unfold stream_send in H. destruct (sock_send _ _ _) as [k1 r] eqn:E.
  destruct (clean_send _ _ _ _ _ HP E) as [HP' He]. destruct r as [n|e].
  - inv_res. simplify_eq. auto.
  - simplify_eq. by rewrite (He e eq_refl), Z.eqb_refl; auto.
Qed.

Lemma stream_recv_clean P `{!CleanKernel P} k fd b k' b' st :
  P k -> stream_recv k fd b = Ok (k', b', st) -> P k' /\ st <> kError.
Proof.
  intros HP H. unfold stream_recv in H. destruct (sock_readv _ _ _) as [k1 r] eqn:E.
  destruct (clean_readv _ _ _ _ _ HP E) as [HP' He]. destruct r as [[|x d]|e].
  - by simplify_eq.
  - inv_res. by simplify_eq.
  - simplify_eq. split; [done|]. by destruct (He e eq_refl) as [-> | ->].
Qed.

Lemma read_loop_ok a fuel s :
  good a s -> (length (unread (kern s) (fd_of s)) < fuel)%nat ->
  exists s' d, read_loop fuel s = Ok (s', d) /\ good a s' /\ frame_kept s s' /\
    sent_stream s' = sent_stream s /\
    (forall P `{!CleanKernel P}, P (kern s) ->
       P (kern s') /\ received_stream s' = received_stream s).
Proof.
  revert s. induction fuel as [|fuel IH]; intros s Hg Hf; [lia|].
  destruct Hg as [[Hr Hs] Ha Hu]. simpl.
  destruct (stream_recv_ok (kern s) (fd_of s) (recv_buf_ s) Hr)
    as (k & b & st & E & Hb & Hst & Hacc & Hdec & Hkeep).
  rewrite E. simpl. set (s1 := with_recv k b s).
  assert (good a s1) as Hg1 by (split; [by split|done..]).
  assert (frame_kept s s1) as Hk1 by by apply kept_same.
  assert (sent_stream s1 = sent_stream s) as Hsent
    by (unfold sent_stream, fd_of, s1; simpl; unfold fd_of in Hacc; by rewrite Hacc).
  assert (received_stream s1 = received_stream s) as Hrecv by done.
  assert (forall P `{!CleanKernel P}, P (kern s) -> P k /\ st <> kError) as Hclean.
  { intros P HC HP. by eapply stream_recv_clean in E. }
  destruct st.
  - destruct (IH s1 Hg1) as (s' & d & -> & Hg' & Hk' & Hs' & Hc'); [specialize (Hdec eq_refl);
      change (fd_of s1) with (fd_of s); simpl; lia|].
    exists s', d. split_and!; [done|done|by eapply kept_trans|congruence|].
    intros P HC HP. destruct (Hclean P HC HP) as [HPk _].
    destruct (Hc' P HC HPk) as [? ->]. done.
  - exists s1, false. split_and!; try done. intros P HC HP. by destruct (Hclean P HC HP).
  - exists s1, true. split_and!; try done. intros P HC HP. by destruct (Hclean P HC HP).
  - exists (clear_recv s1), false. split_and!; try done.
    + destruct (SB.clear_ok b Hb) as (? & _). split; [by split|done..].
    + eapply kept_trans; [done | by apply kept_same].
    + intros P HC HP. by destruct (Hclean P HC HP) as [_ []].
Qed.

Lemma write_loop_ok a fuel s :
  good a s -> (length (SB.contents (send_buf_ s)) < fuel)%nat ->
  exists s' d, write_loop fuel s = Ok (s', d) /\ good a s' /\ frame_kept s s' /\
    sent_stream s' = sent_stream s /\
    (forall P `{!CleanKernel P}, P (kern s) ->
       P (kern s') /\ received_stream s' = received_stream s /\ d = false).
Proof.
  revert s. induction fuel as [|fuel IH]; intros s Hg Hf; [lia|].
  destruct Hg as [[Hr Hs] Ha Hu]. simpl.
  destruct (stream_send_ok (kern s) (fd_of s) (send_buf_ s) Hs)
    as (k & b & st & E & Hb & Hst & Hun & Hdec & Hkeep).
  rewrite E. simpl. set (s1 := with_send k b s).
  assert (frame_kept s s1) as Hk1 by by apply kept_same.
  assert (sent_stream s1 = sent_stream s) as Hsent by done.
  assert (received_stream s1 = received_stream s) as Hrecv
    by (unfold received_stream, fd_of, s1 in *; simpl; by rewrite Hun).
  assert (forall P `{!CleanKernel P}, P (kern s) -> P k /\ (st = kSuccess \/ st = kTryAgain)) as Hclean.
  { intros P HC HP. by eapply stream_send_clean in E. }
  assert (st <> kSuccess -> good a s1) as Hg1.
  { intros Hne. specialize (Hkeep Hne). subst b. split; [by split|done..]. }
  destruct st.
  - destruct (SB.empty b) eqn:Hemp.
    + apply SB.empty_contents in Hemp; [|done].
      destruct (drained_ok a s1) as (Hg & Hk & Hsd & Hkn & Hrd); [by split; [split|..]|done|].
      exists (drop_write s1), false. split_and!; [done|done|by eapply kept_trans|congruence|].
      intros P HC HP. rewrite Hkn, Hrd. by destruct (Hclean P HC HP).
    + assert (Hne : SB.contents (send_buf_ s) <> []) by (by eapply stream_send_left).
      assert (good a s1) as Hgs1 by (split; [by split|intros Haa _; by apply Ha|done]).
      destruct (IH s1 Hgs1) as (s' & d & -> & Hg' & Hk' & Hs' & Hc');
        [specialize (Hdec eq_refl Hne); simpl; lia|].
      exists s', d. split_and!; [done|done|by eapply kept_trans|congruence|].
      intros P HC HP. destruct (Hclean P HC HP) as [HPk _].
      destruct (Hc' P HC HPk) as (? & -> & ->). done.
  - exists s1, false. split_and!; try done; [by apply Hg1|].
    intros P HC HP. by destruct (Hclean P HC HP).
  - exists s1, true. split_and!; try done; [by apply Hg1|].
    intros P HC HP. by destruct (Hclean P HC HP) as [_ [|]].
  - exists (clear_recv s1), false. destruct Hg1 as [[Hr1 Hs1] Ha1 Hu1]; [done|].
    destruct (SB.clear_ok _ Hr1) as (? & _). split_and!; try done.
    + eapply kept_trans; [done | by apply kept_same].
    + intros P HC HP. by destruct (Hclean P HC HP) as [_ [|]].
Qed.

Lemma frame_of_ok n b :
  SB.sb_inv b -> 0 < n -> n <= zlen (SB.contents b) ->
  frame_of n b = Ok (ztake n (SB.contents b)).
Proof.
  intros Hi Hn Hle. rewrite SB.contents_len in Hle by done. destruct Hi.
  unfold frame_of, SB.size in *. destruct (Z.leb_spec (SB.reader_ b + n) (zlen (SB.buffer_ b))); [|lia].
  unfold SB.contents. by rewrite ztake_slice by lia.
Qed.

(** What the user's split callback makes of some received bytes: a frame, or
    nothing yet. *)
Definition frame_cut (f : list byte) : Prop :=
  exists d u, 0 < (on_split d u).2 /\ f = ztake (on_split d u).2 d.
Definition no_frame (d : list byte) : Prop := exists u, (on_split d u).2 <= 0.

(** Frames cut one after the other from the bytes [l], each when a first part of
    what follows the frames before it had been received. *)
Inductive cut_from : list byte -> list (list byte) -> Prop :=
| cut_none l : cut_from l []
| cut_frame l d u l' fs :
    d `prefix_of` l -> 0 < (on_split d u).2 -> l = ztake (on_split d u).2 d ++ l' ->
    cut_from l' fs -> cut_from l (ztake (on_split d u).2 d :: fs).

Lemma cut_from_cut l fs : cut_from l fs -> Forall frame_cut fs.
Proof. induction 1 as [|l d u l' fs Hp Hn Hl _ IH]; constructor; [by exists d, u|done]. Qed.

Lemma cut_from_more l r fs : cut_from l fs -> cut_from (l ++ r) fs.
Proof.
  induction 1 as [|l d u l' fs Hp Hn Hl _ IH]; [constructor|].
  apply (cut_frame _ d u (l' ++ r)); [by apply prefix_app_r|done| |done].
  by rewrite Hl at 1; rewrite app_assoc.
Qed.

Lemma cut_from_app l l' fs fs' :
  cut_from l fs -> l = concat fs ++ l' -> cut_from l' fs' -> cut_from l (fs ++ fs').
Proof.
  intros H. revert l'. induction H as [|l d u l1 fs Hp Hn Hl _ IH]; intros l' He H'; [by simpl in He;
    subst|].
  simpl in *. apply (cut_frame _ d u l1); [done..|]. apply (IH l'); [|done].
  rewrite <- app_assoc in He. rewrite He in Hl. by apply app_inv_head in Hl.
Qed.

Lemma cut_from_prefix l fs fs' : cut_from l (fs ++ fs') -> cut_from l fs.
Proof.
  revert l. induction fs as [|f fs IH]; intros l H; [constructor|]. inversion H; subst.
  econstructor; [done..|]. by apply IH.
Qed.

Lemma no_frame_nil (u : U) : no_frame [].
Proof.
  exists u. destruct (on_split [] u) as [u' n] eqn:E. apply on_split_bound in E.
  by change (zlen (@nil byte)) with 0 in E.
Qed.

(** The splitting loop: the frames it hands out and what stays in the buffer
    are, in order, exactly what was in the buffer; each frame is one the user
    cut, and the loop stops when the user sees no complete frame. *)
Lemma frame_loop_ok a fuel s :
  good a s -> (length (SB.contents (recv_buf_ s)) < fuel)%nat ->
  exists s' fs, frame_loop fuel s = Ok s' /\ good a s' /\
    kern s' = kern s /\ send_buf_ s' = send_buf_ s /\ channel_ s' = channel_ s /\
    trace_ s' = trace_ s ++ map ObsFragment fs /\
    concat fs ++ SB.contents (recv_buf_ s') = SB.contents (recv_buf_ s) /\
    cut_from (SB.contents (recv_buf_ s)) fs /\ no_frame (SB.contents (recv_buf_ s')).
Proof.
  revert s. induction fuel as [|fuel IH]; intros s Hg Hf; [lia|].
  destruct Hg as [[Hr Hs] Ha Hu]. simpl.
  destruct (on_split (SB.contents (recv_buf_ s)) (user_ s)) as [u n] eqn:Hsp.
  set (s1 := mk_stream (kern s) (recv_buf_ s) (send_buf_ s) (channel_ s) u (trace_ s)).
  destruct (Z.leb_spec n 0).
  { exists s1, []. split_and!; try done; [by simpl; rewrite app_nil_r|constructor|].
    exists (user_ s). simpl. by rewrite Hsp. }
  pose proof (on_split_bound _ _ _ _ Hsp) as Hbound.
  change (recv_buf_ s1) with (recv_buf_ s). rewrite frame_of_ok by done. simpl.
  set (d := ztake n (SB.contents (recv_buf_ s))).
  destruct (SB.pop_ok n (recv_buf_ s) Hr) as (b & -> & Hb & Hc & _); [lia|]. simpl.
  set (s2 := with_recv _ b _).
  assert (good a s2) as Hg2 by (split; [by split|done..]).
  destruct (IH s2 Hg2) as (s' & fs & -> & Hg' & Hk & Hsb & Hch & Htr & Hcat & Hcut & Hend).
  { simpl. rewrite Hc. unfold zdrop, zlen in *. rewrite length_drop. lia. }
  exists s', (d :: fs). split_and!; try done.
  - rewrite Htr. simpl. by rewrite <- app_assoc.
  - simpl. rewrite <- app_assoc, Hcat. simpl. rewrite Hc. apply ztake_zdrop.
  - pose proof (cut_frame (SB.contents (recv_buf_ s)) (SB.contents (recv_buf_ s)) (user_ s)
      (zdrop n (SB.contents (recv_buf_ s))) fs) as H1. rewrite Hsp in H1. simpl in H1, Hcut.
    rewrite Hc in Hcut. apply H1; [done|lia|by rewrite ztake_zdrop|done].
Qed.

Lemma send_now_recv data s s' : send_now data s = Ok s' -> recv_buf_ s' = recv_buf_ s.
Proof.
  unfold send_now. destruct (stream_send_data _ _ _) as [k [ret st]].
  assert (Hw : forall s1, recv_buf_ (want_write s1) = recv_buf_ s1).
  { intros s1. by destruct (want_write_facts s1) as (_ & -> & _). }
  destruct st; [destruct (_ =? _)| | |]; intros H; inv_res; simplify_eq; by rewrite ?Hw.
Qed.

Lemma stream_send_data_clean P `{!CleanKernel P} k fd (data : list byte) k' ret st :
  P k -> stream_send_data k fd data = (k', (ret, st)) -> P k' /\ (st = kSuccess \/ st = kTryAgain).
Proof.
  intros HP E. unfold stream_send_data in E. destruct (sock_send _ _ _) as [k1 r] eqn:Es.
  destruct (clean_send _ _ _ _ _ HP Es) as [HP' He]. destruct r as [|e]; simplify_eq; [auto|].
  by rewrite (He e eq_refl), Z.eqb_refl; auto.
Qed.

(** Queueing what the kernel did not take. *)
Lemma queue_rest_ok a rest s :
  good a s ->
  exists s', (b ← SB.insert rest (send_buf_ s); Ok (want_write (with_send (kern s) b s))) = Ok s' /\
    good a s' /\ frame_kept s s' /\ received_stream s' = received_stream s /\ kern s' = kern s /\
    sent_stream s' = sent_stream s ++ rest.
Proof.
  intros [[Hr Hs] _ Hu]. destruct (SB.insert_ok rest (send_buf_ s) Hs) as (b & -> & Hb & Hc & _).
  simpl. set (s2 := with_send (kern s) b s).
  destruct (want_write_facts s2) as (Hk & Hrb & Hsb & Hus & Hfd & Huse & Hfr & Hw).
  exists (want_write s2). split_and!; [done| | | | |].
  - split; [by split; rewrite ?Hrb, ?Hsb | intros _ _; by apply Hw | by apply Huse].
  - split; [by rewrite Hfd | by rewrite Hus | done].
  - unfold received_stream. by rewrite Hk, Hrb, Hfd.
  - by rewrite Hk.
  - unfold sent_stream. rewrite Hk, Hsb, Hfd. simpl. by rewrite Hc, app_assoc.
Qed.

(** A direct send: the bytes join the outgoing stream whole, accepted or
    buffered, or (peer gone, system error) are dropped whole. *)
Lemma send_now_ok a (data : list byte) s :
  good a s -> SB.contents (send_buf_ s) = [] -> zlen data < 2 ^ 63 ->
  exists s', send_now data s = Ok s' /\ good a s' /\ frame_kept s s' /\
    received_stream s' = received_stream s /\
    (sent_stream s' = sent_stream s ++ data \/ sent_stream s' = sent_stream s) /\
    (forall P `{!CleanKernel P}, P (kern s) ->
       P (kern s') /\ sent_stream s' = sent_stream s ++ data).
Proof.
  intros [[Hr Hs] Ha Hu] Hemp Hlen. pose proof (zlen_nonneg data) as Hnn. unfold send_now.
  destruct (stream_send_data (kern s) (fd_of s) data) as [k [ret st]] eqn:E.
  destruct (stream_send_data_ok _ _ _ _ _ _ E) as (Hun & Hsucc & Hother).
  set (s1 := with_send k (send_buf_ s) s).
  assert (good a s1) as Hg1 by (split; [by split|done..]).
  assert (frame_kept s s1) as Hk1 by by apply kept_same.
  assert (received_stream s1 = received_stream s) as Hrec
    by (unfold received_stream, s1, fd_of in *; simpl; by rewrite Hun).
  assert (Hcl : forall P `{!CleanKernel P}, P (kern s) -> P k /\ (st = kSuccess \/ st = kTryAgain))
    by (intros P HC HP; by eapply stream_send_data_clean).
  assert (Hqueue : forall rest, sent_stream s1 ++ rest = sent_stream s ++ data ->
    exists s', (b ← SB.insert rest (send_buf_ s1); Ok (want_write (with_send (kern s1) b s1))) = Ok s' /\
      good a s' /\ frame_kept s s' /\ received_stream s' = received_stream s /\ kern s' = k /\
      sent_stream s' = sent_stream s ++ data).
  { intros rest Hrest. destruct (queue_rest_ok a rest s1 Hg1) as (s' & ? & ? & Hk & Hr' & ? & Hsent).
    exists s'. split_and!; [done|done|by eapply kept_trans|congruence|done|congruence]. }
  assert (Hsame : st <> kSuccess -> sent_stream s1 = sent_stream s)
    by (intros Hne; unfold sent_stream, s1, fd_of in *; simpl; by rewrite (Hother Hne)).
  destruct st.
  - destruct (Hsucc eq_refl) as [Hret Hacc].
    assert (Hs1 : sent_stream s1 = sent_stream s ++ ztake ret data).
    { unfold sent_stream, s1 in *. unfold fd_of in *. simpl. by rewrite Hacc, Hemp, !app_nil_r. }
    assert (u64 ret = ret) as -> by (apply wrap_id; unfold in_u; lia).
    destruct (Z.eqb_spec ret (zlen data)) as [Hall|].
    + exists s1. rewrite ztake_all in Hs1 by lia. split_and!; try done; [by left|].
      intros P HC HP. by destruct (Hcl P HC HP).
    + destruct (Hqueue (zdrop ret data)) as (s' & -> & ? & ? & ? & Hk & Hsent).
      { by rewrite Hs1, <- app_assoc, ztake_zdrop. }
      exists s'. split_and!; try done; [by left|]. intros P HC HP. rewrite Hk.
      by destruct (Hcl P HC HP).
  - destruct (Hqueue data) as (s' & -> & ? & ? & ? & Hk & Hsent); [by rewrite Hsame|].
    exists s'. split_and!; try done; [by left|]. intros P HC HP. rewrite Hk.
    by destruct (Hcl P HC HP).
  - exists s1. split_and!; try done; [right; by apply Hsame|].
    intros P HC HP. by destruct (Hcl P HC HP) as [_ [|]].
  - exists s1. split_and!; try done; [right; by apply Hsame|].
    intros P HC HP. by destruct (Hcl P HC HP) as [_ [|]].
Qed.

Lemma queue_send_ok (data : list byte) s :
  buffers_ok s ->
  exists s', queue_send data s = Ok s' /\ buffers_ok s' /\ kern s' = kern s /\
    recv_buf_ s' = recv_buf_ s /\ channel_ s' = channel_ s /\ user_ s' = user_ s /\
    trace_ s' = trace_ s /\ sent_stream s' = sent_stream s ++ data /\
    SB.contents (send_buf_ s') = SB.contents (send_buf_ s) ++ data.
Proof.
  intros [Hr Hs]. unfold queue_send.
  destruct (SB.insert_ok data (send_buf_ s) Hs) as (b & -> & Hb & Hc & _). simpl.
  eexists. split_and!; try done. unfold sent_stream, fd_of. simpl. by rewrite Hc, app_assoc.
Qed.

(** Both ways of giving up leave empty, sound buffers. *)
Lemma cleared_good a s u o : good a s -> good a (with_user u o (clear_send (clear_recv s))).
Proof.
  intros [[Hr Hs] Ha Hu]. destruct (SB.clear_ok _ Hr) as (? & _).
  destruct (SB.clear_ok _ Hs) as (? & Hc & _). split; [by split| |done].
  intros _ Hne. by destruct (Hne Hc).
Qed.

Lemma cleared_contents a s u o :
  good a s ->
  let s' := with_user u o (clear_send (clear_recv s)) in
  SB.contents (recv_buf_ s') = [] /\ SB.contents (send_buf_ s') = [].
Proof.
  intros [[Hr Hs] _ _] s'. by split; [apply (SB.clear_ok _ Hr) | apply (SB.clear_ok _ Hs)].
Qed.
End facts.
