(* ===== verification/StreamSession.v ===== *)
(** * StreamSession: one connection of a stream server

    Models [StreamServerSocket::StreamSession] of [src/net/inet.cpp] and
    [include/kzevent/net/inet.hpp]: the task of [post_send_task], the epoll
    callback of [start], and [start] itself, on the state of [StreamLoops].
    [server_alive] is the outcome of [server_.lock()]. *)

From S2P Require Import Prelude Events StreamBuffer LoopFd Channel StreamIo StreamLoops.

Section session.
Context {K : Type} `{SK : StreamKernel K} {L F U : Type} `{SH : StreamHandler U}.
Implicit Types (s : stream K L F U).

(** The task [post_send_task] posts. *)
Definition session_send (server_alive : bool) (data : list byte) (s : stream K L F U)
    : res (stream K L F U) :=
  if negb server_alive then Ok s
  else if negb (SB.empty (send_buf_ s)) then queue_send data s
  else send_now data s.

Definition read_part (types : Z) (s : stream K L F U) : res (stream K L F U * bool) :=
  if has types EventType.kRead then read_loop (read_fuel s) s else Ok (s, false).

Definition write_part (types : Z) (s : stream K L F U) : res (stream K L F U * bool) :=
  if has types EventType.kWrite then write_loop (write_fuel s) s else Ok (s, false).

(** The error event: SO_ERROR is read and cleared; a reset is a disconnection,
    anything else is reported after both buffers are emptied. *)
Definition session_error (types : Z) (s : stream K L F U) : stream K L F U * bool :=
  if has types EventType.kError then
    let '(k, err) := so_error (kern s) (fd_of s) in
    let s1 := with_recv k (recv_buf_ s) s in
    if err =? 0 then (s1, false)
    else if (err =? ECONNRESET) || (err =? EPIPE) then (s1, true)
    else (report_error err s1, false)
  else (s, false).

(** The callback [start] installs. *)
Definition session_cb (server_alive : bool) (types : Z) (s : stream K L F U)
    : res (stream K L F U) :=
  if negb server_alive then Ok s
  else
    r1 ← read_part types s;
    r2 ← write_part types r1.1;
    let r3 := session_error types r2.1 in
    s4 ← frame_loop (frame_fuel r3.1) r3.1;
    if r1.2 || r2.2 || r3.2 then Ok (disconnect s4) else Ok s4.

(** [start()]: install the callback, with the write interest when needed. *)
Definition session_start (life : nat) (cb : F) (s : stream K L F U) : stream K L F U :=
  subscribe_stream life cb s.

(** A session as the constructor leaves it. *)
Definition session_ctor (loop : L) (fd : Z) (k : K) (u : U) : stream K L F U :=
  let '(c, ps) := channel_ctor loop fd in
  mk_stream k (SB.make_sb UINT16_MAX) (SB.make_sb UINT16_MAX) c u (map ObsPost ps).

(** The life of a session on the io thread: it is started, then runs send
    tasks and callbacks in some order. *)
Inductive session_op :=
| SendTask (server_alive : bool) (data : list byte)
| Callback (server_alive : bool) (types : Z).

Definition run_session_op (o : session_op) (s : stream K L F U) : res (stream K L F U) :=
  match o with
  | SendTask alive data => session_send alive data s
  | Callback alive types => session_cb alive types s
  end.

Fixpoint run_session_ops (os : list session_op) (s : stream K L F U) : res (stream K L F U) :=
  match os with
  | [] => Ok s
  | o :: os' => s1 ← run_session_op o s; run_session_ops os' s1
  end.

(** What was given to [post_send_task] while the server lived. *)
Definition op_data (o : session_op) : list byte :=
  match o with SendTask true d => d | _ => [] end.
End session.
Arguments session_op : clear implicits.

(** ** Theorems *)

Section facts.
Context {K : Type} `{SK : StreamKernel K, SL : !StreamLaws K} {L F U : Type}
  `{SH : StreamHandler U, SPL : !SplitLaws U}.
Implicit Types (s : stream K L F U).

Definition grows s s' : Prop := exists l, trace_ s' = trace_ s ++ l.

Lemma grows_refl s : grows s s.
Proof. exists []. by rewrite app_nil_r. Qed.

Lemma grows_trans s1 s2 s3 : grows s1 s2 -> grows s2 s3 -> grows s1 s3.
Proof. intros [l1 H1] [l2 H2]. exists (l1 ++ l2). by rewrite H2, H1, app_assoc. Qed.

Lemma kept_grows s s' : frame_kept s s' -> grows s s'.
Proof. intros [_ _ [ps H]]. by eexists. Qed.

(** Each of the first three parts of the callback, with what it preserves. *)
Lemma read_part_ok a types s :
  good a s -> exists s' d, read_part types s = Ok (s', d) /\ good a s' /\ frame_kept s s' /\
    sent_stream s' = sent_stream s /\
    (forall P `{!CleanKernel P}, P (kern s) -> P (kern s') /\ received_stream s' = received_stream s).
Proof.
  intros Hg. unfold read_part. destruct (has types _).
  - apply read_loop_ok; [done|]. unfold read_fuel. lia.
  - exists s, false. split_and!; try done. apply kept_refl.
Qed.

Lemma write_part_ok a types s :
  good a s -> exists s' d, write_part types s = Ok (s', d) /\ good a s' /\ frame_kept s s' /\
    sent_stream s' = sent_stream s /\
    (forall P `{!CleanKernel P}, P (kern s) ->
       P (kern s') /\ received_stream s' = received_stream s /\ d = false).
Proof.
  intros Hg. unfold write_part. destruct (has types _).
  - apply write_loop_ok; [done|]. unfold write_fuel. lia.
  - exists s, false. split_and!; try done. apply kept_refl.
Qed.

Lemma session_error_ok types s :
  good true s -> exists s' d, session_error types s = (s', d) /\ good true s' /\ fd_of s' = fd_of s /\
    grows s s' /\ fragments (trace_ s') = fragments (trace_ s) /\
    (forall P `{!CleanKernel P}, P (kern s) ->
       P (kern s') /\ received_stream s' = received_stream s /\ sent_stream s' = sent_stream s).
Proof.
  intros Hg. unfold session_error. destruct (has types _);
    [|by exists s, false; split_and!; try apply grows_refl].
  destruct (so_error (kern s) (fd_of s)) as [k err] eqn:E.
  destruct (so_error_views _ _ _ _ E) as [Hacc Hun].
  set (s1 := with_recv k (recv_buf_ s) s).
  assert (good true s1) as Hg1 by (destruct Hg as [[] ? ?]; split; [by split|done..]).
  assert (Hviews : received_stream s1 = received_stream s /\ sent_stream s1 = sent_stream s).
  { unfold received_stream, sent_stream, s1, fd_of in *. simpl. by rewrite Hacc, Hun. }
  assert (Hcl : forall P `{!CleanKernel P}, P (kern s) -> P k /\
    ((err =? 0) = true \/ ((err =? ECONNRESET) || (err =? EPIPE)) = true)).
  { intros P HC HP. destruct (clean_error _ _ _ _ HP E) as [? [-> | [-> | ->]]]; auto. }
  destruct (err =? 0); [|destruct ((err =? ECONNRESET) || (err =? EPIPE))].
  - exists s1, false. split_and!; try done; [apply (grows_refl s)|].
    intros P HC HP. by destruct (Hcl P HC HP).
  - exists s1, true. split_and!; try done; [apply (grows_refl s)|].
    intros P HC HP. by destruct (Hcl P HC HP).
  - eexists _, false. split_and!; [done|by apply cleared_good|done|by eexists| |].
    + unfold report_error. simpl. by rewrite fragments_app, app_nil_r.
    + intros P HC HP. by destruct (Hcl P HC HP) as [_ [|]].
Qed.

Lemma fragments_frames (fs : list (list byte)) :
  fragments (map (ObsFragment (L := L) (F := F)) fs) = fs.
Proof. induction fs as [|f fs IH]; [done|]. simpl. by f_equal. Qed.

Lemma disconnect_no_frame s : good true s -> no_frame (SB.contents (recv_buf_ (disconnect s))).
Proof.
  intros Hg. destruct (cleared_contents true s (on_disconnect (user_ s)) ObsDisconnect Hg) as [H _].
  unfold disconnect. simpl in *. rewrite H. exact (no_frame_nil (user_ s)).
Qed.

(** The callback on a live server, part by part. *)
Lemma session_cb_parts types s :
  good true s ->
  exists s3 s4 d fs,
    session_cb true types s = Ok (if d : bool then disconnect s4 else s4) /\
    good true s3 /\ good true s4 /\ fd_of s4 = fd_of s /\ fd_of s3 = fd_of s /\ kern s4 = kern s3 /\
    send_buf_ s4 = send_buf_ s3 /\ grows s s4 /\
    fragments (trace_ s4) = fragments (trace_ s) ++ fs /\
    concat fs ++ SB.contents (recv_buf_ s4) = SB.contents (recv_buf_ s3) /\
    cut_from (SB.contents (recv_buf_ s3)) fs /\ no_frame (SB.contents (recv_buf_ s4)) /\
    (forall P `{!CleanKernel P}, P (kern s) ->
       P (kern s3) /\ received_stream s3 = received_stream s /\ sent_stream s3 = sent_stream s).
Proof.
  intros Hg. unfold session_cb. cbn [negb].
  destruct (read_part_ok true types s Hg) as (s1 & d1 & -> & Hg1 & Hk1 & Hs1 & Hc1).
  cbn [mbind res_bind fst snd].
  destruct (write_part_ok true types s1 Hg1) as (s2 & d2 & -> & Hg2 & Hk2 & Hs2 & Hc2).
  cbn [mbind res_bind fst snd].
  destruct (session_error_ok types s2 Hg2) as (s3 & d3 & -> & Hg3 & Hf3 & Hgr3 & Hfr3 & Hc3).
  cbn [mbind res_bind fst snd].
  destruct (frame_loop_ok true (frame_fuel s3) s3 Hg3)
    as (s4 & fs & -> & Hg4 & Hk & Hsb & Hch & Htr & Hcat & Hcut & Hend); [unfold frame_fuel; lia|].
  cbn [mbind res_bind fst snd]. exists s3, s4, (d1 || d2 || d3), fs.
  pose proof (kept_trans _ _ _ Hk1 Hk2) as Hk12. pose proof (kept_grows _ _ Hk12) as Hgr.
  pose proof (kept_fragments _ _ Hk12) as Hfr.
  destruct Hk12 as [Hf Hu _].
  assert (fd_of s4 = fd_of s3) as Hf4 by (unfold fd_of; by rewrite Hch).
  split_and!; try done; [by destruct (d1 || d2 || d3)|congruence|congruence| | |].
  - eapply grows_trans; [|by eexists]. by eapply grows_trans.
  - rewrite Htr, fragments_app, fragments_frames. congruence.
  - intros P HC HP. destruct (Hc1 P HC HP) as [HP1 Hr1]. destruct (Hc2 P HC HP1) as (HP2 & Hr2 & _).
    destruct (Hc3 P HC HP2) as (HP3 & Hr3 & Hse3). split_and!; [done|congruence|congruence].
Qed.

(** The epoll callback of a session, whatever the kernel answers and
    whatever events it is called with: it terminates without leaving defined
    behaviour, leaves sound buffers, and leaves no byte waiting to be sent
    without the write interest; and whatever it leaves in the receive buffer
    contains no complete frame. *)
Lemma session_cb_safe server_alive types s :
  good true s ->
  exists s', session_cb server_alive types s = Ok s' /\ good true s' /\
    (server_alive = true -> no_frame (SB.contents (recv_buf_ s'))).
Proof.
  intros Hg. destruct server_alive; [|by exists s].
  destruct (session_cb_parts types s Hg)
    as (s3 & s4 & d & fs & -> & Hg3 & Hg4 & _ & _ & _ & _ & _ & _ & _ & _ & Hend & _).
  eexists. split; [done|]. destruct d; [|done].
  split; [by apply cleared_good|]. intros _. by apply disconnect_no_frame.
Qed.

Lemma disconnect_seen s : ObsDisconnect ∈ trace_ (disconnect s).
Proof. unfold disconnect. simpl. set_solver. Qed.

(** The two streams of a session, as long as the peer is there and the kernel
    reports no system error: [data] was posted, frames were cut. *)
Definition streams_step (data : list byte) s s' : Prop :=
  forall P `{!CleanKernel P}, P (kern s) -> ObsDisconnect ∉ trace_ s' ->
    P (kern s') /\ sent_stream s' = sent_stream s ++ data /\
    exists fs, fragments (trace_ s') = fragments (trace_ s) ++ fs /\
      cut_from (received_stream s) fs /\ concat fs ++ received_stream s' = received_stream s.

(** What was delivered is what the split callback cut, whatever happens. *)
Definition cuts s s' : Prop :=
  exists fs, fragments (trace_ s') = fragments (trace_ s) ++ fs /\ Forall frame_cut fs.

Lemma cuts_none s s' : fragments (trace_ s') = fragments (trace_ s) -> cuts s s'.
Proof. intros H. exists []. by rewrite H, app_nil_r. Qed.

Lemma cuts_trans s1 s2 s3 : cuts s1 s2 -> cuts s2 s3 -> cuts s1 s3.
Proof.
  intros (f1 & H1 & C1) (f2 & H2 & C2). exists (f1 ++ f2). rewrite H2, H1, app_assoc.
  split; [done|by apply Forall_app].
Qed.

Definition settled s : Prop := no_frame (SB.contents (recv_buf_ s)).

Lemma streams_step_quiet data s s' :
  fragments (trace_ s') = fragments (trace_ s) -> received_stream s' = received_stream s ->
  (forall P `{!CleanKernel P}, P (kern s) -> P (kern s') /\ sent_stream s' = sent_stream s ++ data) ->
  streams_step data s s'.
Proof.
  intros Hf Hr Hs P HC HP _. destruct (Hs P HC HP) as [HP' Hsent]. split_and!; [done|done|].
  exists []. rewrite Hf, Hr, app_nil_r. split_and!; [done|constructor|done].
Qed.

Lemma streams_step_refl s : streams_step [] s s.
Proof. apply streams_step_quiet; [done|done|]. intros P HC HP. by rewrite app_nil_r. Qed.

Lemma send_op_ok data s :
  good true s -> zlen data < 2 ^ 63 ->
  exists s', session_send true data s = Ok s' /\ good true s' /\ grows s s' /\ fd_of s' = fd_of s /\
    recv_buf_ s' = recv_buf_ s /\ fragments (trace_ s') = fragments (trace_ s) /\
    streams_step data s s'.
Proof.
  intros Hg Hlen. unfold session_send. cbn [negb]. destruct (SB.empty (send_buf_ s)) eqn:He; cbn [negb].
  - apply SB.empty_contents in He; [|by destruct Hg as [[]]].
    destruct (send_now_ok true data s Hg He Hlen) as (s' & Hr & Hg' & Hk & Hrec & _ & Hc).
    exists s'. split_and!; [done|done|by apply kept_grows|by destruct Hk|by eapply send_now_recv|
      by apply kept_fragments|].
    by apply streams_step_quiet; [apply kept_fragments|..].
  - destruct (queue_send_ok data s) as (s' & Hr & Hb & Hk & Hrb & Hch & Hu & Htr & Hs & Hcs);
      [by destruct Hg|].
    assert (SB.contents (send_buf_ s) <> []) as Hne.
    { intros Hn%SB.empty_contents; [congruence | by destruct Hg as [[]]]. }
    exists s'. split_and!; [done| |exists []; by rewrite Htr, app_nil_r|by unfold fd_of; rewrite Hch|done|
      by rewrite Htr|].
    + destruct Hg as [_ Ha Hus]. unfold write_armed, usable in *.
      split; unfold write_armed, usable; rewrite ?Hch; auto.
    + apply streams_step_quiet; [by rewrite Htr| |intros P HC HP; by rewrite Hk].
      unfold received_stream, fd_of. by rewrite Hk, Hrb, Hch.
Qed.

Lemma event_op_ok types s :
  good true s ->
  exists s', session_cb true types s = Ok s' /\ good true s' /\ grows s s' /\ fd_of s' = fd_of s /\
    settled s' /\ cuts s s' /\ streams_step [] s s'.
Proof.
  intros Hg. destruct (session_cb_parts types s Hg) as (s3 & s4 & d & fs & -> & Hg3 & Hg4 & Hf4 & Hf3
    & Hk & Hsb & Hgr & Hfr & Hcat & Hcut & Hend & Hc).
  eexists. split; [done|]. destruct d.
  { split_and!; [by apply cleared_good|eapply grows_trans;
      [done|by eexists]|done|by apply disconnect_no_frame| |].
    { exists fs. split; [|by eapply cut_from_cut]. unfold disconnect. simpl.
      by rewrite fragments_app, app_nil_r. }
    intros P HC HP Hd. by destruct (Hd (disconnect_seen s4)). }
  split_and!; [done|done|done|done|exists fs; split; [done|by eapply cut_from_cut]|].
  intros P HC HP _. destruct (Hc P HC HP) as (HP3 & Hr3 & Hs3).
  rewrite Hk. split_and!; [done| |].
  - rewrite app_nil_r, <- Hs3. unfold sent_stream. by rewrite Hk, Hsb, Hf4, Hf3.
  - exists fs. split_and!; [done|rewrite <- Hr3; by apply cut_from_more|]. rewrite <- Hr3.
    unfold received_stream.
    by rewrite app_assoc, Hcat, Hk, Hf4, Hf3.
Qed.

(** The callback that sees the end of the stream cuts its frames first. *)
Lemma event_frames P `{!CleanKernel P} types s :
  good true s -> P (kern s) ->
  exists s' fs rest, session_cb true types s = Ok s' /\
    fragments (trace_ s') = fragments (trace_ s) ++ fs /\
    cut_from (received_stream s) fs /\ concat fs ++ rest = received_stream s.
Proof.
  intros Hg HP. destruct (session_cb_parts types s Hg) as (s3 & s4 & d & fs & -> & Hg3 & Hg4 & Hf4 & Hf3
    & Hk & Hsb & Hgr & Hfr & Hcat & Hcut & Hend & Hc).
  destruct (Hc P _ HP) as (HP3 & Hr3 & _).
  exists (if d then disconnect s4 else s4), fs, (SB.contents (recv_buf_ s4) ++ unread (kern s3) (fd_of s3)).
  split; [done|]. rewrite <- Hr3. unfold received_stream at 1. split_and!.
  - destruct d; [|done]. unfold disconnect. simpl. by rewrite fragments_app, app_nil_r.
  - by apply cut_from_more.
  - unfold received_stream. by rewrite app_assoc, Hcat.
Qed.

(** What one operation does. *)
Lemma session_op_ok o s :
  good true s -> zlen (op_data o) < 2 ^ 63 ->
  exists s', run_session_op o s = Ok s' /\ good true s' /\ grows s s' /\ fd_of s' = fd_of s /\
    (settled s -> settled s') /\ cuts s s' /\ streams_step (op_data o) s s'.
Proof.
  intros Hg Hlen.
  destruct o as [[] data|[] types]; cbn [run_session_op op_data] in *;
    try (exists s; split_and!; solve [done|apply grows_refl|by apply cuts_none|apply streams_step_refl]).
  - destruct (send_op_ok data s Hg Hlen) as (s' & ? & ? & ? & ? & Hrb & Hf & ?). exists s'.
    split_and!; try done; [unfold settled; by rewrite Hrb|by apply cuts_none].
  - destruct (event_op_ok types s Hg) as (s' & ? & ? & ? & ? & ? & ? & ?). by exists s'.
Qed.

Lemma grows_not_elem s s' (o : obs L F) : grows s s' -> o ∉ trace_ s' -> o ∉ trace_ s.
Proof. intros [l Hl]. rewrite Hl. set_solver. Qed.

Lemma session_ops_ok os s :
  good true s -> Forall (fun o => zlen (op_data o) < 2 ^ 63) os ->
  exists s', run_session_ops os s = Ok s' /\ good true s' /\ grows s s' /\ fd_of s' = fd_of s /\
    (settled s -> settled s') /\ cuts s s' /\ streams_step (concat (map op_data os)) s s'.
Proof.
  revert s. induction os as [|o os IH]; intros s Hg Hl.
  { exists s. split_and!; [done|done|apply grows_refl|done|done|by apply cuts_none|apply
      streams_step_refl]. }
  apply Forall_cons in Hl as [Ho Hl].
  destruct (session_op_ok o s Hg Ho) as (s1 & Hr1 & Hg1 & Hgr1 & Hfd1 & Hst1 & Hcu1 & Hc1).
  destruct (IH s1 Hg1 Hl) as (s' & Hr & Hg' & Hgr & Hfd & Hst & Hcu & Hc).
  exists s'. simpl. rewrite Hr1. simpl.
  split_and!; [done|done|by eapply grows_trans|congruence|auto|by eapply cuts_trans|].
  intros P HC HP Hd.
  destruct (Hc1 P HC HP) as (HP1 & Hs1 & fs1 & Hf1 & Hcut1 & Hcat1); [by eapply grows_not_elem|].
  destruct (Hc P HC HP1 Hd) as (HP' & Hs & fs & Hf & Hcut & Hcat).
  split; [done|]. split; [by rewrite Hs, Hs1, app_assoc|]. exists (fs1 ++ fs).
  rewrite Hf, Hf1, app_assoc. split; [done|]. split; [by eapply cut_from_app|].
  by rewrite concat_app, <- app_assoc, Hcat.
Qed.

(** A started session is good: nothing is buffered, and it is subscribed. *)
Lemma session_start_good life (cb : F) s :
  buffers_ok s -> usable s -> good true (session_start life cb s).
Proof.
  intros [Hr Hs] Hu. unfold session_start, subscribe_stream, update_event_cb.
  destruct (valid (channel_ s)) as [l|] eqn:Hv; [|done].
  split; [by split| |exact Hu].
  intros _ Hne. cbn [channel_ with_channel event_types_]. unfold start_types.
  destruct (SB.empty (send_buf_ s)) eqn:He; [|done].
  apply SB.empty_contents in He; [done|done].
Qed.

Lemma session_start_keeps life (cb : F) s :
  let s' := session_start life cb s in
  kern s' = kern s /\ recv_buf_ s' = recv_buf_ s /\ send_buf_ s' = send_buf_ s /\
  fragments (trace_ s') = fragments (trace_ s).
Proof.
  intros s'. unfold s', session_start, subscribe_stream. destruct (update_event_cb _ _ _ _ _) as [c ps].
  split_and!; try done. simpl. by rewrite fragments_app, fragments_posts, app_nil_r.
Qed.

(** A session as the server starts it: everything is empty. *)
Lemma session_started loop fd (k : K) u life (cb : F) :
  0 <= fd ->
  let s := session_start life cb (session_ctor loop fd k u) in
  good true s /\ settled s /\ fd_of s = fd /\ kern s = k /\ fragments (trace_ s) = [] /\
  sent_stream s = accepted k fd /\ received_stream s = unread k fd.
Proof.
  intros Hfd s. set (s0 := session_ctor loop fd k u : stream K L F U).
  assert (Hv : valid (channel_ s0) = Some loop).
  { unfold s0, session_ctor, channel_ctor, valid. simpl. by destruct (Z.eqb_spec fd (-1)); [lia|]. }
  assert (Hfd0 : fd_of s = fd).
  { unfold s, fd_of, get_fd, session_start, subscribe_stream, update_event_cb. fold s0. rewrite Hv.
    simpl. unfold valid. simpl. by destruct (Z.eqb_spec fd (-1)); [lia|]. }
  destruct (session_start_keeps life cb s0) as (Hk & Hr & Hs & Hf).
  change (session_start life cb s0) with s in *. split_and!; try done.
  - apply session_start_good; [split; by apply SB.make_sb_inv|]. unfold usable. fold s0. by rewrite Hv.
  - unfold settled. rewrite Hr. exact (no_frame_nil u).
  - unfold sent_stream. rewrite Hfd0, Hk, Hs. simpl. by rewrite app_nil_r.
  - unfold received_stream. by rewrite Hfd0, Hk, Hr.
Qed.

(** A run from there. *)
Lemma session_runs P `{!CleanKernel P} loop fd k u life (cb : F) os :
  0 <= fd -> P k -> Forall (fun o => zlen (op_data o) < 2 ^ 63) os ->
  exists s, run_session_ops os (session_start life cb (session_ctor loop fd k u)) = Ok s /\
    good true s /\ settled s /\ fd_of s = fd /\
    (ObsDisconnect ∉ trace_ s ->
     sent_stream s = accepted k fd ++ concat (map op_data os) /\
     cut_from (unread k fd) (fragments (trace_ s)) /\
     concat (fragments (trace_ s)) ++ received_stream s = unread k fd).
Proof.
  intros Hfd HP Hos.
  destruct (session_started loop fd k u life cb Hfd) as (Hg0 & Hst0 & Hfd0 & Hk0 & Hf0 & Hs0 & Hr0).
  destruct (session_ops_ok os _ Hg0 Hos) as (s & Hr & Hg & _ & Hfds & Hst & Hcu & Hc).
  exists s. split_and!; [done|done|by apply Hst|congruence|]. intros Hd.
  destruct (Hc P _) as (_ & Hs & fs & Hf & Hcut & Hcat); [by rewrite Hk0|done|].
  rewrite Hf0 in Hf. simpl in Hf. rewrite Hf, Hs, Hs0, Hcat. by rewrite Hr0 in Hcut |- *.
Qed.

(** C1: the two byte streams of a connection.  From the constructor on,
    whatever send tasks and events come in whatever order, the run never leaves
    defined behaviour; and while the peer is there and the kernel reports no
    system error, the bytes the kernel accepted followed by those in the send
    buffer are exactly the messages posted, in order and unbroken, and the
    frames delivered, the receive buffer and the unread bytes are exactly what
    the peer sent; every frame delivered is one the split callback cut from what
    followed the frames before it, and it finds no frame in the receive buffer. *)
Theorem session_streams_intact P `{!CleanKernel P} loop fd k u life (cb : F) os :
  0 <= fd -> P k -> Forall (fun o => zlen (op_data o) < 2 ^ 63) os ->
  exists s, run_session_ops os (session_start life cb (session_ctor loop fd k u)) = Ok s /\
    write_armed s /\ no_frame (SB.contents (recv_buf_ s)) /\
    (ObsDisconnect ∉ trace_ s ->
     accepted (kern s) fd ++ SB.contents (send_buf_ s) =
       accepted k fd ++ concat (map op_data os) /\
     cut_from (unread k fd) (fragments (trace_ s)) /\
     concat (fragments (trace_ s)) ++ SB.contents (recv_buf_ s) ++ unread (kern s) fd =
       unread k fd).
Proof.
  intros Hfd HP Hos.
  destruct (session_runs P loop fd k u life cb os Hfd HP Hos) as (s & Hr & Hg & Hst & Hfds & Hc).
  exists s. split_and!; [done|by apply Hg|done|]. unfold sent_stream, received_stream in Hc.
  by rewrite Hfds in Hc.
Qed.

Lemma frame_loop_empty fuel s :
  SB.contents (recv_buf_ s) = [] ->
  exists u, frame_loop (S fuel) s =
    Ok (mk_stream (kern s) (recv_buf_ s) (send_buf_ s) (channel_ s) u (trace_ s)).
Proof.
  intros Hc. simpl. destruct (on_split _ _) as [u len] eqn:Ho.
  apply on_split_bound in Ho. rewrite Hc in Ho. change (zlen (@nil byte)) with 0 in Ho.
  destruct (Z.leb_spec len 0); [by exists u|lia].
Qed.

(** A system error while writing is handled as if it came from reading:
    the callback throws the received bytes away, and the bytes that could not
    be sent stay in the send buffer with the write interest; the user is told
    nothing. *)
Theorem write_error_drops_received s k e :
  good true s -> sock_send (kern s) (fd_of s) (SB.contents (send_buf_ s)) = (k, Err e) ->
  e <> EAGAIN -> e <> EPIPE ->
  exists s', session_cb true EventType.kWrite s = Ok s' /\
    SB.contents (recv_buf_ s') = [] /\ send_buf_ s' = send_buf_ s /\
    channel_ s' = channel_ s /\ trace_ s' = trace_ s.
Proof.
  intros [[Hr Hsb] _ _] Hs He1 He2. unfold session_cb. cbn [negb].
  unfold read_part, write_part, write_fuel.
  change (has EventType.kWrite EventType.kRead) with false.
  change (has EventType.kWrite EventType.kWrite) with true. cbn [mbind res_bind fst].
  cbn [write_loop]. unfold stream_send. rewrite Hs. cbn [mbind res_bind].
  destruct (Z.eqb_spec e EAGAIN); [done|]. destruct (Z.eqb_spec e EPIPE); [done|].
  unfold session_error. change (has EventType.kWrite EventType.kError) with false. cbn [fst snd].
  destruct (SB.clear_ok _ Hr) as (_ & Hc & _). unfold frame_fuel.
  destruct (frame_loop_empty (length (SB.contents (SB.clear (recv_buf_ s))))
    (clear_recv (with_send k (send_buf_ s) s))) as (u & Hu); [exact Hc|].
  cbn [mbind res_bind fst snd]. cbn [clear_recv with_recv with_send recv_buf_] in *.
  rewrite Hu. cbn [mbind res_bind orb]. eexists. split; [reflexivity|]. by split_and!.
Qed.
End facts.

(** ** A connection *)

(** A user whose frames are two bytes long. *)
#[export] Instance pair_handler : StreamHandler (list (list byte)) := {
  on_split d u := (u, if 2 <=? zlen d then 2 else 0);
  on_fragment d u := u ++ [d];
  on_error _ u := u;
  on_disconnect u := u
}.

#[export] Instance pair_split_laws : SplitLaws (list (list byte)).
Proof.
  split. intros d u u' n [= _ <-]. pose proof (zlen_nonneg d).
  destruct (Z.leb_spec 2 (zlen d)); lia.
Qed.

Definition demo_clean (k : demo_sock) : Prop :=
  0 <= window k /\ peer_closed k = false /\ pending_error k = 0.

#[export] Instance demo_clean_kernel : CleanKernel demo_clean.
Proof.
  split.
  - intros k fd d k' r (Hw & Hp & He) H. simpl in H. unfold demo_clean.
    destruct d as [|x d]; [by simplify_eq|].
    destruct (Z.ltb_spec 0 (Z.min (window k) (zlen (x :: d)))); simplify_eq; simpl.
    + split_and!; try done. lia.
    + split_and!; try done. destruct (Z.ltb_spec (window k') 0); [lia|]. by intros e [= <-].
  - intros k fd cap k' r (Hw & Hp & He) H. simpl in H. unfold demo_clean. rewrite Hp in H.
    repeat case_match; simplify_eq; simpl; split_and!; try done; intros e [= <-]; by left.
  - intros k fd k' e (Hw & Hp & He) [= <- <-]. unfold demo_clean. simpl. auto.
Qed.

Definition demo_kernel : demo_sock := mk_sock [1; 2; 3; 4; 5] [] 3 false 0.

(** Four bytes are sent through a window of three; then everything is ready. *)
Definition demo_session_ops : list session_op :=
  [SendTask true [10; 11; 12; 13]; SendTask true [14];
   Callback true (EventType.kRead ||| EventType.kWrite)].

Lemma session_streams_intact_witness :
  exists s : stream demo_sock nat nat (list (list byte)),
    run_session_ops demo_session_ops
      (session_start 0%nat 1%nat (session_ctor 5%nat 7 demo_kernel ([] : list (list byte)))) = Ok s /\
    write_armed s /\ no_frame (SB.contents (recv_buf_ s)) /\
    (ObsDisconnect ∉ trace_ s ->
     accepted (kern s) 7 ++ SB.contents (send_buf_ s) =
       accepted demo_kernel 7 ++ concat (map op_data demo_session_ops) /\
     cut_from (unread demo_kernel 7) (fragments (trace_ s)) /\
     concat (fragments (trace_ s)) ++ SB.contents (recv_buf_ s) ++ unread (kern s) 7 =
       unread demo_kernel 7).
Proof.
  apply (session_streams_intact demo_clean 5%nat 7 demo_kernel ([] : list (list byte)) 0%nat 1%nat
    demo_session_ops).
  - lia.
  - repeat split; simpl; lia.
  - repeat constructor; vm_compute; reflexivity.
Defined.

Definition demo_session (k : demo_sock) : stream demo_sock nat nat (list (list byte)) :=
  mk_stream k (SB.mk_sb [9; 9] 0 1 0 2) (SB.mk_sb [8; 8] 0 2 0 2)
    (mk_channel (Some 5%nat) 7 (EventType.kRead ||| EventType.kWrite) EventMode.kDefault) [] [].

Lemma demo_session_good k : good true (demo_session k).
Proof. split; [split; repeat split; vm_compute; congruence | by intros _ | done]. Qed.

Lemma session_cb_safe_witness :
  exists s', session_cb true EventType.kRead (demo_session demo_kernel) = Ok s' /\ good true s' /\
    (true = true -> no_frame (SB.contents (recv_buf_ s'))).
Proof. apply session_cb_safe, demo_session_good. Defined.

Definition failing_session : stream demo_sock nat nat (list (list byte)) :=
  demo_session (mk_sock [] [] (-1) false 0).

Lemma write_error_drops_received_witness :
  exists s', session_cb true EventType.kWrite failing_session = Ok s' /\
    SB.contents (recv_buf_ s') = [] /\ send_buf_ s' = send_buf_ failing_session /\
    channel_ s' = channel_ failing_session /\ trace_ s' = trace_ failing_session.
Proof.
  apply (write_error_drops_received _ (mk_sock [] [] (-1) false 0) EIO).
  - apply demo_session_good.
  - reflexivity.
  - done.
  - done.
Defined.
