(* ===== verification/StreamClient.v ===== *)
(** * StreamClient: the connecting socket

    Models [StreamClientSocket] of [src/net/inet.cpp] and
    [include/kzevent/net/inet.hpp]: the connection state machine ([connect],
    the connect callback, the timeout callback), the send task, the stream
    callback, [start] and [stop].  [on_error] and [on_disconnect] are what both
    subclasses ([TcpClient], [UnixClient]) make of them: [stop()], then the
    user's callback, an arbitrary program [user_error] or [user_disconnect]
    over the client's public methods. *)

From S2P Require Import Prelude Events StreamBuffer LoopFd Channel InetAddr.
From S2P Require Import StreamIo StreamLoops StreamSession.

Inductive ConnectState := Disconnected | Connecting | Connected.

#[export] Instance ConnectState_eq_dec : EqDecision ConnectState.
Proof. solve_decision. Defined.

(** The callables the client gives to its channels. *)
Inductive client_fun :=
| FSocketCb
| FTimerCb
| FStreamCb
| FResetTimer (timeout_ms : Z).

(** [connect(2)]: [None] on success, else errno. *)
Class ConnectKernel (K : Type) := {
  sys_connect : K -> Z -> list byte -> Z -> K * option Z
}.

(** Connecting moves no byte. *)
Class ConnectLaws (K : Type) `{StreamKernel K, ConnectKernel K} := {
  connect_views k fd addr len k' r fd' :
    sys_connect k fd addr len = (k', r) ->
    accepted k' fd' = accepted k fd' /\ unread k' fd' = unread k fd'
}.

(** The [it_value] of [reset_timer_fd]: seconds and nanoseconds. *)
Definition timer_spec (timeout_ms : Z) : Z * Z :=
  (i64 (timeout_ms / 1000), u64 ((timeout_ms mod 1000) * 1000000)).

Section client.
Context {K : Type} `{SK : StreamKernel K} `{CK : ConnectKernel K} {L U : Type}
  `{SH : StreamHandler U}.

Record client := mk_client {
  st : stream K L client_fun U;
  connect_timer_channel_ : channel L;
  started_ : bool;
  connected_ : ConnectState
}.

Variable (life : nat).
Variable (user_error : Z -> client -> client) (user_disconnect : client -> client).

Definition set_st (s : stream K L client_fun U) (c : client) : client :=
  mk_client s (connect_timer_channel_ c) (started_ c) (connected_ c).
Definition set_started (b : bool) (c : client) : client :=
  mk_client (st c) (connect_timer_channel_ c) b (connected_ c).
Definition set_connected (cs : ConnectState) (c : client) : client :=
  mk_client (st c) (connect_timer_channel_ c) (started_ c) cs.
Definition set_kern (k : K) (c : client) : client :=
  set_st (with_recv k (recv_buf_ (st c)) (st c)) c.
Definition emit (os : list (obs L client_fun)) (c : client) : client :=
  let s := st c in
  set_st (mk_stream (kern s) (recv_buf_ s) (send_buf_ s) (channel_ s) (user_ s) (trace_ s ++ os)) c.

Definition posts (ps : list (post L client_fun)) (c : client) : client := emit (map ObsPost ps) c.

(** [stream_channel_.disable_event()], [connect_timer_channel_.disable_event()] *)
Definition disable_stream (c : client) : client := posts (disable_event (channel_ (st c))) c.
Definition disable_timer (c : client) : client := posts (disable_event (connect_timer_channel_ c)) c.

Definition stop (c : client) : client := disable_timer (disable_stream (set_started false c)).

Definition start (c : client) : client :=
  if started_ c then c
  else set_st (subscribe_stream life FStreamCb (st c)) (set_started true c).

Definition on_error_ (err : Z) (c : client) : client :=
  user_error err (stop (emit [ObsError err] c)).

Definition on_disconnect_ (c : client) : client := user_disconnect (stop (emit [ObsDisconnect] c)).

(** The two subscriptions and the task that arms the timeout. *)
Definition await_connection (timeout_ms : Z) (c : client) : client :=
  let '(ch, ps1) := update_event_cb life EventType.kWrite EventMode.kDefault FSocketCb
                      (channel_ (st c)) in
  let c1 := set_st (with_channel ch ps1 (st c)) c in
  let '(tch, ps2) := update_event_cb life EventType.kRead EventMode.kDefault FTimerCb
                       (connect_timer_channel_ c1) in
  let c2 := posts ps2 (mk_client (st c1) tch (started_ c1) (connected_ c1)) in
  posts (post_io_task life (FResetTimer timeout_ms) (connect_timer_channel_ c2)) c2.

Definition connect (addr : inet_addr) (timeout_ms : Z) (c : client) : client :=
  match connected_ c with
  | Disconnected =>
      let c1 := set_connected Connecting c in
      let '(k, r) := sys_connect (kern (st c1)) (fd_of (st c1)) (get_sockaddr addr) (get_socklen addr) in
      let c2 := set_kern k c1 in
      match r with
      | None => start (set_connected Connected c2)
      | Some e =>
          if e =? EINPROGRESS then await_connection timeout_ms c2
          else set_connected Disconnected (on_error_ e c2)
      end
  | _ => c
  end.

(** [socket_cb] of [connect] *)
Definition socket_cb (types : Z) (c : client) : client :=
  if has types EventType.kWrite then
    let '(k, err) := so_error (kern (st c)) (fd_of (st c)) in
    let c1 := set_kern k c in
    if err =? 0 then start (disable_timer (set_connected Connected c1))
    else on_error_ err (disable_timer (set_connected Disconnected c1))
  else c.

(** [timer_cb] of [connect]; the draining [read]s concern the timer only. *)
Definition timer_cb (c : client) : client :=
  if decide (connected_ c = Connected) then disable_timer c
  else on_error_ ETIMEDOUT (disable_timer (set_connected Disconnected c)).

(** The task [post_send_task] posts. *)
Definition client_send (data : list byte) (c : client) : res client :=
  s ← (if negb (SB.empty (send_buf_ (st c))) || negb (bool_decide (connected_ c = Connected))
       then queue_send data (st c) else send_now data (st c));
  Ok (set_st s c).

(** The error part of the stream callback; its inner test cannot succeed. *)
Definition client_error (types : Z) (c : client) : client * bool :=
  if has types EventType.kError then
    let '(k, err) := so_error (kern (st c)) (fd_of (st c)) in
    let c1 := set_kern k c in
    if negb (err =? 0) && negb (err =? ECONNRESET) && negb (err =? EPIPE) then
      if (err =? ECONNRESET) || (err =? EPIPE) then (c1, true)
      else (on_error_ err (set_st (clear_send (clear_recv (st c1))) c1), false)
    else (c1, false)
  else (c, false).

(** The callback [start] installs. *)
Definition client_cb (types : Z) (c : client) : res client :=
  r1 ← read_part types (st c);
  r2 ← write_part types r1.1;
  let '(c3, d3) := client_error types (set_st r2.1 c) in
  s4 ← frame_loop (frame_fuel (st c3)) (st c3);
  let c4 := set_st s4 c3 in
  if r1.2 || r2.2 || d3
  then Ok (on_disconnect_ (set_st (clear_send (clear_recv (st c4))) c4)) else Ok c4.

(** [StreamClientSocket()]: two channels, empty buffers. *)
Definition client_ctor (loop : L) (fd timer_fd : Z) (k : K) (u : U) : client :=
  let '(c, ps) := channel_ctor loop fd in
  let '(t, ps') := channel_ctor loop timer_fd in
  mk_client (mk_stream k (SB.make_sb UINT16_MAX) (SB.make_sb UINT16_MAX) c u (map ObsPost (ps ++ ps')))
    t false Disconnected.

(** What happens to a client, on its loop or from its user. *)
Inductive client_op :=
| OpConnect (addr : inet_addr) (timeout_ms : Z)
| OpSend (data : list byte)
| OpStart
| OpStop
| OpSocketCb (types : Z)
| OpTimerCb
| OpStreamCb (types : Z).

Definition run_client_op (o : client_op) (c : client) : res client :=
  match o with
  | OpConnect addr timeout_ms => Ok (connect addr timeout_ms c)
  | OpSend data => client_send data c
  | OpStart => Ok (start c)
  | OpStop => Ok (stop c)
  | OpSocketCb types => Ok (socket_cb types c)
  | OpTimerCb => Ok (timer_cb c)
  | OpStreamCb types => client_cb types c
  end.

Fixpoint run_client_ops (os : list client_op) (c : client) : res client :=
  match os with
  | [] => Ok c
  | o :: os' => c1 ← run_client_op o c; run_client_ops os' c1
  end.
End client.
Arguments client : clear implicits.

(** ** Invariant *)

Section facts.
Context {K : Type} `{SK : StreamKernel K, SL : !StreamLaws K} `{CK : ConnectKernel K}
  {L U : Type} `{SH : StreamHandler U, SPL : !SplitLaws U}.
Implicit Types (c : client K L U) (s : stream K L client_fun U).

Definition is_connected c : bool := bool_decide (connected_ c = Connected).

(** Sound buffers and usable channels; and [strict]ly, as long as [start] is left
    to [connect], the write interest of a connected client, and that a client that
    is not connected is not started. *)
Record client_wf (strict : bool) c : Prop := {
  ci_good : good (strict && is_connected c) (st c);
  ci_timer : valid (connect_timer_channel_ c) <> None;
  ci_idle : strict = true -> connected_ c <> Connected -> started_ c = false
}.

Abbreviation client_inv := (client_wf true).

(** The same while [on_error] is on its way to [stop]. *)
Definition client_pre (strict : bool) c : Prop :=
  good (strict && is_connected c) (st c) /\ valid (connect_timer_channel_ c) <> None.

Lemma good_weaken a (s : stream K L client_fun U) : good true s -> good a s.
Proof. intros [? Ha ?]. split; [done | by intros _; apply Ha | done]. Qed.

Lemma good_false a (s : stream K L client_fun U) : good a s -> good false s.
Proof. by intros []. Qed.

Lemma inv_pre strict c : client_wf strict c -> client_pre strict c.
Proof. by intros []. Qed.

Lemma emit_pre strict os c : client_pre strict c -> client_pre strict (emit os c).
Proof. intros [[[] ? ?] ?]. by split; [split; [by split|done..]|]. Qed.

Lemma kern_pre strict k c : client_pre strict c -> client_pre strict (set_kern k c).
Proof. intros [[[] ? ?] ?]. by split; [split; [by split|done..]|]. Qed.

Lemma drop_pre strict cs c : cs <> Connected -> client_pre strict c ->
  client_pre strict (set_connected cs c).
Proof.
  intros Hne [Hg Ht]. split; [|done]. unfold is_connected. simpl.
  rewrite bool_decide_eq_false_2, andb_false_r by done. by eapply good_false.
Qed.

Lemma timer_off_pre strict c : client_pre strict c -> client_pre strict (disable_timer c).
Proof. apply emit_pre. Qed.

Lemma stop_inv strict c : client_pre strict c -> client_wf strict (stop c).
Proof. intros [[[] ? ?] ?]. by split; [split; [by split|done..]| |]. Qed.

Lemma start_inv strict life c :
  (strict = true -> connected_ c = Connected) -> good false (st c) ->
  valid (connect_timer_channel_ c) <> None ->
  (strict = true -> started_ c = true -> write_armed (st c)) -> client_wf strict (start life c).
Proof.
  intros Hc [Hb _ Hu] Ht Ha. unfold start. destruct (started_ c) eqn:Es.
  - split; [|done|by intros ?%Hc]. split; [done|intros [? _]%andb_true_iff; by apply Ha|done].
  - split; [|done|by intros ?%Hc]. apply good_weaken. by apply (session_start_good life FStreamCb (st c)).
Qed.

Lemma update_event_cb_valid life types modes (f : client_fun) (ch ch' : channel L) ps :
  update_event_cb life types modes f ch = (ch', ps) ->
  valid ch' = valid ch /\ get_fd ch' = get_fd ch.
Proof.
  unfold update_event_cb. destruct (valid ch) as [l|] eqn:Hv; intros; simplify_eq; [|done].
  assert (valid (mk_channel (in_loop_ ch) (fd_ ch) types modes) = valid ch) as Hv' by done.
  unfold get_fd. by rewrite Hv', Hv.
Qed.

Lemma await_inv strict life timeout_ms c :
  connected_ c <> Connected -> client_wf strict c -> client_wf strict (await_connection life timeout_ms c).
Proof.
  intros Hne [[Hb Ha Hu] Ht Hi]. unfold await_connection.
  destruct (update_event_cb life EventType.kWrite _ _ _) as [ch ps1] eqn:E1.
  destruct (update_event_cb_valid _ _ _ _ _ _ _ E1) as [Hv1 _].
  cbn [connect_timer_channel_ set_st].
  destruct (update_event_cb life EventType.kRead _ _ _) as [tch ps2] eqn:E2.
  destruct (update_event_cb_valid _ _ _ _ _ _ _ E2) as [Hv2 _].
  destruct Hb. split; [|by simpl; rewrite Hv2|done].
  unfold is_connected. simpl. rewrite bool_decide_eq_false_2, andb_false_r by done.
  split; [by split|done|]. unfold usable in *. simpl. by rewrite Hv1.
Qed.

Section handlers.
Variable (life : nat).
Variable (user_error : Z -> client K L U -> client K L U)
  (user_disconnect : client K L U -> client K L U).
Hypothesis user_error_ok : forall strict err c, client_wf strict c -> client_wf strict (user_error err c).
Hypothesis user_error_connecting : forall err c,
  connected_ c = Connecting -> connected_ (user_error err c) = Connecting.
Hypothesis user_disconnect_ok : forall strict c, client_wf strict c -> client_wf strict (user_disconnect c).
Implicit Types (strict : bool).

Lemma on_error_inv strict err c : client_pre strict c -> client_wf strict (on_error_ user_error err c).
Proof. intros H. by apply user_error_ok, stop_inv, emit_pre. Qed.

Lemma on_disconnect_inv strict c : client_pre strict c ->
  client_wf strict (on_disconnect_ user_disconnect c).
Proof. intros H. by apply user_disconnect_ok, stop_inv, emit_pre. Qed.

Lemma connect_inv strict addr timeout_ms c :
  client_wf strict c -> client_wf strict (connect life user_error addr timeout_ms c).
Proof.
  intros Hc. unfold connect. destruct (connected_ c) eqn:Ec; [|done..].
  assert (Hs0 : strict = true -> started_ c = false) by (intros Hst; apply (ci_idle _ _ Hc Hst);
    congruence).
  destruct (sys_connect _ _ _ _) as [k r].
  assert (Hpre : client_pre strict (set_kern k (set_connected Connecting c)))
    by (by apply kern_pre, drop_pre, inv_pre).
  set (c2 := set_kern k (set_connected Connecting c)) in *.
  assert (Hc2 : client_wf strict c2) 
    by (destruct Hpre; split; [done|done|by intros ? _; apply Hs0]).
  destruct r as [e|].
  - destruct (e =? EINPROGRESS); [by apply await_inv|].
    assert (Hstop : connected_ (stop (emit [ObsError e] c2)) = Connecting) by done.
    pose proof (on_error_inv _ e c2 Hpre) as He.
    pose proof (user_error_connecting e _ Hstop) as Hk.
    split; [|by destruct He|].
    + by apply drop_pre, inv_pre.
    + intros Hst _. apply (ci_idle _ _ He Hst). unfold on_error_. congruence.
  - apply start_inv; [done| | |].
    + destruct Hpre as [Hg _]. by eapply good_false.
    + by destruct Hpre.
    + simpl. intros Hst. rewrite Hs0 by done. congruence.
Qed.

Lemma socket_cb_inv strict types c : client_wf strict c ->
  client_wf strict (socket_cb life user_error types c).
Proof.
  intros Hc. unfold socket_cb. destruct (has types _); [|done].
  destruct (so_error _ _) as [k err].
  pose proof (kern_pre _ k c (inv_pre _ c Hc)) as Hpre. destruct (err =? 0).
  - apply start_inv; [done| | |].
    + destruct Hpre as [[[Hr Hs] _ Hu] _]. by split; [split|..].
    + by destruct Hc.
    + simpl. intros Hs Hst Hne. destruct Hc as [[_ Ha _] _ Hi].
      destruct (decide (connected_ c = Connected)) as [He|He]; [|specialize (Hi Hs He); congruence].
      apply Ha; [|done]. rewrite Hs. by apply bool_decide_eq_true.
  - apply on_error_inv, timer_off_pre. by apply drop_pre.
Qed.

Lemma timer_cb_inv strict c : client_wf strict c -> client_wf strict (timer_cb user_error c).
Proof.
  intros Hc. unfold timer_cb. case_decide as Hd.
  - destruct (timer_off_pre _ c (inv_pre _ c Hc)). split; [done|done|by destruct Hc].
  - apply on_error_inv, timer_off_pre. by apply drop_pre, inv_pre.
Qed.

Lemma client_send_ok strict (data : list byte) c :
  client_wf strict c -> zlen data < 2 ^ 63 ->
  exists s, client_send data c = Ok (set_st s c) /\ client_wf strict (set_st s c) /\
    fd_of s = fd_of (st c) /\ grows (st c) s /\ fragments (trace_ s) = fragments (trace_ (st c)) /\
    received_stream s = received_stream (st c) /\
    (forall P `{!CleanKernel P}, P (kern (st c)) ->
       P (kern s) /\ sent_stream s = sent_stream (st c) ++ data).
Proof.
  intros [Hg Ht Hi] Hl. unfold client_send.
  destruct (negb (SB.empty (send_buf_ (st c))) || _) eqn:E.
  - destruct (queue_send_ok data (st c)) as (s & -> & Hb & Hk & Hrb & Hch & Hu & Htr & Hs & Hcs);
      [by destruct Hg|].
    exists s. cbn [mbind res_bind]. split_and!; [done| | | | | |].
    + split; [|done|done]. destruct Hg as [[_ Hsb] Ha Hus].
      split; [done| |by unfold usable; simpl; rewrite Hch]. intros Hcon _.
      unfold write_armed in Ha. simpl. rewrite Hch. apply Ha; [done|].
      apply andb_true_iff in Hcon as [_ Hcon].
      unfold is_connected in Hcon. simpl in Hcon. rewrite Hcon, orb_false_r in E.
      intros He%(SB.empty_contents _ Hsb). by rewrite He in E.
    + unfold fd_of. by rewrite Hch.
    + exists []. by rewrite Htr, app_nil_r.
    + by rewrite Htr.
    + unfold received_stream, fd_of. by rewrite Hk, Hrb, Hch.
    + intros P HC HP. by rewrite Hk.
  - apply orb_false_iff in E as [E _]. apply negb_false_iff in E.
    apply SB.empty_contents in E; [|by destruct Hg as [[]]].
    destruct (send_now_ok _ data (st c) Hg E Hl) as (s & -> & Hg' & Hk & Hr & _ & Hc).
    exists s. cbn [mbind res_bind]. split_and!; try done.
    + by destruct Hk.
    + by apply kept_grows.
    + by apply kept_fragments.
Qed.

Lemma client_error_inv strict types c :
  client_wf strict c -> client_wf strict (client_error user_error types c).1.
Proof.
  intros Hc. unfold client_error. destruct (has types _); [|done].
  destruct (so_error _ _) as [k err].
  pose proof (kern_pre _ k c (inv_pre _ c Hc)) as Hpre.
  assert (client_wf strict (set_kern k c)) by (destruct Hpre; split; [done|done|by destruct Hc]).
  destruct (negb (err =? 0) && _ && _); [|done].
  destruct ((err =? ECONNRESET) || (err =? EPIPE)); [done|].
  apply on_error_inv. destruct Hpre as [Hg Ht]. split; [|done].
  by apply (cleared_good _ (st (set_kern k c)) (user_ (st c)) (ObsError 0)) in Hg as [[] ? ?].
Qed.

(** The stream callback, in any state the invariant allows. *)
Lemma client_cb_ok strict types c :
  client_wf strict c ->
  exists c3 s4 (d : bool), client_cb user_error user_disconnect types c =
      Ok (let c4 := set_st s4 c3 in
          if d then on_disconnect_ user_disconnect (set_st (clear_send (clear_recv s4)) c4) else c4) /\
    client_wf strict c3 /\ good (strict && is_connected c3) s4 /\
    (exists s2 fs, grows (st c) s2 /\ fd_of s2 = fd_of (st c) /\
       fragments (trace_ s2) = fragments (trace_ (st c)) /\
       c3 = (client_error user_error types (set_st s2 c)).1 /\
       kern s4 = kern (st c3) /\ send_buf_ s4 = send_buf_ (st c3) /\
       channel_ s4 = channel_ (st c3) /\ trace_ s4 = trace_ (st c3) ++ map ObsFragment fs /\
       concat fs ++ SB.contents (recv_buf_ s4) = SB.contents (recv_buf_ (st c3)) /\
       cut_from (SB.contents (recv_buf_ (st c3))) fs /\
       (forall P `{!CleanKernel P}, P (kern (st c)) ->
          P (kern s2) /\ received_stream s2 = received_stream (st c) /\
          sent_stream s2 = sent_stream (st c))).
Proof.
  intros Hc. pose proof Hc as [Hg Ht Hi]. unfold client_cb.
  destruct (read_part_ok _ types (st c) Hg) as (s1 & d1 & -> & Hg1 & Hk1 & Hs1 & Hc1).
  cbn [mbind res_bind fst snd].
  destruct (write_part_ok _ types s1 Hg1) as (s2 & d2 & -> & Hg2 & Hk2 & Hs2 & Hc2).
  cbn [mbind res_bind fst snd].
  assert (Hinv2 : client_wf strict (set_st s2 c)) by (by split).
  pose proof (client_error_inv _ types _ Hinv2) as Hinv3.
  destruct (client_error user_error types (set_st s2 c)) as [c3 d3] eqn:E3. simpl in Hinv3.
  destruct (frame_loop_ok _ (frame_fuel (st c3)) (st c3) (ci_good _ _ Hinv3))
    as (s4 & fs & -> & Hg4 & Hk & Hsb & Hch & Htr & Hcat & Hcut & _); [unfold frame_fuel; lia|].
  cbn [mbind res_bind fst snd]. exists c3, s4, (d1 || d2 || d3).
  pose proof (kept_trans _ _ _ Hk1 Hk2) as Hk12.
  split_and!; [by destruct (d1 || d2 || d3)|done|done|].
  exists s2, fs. rewrite E3. split_and!; try done.
  - by apply kept_grows.
  - by destruct Hk12.
  - by apply kept_fragments.
  - intros P HC HP. destruct (Hc1 P HC HP) as [HP1 Hr1]. destruct (Hc2 P HC HP1) as (HP2 & Hr2 & _).
    split_and!; [done|congruence|congruence].
Qed.

Lemma client_cb_inv strict types c :
  client_wf strict c ->
  exists c', client_cb user_error user_disconnect types c = Ok c' /\ client_wf strict c'.
Proof.
  intros Hc. destruct (client_cb_ok strict types c Hc) as (c3 & s4 & d & -> & Hc3 & Hg4 & _).
  eexists. split; [done|]. destruct Hc3 as [_ Ht3 Hi3]. destruct d; [|by split].
  apply on_disconnect_inv. split; [|done]. simpl.
  by apply (cleared_good _ s4 (user_ s4) (ObsError 0)) in Hg4 as [[] ? ?].
Qed.

(** No message fills the address space. *)
Definition op_ok (o : client_op) : Prop := match o with OpSend d => zlen d < 2 ^ 63 | _ => True end.

Abbreviation run_op := (run_client_op life user_error user_disconnect).

(** [start()], which the classes make public, is only called on a client that is
    connected, if at all. *)
Fixpoint starts_connected (os : list client_op) c : Prop :=
  match os with
  | [] => True
  | o :: os' =>
      (o = OpStart -> connected_ c = Connected) /\ forall c', run_op o c = Ok c' -> starts_connected os' c'
  end.

Lemma run_client_op_inv strict o c :
  client_wf strict c -> op_ok o -> (strict = true -> o = OpStart -> connected_ c = Connected) ->
  exists c', run_op o c = Ok c' /\ client_wf strict c'.
Proof.
  intros Hc Ho Hst. destruct o as [addr ms|d| | |types| |types]; simpl in *.
  - eexists. split; [done|]. by apply connect_inv.
  - destruct (client_send_ok strict d c Hc Ho) as (s & -> & ? & _). by eexists.
  - eexists. split; [done|]. destruct Hc as [Hg Ht Hi]. apply start_inv; [|by eapply good_false|done|].
    + intros H. by apply Hst.
    + intros H _. destruct Hg as [_ Ha _]. apply Ha. rewrite H. apply bool_decide_eq_true. by apply Hst.
  - eexists. split; [done|]. by apply stop_inv, inv_pre.
  - eexists. split; [done|]. by apply socket_cb_inv.
  - eexists. split; [done|]. by apply timer_cb_inv.
  - by apply client_cb_inv.
Qed.

Lemma run_client_ops_inv strict os c :
  client_wf strict c -> Forall op_ok os -> (strict = true -> starts_connected os c) ->
  exists c', run_client_ops life user_error user_disconnect os c = Ok c' /\ client_wf strict c'.
Proof.
  intros Hc Hos. revert c Hc. induction Hos as [|o os Ho _ IH]; intros c Hc Hst; [by exists c|].
  destruct (run_client_op_inv strict o c Hc Ho) as (c1 & Hr1 & Hc1); [by intros [? _]%Hst|].
  destruct (IH c1 Hc1) as (c' & Hr & Hc'); [by intros [_ H]%Hst; apply H|]. exists c'. simpl.
  by rewrite Hr1.
Qed.

Lemma client_ctor_inv loop fd timer_fd k u :
  0 <= fd -> 0 <= timer_fd -> forall strict, client_wf strict (client_ctor loop fd timer_fd k u).
Proof.
  intros Hfd Ht strict.
  assert (Hv : forall n, 0 <= n -> valid (channel_ctor (F := client_fun) loop n).1 = Some loop).
  { intros n Hn. unfold valid. simpl. by destruct (Z.eqb_spec n (-1)); [lia|]. }
  specialize (Hv) as Hv'. split; simpl.
  - split; [split; by apply SB.make_sb_inv|by rewrite andb_false_r|].
    unfold usable. specialize (Hv fd Hfd). simpl in *. by rewrite Hv.
  - specialize (Hv timer_fd Ht). simpl in *. by rewrite Hv.
  - done.
Qed.


(** C21: [connect], on every branch.  It does nothing unless disconnected.  On an
    immediate success the client is connected and started.  On EINPROGRESS it
    is connecting, and has posted, in this order, the write subscription of
    the socket, the subscription of the timer and the task that arms it.  Any
    other error is reported and leaves the client disconnected; while it is
    being reported the state still is [Connecting], so a retry made inside the
    error callback is ignored. *)
Theorem connect_outcomes addr timeout_ms c :
  client_inv c ->
  let c' := connect life user_error addr timeout_ms c in
  let (k, r) := sys_connect (kern (st c)) (fd_of (st c)) (get_sockaddr addr) (get_socklen addr) in
  (connected_ c <> Disconnected -> c' = c) /\
  (connected_ c = Disconnected ->
   match r with
   | None => connected_ c' = Connected /\ started_ c' = true
   | Some e =>
       if e =? EINPROGRESS then
         connected_ c' = Connecting /\ started_ c' = false /\
         exists l lt, trace_ (st c') = trace_ (st c) ++ map ObsPost
           [PostFd l (TEnableCb (fd_of (st c)) EventType.kWrite EventMode.kDefault
                        (mk_guarded life FSocketCb));
            PostFd lt (TEnableCb (get_fd (connect_timer_channel_ c)) EventType.kRead
                         EventMode.kDefault (mk_guarded life FTimerCb));
            PostIo lt (mk_guarded life (FResetTimer timeout_ms))]
       else
         connected_ c' = Disconnected /\ started_ c' = false /\
         exists c1, c' = set_connected Disconnected (user_error e c1) /\
           ObsError e ∈ trace_ (st c1) /\
           forall addr' ms', connect life user_error addr' ms' c1 = c1
   end).
Proof.
  intros Hc c'. unfold c', connect.
  destruct (sys_connect _ _ _ _) as [k r] eqn:Ek. destruct (connected_ c) eqn:Ec;
    [|by split|by split].
  split; [done|]. intros _.
  assert (Hs0 : started_ c = false) by (apply (ci_idle _ _ Hc eq_refl); congruence).
  destruct r as [e|].
  - destruct (e =? EINPROGRESS) eqn:Ee.
    + destruct Hc as [[_ _ Hu] Ht _]. unfold usable in Hu.
      unfold await_connection, fd_of, get_fd, update_event_cb, post_io_task.
      cbn [channel_ st set_st with_channel set_kern with_recv set_connected connect_timer_channel_].
      destruct (valid (channel_ (st c))) as [l|] eqn:Hv; [|done]. cbv iota beta.
      cbn [channel_ st set_st with_channel set_kern with_recv set_connected connect_timer_channel_].
      destruct (valid (connect_timer_channel_ c)) as [lt|] eqn:Hvt; [|done]. cbv iota beta.
      assert (Hvt' : valid (mk_channel (in_loop_ (connect_timer_channel_ c))
        (fd_ (connect_timer_channel_ c)) EventType.kRead EventMode.kDefault) = Some lt) by done.
      simpl. rewrite Hvt'. simpl. split_and!; [done|done|]. exists l, lt. by rewrite <- !app_assoc.
    + pose proof (connect_inv true addr timeout_ms c Hc) as Hinv. unfold connect in Hinv.
      rewrite Ec in Hinv. cbn [st set_connected] in Hinv. rewrite Ek, Ee in Hinv.
      split_and!; [done|apply (ci_idle _ _ Hinv eq_refl); done|].
      eexists. split_and!; [done| |done]. simpl. set_solver.
  - unfold start. simpl. by rewrite Hs0.
Qed.

(** *** The byte streams of a client *)

Context `{CL : !ConnectLaws K}.
Hypothesis user_error_grows : forall err c, grows (st c) (st (user_error err c)).
Hypothesis user_disconnect_grows : forall c, grows (st c) (st (user_disconnect c)).

(** The trace of an error-free, connected life. *)
Definition calm c : Prop :=
  ObsDisconnect ∉ trace_ (st c) /\ forall e, ObsError e ∉ trace_ (st c).

Lemma calm_before c c' : grows (st c) (st c') -> calm c' -> calm c.
Proof.
  intros [l Hl] [Hd He]. rewrite Hl in Hd. split; [intros H; by apply Hd, elem_of_app; left|].
  intros e H. apply (He e). rewrite Hl. apply elem_of_app. by left.
Qed.

Definition client_data (o : client_op) : list byte := match o with OpSend d => d | _ => [] end.

(** What an operation did to the streams, when nothing went wrong. *)
Definition streams_kept (data : list byte) (s s' : stream K L client_fun U) : Prop :=
  fd_of s' = fd_of s /\ sent_stream s' = sent_stream s ++ data /\
  exists fs, fragments (trace_ s') = fragments (trace_ s) ++ fs /\
    cut_from (received_stream s) fs /\ concat fs ++ received_stream s' = received_stream s.

Lemma streams_kept_trans d1 d2 s1 s2 s3 :
  streams_kept d1 s1 s2 -> streams_kept d2 s2 s3 -> streams_kept (d1 ++ d2) s1 s3.
Proof.
  intros (Hf & Hs & fs & Hfr & Hcut & Hc) (Hf' & Hs' & fs' & Hfr' & Hcut' & Hc').
  split_and!; [congruence|by rewrite Hs', Hs, app_assoc|]. exists (fs ++ fs').
  rewrite Hfr', Hfr, app_assoc. split; [done|]. split; [by eapply cut_from_app|].
  by rewrite concat_app, <- app_assoc, Hc'.
Qed.

(** Steps that only call the kernel and post. *)
Lemma streams_kept_quiet s s' ps :
  recv_buf_ s' = recv_buf_ s -> send_buf_ s' = send_buf_ s -> fd_of s' = fd_of s ->
  accepted (kern s') (fd_of s) = accepted (kern s) (fd_of s) ->
  unread (kern s') (fd_of s) = unread (kern s) (fd_of s) ->
  trace_ s' = trace_ s ++ map ObsPost ps -> streams_kept [] s s'.
Proof.
  intros Hr Hs Hf Ha Hu Ht. split_and!; [done| |].
  - unfold sent_stream. by rewrite Hs, Hf, Ha, app_nil_r.
  - exists []. rewrite Ht, fragments_app, fragments_posts. split; [done|]. split; [constructor|].
    unfold received_stream. by rewrite Hr, Hf, Hu.
Qed.

Lemma streams_kept_refl s : streams_kept [] s s.
Proof. apply (streams_kept_quiet s s []); try done. by rewrite app_nil_r. Qed.

Lemma start_quiet c :
  exists ps, let s' := st (start life c) in
    recv_buf_ s' = recv_buf_ (st c) /\ send_buf_ s' = send_buf_ (st c) /\
    fd_of s' = fd_of (st c) /\ kern s' = kern (st c) /\ trace_ s' = trace_ (st c) ++ map ObsPost ps.
Proof.
  unfold start. destruct (started_ c); [exists []; by rewrite app_nil_r|].
  unfold subscribe_stream. destruct (update_event_cb _ _ _ _ _) as [ch ps] eqn:E.
  destruct (update_event_cb_valid _ _ _ _ _ _ _ E) as [_ Hf]. by exists ps.
Qed.

Lemma await_quiet timeout_ms c :
  exists ps, let s' := st (await_connection life timeout_ms c) in
    recv_buf_ s' = recv_buf_ (st c) /\ send_buf_ s' = send_buf_ (st c) /\
    fd_of s' = fd_of (st c) /\ kern s' = kern (st c) /\ trace_ s' = trace_ (st c) ++ map ObsPost ps.
Proof.
  unfold await_connection. destruct (update_event_cb life EventType.kWrite _ _ _) as [ch ps1] eqn:E1.
  destruct (update_event_cb_valid _ _ _ _ _ _ _ E1) as [_ Hf1].
  destruct (update_event_cb life EventType.kRead _ _ _) as [tch ps2] eqn:E2.
  simpl. eexists. split_and!; [done|done|done|done|].
  by rewrite <- !app_assoc, <- !map_app.
Qed.

Lemma grows_posts s s' (ps : list (post L client_fun)) :
  trace_ s' = trace_ s ++ map ObsPost ps -> grows s s'.
Proof. by eexists. Qed.

Lemma on_error_seen err c :
  grows (st c) (st (on_error_ user_error err c)) /\
  ObsError err ∈ trace_ (st (on_error_ user_error err c)).
Proof.
  unfold on_error_. set (c1 := stop (emit [ObsError err] c)).
  assert (H1 : exists l, trace_ (st c1) = trace_ (st c) ++ ObsError err :: l).
  { eexists. unfold c1, stop, disable_timer, disable_stream, posts, emit. simpl.
    by rewrite <- !app_assoc. }
  destruct H1 as [l Hl]. destruct (user_error_grows err c1) as [l' Hl'].
  split; [eexists|]; rewrite Hl', Hl; [by rewrite <- app_assoc|set_solver].
Qed.

Lemma on_disconnect_seen c :
  grows (st c) (st (on_disconnect_ user_disconnect c)) /\
  ObsDisconnect ∈ trace_ (st (on_disconnect_ user_disconnect c)).
Proof.
  unfold on_disconnect_. set (c1 := stop (emit [ObsDisconnect] c)).
  assert (H1 : exists l, trace_ (st c1) = trace_ (st c) ++ ObsDisconnect :: l).
  { eexists. unfold c1, stop, disable_timer, disable_stream, posts, emit. simpl.
    by rewrite <- !app_assoc. }
  destruct H1 as [l Hl]. destruct (user_disconnect_grows c1) as [l' Hl'].
  split; [eexists|]; rewrite Hl', Hl; [by rewrite <- app_assoc|set_solver].
Qed.

(** What the operations that are not the stream callback do: [P] is kept and
    the streams are, unless an error was reported. *)
Definition op_kept (P : K -> Prop) (data : list byte) c c' : Prop :=
  grows (st c) (st c') /\ (calm c' -> P (kern (st c)) -> P (kern (st c')) /\
    streams_kept data (st c) (st c')).

Lemma op_kept_posts (P : K -> Prop) c c' k ps :
  recv_buf_ (st c') = recv_buf_ (st c) -> send_buf_ (st c') = send_buf_ (st c) ->
  fd_of (st c') = fd_of (st c) -> kern (st c') = k ->
  (P (kern (st c)) -> P k) ->
  accepted k (fd_of (st c)) = accepted (kern (st c)) (fd_of (st c)) ->
  unread k (fd_of (st c)) = unread (kern (st c)) (fd_of (st c)) ->
  trace_ (st c') = trace_ (st c) ++ map ObsPost ps -> op_kept P [] c c'.
Proof.
  intros Hr Hs Hf <- HP Ha Hu Ht. split; [by eapply grows_posts|].
  intros _ HPc. split; [by apply HP|]. by eapply streams_kept_quiet.
Qed.

Lemma op_kept_error (P : K -> Prop) data err c c1 cs :
  grows (st c) (st c1) -> op_kept P data c (set_connected cs (on_error_ user_error err c1)).
Proof.
  intros Hg. destruct (on_error_seen err c1) as [Hg' Hin]. split.
  - eapply grows_trans; [exact Hg|exact Hg'].
  - intros [_ He]. by destruct (He err).
Qed.

Lemma connect_kept (P : K -> Prop) `{!CleanKernel P} addr timeout_ms c :
  (forall k fd a n k' r, P k -> sys_connect k fd a n = (k', r) -> P k') ->
  op_kept P [] c (connect life user_error addr timeout_ms c).
Proof.
  intros HP. unfold connect.
  assert (Hrefl : op_kept P [] c c)
    by (split; [apply grows_refl | intros _ ?; split; [done | apply streams_kept_refl]]).
  destruct (connected_ c) eqn:Ec; [|done..].
  destruct (sys_connect _ _ _ _) as [k r] eqn:Ek.
  destruct (connect_views _ _ _ _ _ _ (fd_of (st c)) Ek) as [Ha Hu].
  assert (HPk : P (kern (st c)) -> P k) by (intros H; by eapply HP).
  destruct r as [e|].
  - destruct (e =? EINPROGRESS).
    + destruct (await_quiet timeout_ms (set_kern k (set_connected Connecting c)))
        as (ps & Hr & Hs & Hf & Hk & Ht).
      by apply (op_kept_posts P _ _ k ps).
    + apply op_kept_error. by exists []; rewrite app_nil_r.
  - destruct (start_quiet (set_connected Connected (set_kern k (set_connected Connecting c))))
      as (ps & Hr & Hs & Hf & Hk & Ht).
    by apply (op_kept_posts P _ _ k ps).
Qed.

Lemma socket_cb_kept (P : K -> Prop) `{!CleanKernel P} types c :
  op_kept P [] c (socket_cb life user_error types c).
Proof.
  unfold socket_cb. destruct (has types _); cycle 1.
  { split; [apply grows_refl | intros _ ?; split; [done | apply streams_kept_refl]]. }
  destruct (so_error _ _) as [k err] eqn:Ek.
  destruct (so_error_views _ _ _ _ Ek) as [Ha Hu].
  assert (HPk : P (kern (st c)) -> P k) by (intros H; by eapply clean_error in Ek as [? _]).
  destruct (err =? 0).
  - destruct (start_quiet (disable_timer (set_connected Connected (set_kern k c))))
      as (ps & Hr & Hs & Hf & Hk & Ht).
    apply (op_kept_posts P _ _ k (disable_event (connect_timer_channel_ c) ++ ps)); try done.
    rewrite Ht. simpl. by rewrite map_app, app_assoc.
  - destruct (on_error_seen err (disable_timer (set_connected Disconnected (set_kern k c))))
      as [Hg Hin]. split.
    + eapply grows_trans; [|exact Hg]. by eexists.
    + intros [_ He]. by destruct (He err).
Qed.

Lemma timer_cb_kept (P : K -> Prop) c : op_kept P [] c (timer_cb user_error c).
Proof.
  unfold timer_cb. case_decide.
  - by apply (op_kept_posts P _ _ (kern (st c)) (disable_event (connect_timer_channel_ c))).
  - destruct (on_error_seen ETIMEDOUT (disable_timer (set_connected Disconnected c))) as [Hg Hin].
    split; [eapply grows_trans; [|exact Hg]; by eexists|].
    intros [_ He]. by destruct (He ETIMEDOUT).
Qed.

Lemma client_error_kept (P : K -> Prop) `{!CleanKernel P} types c c' d :
  client_error user_error types c = (c', d) ->
  grows (st c) (st c') /\
  (calm c' -> P (kern (st c)) -> P (kern (st c')) /\ streams_kept [] (st c) (st c')).
Proof.
  unfold client_error. destruct (has types _); cycle 1.
  { intros [= <- <-]. split; [apply grows_refl|]. intros _ ?. split; [done|apply streams_kept_refl]. }
  destruct (so_error _ _) as [k err] eqn:Ek. destruct (so_error_views _ _ _ _ Ek) as [Ha Hu].
  assert (Hk : op_kept P [] c (set_kern k c)).
  { apply (op_kept_posts P _ _ k []); try done; [|by simpl; rewrite app_nil_r].
    intros H. by eapply clean_error in Ek as [? _]. }
  destruct (negb (err =? 0) && _ && _); [|by intros [= <- <-]].
  destruct ((err =? ECONNRESET) || (err =? EPIPE)); [by intros [= <- <-]|]. intros [= <- <-].
  match goal with |- context [on_error_ _ _ ?c1] =>
    destruct (on_error_seen err c1) as [Hg Hin] end.
  split; [exact Hg|]. intros [_ He]. by destruct (He err).
Qed.

Lemma client_cb_kept strict (P : K -> Prop) `{!CleanKernel P} types c c' :
  client_wf strict c -> client_cb user_error user_disconnect types c = Ok c' -> op_kept P [] c c'.
Proof.
  intros Hc Hcb. destruct (client_cb_ok strict types c Hc) as (c3 & s4 & d & Hcb' & Hc3 & Hg4 &
    s2 & fs & Hgr2 & Hf2 & Hfr2 & E3 & Hk & Hsb & Hch & Htr & Hcat & Hcut & Hcl).
  rewrite Hcb in Hcb'. simplify_eq. clear Hcb.
  destruct (client_error user_error types (set_st s2 c)) as [c3 d3] eqn:E. simpl in *.
  destruct (client_error_kept P _ _ _ _ E) as [Hgr3 Hk3].
  assert (Hgr4 : grows (st c) s4)
    by (eapply grows_trans; [exact Hgr2|]; eapply grows_trans; [exact Hgr3|by eexists]).
  destruct d.
  - match goal with |- context [on_disconnect_ _ ?c1] =>
      destruct (on_disconnect_seen c1) as [Hg Hin] end.
    split; [eapply grows_trans; [exact Hgr4|exact Hg]|]. by intros [Hd _].
  - split; [done|]. intros Hcalm HP.
    assert (Hcalm3 : calm c3).
    { eapply (calm_before c3 (set_st s4 c3)); [|done]. simpl. by eexists. }
    destruct (Hcl P _ HP) as (HP2 & Hr2 & Hs2).
    destruct (Hk3 Hcalm3 HP2) as (HP3 & Hf3 & Hs3 & fs3 & Hfr3 & Hcut3 & Hc3').
    simpl in *. rewrite Hk. split; [done|].
    assert (Hfd : fd_of s4 = fd_of (st c)) by (unfold fd_of in *; rewrite Hch; congruence).
    split_and!; [done| |].
    + rewrite app_nil_r, <- Hs2, <- (app_nil_r (sent_stream s2)), <- Hs3.
      unfold sent_stream. by rewrite Hk, Hsb, Hfd, Hf3, Hf2.
    + exists (fs3 ++ fs). rewrite Htr, fragments_app, fragments_frames, Hfr3, Hfr2, app_assoc.
      split; [done|]. rewrite <- Hr2.
      split; [eapply cut_from_app; [done|by symmetry|]; by apply cut_from_more|].
      rewrite concat_app, <- app_assoc, <- Hc3'. f_equal.
      unfold received_stream. by rewrite app_assoc, Hcat, Hk, Hfd, Hf3, Hf2.
Qed.

Lemma run_client_op_kept strict (P : K -> Prop) `{!CleanKernel P} o c c' :
  (forall k fd a n k' r, P k -> sys_connect k fd a n = (k', r) -> P k') ->
  client_wf strict c -> op_ok o -> run_client_op life user_error user_disconnect o c = Ok c' ->
  op_kept P (client_data o) c c'.
Proof.
  intros HP Hc Ho Hr. destruct o as [addr ms|d| | |types| |types]; simpl in *.
  - simplify_eq. by apply connect_kept.
  - destruct (client_send_ok strict d c Hc Ho) as (s & Hs & _ & Hf & Hg & Hfr & Hrec & Hcl).
    rewrite Hs in Hr. simplify_eq. split; [done|]. intros _ HPc. simpl.
    destruct (Hcl P _ HPc) as [HPs Hsent]. split; [done|]. split_and!; [done|done|].
    exists []. rewrite Hfr, Hrec, app_nil_r. split_and!; [done|constructor|done].
  - simplify_eq. destruct (start_quiet c) as (ps & Hr & Hs & Hf & Hk & Ht).
    apply (op_kept_posts P _ _ (kern (st c)) ps); done.
  - simplify_eq. apply (op_kept_posts P _ _ (kern (st c))
      (disable_event (channel_ (st c)) ++ disable_event (connect_timer_channel_ c))); try done.
    simpl. by rewrite map_app, app_assoc.
  - simplify_eq. by apply socket_cb_kept.
  - simplify_eq. by apply timer_cb_kept.
  - by eapply client_cb_kept.
Qed.

Lemma run_client_ops_kept (P : K -> Prop) `{!CleanKernel P} os c :
  (forall k fd a n k' r, P k -> sys_connect k fd a n = (k', r) -> P k') ->
  client_wf false c -> Forall op_ok os ->
  exists c', run_client_ops life user_error user_disconnect os c = Ok c' /\
    op_kept P (concat (map client_data os)) c c'.
Proof.
  intros HP Hc Hos. revert c Hc. induction Hos as [|o os Ho Hos IH]; intros c Hc; simpl.
  { exists c. split; [done|]. split; [apply grows_refl|]. intros _ ?.
    split; [done|apply streams_kept_refl]. }
  destruct (run_client_op_inv false o c Hc Ho) as (c1 & Hr1 & Hc1); [done|]. rewrite Hr1. simpl.
  destruct (run_client_op_kept false P o c c1 HP Hc Ho Hr1) as [Hg1 Hk1].
  destruct (IH c1 Hc1) as (c' & Hr & Hg & Hk). exists c'. split; [done|].
  split; [by eapply grows_trans|]. intros Hcalm HPc.
  destruct (Hk1 (calm_before _ _ Hg Hcalm) HPc) as [HP1 Hs1].
  destruct (Hk Hcalm HP1) as [HP' Hs]. split; [done|]. by eapply streams_kept_trans.
Qed.

(** C18: a client's messages survive the connection.  The socket reports no system
    error while sending, receiving or in SO_ERROR ([CleanKernel]: a send error is
    told to nobody, and drops data).  Whatever was given to [post_send_task] before,
    during and after the connection, in whatever order the calls, [start]
    included, and the events come, as long as no error of [connect] and no
    disconnection is reported: the bytes accepted by the kernel and those still
    buffered are the messages in order, and the frames delivered, the receive
    buffer and the unread bytes are what the peer sent, each frame cut from what
    followed those before it. *)
Theorem client_streams_intact (P : K -> Prop) `{!CleanKernel P} loop fd timer_fd k u os :
  (forall k fd a n k' r, P k -> sys_connect k fd a n = (k', r) -> P k') ->
  0 <= fd -> 0 <= timer_fd -> P k -> Forall op_ok os ->
  exists c, run_client_ops life user_error user_disconnect os
      (client_ctor loop fd timer_fd k u) = Ok c /\
    (calm c ->
     accepted (kern (st c)) fd ++ SB.contents (send_buf_ (st c)) =
       accepted k fd ++ concat (map client_data os) /\
     cut_from (unread k fd) (fragments (trace_ (st c))) /\
     concat (fragments (trace_ (st c))) ++ SB.contents (recv_buf_ (st c)) ++
       unread (kern (st c)) fd = unread k fd).
Proof.
  intros HPc Hfd Ht HP Hos.
  destruct (run_client_ops_kept P os _ HPc (client_ctor_inv loop fd timer_fd k u Hfd Ht false) Hos)
    as (c & Hr & _ & Hk).
  exists c. split; [done|]. intros Hcalm.
  destruct (Hk Hcalm HP) as (_ & Hf & Hs & fs & Hfr & Hcut & Hc).
  assert (Hfd0 : fd_of (st (client_ctor loop fd timer_fd k u)) = fd).
  { unfold fd_of, get_fd, client_ctor, channel_ctor, valid. simpl.
    by destruct (Z.eqb_spec fd (-1)); [lia|]. }
  unfold sent_stream, received_stream in *. rewrite Hf, Hfd0 in *. simpl in Hfr. rewrite Hfr.
  rewrite Hs, Hc, app_nil_r. by split_and!.
Qed.
End handlers.
End facts.

Abbreviation client_inv := (client_wf true).

(** ** Runs *)

#[export] Instance demo_connect : ConnectKernel demo_sock := {
  sys_connect k _ _ _ := (k, Some (if peer_closed k then ECONNREFUSED else EINPROGRESS))
}.

#[export] Instance demo_connect_laws : ConnectLaws demo_sock.
Proof. split. by intros k fd addr len k' r fd' [= <- <-]. Qed.

Abbreviation demo_client := (client demo_sock nat (list (list byte))).

Definition demo_peer : inet_addr := demo_addr (make_ipv4 loopback4 9000).

(** A user that retries when told of an error, and does nothing else. *)
Definition demo_user_error (err : Z) (c : demo_client) : demo_client :=
  connect 1%nat (fun _ c => c) demo_peer 100 c.

Lemma demo_user_error_ok strict err (c : demo_client) :
  client_wf strict c -> client_wf strict (demo_user_error err c).
Proof. apply connect_inv; done. Qed.

Lemma demo_user_error_connecting err (c : demo_client) :
  connected_ c = Connecting -> connected_ (demo_user_error err c) = Connecting.
Proof. unfold demo_user_error, connect. intros H. by rewrite H. Qed.

(** Two messages are queued, the connection succeeds, everything is exchanged. *)
Definition demo_client_ops : list client_op :=
  [OpSend [1; 2]; OpConnect demo_peer 100; OpSend [3]; OpSocketCb EventType.kWrite;
   OpStreamCb (EventType.kRead ||| EventType.kWrite); OpSend [4]].

Lemma demo_ops_ok : Forall op_ok demo_client_ops.
Proof. repeat constructor; vm_compute; reflexivity. Qed.


Lemma connect_outcomes_witness :
  let c : demo_client := client_ctor 5%nat 7 8 (mk_sock [] [] 0 true 0) [] in
  let c' := connect 1%nat demo_user_error demo_peer 100 c in
  connected_ c' = Disconnected /\ started_ c' = false /\
  exists c1, c' = set_connected Disconnected (demo_user_error ECONNREFUSED c1) /\
    ObsError ECONNREFUSED ∈ trace_ (st c1) /\
    forall addr' ms', connect 1%nat demo_user_error addr' ms' c1 = c1.
Proof.
  pose proof (connect_outcomes 1%nat demo_user_error (fun c => c) demo_user_error_ok
    demo_user_error_connecting (fun _ c H => H) demo_peer 100
    (client_ctor 5%nat 7 8 (mk_sock [] [] 0 true 0) [] : demo_client)) as H.
  destruct H as [_ H]; [apply client_ctor_inv; lia|]. exact (H eq_refl).
Defined.

Lemma demo_grows (c : demo_client) : grows (st c) (st c).
Proof. apply grows_refl. Qed.

Lemma demo_clean_connect k fd a n k' r :
  demo_clean k -> sys_connect k fd a n = (k', r) -> demo_clean k'.
Proof. by intros H [= <- <-]. Qed.

Lemma client_streams_intact_witness :
  exists c : demo_client, run_client_ops 1%nat (fun _ c => c) (fun c => c) demo_client_ops
      (client_ctor 5%nat 7 8 demo_kernel []) = Ok c /\
    (calm c ->
     accepted (kern (st c)) 7 ++ SB.contents (send_buf_ (st c)) =
       accepted demo_kernel 7 ++ concat (map client_data demo_client_ops) /\
     cut_from (unread demo_kernel 7) (fragments (trace_ (st c))) /\
     concat (fragments (trace_ (st c))) ++ SB.contents (recv_buf_ (st c)) ++
       unread (kern (st c)) 7 = unread demo_kernel 7).
Proof.
  apply (client_streams_intact 1%nat (fun _ c => c) (fun c => c)
    (fun _ _ _ H => H) (fun _ _ H => H) (fun _ _ H => H) (fun _ => demo_grows) demo_grows demo_clean).
  - apply demo_clean_connect.
  - lia.
  - lia.
  - repeat split; simpl; lia.
  - apply demo_ops_ok.
Defined.

(** What a run of the client with a passive user ends in. *)
Definition demo_client_end (k : demo_sock) (os : list client_op) : option demo_client :=
  match run_client_ops 1%nat (fun _ c => c) (fun c => c) os (client_ctor 5%nat 7 8 k []) with
  | Ok c => Some c
  | _ => None
  end.

(** The callbacks subscribed for the stream, oldest first. *)
Definition stream_subscriptions (c : demo_client) : list client_fun :=
  omap (fun o => match o with
                 | ObsPost (PostFd _ (TEnableCb 7 _ _ g)) => Some (body g)
                 | _ => None
                 end) (trace_ (st c)).

(** A client that is started before it connects never reads: its early
    [start] uses up the [started_] flag, so the one after the connection
    installs nothing, and the last callback of the connected socket is the
    connect callback, subscribed to write events only. *)
Theorem start_before_connect_never_reads :
  exists c, demo_client_end demo_kernel
      [OpStart; OpConnect demo_peer 100; OpSocketCb EventType.kWrite] = Some c /\
    connected_ c = Connected /\ started_ c = true /\
    stream_subscriptions c = [FStreamCb; FSocketCb] /\
    has (event_types_ (channel_ (st c))) EventType.kRead = false.
Proof. eexists. split; [reflexivity|]. by split_and!. Qed.

(** A timeout does not end the attempt: when the timer and the socket are
    reported in the same batch, the callback of the socket runs although the
    timeout was reported, and the client ends up connected and started after
    the user was told ETIMEDOUT. *)
Theorem timeout_then_connected :
  exists c, demo_client_end demo_kernel
      [OpConnect demo_peer 100; OpTimerCb; OpSocketCb EventType.kWrite] = Some c /\
    ObsError ETIMEDOUT ∈ trace_ (st c) /\ connected_ c = Connected /\ started_ c = true.
Proof.
  eexists. split; [reflexivity|]. split_and!; [|done|done].
  simpl. set_solver.
Qed.
