(* ===== verification/StreamServer.v ===== *)
(** * StreamServer: accepting connections and keeping them

    Models [StreamServerSocket] of [src/net/inet.cpp]: the accept loop, the map
    [sessions_] that owns the sessions, [StreamSession::stop] with the task it
    posts, and the destruction of sessions.  A session is an identity with its
    channel ([objects] holds the living ones), numbered in the order they were
    made; the user may keep references of its own ([held]).  The byte streams of
    a session are in [StreamSession], both together in [Sessions]. *)

From S2P Require Import Prelude Events LoopFd Channel StreamIo.

Section server.
Context {L F : Type}.

Record server := mk_server {
  listen_channel_ : channel L;
  started_ : bool;
  sessions_ : gmap Z nat;
  objects : gmap nat (channel L);
  held : gset nat;
  (** the tasks posted by [StreamSession::stop], oldest first *)
  erasing : list nat;
  posts_ : list (post L F);
  (** how many sessions were made; their identities are smaller *)
  made : nat
}.

Definition set_sessions (m : gmap Z nat) (s : server) : server :=
  mk_server (listen_channel_ s) (started_ s) m (objects s) (held s) (erasing s) (posts_ s) (made s).
Definition set_objects (m : gmap nat (channel L)) (s : server) : server :=
  mk_server (listen_channel_ s) (started_ s) (sessions_ s) m (held s) (erasing s) (posts_ s) (made s).
Definition set_held (h : gset nat) (s : server) : server :=
  mk_server (listen_channel_ s) (started_ s) (sessions_ s) (objects s) h (erasing s) (posts_ s) (made s).
Definition set_erasing (l : list nat) (s : server) : server :=
  mk_server (listen_channel_ s) (started_ s) (sessions_ s) (objects s) (held s) l (posts_ s) (made s).
Definition emit (ps : list (post L F)) (s : server) : server :=
  mk_server (listen_channel_ s) (started_ s) (sessions_ s) (objects s) (held s) (erasing s)
    (posts_ s ++ ps) (made s).

(** [StreamSession::stop()] on the session [id]. *)
Definition session_stop (id : nat) (s : server) : server :=
  match objects s !! id with
  | Some c => set_erasing (erasing s ++ [id]) (emit (disable_event c) s)
  | None => s
  end.

(** The identity a new session takes. *)
Definition count (s : server) : server :=
  mk_server (listen_channel_ s) (started_ s) (sessions_ s) (objects s) (held s) (erasing s) (posts_ s)
    (S (made s)).

Definition owned_by_map (id : nat) (s : server) : Prop :=
  map_Exists (fun _ i => i = id) (sessions_ s).

(** The last reference goes: [~StreamSession] calls [stop], whose task will
    find its session gone, and [~LoopChannel] releases the descriptor. *)
Definition destroy (id : nat) (s : server) : server :=
  match objects s !! id with
  | Some c =>
      let s1 := session_stop id s in
      emit (channel_dtor c) (set_objects (delete id (objects s1)) s1)
  | None => s
  end.

Definition release (id : nat) (s : server) : server :=
  if bool_decide (owned_by_map id s) || bool_decide (id ∈ held s) then s else destroy id s.

(** The task of [stop]: erase the session by its descriptor, unless gone. *)
Definition erase_session (id : nat) (s : server) : server :=
  match objects s !! id with
  | None => s
  | Some c =>
      let key := get_fd c in
      match sessions_ s !! key with
      | None => s
      | Some victim => release victim (set_sessions (delete key (sessions_ s)) s)
      end
  end.

(** The oldest of these tasks runs. *)
Definition run_erase (s : server) : server :=
  match erasing s with
  | [] => s
  | id :: rest => erase_session id (set_erasing rest s)
  end.

(** A new connection: the session is made, inserted (which does not replace an
    existing entry) and started; then the local reference goes. *)
Definition add_session (cb : F) (fd : Z) (s : server) : res server :=
  loop ← of_option (get_loop (listen_channel_ s));
  let id := made s in
  let '(c, ps) := channel_ctor loop fd in
  let '(c', ps') := update_event_cb id (EventType.kRead ||| EventType.kError)
                      EventMode.kDefault cb c in
  let key := get_fd c in
  let m := match sessions_ s !! key with Some _ => sessions_ s | None => <[key := id]> (sessions_ s) end in
  Ok (release id (emit (ps ++ ps')
        (set_sessions m (set_objects (<[id := c']> (objects s)) (count s))))).

(** The accept loop, on the answers of the successive [accept4] calls; the
    kernel answers EAGAIN when there is no connection left. *)
Fixpoint accept_loop (cb : F) (answers : list (sock_ret Z)) (s : server) : res server :=
  match answers with
  | [] => Ok s
  | Err e :: rest =>
      if e =? EAGAIN then Ok s
      else if negb (e =? EAGAIN) && negb (e =? ECONNABORTED) then Ok s
      else accept_loop cb rest s
  | Ret fd :: rest => s1 ← add_session cb fd s; accept_loop cb rest s1
  end.

Definition server_stop (s : server) : server :=
  emit (disable_event (listen_channel_ s))
    (mk_server (listen_channel_ s) false (sessions_ s) (objects s) (held s) (erasing s) (posts_ s)
      (made s)).

Definition server_start (life : nat) (cb : F) (s : server) : server :=
  if started_ s then s
  else
    let '(c, ps) := update_event_cb life (EventType.kRead ||| EventType.kError)
                      EventMode.kDefault cb (listen_channel_ s) in
    emit ps (mk_server c true (sessions_ s) (objects s) (held s) (erasing s) (posts_ s) (made s)).

(** The listening callback; [err] is SO_ERROR, read when the error event is set. *)
Definition listen_cb (cb : F) (types : Z) (answers : list (sock_ret Z)) (err : Z) (s : server)
    : res server :=
  s1 ← (if has types EventType.kRead then accept_loop cb answers s else Ok s);
  Ok (if has types EventType.kError && negb (err =? 0) then server_stop s1 else s1).

(** [StreamServerSocket()] *)
Definition server_ctor (loop : L) (fd : Z) : server :=
  let '(c, ps) := channel_ctor loop fd in mk_server c false ∅ ∅ ∅ [] ps 0.

(** A descriptor the kernel may hand out: no living session owns it. *)
Definition fresh_fd (fd : Z) (s : server) : Prop :=
  0 <= fd /\ map_Forall (fun _ c => fd_ c <> fd) (objects s).

(** The descriptors of one run of the accept loop are fresh when handed out. *)
Fixpoint accept_ok (cb : F) (answers : list (sock_ret Z)) (s : server) : Prop :=
  match answers with
  | [] => True
  | Err e :: rest => accept_ok cb rest s
  | Ret fd :: rest =>
      fresh_fd fd s /\ match add_session cb fd s with Ok s1 => accept_ok cb rest s1 | _ => False end
  end.

(** The same, computed. *)
Definition fresh_fdb (fd : Z) (s : server) : bool :=
  (0 <=? fd) && bool_decide (map_Forall (fun _ c => fd_ c <> fd) (objects s)).

Fixpoint accept_okb (cb : F) (answers : list (sock_ret Z)) (s : server) : bool :=
  match answers with
  | [] => true
  | Err e :: rest => accept_okb cb rest s
  | Ret fd :: rest =>
      fresh_fdb fd s && match add_session cb fd s with Ok s1 => accept_okb cb rest s1 | _ => false end
  end.

Lemma accept_okb_ok cb answers s : accept_okb cb answers s = true -> accept_ok cb answers s.
Proof.
  revert s. induction answers as [|[fd|e] rest IH]; intros s H; simpl in *; [done| |by apply IH].
  apply andb_true_iff in H as [[Hfd%Z.leb_le Hall%bool_decide_eq_true]%andb_true_iff H].
  split; [done|]. destruct (add_session cb fd s); [by apply IH|done..].
Qed.

(** The life of a server on its loop; [sv_channel]: a session changes what it
    subscribes to. *)
Inductive sv_step : server -> server -> Prop :=
| sv_listen cb types answers err s s' :
    accept_ok cb answers s -> listen_cb cb types answers err s = Ok s' -> sv_step s s'
| sv_session_stop id s : is_Some (objects s !! id) -> sv_step s (session_stop id s)
| sv_erase s : erasing s <> [] -> sv_step s (run_erase s)
| sv_channel id c c' s :
    objects s !! id = Some c -> fd_ c' = fd_ c -> valid c' <> None ->
    sv_step s (set_objects (<[id := c']> (objects s)) s)
| sv_hold id s : is_Some (objects s !! id) -> sv_step s (set_held ({[id]} ∪ held s) s)
| sv_drop id s : sv_step s (release id (set_held (held s ∖ {[id]}) s))
| sv_stop s : sv_step s (server_stop s)
| sv_start life cb s : sv_step s (server_start life cb s).
End server.
Arguments server : clear implicits.

(** ** Ownership *)

Section facts.
Context {L F : Type}.
Implicit Types s : server L F.

(** The map and the living sessions agree: an entry owns a living session of
    that descriptor, descriptors are not shared, and what lives is owned by the
    map or by the user. *)
Record sessions_inv s : Prop := {
  si_entry fd id : sessions_ s !! fd = Some id ->
    exists c, objects s !! id = Some c /\ get_fd c = fd;
  si_valid id c : objects s !! id = Some c -> get_fd c = fd_ c /\ valid c <> None;
  si_unique i j c d : objects s !! i = Some c -> objects s !! j = Some d ->
    fd_ c = fd_ d -> i = j;
  si_owned id c : objects s !! id = Some c -> owned_by_map id s \/ id ∈ held s;
  si_listen : valid (listen_channel_ s) <> None;
  si_made id c : objects s !! id = Some c -> (id < made s)%nat
}.

Lemma owned_by_map_spec id s :
  owned_by_map id s <-> exists fd, sessions_ s !! fd = Some id.
Proof.
  unfold owned_by_map, map_Exists. split.
  - intros (fd & i & H & ->). by exists fd.
  - intros [fd H]. by exists fd, id.
Qed.

(** The invariant, except that [id] may have just lost its last owner. *)
Record inv_but (id : nat) s : Prop := {
  ib_entry fd i : sessions_ s !! fd = Some i ->
    exists c, objects s !! i = Some c /\ get_fd c = fd;
  ib_valid i c : objects s !! i = Some c -> get_fd c = fd_ c /\ valid c <> None;
  ib_unique i j c d : objects s !! i = Some c -> objects s !! j = Some d ->
    fd_ c = fd_ d -> i = j;
  ib_owned i c : objects s !! i = Some c -> i <> id -> owned_by_map i s \/ i ∈ held s;
  ib_listen : valid (listen_channel_ s) <> None;
  ib_made i c : objects s !! i = Some c -> (i < made s)%nat
}.

Lemma inv_inv_but id s : sessions_inv s -> inv_but id s.
Proof. intros []. by split; eauto. Qed.

Lemma release_inv id s : inv_but id s -> sessions_inv (release id s).
Proof.
  intros [He Hv Hu Ho Hl Hm']. unfold release.
  destruct (bool_decide (owned_by_map id s) || bool_decide (id ∈ held s)) eqn:E.
  - apply orb_true_iff in E. rewrite !bool_decide_eq_true in E.
    split; try done. intros i c Hi. destruct (decide (i = id)) as [->|]; [done | by eapply Ho].
  - apply orb_false_iff in E as [Hm%bool_decide_eq_false Hh%bool_decide_eq_false].
    unfold destroy. destruct (objects s !! id) as [c|] eqn:Hc.
    + unfold session_stop. rewrite Hc. split; simpl.
      * intros fd i Hi. destruct (He fd i Hi) as (c' & Hc' & ?). exists c'. split; [|done].
        rewrite lookup_delete_ne; [done|]. intros <-. apply Hm, owned_by_map_spec. by exists fd.
      * intros i c' [_ Hi]%lookup_delete_Some. by apply (Hv i).
      * intros i j c1 c2 [_ Hi]%lookup_delete_Some [_ Hj]%lookup_delete_Some. by apply Hu.
      * intros i c' [Hne Hi]%lookup_delete_Some. by apply (Ho i c').
      * done.
      * intros i c' [_ Hi]%lookup_delete_Some. by apply (Hm' i c').
    + split; try done. intros i c Hi. apply (Ho i c); [done|congruence].
Qed.

Lemma erase_session_inv id s : sessions_inv s -> sessions_inv (erase_session id s).
Proof.
  intros Hs. unfold erase_session.
  destruct (objects s !! id) as [c|] eqn:Hc; [|done].
  destruct (sessions_ s !! get_fd c) as [victim|] eqn:Hvic; [|done].
  apply release_inv. destruct Hs as [He Hv Hu Ho Hl Hm']. split; simpl; try done.
  - intros fd i [_ Hi]%lookup_delete_Some. by apply He.
  - intros i d Hi Hne. destruct (Ho i d Hi) as [Hm|]; [left|by right].
    apply owned_by_map_spec in Hm as [fd Hfd]. apply owned_by_map_spec. exists fd. simpl.
    rewrite lookup_delete_ne; [done|]. intros <-. congruence.
Qed.

Lemma run_erase_inv s : sessions_inv s -> sessions_inv (run_erase s).
Proof.
  intros Hs. unfold run_erase. destruct (erasing s) as [|id rest]; [done|].
  apply erase_session_inv. by destruct Hs.
Qed.

Lemma channel_inv id c c' s :
  sessions_inv s -> objects s !! id = Some c -> fd_ c' = fd_ c -> valid c' <> None ->
  sessions_inv (set_objects (<[id := c']> (objects s)) s).
Proof.
  intros [He Hv Hu Ho Hl Hm] Hc Hf Hval.
  assert (Hget : get_fd c' = fd_ c') by (unfold get_fd; by destruct (valid c')).
  assert (Hold : forall i d, <[id := c']> (objects s) !! i = Some d ->
    exists d0, objects s !! i = Some d0 /\ fd_ d = fd_ d0 /\ get_fd d = fd_ d /\ valid d <> None).
  { intros i d [[<- <-]|[Hne Hi]]%lookup_insert_Some; [by exists c|].
    exists d. destruct (Hv i d Hi). by split_and!. }
  split; simpl; try done.
  - intros fd i Hi. destruct (He fd i Hi) as (d & Hd & Hdf). destruct (decide (i = id)) as [->|Hne].
    + exists c'. rewrite lookup_insert_eq. split; [done|]. destruct (Hv id c Hc). congruence.
    + exists d. by rewrite lookup_insert_ne.
  - intros i d (d0 & _ & _ & ? & ?)%Hold. done.
  - intros i j d1 d2 (e1 & H1 & -> & _)%Hold (e2 & H2 & -> & _)%Hold. by apply Hu.
  - intros i d (d0 & Hd0 & _)%Hold. by apply (Ho i d0).
  - intros i d (d0 & Hd0 & _)%Hold. by apply (Hm i d0).
Qed.

(** The channel of a session just started. *)
Definition session_channel (loop : L) (fd : Z) : channel L :=
  mk_channel (Some loop) fd (EventType.kRead ||| EventType.kError) EventMode.kDefault.

Lemma session_channel_valid loop fd :
  0 <= fd -> valid (session_channel loop fd) = Some loop /\ get_fd (session_channel loop fd) = fd.
Proof.
  intros Hfd. assert (valid (session_channel loop fd) = Some loop) as Hv.
  { unfold valid. simpl. by destruct (Z.eqb_spec fd (-1)); [lia|]. }
  split; [done|]. unfold get_fd. by rewrite Hv.
Qed.

Lemma fresh_fd_free fd s : sessions_inv s -> fresh_fd fd s -> sessions_ s !! fd = None.
Proof.
  intros [He Hv _ _ _ _] [_ Hfresh]. destruct (sessions_ s !! fd) as [i|] eqn:Hi; [|done]. exfalso.
  destruct (He fd i Hi) as (c & Hc & Hcf). destruct (Hv i c Hc) as [Hf _].
  apply (Hfresh i c Hc). congruence.
Qed.

(** A new session: entered in the table under its descriptor, and owned by it; its
    channel is registered, then subscribed. *)
Lemma add_session_posts cb fd loop s :
  sessions_inv s -> fresh_fd fd s -> valid (listen_channel_ s) = Some loop ->
  exists ps, add_session cb fd s = Ok (emit ps (set_sessions (<[fd := made s]> (sessions_ s))
    (set_objects (<[made s := session_channel loop fd]> (objects s)) (count s)))) /\
    ps = [PostFd loop (TRegister fd); PostFd loop (TEnableCb fd (EventType.kRead ||| EventType.kError)
      EventMode.kDefault (mk_guarded (made s) cb))].
Proof.
  intros Hs Hf Hl. pose proof (fresh_fd_free fd s Hs Hf) as Hnone. destruct Hf as [Hfd _].
  unfold add_session, get_loop. rewrite Hl. simpl.
  assert (Hvc : forall t m, valid (mk_channel (Some loop) fd t m) = Some loop).
  { intros. unfold valid. simpl. by destruct (Z.eqb_spec fd (-1)); [lia|]. }
  assert (Hfc : forall t m, get_fd (mk_channel (Some loop) fd t m) = fd).
  { intros. unfold get_fd. by rewrite Hvc. }
  unfold update_event_cb. rewrite Hvc, Hfc, Hnone.
  match goal with |- context [release _ ?x] => set (s1 := x) end.
  assert (Hrel : release (made s) s1 = s1).
  { unfold release. rewrite bool_decide_eq_true_2; [done|]. apply owned_by_map_spec. exists fd.
    simpl. by rewrite lookup_insert_eq. }
  rewrite Hrel. eexists. split; reflexivity.
Qed.

Lemma add_session_eq cb fd loop s :
  sessions_inv s -> fresh_fd fd s -> valid (listen_channel_ s) = Some loop ->
  exists ps, add_session cb fd s = Ok (emit ps (set_sessions (<[fd := made s]> (sessions_ s))
    (set_objects (<[made s := session_channel loop fd]> (objects s)) (count s)))).
Proof.
  intros Hs Hf Hl. destruct (add_session_posts cb fd loop s Hs Hf Hl) as (ps & H & _). by exists ps.
Qed.

Lemma insert_session_inv fd loop s ps :
  sessions_inv s -> fresh_fd fd s ->
  sessions_inv (emit ps (set_sessions (<[fd := made s]> (sessions_ s))
    (set_objects (<[made s := session_channel loop fd]> (objects s)) (count s)))).
Proof.
  intros Hs Hf. pose proof (fresh_fd_free fd s Hs Hf) as Hnone. destruct Hf as [Hfd Hfresh].
  destruct (session_channel_valid loop fd Hfd) as [Hv' Hg']. destruct Hs as [He Hv Hu Ho Hl Hm].
  split; simpl; [| | | |done|].
  - intros fd' i [[<- <-]|[Hne Hi]]%lookup_insert_Some.
    + eexists. by rewrite lookup_insert_eq.
    + destruct (He fd' i Hi) as (c & Hc & ?). exists c.
      rewrite lookup_insert_ne; [done|]. intros <-. apply Hm in Hc. lia.
  - intros i c [[<- <-]|[Hne Hi]]%lookup_insert_Some; [by rewrite Hv'|by apply (Hv i)].
  - intros i j c d [[<- <-]|[Hne Hi]]%lookup_insert_Some [[<- <-]|[Hne' Hj]]%lookup_insert_Some Hcd.
    + done.
    + simpl in Hcd. by destruct (Hfresh j d Hj).
    + simpl in Hcd. by destruct (Hfresh i c Hi).
    + by apply (Hu i j c d).
  - intros i c [[<- <-]|[Hne Hi]]%lookup_insert_Some.
    + left. apply owned_by_map_spec. exists fd. simpl. by rewrite lookup_insert_eq.
    + destruct (Ho i c Hi) as [[fd' Hfd']%owned_by_map_spec|]; [left|by right].
      apply owned_by_map_spec. exists fd'. simpl.
      rewrite lookup_insert_ne; [done|]. intros <-. congruence.
  - intros i c [[<- <-]|[Hne Hi]]%lookup_insert_Some; [lia|]. specialize (Hm i c Hi). lia.
Qed.

Lemma add_session_inv cb fd s :
  sessions_inv s -> fresh_fd fd s ->
  exists s' id, add_session cb fd s = Ok s' /\ sessions_inv s' /\
    objects s !! id = None /\ sessions_ s' = <[fd := id]> (sessions_ s) /\
    sessions_ s !! fd = None.
Proof.
  intros Hs Hf. pose proof (fresh_fd_free fd s Hs Hf) as Hnone.
  destruct (valid (listen_channel_ s)) as [loop|] eqn:Hl; [|by destruct (si_listen s Hs)].
  destruct (add_session_eq cb fd loop s Hs Hf Hl) as [ps ->].
  eexists _, (made s). split; [done|]. split; [by apply insert_session_inv|]. split_and!; [|done|done].
  destruct (objects s !! made s) as [c|] eqn:Hc; [|done]. apply (si_made s Hs) in Hc. lia.
Qed.

(** The connections the accept loop takes: those answered before EAGAIN or a
    system error; an aborted connection is skipped. *)
Fixpoint taken {A} (answers : list (sock_ret A)) : list A :=
  match answers with
  | [] => []
  | Err e :: rest => if e =? ECONNABORTED then taken rest else []
  | Ret fd :: rest => fd :: taken rest
  end.

Lemma accept_loop_ok cb answers s :
  sessions_inv s -> accept_ok cb answers s ->
  exists s', accept_loop cb answers s = Ok s' /\ sessions_inv s' /\
    (forall fd, fd ∈ taken answers -> exists id, sessions_ s' !! fd = Some id) /\
    (forall fd id, sessions_ s !! fd = Some id -> sessions_ s' !! fd = Some id).
Proof.
  revert s. induction answers as [|[fd|e] rest IH]; intros s Hs Hok; simpl in *.
  - exists s. split_and!; try done. intros fd H. by apply elem_of_nil in H.
  - destruct Hok as [Hf Hok].
    destruct (add_session_inv cb fd s Hs Hf) as (s1 & id & E & Hs1 & _ & Hm & Hnone).
    rewrite E in *. simpl. destruct (IH s1 Hs1 Hok) as (s' & -> & Hs' & Hin & Hkeep).
    exists s'. split_and!; [done|done| |].
    + intros fd' [->|H]%elem_of_cons; [|by apply Hin]. exists id. apply Hkeep.
      by rewrite Hm, lookup_insert_eq.
    + intros fd' i Hi. apply Hkeep. rewrite Hm, lookup_insert_ne; [done|]. congruence.
  - assert (Hend : exists s', Ok s = Ok s' /\ sessions_inv s' /\
      (forall fd, fd ∈ [] -> exists id, sessions_ s' !! fd = Some id) /\
      (forall fd id, sessions_ s !! fd = Some id -> sessions_ s' !! fd = Some id)).
    { exists s. split_and!; try done. intros fd H. by apply elem_of_nil in H. }
    destruct (Z.eqb_spec e EAGAIN) as [->|]; [done|].
    destruct (Z.eqb_spec e ECONNABORTED); [by apply IH | done].
Qed.

(** What the accept loop does to the sessions there are, and the ones it makes. *)
Record accepts (loop : L) (fds : list Z) s s' : Prop := {
  ac_made : made s' = (made s + length fds)%nat;
  ac_listen : listen_channel_ s' = listen_channel_ s;
  ac_erasing : erasing s' = erasing s;
  ac_fds : Forall (fun fd => 0 <= fd) fds;
  ac_old id : (id < made s)%nat -> objects s' !! id = objects s !! id;
  ac_table d id : (id < made s)%nat -> sessions_ s' !! d = Some id -> sessions_ s !! d = Some id;
  ac_new i : objects s' !! (made s + i)%nat = session_channel loop <$> fds !! i
}.

Lemma accepts_none loop s : sessions_inv s -> accepts loop [] s s.
Proof.
  intros Hs. split; try done. intros i. simpl.
  destruct (objects s !! (made s + i)%nat) as [c|] eqn:Hc; [|done]. apply (si_made s Hs) in Hc. lia.
Qed.

Lemma accept_loop_makes cb answers loop s s' :
  sessions_inv s -> valid (listen_channel_ s) = Some loop -> accept_ok cb answers s ->
  accept_loop cb answers s = Ok s' -> accepts loop (taken answers) s s'.
Proof.
  revert s. induction answers as [|[fd|e] rest IH]; intros s Hs Hl Hok Ha; simpl in *.
  - simplify_eq. by apply accepts_none.
  - destruct Hok as [Hf Hok]. destruct (add_session_eq cb fd loop s Hs Hf Hl) as [ps E].
    rewrite E in Ha, Hok. simpl in Ha. set (s1 := emit ps _) in *.
    destruct (IH s1) as [Hm Hlc He Hfds Hob Hse Hnew]; [by apply insert_session_inv|done|done|done|].
    simpl in *. split; [simpl; lia|done|done|constructor; [apply Hf|done]| | |].
    + intros id Hid. rewrite Hob, lookup_insert_ne by lia. done.
    + intros d id Hid Hd. apply Hse in Hd; [|lia].
      apply lookup_insert_Some in Hd as [[_ <-]|[_ Hd]]; [lia|done].
    + intros [|i]; simpl.
      * rewrite Nat.add_0_r, Hob by lia. by rewrite lookup_insert_eq.
      * specialize (Hnew i). by rewrite <- plus_n_Sm.
  - destruct (Z.eqb_spec e EAGAIN) as [->|]; [simplify_eq; by apply accepts_none|].
    destruct (Z.eqb_spec e ECONNABORTED); [by apply IH|]. simpl in Ha. simplify_eq. by apply accepts_none.
Qed.

Lemma sv_step_inv s s' : sessions_inv s -> sv_step s s' -> sessions_inv s'.
Proof.
  intros Hs Hst. destruct Hst as [cb types answers err s s' Hok Hl|id s Hid|s Hne|id c c' s Hc Hf Hlp
    |id s Hid|id s|s|life cb s].
  - unfold listen_cb in Hl. apply res_bind_Ok in Hl as (s1 & H1 & [= <-]).
    assert (Hs1 : sessions_inv s1).
    { destruct (has types _); [|by simplify_eq].
      destruct (accept_loop_ok cb answers s Hs Hok) as (s2 & H2 & ? & _).
      by assert (s2 = s1) as <- by congruence. }
    destruct (has types EventType.kError && _); [|done]. by destruct Hs1.
  - unfold session_stop. destruct (objects s !! id); [|done]. by destruct Hs.
  - by apply run_erase_inv.
  - by eapply channel_inv.
  - destruct Hs as [He Hv Hu Ho Hl Hm]. split; simpl; try done.
    intros i c Hi. destruct (Ho i c Hi); [by left|right; set_solver].
  - apply release_inv. destruct Hs as [He Hv Hu Ho Hl Hm]. split; simpl; try done.
    intros i c Hi Hne. destruct (Ho i c Hi); [by left|right; set_solver].
  - by destruct Hs.
  - unfold server_start. destruct (started_ s); [done|]. destruct Hs as [He Hv Hu Ho Hl Hm].
    unfold update_event_cb. destruct (valid (listen_channel_ s)) as [lp|] eqn:Hvl; [|done].
    split; try done. simpl. unfold valid in *. simpl. by rewrite Hvl.
Qed.

Definition sv_reachable (loop : L) (fd : Z) : server L F -> Prop :=
  rtc sv_step (server_ctor loop fd).

Lemma sv_reachable_inv loop fd s : 0 <= fd -> sv_reachable loop fd s -> sessions_inv s.
Proof.
  intros Hfd Hr. assert (H0 : sessions_inv (server_ctor (F := F) loop fd)).
  { split; try done. unfold valid. simpl. by destruct (Z.eqb_spec fd (-1)); [lia|]. }
  unfold sv_reachable in Hr. remember (server_ctor loop fd) as s0.
  clear Heqs0. induction Hr; eauto using sv_step_inv.
Qed.

(** C11: the sessions of a server, in every reachable state (accepts, stops,
    the tasks they post, references taken and dropped by the user, in any
    order): an entry of [sessions_] is a living session of that very
    descriptor, two living sessions never share a descriptor, a living session
    is owned by the map or the user, so that with neither it is gone; and the
    next run of the accept loop on fresh descriptors is defined, records every
    connection it takes and keeps every entry. *)
Theorem server_sessions_sound loop fd s cb answers :
  0 <= fd -> sv_reachable loop fd s -> accept_ok cb answers s ->
  (forall d id, sessions_ s !! d = Some id ->
     exists c, objects s !! id = Some c /\ get_fd c = d) /\
  (forall i j c d, objects s !! i = Some c -> objects s !! j = Some d -> fd_ c = fd_ d -> i = j) /\
  (forall id c, objects s !! id = Some c -> owned_by_map id s \/ id ∈ held s) /\
  exists s', accept_loop cb answers s = Ok s' /\
    (forall d, d ∈ taken answers -> exists id, sessions_ s' !! d = Some id) /\
    (forall d id, sessions_ s !! d = Some id -> sessions_ s' !! d = Some id).
Proof.
  intros Hfd Hr Hok. pose proof (sv_reachable_inv loop fd s Hfd Hr) as Hs.
  destruct (accept_loop_ok cb answers s Hs Hok) as (s' & Ha & _ & Hin & Hkeep).
  destruct Hs. split_and!; [done|done|done|]. by exists s'.
Qed.

Lemma release_sessions id s : sessions_ (release id s) = sessions_ s.
Proof.
  unfold release, destroy, session_stop.
  destruct (_ || _); [done|]. by destruct (objects s !! id).
Qed.

Lemma release_objects id i s : i <> id -> objects (release id s) !! i = objects s !! i.
Proof.
  intros Hne. unfold release, destroy, session_stop. destruct (_ || _); [done|].
  destruct (objects s !! id); [|done]. simpl. by rewrite lookup_delete_ne.
Qed.

(** What the end of a reference leaves alone. *)
Lemma release_frame id s :
  made (release id s) = made s /\ listen_channel_ (release id s) = listen_channel_ s /\
  objects (release id s) ⊆ objects s /\ erasing s ⊆ erasing (release id s).
Proof.
  unfold release, destroy, session_stop. destruct (_ || _); [done|].
  destruct (objects s !! id) as [c|]; [|done]. simpl.
  split_and!; [done|done|apply delete_subseteq|set_solver].
Qed.

Lemma session_stop_frame id s :
  made (session_stop id s) = made s /\ listen_channel_ (session_stop id s) = listen_channel_ s /\
  objects (session_stop id s) = objects s /\ sessions_ (session_stop id s) = sessions_ s /\
  held (session_stop id s) = held s /\ erasing s ⊆ erasing (session_stop id s).
Proof. unfold session_stop. destruct (objects s !! id); [|done]. simpl.
split_and!; [done..|set_solver]. Qed.

(** Several calls of [stop] on a living session. *)
Lemma session_stops n id s :
  is_Some (objects s !! id) ->
  let s' := Nat.iter n (session_stop id) s in
  rtc sv_step s s' /\ made s' = made s /\ listen_channel_ s' = listen_channel_ s /\
  objects s' = objects s /\ sessions_ s' = sessions_ s /\ held s' = held s /\
  erasing s ⊆ erasing s' /\ ((0 < n)%nat -> id ∈ erasing s').
Proof.
  intros Hid. induction n as [|n (Hr & Hm & Hl & Ho & Hse & Hh & He & _)]; simpl in *.
  { split_and!; try done. lia. }
  set (s1 := Nat.iter n _ s) in *. rewrite <- Ho in Hid.
  destruct (session_stop_frame id s1) as (-> & -> & -> & -> & -> & He'). split_and!; try done.
  - eapply rtc_r; [done|]. by apply sv_session_stop.
  - by etrans.
  - intros _. unfold session_stop. destruct Hid as [c ->]. simpl. set_solver.
Qed.

(** Which entry the task finds: the one of the session itself, or none. *)
Lemma erase_session_cases id s :
  sessions_inv s ->
  (erase_session id s = s /\ forall d, sessions_ s !! d <> Some id) \/
  exists c, objects s !! id = Some c /\ sessions_ s !! get_fd c = Some id /\
    erase_session id s = release id (set_sessions (delete (get_fd c) (sessions_ s)) s) /\
    forall d, delete (get_fd c) (sessions_ s) !! d <> Some id.
Proof.
  intros [Hent Hv Hu _ _ _]. unfold erase_session. destruct (objects s !! id) as [c|] eqn:Hc; cycle 1.
  { left. split; [done|]. intros d Hd. destruct (Hent d id Hd) as (? & ? & _). congruence. }
  assert (Hat : forall d, sessions_ s !! d = Some id -> d = get_fd c).
  { intros d Hd. destruct (Hent d id Hd) as (c' & Hc' & <-). congruence. }
  destruct (sessions_ s !! get_fd c) as [victim|] eqn:Hvic; cycle 1.
  { left. split; [done|]. intros d Hd. rewrite (Hat d Hd) in Hd. congruence. }
  assert (victim = id) as ->.
  { destruct (Hent _ _ Hvic) as (c' & Hc' & Hf'). apply (Hu victim id c' c Hc' Hc).
    destruct (Hv victim c' Hc'), (Hv id c Hc). congruence. }
  right. exists c. split_and!; [done..|]. intros d [Hne Hd]%lookup_delete_Some.
  by rewrite (Hat d Hd) in Hne.
Qed.

Lemma run_erase_frame s :
  sessions_inv s ->
  made (run_erase s) = made s /\ listen_channel_ (run_erase s) = listen_channel_ s /\
  objects (run_erase s) ⊆ objects s /\ sessions_ (run_erase s) ⊆ sessions_ s /\
  forall id, id ∈ erasing s ->
    id ∈ erasing (run_erase s) \/ forall d, sessions_ (run_erase s) !! d <> Some id.
Proof.
  intros Hs. unfold run_erase. destruct (erasing s) as [|i rest] eqn:E; [split_and!; try done; set_solver|].
  assert (Hs1 : sessions_inv (set_erasing rest s)) by (by destruct Hs).
  destruct (erase_session_cases i _ Hs1) as [[-> Hno]|(c & _ & _ & -> & Hno)]; simpl in *.
  - split_and!; [done..|]. intros id [->|Hid]%elem_of_cons; [by right|by left].
  - set (s1 := set_sessions _ _). destruct (release_frame i s1) as (-> & -> & Ho & He).
    rewrite release_sessions. split_and!; [done|done|done|apply delete_subseteq|].
    intros id [->|Hid]%elem_of_cons; [by right|left; exact (He _ Hid)].
Qed.

(** C22: the task a stopped session posts removes that session and no other,
    although it finds it by its descriptor and descriptors are reused: every
    entry and every object of another session is untouched, and the session
    itself, unless the user holds it, is destroyed and its descriptor released. *)
Theorem stop_task_erases_own loop fd s id rest :
  0 <= fd -> sv_reachable loop fd s -> erasing s = id :: rest ->
  (forall d i, i <> id -> sessions_ (run_erase s) !! d = Some i <-> sessions_ s !! d = Some i) /\
  (forall i, i <> id -> objects (run_erase s) !! i = objects s !! i) /\
  (forall d, sessions_ (run_erase s) !! d <> Some id) /\
  (forall c, objects s !! id = Some c -> id ∉ held s ->
     objects (run_erase s) !! id = None /\
     exists lp, PostFd lp (TUnregister (fd_ c)) ∈ posts_ (run_erase s)).
Proof.
  intros Hfd Hr He. pose proof (sv_reachable_inv loop fd s Hfd Hr) as Hs.
  unfold run_erase. rewrite He.
  assert (Hs1 : sessions_inv (set_erasing rest s)) by (by destruct Hs).
  destruct (erase_session_cases id _ Hs1) as [[-> Hno]|(c & Hc & Hvic & -> & Hno)]; simpl in *.
  { split_and!; [done|done|done|]. intros c Hc Hh. destruct (si_owned s Hs id c Hc) as [Hm|]; [|done].
    apply owned_by_map_spec in Hm as [d Hd]. by destruct (Hno d). }
  set (s1 := set_sessions _ _). split_and!.
  - intros d i Hi. rewrite release_sessions. simpl. rewrite lookup_delete_Some. split; [by intros []|].
    intros Hd. split; [|done]. intros <-. congruence.
  - intros i Hi. by rewrite release_objects.
  - intros d. rewrite release_sessions. apply Hno.
  - intros c' Hc' Hh. assert (c' = c) as -> by congruence.
    assert (Hrel : release id s1 = destroy id s1).
    { unfold release. rewrite !bool_decide_eq_false_2; [done|done|].
      intros [d Hd]%owned_by_map_spec. by apply (Hno d). }
    rewrite Hrel. unfold destroy, session_stop. simpl. rewrite Hc. simpl.
    split; [by rewrite lookup_delete_eq|].
    unfold channel_dtor, disable_event. destruct (si_valid s Hs id c Hc) as [_ Hval].
    destruct (valid c) as [lp|]; [|done]. exists lp. set_solver.
Qed.
End facts.

(** ** A run *)

Definition demo_server : server nat nat :=
  match accept_loop 1%nat [Err ECONNABORTED; Ret 10; Ret 11; Err EAGAIN] (server_ctor 5%nat 9) with
  | Ok s => s
  | _ => server_ctor 5%nat 9
  end.

Lemma demo_server_reach : sv_reachable 5%nat 9 (session_stop 0 demo_server).
Proof.
  eapply rtc_l; [|eapply rtc_l; [|apply rtc_refl]].
  - apply (sv_listen 1%nat EventType.kRead [Err ECONNABORTED; Ret 10; Ret 11; Err EAGAIN] 0
      _ demo_server); [|vm_compute; reflexivity].
    apply accept_okb_ok. vm_compute. reflexivity.
  - apply sv_session_stop. vm_compute. by eexists.
Qed.

Lemma server_sessions_sound_witness :
  let s := session_stop 0%nat demo_server in
  (forall d id, sessions_ s !! d = Some id ->
     exists c, objects s !! id = Some c /\ get_fd c = d) /\
  (forall i j c d, objects s !! i = Some c -> objects s !! j = Some d -> fd_ c = fd_ d -> i = j) /\
  (forall id c, objects s !! id = Some c -> owned_by_map id s \/ id ∈ held s) /\
  exists s', accept_loop 1%nat [Ret 12] s = Ok s' /\
    (forall d, d ∈ [12] -> exists id, sessions_ s' !! d = Some id) /\
    (forall d id, sessions_ s !! d = Some id -> sessions_ s' !! d = Some id).
Proof.
  apply (server_sessions_sound 5%nat 9 (session_stop 0%nat demo_server) 1%nat [Ret 12]).
  - lia.
  - apply demo_server_reach.
  - apply accept_okb_ok. vm_compute. reflexivity.
Defined.

Lemma stop_task_erases_own_witness :
  let s := session_stop 0%nat demo_server in
  sessions_ s = list_to_map [(10, 0%nat); (11, 1%nat)] /\
  (forall d i, i <> 0%nat -> sessions_ (run_erase s) !! d = Some i <-> sessions_ s !! d = Some i).
Proof.
  split; [vm_compute; reflexivity|].
  apply (stop_task_erases_own 5%nat 9 (session_stop 0%nat demo_server) 0%nat []).
  - lia.
  - apply demo_server_reach.
  - vm_compute. reflexivity.
Defined.
