(* ===== verification/Sessions.v ===== *)
(** * Sessions: a stream server with the byte streams of its sessions

    [StreamServer] keeps the table of the sessions, [StreamSession] the buffers
    of one of them.  Here they are one state, as in [src/net/inet.cpp]: the accept
    loop makes and starts sessions, the callback and the send tasks of a session
    run while it lives, [on_disconnect] and [on_session_error] of both families
    ([src/net/tcp_socket.cpp], [src/net/unix_socket.cpp]) stop it, the task this
    posts takes it from the table, and its last reference destroys it.  The
    theorem: whatever the other sessions do, each keeps its own two streams. *)

From S2P Require Import Prelude Events StreamBuffer LoopFd Channel Executors StreamIo.
From S2P Require Import StreamLoops StreamSession StreamServer.

(** The messages a session was given to send. *)
Definition given_data (os : list session_op) : list (list byte) :=
  omap (fun o => match o with SendTask true data => Some data | _ => None end) os.

Section hub.
Context {K : Type} `{SK : StreamKernel K, SN : !StreamNet K} {L F U : Type} `{SH : StreamHandler U}.

(** A session ever made: the descriptor and the socket [accept4] gave, what arrived
    since, and what it was given while it lived (ghosts); its state, the last one
    once it is gone; and whether an event was dispatched to it after it had seen the
    end of its stream, as [stop] only posts the task that disables it (a ghost). *)
Record connection := mk_conn {
  c_fd : Z;
  c_sock : K;
  c_arrived : list byte;
  c_given : list session_op;
  c_stream : stream K L F U;
  c_late : bool
}.

(** [conns]: by identity. *)
Record hub := mk_hub {
  srv : server L F;
  conns : list connection
}.

(** The loop and the descriptor of the listening channel, the callback sessions
    install, the user's part of a new session. *)
Variables (loop : L) (listen_fd : Z) (life : nat) (listen_fun cb : F) (u0 : U).

(** A session as the accept loop leaves it. *)
Definition opened (id : nat) (fd : Z) (k : K) : stream K L F U :=
  session_start id cb (session_ctor loop fd k u0).

Definition open_conns (n : nat) (socks : list (Z * K)) : list connection :=
  imap (fun i x => mk_conn x.1 x.2 [] [] (opened (n + i) x.1 x.2) false) socks.

(** [on_session_error] and [on_disconnect] call [session->stop()] first. *)
Definition ends_session (o : obs L F) : bool :=
  match o with ObsError _ | ObsDisconnect => true | _ => false end.

Definition endings (tr : list (obs L F)) : nat := length (filter ends_session tr).

(** An event that finds the end of its stream already seen. *)
Definition is_gone (s : stream K L F U) : bool :=
  existsb (fun o => match o with ObsDisconnect => true | _ => false end) (trace_ s).

Definition is_late (o : session_op) (c : connection) : bool :=
  match o with Callback _ _ => is_gone (c_stream c) | SendTask _ _ => false end.

(** An operation of a living session: its state, its channel, the calls of [stop],
    and the heavy tasks it posts, one for each fragment, which hold the session. *)
Definition run_on (id : nat) (o : session_op) (h : hub) : res (hub * list (nat * list byte)) :=
  match objects (srv h) !! id, conns h !! id with
  | Some _, Some c =>
      s' ← run_session_op o (c_stream c);
      let tr := drop (length (trace_ (c_stream c))) (trace_ s') in
      let sv1 := set_objects (<[id := channel_ s']> (objects (srv h))) (srv h) in
      let sv2 := Nat.iter (endings tr) (session_stop id) sv1 in
      let sv3 := match fragments tr with [] => sv2 | _ => set_held ({[id]} ∪ held sv2) sv2 end in
      Ok (mk_hub sv3 (<[id := mk_conn (c_fd c) (c_sock c) (c_arrived c) (c_given c ++ [o]) s'
            (c_late c || is_late o c)]> (conns h)),
          map (pair id) (fragments tr))
  | _, _ => Ok (h, [])
  end.

(** Bytes arrive at a socket. *)
Definition receive (data : list byte) (s : stream K L F U) : stream K L F U :=
  with_recv (stream_arrive data (kern s) (fd_of s)) (recv_buf_ s) s.

Definition receive_on (id : nat) (data : list byte) (h : hub) : hub :=
  match conns h !! id with
  | Some c =>
      mk_hub (srv h) (<[id := mk_conn (c_fd c) (c_sock c) (c_arrived c ++ data) (c_given c)
        (receive data (c_stream c)) (c_late c)]> (conns h))
  | None => h
  end.

(** What a server and its sessions are given: by the network, the bytes of a peer;
    on the io thread, the listening
    callback, with the answers of [accept4] and [SO_ERROR]; the callback of a
    session; the oldest task of [StreamSession::stop]; the end of the last
    reference outside the table; the task of [post_send_task]; [stop()]. *)
Inductive hub_input :=
| Arrives (id : nat) (data : list byte)
| AcceptEvent (types : Z) (answers : list (sock_ret (Z * K))) (err : Z)
| StreamEvent (id : nat) (types : Z)
| EraseTurn
| LastReference (id : nat)
| SendTo (id : nat) (data : list byte)
| StopSession (id : nat).

Definition answer_fd (a : sock_ret (Z * K)) : sock_ret Z :=
  match a with Ret x => Ret x.1 | Err e => Err e end.

Definition with_srv (sv : server L F) (h : hub) : hub := mk_hub sv (conns h).

Definition hub_step (i : hub_input) (h : hub) : res (hub * list (nat * list byte)) :=
  match i with
  | Arrives id data => Ok (receive_on id data h, [])
  | AcceptEvent types answers err =>
      sv ← listen_cb cb types (map answer_fd answers) err (srv h);
      let socks := if has types EventType.kRead then taken answers else [] in
      Ok (mk_hub sv (conns h ++ open_conns (made (srv h)) socks), [])
  | StreamEvent id types => run_on id (Callback true types) h
  | EraseTurn => Ok (with_srv (run_erase (srv h)) h, [])
  | LastReference id =>
      Ok (with_srv (release id (set_held (held (srv h) ∖ {[id]}) (srv h))) h, [])
  | SendTo id data => run_on id (SendTask true data) h
  | StopSession id => Ok (with_srv (session_stop id (srv h)) h, [])
  end.

(** A server as its factory leaves it. *)
Definition hub0 : hub := mk_hub (server_start life listen_fun (server_ctor loop listen_fd)) [].

End hub.
Arguments connection : clear implicits.
Arguments hub : clear implicits.
Arguments hub_input : clear implicits.

(** What was given to [post_send_task] of a session, what arrived for it, the
    sockets accepted, and the fragments of a session. *)
Definition sent_data {K} (id : nat) (xs : list (hub_input K)) : list (list byte) :=
  omap (fun i => match i with
                 | SendTo j data => if decide (j = id) then Some data else None
                 | _ => None
                 end) xs.

Definition arrived {K} (id : nat) (xs : list (hub_input K)) : list byte :=
  concat (omap (fun i => match i with
                         | Arrives j data => if decide (j = id) then Some data else None
                         | _ => None
                         end) xs).

Definition sockets {K} (xs : list (hub_input K)) : list (Z * K) :=
  concat (map (fun i => match i with
                        | AcceptEvent types answers _ =>
                            if has types EventType.kRead then taken answers else []
                        | _ => []
                        end) xs).

Definition frames_of (id : nat) (os : list (nat * list byte)) : list (list byte) :=
  omap (fun o => if decide (o.1 = id) then Some o.2 else None) os.

Lemma sent_data_app {K} id (xs ys : list (hub_input K)) :
  sent_data id (xs ++ ys) = sent_data id xs ++ sent_data id ys.
Proof. apply omap_app. Qed.

Lemma arrived_app {K} id (xs ys : list (hub_input K)) :
  arrived id (xs ++ ys) = arrived id xs ++ arrived id ys.
Proof. unfold arrived. by rewrite omap_app, concat_app. Qed.

Lemma arrived_pairs {K} id (xs : list (hub_input K)) :
  arrived id xs = concat (omap (fun x => if decide (x.1 = id) then Some x.2 else None)
    (omap (fun i => match i with Arrives j data => Some (j, data) | _ => None end) xs)).
Proof.
  induction xs as [|x xs IH]; [done|]. change (x :: xs) with ([x] ++ xs).
  rewrite arrived_app, IH, omap_app, omap_app, concat_app. by destruct x.
Qed.

Lemma sockets_app {K} (xs ys : list (hub_input K)) : sockets (xs ++ ys) = sockets xs ++ sockets ys.
Proof. unfold sockets. by rewrite map_app, concat_app. Qed.

Lemma frames_of_app id os os' : frames_of id (os ++ os') = frames_of id os ++ frames_of id os'.
Proof. apply omap_app. Qed.

Lemma frames_of_map id j fs : frames_of id (map (pair j) fs) = if decide (j = id) then fs else [].
Proof.
  induction fs as [|f fs IH]; [by case_decide|].
  change (map (pair j) (f :: fs)) with ([(j, f)] ++ map (pair j) fs). rewrite frames_of_app, IH.
  unfold frames_of. simpl. by case_decide.
Qed.

Lemma given_data_app os os' : given_data (os ++ os') = given_data os ++ given_data os'.
Proof. apply omap_app. Qed.

Lemma given_data_one o : concat (given_data [o]) = op_data o.
Proof. destruct o as [[] d|]; simpl; [apply app_nil_r|done|done]. Qed.

(** ** One connection *)

Section facts.
Context {K : Type} `{SK : StreamKernel K, SL : !StreamLaws K, SN : !StreamNet K, SNL : !StreamNetLaws K}
  {L F U : Type} `{SH : StreamHandler U, SPL : !SplitLaws U}.
Variables (loop : L) (listen_fd : Z) (life : nat) (listen_fun cb : F) (u0 : U).
(** Sockets that report no system error. *)
Context (P : K -> Prop) `{!CleanKernel P}.
Hypothesis arrive_clean : forall d k fd, P k -> P (stream_arrive d k fd).
Implicit Types (c : connection K L F U) (h : hub K L F U) (xs : list (hub_input K)).

(** All the bytes of the peer so far. *)
Definition peer_sent c : list byte := unread (c_sock c) (c_fd c) ++ c_arrived c.

Definition peer_here c : Prop := ObsDisconnect ∉ trace_ (c_stream c).

(** A session whose socket reports no system error, and that got no event after
    the end of its stream. *)
Definition plain c : Prop := P (c_sock c) /\ c_late c = false.

(** The two streams of a connection; the frames are cut from what the peer sends,
    also once it is gone. *)
Definition streams_ok c : Prop :=
  cut_from (peer_sent c) (fragments (trace_ (c_stream c))) /\
  concat (fragments (trace_ (c_stream c))) `prefix_of` peer_sent c /\
  (peer_here c ->
    P (kern (c_stream c)) /\
    sent_stream (c_stream c) = accepted (c_sock c) (c_fd c) ++ concat (given_data (c_given c)) /\
    concat (fragments (trace_ (c_stream c))) ++ received_stream (c_stream c) = peer_sent c).

Record conn_ok c : Prop := {
  co_fd : 0 <= c_fd c;
  co_good : good true (c_stream c);
  co_get : fd_of (c_stream c) = c_fd c;
  co_settled : settled (c_stream c);
  co_streams : plain c -> streams_ok c
}.

Lemma is_gone_here c : is_gone (c_stream c) = false -> peer_here c.
Proof.
  unfold peer_here. intros H Hin. assert (is_gone (c_stream c) = true) as Ht; [|congruence].
  apply existsb_exists. exists ObsDisconnect. by split; [apply list_elem_of_In|].
Qed.

Lemma opened_ok id fd k : 0 <= fd -> conn_ok (mk_conn fd k [] [] (opened loop cb u0 id fd k) false).
Proof.
  intros Hfd. destruct (session_started loop fd k u0 id cb Hfd) as (Hg & Hset & Hf & Hk & Hfr & Hs & Hr).
  fold (opened loop cb u0 id fd k) in *. split; simpl; try done.
  intros [HP _]. unfold streams_ok. simpl. rewrite Hfr. split_and!.
  - constructor.
  - apply prefix_nil.
  - intros _. rewrite Hk, Hs, Hr. unfold given_data, peer_sent. simpl. by rewrite !app_nil_r.
Qed.

Lemma opened_facts id fd k :
  0 <= fd ->
  channel_ (opened loop cb u0 id fd k : stream K L F U) = session_channel loop fd /\
  fragments (trace_ (opened loop cb u0 id fd k : stream K L F U)) = [] /\
  forall o, o ∈ trace_ (opened loop cb u0 id fd k : stream K L F U) -> ends_session o = false.
Proof.
  intros Hfd. assert (Hv : forall t m, valid (mk_channel (Some loop) fd t m) = Some loop).
  { intros. unfold valid. simpl. by destruct (Z.eqb_spec fd (-1)); [lia|]. }
  unfold opened, session_start, subscribe_stream, session_ctor, channel_ctor, update_event_cb.
  cbn [channel_]. rewrite Hv. cbn [with_channel channel_ trace_ map].
  split_and!; [reflexivity|reflexivity|]. intros o Ho. simpl in Ho. set_unfold. naive_solver.
Qed.

(** What a session may be given: messages that fit the address space. *)
Definition may_run (o : session_op) : Prop :=
  match o with SendTask alive data => alive = true /\ zlen data < 2 ^ 63 |
    Callback alive _ => alive = true end.

(** The frames an operation cuts. *)
Lemma next_frames c o s' :
  good true (c_stream c) -> may_run o -> is_late o c = false -> streams_ok c ->
  run_session_op o (c_stream c) = Ok s' ->
  cut_from (peer_sent c) (fragments (trace_ s')) /\ concat (fragments (trace_ s')) `prefix_of` peer_sent c.
Proof.
  intros Hg Hm Hlate (Hcut & Hpart & Hhere) Hr'. destruct o as [alive data|alive types]; simpl in Hm.
  - destruct Hm as [-> Hm].
    destruct (send_op_ok data (c_stream c) Hg Hm) as (s1 & Hs1 & _ & _ & _ & _ & Hfr & _).
    simpl in Hr'. assert (s1 = s') as -> by congruence. by rewrite Hfr.
  - subst alive. destruct (Hhere (is_gone_here _ Hlate)) as (HPk & _ & Hrecv).
    destruct (event_frames P types (c_stream c) Hg HPk) as (s1 & fs & rest & Hs1 & Hfr & Hc & Hcat).
    simpl in Hr'. assert (s1 = s') as -> by congruence. rewrite Hfr. split.
    + by eapply cut_from_app.
    + exists rest. by rewrite concat_app, <- app_assoc, Hcat.
Qed.

Lemma conn_next c o :
  conn_ok c -> may_run o ->
  exists s', run_session_op o (c_stream c) = Ok s' /\ grows (c_stream c) s' /\
    conn_ok (mk_conn (c_fd c) (c_sock c) (c_arrived c) (c_given c ++ [o]) s' (c_late c || is_late o c)).
Proof.
  intros [Hfd Hg Hget Hset Hstr] Hm.
  destruct (session_op_ok o (c_stream c) Hg) as (s' & Hr' & Hg' & Hgr & Hf' & Hset' & _ & Hst).
  { destruct o as [a d|a t]; simpl in *; [by destruct Hm as [-> ?]|by destruct a]. }
  exists s'. split; [done|]. split; [done|]. split; simpl; [done|done|congruence|by apply Hset'|].
  intros [HP [Hl Hlate]%orb_false_iff]. simpl in HP. pose proof (Hstr (conj HP Hl)) as Hs.
  pose proof Hs as (_ & _ & Hhere).
  destruct (next_frames c o s' Hg Hm Hlate Hs Hr') as [Hcut' Hpart'].
  split; [exact Hcut'|]. split; [exact Hpart'|]. simpl.
  intros Hd. destruct (Hhere (grows_not_elem _ _ _ Hgr Hd)) as (HPk & Hsent & Hrecv).
  destruct (Hst P _ HPk Hd) as (HP' & Hs' & fs & Hfr & _ & Hcat). split; [done|].
  rewrite Hs', Hsent, given_data_app, concat_app, given_data_one, app_assoc. split; [done|].
  rewrite Hfr, concat_app, <- app_assoc, Hcat. exact Hrecv.
Qed.

(** Bytes arrive: they will be read after those that came before. *)
Lemma receive_streams d (s : stream K L F U) :
  sent_stream (receive d s) = sent_stream s /\ received_stream (receive d s) = received_stream s ++ d.
Proof.
  unfold sent_stream, received_stream, receive, fd_of. simpl.
  by rewrite arrive_unread, arrive_accepted, app_assoc.
Qed.

Lemma conn_receives c d :
  conn_ok c ->
  conn_ok (mk_conn (c_fd c) (c_sock c) (c_arrived c ++ d) (c_given c) (receive d (c_stream c)) (c_late c)).
Proof.
  intros [Hfd Hg Hget Hset Hstr]. destruct (receive_streams d (c_stream c)) as [Hs Hr].
  assert (Hps : peer_sent (mk_conn (c_fd c) (c_sock c) (c_arrived c ++ d) (c_given c)
    (receive d (c_stream c)) (c_late c)) = peer_sent c ++ d) by (unfold peer_sent; simpl; by rewrite
      app_assoc).
  split; simpl; try done; [by destruct Hg as [[] ? ?]|].
  intros Hp. destruct (Hstr Hp) as (Hcut & Hpart & Hhere). unfold streams_ok. rewrite Hps. simpl.
  split_and!.
  - by apply cut_from_more.
  - by apply prefix_app_r.
  - intros (HPk & Hsent & Hrecv)%Hhere. rewrite Hs, Hr, app_assoc, Hrecv. split_and!; [|done|done].
    by apply arrive_clean.
Qed.

(** ** The server and its connections *)

Abbreviation step := (hub_step loop cb u0).
Abbreviation init := (hub0 loop listen_fd life listen_fun : hub K L F U).

(** Inputs as the kernel and the user may give them: descriptors are not reused
    while open, nobody has a session before it is made, and no message fills the
    address space. *)
Definition input_ok (x : hub_input K) h : Prop :=
  match x with
  | AcceptEvent types answers err =>
      accept_ok cb (map answer_fd answers) (srv h)
  | Arrives id data => (id < length (conns h))%nat
  | SendTo id data => (id < length (conns h))%nat /\ zlen data < 2 ^ 63
  | _ => True
  end.

Fixpoint admissible xs h : Prop :=
  match xs with
  | [] => True
  | x :: xs' => input_ok x h /\ forall h' os, step x h = Ok (h', os) -> admissible xs' h'
  end.

Definition ended c : Prop := exists o, o ∈ trace_ (c_stream c) /\ ends_session o = true.

(** Each connection by itself; what was posted for it reached it as long as it
    lived; and a session that ended leaves the table when the task of its [stop]
    runs. *)
Record hub_inv xs h (os : list (nat * list byte)) : Prop := {
  hi_run : run_all step xs init = Ok (h, os);
  hi_server : sv_reachable loop listen_fd (srv h);
  hi_made : made (srv h) = length (conns h);
  hi_loop : valid (listen_channel_ (srv h)) = Some loop;
  hi_object id ch : objects (srv h) !! id = Some ch ->
    exists c, conns h !! id = Some c /\ channel_ (c_stream c) = ch;
  hi_conn id c : conns h !! id = Some c -> conn_ok c;
  hi_given id c : conns h !! id = Some c ->
    given_data (c_given c) `prefix_of` sent_data id xs /\
    (is_Some (objects (srv h) !! id) -> given_data (c_given c) = sent_data id xs);
  hi_frames id : frames_of id os =
    match conns h !! id with Some c => fragments (trace_ (c_stream c)) | None => [] end;
  hi_sent id : (length (conns h) <= id)%nat -> sent_data id xs = [];
  hi_arrived id c : conns h !! id = Some c -> c_arrived c = arrived id xs;
  hi_none id : (length (conns h) <= id)%nat -> arrived id xs = [];
  hi_socks : map (fun c => (c_fd c, c_sock c)) (conns h) = sockets xs;
  hi_ended id c : conns h !! id = Some c -> ended c ->
    id ∈ erasing (srv h) \/ forall d, sessions_ (srv h) !! d <> Some id
}.

Hypothesis listen_nonneg : 0 <= listen_fd.

Lemma hub_sessions_inv xs h os : hub_inv xs h os -> sessions_inv (srv h).
Proof. intros H. by eapply sv_reachable_inv, hi_server. Qed.

Lemma hub0_inv : hub_inv [] init [].
Proof.
  assert (Hl : valid (listen_channel_ (srv init)) = Some loop /\ made (srv init) = 0%nat /\
    objects (srv init) = ∅).
  { unfold hub0, server_start, server_ctor, channel_ctor, update_event_cb, valid. simpl.
    destruct (Z.eqb_spec listen_fd (-1)); [lia|]. simpl. by destruct (Z.eqb_spec listen_fd (-1)). }
  destruct Hl as (Hl & Hm & Ho). split; try done; [apply rtc_once, (sv_start life listen_fun)|].
  intros id ch. by rewrite Ho.
Qed.

(** An input of the server alone. *)
Lemma with_srv_inv xs x h os sv :
  hub_inv xs h os -> step x h = Ok (with_srv sv h, []) -> rtc sv_step (srv h) sv ->
  made sv = made (srv h) -> listen_channel_ sv = listen_channel_ (srv h) ->
  objects sv ⊆ objects (srv h) ->
  sessions_ sv ⊆ sessions_ (srv h) ->
  (forall id, id ∈ erasing (srv h) -> id ∈ erasing sv \/ forall d, sessions_ sv !! d <> Some id) ->
  (forall id, sent_data id [x] = []) -> (forall id, arrived id [x] = []) -> sockets [x] = [] ->
  hub_inv (xs ++ [x]) (with_srv sv h) os.
Proof.
  intros [Hr Hs Hm Hl Ho Hc Hg Hf Hx Har Hno Hsk He] Hst Hsv Hm' Hl' Ho' Hse Her Hd Hda Hns.
  split; simpl; rewrite ?Hm', ?Hl'; try done.
  - rewrite <- (app_nil_r os). by eapply run_all_snoc.
  - by eapply rtc_trans.
  - intros id ch H. by eapply Ho, lookup_weaken.
  - intros id c Hid. rewrite sent_data_app, Hd, app_nil_r. destruct (Hg id c Hid) as [Hp Hq].
    split; [done|]. intros [ch Hch]. apply Hq. exists ch. by eapply lookup_weaken.
  - intros id Hid. by rewrite sent_data_app, Hd, Hx.
  - intros id c Hid. rewrite arrived_app, Hda, app_nil_r. by apply Har.
  - intros id Hid. by rewrite arrived_app, Hda, Hno.
  - by rewrite sockets_app, Hns, app_nil_r.
  - intros id c Hid Hend. destruct (He id c Hid Hend) as [Hin|Hout]; [by apply Her|].
    right. intros d Hd'. by eapply (Hout d), lookup_weaken.
Qed.

Lemma erase_turn_inv xs h os :
  hub_inv xs h os -> hub_inv (xs ++ [EraseTurn]) (with_srv (run_erase (srv h)) h) os.
Proof.
  intros Hi. destruct (run_erase_frame (srv h)) as (Hm & Hl & Ho & Hse & He); [by eapply hub_sessions_inv|].
  apply (with_srv_inv xs EraseTurn); try done.
  destruct (erasing (srv h)) as [|id rest] eqn:E; [unfold run_erase; rewrite E; apply rtc_refl|].
  apply rtc_once, sv_erase. by rewrite E.
Qed.

Lemma last_reference_inv xs h os id :
  hub_inv xs h os ->
  hub_inv (xs ++ [LastReference id])
    (with_srv (release id (set_held (held (srv h) ∖ {[id]}) (srv h))) h) os.
Proof.
  intros Hi. set (s1 := set_held _ _). destruct (release_frame id s1) as (Hm & Hl & Ho & He).
  apply (with_srv_inv xs (LastReference id)); try done.
  - apply rtc_once, sv_drop.
  - by rewrite release_sessions.
  - intros i Hin. left. exact (He _ Hin).
Qed.

Lemma stop_session_inv xs h os id :
  hub_inv xs h os -> hub_inv (xs ++ [StopSession id]) (with_srv (session_stop id (srv h)) h) os.
Proof.
  intros Hi. destruct (session_stop_frame id (srv h)) as (Hm & Hl & Ho & Hse & _ & He).
  apply (with_srv_inv xs (StopSession id)); try done.
  - destruct (objects (srv h) !! id) as [c|] eqn:E; [apply rtc_once, sv_session_stop; by eexists|].
    unfold session_stop. rewrite E. apply rtc_refl.
  - by rewrite Ho.
  - by rewrite Hse.
  - intros i Hin. left. exact (He _ Hin).
Qed.

Lemma taken_fds (answers : list (sock_ret (Z * K))) :
  taken (map answer_fd answers) = map fst (taken answers).
Proof.
  induction answers as [|[y|e] answers IH]; simpl; [done|by f_equal|]. by destruct (e =? ECONNABORTED).
Qed.

Lemma lookup_opened h n socks id :
  n = length (conns h) ->
  (conns h ++ open_conns loop cb u0 n socks) !! id =
    if decide (id < n)%nat then conns h !! id
    else (fun x => mk_conn x.1 x.2 [] [] (opened loop cb u0 id x.1 x.2) false) <$> socks !! (id - n)%nat.
Proof.
  intros ->. case_decide as Hd; [by rewrite lookup_app_l|]. rewrite lookup_app_r by lia.
  unfold open_conns. rewrite list_lookup_imap. destruct (socks !! _); [|done]. simpl.
  by replace (length (conns h) + (id - length (conns h)))%nat with id by lia.
Qed.

Lemma open_conns_socks n socks :
  map (fun c => (c_fd c, c_sock c)) (open_conns loop cb u0 n socks) = socks.
Proof.
  unfold open_conns. change (@map ?A ?B) with (@fmap list _ A B). rewrite fmap_imap. simpl.
  etrans; [apply (imap_ext _ (const id)); by intros i [] _|]. rewrite imap_const. apply list_fmap_id.
Qed.

(** A connection after the accept loop: an old one, or one just opened. *)
Lemma opened_cases h n socks sv id c :
  n = length (conns h) -> accepts loop (map fst socks) (srv h) sv ->
  (conns h ++ open_conns loop cb u0 n socks) !! id = Some c ->
  (id < n)%nat /\ conns h !! id = Some c \/
  exists fd k, 0 <= fd /\ (n <= id)%nat /\ socks !! (id - n)%nat = Some (fd, k) /\
    c = mk_conn fd k [] [] (opened loop cb u0 id fd k) false.
Proof.
  intros Hn Ha. rewrite lookup_opened by done. case_decide as Hid; [by left|]. right.
  destruct (socks !! (id - n)%nat) as [[fd k]|] eqn:E; [|done]. simplify_eq/=. exists fd, k.
  split_and!; [|lia|done|done].
  apply (Forall_lookup_1 _ _ (id - length (conns h)) fd (ac_fds _ _ _ _ Ha)).
  change (map fst socks) with (fst <$> socks). by rewrite list_lookup_fmap, E.
Qed.

(** The accept loop only adds connections. *)
Lemma open_inv xs x h os sv socks :
  hub_inv xs h os ->
  step x h = Ok (mk_hub sv (conns h ++ open_conns loop cb u0 (made (srv h)) socks), []) ->
  sv_step (srv h) sv -> accepts loop (map fst socks) (srv h) sv ->
  (forall id, sent_data id [x] = []) -> (forall id, arrived id [x] = []) -> sockets [x] = socks ->
  hub_inv (xs ++ [x]) (mk_hub sv (conns h ++ open_conns loop cb u0 (made (srv h)) socks)) os.
Proof.
  intros [Hr Hs Hm Hl Ho Hc Hg Hf Hx Har Hno Hsk He] Hst Hsv Ha Hd Hda Hns.
  pose proof (fun id c => opened_cases h _ socks sv id c Hm Ha) as Hcases.
  destruct Ha as [Am Al Ae _ Ao At An]. rewrite length_map in Am.
  split; simpl; [| | |by rewrite Al| | | | | | | | |].
  - rewrite <- (app_nil_r os). by eapply run_all_snoc.
  - by eapply rtc_r.
  - rewrite length_app. unfold open_conns. rewrite length_imap. lia.
  - intros id ch Hid. rewrite lookup_opened by done. case_decide as Hlt.
    + rewrite Ao in Hid by done. by apply Ho.
    + replace id with (made (srv h) + (id - made (srv h)))%nat in Hid by lia. rewrite An in Hid.
      change (map fst socks) with (fst <$> socks) in Hid. rewrite list_lookup_fmap in Hid.
      destruct (socks !! _) as [[fd k]|] eqn:E; [|done]. simplify_eq/=. eexists. split; [done|]. simpl.
      apply opened_facts.
      destruct (Hcases id (mk_conn fd k [] [] (opened loop cb u0 id fd k) false)) as [[? _]|(fd' & k'
        & Hp & _
        & E' & _)];
        [|lia|congruence]. rewrite lookup_opened, decide_False, E by done. done.
  - intros id c [[Hlt Hid]|(fd & k & Hp & Hge & E & ->)]%Hcases; [by eapply Hc|by apply opened_ok].
  - intros id c Hid. rewrite sent_data_app, Hd, app_nil_r.
    apply Hcases in Hid as [[Hlt Hid]|(fd & k & Hp & Hge & E & ->)].
    + rewrite Ao by done. by apply Hg.
    + rewrite Hx by lia. done.
  - intros id. rewrite Hf, lookup_opened by done. case_decide as Hlt; [done|].
    rewrite lookup_ge_None_2 by lia. destruct (socks !! _) as [[fd k]|] eqn:E; [|done]. simpl. symmetry.
    apply opened_facts. destruct (Hcases id (mk_conn fd k [] [] (opened loop cb u0 id fd k) false)) as
      [[? _]|(fd' & k' & Hp & _ & E' & _)]; [|lia|congruence].
    rewrite lookup_opened, decide_False, E by done. done.
  - intros id. rewrite length_app. intros Hid. rewrite sent_data_app, Hd, Hx by lia. done.
  - intros id c. rewrite arrived_app, Hda, app_nil_r.
    intros [[Hlt Hid]|(fd & k & Hp & Hge & E & ->)]%Hcases; [by apply Har|]. by rewrite Hno by lia.
  - intros id. rewrite length_app. intros Hid. rewrite arrived_app, Hda, Hno by lia. done.
  - by rewrite map_app, Hsk, open_conns_socks, sockets_app, Hns.
  - intros id c [[Hlt Hid]|(fd & k & Hp & Hge & E & ->)]%Hcases (o & Hin & Hend).
    + rewrite Ae. destruct (He id c Hid) as [|Hout]; [by exists o|by left|]. right. intros d Hd'.
      by eapply (Hout d), At.
    + simpl in Hin. apply opened_facts in Hin; [congruence|done].
Qed.

Lemma accept_inv xs h os types answers err :
  hub_inv xs h os -> input_ok (AcceptEvent types answers err) h ->
  exists h', step (AcceptEvent types answers err) h = Ok (h', []) /\
    hub_inv (xs ++ [AcceptEvent types answers err]) h' os.
Proof.
  intros Hi Hok. set (answers' := map answer_fd answers) in *.
  set (socks := if has types EventType.kRead then taken answers else []).
  assert (H : exists s1, (if has types EventType.kRead then accept_loop cb answers' (srv h) else Ok
    (srv h)) = Ok s1 /\
    accepts loop (map fst socks) (srv h) s1).
  { pose proof (hub_sessions_inv _ _ _ Hi) as Hs. unfold socks. destruct (has types _).
    - destruct (accept_loop_ok cb answers' (srv h) Hs Hok) as (s1 & Ha & _). exists s1. split; [done|].
      rewrite <- taken_fds. eapply accept_loop_makes; try done. by eapply hi_loop.
    - exists (srv h). split; [done|]. by apply accepts_none. }
  destruct H as (s1 & H1 & Ha).
  set (sv := if has types EventType.kError && negb (err =? 0) then server_stop s1 else s1).
  assert (Hl : listen_cb cb types answers' err (srv h) = Ok sv) by (unfold listen_cb; by rewrite H1).
  eexists. split; [simpl; fold answers'; rewrite Hl; reflexivity|]. fold socks. apply open_inv; try done.
  - simpl. fold answers'. by rewrite Hl.
  - by eapply sv_listen.
  - unfold sv. destruct (_ && _); [|done]. by destruct Ha.
  - unfold sockets. simpl. by rewrite app_nil_r.
Qed.

(** The state of the server after an operation of a session. *)
Lemma run_on_server h id c (s' : stream K L F U) :
  sessions_inv (srv h) -> objects (srv h) !! id = Some (channel_ (c_stream c)) ->
  fd_ (channel_ s') = fd_ (channel_ (c_stream c)) -> valid (channel_ s') <> None ->
  let tr := drop (length (trace_ (c_stream c))) (trace_ s') in
  let sv1 := set_objects (<[id := channel_ s']> (objects (srv h))) (srv h) in
  let sv2 := Nat.iter (endings tr) (session_stop id) sv1 in
  let sv3 := match fragments tr with [] => sv2 | _ => set_held ({[id]} ∪ held sv2) sv2 end in
  rtc sv_step (srv h) sv3 /\ made sv3 = made (srv h) /\ listen_channel_ sv3 = listen_channel_ (srv h) /\
  objects sv3 = <[id := channel_ s']> (objects (srv h)) /\ sessions_ sv3 = sessions_ (srv h) /\
  erasing (srv h) ⊆ erasing sv3 /\ ((0 < endings tr)%nat -> id ∈ erasing sv3).
Proof.
  intros Hs Hc Hf Hv tr sv1 sv2 sv3.
  assert (Hid : is_Some (objects sv1 !! id)) by (simpl; rewrite lookup_insert_eq; by eexists).
  destruct (session_stops (endings tr) id sv1 Hid) as (Hr & Hm & Hl & Ho & Hse & Hh & He & Hin).
  fold sv2 in Hr, Hm, Hl, Ho, Hse, Hh, He, Hin.
  assert (Hr1 : rtc sv_step (srv h) sv2) by (eapply rtc_l; [by eapply sv_channel|done]).
  unfold sv3. destruct (fragments tr); [by split_and!|]. split_and!; try done.
  eapply rtc_r; [exact Hr1|]. apply sv_hold. by rewrite Ho.
Qed.

(** [x] gives the operation [o] to the session [id]. *)
Definition gives x id o h : Prop :=
  step x h = run_on id o h /\
  may_run o /\
  (forall j ys, sent_data j (ys ++ [x]) = sent_data j ys ++ if decide (j = id) then given_data [o]
    else []) /\
  (given_data [o] <> [] -> (id < length (conns h))%nat) /\
  (forall j, arrived j [x] = []) /\ sockets [x] = [].

Lemma gives_sent xs x h os id o :
  hub_inv xs h os -> gives x id o h ->
  forall j, (length (conns h) <= j)%nat -> sent_data j (xs ++ [x]) = [].
Proof.
  intros Hi (_ & _ & Hs & Hm & _) j Hj. rewrite Hs, (hi_sent _ _ _ Hi) by done. simpl.
  case_decide as Hd; [|done].
  subst j. destruct (decide (given_data [o] = [])) as [|Hne]; [done|]. apply Hm in Hne. lia.
Qed.

(** Nothing happens for a session that is gone. *)
Lemma run_on_dead xs x h os id o :
  hub_inv xs h os -> gives x id o h -> objects (srv h) !! id = None ->
  hub_inv (xs ++ [x]) h os.
Proof.
  intros Hi Hg Hid. pose proof (gives_sent _ _ _ _ _ _ Hi Hg) as Hsent.
  destruct Hg as (Hst & _ & Hs & _ & Hda & Hns).
  destruct Hi as [Hr Hsv Hm Hl Ho Hc Hgv Hf Hx Har Hno Hsk He].
  split; rewrite ?sockets_app, ?Hns, ?app_nil_r; try done.
  - rewrite <- (app_nil_r os). eapply run_all_snoc; [done|]. rewrite Hst. unfold run_on. by rewrite Hid.
  - intros j c Hj. rewrite Hs. destruct (Hgv j c Hj) as [Hp Hq]. split; [by apply prefix_app_r|].
    intros Hal. rewrite decide_False; [by rewrite app_nil_r, Hq|]. intros ->. rewrite Hid in Hal.
    by destruct Hal.
  - intros j c Hj. rewrite arrived_app, Hda, app_nil_r. by apply Har.
  - intros j Hj. by rewrite arrived_app, Hda, Hno.
Qed.

Lemma good_fd (s : stream K L F U) : good true s -> fd_of s = fd_ (channel_ s) /\
  valid (channel_ s) <> None.
Proof. intros [_ _ Hu]. split; [|done]. unfold fd_of, get_fd, usable in *. by destruct (valid _). Qed.

Lemma endings_in (l : list (obs L F)) o : o ∈ l -> ends_session o = true -> (0 < endings l)%nat.
Proof.
  intros Hin Ho. unfold endings. destruct (filter ends_session l) as [|o' l'] eqn:E; [|simpl; lia].
  exfalso. assert (o ∈ filter ends_session l) as H by (apply list_elem_of_filter; by rewrite Ho).
  rewrite E in H. by apply elem_of_nil in H.
Qed.

(** One connection moves, with what of the server is its own; the others see
    nothing of it. *)
Record moves xs x h id c c' (os' : list (nat * list byte)) (sv : server L F) : Prop := {
  mv_step : step x h = Ok (mk_hub sv (<[id := c']> (conns h)), os');
  mv_server : rtc sv_step (srv h) sv /\ made sv = made (srv h) /\
    listen_channel_ sv = listen_channel_ (srv h) /\ sessions_ sv = sessions_ (srv h) /\
    erasing (srv h) ⊆ erasing sv;
  mv_object : objects sv !! id = (fun _ => channel_ (c_stream c')) <$> objects (srv h) !! id;
  mv_objects j : j <> id -> objects sv !! j = objects (srv h) !! j;
  mv_sock : (c_fd c', c_sock c') = (c_fd c, c_sock c);
  mv_ok : conn_ok c';
  mv_given : given_data (c_given c') = given_data (c_given c) ++ sent_data id [x];
  mv_arrived : c_arrived c' = c_arrived c ++ arrived id [x];
  mv_others j : j <> id -> sent_data j [x] = [] /\ arrived j [x] = [] /\ frames_of j os' = [];
  mv_socks : sockets [x] = [];
  mv_alive : sent_data id [x] = [] \/ is_Some (objects (srv h) !! id);
  mv_frames : fragments (trace_ (c_stream c')) = fragments (trace_ (c_stream c)) ++ frames_of id os';
  mv_ended : ended c' -> ended c \/ id ∈ erasing sv
}.

Lemma moves_inv xs x h os id c c' os' sv :
  hub_inv xs h os -> conns h !! id = Some c -> moves xs x h id c c' os' sv ->
  hub_inv (xs ++ [x]) (mk_hub sv (<[id := c']> (conns h))) (os ++ os').
Proof.
  intros [Hr Hs Hm Hl Ho Hc Hg Hf Hx Har Hno Hsk He] Hcn
    [Mst (Msv & Mm & Ml & Mse & Me) Mo Mos Mk Mok Mg Ma Mot Ms Mal Mf Men].
  pose proof (lookup_lt_Some _ _ _ Hcn) as Hlt. injection Mk as Mfd Msk.
  assert (Hlk : forall j d, <[id := c']> (conns h) !! j = Some d ->
    j = id /\ d = c' \/ j <> id /\ conns h !! j = Some d).
  { intros j d [(-> & -> & _)|[Hne Hj]]%list_lookup_insert_Some; [by left|by right]. }
  split; simpl; rewrite ?Mm, ?Ml, ?Mse, ?length_insert; try done.
  - by eapply run_all_snoc.
  - by eapply rtc_trans.
  - intros j ch Hj. destruct (decide (j = id)) as [->|Hne].
    + exists c'. rewrite list_lookup_insert_eq by done. rewrite Mo in Hj.
      split; [done|]. by destruct (objects (srv h) !! id); simplify_eq/=.
    + rewrite list_lookup_insert_ne by done. apply Ho. by rewrite <- Mos.
  - intros j d [[-> ->]|[Hne Hj]]%Hlk; [done|by eapply Hc].
  - intros j d Hj. rewrite sent_data_app. apply Hlk in Hj as [[-> ->]|[Hne Hj]].
    + destruct (Hg id c Hcn) as [Hp Hq]. rewrite Mg, Mo. split.
      * destruct Mal as [->|Hal]; [rewrite app_nil_r; by apply prefix_app_r|by rewrite Hq].
      * intros Hal. rewrite Hq; [done|]. by destruct (objects (srv h) !! id); [eexists|destruct Hal].
    + destruct (Mot j Hne) as (-> & _). rewrite app_nil_r, Mos by done. by apply Hg.
  - intros j. rewrite frames_of_app, Hf. destruct (decide (j = id)) as [->|Hne].
    + by rewrite Hcn, list_lookup_insert_eq, Mf.
    + destruct (Mot j Hne) as (_ & _ & ->). by rewrite app_nil_r, list_lookup_insert_ne.
  - intros j Hj. destruct (Mot j) as (Hj' & _); [lia|]. by rewrite sent_data_app, Hj', Hx.
  - intros j d Hj. rewrite arrived_app. apply Hlk in Hj as [[-> ->]|[Hne Hj]].
    + by rewrite Ma, (Har id c Hcn).
    + destruct (Mot j Hne) as (_ & -> & _). rewrite app_nil_r. by apply Har.
  - intros j Hj. destruct (Mot j) as (_ & Hj' & _); [lia|]. by rewrite arrived_app, Hj', Hno.
  - rewrite sockets_app, Ms, app_nil_r, <- Hsk. change (@map ?A ?B) with (@fmap list _ A B).
    rewrite list_fmap_insert. apply list_insert_id. rewrite list_lookup_fmap, Hcn. simpl.
    by rewrite Mfd, Msk.
  - intros j d [[-> ->]|[Hne Hj]]%Hlk Hend.
    + apply Men in Hend as [Hend|Hin]; [|by left].
      destruct (He id c Hcn Hend) as [Hin|Hout]; [left; exact (Me _ Hin)|by right].
    + destruct (He j d Hj Hend) as [Hin|Hout]; [left; exact (Me _ Hin)|by right].
Qed.

(** An operation of a living session. *)
Lemma run_on_alive xs x h os id o c :
  hub_inv xs h os -> gives x id o h -> objects (srv h) !! id = Some (channel_ (c_stream c)) ->
  conns h !! id = Some c ->
  exists h' os', step x h = Ok (h', os') /\ hub_inv (xs ++ [x]) h' (os ++ os').
Proof.
  intros Hi (Hst & Hmay & Hs & _ & Hda & Hns) Hob Hcn. pose proof (hi_conn _ _ _ Hi id c Hcn) as Hc.
  destruct (conn_next c o Hc Hmay) as (s' & Hrun & [l Hl'] & Hok).
  destruct (good_fd _ (co_good _ Hc)) as [Hfd _]. rewrite (co_get _ Hc) in Hfd.
  destruct (good_fd _ (co_good _ Hok)) as [Hfd' Hv']. rewrite (co_get _ Hok) in Hfd'. simpl in Hfd', Hv'.
  destruct (run_on_server h id c s') as (Hsv3 & Hm3 & Hl3 & Ho3 & Hse3 & He3 & Hend3);
    [by eapply hub_sessions_inv|done|congruence|done|].
  unfold run_on in Hst. rewrite Hob, Hcn, Hrun in Hst. simpl in Hst. rewrite Hl', drop_app_length in *.
  set (sv3 := match fragments l with [] => _ | _ => _ end) in *.
  assert (Hsd : forall j, sent_data j [x] = if decide (j = id) then given_data [o] else [])
    by (intros j; apply (Hs j [])).
  eexists _, _. split; [exact Hst|]. eapply moves_inv; [done|done|].
  split; cbn [c_fd c_sock c_given c_arrived c_stream]; try done.
  - rewrite Ho3, Hob. apply lookup_insert_eq.
  - intros j Hj. rewrite Ho3. by rewrite lookup_insert_ne.
  - by rewrite given_data_app, Hsd, decide_True.
  - by rewrite Hda, app_nil_r.
  - intros j Hj. by rewrite Hsd, Hda, frames_of_map, !decide_False.
  - right. by eexists.
  - by rewrite Hl', fragments_app, frames_of_map, decide_True.
  - intros (o' & Hin & Ho'). simpl in Hin. rewrite Hl' in Hin. apply elem_of_app in Hin as [Hin|Hin].
    + left. by exists o'.
    + right. apply Hend3. by eapply endings_in.
Qed.

(** Bytes arrive at a socket. *)
Lemma arrives_inv xs h os id d :
  hub_inv xs h os -> (id < length (conns h))%nat -> hub_inv (xs ++ [Arrives id d]) (receive_on id d h) os.
Proof.
  intros Hi [c Hcn]%lookup_lt_is_Some_2.
  assert (Hst : step (Arrives id d) h = Ok (receive_on id d h, [])) by done.
  unfold receive_on in *. rewrite Hcn in *. rewrite <- (app_nil_r os). eapply moves_inv; [done|done|].
  split; cbn [c_fd c_sock c_given c_arrived c_stream]; try done.
  - destruct (objects (srv h) !! id) as [ch|] eqn:Hob; [|done]. simpl.
    destruct (hi_object _ _ _ Hi id ch Hob) as (c' & Hc' & <-). by simplify_eq.
  - by eapply conn_receives, hi_conn.
  - symmetry. apply app_nil_r.
  - unfold arrived. simpl. rewrite decide_True by done. simpl. by rewrite app_nil_r.
  - intros j Hj. unfold arrived. simpl. by rewrite decide_False.
  - by left.
  - by rewrite app_nil_r.
  - by left.
Qed.

Lemma run_on_inv xs x h os id o :
  hub_inv xs h os -> gives x id o h ->
  exists h' os', step x h = Ok (h', os') /\ hub_inv (xs ++ [x]) h' (os ++ os').
Proof.
  intros Hi Hg. destruct (objects (srv h) !! id) as [ch|] eqn:Hob.
  - destruct (hi_object _ _ _ Hi id ch Hob) as (c & Hcn & <-). by eapply run_on_alive.
  - exists h, []. rewrite app_nil_r. split; [|by eapply run_on_dead].
    destruct Hg as (-> & _). unfold run_on. by rewrite Hob.
Qed.

Lemma hub_step_inv xs x h os :
  hub_inv xs h os -> input_ok x h ->
  exists h' os', step x h = Ok (h', os') /\ hub_inv (xs ++ [x]) h' (os ++ os').
Proof.
  intros Hi Hok. destruct x as [id d|types answers err|id types| |id|id data|id].
  - eexists _, []. rewrite app_nil_r. split; [reflexivity|by apply arrives_inv].
  - destruct (accept_inv _ _ _ _ _ _ Hi Hok) as (h' & Hst & Hi'). exists h', []. by rewrite app_nil_r.
  - apply (run_on_inv _ _ _ _ id (Callback true types)); [done|]. split_and!; try done.
    intros j ys. rewrite sent_data_app. simpl. by case_decide.
  - eexists _, []. rewrite app_nil_r. split; [reflexivity|by apply erase_turn_inv].
  - eexists _, []. rewrite app_nil_r. split; [reflexivity|by apply last_reference_inv].
  - destruct Hok as [Hid Hlen]. apply (run_on_inv _ _ _ _ id (SendTask true data)); [done|].
    split_and!; try done. intros j ys. rewrite sent_data_app. f_equal. unfold sent_data. simpl.
    destruct (decide (id = j)), (decide (j = id)); congruence.
  - eexists _, []. rewrite app_nil_r. split; [reflexivity|by apply stop_session_inv].
Qed.

Lemma hub_run_inv xs ys h os :
  hub_inv xs h os -> admissible ys h ->
  exists h' os', run_all step ys h = Ok (h', os') /\ hub_inv (xs ++ ys) h' (os ++ os').
Proof.
  revert xs h os. induction ys as [|y ys IH]; intros xs h os Hi Hok.
  { exists h, []. by rewrite !app_nil_r. }
  destruct Hok as [Hy Hok]. destruct (hub_step_inv _ _ _ _ Hi Hy) as (h1 & os1 & Hst & Hi1).
  destruct (IH _ _ _ Hi1 (Hok _ _ Hst)) as (h' & os' & Hr & Hi').
  exists h', (os1 ++ os'). cbn [run_all]. rewrite Hst. cbn [mbind res_bind fst snd]. rewrite Hr.
  split; [done|]. by rewrite <- app_assoc, <- app_assoc in Hi'.
Qed.

(** C12: a server with all its sessions.  From the start, whatever connections come
    and go and whatever order callbacks, late ones included, send tasks, stops and
    the tasks they post run in, the server stays within defined behaviour and its
    table is sound ([admissible]: the kernel does not hand out descriptors in use,
    sessions are used by who has them, messages fit the address space); a session
    that ended leaves the table when the task of its [stop] runs; and each session
    is served as if it were alone.  If its own socket reports no system error and
    no event was dispatched to it after the end of its stream ([plain]; the other
    sessions may fare as they will), the frames passed to the user as its own are
    cut from what its peer sent, in order; while the peer is there, with the
    receive buffer and the unread bytes they are all of it, and the bytes the
    kernel accepted followed by those in the send buffer are the messages posted
    for that session, all of them as long as it lives. *)
Theorem sessions_streams_intact xs :
  admissible xs init ->
  exists h os, run_all step xs init = Ok (h, os) /\ sv_reachable loop listen_fd (srv h) /\
    forall id c, conns h !! id = Some c ->
      let s := c_stream c in
      (ended c -> id ∈ erasing (srv h) \/ forall d, sessions_ (srv h) !! d <> Some id) /\
      (plain c ->
       cut_from (peer_sent c) (frames_of id os) /\ concat (frames_of id os) `prefix_of` peer_sent c /\
       (peer_here c ->
        concat (frames_of id os) ++ SB.contents (recv_buf_ s) ++ unread (kern s) (c_fd c) = peer_sent c /\
        exists data, data `prefix_of` sent_data id xs /\
          (is_Some (objects (srv h) !! id) -> data = sent_data id xs) /\
          accepted (kern s) (c_fd c) ++ SB.contents (send_buf_ s) =
            accepted (c_sock c) (c_fd c) ++ concat data)).
Proof.
  intros Hok. destruct (hub_run_inv [] xs init [] hub0_inv Hok) as (h & os & Hr & Hi).
  exists h, os. split; [done|]. split; [by eapply hi_server|]. intros id c Hc.
  pose proof (hi_frames _ _ _ Hi id) as Hf. rewrite Hc in Hf. simpl in Hf. rewrite Hf.
  split; [by eapply hi_ended|]. intros Hplain.
  destruct (hi_conn _ _ _ Hi id c Hc) as [_ _ Hget _ Hstr].
  destruct (Hstr Hplain) as (Hcut & Hpart & Hhere). split_and!; [done|done|].
  intros (_ & Hsent & Hrecv)%Hhere.
  unfold sent_stream, received_stream in *. rewrite Hget in *. split; [done|].
  exists (given_data (c_given c)). by destruct (hi_given _ _ _ Hi id c Hc).
Qed.

End facts.

(** ** Admissible inputs, computed *)

Section check.
Context {K : Type} `{SK : StreamKernel K, SN : !StreamNet K} {L F U : Type} `{SH : StreamHandler U}.
Variables (loop : L) (cb : F) (u0 : U).
Implicit Types (h : hub K L F U) (xs : list (hub_input K)).

Definition input_okb (x : hub_input K) h : bool :=
  match x with
  | AcceptEvent types answers err => accept_okb cb (map answer_fd answers) (srv h)
  | Arrives id data => (id <? length (conns h))%nat
  | SendTo id data => (id <? length (conns h))%nat && (zlen data <? 2 ^ 63)
  | _ => true
  end.

Fixpoint admissibleb xs h : bool :=
  match xs with
  | [] => true
  | x :: xs' =>
      input_okb x h && match hub_step loop cb u0 x h with Ok r => admissibleb xs' r.1 | _ => true end
  end.

Lemma input_okb_ok x h : input_okb x h = true -> input_ok cb x h.
Proof.
  destruct x as [id d|types answers err|id types| |id|id data|id]; simpl; try done.
  - apply Nat.ltb_lt.
  - apply accept_okb_ok.
  - intros [Hid%Nat.ltb_lt Hd%Z.ltb_lt]%andb_true_iff. done.
Qed.

Lemma admissibleb_ok xs h : admissibleb xs h = true -> admissible loop cb u0 xs h.
Proof.
  revert h. induction xs as [|x xs IH]; intros h H; simpl in *; [done|].
  apply andb_true_iff in H as [Hx H]. split; [by apply input_okb_ok|].
  intros h' os Hst. rewrite Hst in H. by apply IH.
Qed.
End check.

(** ** Witness *)

(** Two peers: one sends five bytes and closes, one sends two pairs. *)
Definition demo_quiet (k : demo_sock) : Prop := 0 <= window k /\ pending_error k = 0.
Definition demo_quietb (k : demo_sock) : bool := (0 <=? window k) && (pending_error k =? 0).

#[export] Instance demo_quiet_kernel : CleanKernel demo_quiet.
Proof.
  split.
  - intros k fd d k' r (Hw & He) H. simpl in H. unfold demo_quiet.
    destruct d as [|x d]; [by simplify_eq|].
    destruct (Z.ltb_spec 0 (Z.min (window k) (zlen (x :: d)))); simplify_eq; simpl.
    + split_and!; try done. lia.
    + split_and!; try done. destruct (Z.ltb_spec (window k') 0); [lia|]. by intros e [= <-].
  - intros k fd cap k' r (Hw & He) H. simpl in H. unfold demo_quiet.
    repeat case_match; simplify_eq; simpl; split_and!; try done; intros e [= <-]; by left.
  - intros k fd k' e (Hw & He) [= <- <-]. unfold demo_quiet. simpl. auto.
Qed.

Lemma demo_quietb_ok k : demo_quietb k = true -> demo_quiet k.
Proof. intros [Hw%Z.leb_le He%Z.eqb_eq]%andb_true_iff. done. Qed.

Lemma demo_arrive_quiet d (k : demo_sock) fd : demo_quiet k -> demo_quiet (stream_arrive d k fd).
Proof. done. Qed.

Definition demo_hub_inputs : list (hub_input demo_sock) :=
  [AcceptEvent EventType.kRead
     [Ret (10, mk_sock [1; 2; 3; 4; 5] [] 3 true 0); Ret (11, mk_sock [6; 7; 8; 9] [] 9 false 0)] 0;
   StreamEvent 1 EventType.kRead; SendTo 0 [21; 22; 23; 24]; Arrives 1 [10; 11]; SendTo 1 [31];
     StreamEvent 0 EventType.kRead;
   EraseTurn; LastReference 0; SendTo 0 [25]; SendTo 1 [32];
   StreamEvent 1 EventType.kRead].

Abbreviation demo_hub_run :=
  (run_all (hub_step 5%nat 1%nat ([] : list (list byte))) demo_hub_inputs (hub0 5%nat 9 99%nat 2%nat)).

Lemma sessions_streams_intact_witness :
  exists h os, demo_hub_run = Ok (h, os) /\ sv_reachable 5%nat 9 (srv h) /\
    forall id c, conns h !! id = Some c ->
      let s := c_stream c in
      (ended c -> id ∈ erasing (srv h) \/ forall d, sessions_ (srv h) !! d <> Some id) /\
      (plain demo_quiet c ->
       cut_from (peer_sent c) (frames_of id os) /\ concat (frames_of id os) `prefix_of` peer_sent c /\
       (peer_here c ->
        concat (frames_of id os) ++ SB.contents (recv_buf_ s) ++ unread (kern s) (c_fd c) = peer_sent c /\
        exists data, data `prefix_of` sent_data id demo_hub_inputs /\
          (is_Some (objects (srv h) !! id) -> data = sent_data id demo_hub_inputs) /\
          accepted (kern s) (c_fd c) ++ SB.contents (send_buf_ s) =
            accepted (c_sock c) (c_fd c) ++ concat data)).
Proof.
  apply (sessions_streams_intact 5%nat 9 99%nat 2%nat 1%nat ([] : list (list byte)) demo_quiet).
  - done.
  - lia.
  - apply admissibleb_ok. vm_compute. reflexivity.
Defined.

(** The first session is gone with its last message; the second one answers. *)
Example demo_hub_ends :
  match demo_hub_run with
  | Ok (h, os) =>
      (frames_of 0 os, frames_of 1 os, map_to_list (sessions_ (srv h)), dom (objects (srv h)),
       map (fun c => (outbox (kern (c_stream c)), c_late c)) (conns h))
  | _ => ([], [], [], ∅, [])
  end = ([[1; 2]; [3; 4]], [[6; 7]; [8; 9]; [10; 11]], [(11, 1%nat)], {[1%nat]},
         [([21; 22; 23], false); ([31; 32], false)]).
Proof. vm_compute. reflexivity. Qed.
