(* ===== verification/StreamGrows.v ===== *)
(** * StreamGrows: what the kernel accepted stays accepted

    Whatever happens to a session or a client (a callback, a send task, an error,
    the end of its connection), the bytes its socket accepted before are a first
    part of those it accepted after, and those of a connection of a server, found
    by its identity, as well; and what it did is only added to.
     [EndToEnd] carries these bytes from one end of a
    connection to the other. *)

From S2P Require Import Prelude Events StreamBuffer LoopFd Channel InetAddr StreamIo StreamLoops.
From S2P Require Import StreamSession StreamClient StreamServer Sessions.

Section growth.
Context {K : Type} `{SK : StreamKernel K, SL : !StreamLaws K} {L F U : Type} `{SH : StreamHandler U}.
Implicit Types (s : stream K L F U).

Record keeps_accepted s s' : Prop := {
  ka_fd : fd_of s' = fd_of s;
  ka_more : accepted (kern s) (fd_of s) `prefix_of` accepted (kern s') (fd_of s);
  ka_trace : grows s s'
}.

Lemma accepted_same s s' :
  fd_of s' = fd_of s -> accepted (kern s') (fd_of s) = accepted (kern s) (fd_of s) -> grows s s' ->
  keeps_accepted s s'.
Proof. intros Hf Ha Hg. by split; [|rewrite Ha|]. Qed.

#[global] Instance keeps_accepted_preorder : PreOrder keeps_accepted.
Proof.
  split; [intros s; by split; [| |apply grows_refl]|].
  intros s1 s2 s3 [Hf Ha Hg] [Hf' Ha' Hg']. split; [congruence| |by eapply grows_trans].
  rewrite Hf in Ha'. by etrans.
Qed.

End growth.

(** [grown]: the trace only got longer; [accepted_stays]: nothing else happened. *)
Ltac grown :=
  first [by exists []; rewrite app_nil_r | by eexists
        | by eexists; simpl; rewrite <- ?app_assoc; reflexivity].
Ltac accepted_stays := by apply accepted_same; [..|grown].

Section streams.
Context {K : Type} `{SK : StreamKernel K, SL : !StreamLaws K} {L F U : Type} `{SH : StreamHandler U}.
Implicit Types (s : stream K L F U).

Lemma stream_recv_accepted k fd b k' b' st :
  stream_recv k fd b = Ok (k', b', st) -> accepted k' fd = accepted k fd.
Proof.
  unfold stream_recv. destruct (sock_readv _ _ _) as [k1 [d|e]] eqn:E.
  - apply readv_ret in E as (_ & _ & <-). destruct d; intros H; inv_res; by simplify_eq.
  - apply readv_err in E as [<- _]. intros; by simplify_eq.
Qed.

Lemma stream_send_accepted k fd b k' b' st :
  stream_send k fd b = Ok (k', b', st) -> accepted k fd `prefix_of` accepted k' fd.
Proof.
  unfold stream_send. destruct (sock_send _ _ _) as [k1 [n|e]] eqn:E.
  - apply send_ret in E as (_ & _ & Ha & _). intros H. inv_res. simplify_eq. rewrite Ha. by eexists.
  - apply send_err in E as [<- _]. intros; by simplify_eq.
Qed.

Lemma want_write_accepted s : keeps_accepted s (want_write s).
Proof.
  destruct (want_write_facts s) as (Hk & _ & _ & _ & Hf & _ & [ps Ht] & _).
  apply accepted_same; [done|by rewrite Hk|by eexists].
Qed.

Lemma drop_write_accepted s : keeps_accepted s (drop_write s).
Proof.
  destruct (drop_write_facts s) as (Hk & _ & _ & _ & Hf & _ & [ps Ht] & _).
  apply accepted_same; [done|by rewrite Hk|by eexists].
Qed.

Lemma read_loop_accepted fuel s s' d : read_loop fuel s = Ok (s', d) -> keeps_accepted s s'.
Proof.
  revert s. induction fuel as [|fuel IH]; intros s H; [done|]. simpl in H. inv_res.
  destruct a as [[k b] st]. apply stream_recv_accepted in Hm.
  assert (H1 : keeps_accepted s (with_recv k b s)) by accepted_stays.
  destruct st; simplify_eq; try done.
  - etrans; [exact H1|by apply IH].
  - etrans; [exact H1|accepted_stays].
Qed.

Lemma write_loop_accepted fuel s s' d : write_loop fuel s = Ok (s', d) -> keeps_accepted s s'.
Proof.
  revert s. induction fuel as [|fuel IH]; intros s H; [done|]. simpl in H. inv_res.
  destruct a as [[k b] st]. apply stream_send_accepted in Hm.
  assert (H1 : keeps_accepted s (with_send k b s)) by (by split; [| |grown]).
  destruct st; [destruct (SB.empty b)| | |]; simplify_eq; try done.
  - etrans; [exact H1|apply drop_write_accepted].
  - etrans; [exact H1|by apply IH].
  - etrans; [exact H1|accepted_stays].
Qed.

Lemma frame_loop_accepted fuel s s' : frame_loop fuel s = Ok s' -> keeps_accepted s s'.
Proof.
  revert s. induction fuel as [|fuel IH]; intros s H; [done|]. simpl in H.
  destruct (on_split _ _) as [u n]. destruct (n <=? 0); [injection H as <-; accepted_stays|].
  inv_res. etrans; [|by eapply IH]. accepted_stays.
Qed.

Lemma send_now_accepted data s s' : send_now data s = Ok s' -> keeps_accepted s s'.
Proof.
  unfold send_now. destruct (stream_send_data _ _ _) as [k [ret st]] eqn:E.
  assert (H1 : forall b, keeps_accepted s (with_send k b s)).
  { intros b. split; [done| |grown]. unfold stream_send_data in E. simpl.
    destruct (sock_send _ _ _) as [k1 [n|e]] eqn:Es; simplify_eq.
    - apply send_ret in Es as (_ & _ & -> & _). by eexists.
    - by apply send_err in Es as [-> _]. }
  assert (H2 : forall b, keeps_accepted s (want_write (with_send k b s)))
    by (intros b; etrans; [apply (H1 b)|apply want_write_accepted]).
  destruct st; [destruct (_ =? _)| | |]; intros H; inv_res; simplify_eq; first [exact (H1 _)|exact (H2 _)].
Qed.

Lemma queue_send_accepted data s s' : queue_send data s = Ok s' -> keeps_accepted s s'.
Proof. unfold queue_send. intros H. inv_res. accepted_stays. Qed.

Lemma read_part_accepted types s s' d : read_part types s = Ok (s', d) -> keeps_accepted s s'.
Proof. unfold read_part. destruct (has types _); [apply read_loop_accepted|by intros [= <- <-]]. Qed.

Lemma write_part_accepted types s s' d : write_part types s = Ok (s', d) -> keeps_accepted s s'.
Proof. unfold write_part. destruct (has types _); [apply write_loop_accepted|by intros [= <- <-]]. Qed.

Lemma session_op_accepted o s s' : run_session_op o s = Ok s' -> keeps_accepted s s'.
Proof.
  destruct o as [[] data|[] types]; simpl; try by intros [= <-].
  - unfold session_send. cbn [negb]. destruct (negb _); [apply queue_send_accepted|apply send_now_accepted].
  - unfold session_cb. cbn [negb]. intros H. inv_res. destruct a as [s1 d1], a0 as [s2 d2].
    cbn [fst snd] in *. apply read_part_accepted in Hm. apply write_part_accepted in Hm0.
    destruct (session_error types s2) as [s3 d3] eqn:E. apply frame_loop_accepted in Hm1. cbn [fst] in *.
    assert (H3 : keeps_accepted s2 s3).
    { unfold session_error in E. destruct (has types _); [|by injection E as <- _].
      destruct (so_error _ _) as [k err] eqn:Ee. apply so_error_views in Ee as [Ha _].
      repeat case_match; injection E as <- _; accepted_stays. }
    etrans; [exact Hm|]. etrans; [exact Hm0|]. etrans; [exact H3|].
    destruct (d1 || d2 || _); simplify_eq; [etrans; [exact Hm1|]; accepted_stays|done].
Qed.
End streams.

(** ** Clients *)

Section client.
Context {K : Type} `{SK : StreamKernel K, SL : !StreamLaws K} `{CK : ConnectKernel K, CL : !ConnectLaws K}
  {L U : Type} `{SH : StreamHandler U}.
Variable (life : nat).
Implicit Types (c : client K L U).

(** Neither callback is registered. *)
Definition no_error_cb (err : Z) c : client K L U := c.
Definition no_disconnect_cb c : client K L U := c.

Abbreviation client_keeps c c' := (keeps_accepted (st c) (st c')).

Lemma started_accepted c : client_keeps c (start life c).
Proof.
  destruct (start_quiet life c) as (ps & _ & _ & Hf & Hk & Ht).
  apply accepted_same; [done|by rewrite Hk|by eexists].
Qed.

Lemma awaited_accepted timeout_ms c : client_keeps c (await_connection life timeout_ms c).
Proof.
  destruct (await_quiet life timeout_ms c) as (ps & _ & _ & Hf & Hk & Ht).
  apply accepted_same; [done|by rewrite Hk|by eexists].
Qed.

Lemma connect_accepted addr timeout_ms c : client_keeps c (connect life no_error_cb addr timeout_ms c).
Proof.
  unfold connect. destruct (connected_ c); [|done..]. destruct (sys_connect _ _ _ _) as [k r] eqn:E.
  destruct (connect_views _ _ _ _ _ _ (fd_of (st c)) E) as [Ha _].
  set (c2 := set_kern k _). assert (H2 : client_keeps c c2) by accepted_stays.
  destruct r as [e|]; [destruct (e =? EINPROGRESS)|].
  - etrans; [exact H2|apply awaited_accepted].
  - accepted_stays.
  - etrans; [exact H2|apply (started_accepted (set_connected Connected c2))].
Qed.

Lemma socket_cb_accepted types c : client_keeps c (socket_cb life no_error_cb types c).
Proof.
  unfold socket_cb. destruct (has types _); [|done]. destruct (so_error _ _) as [k err] eqn:E.
  apply so_error_views in E as [Ha _]. destruct (err =? 0); [|accepted_stays].
  set (c2 := disable_timer _). assert (H2 : client_keeps c c2) by accepted_stays.
  etrans; [exact H2|apply started_accepted].
Qed.

Lemma client_error_accepted types c : client_keeps c (client_error no_error_cb types c).1.
Proof.
  unfold client_error. destruct (has types _); [|done]. destruct (so_error _ _) as [k err] eqn:E.
  apply so_error_views in E as [Ha _]. repeat case_match; accepted_stays.
Qed.

Lemma client_cb_accepted types c c' :
  client_cb no_error_cb no_disconnect_cb types c = Ok c' -> client_keeps c c'.
Proof.
  unfold client_cb. intros H. inv_res. destruct a as [s1 d1], a0 as [s2 d2]. cbn [fst snd] in *.
  apply read_part_accepted in Hm. apply write_part_accepted in Hm0.
  pose proof (client_error_accepted types (set_st s2 c)) as H3.
  destruct (client_error _ _ _) as [c3 d3]. inv_res. apply frame_loop_accepted in Hm1. cbn [fst] in *.
  etrans; [exact Hm|]. etrans; [exact Hm0|]. etrans; [exact H3|].
  destruct (d1 || d2 || d3); simplify_eq; [etrans; [exact Hm1|]; accepted_stays|done].
Qed.

Lemma client_op_accepted o c c' :
  run_client_op life no_error_cb no_disconnect_cb o c = Ok c' -> client_keeps c c'.
Proof.
  destruct o as [addr ms|d| | |types| |types]; simpl.
  - intros [= <-]. apply connect_accepted.
  - unfold client_send. intros H. inv_res.
    destruct (negb _ || _); [by eapply queue_send_accepted|by eapply send_now_accepted].
  - intros [= <-]. apply started_accepted.
  - intros [= <-]. accepted_stays.
  - intros [= <-]. apply socket_cb_accepted.
  - intros [= <-]. unfold timer_cb. case_decide; accepted_stays.
  - apply client_cb_accepted.
Qed.
End client.

(** ** Connections of a server *)

Section hub.
Context {K : Type} `{SK : StreamKernel K, SL : !StreamLaws K, SN : !StreamNet K, SNL : !StreamNetLaws K}
  {L F U : Type} `{SH : StreamHandler U}.
Variables (loop : L) (cb : F) (u0 : U).
Implicit Types (c : connection K L F U) (h : hub K L F U).

Record same_peer c c' : Prop := {
  sp_fd : c_fd c' = c_fd c;
  sp_sock : c_sock c' = c_sock c;
  sp_more : accepted (kern (c_stream c)) (fd_of (c_stream c)) `prefix_of`
    accepted (kern (c_stream c')) (fd_of (c_stream c));
  sp_trace : grows (c_stream c) (c_stream c');
  sp_late : c_late c' = false -> c_late c = false
}.

Lemma same_peer_refl c : same_peer c c.
Proof. by split; [| | |apply grows_refl|]. Qed.

Lemma insert_peer h id c0 c0' j c :
  conns h !! id = Some c0 -> same_peer c0 c0' -> conns h !! j = Some c ->
  exists c', <[id := c0']> (conns h) !! j = Some c' /\ same_peer c c'.
Proof.
  intros Hid Hs Hj. pose proof (lookup_lt_Some _ _ _ Hid). destruct (decide (j = id)) as [->|Hne].
  - exists c0'. rewrite list_lookup_insert_eq by done. split; [done|]. by simplify_eq.
  - exists c. rewrite list_lookup_insert_ne by done. split; [done|apply same_peer_refl].
Qed.

Lemma run_on_peer id o h h' os j c :
  run_on id o h = Ok (h', os) -> conns h !! j = Some c ->
  exists c', conns h' !! j = Some c' /\ same_peer c c'.
Proof.
  unfold run_on. intros H Hj.
  destruct (objects (srv h) !! id) as [ch|], (conns h !! id) as [c0|] eqn:Hid;
    try (simplify_eq; exists c; split; [done|apply same_peer_refl]).
  inv_res. apply session_op_accepted in Hm as [_ Ha Hg]. simpl.
  eapply insert_peer; [done| |done]. split; try done. by intros [H _]%orb_false_iff.
Qed.

(** A connection of a server stays one, with the same socket. *)
Lemma hub_step_peer x h h' os j c :
  hub_step loop cb u0 x h = Ok (h', os) -> conns h !! j = Some c ->
  exists c', conns h' !! j = Some c' /\ same_peer c c'.
Proof.
  assert (Hsrv : forall sv, conns h !! j = Some c -> exists c', conns (with_srv sv h) !! j = Some c' /\
    same_peer c c') by (intros sv Hj; exists c; split; [done|apply same_peer_refl]).
  intros H Hj. destruct x as [id d|types answers err|id types| |id|id data|id]; simpl in H;
    try (by eapply run_on_peer); try (injection H as <- _; by apply Hsrv).
  - injection H as <- _. unfold receive_on. destruct (conns h !! id) as [c0|] eqn:Hid.
    + simpl. eapply insert_peer; [done| |done]. split; [done|done| |grown|done]. simpl.
      by rewrite arrive_accepted.
    + exists c. split; [done|apply same_peer_refl].
  - inv_res. exists c. split; [|apply same_peer_refl]. simpl.
    by apply lookup_app_l_Some.
Qed.
End hub.
