(* ===== verification/Timer.v ===== *)
(** * Timer: delayed and periodic tasks

    Models [src/timer/timer.cpp] and [include/kzevent/timer/timer.hpp].  The
    heap is any [TimerQueue]: what [std::priority_queue] with [std::greater]
    promises, the earliest element on top, in no particular order among equals.
    Times are nanoseconds of the steady clock in an [int64_t]; [clock n] is its
    [n]-th reading, and the state counts the readings.  [wake_] is the absolute
    expiry the timerfd is armed with, [fired_] what was posted to the heavy
    executor. *)

From Stdlib Require Import Sorted.
From S2P Require Import Prelude Events LoopFd Channel.

Section unit.
Context {F : Type}.

Record timer_unit := mk_unit {
  cb_ : F;
  owner_ : nat;
  time_stamp_ : Z;
  repeat_interval_ : Z;
  timer_id_ : Z
}.

(** [TimerUnit::operator<] and [operator>] *)
Definition unit_lt (a b : timer_unit) : bool := time_stamp_ a <? time_stamp_ b.
Definition unit_gt (a b : timer_unit) : bool := time_stamp_ b <? time_stamp_ a.
End unit.
Arguments timer_unit : clear implicits.

Class TimerQueue (F Q : Type) := {
  q_empty : Q;
  q_push : timer_unit F -> Q -> Q;
  q_top : Q -> option (timer_unit F);
  q_pop : Q -> Q;
  q_elems : Q -> list (timer_unit F)
}.

Class TimerQueueLaws (F Q : Type) `{TimerQueue F Q} := {
  q_empty_elems : q_elems q_empty = [];
  q_push_elems u q : q_elems (q_push u q) ≡ₚ u :: q_elems q;
  q_top_none q : q_top q = None -> q_elems q = [];
  q_top_least q u v : q_top q = Some u -> v ∈ q_elems q -> unit_gt u v = false;
  q_pop_elems q u : q_top q = Some u -> u :: q_elems (q_pop q) ≡ₚ q_elems q
}.

(** [id = ++timer_id_start_], skipping 0 when the counter wraps. *)
Definition next_id (n : Z) : Z :=
  let id := u64 (n + 1) in if id =? 0 then u64 (id + 1) else id.

(** [std::chrono::milliseconds(timeout_ms)] as nanoseconds: the conversion to
    [int64_t], then a product that must not overflow. *)
Definition ms_to_ns (timeout_ms : Z) : res Z :=
  let ns := i64 timeout_ms * 1000000 in
  if decide (in_i64 ns) then Ok ns else Undef.

Definition add_ns (a b : Z) : res Z := if decide (in_i64 (a + b)) then Ok (a + b) else Undef.

(** The [it_value] of [set_next_wake_time]: [duration_cast] truncates. *)
Definition wake_value (time now : Z) : Z * Z :=
  let timeout_ms := Z.quot (time - now) 1000000 in
  if timeout_ms <=? 0 then (0, 1) else (timeout_ms / 1000, timeout_ms mod 1000 * 1000000).

Section timer.
Context {F Q : Type} `{TQ : TimerQueue F Q}.
Variable (clock : nat -> Z).

Record timer := mk_timer {
  timer_queue_ : Q;
  timer_id_start_ : Z;
  delete_timer_ids_ : gset Z;
  wake_ : option Z;
  reads_ : nat;
  fired_ : list (timer_unit F)
}.

Definition set_queue (q : Q) (s : timer) : timer :=
  mk_timer q (timer_id_start_ s) (delete_timer_ids_ s) (wake_ s) (reads_ s) (fired_ s).
Definition set_deleted (d : gset Z) (s : timer) : timer :=
  mk_timer (timer_queue_ s) (timer_id_start_ s) d (wake_ s) (reads_ s) (fired_ s).
Definition set_wake (w : option Z) (s : timer) : timer :=
  mk_timer (timer_queue_ s) (timer_id_start_ s) (delete_timer_ids_ s) w (reads_ s) (fired_ s).
Definition set_id (n : Z) (s : timer) : timer :=
  mk_timer (timer_queue_ s) n (delete_timer_ids_ s) (wake_ s) (reads_ s) (fired_ s).
Definition post_fired (u : timer_unit F) (s : timer) : timer :=
  mk_timer (timer_queue_ s) (timer_id_start_ s) (delete_timer_ids_ s) (wake_ s) (reads_ s)
    (fired_ s ++ [u]).

(** [steady_clock::now()] *)
Definition now_of (s : timer) : Z * timer :=
  (clock (reads_ s),
   mk_timer (timer_queue_ s) (timer_id_start_ s) (delete_timer_ids_ s) (wake_ s) (S (reads_ s)) (fired_ s)).

Definition timer_ctor : timer := mk_timer q_empty 0 ∅ None 0 [].

(** [timerfd_settime] is taken to succeed: its errors are an [it_value] out of
    range, which [wake_value_ok] excludes, and a bad descriptor or pointer. *)
Definition set_next_wake_time (time : Z) (s : timer) : timer :=
  let '(now, s1) := now_of s in
  let '(sec, nsec) := wake_value time now in
  set_wake (Some (now + (sec * 1000000000 + nsec))) s1.

(** The task both [post_once_task] and [post_repeat_task] post, with the
    interval of the unit they push. *)
Definition push_unit (u : timer_unit F) (s : timer) : timer :=
  let s1 := set_queue (q_push u (timer_queue_ s)) s in
  match q_top (timer_queue_ s1) with
  | Some t => if time_stamp_ t =? time_stamp_ u then set_next_wake_time (time_stamp_ t) s1 else s1
  | None => s1
  end.

Definition once_task (cb : F) (owner : nat) (timeout_ms id : Z) (s : timer) : res timer :=
  let '(now, s1) := now_of s in
  d ← ms_to_ns timeout_ms;
  new_time_stamp ← add_ns now d;
  Ok (push_unit (mk_unit cb owner new_time_stamp 0 id) s1).

Definition repeat_task (cb : F) (owner : nat) (timeout_ms id : Z) (s : timer) : res timer :=
  repeat_interval ← ms_to_ns timeout_ms;
  let '(now, s1) := now_of s in
  new_time_stamp ← add_ns now repeat_interval;
  Ok (push_unit (mk_unit cb owner new_time_stamp repeat_interval id) s1).

Definition cancel (timer_id : Z) (s : timer) : timer :=
  set_deleted ({[timer_id]} ∪ delete_timer_ids_ s) s.

(** The loop of the timer callback, from the reading [now] of its entry. *)
Fixpoint fire_loop (fuel : nat) (now : Z) (s : timer) : res timer :=
  match fuel with
  | O => Undef
  | S fuel' =>
      match q_top (timer_queue_ s) with
      | None => Ok s
      | Some u =>
          if now <? time_stamp_ u then Ok (set_next_wake_time (time_stamp_ u) s)
          else if decide (timer_id_ u ∈ delete_timer_ids_ s) then
            fire_loop fuel' now
              (set_queue (q_pop (timer_queue_ s))
                 (set_deleted (delete_timer_ids_ s ∖ {[timer_id_ u]}) s))
          else
            let s1 := set_queue (q_pop (timer_queue_ s)) s in
            s2 ← (if repeat_interval_ u =? 0 then Ok s1
                  else
                    let '(now', s1') := now_of s1 in
                    new_time_stamp ← add_ns now' (repeat_interval_ u);
                    Ok (set_queue (q_push (mk_unit (cb_ u) (owner_ u) new_time_stamp
                                             (repeat_interval_ u) (timer_id_ u))
                                     (timer_queue_ s1')) s1'));
            fire_loop fuel' now (post_fired u s2)
      end
  end.

(** The callback of the timerfd; its expiry disarms it.  The fuel, one round
    more than the queue holds, is proved to be enough. *)
Definition timer_cb (s : timer) : res timer :=
  let s0 := set_wake None s in
  match q_top (timer_queue_ s0) with
  | None => Ok s0
  | Some _ =>
      let '(now, s1) := now_of s0 in
      fire_loop (S (length (q_elems (timer_queue_ s1)))) now s1
  end.

(** The calls of a user, as their tasks run on the loop, and the expiries. *)
Inductive timer_op :=
| TOnce (cb : F) (owner : nat) (timeout_ms : Z)
| TRepeat (cb : F) (owner : nat) (timeout_ms : Z)
| TCancel (id : Z)
| TExpire.

Definition run_timer_op (o : timer_op) (s : timer) : res timer :=
  match o with
  | TOnce cb owner timeout_ms =>
      let id := next_id (timer_id_start_ s) in once_task cb owner timeout_ms id (set_id id s)
  | TRepeat cb owner timeout_ms =>
      let id := next_id (timer_id_start_ s) in repeat_task cb owner timeout_ms id (set_id id s)
  | TCancel id => Ok (cancel id s)
  | TExpire => timer_cb s
  end.

Fixpoint run_timer_ops (os : list timer_op) (s : timer) : res timer :=
  match os with
  | [] => Ok s
  | o :: os' => s1 ← run_timer_op o s; run_timer_ops os' s1
  end.
End timer.
Arguments timer : clear implicits.
(** ** The object: queue, channel and flag *)

Section object.
Context {L G T : Type}.

(** [tasks_] are the queue and tables above, [timer_posts] what the timer gave
    its loop. *)
Record timer_object := mk_timer_object {
  tasks_ : T;
  timer_channel_ : channel L;
  started_ : bool;
  timer_posts : list (post L G)
}.

(** [Timer::start()], with the expiry callback [cb]. *)
Definition start (life : nat) (cb : G) (s : timer_object) : timer_object :=
  if started_ s then s
  else
    let '(c, ps) := update_event_cb life EventType.kRead EventMode.kDefault cb (timer_channel_ s) in
    mk_timer_object (tasks_ s) c true (timer_posts s ++ ps).

(** [Timer::stop()], which the destructor calls. *)
Definition stop (s : timer_object) : timer_object :=
  mk_timer_object (tasks_ s) (timer_channel_ s) false (timer_posts s ++ disable_event (timer_channel_ s)).

(** [post_io_task(weak_from_this(), task)], by which the three public methods
    reach the loop. *)
Definition post_task (life : nat) (task : G) (s : timer_object) : timer_object :=
  mk_timer_object (tasks_ s) (timer_channel_ s) (started_ s)
    (timer_posts s ++ post_io_task life task (timer_channel_ s)).
End object.
Arguments timer_object : clear implicits.

Arguments timer_op : clear implicits.

(** ** Identifiers and wake times *)

(** The identifiers a timer hands out: the [k]-th is [1 + (k - 1) mod (2^64 - 1)],
    so 0 is never handed out, and no identifier comes back before all the
    others have been. *)
Theorem timer_ids_cycle k :
  Nat.iter (S k) next_id 0 = 1 + Z.of_nat k mod (2 ^ 64 - 1).
Proof.
  induction k as [|k IH]; [reflexivity|].
  change (Nat.iter (S (S k)) next_id 0) with (next_id (Nat.iter (S k) next_id 0)).
  rewrite IH. clear IH. set (m := 2 ^ 64 - 1) in *.
  assert (Hm : 0 < m) by (unfold m; lia).
  pose proof (Z.mod_pos_bound (Z.of_nat k) m Hm) as Hb.
  assert (Hs : Z.of_nat (S k) mod m =
    if decide (Z.of_nat k mod m = m - 1) then 0 else Z.of_nat k mod m + 1).
  { replace (Z.of_nat (S k)) with (Z.of_nat k + 1) by lia.
    rewrite Z.add_mod, (Z.mod_small 1) by (unfold m; lia).
    case_decide as Hd; [rewrite Hd; replace (m - 1 + 1) with (1 * m) by lia; apply Z.mod_mul; lia|].
    apply Z.mod_small. lia. }
  rewrite Hs. unfold next_id, u64, wrap. unfold m in *. case_decide as Hd.
  - rewrite Hd. reflexivity.
  - rewrite (Z.mod_small (1 + _ + 1)) by lia.
    destruct (Z.eqb_spec (1 + Z.of_nat k mod (2 ^ 64 - 1) + 1) 0); lia.
Qed.

(** The value given to [timerfd_settime] is always valid (non-negative
    seconds, nanoseconds below a second) and never zero, which would disarm the
    timer; it wakes no later than the due time (or a nanosecond from now, when
    that has passed), and less than a millisecond before it. *)
Lemma wake_value_ok time now sec nsec :
  wake_value time now = (sec, nsec) ->
  0 <= sec /\ 0 <= nsec < 1000000000 /\ 0 < sec * 1000000000 + nsec /\
  now + (sec * 1000000000 + nsec) <= Z.max time (now + 1) /\
  time - 1000000 < now + (sec * 1000000000 + nsec).
Proof.
  unfold wake_value. intros H.
  destruct (Z.leb_spec (Z.quot (time - now) 1000000) 0) as [Hle|Hgt]; injection H as <- <-;
    dlia.
Qed.

(** ** The expiry loop *)

Lemma filter_ext_in {A} (P R : A -> Prop) `{!forall x, Decision (P x), !forall x, Decision (R x)}
    (l : list A) :
  (forall x, x ∈ l -> P x <-> R x) -> filter P l = filter R l.
Proof.
  induction l as [|x l IH]; intros Hl; [done|]. rewrite !filter_cons.
  rewrite IH by (intros; apply Hl; by constructor).
  assert (Hx : P x <-> R x) by (apply Hl; constructor).
  destruct (decide (P x)), (decide (R x)); tauto.
Qed.

Lemma filter_none {A} (P : A -> Prop) `{!forall x, Decision (P x)} (l : list A) :
  (forall x, x ∈ l -> ~ P x) -> filter P l = [].
Proof.
  intros Hl. induction l as [|x l IH]; [done|].
  rewrite filter_cons_False by (apply Hl; constructor).
  apply IH. intros y Hy. apply Hl. by constructor.
Qed.

Lemma filter_all {A} (P : A -> Prop) `{!forall x, Decision (P x)} (l : list A) :
  (forall x, x ∈ l -> P x) -> filter P l = l.
Proof.
  intros Hl. induction l as [|x l IH]; [done|].
  rewrite filter_cons_True by (apply Hl; constructor). f_equal.
  apply IH. intros y Hy. apply Hl. by constructor.
Qed.

Section facts.
Context {F Q : Type} `{TQ : TimerQueue F Q, TL : !TimerQueueLaws F Q}.
Context (clock : nat -> Z).
Hypothesis clock_mono : forall i j, (i <= j)%nat -> clock i <= clock j.
Hypothesis clock_range : forall i, 0 <= clock i < 2 ^ 62.
Implicit Types (s : timer F Q) (u v : timer_unit F) (q : Q).

Definition elems s : list (timer_unit F) := q_elems (timer_queue_ s).

(** Intervals small enough for the sums of the loop to stay in [int64_t]. *)
Definition unit_ok u : Prop := 0 <= repeat_interval_ u < 2 ^ 61.

Definition due (now : Z) u : Prop := time_stamp_ u <= now.
Definition live (deleted : gset Z) u : Prop := timer_id_ u ∉ deleted.
#[export] Instance due_dec now u : Decision (due now u).
Proof. unfold due. apply _. Defined.
#[export] Instance live_dec d u : Decision (live d u).
Proof. unfold live. apply _. Defined.

Definition periodic u : Prop := repeat_interval_ u <> 0.

Definition ids (l : list (timer_unit F)) : list Z := map timer_id_ l.

(** The timer is armed for the unit on top of its queue: no later than its due
    time, or than a nanosecond after the last reading of the clock. *)
Definition armed s : Prop :=
  match q_top (timer_queue_ s) with
  | None => True
  | Some u => exists w, wake_ s = Some w /\
      (w <= time_stamp_ u \/ w <= clock (pred (reads_ s)) + 1)
  end.

Lemma set_next_wake_time_armed s u :
  q_top (timer_queue_ s) = Some u -> armed (set_next_wake_time clock (time_stamp_ u) s).
Proof.
  intros Hu. unfold armed, set_next_wake_time, now_of.
  destruct (wake_value (time_stamp_ u) (clock (reads_ s))) as [sec nsec] eqn:E.
  destruct (wake_value_ok _ _ _ _ E) as (_ & _ & _ & Hle & _).
  simpl. rewrite Hu. eexists. split; [done|]. simpl. lia.
Qed.

Lemma set_next_wake_time_same time s :
  timer_queue_ (set_next_wake_time clock time s) = timer_queue_ s /\
  fired_ (set_next_wake_time clock time s) = fired_ s /\
  delete_timer_ids_ (set_next_wake_time clock time s) = delete_timer_ids_ s /\
  timer_id_start_ (set_next_wake_time clock time s) = timer_id_start_ s /\
  (reads_ s <= reads_ (set_next_wake_time clock time s))%nat.
Proof.
  unfold set_next_wake_time, now_of. destruct (wake_value _ _) as [sec nsec]. simpl.
  split_and!; done || lia.
Qed.

(** The top of the queue is due exactly when something is. *)
Lemma top_not_due now s u :
  q_top (timer_queue_ s) = Some u -> now < time_stamp_ u -> filter (due now) (elems s) = [].
Proof.
  intros Hu Hlt. apply filter_none. intros v Hv Hd.
  pose proof (q_top_least _ _ _ Hu Hv) as Hg. unfold unit_gt, due in *.
  apply Z.ltb_ge in Hg. lia.
Qed.

(** [v] is [u] queued again, an interval later at least. *)
Definition again_of u v : Prop :=
  repeat_interval_ u <> 0 /\
  v = mk_unit (cb_ u) (owner_ u) (time_stamp_ v) (repeat_interval_ u) (timer_id_ u) /\
  time_stamp_ u + repeat_interval_ u <= time_stamp_ v.

(** What the loop guarantees, from the units [l] it starts with. *)
Record fire_spec (now : Z) (deleted : gset Z) (l : list (timer_unit F)) (s s' : timer F Q)
    (fs rp : list (timer_unit F)) : Prop := {
  fs_fired : fired_ s' = fired_ s ++ fs;
  fs_due : fs ≡ₚ filter (fun u => due now u /\ live deleted u) l;
  fs_sorted : StronglySorted (fun u v => time_stamp_ u <= time_stamp_ v) fs;
  fs_rest : elems s' ≡ₚ filter (fun u => ~ due now u) l ++ rp;
  fs_again : ids rp = ids (filter periodic fs);
  fs_later : Forall (fun v => now < time_stamp_ v /\ exists u, u ∈ fs /\ again_of u v) rp;
  fs_armed : armed s';
  fs_ids : timer_id_start_ s' = timer_id_start_ s;
  fs_deleted : forall i, i ∈ delete_timer_ids_ s' <->
    i ∈ delete_timer_ids_ s /\ ~ (exists u, u ∈ l /\ timer_id_ u = i /\ due now u)
}.

Lemma fire_spec_nothing now s s' :
  filter (due now) (elems s) = [] -> timer_queue_ s' = timer_queue_ s -> fired_ s' = fired_ s ->
  delete_timer_ids_ s' = delete_timer_ids_ s -> timer_id_start_ s' = timer_id_start_ s ->
  armed s' -> fire_spec now (delete_timer_ids_ s) (elems s) s s' [] [].
Proof.
  intros Hnone Hq Hf Hd Hid Ha.
  assert (Hnot : forall u, u ∈ elems s -> ~ due now u).
  { intros u Hu Hdue. by apply (filter_nil_not_elem_of (due now)) in Hu. }
  split; try done.
  - by rewrite Hf, app_nil_r.
  - rewrite (filter_none (fun u => due now u /\ _)); [done|]. intros u Hu [Hdue _]. by eapply Hnot.
  - constructor.
  - rewrite app_nil_r. unfold elems at 1. rewrite Hq.
    by rewrite filter_all.
  - intros i. rewrite Hd. split; [|by intros []]. intros Hi. split; [done|].
    intros (u & Hu & _ & Hdue). by eapply Hnot.
Qed.

(** One round, seen from the units left after taking [u] off the queue. *)
Lemma fire_spec_skip now s s1 s' u l fs rp :
  u :: elems s1 ≡ₚ l -> NoDup (ids l) -> due now u -> timer_id_ u ∈ delete_timer_ids_ s ->
  delete_timer_ids_ s1 = delete_timer_ids_ s ∖ {[timer_id_ u]} ->
  fired_ s1 = fired_ s -> timer_id_start_ s1 = timer_id_start_ s ->
  fire_spec now (delete_timer_ids_ s1) (elems s1) s1 s' fs rp ->
  fire_spec now (delete_timer_ids_ s) l s s' fs rp.
Proof.
  intros Hl Hnd Hdue Hin Hd1 Hf1 Hi1 [].
  assert (Hne : forall v, v ∈ elems s1 -> timer_id_ v <> timer_id_ u).
  { intros v Hv Heq. assert (Hnd' : NoDup (ids (u :: elems s1))).
    { by rewrite <- (Permutation_map timer_id_ Hl) in Hnd. }
    simpl in Hnd'. apply NoDup_cons in Hnd' as [Hnin _]. apply Hnin. rewrite <- Heq.
    by apply list_elem_of_fmap_2. }
  split; try done.
  - congruence.
  - rewrite fs_due0. rewrite <- Hl. rewrite filter_cons_False by (intros [_ H]; by apply H).
    erewrite filter_ext_in; [done|]. intros v Hv. simpl. unfold live. rewrite Hd1.
    specialize (Hne v Hv). set_solver.
  - rewrite fs_rest0. rewrite <- Hl. rewrite filter_cons_False by (by intros H). done.
  - congruence.
  - intros i. rewrite fs_deleted0, Hd1. setoid_rewrite <- Hl.
    rewrite elem_of_difference, elem_of_singleton. split.
    + intros [[Hi Hneq] Hno]. split; [done|]. intros (v & Hv & Hvi & Hvd).
      apply elem_of_cons in Hv as [->|Hv]; [done|]. apply Hno. by exists v.
    + intros [Hi Hno]. split; [split; [done|]|].
      * intros ->. apply Hno. exists u. split; [constructor|done].
      * intros (v & Hv & ?). apply Hno. exists v. split; [by constructor|done].
Qed.

Lemma fire_spec_fire now s s2 s' u rest again l fs rp :
  u :: rest ≡ₚ l -> NoDup (ids l) -> due now u -> timer_id_ u ∉ delete_timer_ids_ s ->
  (forall v, v ∈ l -> time_stamp_ u <= time_stamp_ v) ->
  elems s2 ≡ₚ again ++ rest ->
  ids again = ids (filter periodic [u]) ->
  Forall (fun v => now < time_stamp_ v /\ again_of u v) again ->
  delete_timer_ids_ s2 = delete_timer_ids_ s -> timer_id_start_ s2 = timer_id_start_ s ->
  fired_ s2 = fired_ s ++ [u] ->
  fire_spec now (delete_timer_ids_ s2) (elems s2) s2 s' fs rp ->
  fire_spec now (delete_timer_ids_ s) l s s' (u :: fs) (again ++ rp).
Proof.
  intros Hl Hnd Hdue Hlive Hmin He2 Hag Hlater Hd2 Hi2 Hf2 [].
  assert (Hnag : forall v, v ∈ again -> ~ due now v).
  { intros v Hv Hd. rewrite Forall_forall in Hlater. destruct (Hlater v Hv). unfold due in Hd. lia. }
  assert (Hfs : fs ≡ₚ filter (fun u => due now u /\ live (delete_timer_ids_ s) u) rest).
  { rewrite fs_due0, He2, Hd2, filter_app.
    rewrite (filter_none _ again); [done|]. intros v Hv [Hd _]. by eapply Hnag. }
  split.
  - rewrite fs_fired0, Hf2, <- app_assoc. done.
  - rewrite <- Hl. rewrite filter_cons_True by done. by rewrite Hfs.
  - constructor; [done|]. apply Forall_forall. intros v Hv. apply Hmin. rewrite <- Hl.
    rewrite Hfs, list_elem_of_filter in Hv. constructor. by destruct Hv.
  - rewrite fs_rest0, He2. rewrite <- Hl. rewrite filter_cons_False by (by intros H).
    rewrite filter_app, (filter_all _ again) by done.
    rewrite (Permutation_app_comm again), <- app_assoc. done.
  - unfold ids in *. rewrite map_app, fs_again0, Hag. rewrite !filter_cons.
    by destruct (decide (periodic u)).
  - apply Forall_app. split.
    + eapply Forall_impl; [exact Hlater|]. simpl. intros v [? Hv]. split; [done|]. exists u.
      by split; [constructor|].
    + eapply Forall_impl; [exact fs_later0|]. simpl. intros v (? & w & Hw & Hv). split; [done|].
      exists w. by split; [constructor|].
  - done.
  - congruence.
  - intros i. rewrite fs_deleted0, Hd2. setoid_rewrite He2. setoid_rewrite <- Hl. split.
    + intros [Hi Hno]. split; [done|]. intros (v & Hv & Hvi & Hvd).
      apply elem_of_cons in Hv as [->|Hv]; [congruence|]. apply Hno. exists v. set_solver.
    + intros [Hi Hno]. split; [done|]. intros (v & Hv & Hvi & Hvd).
      apply elem_of_app in Hv as [Hv|Hv]; [by eapply Hnag|]. apply Hno. exists v. set_solver.
Qed.

Lemma ids_perm (l1 l2 : list (timer_unit F)) : l1 ≡ₚ l2 -> NoDup (ids l1) -> NoDup (ids l2).
Proof. intros H. by rewrite (Permutation_map timer_id_ H). Qed.

Lemma due_count_lt now u rest l :
  u :: rest ≡ₚ l -> due now u ->
  (length (filter (due now) rest) < length (filter (due now) l))%nat.
Proof. intros <- Hd. rewrite filter_cons_True by done. simpl. lia. Qed.

(** The loop ends: nothing queued is due. *)
Lemma fire_loop_ends fuel now s :
  match q_top (timer_queue_ s) with Some u => now < time_stamp_ u | None => True end ->
  exists s', fire_loop clock (S fuel) now s = Ok s' /\
    fire_spec now (delete_timer_ids_ s) (elems s) s s' [] [].
Proof.
  intros Hend. simpl. destruct (q_top (timer_queue_ s)) as [u|] eqn:Htop.
  - exists (set_next_wake_time clock (time_stamp_ u) s). destruct (Z.ltb_spec now (time_stamp_ u)); [|lia].
    destruct (set_next_wake_time_same (time_stamp_ u) s) as (? & ? & ? & ? & _).
    split; [done|]. apply fire_spec_nothing; try done.
    + by apply (top_not_due now s u).
    + by apply set_next_wake_time_armed.
  - exists s. split; [done|]. apply fire_spec_nothing; try done.
    + unfold elems. by rewrite q_top_none.
    + unfold armed. by rewrite Htop.
Qed.

Lemma fire_loop_ok fuel now s :
  now <= clock (reads_ s) -> Forall unit_ok (elems s) -> NoDup (ids (elems s)) ->
  (length (filter (due now) (elems s)) < fuel)%nat ->
  exists s' fs rp, fire_loop clock fuel now s = Ok s' /\
    fire_spec now (delete_timer_ids_ s) (elems s) s s' fs rp.
Proof.
  revert s. induction fuel as [|fuel IH]; intros s Hnow Hok Hnd Hlen; [lia|].
  pose proof (fire_loop_ends fuel now s) as Hend. simpl in *.
  destruct (q_top (timer_queue_ s)) as [u|] eqn:Htop; [|by destruct (Hend I) as (s' & ?);
    exists s', [], []].
  destruct (Z.ltb_spec now (time_stamp_ u)) as [Hlt|Hge]; [by destruct (Hend Hlt) as (s' & ?);
    exists s', [], []|].
  pose proof (q_pop_elems _ _ Htop) as Hpop. set (rest := q_elems (q_pop (timer_queue_ s))) in *.
  assert (Hnd' : NoDup (ids (u :: rest))) by (by apply (ids_perm (elems s))).
  assert (Hok' : Forall unit_ok (u :: rest)) by (by rewrite Hpop).
  apply Forall_cons in Hok' as [Hu Hrest].
  pose proof (due_count_lt now u rest (elems s) Hpop Hge) as Hcnt.
  destruct (decide (timer_id_ u ∈ delete_timer_ids_ s)) as [Hdel|Hlive].
  { set (s1 := set_queue _ _).
    destruct (IH s1) as (s' & fs & rp & Hr & Hsp); [done|done|by apply NoDup_cons in Hnd' as [_ ?]| |].
    { change (elems s1) with rest. lia. }
    exists s', fs, rp. split; [done|]. by apply (fire_spec_skip now s s1 s' u). }
  assert (Hmin : forall v, v ∈ elems s -> time_stamp_ u <= time_stamp_ v).
  { intros v Hv. pose proof (q_top_least _ _ _ Htop Hv) as Hg. unfold unit_gt in Hg.
    apply Z.ltb_ge in Hg. lia. }
  destruct (Z.eqb_spec (repeat_interval_ u) 0) as [Hz|Hnz].
  { cbn [mbind res_bind]. set (s2 := post_fired u _).
    destruct (IH s2) as (s' & fs & rp & Hr & Hsp); [done|done|by apply NoDup_cons in Hnd' as [_ ?]| |].
    { change (elems s2) with rest. lia. }
    exists s', (u :: fs), ([] ++ rp). split; [done|].
    apply (fire_spec_fire now s s2 s' u rest []); try done.
    rewrite filter_cons_False; [done|]. by intros H. }
  unfold add_ns, now_of. cbn [reads_ set_queue].
  pose proof (clock_range (reads_ s)) as Hcr. unfold unit_ok in Hu.
  rewrite decide_True by (unfold in_i64; lia). cbn [mbind res_bind].
  set (v := mk_unit (cb_ u) (owner_ u) _ (repeat_interval_ u) (timer_id_ u)).
  set (s2 := post_fired u _).
  assert (He2 : elems s2 ≡ₚ [v] ++ rest) by apply q_push_elems.
  assert (Hvl : now < time_stamp_ v) by (simpl; lia).
  destruct (IH s2) as (s' & fs & rp & Hr & Hsp).
  - simpl. etrans; [exact Hnow|]. apply clock_mono. lia.
  - rewrite He2. by constructor.
  - apply (ids_perm ([v] ++ rest)); [done|]. exact Hnd'.
  - rewrite He2. simpl. rewrite filter_cons_False by (unfold due; lia). lia.
  - exists s', (u :: fs), ([v] ++ rp). split; [done|].
    apply (fire_spec_fire now s s2 s' u rest [v]); try done.
    + rewrite filter_cons_True by done. by rewrite filter_nil.
    + constructor; [|constructor]. split; [done|]. split_and!; [done|done|]. simpl. lia.
Qed.

(** The callback, whatever is queued. *)
Lemma timer_cb_ok s :
  Forall unit_ok (elems s) -> NoDup (ids (elems s)) ->
  exists s' fs rp, timer_cb clock s = Ok s' /\
    fire_spec (clock (reads_ s)) (delete_timer_ids_ s) (elems s) s s' fs rp.
Proof.
  intros Hok Hnd. unfold timer_cb. cbn [timer_queue_ set_wake].
  destruct (q_top (timer_queue_ s)) as [u|] eqn:Htop.
  - unfold now_of. cbn [reads_ set_wake]. set (s1 := mk_timer _ _ _ _ _ _).
    destruct (fire_loop_ok (S (length (q_elems (timer_queue_ s1)))) (clock (reads_ s)) s1)
      as (s' & fs & rp & Hr & Hsp); [by apply clock_mono; simpl; lia|done|done| |].
    { pose proof (length_filter (due (clock (reads_ s))) (elems s1)). unfold elems in *. lia. }
    exists s', fs, rp. split; [done|]. by destruct Hsp.
  - eexists _, [], []. split; [done|]. apply fire_spec_nothing; try done.
    + unfold elems. by rewrite q_top_none.
    + unfold armed. simpl. by rewrite Htop.
Qed.

(** C8: the expiry of a timer.  Whatever the queue holds (with distinct
    identifiers and intervals below 2^61 ns), the callback terminates; it posts
    exactly the units that were due and not cancelled, each once, in the order
    of their due times; what stays queued is what was not due, and one unit for
    each periodic one posted, later than the expiry; used-up cancellations are
    dropped; and if anything is queued the timer is armed for it. *)
Theorem timer_cb_fires_due s :
  Forall unit_ok (elems s) -> NoDup (ids (elems s)) ->
  exists s' fs rp, timer_cb clock s = Ok s' /\
    fire_spec (clock (reads_ s)) (delete_timer_ids_ s) (elems s) s s' fs rp.
Proof. apply timer_cb_ok. Qed.

Lemma ms_to_ns_ok ms : 0 <= ms <= 2000000000000 -> ms_to_ns ms = Ok (ms * 1000000).
Proof.
  intros H. unfold ms_to_ns. rewrite i64_id by (unfold in_i64; lia).
  by rewrite decide_True by (unfold in_i64; lia).
Qed.

(** A periodic task whose interval is negative keeps the loop thread:
    [post_repeat_task] takes an unsigned count of milliseconds, and the
    conversion makes one of 2^63 or more negative.  Once due, the unit is
    re-queued in the past at every round, so the expiry loop posts it again and
    again, at least as long as the clock has not advanced by the interval: the
    fuel that is enough otherwise (and any other) runs out. *)
Theorem negative_interval_spins fuel now u s :
  elems s = [u] -> time_stamp_ u <= now -> - 2 ^ 62 <= repeat_interval_ u < 0 ->
  (forall i, (i < reads_ s + fuel)%nat -> clock i + repeat_interval_ u <= now) ->
  timer_id_ u ∉ delete_timer_ids_ s ->
  fire_loop clock fuel now s = Undef.
Proof.
  revert u s.
  induction fuel as [|fuel IH]; intros u s He Hd Hneg Hclk Hlive; [done|]. simpl.
  assert (Htop : q_top (timer_queue_ s) = Some u).
  { unfold elems in He. destruct (q_top (timer_queue_ s)) as [v|] eqn:Ht.
    - pose proof (q_pop_elems _ _ Ht) as Hp. rewrite He in Hp.
      apply Permutation_sym, Permutation_singleton_l in Hp. by simplify_eq.
    - rewrite (q_top_none _ Ht) in He. done. }
  rewrite Htop. destruct (Z.ltb_spec now (time_stamp_ u)); [lia|].
  rewrite decide_False by done. destruct (Z.eqb_spec (repeat_interval_ u) 0); [lia|].
  unfold add_ns, now_of. cbn [reads_ set_queue]. pose proof (clock_range (reads_ s)).
  rewrite decide_True by (unfold in_i64; lia). cbn [mbind res_bind].
  set (v := mk_unit _ _ _ _ _). apply (IH v); try done.
  - apply Permutation_singleton_r. unfold elems. simpl. rewrite q_push_elems.
    pose proof (q_pop_elems _ _ Htop) as Hp. unfold elems in He. rewrite He in Hp.
    by apply Permutation_cons_inv in Hp; rewrite Hp.
  - simpl. apply Hclk. lia.
  - simpl. intros i Hi. apply Hclk. lia.
Qed.
End facts.

(** ** A concrete queue and clock *)

(** A list kept sorted by insertion. *)
Fixpoint insert_unit {F} (u : timer_unit F) (l : list (timer_unit F)) : list (timer_unit F) :=
  match l with
  | [] => [u]
  | v :: l' => if unit_gt u v then v :: insert_unit u l' else u :: l
  end.

Definition unit_le {F} (u v : timer_unit F) : Prop := time_stamp_ u <= time_stamp_ v.

Record sorted_units (F : Type) := mk_sorted {
  units : list (timer_unit F);
  units_sorted : StronglySorted unit_le units
}.
Arguments mk_sorted {F} _ _.
Arguments units {F} _.
Arguments units_sorted {F} _.

Lemma insert_unit_perm {F} (u : timer_unit F) l : insert_unit u l ≡ₚ u :: l.
Proof.
  induction l as [|v l IH]; [done|]. simpl. destruct (unit_gt u v); [|done].
  rewrite IH. apply Permutation_swap.
Qed.

Lemma insert_unit_sorted {F} (u : timer_unit F) l :
  StronglySorted unit_le l -> StronglySorted unit_le (insert_unit u l).
Proof.
  induction 1 as [|v l Hl IH Hv]; simpl; [by repeat constructor|].
  destruct (unit_gt u v) eqn:Hg; unfold unit_gt in Hg.
  - constructor; [done|]. rewrite insert_unit_perm. constructor; [|done].
    unfold unit_le. apply Z.ltb_lt in Hg. lia.
  - apply Z.ltb_ge in Hg. constructor; [by constructor|]. constructor; [done|].
    eapply Forall_impl; [exact Hv|]. unfold unit_le. simpl. lia.
Qed.

Lemma tail_sorted {F} (l : list (timer_unit F)) : StronglySorted unit_le l ->
  StronglySorted unit_le (tail l).
Proof. by destruct 1; [constructor|]. Qed.

#[export] Instance sorted_queue F : TimerQueue F (sorted_units F) := {
  q_empty := mk_sorted [] (SSorted_nil _);
  q_push u q := mk_sorted (insert_unit u (units q)) (insert_unit_sorted u _ (units_sorted q));
  q_top q := head (units q);
  q_pop q := mk_sorted (tail (units q)) (tail_sorted _ (units_sorted q));
  q_elems q := units q
}.

#[export] Instance sorted_queue_laws F : TimerQueueLaws F (sorted_units F).
Proof.
  split; simpl.
  - done.
  - intros u q. apply insert_unit_perm.
  - intros q. by destruct (units q).
  - intros q u v Ht Hv. destruct q as [l Hl]. simpl in *. destruct Hl as [|w l Hl Hw]; [done|].
    simpl in Ht. injection Ht as ->. unfold unit_gt. apply Z.ltb_ge.
    apply elem_of_cons in Hv as [->|Hv]; [lia|].
    rewrite Forall_forall in Hw. by apply Hw.
  - intros q u Ht. destruct (units q); [done|]. simpl in *. by simplify_eq.
Qed.

(** A clock that moves a millisecond at each of its first readings. *)
Definition demo_clock (i : nat) : Z := Z.min (Z.of_nat i) 1000 * 1000000.

Lemma demo_clock_mono i j : (i <= j)%nat -> demo_clock i <= demo_clock j.
Proof. unfold demo_clock. lia. Qed.

Lemma demo_clock_range i : 0 <= demo_clock i < 2 ^ 62.
Proof. unfold demo_clock. lia. Qed.

(** Task 1 after 4 ms and task 2 every 2 ms are posted.  In the run below, task 1
    fires before its cancellation, which then stays on the list for good. *)
Definition demo_timer_ops : list (timer_op nat) :=
  [TOnce 1%nat 0%nat 4; TRepeat 2%nat 0%nat 2; TExpire].

Definition demo_timer : timer nat (sorted_units nat) :=
  match run_timer_ops demo_clock demo_timer_ops timer_ctor with Ok s => s | _ => timer_ctor end.

Example demo_timer_run :
  match run_timer_ops demo_clock (demo_timer_ops ++ [TCancel 1; TExpire; TExpire; TExpire]) timer_ctor with
  | Ok s => (map timer_id_ (fired_ (Q := sorted_units nat) s), map timer_id_ (units (timer_queue_ s)),
             delete_timer_ids_ s)
  | _ => ([], [], ∅)
  end = ([2; 1; 2; 2; 2], [2], {[1]}).
Proof. vm_compute. reflexivity. Qed.

Lemma timer_cb_fires_due_witness :
  exists s' fs rp, timer_cb demo_clock demo_timer = Ok s' /\
    fire_spec demo_clock (demo_clock (reads_ demo_timer)) (delete_timer_ids_ demo_timer)
      (elems demo_timer) demo_timer s' fs rp.
Proof.
  apply (timer_cb_fires_due demo_clock demo_clock_mono demo_clock_range).
  - repeat constructor; vm_compute; congruence.
  - apply (bool_decide_unpack (NoDup _)). vm_compute. done.
Defined.

(** An interval of 2^64 - 10^12 ms, that is minus 10^12 ms. *)
Definition spinning_unit : timer_unit nat := mk_unit 1%nat 0%nat 0 (- 10 ^ 18) 1.

Example spinning_unit_ms : ms_to_ns (2 ^ 64 - 10 ^ 12) = Ok (repeat_interval_ spinning_unit).
Proof. vm_compute. reflexivity. Qed.

Lemma negative_interval_spins_witness :
  fire_loop demo_clock 50 0
    (set_queue (q_push spinning_unit q_empty) (timer_ctor : timer nat (sorted_units nat))) = Undef.
Proof.
  apply (negative_interval_spins demo_clock demo_clock_range 50 0 spinning_unit).
  - reflexivity.
  - reflexivity.
  - split; reflexivity || (vm_compute; congruence).
  - intros i _. unfold demo_clock, spinning_unit. simpl. lia.
  - simpl. set_solver.
Defined.
