(* ===== verification/TimerRuns.v ===== *)
(** * TimerRuns: timers over any sequence of tasks

    [Timer] proves what one expiry does; here whole runs of
    [src/timer/timer.cpp]: tasks posted, cancellations and expiries in any
    order.  The invariants are stated over the identifiers in use, whoever
    handed them out, so that they hold for the calls of one thread
    ([run_timer_op], where posting and queueing are one step) and for the tasks
    on a loop ([TimerServed], where they are not). *)

From Stdlib Require Import Sorted.
From S2P Require Import Prelude Events LoopFd Channel Timer.

Section runs.
Context {F Q : Type} `{TQ : TimerQueue F Q, TL : !TimerQueueLaws F Q}.
Context (clock : nat -> Z).
Hypothesis clock_mono : forall i j, (i <= j)%nat -> clock i <= clock j.
Hypothesis clock_range : forall i, 0 <= clock i < 2 ^ 62.
Implicit Types (s : timer F Q) (u v : timer_unit F) (q : Q) (used : Z -> Prop).

#[local] Abbreviation armed := (armed clock).
#[local] Abbreviation fire_spec := (fire_spec clock).

(** A timeout the arithmetic is made for: below 2 * 10^12 ms (63 years). *)
Definition timer_op_ok (o : timer_op F) : Prop :=
  match o with
  | TOnce _ _ ms | TRepeat _ _ ms => 0 <= ms <= 2000000000000
  | _ => True
  end.

(** [used]: the identifiers handed out so far. *)
Record units_inv used s : Prop := {
  ui_units : Forall unit_ok (elems s);
  ui_ids : NoDup (ids (elems s));
  ui_known : forall u, u ∈ elems s -> used (timer_id_ u);
  ui_armed : armed s
}.

(** A cancelled identifier that may still be queued is still on the list. *)
Definition cancelled used (id : Z) s : Prop :=
  used id /\ (id ∈ delete_timer_ids_ s \/ forall u, u ∈ elems s -> timer_id_ u <> id).

Lemma push_unit_armed u s :
  armed s -> armed (push_unit clock u s).
Proof.
  intros Ha. unfold push_unit. cbn [timer_queue_ set_queue].
  destruct (q_top (q_push u (timer_queue_ s))) as [t|] eqn:Ht; cycle 1.
  { unfold Timer.armed. simpl. by rewrite Ht. }
  destruct (Z.eqb_spec (time_stamp_ t) (time_stamp_ u)) as [He|Hne].
  { by apply (set_next_wake_time_armed clock). }
  assert (Hin : t ∈ u :: elems s).
  { unfold elems. rewrite <- (q_push_elems u (timer_queue_ s)). rewrite <- (q_pop_elems _ _ Ht).
    constructor. }
  apply elem_of_cons in Hin as [->|Hin]; [done|].
  unfold Timer.armed in *. simpl. rewrite Ht.
  destruct (q_top (timer_queue_ s)) as [o|] eqn:Ho.
  - destruct Ha as (w & Hw & Hle). exists w. split; [done|].
    pose proof (q_top_least _ _ _ Ho Hin) as Hg. unfold unit_gt in Hg. apply Z.ltb_ge in Hg. lia.
  - unfold elems in Hin. rewrite (q_top_none _ Ho) in Hin. by apply elem_of_nil in Hin.
Qed.

Lemma push_unit_same u s :
  elems (push_unit clock u s) ≡ₚ u :: elems s /\ fired_ (push_unit clock u s) = fired_ s /\
  delete_timer_ids_ (push_unit clock u s) = delete_timer_ids_ s /\
  timer_id_start_ (push_unit clock u s) = timer_id_start_ s.
Proof.
  unfold push_unit. cbn [timer_queue_ set_queue].
  pose proof (q_push_elems u (timer_queue_ s)) as Hp.
  destruct (q_top _) as [t|]; [destruct (_ =? _)|]; [|done|done].
  destruct (set_next_wake_time_same clock (time_stamp_ t) (set_queue (q_push u (timer_queue_ s)) s))
    as (Hq & Hf & Hd & Hi & _).
  unfold elems. rewrite Hq, Hf, Hd, Hi. done.
Qed.

Lemma ids_inj (l : list (timer_unit F)) u v :
  NoDup (ids l) -> u ∈ l -> v ∈ l -> timer_id_ u = timer_id_ v -> u = v.
Proof.
  induction l as [|x l IH]; intros Hnd Hu Hv He; [by apply elem_of_nil in Hu|].
  simpl in Hnd. apply NoDup_cons in Hnd as [Hx Hnd].
  apply elem_of_cons in Hu as [->|Hu]; apply elem_of_cons in Hv as [->|Hv]; [done| | |by apply IH];
    exfalso; apply Hx.
  - rewrite He. by apply list_elem_of_fmap_2.
  - rewrite <- He. by apply list_elem_of_fmap_2.
Qed.

Lemma ids_filter (P : timer_unit F -> Prop) `{!forall x, Decision (P x)} l :
  NoDup (ids l) -> NoDup (ids (filter P l)).
Proof.
  intros Hl. induction l as [|x l IH]; [done|]. simpl in Hl. apply NoDup_cons in Hl as [Hx Hl].
  rewrite filter_cons. destruct (decide (P x)); [|by apply IH]. simpl. apply NoDup_cons.
  split; [|by apply IH]. intros Hin. apply Hx. apply list_elem_of_fmap in Hin as (y & Hy & Hyin).
  rewrite Hy. apply list_elem_of_fmap_2. by apply list_elem_of_filter in Hyin as [_ ?].
Qed.

(** The identifiers after an expiry. *)
Lemma fire_spec_ids now s s' fs rp :
  NoDup (ids (elems s)) ->
  fire_spec now (delete_timer_ids_ s) (elems s) s s' fs rp ->
  NoDup (ids (elems s')) /\ (forall u, u ∈ elems s' -> exists v, v ∈ elems s /\
    timer_id_ v = timer_id_ u /\ repeat_interval_ v = repeat_interval_ u /\
    (u ∈ elems s \/ (due now v /\ live (delete_timer_ids_ s) v))).
Proof.
  intros Hnd [].
  assert (Hrp : forall v, v ∈ rp -> exists u, u ∈ elems s /\ timer_id_ u = timer_id_ v /\
    repeat_interval_ u = repeat_interval_ v /\ due now u /\ live (delete_timer_ids_ s) u).
  { intros v Hv. rewrite Forall_forall in fs_later. destruct (fs_later v Hv) as (_ & u & Hu & _ & -> & _).
    rewrite fs_due, list_elem_of_filter in Hu. exists u. simpl. tauto. }
  split.
  - apply (ids_perm (filter (fun u => ~ due now u) (elems s) ++ rp)); [done|].
    unfold ids. rewrite map_app. apply NoDup_app.
    split_and!.
    + by apply ids_filter.
    + intros i Hi Hi'. apply list_elem_of_fmap in Hi as (u & -> & Hu).
      apply list_elem_of_fmap in Hi' as (v & Hv & Hvin).
      destruct (Hrp v Hvin) as (w & Hw & Hwv & _ & Hwd & _).
      apply list_elem_of_filter in Hu as [Hud Hu]. apply Hud.
      replace u with w; [done|]. apply (ids_inj (elems s)); try done. congruence.
    + change (map timer_id_ rp) with (ids rp). rewrite fs_again. apply ids_filter.
      apply (ids_perm (filter (fun u => due now u /\ live (delete_timer_ids_ s) u) (elems s))); [done|].
      by apply ids_filter.
  - intros u Hu. rewrite fs_rest in Hu. apply elem_of_app in Hu as [Hu|Hu].
    + apply list_elem_of_filter in Hu as [_ Hu]. exists u. split_and!; try done. by left.
    + destruct (Hrp u Hu) as (v & ? & ? & ? & ? & ?). exists v. split_and!; try done. by right.
Qed.

(** What an operation amounts to, with the units it fires. *)
Inductive op_effect used used' s s' : list (timer_unit F) -> Prop :=
| eff_post u :
    unit_ok u -> ~ used (timer_id_ u) -> used' (timer_id_ u) -> elems s' ≡ₚ u :: elems s ->
    fired_ s' = fired_ s -> delete_timer_ids_ s' = delete_timer_ids_ s -> armed s' ->
    op_effect used used' s s' []
| eff_cancel id : s' = cancel id s -> op_effect used used' s s' []
| eff_expire fs rp :
    fire_spec (clock (reads_ s)) (delete_timer_ids_ s) (elems s) s s' fs rp -> op_effect used used' s s' fs.

(** The unit a task queues, with an identifier that was not in use. *)
Lemma push_effect used used' u s :
  units_inv used s -> unit_ok u -> ~ used (timer_id_ u) -> used' (timer_id_ u) ->
  op_effect used used' s (push_unit clock u (now_of clock s).2) [].
Proof.
  intros [Hu Hnd Hk Ha] Hok Hnew Hid.
  set (s1 := (now_of clock s).2). destruct (push_unit_same u s1) as (He & Hf & Hd & Hi).
  apply (eff_post _ _ _ _ u); try done. apply push_unit_armed.
  unfold Timer.armed in *. simpl.
  destruct (q_top (timer_queue_ s)) as [o|]; [|done]. destruct Ha as (w & Hw & Hle).
  exists w. split; [done|]. assert (clock (pred (reads_ s)) <= clock (reads_ s)) by (apply clock_mono; lia).
  lia.
Qed.

(** Both posting calls, as their tasks run. *)
Definition post_of (repeat : bool) (cb : F) (owner : nat) (timeout_ms id : Z) s : res (timer F Q) :=
  if repeat then repeat_task clock cb owner timeout_ms id s else once_task clock cb owner timeout_ms id s.

Lemma post_effect used used' repeat cb owner ms id s :
  0 <= ms <= 2000000000000 -> units_inv used s -> ~ used id -> used' id ->
  exists s', post_of repeat cb owner ms id s = Ok s' /\ op_effect used used' s s' [] /\
    timer_id_start_ s' = timer_id_start_ s.
Proof.
  intros Hms Hinv Hnew Hid. pose proof (clock_range (reads_ s)) as Hcr.
  set (t := clock (reads_ s) + ms * 1000000).
  set (u := mk_unit cb owner t (if repeat then ms * 1000000 else 0) id).
  exists (push_unit clock u (now_of clock s).2). split_and!.
  - unfold post_of, once_task, repeat_task, now_of, add_ns, u, t. rewrite ms_to_ns_ok by done.
    destruct repeat; cbn [mbind res_bind]; by rewrite decide_True by (unfold in_i64; lia).
  - apply push_effect; try done. unfold unit_ok, u. simpl. destruct repeat; lia.
  - by destruct (push_unit_same u (now_of clock s).2) as (_ & _ & _ & ->).
Qed.

Lemma expire_effect used used' s :
  units_inv used s ->
  exists s' fs, timer_cb clock s = Ok s' /\ op_effect used used' s s' fs /\
    timer_id_start_ s' = timer_id_start_ s.
Proof.
  intros [Hu Hnd _ _].
  destruct (timer_cb_ok clock clock_mono clock_range s Hu Hnd) as (s' & fs & rp & Hr & Hsp).
  exists s', fs. split_and!; [done|by eapply eff_expire|by destruct Hsp].
Qed.

Lemma effect_inv used used' s s' fs :
  (forall i, used i -> used' i) -> units_inv used s -> op_effect used used' s s' fs ->
  units_inv used' s' /\ fired_ s' = fired_ s ++ fs.
Proof.
  intros Hle [Hu Hnd Hk Ha] He. destruct He as [u Hok Hnew Hid He Hf Hd Har|id ->|fs rp Hsp].
  - split; [|by rewrite Hf, app_nil_r]. split; [| | |done].
    + rewrite He. by constructor.
    + apply (ids_perm (u :: elems s)); [done|]. simpl. apply NoDup_cons. split; [|done].
      intros (v & Hv & Hvin)%list_elem_of_fmap. apply Hnew. rewrite Hv. by apply Hk.
    + intros v. rewrite He. intros [->|Hv]%elem_of_cons; [done|]. by apply Hle, Hk.
  - split; [|by rewrite app_nil_r]. split; [done|done| |done]. intros u Hin. by apply Hle, Hk.
  - destruct (fire_spec_ids _ s s' fs rp Hnd Hsp) as [Hnd' Hfrom]. destruct Hsp. split; [|done].
    split; [|done| |done].
    + apply Forall_forall. intros u Hin. destruct (Hfrom u Hin) as (v & Hv & _ & Hrep & _).
      rewrite Forall_forall in Hu. specialize (Hu v Hv). unfold unit_ok in *. lia.
    + intros u Hin. destruct (Hfrom u Hin) as (v & Hv & Hid & _). rewrite <- Hid. by apply Hle, Hk.
Qed.

Lemma fire_spec_fs now s s' fs rp u :
  fire_spec now (delete_timer_ids_ s) (elems s) s s' fs rp -> u ∈ fs ->
  u ∈ elems s /\ due now u /\ live (delete_timer_ids_ s) u.
Proof. intros [] Hin. rewrite fs_due, list_elem_of_filter in Hin. tauto. Qed.

(** Whatever an operation fires was not cancelled before it. *)
Lemma effect_cancelled used used' s s' fs id :
  (forall i, used i -> used' i) -> units_inv used s -> op_effect used used' s s' fs ->
    cancelled used id s ->
  cancelled used' id s' /\ forall u, u ∈ fs -> timer_id_ u <> id.
Proof.
  intros Hle [_ Hnd _ _] He [Hus Hor]. destruct He as [u _ Hnew _ He _ Hd _|id' ->|fs rp Hsp].
  - split; [|intros v Hv; by apply elem_of_nil in Hv]. split; [by apply Hle|].
    destruct Hor as [Hdel|Hno]; [left; by rewrite Hd|]. right. intros v.
    rewrite He. intros [->|Hv]%elem_of_cons; [congruence|by apply Hno].
  - split; [|intros v Hv; by apply elem_of_nil in Hv]. split; [by apply Hle|].
    destruct Hor; [left; simpl; set_solver|by right].
  - pose proof (fun u => fire_spec_fs _ s s' fs rp u Hsp) as Hfs.
    destruct (fire_spec_ids _ s s' fs rp Hnd Hsp) as [_ Hfrom]. destruct Hsp. split; cycle 1.
    { intros u (Hin & _ & Hlive)%Hfs Heq. subst id. destruct Hor as [Hd|Hno]; [done|by apply (Hno u)]. }
    split; [by apply Hle|]. destruct (decide (id ∈ delete_timer_ids_ s')) as [|Hnd2]; [by left|right].
    intros u Hin He. destruct (Hfrom u Hin) as (v & Hv & Hvid & _ & Hway).
    destruct Hor as [Hd|Hno]; [|apply (Hno v Hv); congruence].
    apply Hnd2. apply fs_deleted. split; [done|]. intros (w & Hw & Hwid & Hwd).
    assert (w = v) as -> by (apply (ids_inj (elems s)); try done; congruence).
    destruct Hway as [Hin2|[_ Hlive]]; [|by apply Hlive; rewrite Hvid, He].
    assert (u = v) as -> by (apply (ids_inj (elems s)); done || congruence).
    rewrite fs_rest in Hin. apply elem_of_app in Hin as [Hin|Hin].
    + apply list_elem_of_filter in Hin as [Hnd3 _]. done.
    + rewrite Forall_forall in fs_later. destruct (fs_later v Hin) as [Hlt _].
      unfold due in Hwd. lia.
Qed.

(** *** How often a periodic task fires *)

(** If [g] is the same task as [f], it is periodic, and due an interval later at
    least. *)
Definition follows (f g : timer_unit F) : Prop :=
  timer_id_ f = timer_id_ g ->
  repeat_interval_ f <> 0 /\ time_stamp_ f + repeat_interval_ f <= time_stamp_ g /\
    repeat_interval_ f = repeat_interval_ g.

Record history used s : Prop := {
  hi_fired : StronglySorted follows (fired_ s);
  hi_queued : forall f u, f ∈ fired_ s -> u ∈ elems s -> follows f u;
  hi_known : forall f, f ∈ fired_ s -> used (timer_id_ f) /\ 0 <= repeat_interval_ f;
  hi_past : forall f, f ∈ fired_ s -> time_stamp_ f <= clock (reads_ s)
}.

Lemma distinct_follows (l : list (timer_unit F)) : NoDup (ids l) -> StronglySorted follows l.
Proof.
  induction l as [|f l IH]; intros Hnd; [constructor|]. simpl in Hnd. apply NoDup_cons in Hnd as [Hf Hnd].
  constructor; [by apply IH|]. apply Forall_forall. intros g Hg Heq. destruct Hf. rewrite Heq.
  by apply list_elem_of_fmap_2.
Qed.

Lemma StronglySorted_app_2 {A} (R : A -> A -> Prop) l k :
  StronglySorted R l -> StronglySorted R k -> (forall x y, x ∈ l -> y ∈ k -> R x y) ->
  StronglySorted R (l ++ k).
Proof.
  intros Hl Hk Hlk. induction Hl as [|x l Hl IH Hx]; [done|]. simpl. constructor.
  - apply IH. intros y z Hy. apply Hlk. by constructor.
  - apply Forall_app. split; [done|]. apply Forall_forall. intros y. apply Hlk. constructor.
Qed.

Lemma again_follows f u v :
  0 <= repeat_interval_ u -> follows f u \/ f = u -> again_of u v -> follows f v.
Proof.
  intros Hu Hf (Hnz & -> & Hv) Heq. simpl in *. destruct Hf as [Hf|Hf]; [|by subst f].
  destruct (Hf Heq) as (? & Hle & Hr). split_and!; [done|lia|done].
Qed.

Lemma expire_history used used' s s' fs rp :
  (forall i, used i -> used' i) -> units_inv used s -> history used s -> (reads_ s <= reads_ s')%nat ->
  fire_spec (clock (reads_ s)) (delete_timer_ids_ s) (elems s) s s' fs rp -> history used' s'.
Proof.
  intros Hle [Hu Hnd Hk _] [Hs Hq Hi Hp] Hreads%clock_mono Hsp.
  pose proof (fun u => fire_spec_fs _ s s' fs rp u Hsp) as Hfs.
  assert (Hok : forall u, u ∈ elems s -> 0 <= repeat_interval_ u).
  { intros u Hin. rewrite Forall_forall in Hu. specialize (Hu u Hin). unfold unit_ok in Hu. lia. }
  destruct Hsp as [Hf Hdue _ Hrest _ Hlater _ Hid _]. split.
  - rewrite Hf. apply StronglySorted_app_2; [done| |].
    + apply distinct_follows. eapply ids_perm; [symmetry; exact Hdue|by apply ids_filter].
    + intros f g Hin (Hg & _)%Hfs. by apply Hq.
  - intros f v. rewrite Hf, Hrest, !elem_of_app, list_elem_of_filter. rewrite Forall_forall in Hlater.
    intros Hin [[Hnot Hv]|Hv].
    + destruct Hin as [Hin|(Hfe & Hfd & _)%Hfs]; [by apply Hq|]. intros Heq.
      assert (f = v) as -> by (by apply (ids_inj (elems s))). done.
    + destruct (Hlater v Hv) as (_ & w & (Hw & _)%Hfs & Hag).
      apply (again_follows f w v); [by apply Hok| |done].
      destruct Hin as [Hin|(Hfe & _)%Hfs]; [left; by apply Hq|].
      destruct (decide (timer_id_ f = timer_id_ w)) as [He|Hne]; [|by left].
      right. by apply (ids_inj (elems s)).
  - intros f. rewrite Hf, elem_of_app. intros [Hin|(Hfe & _)%Hfs].
    + destruct (Hi f Hin). split; [by apply Hle|done].
    + split; [by apply Hle, Hk|by apply Hok].
  - intros f. rewrite Hf, elem_of_app. intros [Hin%Hp|(_ & Hd & _)%Hfs]; [lia|]. unfold due in Hd. lia.
Qed.

Lemma effect_history used used' s s' fs :
  (forall i, used i -> used' i) -> units_inv used s -> history used s -> (reads_ s <= reads_ s')%nat ->
  op_effect used used' s s' fs -> history used' s'.
Proof.
  intros Hle Hinv Hh Hr He. pose proof Hh as [Hs Hq Hi Hp].
  assert (Hi' : forall f, f ∈ fired_ s -> used' (timer_id_ f) /\ 0 <= repeat_interval_ f).
  { intros f Hf. destruct (Hi f Hf). split; [by apply Hle|done]. }
  destruct He as [u _ Hnew _ He Hf _ _|id ->|fs rp Hsp]; [|by split|by eapply expire_history].
  apply clock_mono in Hr. split; rewrite Hf; [done| |done|].
  - intros f v Hin. rewrite He. intros [->|Hv]%elem_of_cons; [|by apply Hq].
    intros Heq. destruct (Hi f Hin). congruence.
  - intros f Hin%Hp. lia.
Qed.

(** The clock is read on and on. *)
Lemma set_next_wake_time_reads t s : reads_ (set_next_wake_time clock t s) = S (reads_ s).
Proof. unfold set_next_wake_time, now_of. by destruct (wake_value _ _). Qed.

Lemma push_unit_reads u s : (reads_ s <= reads_ (push_unit clock u s))%nat.
Proof.
  unfold push_unit. destruct (q_top _) as [t|]; [destruct (_ =? _)|];
    rewrite ?set_next_wake_time_reads; simpl; lia.
Qed.

Lemma fire_loop_reads fuel now s s' : fire_loop clock fuel now s = Ok s' -> (reads_ s <= reads_ s')%nat.
Proof.
  revert s. induction fuel as [|fuel IH]; intros s H; [done|]. simpl in H.
  destruct (q_top _) as [u|]; [|by simplify_eq].
  destruct (_ <? _); [simplify_eq; rewrite set_next_wake_time_reads; lia|].
  destruct (decide _); [by apply IH in H|]. apply res_bind_Ok in H as (s2 & H2 & H%IH).
  destruct (_ =? _); simpl in H2; [by simplify_eq|]. inv_res. simpl in H. lia.
Qed.

Lemma post_of_reads repeat cb owner ms id s s' :
  post_of repeat cb owner ms id s = Ok s' -> (reads_ s <= reads_ s')%nat.
Proof.
  destruct repeat; [unfold post_of, repeat_task|unfold post_of, once_task]; simpl;
    intros (d & _ & H)%res_bind_Ok; apply res_bind_Ok in H as (t & _ & [= <-]);
    (etrans; [|apply push_unit_reads]); simpl; lia.
Qed.

Lemma timer_cb_reads s s' : timer_cb clock s = Ok s' -> (reads_ s <= reads_ s')%nat.
Proof.
  unfold timer_cb. destruct (q_top _); [|by intros [= <-]]. intros H%fire_loop_reads. simpl in H. lia.
Qed.

(** One operation, on everything that is kept of a run. *)
Definition step_ok used used' s s' (fs : list (timer_unit F)) : Prop :=
  units_inv used' s' /\ fired_ s' = fired_ s ++ fs /\
  (forall id, cancelled used id s -> cancelled used' id s' /\ forall u, u ∈ fs -> timer_id_ u <> id) /\
  (history used s -> history used' s').

Lemma effect_step used used' s s' fs :
  (forall i, used i -> used' i) -> units_inv used s -> op_effect used used' s s' fs ->
  (reads_ s <= reads_ s')%nat -> step_ok used used' s s' fs.
Proof.
  intros Hle Hi He Hr. destruct (effect_inv _ _ _ _ _ Hle Hi He) as [Hi' Hf]. split_and!; [done|done| |].
  - intros id. by eapply effect_cancelled.
  - intros Hh. by eapply effect_history.
Qed.

Lemma step_trans used1 used2 used3 s1 s2 s3 fs1 fs2 :
  step_ok used1 used2 s1 s2 fs1 -> step_ok used2 used3 s2 s3 fs2 -> step_ok used1 used3 s1 s3 (fs1 ++ fs2).
Proof.
  intros (_ & Hf1 & Hc1 & Hh1) (Hi2 & Hf2 & Hc2 & Hh2). split_and!; [done| | |auto].
  - by rewrite Hf2, Hf1, app_assoc.
  - intros id [Hc1' Hn1]%Hc1. destruct (Hc2 id Hc1') as [Hc3 Hn2]. split; [done|].
    intros u [Hu|Hu]%elem_of_app; auto.
Qed.

Lemma step_refl used s : units_inv used s -> step_ok used used s s [].
Proof.
  intros Hi. split_and!; [done|by rewrite app_nil_r| |done]. intros id Hc. split; [done|].
  intros u Hu. by apply elem_of_nil in Hu.
Qed.

(** ** The calls of one thread *)

(** The run stays inside one cycle of identifiers: [n] more calls fit. *)
Definition upto s (i : Z) : Prop := i <= timer_id_start_ s.

Record timer_inv (n : nat) s : Prop := {
  ti_units : units_inv (upto s) s;
  ti_counter : 0 <= timer_id_start_ s /\ timer_id_start_ s + Z.of_nat n < 2 ^ 64
}.

Lemma run_op_ok n o s :
  timer_inv (S n) s -> timer_op_ok o ->
  exists s' fs, run_timer_op clock o s = Ok s' /\ timer_inv n s' /\ step_ok (upto s) (upto s') s s' fs.
Proof.
  intros [Hi [Hc1 Hc2]] Ho.
  assert (Hnext : next_id (timer_id_start_ s) = timer_id_start_ s + 1).
  { unfold next_id, u64, wrap. rewrite Z.mod_small by lia.
    destruct (Z.eqb_spec (timer_id_start_ s + 1) 0); lia. }
  set (s0 := set_id (next_id (timer_id_start_ s)) s).
  assert (Hpost : forall repeat cb owner ms, 0 <= ms <= 2000000000000 ->
    exists s' fs, post_of repeat cb owner ms (next_id (timer_id_start_ s)) s0 = Ok s' /\ timer_inv n s' /\
      step_ok (upto s) (upto s') s s' fs).
  { intros repeat cb owner ms Hms.
    destruct (post_effect (upto s) (upto s0) repeat cb owner ms (next_id (timer_id_start_ s)) s0)
      as (s' & Hr & He & Hid); [done|by destruct Hi|unfold upto; lia|unfold upto; simpl; lia|].
    assert (Hup : upto s' = upto s0) by (unfold upto; by rewrite Hid).
    exists s', []. split; [done|]. rewrite Hup.
    assert (Hst : step_ok (upto s) (upto s0) s s' []).
    { destruct (effect_step (upto s) (upto s0) s0 s' []) as (H1 & H2 & H3 & H4);
        [unfold upto; simpl; lia|by destruct Hi|done|by apply post_of_reads in Hr|].
      split_and!; [done..|]. intros []. apply H4. by split. }
    split; [|done]. split; [rewrite Hup; apply Hst|]. rewrite Hid. simpl. lia. }
  destruct o as [cb ow ms|cb ow ms|id|]; cbn [run_timer_op].
  - by apply (Hpost false).
  - by apply (Hpost true).
  - exists (cancel id s), []. split; [done|]. pose proof (effect_step (upto s) (upto s) s (cancel id s) [])
      as Hst. assert (step_ok (upto s) (upto s) s (cancel id s) []) by (apply Hst;
        [done|done|by eapply eff_cancel|done]).
    split; [|done]. split; [|simpl; lia]. by destruct Hi.
  - destruct (expire_effect (upto s) (upto s) s Hi) as (s' & fs & Hr & He & Hid).
    assert (Hup : upto s' = upto s) by (unfold upto; by rewrite Hid).
    exists s', fs. split; [done|]. rewrite Hup.
    assert (Hst : step_ok (upto s) (upto s) s s' fs).
    { apply effect_step; [done|done|done|]. by apply timer_cb_reads in Hr. }
    split; [|done]. split; [rewrite Hup; apply Hst|lia].
Qed.

Lemma timer_ops_ok os n s :
  timer_inv (length os + n) s -> Forall timer_op_ok os ->
  exists s' fs, run_timer_ops clock os s = Ok s' /\ timer_inv n s' /\ step_ok (upto s) (upto s') s s' fs.
Proof.
  intros Hi Hos. revert s Hi. induction Hos as [|o os Ho Hos IH]; intros s Hi; simpl in *.
  { exists s, []. split_and!; [done|done|]. apply step_refl, Hi. }
  destruct (run_op_ok (length os + n) o s Hi Ho) as (s1 & fs1 & Hr1 & Hi1 & Hst1). rewrite Hr1. simpl.
  destruct (IH s1 Hi1) as (s' & fs & -> & Hi' & Hst).
  exists s', (fs1 ++ fs). split_and!; [done|done|by eapply step_trans].
Qed.

Lemma timer_ctor_units used : units_inv used (timer_ctor : timer F Q).
Proof.
  assert (He : elems (timer_ctor : timer F Q) = []) by apply q_empty_elems.
  split; [rewrite He; constructor|rewrite He; constructor| |].
  - intros u. rewrite He. intros Hu. by apply elem_of_nil in Hu.
  - unfold Timer.armed. simpl. destruct (q_top q_empty) as [u|] eqn:Ht; [|done]. exfalso.
    pose proof (q_pop_elems _ _ Ht) as Hp. rewrite q_empty_elems in Hp.
    by apply Permutation_nil_r in Hp.
Qed.

Lemma timer_ctor_history used : history used (timer_ctor : timer F Q).
Proof. clear clock_mono clock_range. split; simpl; [constructor|set_solver..]. Qed.

Lemma timer_ctor_inv n : Z.of_nat n < 2 ^ 64 -> timer_inv n (timer_ctor : timer F Q).
Proof. intros Hn. split; [apply timer_ctor_units|simpl; lia]. Qed.

(** C15: a timer never oversleeps.  From its construction, over any sequence of
    posted tasks, cancellations and expiries, in any order: no operation leaves
    defined behaviour, queued identifiers are distinct, and whenever a task is
    queued the timerfd is armed no later than its due time (or a nanosecond
    after the last reading of the clock).  After [cancel_task id] nothing fires
    under that identifier, whatever happens next. *)
Theorem timer_never_oversleeps os id os' :
  Z.of_nat (length os + length os') < 2 ^ 63 ->
  Forall timer_op_ok os -> Forall timer_op_ok os' ->
  exists s, run_timer_ops clock os timer_ctor = Ok s /\ armed s /\ NoDup (ids (elems s)) /\
    (id <= timer_id_start_ s ->
     exists s' fs, run_timer_ops clock os' (cancel id s) = Ok s' /\ armed s' /\
       fired_ s' = fired_ s ++ fs /\ forall u, u ∈ fs -> timer_id_ u <> id).
Proof.
  intros Hn Hos Hos'.
  destruct (timer_ops_ok os (length os' + 0) timer_ctor) as (s & fs & Hr & Hi & _);
    [apply timer_ctor_inv; lia|done|].
  exists s. split_and!; [done|by destruct Hi as [[] _]|by destruct Hi as [[] _]|]. intros Hid.
  destruct (timer_ops_ok os' 0 (cancel id s)) as (s' & fs' & Hr' & Hi' & _ & Hf' & Hc & _);
    [by destruct Hi as [[] ?]|done|].
  exists s', fs'. split_and!; [done|by destruct Hi' as [[] _]|done|]. apply Hc. split; [done|].
  left. simpl. set_solver.
Qed.

(** The runs of a task, among those posted to the heavy thread. *)
Definition runs_of (id : Z) s : list (timer_unit F) := filter (fun f => timer_id_ f = id) (fired_ s).

Lemma StronglySorted_filter {A} (R : A -> A -> Prop) (P : A -> Prop) `{!forall x, Decision (P x)} l :
  StronglySorted R l -> StronglySorted R (filter P l).
Proof.
  induction 1 as [|x l _ IH Hx]; [constructor|]. rewrite filter_cons. destruct (decide _); [|done].
  constructor; [done|]. apply Forall_forall. rewrite Forall_forall in Hx.
  intros y [_ Hy]%list_elem_of_filter. by apply Hx.
Qed.

Lemma spaced_span f l bound :
  StronglySorted follows (f :: l) -> Forall (fun g => timer_id_ g = timer_id_ f) l ->
  Forall (fun g => time_stamp_ g <= bound) (f :: l) ->
  time_stamp_ f + repeat_interval_ f * zlen l <= bound.
Proof.
  revert f. induction l as [|g l IH]; intros f [Hs Hf]%StronglySorted_inv Hid Hb;
    apply Forall_cons in Hb as [Hfb Hb].
  { change (zlen (@nil (timer_unit F))) with 0. lia. }
  apply Forall_cons in Hf as [Hfg _], Hid as [Hg Hid]. destruct (Hfg (eq_sym Hg)) as (_ & Hle & Hr).
  change (g :: l) with ([g] ++ l). rewrite zlen_app. change (zlen [g]) with 1. rewrite Hr in *.
  assert (time_stamp_ g + repeat_interval_ g * zlen l <= bound); [|lia].
  apply IH; [done| |done]. eapply Forall_impl; [exact Hid|]. simpl. congruence.
Qed.

(** What the history says of one task. *)
Lemma history_spaced used s id f l :
  history used s -> runs_of id s = f :: l ->
  StronglySorted (fun f g => time_stamp_ f + repeat_interval_ f <= time_stamp_ g) (f :: l) /\
  Forall (fun g => repeat_interval_ g = repeat_interval_ f) l /\
  time_stamp_ f + repeat_interval_ f * zlen l <= clock (reads_ s) /\
  (repeat_interval_ f = 0 -> l = []).
Proof.
  intros [Hs _ _ Hp] Hl. unfold runs_of in Hl.
  assert (Hin : forall g, g ∈ f :: l -> g ∈ fired_ s /\ timer_id_ g = id).
  { intros g. rewrite <- Hl, list_elem_of_filter. tauto. }
  assert (Hid : timer_id_ f = id) by (apply Hin; constructor).
  assert (Hfl : StronglySorted follows (f :: l)) by (rewrite <- Hl; by apply StronglySorted_filter).
  assert (Hids : Forall (fun g => timer_id_ g = timer_id_ f) l).
  { apply Forall_forall. intros g Hg. rewrite Hid. apply Hin. by constructor. }
  pose proof Hfl as [_ Hf]%StronglySorted_inv. rewrite Forall_forall in Hf, Hids. split_and!.
  - clear -Hfl Hin. induction Hfl as [|g k Hk IH Hg]; constructor.
    + apply IH. intros h Hh. apply Hin. by constructor.
    + apply Forall_forall. rewrite Forall_forall in Hg. intros h Hh.
      destruct (Hin g) as [_ Hgi]; [constructor|]. destruct (Hin h) as [_ Hhi]; [by constructor|].
      apply Hg; [done|congruence].
  - apply Forall_forall. intros g Hg. destruct (Hf g Hg) as (_ & _ & ?); [symmetry; by apply Hids|done].
  - apply spaced_span; [done|by apply Forall_forall|]. apply Forall_forall. intros g [Hg _]%Hin.
    by apply Hp.
  - intros Hz. destruct l as [|g l]; [done|].
    destruct (Hf g) as [? _]; [constructor|symmetry; apply Hids; constructor|done].
Qed.

(** C17: how often a task runs.  Over any sequence of posted tasks, cancellations
    and expiries: the runs of a task all have its interval, each is due at least
    an interval after the one before, so that by the time the clock shows [t] a
    periodic task first due at [t0] with interval [i] has run at most
    [1 + (t - t0) / i] times; and a task posted once runs at most once. *)
Theorem runs_are_spaced os id :
  Z.of_nat (length os) < 2 ^ 63 -> Forall timer_op_ok os ->
  exists s, run_timer_ops clock os timer_ctor = Ok s /\
    forall f l, runs_of id s = f :: l ->
      StronglySorted (fun f g => time_stamp_ f + repeat_interval_ f <= time_stamp_ g) (f :: l) /\
      Forall (fun g => repeat_interval_ g = repeat_interval_ f) l /\
      time_stamp_ f + repeat_interval_ f * zlen l <= clock (reads_ s) /\
      (repeat_interval_ f = 0 -> l = []).
Proof.
  intros Hn Hos. destruct (timer_ops_ok os 0 timer_ctor) as (s & fs & Hr & _ & _ & _ & _ & Hh);
    [apply timer_ctor_inv; lia|done|].
  exists s. split; [done|]. intros f l. eapply history_spaced, Hh, timer_ctor_history.
Qed.
End runs.

(** ** Witnesses *)

Lemma timer_never_oversleeps_witness :
  exists s, run_timer_ops demo_clock demo_timer_ops (timer_ctor : timer nat (sorted_units nat)) = Ok s /\
    armed demo_clock s /\ NoDup (ids (elems s)) /\
    (1 <= timer_id_start_ s ->
     exists s' fs, run_timer_ops demo_clock [TExpire; TExpire] (cancel 1 s) = Ok s' /\
       armed demo_clock s' /\ fired_ s' = fired_ s ++ fs /\ forall u, u ∈ fs -> timer_id_ u <> 1).
Proof.
  apply (timer_never_oversleeps demo_clock demo_clock_mono demo_clock_range).
  - simpl. lia.
  - repeat constructor; simpl; lia.
  - repeat constructor.
Defined.

(** As in [examples/timer_example.cpp]: a task every second, another every
    two seconds. *)
Definition demo_seconds (i : nat) : Z := Z.min (Z.of_nat i) 10 * 500000000.
Definition demo_periodic : list (timer_op nat) :=
  [TRepeat 1%nat 0%nat 1000; TRepeat 2%nat 0%nat 2000; TExpire; TExpire; TExpire; TExpire].

Lemma demo_seconds_mono i j : (i <= j)%nat -> demo_seconds i <= demo_seconds j.
Proof. unfold demo_seconds. lia. Qed.
Lemma demo_seconds_range i : 0 <= demo_seconds i < 2 ^ 62.
Proof. unfold demo_seconds. lia. Qed.

Lemma runs_are_spaced_witness :
  exists s, run_timer_ops demo_seconds demo_periodic (timer_ctor : timer nat (sorted_units nat)) = Ok s /\
    forall f l, runs_of 1 s = f :: l ->
      StronglySorted (fun f g => time_stamp_ f + repeat_interval_ f <= time_stamp_ g) (f :: l) /\
      Forall (fun g => repeat_interval_ g = repeat_interval_ f) l /\
      time_stamp_ f + repeat_interval_ f * zlen l <= demo_seconds (reads_ s) /\
      (repeat_interval_ f = 0 -> l = []).
Proof.
  apply (runs_are_spaced demo_seconds demo_seconds_mono demo_seconds_range demo_periodic 1).
  - simpl. lia.
  - repeat constructor; simpl; lia.
Defined.

Example demo_periodic_runs :
  match run_timer_ops demo_seconds demo_periodic (timer_ctor : timer nat (sorted_units nat)) with
  | Ok s => map cb_ (fired_ s) = [1; 1; 2; 1]%nat
  | _ => False
  end.
Proof. vm_compute. reflexivity. Qed.
