(* ===== verification/TimerServed.v ===== *)
(** * TimerServed: a timer and its callbacks on the threads of a loop

    [Timer] and [TimerRuns] run the tasks of [src/timer/timer.cpp] one after the
    other, each identifier handed out when its task runs.  Here a timer is on a
    loop of [Executors]: any thread takes an identifier from the atomic counter
    and posts an io task; the io thread queues units, cancels and expires, and
    hands due callbacks to the heavy thread, where each runs if its owner is
    alive, and may post and cancel tasks itself; all in any interleaving.  The
    counter gives no identifier twice before 2^64 - 1 calls ([timer_ids_cycle]),
    so the identifiers of the posted tasks are taken to be distinct. *)

From Stdlib Require Import Sorted.
From S2P Require Import Prelude Events LoopFd LoopIo LoopHeavy Channel Executors Timer TimerRuns.

(** What the timer is given: the tasks of its three public methods, with the
    identifier the caller took, and the event of its timerfd. *)
Inductive timer_input (F : Type) :=
| PostTask (repeat : bool) (cb : F) (owner : nat) (timeout_ms id : Z)
| CancelTask (id : Z)
| Expiry.
Arguments PostTask {F} repeat cb owner timeout_ms id.
Arguments CancelTask {F} id.
Arguments Expiry {F}.

Section on_loop.
Context {F Q : Type} `{TQ : TimerQueue F Q, TL : !TimerQueueLaws F Q} {W : Type}.
Variable (clock : nat -> Z).
Implicit Types (s : timer F Q) (u : timer_unit F) (i : timer_input F).

Definition run_input i s : res (timer F Q) :=
  match i with
  | PostTask repeat cb owner timeout_ms id => post_of clock repeat cb owner timeout_ms id s
  | CancelTask id => Ok (cancel id s)
  | Expiry => timer_cb clock s
  end.

(** With what it posts to the heavy executor. *)
Definition timer_step i s : res (timer F Q * list (timer_unit F)) :=
  s' ← run_input i s; Ok (s', drop (length (fired_ s)) (fired_ s')).

Definition is_expiry i : Prop := match i with Expiry => True | _ => False end.

(** The callbacks: what they do to the user's data, and the calls they make. *)
Variable (user_cb : F -> W -> res (W * list (timer_input F))) (w0 : W) (life : nat).

#[local] Instance timer_service : Service (timer F Q) (timer_input F) (timer_unit F) W := {|
  svc_init := timer_ctor;
  svc_world := w0;
  svc_step := timer_step;
  svc_event := is_expiry;
  svc_heavy u := user_cb (cb_ u);
  svc_owner := owner_
|}.

Definition task_ids (xs : list (timer_input F)) : list Z :=
  omap (fun i => match i with PostTask _ _ _ _ id => Some id | _ => None end) xs.

(** Timeouts the arithmetic is made for, and identifiers of one cycle. *)
Definition input_ok i : Prop :=
  match i with PostTask _ _ _ timeout_ms _ => 0 <= timeout_ms <= 2000000000000 | _ => True end.
Definition timer_inputs_ok (xs : list (timer_input F)) : Prop := Forall input_ok xs /\ NoDup (task_ids xs).

Lemma task_ids_app xs ys : task_ids (xs ++ ys) = task_ids xs ++ task_ids ys.
Proof. apply omap_app. Qed.

Hypothesis clock_mono : forall i j : nat, (i <= j)%nat -> clock i <= clock j.
Hypothesis clock_range : forall i : nat, 0 <= clock i < 2 ^ 62.

#[local] Abbreviation step_ok := (step_ok clock).
#[local] Abbreviation units_inv := (units_inv clock).

(** The unit was posted under its identifier with this callback, owner and
    interval. *)
Definition posted_as (xs : list (timer_input F)) u : Prop :=
  exists repeat ms, PostTask repeat (cb_ u) (owner_ u) ms (timer_id_ u) ∈ xs /\
    repeat_interval_ u = if repeat : bool then ms * 1000000 else 0.

(** One input, on everything that is kept of a run. *)
Definition input_step (xs : list (timer_input F)) (used used' : Z -> Prop) s s'
    (fs : list (timer_unit F)) : Prop :=
  step_ok used used' s s' fs /\
  (Forall (posted_as xs) (elems s) -> Forall (posted_as xs) (elems s') /\ Forall (posted_as xs) fs).

Lemma post_of_unit repeat cb owner ms id s s' :
  0 <= ms <= 2000000000000 -> post_of clock repeat cb owner ms id s = Ok s' ->
  exists t, elems s' ≡ₚ mk_unit cb owner t (if repeat then ms * 1000000 else 0) id :: elems s.
Proof.
  intros Hms H. unfold post_of, once_task, repeat_task in H. rewrite ms_to_ns_ok in H by done.
  destruct repeat; simpl in H; apply res_bind_Ok in H as (t & _ & [= <-]); exists t;
    match goal with |- context [push_unit clock ?u ?s0] => destruct (push_unit_same clock u s0) as
      (-> & _) end;
    done.
Qed.

Lemma expiry_posted_as xs now s s' fs rp :
  fire_spec clock now (delete_timer_ids_ s) (elems s) s s' fs rp -> Forall (posted_as xs) (elems s) ->
  Forall (posted_as xs) (elems s') /\ Forall (posted_as xs) fs.
Proof.
  intros Hsp He. assert (Hfs : Forall (posted_as xs) fs).
  { apply Forall_forall. intros u Hu. rewrite Forall_forall in He. apply He.
    eapply (fire_spec_fs clock); [exact Hsp|done]. }
  split; [|done]. destruct Hsp as [_ _ _ Hrest _ Hlater _ _ _]. rewrite Hrest. apply Forall_app. split.
  - apply Forall_forall. rewrite Forall_forall in He. intros u [_ Hu]%list_elem_of_filter. by apply He.
  - apply Forall_forall. intros v Hv. rewrite Forall_forall in Hlater, Hfs.
    destruct (Hlater v Hv) as (_ & u & Hu & _ & -> & _). destruct (Hfs u Hu) as (r & ms & Hin & Hi).
    by exists r, ms.
Qed.

Lemma step_weaken used used1 used2 s s' fs :
  (forall j, used1 j -> used2 j) -> step_ok used used1 s s' fs -> step_ok used used2 s s' fs.
Proof.
  intros Hle ([Hu Hn Hk Ha] & Hf & Hc & Hh). split_and!; [split; auto|done| |].
  - intros id [[Hid Hor] Hno]%Hc. split; [|done]. split; [by apply Hle|done].
  - intros [Hs Hq Hi Hp]%Hh. split; [done|done| |done]. intros f [Hf1 Hf2]%Hi. split; [by apply Hle|done].
Qed.

(** [all]: the inputs of the whole run. *)
Lemma run_input_ok all x s (used : Z -> Prop) :
  x ∈ all -> input_ok x -> units_inv used s -> (forall id, id ∈ task_ids [x] -> ~ used id) ->
  exists s' fs, run_input x s = Ok s' /\
    input_step all used (fun j => used j \/ j ∈ task_ids [x]) s s' fs.
Proof.
  intros Hall Hok Hi Hnew. set (used' := fun j => used j \/ j ∈ task_ids [x]).
  assert (Hle : forall j, used j -> used' j) by (by left).
  destruct x as [rpt cb owner ms id|id|]; simpl in *.
  - destruct (post_effect clock clock_mono clock_range used used' rpt cb owner ms id s)
      as (s' & Hr & He & _); [done|done|apply Hnew; set_solver|right; simpl; set_solver|].
    exists s', []. split; [done|]. split.
    + apply (effect_step clock clock_mono clock_range); [done|done|done|]. by eapply post_of_reads.
    + intros Hp. destruct (post_of_unit _ _ _ _ _ _ _ Hok Hr) as [t ->]. split; [|constructor].
      constructor; [|done]. by exists rpt, ms.
  - exists (cancel id s), []. split; [done|]. split; [|done].
    apply (effect_step clock clock_mono clock_range); [done|done|by eapply eff_cancel|done].
  - destruct Hi as [Hu Hnd Hk Ha].
    destruct (timer_cb_ok clock clock_mono clock_range s Hu Hnd) as (s' & fs & rp & Hr & Hsp).
    exists s', fs. split; [done|]. split.
    + apply (effect_step clock clock_mono clock_range); [done|by split|by eapply eff_expire|].
      by apply timer_cb_reads in Hr.
    + by apply (expiry_posted_as _ _ _ _ _ _ Hsp).
Qed.

Lemma timer_step_run x s s' fs :
  run_input x s = Ok s' -> fired_ s' = fired_ s ++ fs -> timer_step x s = Ok (s', fs).
Proof. intros H Hf. unfold timer_step. rewrite H. simpl. by rewrite Hf, drop_app_length. Qed.

Lemma run_inputs_ok all xs s (used : Z -> Prop) :
  Forall (.∈ all) xs -> Forall input_ok xs -> NoDup (task_ids xs) -> units_inv used s ->
  (forall id, id ∈ task_ids xs -> ~ used id) ->
  exists s' fs, run_all timer_step xs s = Ok (s', fs) /\
    input_step all used (fun j => used j \/ j ∈ task_ids xs) s s' fs.
Proof.
  revert s used. induction xs as [|x xs IH]; intros s used Hall Hok Hnd Hi Hnew.
  { exists s, []. split; [done|]. split; [|by split]. eapply step_weaken, step_refl, Hi. by left. }
  apply Forall_cons in Hall as [Hx Hall], Hok as [Hox Hok].
  change (x :: xs) with ([x] ++ xs) in *. rewrite task_ids_app in *.
  apply NoDup_app in Hnd as (_ & Hdis & Hnd).
  destruct (run_input_ok all x s used Hx Hox Hi) as (s1 & fs1 & Hr1 & Hst1 & Hp1);
    [intros id Hid; apply Hnew; set_solver|].
  destruct (IH s1 (fun j => used j \/ j ∈ task_ids [x])) as (s' & fs & Hr & Hst & Hp);
    [done|done|done|apply Hst1| |].
  { intros id Hid [Hu|Hu]; [apply (Hnew id); set_solver|by apply (Hdis id)]. }
  exists s', (fs1 ++ fs). split.
  - simpl. rewrite (timer_step_run x s s1 fs1) by (done || apply Hst1). simpl. by rewrite Hr.
  - split.
    + eapply step_weaken, step_trans; [|exact Hst1|exact Hst]. intros j. simpl. set_solver.
    + intros [He1 Hf1]%Hp1. destruct (Hp He1) as [He Hf]. split; [done|]. by apply Forall_app.
Qed.

(** From the constructor on. *)
Lemma timer_runs xs :
  timer_inputs_ok xs ->
  exists s, run_all timer_step xs timer_ctor = Ok (s, fired_ s) /\
    units_inv (.∈ task_ids xs) s /\ history clock (.∈ task_ids xs) s /\ Forall (posted_as xs) (fired_ s).
Proof.
  intros [Hok Hnd].
  destruct (run_inputs_ok xs xs timer_ctor (fun _ => False)) as (s & fs & Hr & Hst & Hp);
    [by apply Forall_forall|done|done|apply timer_ctor_units|intros ? _ []|].
  apply (step_weaken _ _ (.∈ task_ids xs)) in Hst; [|naive_solver].
  destruct Hst as (Hi & Hf & _ & Hh). simpl in Hf. subst fs. exists s. split_and!; [done|done| |].
  - apply Hh, timer_ctor_history.
  - apply Hp. assert (elems (timer_ctor : timer F Q) = []) as -> by apply q_empty_elems. constructor.
Qed.

(** Nothing fires under an identifier once its cancellation has run. *)
Lemma cancelled_stays l1 id l2 :
  timer_inputs_ok (l1 ++ CancelTask id :: l2) -> id ∈ task_ids l1 ->
  exists s1 s2 outs, run_all timer_step l1 timer_ctor = Ok (s1, fired_ s1) /\
    run_all timer_step (l1 ++ CancelTask id :: l2) timer_ctor = Ok (s2, fired_ s1 ++ outs) /\
    fired_ s2 = fired_ s1 ++ outs /\ Forall (fun u => timer_id_ u <> id) outs.
Proof.
  intros [[Hok1 [_ Hok2]%Forall_cons]%Forall_app Hnd] Hid.
  rewrite task_ids_app in Hnd. change (task_ids (CancelTask id :: l2)) with (task_ids l2) in Hnd.
  apply NoDup_app in Hnd as (Hnd1 & Hdis & Hnd2).
  destruct (timer_runs l1) as (s1 & Hr1 & Hi1 & _ & _); [done|].
  destruct (run_inputs_ok l2 l2 (cancel id s1) (.∈ task_ids l1)) as (s2 & outs & Hr2 & (_ & Hf & Hc &
    _) & _);
    [by apply Forall_forall|done|done|by destruct Hi1|set_solver|].
  simpl in Hf. exists s1, s2, outs. split_and!; [done| |done|].
  - rewrite run_all_app, Hr1. cbn [mbind res_bind fst snd run_all].
    rewrite (timer_step_run (CancelTask id) s1 (cancel id s1) []) by (simpl; by rewrite ?app_nil_r).
    cbn [mbind res_bind fst snd]. by rewrite Hr2.
  - apply Forall_forall. intros u Hu. apply (Hc id); [|done]. split; [done|]. left. simpl. set_solver.
Qed.

(** ** On the loop *)

(** The user's callbacks stay within defined behaviour for [limit] calls. *)
Variable (limit : Z).
Definition user_calls := run_all (fun u => user_cb (cb_ u)).
Hypothesis user_safe : forall us, zlen us < limit -> exists r, user_calls us w0 = Ok r.

Definition few_calls (xs : list (timer_input F)) : Prop :=
  forall s fs, run_all timer_step xs timer_ctor = Ok (s, fs) -> zlen fs < limit.

Lemma zlen_sublist {A} (l k : list A) : l `sublist_of` k -> zlen l <= zlen k.
Proof. intros H%sublist_length. unfold zlen. lia. Qed.

#[local] Instance timer_laws : ServiceLaws (St := timer F Q) (W := W).
Proof.
  refine {| inputs_ok xs := timer_inputs_ok xs /\ few_calls xs |}.
  - intros xs ys [[[Hxs Hys]%Forall_app Hnd] Hfew]. rewrite task_ids_app in Hnd.
    pose proof Hnd as (Hn & _ & _)%NoDup_app. split; [done|]. intros s fs Hr.
    destruct (timer_runs (xs ++ ys)) as (s' & Hr' & _); [split;
      [by apply Forall_app|by rewrite task_ids_app]|].
    pose proof (Hfew _ _ Hr') as Hl. rewrite run_all_app, Hr in Hr'. simpl in Hr'.
    apply res_bind_Ok in Hr' as ([s2 fs2] & _ & [= _ Hf]). rewrite <- Hf, zlen_app in Hl.
    pose proof (zlen_nonneg fs2). lia.
  - intros xs [Hxs _]. destruct (timer_runs xs Hxs) as (s & Hr & _). by eexists.
  - intros xs st os cs [_ Hfew] Hr [Hsub%zlen_sublist _]. apply user_safe.
    specialize (Hfew _ _ Hr). lia.
Defined.

Implicit Types (σ : sys (timer F Q) (timer_input F) (timer_unit F) W).

(** The runs of a task among the calls the heavy thread has made. *)
Definition calls_of (id : Z) σ : list (timer_unit F) := filter (fun u => timer_id_ u = id) (called σ).

Lemma posted_once xs u v :
  timer_inputs_ok xs -> posted_as xs u -> posted_as xs v -> timer_id_ u = timer_id_ v ->
  owner_ u = owner_ v /\ cb_ u = cb_ v.
Proof.
  intros [_ Hnd] (r1 & m1 & H1 & _) (r2 & m2 & H2 & _) He. rewrite He in H1. clear He.
  induction xs as [|x xs IH]; [by apply elem_of_nil in H1|].
  assert (Hin : forall r cb o m id, PostTask r cb o m id ∈ xs -> id ∈ task_ids xs).
  { intros r cb o m id H. apply list_elem_of_omap. by exists (PostTask r cb o m id). }
  apply elem_of_cons in H1, H2. destruct H1 as [<-|H1], H2 as [H2|H2]; [by simplify_eq| | |].
  - simpl in Hnd. apply NoDup_cons in Hnd as [Hn _]. destruct Hn. by eapply Hin.
  - subst x. simpl in Hnd. apply NoDup_cons in Hnd as [Hn _]. destruct Hn. by eapply Hin.
  - apply IH; [|done..]. change (x :: xs) with ([x] ++ xs) in Hnd. rewrite task_ids_app in Hnd.
    by apply NoDup_app in Hnd as (_ & _ & ?).
Qed.

(** The calls of one task are the first of its runs. *)
Lemma filter_prefix {A} (P : A -> Prop) `{!forall x, Decision (P x)} (l k : list A) :
  l `prefix_of` k -> filter P l `prefix_of` filter P k.
Proof. intros [r ->]. rewrite filter_app. by eexists. Qed.

Lemma filter_owner id k (l : list (timer_unit F)) :
  (forall u, u ∈ l -> timer_id_ u = id -> owner_ u = k) ->
  filter (fun u => timer_id_ u = id) l = filter (fun u => timer_id_ u = id) (of_owner k l).
Proof.
  intros Hl. induction l as [|u l IH]; [done|]. unfold of_owner in *. rewrite !filter_cons. simpl.
  assert (IH' := IH (fun v Hv => Hl v (list_elem_of_further _ _ _ Hv))).
  destruct (decide (timer_id_ u = id)) as [He|He], (decide (owner_ u = k)) as [Hk|Hk].
  - rewrite filter_cons_True by done. by f_equal.
  - destruct Hk. apply Hl; [constructor|done].
  - by rewrite filter_cons_False.
  - done.
Qed.

(** C16: a timer on a loop, under every interleaving of the threads that post and
    cancel, the kernel, the io and the heavy thread, as long as identifiers have
    not come round: its timerfd is armed for the earliest task; each call was
    posted under its identifier with that callback, owner and interval; the calls
    made for a task are the first of its runs; runs of one task are due at least
    its interval apart, none before its time, and a task posted once has one; once
    a cancellation has run on the io thread no further run of its task is posted,
    though one that was posted before may still be called on the heavy thread; no
    callback is called once its owner is dead; and no call leaves defined
    behaviour. *)
Theorem timer_served σ :
  let inputs := snd <$> log σ in
  reachable life σ -> timer_inputs_ok inputs ->
  armed clock (object σ) /\
  Forall (posted_as inputs) (called σ) /\
  (forall id, calls_of id σ `prefix_of` runs_of id (object σ)) /\
  (forall id f l, runs_of id (object σ) = f :: l ->
     StronglySorted (fun f g => time_stamp_ f + repeat_interval_ f <= time_stamp_ g) (f :: l) /\
     Forall (fun g => time_stamp_ g <= clock (reads_ (object σ))) (f :: l) /\
     (repeat_interval_ f = 0 -> l = [])) /\
  (forall l1 id l2, inputs = l1 ++ CancelTask id :: l2 -> id ∈ task_ids l1 ->
     exists s1, run_all timer_step l1 timer_ctor = Ok (s1, fired_ s1) /\
       runs_of id (object σ) = runs_of id s1) /\
  (forall k σ', k ∈ dead σ -> rtc (sys_step life) σ σ' -> of_owner k (called σ') = of_owner k (called σ)) /\
  (forall t n, few_calls inputs -> hv_at (shv σ) = HV_run n -> heavy_exe_queue_ (shv σ) !! n = Some t ->
     exists σ', run_heavy t n σ = Ok σ').
Proof.
  intros inputs Hr Hok.
  destruct (reachable_runs (SL := timer_laws) life σ Hr)
    as (outs & Hrun & _ & _ & [Hsub Hpre] & _ & Hheavy & Hfrozen).
  destruct (timer_runs inputs Hok) as (s & Hrun' & Hi & Hh & Hp).
  simpl in Hrun. fold inputs in Hrun. rewrite Hrun' in Hrun. simplify_eq.
  assert (Hpc : Forall (posted_as inputs) (called σ)).
  { by eapply Forall_sublist. }
  split_and!; [apply Hi|done| | | | |].
  - intros id. unfold calls_of, runs_of.
    destruct (filter (fun u => timer_id_ u = id) (called σ)) as [|v vs] eqn:Hv; [apply prefix_nil|].
    assert (Hvin : v ∈ called σ /\ timer_id_ v = id).
    { assert (v ∈ v :: vs) as Hin by constructor. rewrite <- Hv in Hin.
      apply list_elem_of_filter in Hin. tauto. }
    destruct Hvin as [Hvin Hvid]. rewrite Forall_forall in Hp, Hpc.
    assert (Hown : forall u, posted_as inputs u -> timer_id_ u = id -> owner_ u = owner_ v).
    { intros u Hu Hue. apply (posted_once inputs); [done|done|by apply Hpc|congruence]. }
    rewrite <- Hv, (filter_owner id (owner_ v) (called σ)) by auto.
    rewrite (filter_owner id (owner_ v) (fired_ (object σ))) by auto. by apply filter_prefix, Hpre.
  - intros id f l Hl. destruct (history_spaced clock _ _ _ _ _ Hh Hl) as (H1 & _ & _ & H4).
    split_and!; [done| |done]. rewrite <- Hl. apply Forall_forall.
    intros g [_ Hg]%list_elem_of_filter. by apply (hi_past _ _ _ Hh).
  - intros l1 id l2 Hl Hid. rewrite Hl in *.
    destruct (cancelled_stays l1 id l2 Hok Hid) as (s1 & s2 & os & Hr1 & Hr2 & Hf & Hno).
    rewrite Hrun' in Hr2. simplify_eq. exists s1. split; [done|]. unfold runs_of. rewrite Hf, filter_app.
    rewrite (filter_none (fun u => timer_id_ u = id) os); [by rewrite app_nil_r|].
    intros u Hu. rewrite Forall_forall in Hno. by apply Hno.
  - intros k σ' Hk Hs. by apply (fz_called _ _ _ (Hfrozen σ' Hs)).
  - intros t n Hfew Hat Ht. by eapply Hheavy.
Qed.
End on_loop.

(** ** The timer example

    [examples/timer_example.cpp]: two counters, which own the tasks that step and
    print them. *)

Module TimerExample.
Inductive lambda := RepeatTask | OnceTask.
#[export] Instance lambda_eq_dec : EqDecision lambda.
Proof. solve_decision. Defined.

(** [*A], [*B], and what is on the standard output. *)
Record counters := mk_counters { A : Z; B : Z; out : list Z }.

(** [++( *A )] and [--( *B )] on an [int]. *)
Definition repeat_task (w : counters) : res counters :=
  if A w =? 2 ^ 31 - 1 then Undef else Ok (mk_counters (A w + 1) (B w) (out w ++ [A w + 1])).
Definition once_task (w : counters) : res counters :=
  if B w =? - 2 ^ 31 then Undef else Ok (mk_counters (A w) (B w - 1) (out w ++ [B w - 1])).

Definition call (cb : lambda) (w : counters) : res (counters * list (timer_input lambda)) :=
  w' ← match cb with RepeatTask => repeat_task w | OnceTask => once_task w end; Ok (w', []).

Definition owner_A : nat := 1.
Definition owner_B : nat := 2.

(** What [main] posts; the counter gives 1, then 2. *)
Definition main_posts : list (timer_input lambda) :=
  [PostTask true RepeatTask owner_A 1000 (next_id 0);
   PostTask true OnceTask owner_B 2000 (next_id (next_id 0))].

Definition start : counters := mk_counters 0 0 [].

(** How often each task has been called. *)
Definition count (cb : lambda) (us : list (timer_unit lambda)) : Z :=
  zlen (filter (fun u => cb_ u = cb) us).

Lemma count_snoc cb us u : count cb (us ++ [u]) = count cb us + if decide (cb_ u = cb) then 1 else 0.
Proof.
  unfold count. rewrite filter_app, zlen_app, filter_cons. by destruct (decide _).
Qed.

Lemma count_bound cb us : 0 <= count cb us <= zlen us.
Proof.
  unfold count. split; [apply zlen_nonneg|]. unfold zlen.
  pose proof (length_filter (fun u => cb_ u = cb) us). lia.
Qed.

Lemma seqZ_snoc n : 0 <= n -> seqZ 1 (n + 1) = seqZ 1 n ++ [n + 1].
Proof. intros Hn. rewrite seqZ_app by lia. by rewrite (Z.add_comm n 1). Qed.

(** [A] counts up and [B] down, each printing every number once, as often as its
    task is called. *)
Lemma counts us :
  zlen us < 2 ^ 31 ->
  exists o, user_calls call us start = Ok (mk_counters (count RepeatTask us) (- count OnceTask us) o, []) /\
    filter (fun x => 0 < x) o = seqZ 1 (count RepeatTask us) /\
    filter (fun x => x < 0) o = Z.opp <$> seqZ 1 (count OnceTask us).
Proof.
  unfold user_calls. induction us as [|u us IH] using rev_ind; intros Hl; [by exists []|].
  rewrite zlen_app in Hl. change (zlen [u]) with 1 in Hl.
  destruct IH as (o & Hr & Ha & Hb); [lia|]. rewrite !count_snoc.
  pose proof (count_bound RepeatTask us). pose proof (count_bound OnceTask us).
  destruct (cb_ u) eqn:Hu.
  - exists (o ++ [count RepeatTask us + 1]). rewrite decide_True, decide_False by done. split_and!.
    + apply (run_all_snoc _ _ _ _ _ [] _ [] Hr). rewrite Hu. unfold call, repeat_task. cbn [A].
      destruct (Z.eqb_spec (count RepeatTask us) (2 ^ 31 - 1)); [lia|]. simpl. by rewrite Z.add_0_r.
    + rewrite filter_app, Ha, seqZ_snoc by lia. by rewrite filter_cons_True by lia.
    + rewrite filter_app, Hb, Z.add_0_r. rewrite filter_cons_False by lia. by rewrite app_nil_r.
  - exists (o ++ [- count OnceTask us - 1]). rewrite decide_False, decide_True by done. split_and!.
    + apply (run_all_snoc _ _ _ _ _ [] _ [] Hr). rewrite Hu. unfold call, once_task. cbn [B].
      destruct (Z.eqb_spec (- count OnceTask us) (- 2 ^ 31)); [lia|]. simpl. rewrite Z.add_0_r.
      by replace (- (count OnceTask us + 1)) with (- count OnceTask us - 1) by lia.
    + rewrite filter_app, Ha, Z.add_0_r. rewrite filter_cons_False by lia. by rewrite app_nil_r.
    + rewrite filter_app, Hb, seqZ_snoc, fmap_app by lia. rewrite filter_cons_True by lia.
      simpl. by replace (- (count OnceTask us + 1)) with (- count OnceTask us - 1) by lia.
Qed.

Lemma call_safe us : zlen us < 2 ^ 31 -> exists r, user_calls call us start = Ok r.
Proof. intros (o & H & _)%counts. by eexists. Qed.
End TimerExample.

(** On a loop: if only [main] posts, what is on the standard output are the
    numbers [A] and [B] went through, as far as the tasks have been called. *)
Lemma timer_example_prints {Q} `{TQ : TimerQueue TimerExample.lambda Q,
  TL : !TimerQueueLaws TimerExample.lambda Q}
    clock life (s : sys (timer TimerExample.lambda Q) (timer_input TimerExample.lambda)
      (timer_unit TimerExample.lambda) TimerExample.counters) :
  (forall i j : nat, (i <= j)%nat -> clock i <= clock j) -> (forall i : nat, 0 <= clock i < 2 ^ 62) ->
  reachable (SV := timer_service clock TimerExample.call TimerExample.start) life s ->
  zlen (called s) < 2 ^ 31 ->
  let n := TimerExample.count TimerExample.RepeatTask (called s) in
  let m := TimerExample.count TimerExample.OnceTask (called s) in
  TimerExample.A (world s) = n /\ TimerExample.B (world s) = - m /\
  filter (fun x => 0 < x) (TimerExample.out (world s)) = seqZ 1 n /\
  filter (fun x => x < 0) (TimerExample.out (world s)) = Z.opp <$> seqZ 1 m.
Proof.
  intros Hmono Hrange Hr Hl.
  destruct (reachable_runs (SL :=
    timer_laws clock TimerExample.call TimerExample.start Hmono Hrange (2 ^ 31)
    TimerExample.call_safe) life s Hr) as (outs & _ & _ & _ & _ & Hcall & _).
  destruct (TimerExample.counts _ Hl) as (o & Ho & HA & HB). simpl in Hcall. unfold user_calls in Ho.
  rewrite Ho in Hcall. injection Hcall as <- _. done.
Qed.

(** ** Witness *)

(** A clock that moves half a second at each of its first readings. *)
Definition demo_halves (i : nat) : Z := Z.min (Z.of_nat i) 100 * 500000000.

Lemma demo_halves_mono (i j : nat) : (i <= j)%nat -> demo_halves i <= demo_halves j.
Proof. unfold demo_halves. lia. Qed.
Lemma demo_halves_range (i : nat) : 0 <= demo_halves i < 2 ^ 62.
Proof. unfold demo_halves. lia. Qed.

Abbreviation demo_timer_service :=
  (timer_service (Q := sorted_units TimerExample.lambda) demo_halves TimerExample.call
     TimerExample.start).
Abbreviation demo_timer_sys :=
  (sys (timer TimerExample.lambda (sorted_units TimerExample.lambda)) (timer_input TimerExample.lambda)
     (timer_unit TimerExample.lambda) TimerExample.counters).

(** Both tasks of the example are posted; the timer expires four times; then task 1
    is cancelled, and the timer expires once more. *)
Definition demo_expiry : list (move (timer_input TimerExample.lambda)) :=
  [MEnter; MReportFd 9 1; MEvent [Expiry]].
Definition demo_timer_moves : list (move (timer_input TimerExample.lambda)) :=
  [MStart; HStart] ++ map (fun x => MPost (Own x)) TimerExample.main_posts ++
  [MWake; MEnter; MReportWake; MDrain; MSwap; MCall; MCall; MClear; MEnd] ++
  demo_expiry ++ [MFlushHeavy; MEnd] ++ demo_expiry ++ [MFlushHeavy; MFlushHeavy; MEnd] ++
  [HEnter; HLock; HPred; HSwap; HCall; HCall; HCall; HClear] ++
  demo_expiry ++ [MFlushHeavy; MEnd] ++
  [MPost (Own (CancelTask 1)); MWake; MEnter; MReportWake; MDrain; MSwap; MCall; MClear; MEnd] ++
  demo_expiry ++ [MFlushHeavy; MEnd; HEnter; HLock; HPred; HSwap; HCall; HCall].

Definition demo_timer_served : demo_timer_sys :=
  default (sys_init (SV := demo_timer_service)) (run_moves (SV := demo_timer_service) 0 demo_timer_moves
    (sys_init (SV := demo_timer_service))).

(** The task called [once_task] has run twice; task 1 has been cancelled after its
    third run. *)
Example demo_timer_called :
  TimerExample.out (world demo_timer_served) = [1; 2; -1; 3; -2] /\
  map timer_id_ (fired_ (object demo_timer_served)) = [1; 1; 2; 1; 2] /\
  (forall u, u ∈ elems (object demo_timer_served) -> timer_id_ u = 2).
Proof.
  assert (Forall (fun u => timer_id_ u = 2) (elems (object demo_timer_served))) as H
    by (vm_compute; by repeat constructor).
  rewrite Forall_forall in H. split; [vm_compute; done|split; [vm_compute; done|exact H]].
Qed.

Lemma demo_timer_served_reachable : reachable (SV := demo_timer_service) 0 demo_timer_served.
Proof.
  apply (run_moves_reach (SV := demo_timer_service)); [by repeat constructor|]. vm_compute. reflexivity.
Qed.

Lemma demo_timer_inputs :
  (snd <$> log demo_timer_served) =
    TimerExample.main_posts ++ [Expiry; Expiry; Expiry; CancelTask 1; Expiry].
Proof. vm_compute. reflexivity. Qed.

Lemma timer_served_witness :
  let inputs := snd <$> log demo_timer_served in
  armed demo_halves (object demo_timer_served) /\
  Forall (posted_as inputs) (called demo_timer_served) /\
  (forall id, calls_of id demo_timer_served `prefix_of` runs_of id (object demo_timer_served)) /\
  (forall id f l, runs_of id (object demo_timer_served) = f :: l ->
     StronglySorted (fun f g => time_stamp_ f + repeat_interval_ f <= time_stamp_ g) (f :: l) /\
     Forall (fun g => time_stamp_ g <= demo_halves (reads_ (object demo_timer_served))) (f :: l) /\
     (repeat_interval_ f = 0 -> l = [])) /\
  (forall l1 id l2, inputs = l1 ++ CancelTask id :: l2 -> id ∈ task_ids l1 ->
     exists s1, run_all (timer_step demo_halves) l1 timer_ctor = Ok (s1, fired_ s1) /\
       runs_of id (object demo_timer_served) = runs_of id s1) /\
  (forall k σ', k ∈ dead demo_timer_served ->
     rtc (sys_step (SV := demo_timer_service) 0) demo_timer_served σ' ->
     of_owner (SV := demo_timer_service) k (called σ') =
       of_owner (SV := demo_timer_service) k (called demo_timer_served)) /\
  (forall t n, few_calls (Q := sorted_units TimerExample.lambda) demo_halves (2 ^ 31) inputs ->
     hv_at (shv demo_timer_served) = HV_run n -> heavy_exe_queue_ (shv demo_timer_served) !! n = Some t ->
     exists σ', run_heavy (SV := demo_timer_service) t n demo_timer_served = Ok σ').
Proof.
  intros inputs.
  apply (timer_served demo_halves TimerExample.call TimerExample.start 0 demo_halves_mono demo_halves_range
    (2 ^ 31) TimerExample.call_safe demo_timer_served).
  - apply demo_timer_served_reachable.
  - rewrite demo_timer_inputs. split; [repeat constructor; simpl; lia|].
    apply (bool_decide_unpack (NoDup _)). vm_compute. done.
Defined.
