(* ===== verification/Factories.v ===== *)
(** * Factories: the channels the library makes, and their failures

    Models the [make_*_channel] functions of [src/net/inet.cpp] and the
    constructors that throw when one of them gives nothing.  The system calls
    are an instance of [SocketKernel].  A channel is built as soon as there is a
    descriptor, so that leaving the function destroys it. *)

From S2P Require Import Prelude Events Kernel LoopFd Channel InetAddr StreamIo.

Inductive sock_type := SOCK_DGRAM | SOCK_STREAM.
Inductive sock_option := IPV6_V6ONLY | SO_BROADCAST | SO_REUSEADDR.

(** [it_value] and [it_interval], seconds and nanoseconds. *)
Record itimerspec := mk_its { it_value : Z * Z; it_interval : Z * Z }.

Class SocketKernel (K : Type) := {
  (** [socket(family, type | SOCK_NONBLOCK | SOCK_CLOEXEC, 0)] *)
  sys_socket : K -> Z -> sock_type -> K * sock_ret Z;
  (** [setsockopt], always with the value 1 *)
  sys_setsockopt : K -> Z -> sock_option -> K * sysret;
  sys_bind : K -> Z -> list byte -> Z -> K * sysret;
  sys_listen : K -> Z -> K * sysret;
  timerfd_create : K -> K * sock_ret Z;
  timerfd_settime : K -> Z -> itimerspec -> K * sysret
}.

Class SocketLaws (K : Type) `{SocketKernel K} := {
  socket_fd k fam ty k' fd : sys_socket k fam ty = (k', Ret fd) -> 0 <= fd;
  timerfd_fd k k' fd : timerfd_create k = (k', Ret fd) -> 0 <= fd
}.

Section factories.
Context {K : Type} `{SK : SocketKernel K} {L F : Type}.
Variable (loop : L).

(** What a factory leaves: the kernel, its [std::optional], the tasks posted to
    the loop, the errno values logged. *)
Record made := mk_made {
  made_kernel : K;
  made_channel : option (channel L);
  made_posts : list (post L F);
  made_log : list Z
}.

(** [sys_error::error(); return std::nullopt;] before there is a channel *)
Definition no_channel (e : Z) (k : K) : made := mk_made k None [] [e].

(** A call that, when refused, makes the function return and the local [c] be
    destroyed. *)
Definition or_return (r : K * sysret) (c : channel L) (ps : list (post L F)) (next : K -> made) : made :=
  match r with
  | (k, Some e) => mk_made k None (ps ++ channel_dtor c) [e]
  | (k, None) => next k
  end.

(** [return c;]: the local is moved into the optional, then destroyed. *)
Definition return_channel (c : channel L) (ps : list (post L F)) (k : K) : made :=
  let '(ret, local) := move_ctor c in mk_made k (Some ret) (ps ++ channel_dtor local) [].

Definition family_of (addr : inet_addr) : Z := family addr.

(** [if (family == fam) setsockopt(...)] *)
Definition option_for (fam : Z) (opt : sock_option) (addr : inet_addr) (k : K) (fd : Z) : K * sysret :=
  if family_of addr =? fam then sys_setsockopt k fd opt else (k, None).

Definition make_dgram_channel (addr : inet_addr) (k : K) : made :=
  match sys_socket k (family_of addr) SOCK_DGRAM with
  | (k1, Err e) => no_channel e k1
  | (k1, Ret fd) =>
      let '(c, ps) := channel_ctor loop fd in
      or_return (option_for AF_INET6 IPV6_V6ONLY addr k1 fd) c ps (fun k2 =>
      or_return (option_for AF_INET SO_BROADCAST addr k2 fd) c ps (fun k3 =>
      or_return (sys_bind k3 fd (get_sockaddr addr) (get_socklen addr)) c ps (return_channel c ps)))
  end.

(** [errno] is what the failed [accept] left. *)
Definition make_stream_session_channel (errno fd : Z) (k : K) : made :=
  if fd =? -1 then no_channel errno k
  else let '(c, ps) := channel_ctor loop fd in return_channel c ps k.

Definition make_stream_server_channel (addr : inet_addr) (k : K) : made :=
  match sys_socket k (family_of addr) SOCK_STREAM with
  | (k1, Err e) => no_channel e k1
  | (k1, Ret fd) =>
      let '(c, ps) := channel_ctor loop fd in
      or_return (sys_setsockopt k1 fd SO_REUSEADDR) c ps (fun k2 =>
      or_return (option_for AF_INET6 IPV6_V6ONLY addr k2 fd) c ps (fun k3 =>
      or_return (sys_bind k3 fd (get_sockaddr addr) (get_socklen addr)) c ps (fun k4 =>
      or_return (sys_listen k4 fd) c ps (return_channel c ps))))
  end.

Definition make_stream_client_channel (addr : inet_addr) (k : K) : made :=
  match sys_socket k (family_of addr) SOCK_STREAM with
  | (k1, Err e) => no_channel e k1
  | (k1, Ret fd) =>
      let '(c, ps) := channel_ctor loop fd in
      or_return (option_for AF_INET6 IPV6_V6ONLY addr k1 fd) c ps (fun k2 =>
      or_return (sys_bind k2 fd (get_sockaddr addr) (get_socklen addr)) c ps (return_channel c ps))
  end.

(** Milliseconds as seconds and nanoseconds. *)
Definition split_ms (ms : Z) : Z * Z := (i64 (ms / 1000), (ms mod 1000) * 1000000).

Definition make_timer_channel (timeout_ms repeat_ms : Z) (k : K) : made :=
  match timerfd_create k with
  | (k1, Err e) => no_channel e k1
  | (k1, Ret fd) =>
      let '(c, ps) := channel_ctor loop fd in
      if timeout_ms =? 0 then return_channel c ps k1
      else
        let ts := mk_its (split_ms timeout_ms) (if repeat_ms =? 0 then (0, 0) else split_ms repeat_ms) in
        or_return (timerfd_settime k1 fd ts) c ps (return_channel c ps)
  end.

(** [Timer]'s own factory, in [src/timer/timer.cpp]. *)
Definition make_plain_timer_channel (k : K) : made :=
  match timerfd_create k with
  | (k1, Err e) => no_channel e k1
  | (k1, Ret fd) => let '(c, ps) := channel_ctor loop fd in return_channel c ps k1
  end.

(** [StreamClientSocket()]: the socket, then the timer; when the second factory
    fails, the exception destroys the member already built. *)
Definition client_channels (local : inet_addr) (k : K)
    : K * option (channel L * channel L) * list (post L F) * list Z :=
  let m := make_stream_client_channel local k in
  match made_channel m with
  | None => (made_kernel m, None, made_posts m, made_log m)
  | Some c =>
      let t := make_timer_channel 0 0 (made_kernel m) in
      match made_channel t with
      | None => (made_kernel t, None, made_posts m ++ made_posts t ++ channel_dtor c,
        made_log m ++ made_log t)
      | Some tc => (made_kernel t, Some (c, tc), made_posts m ++ made_posts t, made_log m ++ made_log t)
      end
  end.

(** The factories by name, for what they have in common. *)
Inductive factory :=
| FDgram (addr : inet_addr)
| FSession (errno fd : Z)
| FServer (addr : inet_addr)
| FClient (addr : inet_addr)
| FTimer (timeout_ms repeat_ms : Z)
| FPlainTimer.

Definition run_factory (f : factory) : K -> made :=
  match f with
  | FDgram addr => make_dgram_channel addr
  | FSession errno fd => make_stream_session_channel errno fd
  | FServer addr => make_stream_server_channel addr
  | FClient addr => make_stream_client_channel addr
  | FTimer timeout_ms repeat_ms => make_timer_channel timeout_ms repeat_ms
  | FPlainTimer => make_plain_timer_channel
  end.
End factories.
Arguments made : clear implicits.

(** ** No descriptor is leaked *)

Section facts.
Context {K : Type} `{SK : SocketKernel K, SL : !SocketLaws K} {L F : Type}.
Variable (loop : L).
Implicit Types (m : made K L F).

(** Either a channel that owns a registered descriptor, or nothing: then what
    was registered has been unregistered, and one error was logged. *)
Definition clean_made m : Prop :=
  match made_channel m with
  | Some c => exists fd, 0 <= fd /\ valid c = Some loop /\ get_fd c = fd /\
      made_posts m = [PostFd loop (TRegister fd)] /\ made_log m = []
  | None => (made_posts m = [] \/ exists fd, 0 <= fd /\
        made_posts m = [PostFd loop (TRegister fd); PostFd loop (TUnregister fd)]) /\
      exists e, made_log m = [e]
  end.

Definition new_channel (fd : Z) : channel L :=
  mk_channel (Some loop) fd EventType.kDefault EventMode.kDefault.

Lemma valid_new fd : 0 <= fd -> valid (new_channel fd) = Some loop.
Proof. intros H. unfold valid, new_channel. simpl. by destruct (Z.eqb_spec fd (-1)); [lia|]. Qed.

Lemma return_channel_clean fd (k : K) :
  0 <= fd -> clean_made (return_channel (new_channel fd) [PostFd loop (TRegister fd)] k).
Proof.
  intros H. pose proof (valid_new fd H) as Hv. unfold clean_made, return_channel. simpl.
  exists fd. unfold get_fd. change (mk_channel (Some loop) fd EventType.kDefault EventMode.kDefault)
    with (new_channel fd). rewrite Hv. by split_and!.
Qed.

Lemma or_return_clean (r : K * sysret) fd (next : K -> made K L F) :
  0 <= fd -> (forall k, clean_made (next k)) ->
  clean_made (or_return r (new_channel fd) [PostFd loop (TRegister fd)] next).
Proof.
  intros H Hn. destruct r as [k [e|]]; simpl; [|done]. unfold clean_made, channel_dtor. simpl.
  rewrite valid_new by done. split; [right; by exists fd|by exists e].
Qed.

Lemma no_channel_clean e (k : K) : clean_made (no_channel e k).
Proof. unfold clean_made. simpl. split; [by left|by exists e]. Qed.

Hint Resolve return_channel_clean or_return_clean no_channel_clean : factory.

Definition factory_ok (f : factory) : Prop :=
  match f with FSession _ fd => -1 <= fd | _ => True end.

Lemma run_factory_clean f (k : K) : factory_ok f -> clean_made (run_factory (F := F) loop f k).
Proof.
  destruct f as [addr|errno fd|addr|addr|t r|]; simpl; intros Hok.
  - unfold make_dgram_channel. destruct (sys_socket _ _ _) as [k1 [fd|e]] eqn:E; [|apply no_channel_clean].
    apply socket_fd in E. simpl. fold (new_channel fd). auto 10 with factory.
  - unfold make_stream_session_channel. destruct (Z.eqb_spec fd (-1)); [apply no_channel_clean|].
    simpl. fold (new_channel fd). apply return_channel_clean. lia.
  - unfold make_stream_server_channel.
    destruct (sys_socket _ _ _) as [k1 [fd|e]] eqn:E; [|apply no_channel_clean].
    apply socket_fd in E. simpl. fold (new_channel fd). auto 10 with factory.
  - unfold make_stream_client_channel.
    destruct (sys_socket _ _ _) as [k1 [fd|e]] eqn:E; [|apply no_channel_clean].
    apply socket_fd in E. simpl. fold (new_channel fd). auto 10 with factory.
  - unfold make_timer_channel. destruct (timerfd_create k) as [k1 [fd|e]] eqn:E; [|apply no_channel_clean].
    apply timerfd_fd in E. simpl. fold (new_channel fd). destruct (t =? 0); auto with factory.
  - unfold make_plain_timer_channel.
    destruct (timerfd_create k) as [k1 [fd|e]] eqn:E; [|apply no_channel_clean].
    apply timerfd_fd in E. simpl. fold (new_channel fd). auto with factory.
Qed.

(** C32: whatever the system calls answer, a factory gives a channel that owns a
    registered descriptor, or nothing: then the descriptor it had opened, if
    any, has been given back to the loop for closing, and exactly one error was
    logged.  The same holds of the two channels of a stream client, whose
    constructor throws: after a failure every descriptor registered has been
    unregistered. *)
Theorem factories_leak_nothing f local (k : K) :
  factory_ok f ->
  clean_made (run_factory (F := F) loop f k) /\
  let '(_, r, ps, log) := client_channels (F := F) loop local k in
  match r with
  | Some (c, t) => exists fd tfd, valid c = Some loop /\ get_fd c = fd /\ valid t = Some loop /\
      get_fd t = tfd /\ ps = [PostFd loop (TRegister fd); PostFd loop (TRegister tfd)] /\ log = []
  | None => (forall fd, PostFd loop (TRegister fd) ∈ ps <-> PostFd loop (TUnregister fd) ∈ ps) /\
      exists e, log = [e]
  end.
Proof.
  intros Hf. split; [by apply run_factory_clean|]. unfold client_channels.
  pose proof (run_factory_clean (FClient local) k I) as Hc. unfold clean_made in Hc. simpl in Hc.
  destruct (made_channel (make_stream_client_channel loop local k)) as [c|]; cycle 1.
  { destruct Hc as [[-> | (fd & _ & ->)] He]; (split; [|done]); intros fd'; set_solver. }
  destruct Hc as (fd & Hfd & Hv & Hg & Hps & Hlog).
  pose proof (run_factory_clean (FTimer 0 0) (made_kernel (make_stream_client_channel (F :=
    F) loop local k)) I)
    as Ht. unfold clean_made in Ht. simpl in Ht. rewrite Hps, Hlog.
  destruct (made_channel (make_timer_channel _ _ _ _)) as [t|].
  - destruct Ht as (tfd & _ & Hvt & Hgt & -> & ->). by exists fd, tfd.
  - assert (channel_dtor (F := F) c = [PostFd loop (TUnregister fd)]) as ->.
    { unfold channel_dtor. rewrite Hv. unfold get_fd in Hg. rewrite Hv in Hg. by rewrite Hg. }
    destruct Ht as [[-> | (tfd & _ & ->)] He]; (split; [|done]); intros fd'; set_solver.
Qed.
End facts.

(** ** A concrete kernel: the next free descriptor, and a port in use *)

Definition EADDRINUSE : Z := 98.
Definition demo_local : inet_addr := demo_addr (make_ipv4 loopback4 8080).
Definition demo_taken : inet_addr := demo_addr (make_ipv4 loopback4 80).

#[export] Instance demo_sockets : SocketKernel nat := {
  sys_socket k _ _ := (S k, Ret (Z.of_nat k));
  sys_setsockopt k _ _ := (k, None);
  sys_bind k _ a _ := (k, if get16 offset_port a =? htons 80 then Some EADDRINUSE else None);
  sys_listen k _ := (k, None);
  timerfd_create k := (S k, Ret (Z.of_nat k));
  timerfd_settime k _ _ := (k, None)
}.

#[export] Instance demo_socket_laws : SocketLaws nat.
Proof. split; simpl; [intros ? ? ? ? ? [= <- <-]|intros ? ? ? [= <- <-]]; lia. Qed.

Example demo_bind_refused :
  let m := make_stream_server_channel (F := nat) 5%nat demo_taken 7%nat in
  (made_channel m, made_posts m, made_log m) =
  (None, [PostFd 5%nat (TRegister 7); PostFd 5%nat (TUnregister 7)], [EADDRINUSE]).
Proof. reflexivity. Qed.

Lemma factories_leak_nothing_witness :
  clean_made 5%nat (run_factory (F := nat) 5%nat (FSession 11 9) 7%nat) /\
  let '(_, r, ps, log) := client_channels (F := nat) 5%nat demo_local 7%nat in
  match r with
  | Some (c, t) => exists fd tfd, valid c = Some 5%nat /\ get_fd c = fd /\ valid t = Some 5%nat /\
      get_fd t = tfd /\ ps = [PostFd 5%nat (TRegister fd); PostFd 5%nat (TRegister tfd)] /\ log = []
  | None => (forall fd, PostFd 5%nat (TRegister fd) ∈ ps <-> PostFd 5%nat (TUnregister fd) ∈ ps) /\
      exists e, log = [e]
  end.
Proof. apply (factories_leak_nothing 5%nat (FSession 11 9)). simpl. lia. Defined.
