(* ===== verification/Dgram.v ===== *)
(** * Dgram: datagram sockets

    Models [dgram_send] and [dgram_recv] of [src/net/inet.cpp] and
    [include/kzevent/net/inet.hpp], and [DgramSocket]: its epoll callback,
    [start], [stop], [post_send_task] and [post_heavy_task].  The socket calls
    are an instance of [DgramKernel]; its ghost view is the queue of received
    datagrams of a descriptor.  The class derived from [DgramSocket] is an
    instance of [DgramHandler]. *)

From S2P Require Import Prelude Events LoopFd Channel InetAddr StreamIo.

(** A received datagram: its bytes and the source the kernel writes, memory of
    a [sockaddr_storage] and its length. *)
Definition datagram : Type := list byte * (list byte * Z).

Class DgramKernel (K : Type) := {
  (** [recvfrom(fd, buf, cap, 0, &source_addr, &source_len)] *)
  sock_recvfrom : K -> Z -> Z -> K * sock_ret datagram;
  (** [sendto(fd, data, size, 0, addr, len)] *)
  sock_sendto : K -> Z -> list byte -> list byte -> Z -> K * sock_ret Z;
  (** [getsockopt(fd, SOL_SOCKET, SO_ERROR)], which also clears it *)
  dgram_so_error : K -> Z -> K * Z;
  queued : K -> Z -> list datagram
}.

Class DgramLaws (K : Type) `{DgramKernel K} := {
  (** a datagram is taken whole from the queue, and cut to the buffer *)
  recvfrom_ret k fd cap k' d src :
    sock_recvfrom k fd cap = (k', Ret (d, src)) ->
    exists d0, queued k fd = (d0, src) :: queued k' fd /\ d = ztake cap d0;
  recvfrom_err k fd cap k' e :
    sock_recvfrom k fd cap = (k', Err e) ->
    queued k' fd = queued k fd /\ (e = EAGAIN -> queued k fd = []);
  dgram_so_error_queue k fd k' e :
    dgram_so_error k fd = (k', e) -> queued k' fd = queued k fd
}.

(** The virtual [on_read] and [on_error]. *)
Class DgramHandler (U : Type) := {
  on_read : list byte -> inet_addr -> U -> U;
  on_dgram_error : Z -> U -> U
}.

Definition kMaxUdpPacketSize : Z := 65535.

Section dgram.
Context {K : Type} `{DK : DgramKernel K} {L F U : Type} `{DH : DgramHandler U}.

(** [dgram_posts] is what the socket handed to its loop, [syslog_] the errno
    values given to [sys_error::error()]. *)
Record dgram := mk_dgram {
  dkern : K;
  dgram_channel_ : channel L;
  started_ : bool;
  derived : U;
  dgram_posts : list (post L F);
  syslog_ : list Z
}.

Definition with_kern (k : K) (s : dgram) : dgram :=
  mk_dgram k (dgram_channel_ s) (started_ s) (derived s) (dgram_posts s) (syslog_ s).
Definition with_derived (u : U) (s : dgram) : dgram :=
  mk_dgram (dkern s) (dgram_channel_ s) (started_ s) u (dgram_posts s) (syslog_ s).
Definition with_started (b : bool) (s : dgram) : dgram :=
  mk_dgram (dkern s) (dgram_channel_ s) b (derived s) (dgram_posts s) (syslog_ s).
Definition with_posts (c : channel L) (ps : list (post L F)) (s : dgram) : dgram :=
  mk_dgram (dkern s) c (started_ s) (derived s) (dgram_posts s ++ ps) (syslog_ s).
Definition sys_error_ (e : Z) (s : dgram) : dgram :=
  mk_dgram (dkern s) (dgram_channel_ s) (started_ s) (derived s) (dgram_posts s) (syslog_ s ++ [e]).

Definition dgram_fd (s : dgram) : Z := get_fd (dgram_channel_ s).

(** [dgram_recv(channel, buf)]: the pair it returns and what is in [buf]. *)
Definition dgram_recv (s : dgram) : dgram * (Z * option inet_addr) * list byte :=
  match sock_recvfrom (dkern s) (dgram_fd s) kMaxUdpPacketSize with
  | (k, Err e) =>
      let s1 := with_kern k s in
      (if e =? EAGAIN then s1 else sys_error_ e s1, (-1, None), [])
  | (k, Ret (d, (source_addr, source_len))) =>
      (with_kern k s, (zlen d, make_from_sockaddr (Some source_addr) source_len), d)
  end.

(** [dgram_send(channel, data, addr)] *)
Definition dgram_send (data : list byte) (addr : inet_addr) (s : dgram) : dgram :=
  match sock_sendto (dkern s) (dgram_fd s) data (get_sockaddr addr) (get_socklen addr) with
  | (k, Err e) => let s1 := with_kern k s in if e =? EAGAIN then s1 else sys_error_ e s1
  | (k, Ret _) => with_kern k s
  end.

(** The reading loop. *)
Fixpoint dgram_loop (fuel : nat) (s : dgram) : res dgram :=
  match fuel with
  | O => Undef
  | S fuel' =>
      let '(s1, (len, source_addr), recv_buf) := dgram_recv s in
      match source_addr with
      | None => Ok s1
      | Some a => dgram_loop fuel' (with_derived (on_read (ztake len recv_buf) a (derived s1)) s1)
      end
  end.

(** The callback [start] installs. *)
Definition dgram_cb (types : Z) (s : dgram) : res dgram :=
  s1 ← (if has types EventType.kRead
        then dgram_loop (S (length (queued (dkern s) (dgram_fd s)))) s else Ok s);
  if has types EventType.kError then
    let '(k, err) := dgram_so_error (dkern s1) (dgram_fd s1) in
    let s2 := with_kern k s1 in
    if err =? 0 then Ok s2 else Ok (with_derived (on_dgram_error err (derived s2)) s2)
  else Ok s1.

Definition dgram_start (life : nat) (cb : F) (s : dgram) : dgram :=
  if started_ s then s
  else
    let '(c, ps) := update_event_cb life (EventType.kRead ||| EventType.kError) EventMode.kDefault cb
                      (dgram_channel_ s) in
    with_posts c ps (with_started true s).

Definition dgram_stop (s : dgram) : dgram :=
  let s1 := with_started false s in
  with_posts (dgram_channel_ s1) (disable_event (dgram_channel_ s1)) s1.

(** [post_send_task] and [post_heavy_task], whose tasks are [F]s. *)
Definition dgram_post_send (life : nat) (task : F) (s : dgram) : dgram :=
  with_posts (dgram_channel_ s) (post_io_task life task (dgram_channel_ s)) s.
Definition dgram_post_heavy (life : nat) (task : F) (s : dgram) : dgram :=
  with_posts (dgram_channel_ s) (post_heavy_task life task (dgram_channel_ s)) s.

(** A socket as the constructor leaves it, on the descriptor of its factory. *)
Definition dgram_ctor (loop : L) (fd : Z) (k : K) (u : U) : dgram :=
  let '(c, ps) := channel_ctor loop fd in mk_dgram k c false u ps [].
End dgram.
Arguments dgram : clear implicits.

(** ** What the callback does with the queue *)

Section facts.
Context {K : Type} `{DK : DgramKernel K, DL : !DgramLaws K} {L F U : Type} `{DH : DgramHandler U}.
Implicit Types (s : dgram K L F U) (u : U).

(** The source of a datagram, as [on_read] gets it. *)
Definition source_of (d : datagram) : option inet_addr := make_from_sockaddr (Some d.2.1) d.2.2.

(** One call of [on_read] for one datagram. *)
Definition deliver u (d : datagram) : U :=
  match source_of d with Some a => on_read (ztake kMaxUdpPacketSize d.1) a u | None => u end.

(** How the reading loop ends: the queue is empty, or a system error was
    logged, or the datagram on top has a source it cannot read, and is lost. *)
Record drained s s' (taken : list datagram) : Prop := {
  dr_read : Forall (fun d => source_of d <> None) taken;
  dr_end : exists rest, queued (dkern s) (dgram_fd s) = taken ++ rest /\
    (rest = [] /\ queued (dkern s') (dgram_fd s) = [] /\ (syslog_ s' = syslog_ s) \/
     rest = queued (dkern s') (dgram_fd s) /\ (exists e, syslog_ s' = syslog_ s ++ [e]) \/
     (exists d, rest = d :: queued (dkern s') (dgram_fd s) /\ source_of d = None /\
        syslog_ s' = syslog_ s));
  dr_user : derived s' = foldl deliver (derived s) taken;
  dr_rest : dgram_channel_ s' = dgram_channel_ s /\ started_ s' = started_ s /\
    dgram_posts s' = dgram_posts s
}.

Lemma dgram_loop_ok fuel s :
  (length (queued (dkern s) (dgram_fd s)) < fuel)%nat ->
  exists s' taken, dgram_loop fuel s = Ok s' /\ drained s s' taken.
Proof.
  revert s. induction fuel as [|fuel IH]; intros s Hf; [lia|]. simpl. unfold dgram_recv.
  destruct (sock_recvfrom (dkern s) (dgram_fd s) kMaxUdpPacketSize) as [k [[d [m n]]|e]] eqn:Hr.
  - apply recvfrom_ret in Hr as (d0 & Hq & ->).
    destruct (make_from_sockaddr (Some m) n) as [a|] eqn:Ha.
    + set (s1 := with_derived _ _).
      assert (dgram_fd s1 = dgram_fd s) as Hfd by done.
      destruct (IH s1) as (s' & taken & Hl & [Hrd (rest & Hq1 & Hend) Hu Hrest]).
      { rewrite Hfd. simpl. rewrite Hq in Hf. simpl in Hf. lia. }
      rewrite Hfd in *. simpl in Hq1. exists s', ((d0, (m, n)) :: taken). split; [done|]. split.
      * constructor; [|done]. unfold source_of. cbn [fst snd]. by rewrite Ha.
      * exists rest. rewrite Hq, Hq1. split; [done|]. exact Hend.
      * rewrite Hu. cbn [foldl]. f_equal. unfold deliver, source_of. cbn [fst snd].
        rewrite Ha. simpl. by rewrite ztake_all by lia.
      * done.
    + eexists _, []. split; [done|]. split; [constructor| |done|done].
      exists (queued (dkern s) (dgram_fd s)). split; [done|]. right; right.
      exists (d0, (m, n)). by rewrite Hq.
  - apply recvfrom_err in Hr as [Hq He]. destruct (Z.eqb_spec e EAGAIN) as [->|Hne].
    + eexists _, []. split; [done|]. split; [constructor| |done|done].
      exists []. rewrite He by done. split; [done|]. left. simpl. by rewrite Hq, He.
    + eexists _, []. split; [done|]. split; [constructor| |done|done].
      exists (queued (dkern s) (dgram_fd s)). split; [done|]. right; left. simpl.
      split; [done|]. by exists e.
Qed.

Lemma dgram_cb_ok types s :
  has types EventType.kRead = true ->
  exists s1 s' taken, drained s s1 taken /\ dgram_cb types s = Ok s' /\
    let err := (dgram_so_error (dkern s1) (dgram_fd s)).2 in
    if has types EventType.kError && negb (err =? 0)
    then derived s' = on_dgram_error err (derived s1) else derived s' = derived s1.
Proof.
  intros Hr. unfold dgram_cb. rewrite Hr.
  destruct (dgram_loop_ok (S (length (queued (dkern s) (dgram_fd s)))) s) as (s1 & taken & -> & Hd);
    [lia|]. simpl.
  assert (dgram_fd s1 = dgram_fd s) as Hfd.
  { unfold dgram_fd. by destruct Hd as [_ _ _ (-> & _)]. }
  destruct (has types EventType.kError); [|by exists s1, s1, taken].
  rewrite Hfd. destruct (dgram_so_error (dkern s1) (dgram_fd s)) as [k err] eqn:He. simpl.
  exists s1. destruct (err =? 0) eqn:Hz; eexists _, taken;
    (split; [exact Hd|]); (split; [reflexivity|]); by rewrite He; simpl; rewrite Hz.
Qed.

(** C28: the callback of a datagram socket, when it is readable: it terminates,
    and hands the datagrams of the queue to [on_read], each once, in order,
    unbroken, with the address of their sender.  It stops only when the queue is
    empty, after a system error it logged, or at a datagram whose sender it
    cannot read, which is lost, with the rest left in the queue.  An error event
    is then reported if and only if SO_ERROR is set. *)
Theorem dgram_cb_drains types s :
  has types EventType.kRead = true ->
  exists s1 s' taken, drained s s1 taken /\ dgram_cb types s = Ok s' /\
    let err := (dgram_so_error (dkern s1) (dgram_fd s)).2 in
    if has types EventType.kError && negb (err =? 0)
    then derived s' = on_dgram_error err (derived s1) else derived s' = derived s1.
Proof. apply dgram_cb_ok. Qed.
End facts.

(** ** A concrete kernel *)

Record demo_dgram := mk_demo_dgram {
  arrived : list datagram;
  departed : list (list byte * list byte);
  soft_error : Z
}.

#[export] Instance demo_dgram_kernel : DgramKernel demo_dgram := {
  sock_recvfrom k _ cap :=
    match arrived k with
    | [] => (k, Err EAGAIN)
    | (d, src) :: ds => (mk_demo_dgram ds (departed k) (soft_error k), Ret (ztake cap d, src))
    end;
  sock_sendto k _ d a n :=
    (mk_demo_dgram (arrived k) (departed k ++ [(d, ztake n a)]) (soft_error k), Ret (zlen d));
  dgram_so_error k _ := (mk_demo_dgram (arrived k) (departed k) 0, soft_error k);
  queued k _ := arrived k
}.

#[export] Instance demo_dgram_laws : DgramLaws demo_dgram.
Proof.
  split; simpl.
  - intros k _ cap k' d src H. destruct (arrived k) as [|[d0 src0] ds]; simplify_eq. by exists d0.
  - intros k _ cap k' e H. destruct (arrived k) as [|[d0 src0] ds] eqn:E; simplify_eq. by rewrite E.
  - by intros k _ k' e [= <- <-].
Qed.

(** The datagrams of an IPv4 peer, and a handler that records what it gets. *)
Definition demo_peer4 : list byte * Z := (le16 AF_INET ++ le16 (htons 53) ++ [127; 0; 0; 1], 16).
Definition demo_nobody : list byte * Z := ([], 0).

#[export] Instance recorder : DgramHandler (list (list byte)) := {
  on_read d _ u := u ++ [d];
  on_dgram_error e u := u ++ [[e]]
}.

Definition demo_dgram_socket (k : demo_dgram) : dgram demo_dgram nat nat (list (list byte)) :=
  dgram_start 0%nat 0%nat (dgram_ctor 5%nat 7 k []).

Example demo_dgram_read :
  match dgram_cb (EventType.kRead ||| EventType.kError)
      (demo_dgram_socket (mk_demo_dgram [([1; 2], demo_peer4); ([3], demo_peer4); ([4], demo_nobody);
                                         ([5], demo_peer4)] [] ECONNREFUSED)) with
  | Ok s => (derived s, arrived (dkern s))
  | _ => ([], [])
  end = ([[1; 2]; [3]; [ECONNREFUSED]], [([5], demo_peer4)]).
Proof. vm_compute. reflexivity. Qed.

Lemma dgram_cb_drains_witness :
  let s := demo_dgram_socket (mk_demo_dgram [([1; 2], demo_peer4)] [] 0) in
  exists s1 s' taken, drained s s1 taken /\ dgram_cb EventType.kRead s = Ok s' /\
    let err := (dgram_so_error (dkern s1) (dgram_fd s)).2 in
    if has EventType.kRead EventType.kError && negb (err =? 0)
    then derived s' = on_dgram_error err (derived s1) else derived s' = derived s1.
Proof. intros s. apply dgram_cb_drains. reflexivity. Defined.
