(* ===== verification/Multicast.v ===== *)
(** * Multicast: the groups of a datagram socket

    Models [DgramSocket::joint_group] and [leave_group] of [src/net/inet.cpp].
    The memberships of a socket are kernel state: [setsockopt] is an instance of
    [GroupKernel], whose ghost view is the set of requests in force on a
    descriptor, each with its level. *)

From S2P Require Import Prelude Events Kernel LoopFd Channel InetAddr StreamIo Dgram.

Definition IPPROTO_IP : Z := 0.
Definition IPPROTO_IPV6 : Z := 41.
Definition IP_ADD_MEMBERSHIP : Z := 35.
Definition IP_DROP_MEMBERSHIP : Z := 36.
Definition IPV6_JOIN_GROUP : Z := 20.
Definition IPV6_LEAVE_GROUP : Z := 21.

(** A membership: the level, and the bytes of the [ip_mreq] or [ipv6_mreq]. *)
Definition membership : Type := Z * list byte.

Class GroupKernel (K : Type) := {
  (** [setsockopt(fd, level, option, &group_addr, sizeof(group_addr))] *)
  set_group : K -> Z -> Z -> Z -> list byte -> K * sysret;
  members : K -> Z -> gset membership
}.

(** The two options of a level that change the memberships: [true] joins. *)
Definition group_option (level : Z) (join : bool) : Z :=
  if level =? IPPROTO_IP then if join then IP_ADD_MEMBERSHIP else IP_DROP_MEMBERSHIP
  else if join then IPV6_JOIN_GROUP else IPV6_LEAVE_GROUP.

Definition group_size (level : Z) : Z := if level =? IPPROTO_IP then 8 else 20.

Definition change (join : bool) (m : membership) (ms : gset membership) : gset membership :=
  if join then {[m]} ∪ ms else ms ∖ {[m]}.

Class GroupLaws (K : Type) `{GroupKernel K} := {
  (** ip(7), ipv6(7): a granted request changes the memberships of its socket *)
  group_ok k fd level join mreq k' :
    level = IPPROTO_IP \/ level = IPPROTO_IPV6 -> zlen mreq = group_size level ->
    set_group k fd level (group_option level join) mreq = (k', None) ->
    members k' fd = change join (level, mreq) (members k fd) /\
    (forall fd', fd' <> fd -> members k' fd' = members k fd');
  group_err k fd level opt mreq k' e :
    set_group k fd level opt mreq = (k', Some e) -> forall fd', members k' fd' = members k fd'
}.

(** What becomes of a call; [Refused] and [Unsupported] are logged. *)
Inductive group_outcome := Granted | Refused (err : Z) | Unsupported.

Section multicast.
Context {K : Type} `{GK : GroupKernel K} {L F U : Type}.
Implicit Types (s : dgram K L F U) (addr : inet_addr).

Definition INADDR_ANY : Z := 0.

(** [imr_multiaddr], then [imr_interface] in network order. *)
Definition ip_mreq addr : list byte :=
  slice offset_addr4 (offset_addr4 + 4) (addr_storage_ addr) ++ le32 INADDR_ANY.

(** [ipv6mr_multiaddr], then [ipv6mr_interface]. *)
Definition ipv6_mreq addr : list byte :=
  slice offset_addr6 (offset_addr6 + 16) (addr_storage_ addr) ++ le32 0.

(** The [setsockopt] both functions make, and [sys_error::error()]. *)
Definition group_call (level option : Z) (mreq : list byte) s : dgram K L F U * group_outcome :=
  match set_group (dkern s) (dgram_fd s) level option mreq with
  | (k, Some e) => (sys_error_ e (with_kern k s), Refused e)
  | (k, None) => (with_kern k s, Granted)
  end.

Definition joint_group addr s : dgram K L F U * group_outcome :=
  let sa_family := family addr in
  if sa_family =? AF_INET then group_call IPPROTO_IP IP_ADD_MEMBERSHIP (ip_mreq addr) s
  else if sa_family =? AF_INET6 then group_call IPPROTO_IPV6 IPV6_JOIN_GROUP (ipv6_mreq addr) s
  else (s, Unsupported).

Definition leave_group addr s : dgram K L F U * group_outcome :=
  let sa_family := family addr in
  if sa_family =? AF_INET then group_call IPPROTO_IP IP_DROP_MEMBERSHIP (ip_mreq addr) s
  else if sa_family =? AF_INET6 then group_call IPPROTO_IPV6 IPV6_LEAVE_GROUP (ipv6_mreq addr) s
  else (s, Unsupported).

(** A call of one or the other. *)
Definition group_op : Type := bool * inet_addr.

Definition run_group (o : group_op) s : dgram K L F U * group_outcome :=
  if o.1 then joint_group o.2 s else leave_group o.2 s.

Fixpoint run_groups (os : list group_op) s : dgram K L F U * list group_outcome :=
  match os with
  | [] => (s, [])
  | o :: os' =>
      let r := run_group o s in
      let r' := run_groups os' r.1 in
      (r'.1, r.2 :: r'.2)
  end.
End multicast.

(** ** Specification *)

(** The membership an address asks for, on any interface. *)
Definition group_of (addr : inet_addr) : option membership :=
  if family addr =? AF_INET then Some (IPPROTO_IP, ip_mreq addr)
  else if family addr =? AF_INET6 then Some (IPPROTO_IPV6, ipv6_mreq addr)
  else None.

(** The memberships after a call, given what became of it. *)
Definition spec_group (o : group_op) (out : group_outcome) (ms : gset membership) : gset membership :=
  match group_of o.2, out with
  | Some m, Granted => change o.1 m ms
  | _, _ => ms
  end.

Definition spec_groups (os : list group_op) (outs : list group_outcome) (ms : gset membership) :=
  foldl (fun ms x => spec_group x.1 x.2 ms) ms (zip os outs).

Definition refusals (outs : list group_outcome) : list Z :=
  omap (fun out => match out with Refused e => Some e | _ => None end) outs.

Section facts.
Context {K : Type} `{GK : GroupKernel K, GL : !GroupLaws K} {L F U : Type}.
Implicit Types (s : dgram K L F U) (addr : inet_addr) (o : group_op).

(** An address with a whole storage. *)
Definition whole addr : Prop := zlen (addr_storage_ addr) = sizeof_storage.

Lemma slice_whole addr i j :
  whole addr -> 0 <= i -> i <= j <= sizeof_storage -> zlen (slice i j (addr_storage_ addr)) = j - i.
Proof. intros Hw Hi Hj. unfold slice. rewrite zlen_take, zlen_drop, Hw. lia. Qed.

(** The two functions, through [group_of]. *)
Lemma run_group_of o s :
  run_group o s =
    match group_of o.2 with
    | Some (level, mreq) => group_call level (group_option level o.1) mreq s
    | None => (s, Unsupported)
    end.
Proof.
  unfold run_group, joint_group, leave_group, group_of.
  destruct o as [[|] addr]; simpl; destruct (family addr =? AF_INET), (family addr =? AF_INET6); done.
Qed.

Lemma group_of_shape addr level mreq :
  whole addr -> group_of addr = Some (level, mreq) ->
  (level = IPPROTO_IP \/ level = IPPROTO_IPV6) /\ zlen mreq = group_size level.
Proof.
  intros Hw. unfold group_of, ip_mreq, ipv6_mreq, offset_addr4, offset_addr6.
  destruct (_ =? AF_INET); [|destruct (_ =? AF_INET6); [|done]]; intros [= <- <-];
    (split; [by (left + right)|]); rewrite zlen_app, slice_whole; done.
Qed.

(** What a call leaves alone. *)
Definition same_socket s s' : Prop :=
  dgram_channel_ s' = dgram_channel_ s /\ started_ s' = started_ s /\ derived s' = derived s /\
  dgram_posts s' = dgram_posts s.

Lemma run_group_ok o s :
  whole o.2 ->
  let '(s', out) := run_group o s in
  same_socket s s' /\
  members (dkern s') (dgram_fd s) = spec_group o out (members (dkern s) (dgram_fd s)) /\
  (forall fd, fd <> dgram_fd s -> members (dkern s') fd = members (dkern s) fd) /\
  syslog_ s' = syslog_ s ++ refusals [out] /\ (out = Unsupported <-> group_of o.2 = None).
Proof.
  intros Hw. rewrite run_group_of. unfold spec_group.
  destruct (group_of o.2) as [[level mreq]|] eqn:Hg; cycle 1.
  { simpl. by rewrite app_nil_r. }
  destruct (group_of_shape _ _ _ Hw Hg) as [Hl Hz]. unfold group_call.
  destruct (set_group (dkern s) (dgram_fd s) level (group_option level o.1) mreq) as [k [e|]] eqn:E.
  - pose proof (group_err _ _ _ _ _ _ _ E) as Hs. by split_and!.
  - destruct (group_ok _ _ _ _ _ _ Hl Hz E) as [Hm Ho]. split_and!; try done. simpl. by rewrite app_nil_r.
Qed.

(** C40: the groups of a datagram socket follow the calls: over any sequence of
    [joint_group] and [leave_group], the memberships the kernel has for the
    socket are those the granted calls ask for, by address family, on any
    interface; a refused call is logged with its errno and changes nothing, an
    address of another family is not given to the kernel; neither other sockets
    nor the rest of this one are touched. *)
Theorem groups_follow_calls os s :
  Forall (fun o : group_op => whole o.2) os ->
  let '(s', outs) := run_groups os s in
  members (dkern s') (dgram_fd s) = spec_groups os outs (members (dkern s) (dgram_fd s)) /\
  (forall fd, fd <> dgram_fd s -> members (dkern s') fd = members (dkern s) fd) /\
  syslog_ s' = syslog_ s ++ refusals outs /\ same_socket s s' /\
  Forall2 (fun o out => out = Unsupported <-> group_of o.2 = None) os outs.
Proof.
  intros Hos. revert s. induction Hos as [|o os Ho _ IH]; intros s; cbn [run_groups].
  { unfold spec_groups. simpl. by rewrite app_nil_r. }
  pose proof (run_group_ok o s Ho) as H1. destruct (run_group o s) as [s1 out].
  destruct H1 as (Hsame & Hm & Hoth & Hlog & Hun). specialize (IH s1).
  cbv zeta. cbn [fst snd]. destruct (run_groups os s1) as [s2 outs].
  destruct IH as (Hm2 & Hoth2 & Hlog2 & Hsame2 & Hf).
  assert (dgram_fd s1 = dgram_fd s) as Hfd by (unfold dgram_fd; by destruct Hsame as (-> & _)).
  rewrite Hfd in *. cbn [fst snd]. split_and!.
  - rewrite Hm2, Hm. done.
  - intros fd Hne. by rewrite Hoth2, Hoth.
  - rewrite Hlog2, Hlog, <- app_assoc. f_equal. by destruct out.
  - destruct Hsame as (? & ? & ? & ?), Hsame2 as (? & ? & ? & ?). split_and!; congruence.
  - by constructor.
Qed.
End facts.

(** ** A concrete kernel *)

Record demo_groups := mk_demo_groups { joined : gmap Z (gset membership); refuse : bool }.

#[export] Instance demo_group_kernel : GroupKernel demo_groups := {
  set_group k fd level opt mreq :=
    if refuse k then (mk_demo_groups (joined k) false, Some ENOENT)
    else
      let join := (opt =? IP_ADD_MEMBERSHIP) || (opt =? IPV6_JOIN_GROUP) in
      (mk_demo_groups (<[fd := change join (level, mreq) (default ∅ (joined k !! fd))]> (joined k)) false,
       None);
  members k fd := default ∅ (joined k !! fd)
}.

#[export] Instance demo_group_laws : GroupLaws demo_groups.
Proof.
  split; simpl.
  - intros k fd level join mreq k' Hl _ H. destruct (refuse k); simplify_eq/=.
    assert ((group_option level join =? IP_ADD_MEMBERSHIP) ||
      (group_option level join =? IPV6_JOIN_GROUP) = join) as ->.
    { destruct Hl as [-> | ->], join; done. }
    split; [by rewrite lookup_insert_eq|]. intros. by rewrite lookup_insert_ne.
  - intros k fd level opt mreq k' e H. by destruct (refuse k); simplify_eq/=.
Qed.

Definition demo_group4 : inet_addr := demo_addr (make_ipv4 loopback4 0).
Definition demo_group6 : inet_addr := demo_addr (make_ipv6 loopback6 0 0).

(** The first call is refused; the last address has no groups. *)
Definition demo_group_ops : list group_op :=
  [(true, demo_group4); (true, demo_group4); (true, demo_group6); (false, demo_group4);
   (true, demo_addr (make_unix demo_path))].

Definition demo_group_socket : dgram demo_groups nat nat unit :=
  dgram_ctor 5%nat 7 (mk_demo_groups ∅ true) ().

Example demo_groups_run :
  (run_groups demo_group_ops demo_group_socket).2 = [Refused ENOENT; Granted; Granted; Granted;
    Unsupported].
Proof. vm_compute. reflexivity. Qed.

Lemma groups_follow_calls_witness :
  let s := demo_group_socket in
  let '(s', outs) := run_groups demo_group_ops s in
  members (dkern s') (dgram_fd s) = spec_groups demo_group_ops outs (members (dkern s) (dgram_fd s)) /\
  (forall fd, fd <> dgram_fd s -> members (dkern s') fd = members (dkern s) fd) /\
  syslog_ s' = syslog_ s ++ refusals outs /\ same_socket s s' /\
  Forall2 (fun o out => out = Unsupported <-> group_of o.2 = None) demo_group_ops outs.
Proof.
  exact (groups_follow_calls demo_group_ops demo_group_socket
    ltac:(repeat constructor; vm_compute; reflexivity)).
Defined.
