(* ===== verification/Udp.v ===== *)
(** * Udp: nodes, clients and the session table of a server

    Models [src/net/udp_socket.cpp] and [include/kzevent/net/udp_socket.hpp]:
    what the three classes derived from [DgramSocket] do with a datagram, and
    the sessions of [UdpServer], made by datagrams and dropped by the scan of
    its timer.  [clock n] is the [n]-th reading of the steady clock, in
    nanoseconds; the calls of the user's functions are posted to the heavy
    executor, recorded as [heavy_call]s. *)

From S2P Require Import Prelude Events LoopFd Channel InetAddr StreamIo Timer Dgram Factories.

Inductive heavy_call :=
| CallNode (data : list byte) (source : inet_addr)
| CallClient (data : list byte)
| CallNewSession (session : nat) (data : list byte)
| CallRead (session : nat) (data : list byte).

(** ** UdpNode and UdpClient *)

(** [true]: a callback is registered. *)
Record udp_node := mk_node {
  node_read_cb_ : bool;
  node_posted : list heavy_call
}.

Definition node_on_read (data : list byte) (source : inet_addr) (s : udp_node) : udp_node :=
  if node_read_cb_ s then mk_node true (node_posted s ++ [CallNode data source]) else s.

(** [node_on_error] only logs. *)
#[export] Instance node_handler : DgramHandler udp_node := {
  on_read := node_on_read;
  on_dgram_error _ s := s
}.

Record udp_client := mk_udp_client {
  client_read_cb_ : bool;
  client_error_cb_ : bool;
  source_ : inet_addr;
  client_posted : list heavy_call;
  (** how often [error_cb_] was called, on the io thread *)
  refused : nat
}.

Definition client_on_read (data : list byte) (source : inet_addr) (s : udp_client) : udp_client :=
  if negb (client_read_cb_ s) then s
  else if addr_ne source (source_ s) then s
  else mk_udp_client (client_read_cb_ s) (client_error_cb_ s) (source_ s)
         (client_posted s ++ [CallClient data]) (refused s).

Definition client_on_error (err : Z) (s : udp_client) : udp_client :=
  if negb (client_error_cb_ s) then s
  else if err =? ECONNREFUSED
  then mk_udp_client (client_read_cb_ s) (client_error_cb_ s) (source_ s) (client_posted s)
         (S (refused s))
  else s.

#[export] Instance client_handler : DgramHandler udp_client := {
  on_read := client_on_read;
  on_dgram_error := client_on_error
}.

(** ** UdpServer *)

Definition kMinScanIntervalMs : Z := 100.
Definition kMaxScanIntervalMs : Z := 10000.
Definition kScanFrequencyDivisor : Z := 10.

(** The period of the scan, from the constructor. *)
Definition scan_time (session_timeout_ms : Z) : Z :=
  let t := session_timeout_ms / kScanFrequencyDivisor in
  if t <? kMinScanIntervalMs then kMinScanIntervalMs
  else if kMaxScanIntervalMs <? t then kMaxScanIntervalMs
  else t.

Record udp_session := mk_session {
  sess_id : nat;
  sess_source : inet_addr;
  time_stamp_ : Z
}.

(** [sessions_] is an [unordered_map]: pairs in no relevant order. *)
Record udp_server := mk_udp_server {
  new_session_cb_ : bool;
  read_cb_ : bool;
  sessions_ : list (inet_addr * udp_session);
  session_timeout_ms_ : Z;
  made : nat;
  clock_reads : nat;
  posted : list heavy_call
}.

Definition udp_server_ctor (session_timeout_ms : Z) : udp_server :=
  mk_udp_server false false [] session_timeout_ms 0 0 [].

Definition set_new_session_cb (b : bool) (s : udp_server) : udp_server :=
  mk_udp_server b (read_cb_ s) (sessions_ s) (session_timeout_ms_ s) (made s) (clock_reads s) (posted s).
Definition set_read_cb (b : bool) (s : udp_server) : udp_server :=
  mk_udp_server (new_session_cb_ s) b (sessions_ s) (session_timeout_ms_ s) (made s) (clock_reads s)
    (posted s).

(** [sessions_.find(source)] *)
Fixpoint find_session (source : inet_addr) (l : list (inet_addr * udp_session)) : option udp_session :=
  match l with
  | [] => None
  | (a, x) :: l' => if addr_eq a source then Some x else find_session source l'
  end.

(** [it->second->time_stamp_ = now] *)
Fixpoint touch (source : inet_addr) (now : Z) (l : list (inet_addr * udp_session))
    : list (inet_addr * udp_session) :=
  match l with
  | [] => []
  | (a, x) :: l' =>
      if addr_eq a source then (a, mk_session (sess_id x) (sess_source x) now) :: l'
      else (a, x) :: touch source now l'
  end.

Section server.
Variable (clock : nat -> Z).

Definition server_on_read (data : list byte) (source : inet_addr) (s : udp_server) : udp_server :=
  if negb (read_cb_ s) && negb (new_session_cb_ s) then s
  else
    let now := clock (clock_reads s) in
    match find_session source (sessions_ s) with
    | None =>
        let new_session := mk_session (made s) source now in
        mk_udp_server (new_session_cb_ s) (read_cb_ s) (sessions_ s ++ [(source, new_session)])
          (session_timeout_ms_ s) (S (made s)) (S (clock_reads s))
          (posted s ++ [if new_session_cb_ s then CallNewSession (made s) data
                        else CallRead (made s) data])
    | Some x =>
        if negb (read_cb_ s) then s
        else
          mk_udp_server (new_session_cb_ s) (read_cb_ s) (touch source now (sessions_ s))
            (session_timeout_ms_ s) (made s) (S (clock_reads s))
            (posted s ++ [CallRead (sess_id x) data])
    end.

(** The loop of the timer callback: the iterator visits every session. *)
Fixpoint scan_sessions (now session_timeout_ms : Z) (l : list (inet_addr * udp_session))
    : res (list (inet_addr * udp_session)) :=
  match l with
  | [] => Ok []
  | (a, x) :: l' =>
      duration ← add_ns now (- time_stamp_ x);
      limit ← ms_to_ns session_timeout_ms;
      if limit <? duration then scan_sessions now session_timeout_ms l'
      else r ← scan_sessions now session_timeout_ms l'; Ok ((a, x) :: r)
  end.

(** The callback of the scan timer, after the reads that drain the timerfd: they
    end with EAGAIN, the only error documented for them. *)
Definition scan_cb (s : udp_server) : res udp_server :=
  l ← scan_sessions (clock (clock_reads s)) (session_timeout_ms_ s) (sessions_ s);
  Ok (mk_udp_server (new_session_cb_ s) (read_cb_ s) l (session_timeout_ms_ s) (made s)
        (S (clock_reads s)) (posted s)).

Inductive udp_op :=
| URead (data : list byte) (source : inet_addr)
| UScan
| USetNew (b : bool)
| USetRead (b : bool).

Definition run_udp_op (o : udp_op) (s : udp_server) : res udp_server :=
  match o with
  | URead data source => Ok (server_on_read data source s)
  | UScan => scan_cb s
  | USetNew b => Ok (set_new_session_cb b s)
  | USetRead b => Ok (set_read_cb b s)
  end.

Fixpoint run_udp_ops (os : list udp_op) (s : udp_server) : res udp_server :=
  match os with
  | [] => Ok s
  | o :: os' => s1 ← run_udp_op o s; run_udp_ops os' s1
  end.

(** [on_error] of the server only logs. *)
#[export] Instance server_handler : DgramHandler udp_server := {
  on_read := server_on_read;
  on_dgram_error _ s := s
}.

(** ** The specification: a map from endpoints to session and last reception *)

Definition endpoint : Type := Z * Z * list Z.

Record table := mk_table {
  entries : gmap endpoint (nat * Z);
  t_new : bool;
  t_read : bool;
  t_made : nat;
  t_reads : nat;
  t_posted : list heavy_call
}.

Definition spec_read (k : endpoint) (data : list byte) (t : table) : table :=
  let now := clock (t_reads t) in
  match entries t !! k with
  | None =>
      if t_new t || t_read t then
        mk_table (<[k := (t_made t, now)]> (entries t)) (t_new t) (t_read t) (S (t_made t))
          (S (t_reads t))
          (t_posted t ++ [if t_new t then CallNewSession (t_made t) data else CallRead (t_made t) data])
      else t
  | Some (id, _) =>
      if t_read t then
        mk_table (<[k := (id, now)]> (entries t)) (t_new t) (t_read t) (t_made t) (S (t_reads t))
          (t_posted t ++ [CallRead id data])
      else t
  end.

Definition spec_scan (limit : Z) (t : table) : table :=
  mk_table (filter (fun e => clock (t_reads t) - e.2.2 <= limit) (entries t)) (t_new t) (t_read t)
    (t_made t) (S (t_reads t)) (t_posted t).

Definition spec_op (limit : Z) (o : udp_op) (t : table) : table :=
  match o with
  | URead data source => match addr_key source with Some k => spec_read k data t | None => t end
  | UScan => spec_scan limit t
  | USetNew b => mk_table (entries t) b (t_read t) (t_made t) (t_reads t) (t_posted t)
  | USetRead b => mk_table (entries t) (t_new t) b (t_made t) (t_reads t) (t_posted t)
  end.
End server.

(** ** The sockets *)

(** The tests the three factories start with. *)
Definition udp_family_ok (local : inet_addr) : bool :=
  negb (negb (family local =? AF_INET) && negb (family local =? AF_INET6)).
Definition make_udp_client_ok (local source : inet_addr) : bool :=
  udp_family_ok local && (family local =? family source).
Definition make_udp_server_ok (local : inet_addr) (session_timeout_ms : Z) : bool :=
  udp_family_ok local && negb (session_timeout_ms =? 0).

Section socket.
Context {K L F : Type}.

(** A [UdpServer]: its base, the timer of its scan and its own flag. *)
Record udp_socket := mk_udp_socket {
  base_ : dgram K L F udp_server;
  timer_channel_ : channel L;
  scan_started_ : bool
}.

Definition udp_start (life : nat) (cb scan : F) (s : udp_socket) : udp_socket :=
  let b := dgram_start life cb (base_ s) in
  if scan_started_ s then mk_udp_socket b (timer_channel_ s) true
  else
    let '(c, ps) := update_event_cb life EventType.kRead EventMode.kDefault scan (timer_channel_ s) in
    mk_udp_socket (with_posts (dgram_channel_ b) ps b) c true.

Definition udp_stop (s : udp_socket) : udp_socket :=
  let b := dgram_stop (base_ s) in
  mk_udp_socket (with_posts (dgram_channel_ b) (disable_event (timer_channel_ s)) b) (timer_channel_
    s) false.

(** [UdpSession::post_send_task]: [task] sends to the session's source. *)
Definition udp_session_send (server_alive : bool) (life : nat) (task : inet_addr -> F) (x : udp_session)
    (s : udp_socket) : udp_socket :=
  if negb server_alive then s
  else mk_udp_socket (dgram_post_send life (task (sess_source x)) (base_ s)) (timer_channel_ s)
         (scan_started_ s).

(** [~UdpServer()] and its members, then [~DgramSocket()] and its channel. *)
Definition udp_dtor (s : udp_socket) : list (post L F) :=
  disable_event (timer_channel_ s) ++ channel_dtor (timer_channel_ s) ++
  disable_event (dgram_channel_ (base_ s)) ++ channel_dtor (dgram_channel_ (base_ s)).

(** [make_udp_server]: nothing when a test fails; an exception ([None] again)
    when a factory fails, which destroys the base already built; else the
    started server. *)
Definition make_udp_server `{SocketKernel K} (loop : L) (life : nat) (cb scan : F) (local : inet_addr)
    (session_timeout_ms : Z) (k : K) : K * option udp_socket * list (post L F) :=
  if negb (make_udp_server_ok local session_timeout_ms) then (k, None, [])
  else
    let m := make_dgram_channel loop local k in
    match made_channel m with
    | None => (made_kernel m, None, made_posts m)
    | Some c =>
        let period := scan_time session_timeout_ms in
        let t := make_timer_channel loop period period (made_kernel m) in
        match made_channel t with
        | None => (made_kernel t, None, made_posts m ++ made_posts t ++ disable_event c ++ channel_dtor c)
        | Some tc =>
            let b := mk_dgram (made_kernel t) c false (udp_server_ctor session_timeout_ms)
                       (made_posts m ++ made_posts t) [] in
            let s := udp_start life cb scan (mk_udp_socket b tc false) in
            (made_kernel t, Some s, dgram_posts (base_ s))
        end
    end.
End socket.

Arguments endpoint : simpl never.

(** ** Refinement *)

Section refinement.
Variable (clock : nat -> Z).
Hypothesis clock_mono : forall i j, (i <= j)%nat -> clock i <= clock j.
Hypothesis clock_range : forall i, 0 <= clock i < 2 ^ 62.
Implicit Types (s : udp_server) (l : list (inet_addr * udp_session)) (k : endpoint).

Definition key_of (a : inet_addr) : endpoint := default (0, 0, []) (addr_key a).

Definition entry_of (e : inet_addr * udp_session) : endpoint * (nat * Z) :=
  (key_of e.1, (sess_id e.2, time_stamp_ e.2)).

Definition entries_of l : gmap endpoint (nat * Z) := list_to_map (entry_of <$> l).

Lemma entries_of_cons a x l :
  entries_of ((a, x) :: l) = <[key_of a := (sess_id x, time_stamp_ x)]> (entries_of l).
Proof. done. Qed.

Definition table_of s : table :=
  mk_table (entries_of (sessions_ s)) (new_session_cb_ s) (read_cb_ s) (made s) (clock_reads s) (posted s).

(** One session for each endpoint, which replies to it, with a number of its
    own and a time stamp that was read from the clock. *)
Record sessions_ok (n reads : nat) l : Prop := {
  so_keys : NoDup (key_of <$> l.*1);
  so_named : Forall (fun e => addr_key e.1 <> None /\ sess_source e.2 = e.1) l;
  so_ids : NoDup (sess_id <$> l.*2) /\ Forall (fun e => (sess_id e.2 < n)%nat) l;
  so_times : Forall (fun e => 0 <= time_stamp_ e.2 <= clock reads) l
}.

Definition server_ok s : Prop := sessions_ok (made s) (clock_reads s) (sessions_ s).

Lemma addr_eq_named a b k :
  addr_key a <> None -> addr_key b = Some k -> addr_eq a b = bool_decide (key_of a = k).
Proof.
  intros Ha Hb. apply eq_true_iff_eq. rewrite addr_eq_key, bool_decide_eq_true. unfold key_of.
  destruct (addr_key a) as [ka|]; [|done]. simpl. rewrite Hb. naive_solver.
Qed.

Lemma find_session_spec source k l :
  addr_key source = Some k -> Forall (fun e => addr_key e.1 <> None /\ sess_source e.2 = e.1) l ->
  entries_of l !! k = (fun x => (sess_id x, time_stamp_ x)) <$> find_session source l.
Proof.
  intros Hk. induction 1 as [|[a x] l [Ha _] _ IH]; [done|]. rewrite entries_of_cons. simpl in *.
  rewrite (addr_eq_named _ _ _ Ha Hk). case_bool_decide as He.
  - by rewrite He, lookup_insert_eq.
  - by rewrite lookup_insert_ne.
Qed.

Lemma touch_fst source now l : (touch source now l).*1 = l.*1.
Proof.
  induction l as [|[a x] l IH]; [done|]. simpl. destruct (addr_eq a source); csimpl; [done|].
  by f_equal.
Qed.

Lemma touch_ids source now l : sess_id <$> (touch source now l).*2 = sess_id <$> l.*2.
Proof.
  induction l as [|[a x] l IH]; [done|]. simpl. destruct (addr_eq a source); csimpl; [done|].
  by f_equal.
Qed.

Lemma touch_spec source k now l x :
  addr_key source = Some k -> Forall (fun e => addr_key e.1 <> None /\ sess_source e.2 = e.1) l ->
  find_session source l = Some x ->
  entries_of (touch source now l) = <[k := (sess_id x, now)]> (entries_of l).
Proof.
  intros Hk. induction 1 as [|[a y] l [Ha _] _ IH]; [done|]. simpl in *.
  rewrite (addr_eq_named _ _ _ Ha Hk). case_bool_decide as He; intros Hf.
  - simplify_eq. rewrite !entries_of_cons. simpl. by rewrite insert_insert_eq.
  - rewrite !entries_of_cons, (IH Hf). by rewrite insert_insert_ne.
Qed.

Lemma Forall_touch (P : inet_addr * udp_session -> Prop) source now l :
  (forall a x, P (a, x) -> P (a, mk_session (sess_id x) (sess_source x) now)) ->
  Forall P l -> Forall P (touch source now l).
Proof.
  intros Hp. induction 1 as [|[a x] l Ha Hl IH]; [constructor|]. simpl.
  destruct (addr_eq a source); constructor; auto.
Qed.

Lemma find_session_key source k l :
  addr_key source = Some k -> Forall (fun e => addr_key e.1 <> None /\ sess_source e.2 = e.1) l ->
  find_session source l = None -> k ∉ key_of <$> l.*1.
Proof.
  intros Hk. induction 1 as [|[a x] l [Ha _] _ IH]; simpl in *; [intros _; apply not_elem_of_nil|].
  rewrite (addr_eq_named _ _ _ Ha Hk). case_bool_decide as He; [done|].
  intros Hf. rewrite not_elem_of_cons. split; [done|auto].
Qed.

(** ** One operation *)

Definition udp_op_ok (o : udp_op) : Prop :=
  match o with URead _ source => addr_key source <> None | _ => True end.

Lemma sessions_ok_weaken n reads n' reads' l :
  (n <= n')%nat -> (reads <= reads')%nat -> sessions_ok n reads l -> sessions_ok n' reads' l.
Proof.
  intros Hn Hr [Hk Hnm [Hi Hb] Ht]. split; [done|done|split; [done|]|].
  - eapply Forall_impl; [exact Hb|]. simpl. lia.
  - eapply Forall_impl; [exact Ht|]. simpl. intros e. pose proof (clock_mono _ _ Hr). lia.
Qed.

Lemma NoDup_fmap_snoc {A B} (f : A -> B) (l : list A) x :
  NoDup (f <$> l) -> f x ∉ f <$> l -> NoDup (f <$> (l ++ [x])).
Proof.
  intros Hl Hx. rewrite fmap_app. apply NoDup_app. split_and!; [done| |apply NoDup_singleton].
  intros y Hy Hy'. apply list_elem_of_singleton in Hy' as ->. done.
Qed.

(** A new session, for an endpoint that has none. *)
Lemma new_session_ok source k n reads l :
  addr_key source = Some k -> find_session source l = None -> sessions_ok n reads l ->
  let l' := l ++ [(source, mk_session n source (clock reads))] in
  sessions_ok (S n) (S reads) l' /\ entries_of l' = <[k := (n, clock reads)]> (entries_of l).
Proof.
  intros Hk Hf [Hkeys Hnm [Hids Hbnd] Ht] l'.
  apply (find_session_key _ _ _ Hk Hnm) in Hf.
  assert (key_of source = k) as Hks by (unfold key_of; by rewrite Hk).
  pose proof (clock_mono reads (S reads) ltac:(lia)). pose proof (clock_range reads).
  split; [split|].
  - unfold l'. rewrite fmap_app. apply NoDup_fmap_snoc; [done|]. cbn [fst]. by rewrite Hks.
  - apply Forall_app. split; [done|]. repeat constructor; simpl; congruence.
  - unfold l'. split; [rewrite fmap_app; apply NoDup_fmap_snoc; [done|]|].
    + simpl. intros (x & Hx & (e & -> & He)%list_elem_of_fmap)%list_elem_of_fmap.
      rewrite Forall_forall in Hbnd. specialize (Hbnd e He). rewrite <- Hx in Hbnd. lia.
    + apply Forall_app. split; [|by repeat constructor; simpl; lia].
      eapply Forall_impl; [exact Hbnd|]. simpl. lia.
  - apply Forall_app. split; [|repeat constructor; simpl; lia].
    eapply Forall_impl; [exact Ht|]. simpl. lia.
  - unfold l', entries_of. rewrite fmap_app. rewrite <- Hks in *. simpl.
    apply list_to_map_snoc. rewrite <- !list_fmap_compose in *. exact Hf.
Qed.

Lemma server_on_read_ok data source k s :
  addr_key source = Some k -> server_ok s ->
  server_ok (server_on_read clock data source s) /\
  table_of (server_on_read clock data source s) = spec_read clock k data (table_of s).
Proof.
  intros Hk Hs. unfold server_ok in *. pose proof Hs as [Hkeys Hnm [Hids Hbnd] Ht].
  unfold server_on_read, spec_read. cbn [entries table_of t_new t_read t_reads t_made t_posted].
  rewrite (find_session_spec _ _ _ Hk Hnm).
  pose proof (clock_range (clock_reads s)) as Hc.
  pose proof (clock_mono (clock_reads s) (S (clock_reads s)) ltac:(lia)) as Hm.
  destruct (find_session source (sessions_ s)) as [x|] eqn:Hf; simpl.
  - destruct (read_cb_ s) eqn:Er; simpl; [|by destruct (negb (new_session_cb_ s))].
    split; [|unfold table_of; simpl; by rewrite (touch_spec _ _ _ _ _ Hk Hnm Hf)].
    apply (sessions_ok_weaken (made s) (S (clock_reads s))); [done|done|].
    split; [by rewrite touch_fst| |split; [by rewrite touch_ids|]|];
      (apply Forall_touch; [simpl; lia || done|]); try done.
    eapply Forall_impl; [exact Ht|]. simpl. lia.
  - destruct (new_session_ok _ _ _ _ _ Hk Hf Hs) as [Hok He].
    destruct (new_session_cb_ s) eqn:En, (read_cb_ s) eqn:Er; simpl; try done;
      (split; [done|]); unfold table_of; simpl; by rewrite He, ?En, ?Er.
Qed.

Lemma entries_of_lookup_None l k : k ∉ key_of <$> l.*1 -> entries_of l !! k = None.
Proof. intros Hk. apply not_elem_of_list_to_map_1. rewrite <- !list_fmap_compose in *. exact Hk. Qed.

(** The scan keeps, in their order, the sessions heard of recently enough. *)
Lemma scan_sessions_ok n reads ms l :
  0 <= ms <= 2000000000000 -> sessions_ok n reads l ->
  exists l', scan_sessions (clock reads) ms l = Ok l' /\ l' `sublist_of` l /\
    entries_of l' = filter (fun e => clock reads - e.2.2 <= ms * 1000000) (entries_of l).
Proof.
  intros Hms [Hkeys _ _ Ht]. revert Hkeys Ht.
  induction l as [|[a x] l IH]; intros Hkeys Ht.
  { exists []. split_and!; [done|done|]. done. }
  apply NoDup_cons in Hkeys as [Hnk Hkeys]. apply Forall_cons in Ht as [Hx Ht].
  destruct (IH Hkeys Ht) as (l' & Hs & Hsub & He). cbn [scan_sessions snd fst] in *.
  pose proof (clock_range reads). unfold add_ns.
  rewrite decide_True by (unfold in_i64; lia). cbn [mbind res_bind].
  rewrite ms_to_ns_ok by done. cbn [mbind res_bind]. rewrite Hs, entries_of_cons.
  destruct (Z.ltb_spec (ms * 1000000) (clock reads + - time_stamp_ x)).
  - exists l'. split_and!; [done|by constructor|].
    rewrite map_filter_insert_False by (simpl; lia).
    rewrite delete_id by by apply entries_of_lookup_None. done.
  - exists ((a, x) :: l'). split_and!; [done|by constructor|].
    rewrite map_filter_insert_True by (simpl; lia). by rewrite entries_of_cons, He.
Qed.

Lemma sessions_ok_sublist n reads l l' :
  l' `sublist_of` l -> sessions_ok n reads l -> sessions_ok n reads l'.
Proof.
  intros Hsub [Hk Hnm [Hi Hb] Ht].
  split; [|by eapply Forall_sublist|split; [|by eapply Forall_sublist]|by eapply Forall_sublist].
  - eapply sublist_NoDup; [exact Hk|]. by apply fmap_sublist, fmap_sublist.
  - eapply sublist_NoDup; [exact Hi|]. by apply fmap_sublist, fmap_sublist.
Qed.

Lemma run_udp_op_ok o s :
  0 <= session_timeout_ms_ s <= 2000000000000 -> udp_op_ok o -> server_ok s ->
  exists s', run_udp_op clock o s = Ok s' /\ server_ok s' /\
    session_timeout_ms_ s' = session_timeout_ms_ s /\
    table_of s' = spec_op clock (session_timeout_ms_ s * 1000000) o (table_of s).
Proof.
  intros Hms Ho Hs. destruct o as [data source| |b|b]; simpl in *.
  - destruct (addr_key source) as [k|] eqn:Hk; [|done].
    destruct (server_on_read_ok data source k s Hk Hs) as [Hs' Ht]. eexists. split_and!; try done.
    unfold server_on_read. repeat case_match; done.
  - unfold scan_cb. destruct (scan_sessions_ok _ _ _ _ Hms Hs) as (l' & -> & Hsub & He).
    eexists. split_and!; [done| |done|].
    + apply (sessions_ok_weaken (made s) (clock_reads s)); simpl; [lia|lia|].
      by eapply sessions_ok_sublist.
    + unfold table_of, spec_scan. simpl. by rewrite He.
  - eexists. split_and!; done.
  - eexists. split_and!; done.
Qed.

(** C26: a server's session table implements its specification, a map from
    endpoints to a session number and the time of the last reception.  Whatever
    datagrams arrive, scans run and callbacks are set, in any order, and for a
    timeout of at most 2 * 10^12 ms: no step leaves defined behaviour; a
    datagram reaches, once, the session of its endpoint, which is made for the
    first one; the scan drops exactly the sessions not heard of for longer than
    the timeout; there never are two sessions for one endpoint, nor two sessions
    of the same number, and each session replies to the endpoint it is for. *)
Theorem udp_server_refines ms os :
  0 <= ms <= 2000000000000 -> Forall udp_op_ok os ->
  exists s, run_udp_ops clock os (udp_server_ctor ms) = Ok s /\ server_ok s /\
    table_of s = foldl (fun t o => spec_op clock (ms * 1000000) o t) (mk_table ∅ false false 0 0 []) os.
Proof.
  intros Hms Hos. assert (H : forall s, server_ok s -> session_timeout_ms_ s = ms ->
    exists s', run_udp_ops clock os s = Ok s' /\ server_ok s' /\
      table_of s' = foldl (fun t o => spec_op clock (ms * 1000000) o t) (table_of s) os).
  { induction Hos as [|o os Ho _ IH]; intros s Hs Hm; [by exists s|]. simpl. rewrite <- Hm in Hms.
    destruct (run_udp_op_ok o s Hms Ho Hs) as (s1 & -> & Hs1 & Hm1 & Ht1). simpl.
    rewrite <- Hm, <- Ht1, Hm. apply IH; [done|]. by rewrite Hm1. }
  apply H; [|done]. split; try split; simpl; constructor.
Qed.

(** A timeout given as a huge number of milliseconds, such as [UINT64_MAX]
    for "never", becomes a negative one in the conversion to [int64_t]: every
    scan then drops every session, however recently it was heard of. *)
Theorem huge_timeout_drops_all s :
  2 ^ 64 - 9000000000000 <= session_timeout_ms_ s < 2 ^ 64 -> server_ok s ->
  exists s', scan_cb clock s = Ok s' /\ sessions_ s' = [] /\ posted s' = posted s.
Proof.
  intros Hms [_ _ _ Ht]. unfold scan_cb.
  assert (ms_to_ns (session_timeout_ms_ s) = Ok ((session_timeout_ms_ s - 2 ^ 64) * 1000000)) as Hns.
  { unfold ms_to_ns. assert (i64 (session_timeout_ms_ s) = session_timeout_ms_ s - 2 ^ 64) as ->.
    { unfold i64. set (ms := session_timeout_ms_ s) in *.
      replace (ms + 2 ^ 63) with (ms - 2 ^ 63 + 1 * 2 ^ 64) by lia.
      rewrite Z.mod_add by lia. rewrite Z.mod_small; lia. }
    rewrite decide_True by (unfold in_i64; lia). done. }
  pose proof (clock_range (clock_reads s)).
  assert (scan_sessions (clock (clock_reads s)) (session_timeout_ms_ s) (sessions_ s) = Ok []) as ->.
  { induction Ht as [|[a x] l Hx _ IH]; [done|]. simpl in *. unfold add_ns.
    rewrite decide_True by (unfold in_i64; lia). cbn [mbind res_bind]. rewrite Hns. cbn [mbind res_bind].
    destruct (Z.ltb_spec ((session_timeout_ms_ s - 2 ^ 64) * 1000000)
      (clock (clock_reads s) + - time_stamp_ x)); [done|lia]. }
  by eexists.
Qed.
End refinement.

(** ** The client on its socket *)

Section client.
Context {K : Type} `{DK : DgramKernel K, DL : !DgramLaws K} {L F : Type}.
Implicit Types (s : dgram K L F udp_client) (u : udp_client) (d : datagram).

Definition from_peer (peer : inet_addr) d : Prop :=
  exists a, source_of d = Some a /\ addr_eq a peer = true.

#[export] Instance from_peer_dec peer d : Decision (from_peer peer d).
Proof.
  unfold from_peer. destruct (source_of d) as [a|]; [|right; naive_solver].
  destruct (addr_eq a peer) eqn:E; [left; eauto|right; intros (b & [= <-] & Hb); congruence].
Defined.

Definition client_call d : heavy_call := CallClient (ztake kMaxUdpPacketSize d.1).

Lemma client_deliver_all ds u :
  client_read_cb_ u = true ->
  foldl deliver u ds =
  mk_udp_client true (client_error_cb_ u) (source_ u)
    (client_posted u ++ (client_call <$> filter (from_peer (source_ u)) ds)) (refused u).
Proof.
  revert u. induction ds as [|d ds IH]; intros u Hu; simpl.
  { rewrite app_nil_r. destruct u. simpl in *. by subst. }
  assert (deliver u d = if decide (from_peer (source_ u) d)
    then mk_udp_client true (client_error_cb_ u) (source_ u) (client_posted u ++ [client_call d])
      (refused u)
    else u) as ->.
  { unfold deliver. destruct (source_of d) as [a|] eqn:Ha; simpl; cycle 1.
    { rewrite decide_False; [done|]. intros (b & Hb & _). congruence. }
    unfold client_on_read, addr_ne. rewrite Hu. simpl. destruct (addr_eq a (source_ u)) eqn:E; simpl.
    - rewrite decide_True by (exists a; done). done.
    - rewrite decide_False; [done|]. intros (b & Hb & Hc). congruence. }
  rewrite filter_cons. destruct (decide (from_peer (source_ u) d)); rewrite IH by done; simpl.
  - by rewrite <- app_assoc.
  - done.
Qed.

(** A UDP client hears its peer and nobody else: when its socket is
    readable, the heavy executor gets one call of the read callback for each
    datagram taken from the queue that the peer sent, in order, and none for the
    others; and the error callback runs exactly when the event reports an error
    and SO_ERROR is ECONNREFUSED. *)
Lemma udp_client_hears_peer types s :
  has types EventType.kRead = true -> client_read_cb_ (derived s) = true ->
  exists s1 s' taken, drained s s1 taken /\ dgram_cb types s = Ok s' /\
    client_posted (derived s') =
      client_posted (derived s) ++
      (client_call <$> filter (from_peer (source_ (derived s))) taken) /\
    refused (derived s') = (refused (derived s) +
      (if has types EventType.kError && client_error_cb_ (derived s) &&
          (bool_decide ((dgram_so_error (dkern s1) (dgram_fd s)).2 = ECONNREFUSED)) then 1 else 0))%nat.
Proof.
  intros Hr Hcb. destruct (dgram_cb_ok types s Hr) as (s1 & s' & taken & Hd & Hs' & Herr).
  exists s1, s', taken. split; [done|]. split; [done|]. cbv zeta in Herr.
  pose proof (client_deliver_all taken (derived s) Hcb) as Hu.
  rewrite <- (dr_user _ _ _ Hd) in Hu.
  set (err := (dgram_so_error (dkern s1) (dgram_fd s)).2) in *.
  assert (client_on_error err (derived s1) =
    mk_udp_client true (client_error_cb_ (derived s)) (source_ (derived s)) (client_posted (derived s1))
      (refused (derived s) +
       if client_error_cb_ (derived s) && bool_decide (err = ECONNREFUSED) then 1 else 0)%nat) as Hce.
  { unfold client_on_error. rewrite Hu.
    cbn [client_error_cb_ refused client_posted source_ client_read_cb_].
    destruct (client_error_cb_ (derived s)) eqn:Ecb; cbn [negb andb].
    - destruct (Z.eqb_spec err ECONNREFUSED);
        [rewrite bool_decide_true by done|rewrite bool_decide_false by done];
        f_equal; lia.
    - f_equal. lia. }
  change (on_dgram_error err (derived s1)) with (client_on_error err (derived s1)) in Herr.
  destruct (has types EventType.kError); cbn [andb] in *; cycle 1.
  { rewrite Herr, Hu. simpl. split; [done|lia]. }
  destruct (Z.eqb_spec err 0) as [Hz|_]; cbn [negb] in Herr.
  - rewrite Herr, Hu, Hz. simpl. rewrite andb_false_r. split; [done|lia].
  - rewrite Herr, Hce, Hu. done.
Qed.
End client.

(** ** A server from its factory *)

Lemma scan_time_bounds ms :
  0 <= ms -> kMinScanIntervalMs <= scan_time ms <= kMaxScanIntervalMs /\
    (1000 <= ms <= 100000 -> scan_time ms * 10 <= ms < scan_time ms * 10 + 10).
Proof.
  intros H. unfold scan_time, kMinScanIntervalMs, kMaxScanIntervalMs, kScanFrequencyDivisor.
  destruct (Z.ltb_spec (ms / 10) 100); [split; [lia|dlia]|].
  destruct (Z.ltb_spec 10000 (ms / 10)); split; dlia.
Qed.

Example demo_udp_server_made :
  let '(_, s, ps) := make_udp_server (K := nat) 5%nat 0%nat 1%nat 2%nat demo_local 60000 7%nat in
  (scan_started_ <$> s, (started_ ∘ base_) <$> s, ps) =
  (Some true, Some true,
   [PostFd 5%nat (TRegister 7); PostFd 5%nat (TRegister 8);
    PostFd 5%nat (TEnableCb 7 (EventType.kRead |||
      EventType.kError) EventMode.kDefault (mk_guarded 0%nat 1%nat));
    PostFd 5%nat (TEnableCb 8 EventType.kRead EventMode.kDefault (mk_guarded 0%nat 2%nat))]).
Proof. reflexivity. Qed.

(** ** Witnesses *)

Definition demo_source (port : Z) : inet_addr := demo_addr (make_ipv4 loopback4 port).
Definition demo_udp_ops : list udp_op :=
  [USetRead true; URead [1] (demo_source 1); USetNew true; URead [2] (demo_source 2);
   URead [3] (demo_source 1); UScan; URead [4] (demo_source 2)].

(** With a timeout of one millisecond, the scan, at 3 ms, drops the session that
    was heard of at 1 ms and keeps the one heard of at 2 ms. *)
Example demo_udp_run :
  match run_udp_ops demo_clock demo_udp_ops (udp_server_ctor 1) with
  | Ok s => (map (fun e => (get_port e.1, sess_id e.2)) (sessions_ s), posted s)
  | _ => ([], [])
  end = ([(1, 0%nat); (2, 2%nat)],
         [CallRead 0 [1]; CallNewSession 1 [2]; CallRead 0 [3]; CallNewSession 2 [4]]).
Proof. vm_compute. reflexivity. Qed.

Lemma demo_udp_ops_ok : Forall udp_op_ok demo_udp_ops.
Proof. repeat constructor; vm_compute; congruence. Qed.

Lemma udp_server_refines_witness :
  0 <= 1 <= 2000000000000 /\
  exists s, run_udp_ops demo_clock demo_udp_ops (udp_server_ctor 1) = Ok s /\ server_ok demo_clock s /\
    table_of s =
      foldl (fun t o => spec_op demo_clock 1000000 o t) (mk_table ∅ false false 0 0 []) demo_udp_ops.
Proof.
  split; [lia|]. apply (udp_server_refines demo_clock demo_clock_mono demo_clock_range 1).
  - lia.
  - apply demo_udp_ops_ok.
Defined.

Definition forever : udp_server :=
  mk_udp_server true true [(demo_source 1, mk_session 0 (demo_source 1) 0)] (2 ^ 64 - 1) 1 0 [].

Lemma huge_timeout_drops_all_witness :
  exists s', scan_cb demo_clock forever = Ok s' /\ sessions_ s' = [] /\ posted s' = posted forever.
Proof.
  apply (huge_timeout_drops_all demo_clock demo_clock_range).
  - simpl. lia.
  - split; [|repeat constructor; simpl; vm_compute; congruence|split; [|repeat constructor]|].
    + apply (bool_decide_unpack (NoDup _)). vm_compute. done.
    + simpl. apply NoDup_singleton.
    + repeat constructor; vm_compute; congruence.
Defined.

(** A client of the peer [127.0.0.1:53], in front of two datagrams of which one
    is a stranger's. *)
Definition demo_udp_client : dgram demo_dgram nat nat udp_client :=
  dgram_start 0%nat 0%nat
    (dgram_ctor 5%nat 7
      (mk_demo_dgram [([1; 2], demo_peer4); ([3], (le16 AF_INET ++ le16 (htons 54) ++ [127; 0; 0; 1], 16))]
         [] ECONNREFUSED)
      (mk_udp_client true true (demo_source 53) [] 0)).

Lemma udp_client_hears_peer_witness :
  let types := EventType.kRead ||| EventType.kError in
  exists s1 s' taken, drained demo_udp_client s1 taken /\ dgram_cb types demo_udp_client = Ok s' /\
    client_posted (derived s') =
      client_posted (derived demo_udp_client) ++
      (client_call <$> filter (from_peer (source_ (derived demo_udp_client))) taken) /\
    refused (derived s') = (refused (derived demo_udp_client) +
      (if has types EventType.kError && client_error_cb_ (derived demo_udp_client) &&
          (bool_decide ((dgram_so_error (dkern s1) (dgram_fd demo_udp_client)).2 = ECONNREFUSED))
       then 1 else 0))%nat.
Proof. intros types. by apply udp_client_hears_peer. Defined.

Example demo_udp_client_run :
  match dgram_cb (EventType.kRead ||| EventType.kError) demo_udp_client with
  | Ok s => (client_posted (derived s), refused (derived s))
  | _ => ([], 0%nat)
  end = ([CallClient [1; 2]], 1%nat).
Proof. vm_compute. reflexivity. Qed.
