(* ===== verification/UdpSessions.v ===== *)
(** * UdpSessions: how long a session lives

    The sessions of a [UdpServer] ([src/net/udp_socket.cpp]) are made by the
    first datagram of an endpoint and dropped by the scan of the server's
    timer.  Here the two together, over any run: an endpoint that is heard of
    often enough keeps its session, one that falls silent loses it at the next
    scan, and a number is never given to a second session. *)

From S2P Require Import Prelude Events LoopFd Channel InetAddr StreamIo Timer Dgram Factories Udp.

Section lifetime.
Variable (clock : nat -> Z).
Hypothesis clock_mono : forall i j, (i <= j)%nat -> clock i <= clock j.
Hypothesis clock_range : forall i, 0 <= clock i < 2 ^ 62.
Implicit Types (s : udp_server) (t : table) (k : endpoint) (o : udp_op).

(** The endpoint a datagram is from. *)
Definition op_key o : option endpoint := match o with URead _ a => addr_key a | _ => None end.

Lemma spec_op_reads limit o t :
  (t_reads t <= t_reads (spec_op clock limit o t))%nat /\
  (t_made t <= t_made (spec_op clock limit o t))%nat.
Proof.
  destruct o as [d a| |b|b]; simpl; [|lia..]. destruct (addr_key a) as [k|]; [|done].
  unfold spec_read. repeat case_match; simpl; lia.
Qed.

Abbreviation run limit os t := (foldl (fun tb op => spec_op clock limit op tb) t os).

Lemma spec_run_reads limit os t :
  (t_reads t <= t_reads (run limit os t))%nat /\ (t_made t <= t_made (run limit os t))%nat.
Proof.
  revert t. induction os as [|o os IH]; intros t; simpl; [done|].
  pose proof (spec_op_reads limit o t). specialize (IH (spec_op clock limit o t)). lia.
Qed.

(** One operation keeps an entry that is recent enough when it is over. *)
Lemma spec_op_keeps limit o t k id ts :
  entries t !! k = Some (id, ts) ->
  ts <= clock (t_reads t) ->
  clock (t_reads (spec_op clock limit o t)) - ts <= limit ->
  exists ts', entries (spec_op clock limit o t) !! k = Some (id, ts') /\ ts <= ts' /\
    ts' <= clock (t_reads (spec_op clock limit o t)).
Proof.
  intros Hk Hpast Hrec.
  pose proof (clock_mono _ _ (proj1 (spec_op_reads limit o t))) as Hle.
  destruct o as [d a| |b|b]; simpl in *; [| |by exists ts..].
  - destruct (addr_key a) as [k'|]; [|by exists ts].
    unfold spec_read in *. destruct (decide (k' = k)) as [->|Hne].
    + rewrite Hk in *. destruct (t_read t); simpl in *; [|by exists ts].
      rewrite lookup_insert_eq. by exists (clock (t_reads t)).
    + exists ts. repeat case_match; simpl in *; rewrite ?lookup_insert_ne by done; split_and!; done || lia.
  - exists ts. split_and!; [|done|lia]. apply map_lookup_filter_Some. split; [done|]. simpl. lia.
Qed.

Lemma spec_run_keeps limit os t k id ts :
  entries t !! k = Some (id, ts) -> ts <= clock (t_reads t) ->
  clock (t_reads (run limit os t)) - ts <= limit ->
  exists ts', entries (run limit os t) !! k = Some (id, ts').
Proof.
  revert t ts. induction os as [|o os IH]; intros t ts Hk Hpast Hrec; simpl in *; [by exists ts|].
  pose proof (clock_mono _ _ (proj1 (spec_run_reads limit os (spec_op clock limit o t)))) as Hle.
  destruct (spec_op_keeps limit o t k id ts) as (ts1 & Hk1 & Hts & Hp1); [done|done|lia|].
  apply (IH _ ts1); [done|done|lia].
Qed.

(** Silence: without a datagram of the endpoint its time stamp stays, or the
    entry goes. *)
Lemma spec_op_silent limit o t k :
  op_key o <> Some k ->
  entries (spec_op clock limit o t) !! k = entries t !! k \/ entries (spec_op clock limit o t) !! k = None.
Proof.
  intros Hk. destruct o as [d a| |b|b]; simpl in *; [| |by left..].
  - left. destruct (addr_key a) as [k'|]; [|done]. assert (k' <> k) by (intros ->; by apply Hk).
    unfold spec_read.
    repeat case_match; simpl; by rewrite ?lookup_insert_ne.
  - destruct (entries t !! k) as [v|] eqn:He; [|right; by rewrite map_lookup_filter, He].
    rewrite map_lookup_filter, He. simpl. case_guard; auto.
Qed.

Lemma spec_run_silent limit os t k :
  Forall (fun o => op_key o <> Some k) os ->
  entries (run limit os t) !! k = entries t !! k \/ entries (run limit os t) !! k = None.
Proof.
  intros Hos. revert t. induction Hos as [|o os Ho _ IH]; intros t; simpl; [by left|].
  destruct (spec_op_silent limit o t k Ho) as [He|He], (IH (spec_op clock limit o t)) as [Hr|Hr];
    rewrite ?Hr; auto.
Qed.

(** ** On the server *)

Lemma udp_ops_ok ms os s :
  0 <= ms <= 2000000000000 -> Forall udp_op_ok os -> server_ok clock s -> session_timeout_ms_ s = ms ->
  exists s', run_udp_ops clock os s = Ok s' /\ server_ok clock s' /\ session_timeout_ms_ s' = ms /\
    table_of s' = run (ms * 1000000) os (table_of s).
Proof.
  intros Hms Hos. revert s. induction Hos as [|o os Ho _ IH]; intros s Hs Hm; [by exists s|].
  simpl. rewrite <- Hm in Hms.
  destruct (run_udp_op_ok clock clock_mono clock_range o s Hms Ho Hs) as (s1 & -> & Hs1 & Hm1 & Ht1).
  simpl. rewrite <- Hm, <- Ht1, Hm. apply IH; [done|]. by rewrite Hm1.
Qed.

(** The session of an endpoint, in the table and in its specification. *)
Lemma session_entry s source k :
  addr_key source = Some k -> server_ok clock s ->
  entries (table_of s) !! k =
    (fun x => (sess_id x, time_stamp_ x)) <$> find_session source (sessions_ s).
Proof. intros Hk [_ Hnm _ _]. by eapply find_session_spec. Qed.

Lemma find_session_in source l x : find_session source l = Some x -> exists a, (a, x) ∈ l.
Proof.
  induction l as [|[a y] l IH]; [done|]. simpl. destruct (addr_eq a source).
  - intros [= ->]. exists a. by left.
  - intros [b Hb]%IH. exists b. by right.
Qed.

Lemma find_session_snoc source l a x y :
  find_session source l = None -> find_session source (l ++ [(a, x)]) = Some y -> y = x.
Proof.
  induction l as [|[b z] l IH]; simpl; destruct (addr_eq _ source); intros Hn Hy;
    try congruence.
  by apply IH.
Qed.

Lemma session_past s source x :
  server_ok clock s -> find_session source (sessions_ s) = Some x -> time_stamp_ x <= clock (clock_reads s).
Proof.
  intros [_ _ _ Ht] [a Ha]%find_session_in. rewrite Forall_forall in Ht. by apply (Ht _ Ha).
Qed.

Lemma session_number s source x :
  server_ok clock s -> find_session source (sessions_ s) = Some x -> (sess_id x < made s)%nat.
Proof.
  intros [_ _ [_ Hi] _] [a Ha]%find_session_in. rewrite Forall_forall in Hi. by apply (Hi _ Ha).
Qed.

(** What becomes of a session [x] of an endpoint, from any good state. *)
Lemma session_lives ms os' source x s :
  0 <= ms <= 2000000000000 -> Forall udp_op_ok os' -> addr_key source <> None ->
  server_ok clock s -> session_timeout_ms_ s = ms -> find_session source (sessions_ s) = Some x ->
  exists s', run_udp_ops clock os' s = Ok s' /\
    (clock (clock_reads s') - time_stamp_ x <= ms * 1000000 ->
     exists x', find_session source (sessions_ s') = Some x' /\ sess_id x' = sess_id x) /\
    (Forall (fun o => op_key o <> addr_key source) os' ->
     ms * 1000000 < clock (clock_reads s') - time_stamp_ x ->
     exists s1, scan_cb clock s' = Ok s1 /\ find_session source (sessions_ s1) = None /\
       forall d y, find_session source (sessions_ (server_on_read clock d source s1)) = Some y ->
         (sess_id x < sess_id y)%nat).
Proof.
  intros Hms Hos' Hsrc Hs Hm Hf. destruct (addr_key source) as [k|] eqn:Hk; [|done]. subst ms.
  destruct (udp_ops_ok (session_timeout_ms_ s) os' s Hms Hos' Hs eq_refl) as (s' & Hr' & Hs' & Hm' & Ht').
  pose proof (session_entry s source k Hk Hs) as He. rewrite Hf in He. simpl in He.
  pose proof (session_past s source x Hs Hf) as Hpast.
  pose proof (session_entry s' source k Hk Hs') as He'. rewrite Ht' in He'.
  exists s'. split; [done|]. split.
  - intros Hrec. destruct (spec_run_keeps (session_timeout_ms_ s * 1000000) os' (table_of s) k (sess_id x)
      (time_stamp_ x)) as [ts Hts]; [done|done|by rewrite <- Ht'|].
    rewrite Hts in He'. destruct (find_session source (sessions_ s')) as [x'|]; [|done].
    exists x'. simpl in He'. split; [done|congruence].
  - intros Hsil Hlong. rewrite <- Hm' in Hms.
    destruct (run_udp_op_ok clock clock_mono clock_range UScan s' Hms I Hs') as (s1 & Hscan & Hs1 & _
      & Ht1).
    simpl in Hscan. exists s1. split; [done|].
    pose proof (session_entry s1 source k Hk Hs1) as He1. rewrite Ht1 in He1. simpl in He1.
    assert (find_session source (sessions_ s1) = None) as Hnone.
    { destruct (find_session source (sessions_ s1)) as [y|]; [|done]. exfalso. simpl in He1.
      apply map_lookup_filter_Some in He1 as [He1 Hlim]. simpl in Hlim.
      change (entries_of (sessions_ s')) with (entries (table_of s')) in He1.
      rewrite Ht' in He1. destruct (spec_run_silent (session_timeout_ms_ s * 1000000) os' (table_of s) k)
        as [Hsame|Hgone]; [done| |congruence].
      change (entries_of (sessions_ s)) with (entries (table_of s)) in *.
      rewrite Hsame, He in He1. simplify_eq. rewrite Hm' in Hlim. simpl in Hlim. lia. }
    split; [done|]. intros d y Hy. unfold server_on_read in Hy.
    destruct (_ && _); [congruence|]. rewrite Hnone in Hy. cbn [sessions_] in Hy.
    apply find_session_snoc in Hy as ->; [|done]. simpl.
    pose proof (session_number s source x Hs Hf). pose proof (f_equal t_made Ht1) as Hm1.
    pose proof (f_equal t_made Ht') as Hm2. simpl in Hm1, Hm2. rewrite Hm1, Hm2.
    pose proof (spec_run_reads (session_timeout_ms_ s * 1000000) os' (table_of s)) as [_ Hle].
    simpl in Hle. lia.
Qed.
Lemma run_udp_ops_app os os' s :
  run_udp_ops clock (os ++ os') s = (s1 ← run_udp_ops clock os s; run_udp_ops clock os' s1).
Proof.
  revert s. induction os as [|o os IH]; intros s; [done|]. simpl.
  destruct (run_udp_op clock o s) as [s1| |]; [apply IH|done..].
Qed.

(** A datagram, once there is a read callback: the endpoint has a session, the one
    it had if it had one, and the session was last heard of now. *)
Lemma read_refreshes d source s :
  read_cb_ s = true -> addr_key source <> None -> server_ok clock s ->
  exists x, find_session source (sessions_ (server_on_read clock d source s)) = Some x /\
    time_stamp_ x = clock (clock_reads s) /\
    forall x0, find_session source (sessions_ s) = Some x0 -> sess_id x = sess_id x0.
Proof.
  intros Hcb Hsrc Hs. unfold server_on_read. rewrite Hcb. simpl.
  destruct (find_session source (sessions_ s)) as [x0|] eqn:Hf; simpl.
  - exists (mk_session (sess_id x0) (sess_source x0) (clock (clock_reads s))).
    split_and!; [|done|by intros x1 [= ->]]. clear -Hf. induction (sessions_ s) as [|[a y] l IH]; [done|].
    simpl in *. destruct (addr_eq a source) eqn:Ha; simpl; rewrite Ha; [by simplify_eq|by apply IH].
  - exists (mk_session (made s) source (clock (clock_reads s))). split_and!; [|done..].
    assert (Heq : addr_eq source source = true).
    { apply addr_eq_key. destruct (addr_key source) as [k|] eqn:Hk; [by exists k|done]. }
    clear -Hf Heq. induction (sessions_ s) as [|[a y] l IH]; simpl in *; [by rewrite Heq|].
    destruct (addr_eq a source); [done|by apply IH].
Qed.

(** C27: the life of a session.  In any run of a server whose timeout is [ms] and
    that has a read callback, let a datagram of an endpoint be read at the time
    [now].  The endpoint then has a session, its old one if it had one.  After any
    further operations, datagrams of others and scans included: as long as [ms]
    have not passed since [now], the endpoint still has that session; if it has
    been silent meanwhile and more than [ms] have passed, the next scan leaves it
    without a session, and its next datagram makes one with a number never given
    before. *)
Theorem sessions_live_while_heard ms os os' d source s :
  0 <= ms <= 2000000000000 -> Forall udp_op_ok (os ++ os') -> addr_key source <> None ->
  run_udp_ops clock os (udp_server_ctor ms) = Ok s -> read_cb_ s = true ->
  let now := clock (clock_reads s) in
  exists x s', find_session source (sessions_ (server_on_read clock d source s)) = Some x /\
    (forall x0, find_session source (sessions_ s) = Some x0 -> sess_id x = sess_id x0) /\
    run_udp_ops clock os' (server_on_read clock d source s) = Ok s' /\
    (clock (clock_reads s') - now <= ms * 1000000 ->
     exists x', find_session source (sessions_ s') = Some x' /\ sess_id x' = sess_id x) /\
    (Forall (fun o => op_key o <> addr_key source) os' ->
     ms * 1000000 < clock (clock_reads s') - now ->
     exists s1, scan_cb clock s' = Ok s1 /\ find_session source (sessions_ s1) = None /\
       forall d' y, find_session source (sessions_ (server_on_read clock d' source s1)) = Some y ->
         (sess_id x < sess_id y)%nat).
Proof.
  intros Hms [Hos Hos']%Forall_app Hsrc Hr Hcb now.
  destruct (udp_ops_ok ms os (udp_server_ctor ms) Hms Hos) as (s0 & Hr0 & Hs0 & Hm0 & _);
    [by split; try split; simpl; constructor|done|].
  rewrite Hr0 in Hr. injection Hr as ->.
  destruct (read_refreshes d source s Hcb Hsrc Hs0) as (x & Hx & Hnow & Hsame).
  destruct (udp_ops_ok ms (os ++ [URead d source]) (udp_server_ctor ms) Hms) as (s1 & Hr1 & Hs1 & Hm1 & _);
    [by apply Forall_app_2; [|repeat constructor]|by split; try split; simpl; constructor|done|].
  assert (s1 = server_on_read clock d source s) as ->.
  { rewrite run_udp_ops_app, Hr0 in Hr1. simpl in Hr1. by injection Hr1. }
  destruct (session_lives ms os' source x _ Hms Hos' Hsrc Hs1 Hm1 Hx) as (s' & Hr' & Hkeep & Hlose).
  exists x, s'. rewrite Hnow in Hkeep, Hlose. by split_and!.
Qed.
End lifetime.

(** ** Witness: heard of twice, then two scans under a timeout of 1 ms *)

Definition demo_life_ops : list udp_op := [USetRead true; URead [1; 2] (demo_source 1)].
Definition demo_lived : udp_server :=
  match run_udp_ops demo_clock demo_life_ops (udp_server_ctor 1) with Ok s => s | _ => forever end.
Definition demo_heard : udp_server := server_on_read demo_clock [3] (demo_source 1) demo_lived.

Lemma sessions_live_while_heard_witness :
  let now := demo_clock (clock_reads demo_lived) in
  exists x s', find_session (demo_source 1) (sessions_ demo_heard) = Some x /\
    (forall x0, find_session (demo_source 1) (sessions_ demo_lived) = Some x0 -> sess_id x = sess_id x0) /\
    run_udp_ops demo_clock [UScan; UScan] demo_heard = Ok s' /\
    (demo_clock (clock_reads s') - now <= 1 * 1000000 ->
     exists x', find_session (demo_source 1) (sessions_ s') = Some x' /\ sess_id x' = sess_id x) /\
    (Forall (fun o => op_key o <> addr_key (demo_source 1)) [UScan; UScan] ->
     1 * 1000000 < demo_clock (clock_reads s') - now ->
     exists s1, scan_cb demo_clock s' = Ok s1 /\ find_session (demo_source 1) (sessions_ s1) = None /\
       forall d' y, find_session (demo_source 1)
           (sessions_ (server_on_read demo_clock d' (demo_source 1) s1)) = Some y ->
         (sess_id x < sess_id y)%nat).
Proof.
  apply (sessions_live_while_heard demo_clock demo_clock_mono demo_clock_range 1 demo_life_ops
    [UScan; UScan]
    [3]).
  - lia.
  - repeat constructor; vm_compute; congruence.
  - vm_compute. congruence.
  - vm_compute. reflexivity.
  - vm_compute. reflexivity.
Defined.
