(* ===== verification/TcpUnix.v ===== *)
(** * TcpUnix: the TCP and unix classes

    Models [src/net/tcp_socket.cpp], [src/net/unix_socket.cpp] and their
    headers: the virtual functions of the stream classes over the callbacks the
    user registers, as an instance of [StreamHandler], the errors each family
    reports, the family tests of the factories, and the removal of the path of
    a unix socket. *)

From S2P Require Import Prelude Events StreamBuffer LoopFd Channel InetAddr StreamIo.
From S2P Require Import StreamLoops StreamSession StreamClient.

(** ** Callbacks *)

(** What reaches the user: a fragment, posted to the heavy executor, or a call
    of the error or disconnection callback, on the io thread. *)
Inductive user_call :=
| CallFragment (d : list byte)
| CallError (err : Z)
| CallDisconnect.

Section endpoint.
Context {X : Type}.

(** [None], [false]: the callback is not registered.  The split callback may
    change the user's data; it returns how many bytes the next frame takes. *)
Record callbacks := mk_callbacks {
  split_cb_ : option (list byte -> X -> X * Z);
  fragment_cb_ : bool;
  error_cb_ : bool;
  disconnect_cb_ : bool
}.

Record endpoint := mk_endpoint {
  user_data : X;
  calls : list user_call;
  (** calls of [stop()] *)
  stops : nat
}.

(** [set_split_cb] and the other setters, [nullptr] included. *)
Definition set_split_cb (f : option (list byte -> X -> X * Z)) (c : callbacks) : callbacks :=
  mk_callbacks f (fragment_cb_ c) (error_cb_ c) (disconnect_cb_ c).
Definition set_fragment_cb (b : bool) (c : callbacks) : callbacks :=
  mk_callbacks (split_cb_ c) b (error_cb_ c) (disconnect_cb_ c).
Definition set_error_cb (b : bool) (c : callbacks) : callbacks :=
  mk_callbacks (split_cb_ c) (fragment_cb_ c) b (disconnect_cb_ c).
Definition set_disconnect_cb (b : bool) (c : callbacks) : callbacks :=
  mk_callbacks (split_cb_ c) (fragment_cb_ c) (error_cb_ c) b.

(** The callbacks registered when the virtual function runs. *)
Variable (cbs : callbacks).

(** The errors the switch of [on_error] lets through. *)
Definition tcp_reported (err : Z) : bool :=
  bool_decide (err ∈ [ECONNREFUSED; ETIMEDOUT; ENETUNREACH; EHOSTUNREACH; EADDRNOTAVAIL]).
Definition unix_reported (err : Z) : bool :=
  bool_decide (err ∈ [ECONNREFUSED; ENOENT; EACCES; ECONNRESET]).

Definition ep_split (slice : list byte) (u : endpoint) : endpoint * Z :=
  match split_cb_ cbs with
  | None => (u, 0)
  | Some f => let '(x, n) := f slice (user_data u) in (mk_endpoint x (calls u) (stops u), n)
  end.

Definition ep_fragment (fragment : list byte) (u : endpoint) : endpoint :=
  if fragment_cb_ cbs
  then mk_endpoint (user_data u) (calls u ++ [CallFragment fragment]) (stops u) else u.

Definition ep_error (reported : Z -> bool) (err : Z) (u : endpoint) : endpoint :=
  let u1 := mk_endpoint (user_data u) (calls u) (S (stops u)) in
  if negb (error_cb_ cbs) then u1
  else if reported err
  then mk_endpoint (user_data u1) (calls u1 ++ [CallError err]) (stops u1) else u1.

Definition ep_disconnect (u : endpoint) : endpoint :=
  let u1 := mk_endpoint (user_data u) (calls u) (S (stops u)) in
  if negb (disconnect_cb_ cbs) then u1
  else mk_endpoint (user_data u1) (calls u1 ++ [CallDisconnect]) (stops u1).

Definition tcp_handler : StreamHandler endpoint := {|
  on_split := ep_split;
  on_fragment := ep_fragment;
  on_error := ep_error tcp_reported;
  on_disconnect := ep_disconnect
|}.

Definition unix_handler : StreamHandler endpoint := {|
  on_split := ep_split;
  on_fragment := ep_fragment;
  on_error := ep_error unix_reported;
  on_disconnect := ep_disconnect
|}.
End endpoint.
Arguments callbacks : clear implicits.
Arguments endpoint : clear implicits.

(** ** Factories and paths *)

(** The tests of [make_tcp_client], [make_tcp_server] and of their unix
    counterparts. *)
Definition tcp_family_ok (local : inet_addr) : bool :=
  negb (negb (family local =? AF_INET) && negb (family local =? AF_INET6)).
Definition unix_family_ok (local : inet_addr) : bool := negb (negb (family local =? AF_UNIX)).

(** [cleanup_path()], from the destructors: the argument of [unlink]. *)
Definition cleanup_path (path : list byte) : option (list byte) :=
  match path with
  | [] => None
  | c :: _ => if negb (c =? 64) then Some (c_str path) else None
  end.

(** ** What the user is told *)

Section told.
Context {K : Type} `{SK : StreamKernel K, SL : !StreamLaws K} {L F X : Type}.
Variable (reported : Z -> bool) (c : callbacks X).

(** Either family. *)
#[local] Instance family_handler : StreamHandler (endpoint X) := {|
  on_split := ep_split c;
  on_fragment := ep_fragment c;
  on_error := ep_error c reported;
  on_disconnect := ep_disconnect c
|}.
Implicit Types (s b : stream K L F (endpoint X)) (u : endpoint X).

(** The call an event of the session amounts to. *)
Definition call_of (o : obs L F) : option user_call :=
  match o with
  | ObsPost _ => None
  | ObsFragment d => if fragment_cb_ c then Some (CallFragment d) else None
  | ObsError err => if error_cb_ c && reported err then Some (CallError err) else None
  | ObsDisconnect => if disconnect_cb_ c then Some CallDisconnect else None
  end.

Definition ends (o : obs L F) : bool := match o with ObsError _ | ObsDisconnect => true | _ => false end.

(** From [b] to [s], the user was told exactly what happened. *)
Definition told_seg u u' (d : list (obs L F)) : Prop :=
  calls u' = calls u ++ omap call_of d /\
  stops u' = (stops u + length (filter (fun o => ends o = true) d))%nat.

Definition told b s : Prop :=
  exists d, trace_ s = trace_ b ++ d /\ told_seg (user_ b) (user_ s) d.

Lemma told_refl s : told s s.
Proof. exists []. unfold told_seg. simpl. by rewrite !app_nil_r, Nat.add_0_r. Qed.

(** Steps the user is not told of: posts to the loop. *)
Definition quiet s s' : Prop :=
  user_ s' = user_ s /\ exists ps, trace_ s' = trace_ s ++ map ObsPost ps.

Lemma quiet_refl s : quiet s s.
Proof. split; [done|]. exists []. by rewrite app_nil_r. Qed.

Lemma quiet_trans s1 s2 s3 : quiet s1 s2 -> quiet s2 s3 -> quiet s1 s3.
Proof.
  intros [Hu1 (p1 & H1)] [Hu2 (p2 & H2)]. split; [congruence|]. exists (p1 ++ p2).
  by rewrite H2, H1, map_app, app_assoc.
Qed.

Lemma omap_posts (ps : list (post L F)) : omap call_of (map ObsPost ps) = [].
Proof. induction ps as [|p ps IH]; [done|exact IH]. Qed.

Lemma filter_posts (ps : list (post L F)) : filter (fun o : obs L F => ends o = true) (map ObsPost ps) = [].
Proof. induction ps as [|p ps IH]; [done|]. simpl. by rewrite filter_cons_False. Qed.

Lemma quiet_told b s s' : quiet s s' -> told b s -> told b s'.
Proof.
  intros [Hu (ps & Ht)] (d & Hd & Hl & Hn). exists (d ++ map ObsPost ps).
  split; [by rewrite Ht, Hd, app_assoc|]. unfold told_seg. rewrite Hu.
  by rewrite omap_app, omap_posts, app_nil_r, filter_app, filter_posts, app_nil_r.
Qed.

Lemma want_write_quiet s : quiet s (want_write s).
Proof.
  unfold want_write. destruct (get_event_info _), (update_event _ _ _) as [ch ps]. split; [done|].
  by exists ps.
Qed.

Lemma drop_write_quiet s : quiet s (drop_write s).
Proof.
  unfold drop_write. destruct (get_event_info _), (update_event _ _ _) as [ch ps]. split; [done|].
  by exists ps.
Qed.

Lemma read_loop_quiet fuel s r : read_loop fuel s = Ok r -> quiet s r.1.
Proof.
  revert s. induction fuel as [|fuel IH]; intros s H; [done|]. simpl in H.
  apply res_bind_Ok in H as ([[k b] status] & _ & H).
  assert (quiet s (with_recv k b s)) as Hq by (apply (quiet_refl s)).
  destruct status; simplify_eq; try done. eapply quiet_trans; [exact Hq|]. by apply IH.
Qed.

Lemma write_loop_quiet fuel s r : write_loop fuel s = Ok r -> quiet s r.1.
Proof.
  revert s. induction fuel as [|fuel IH]; intros s H; [done|]. simpl in H.
  apply res_bind_Ok in H as ([[k b] status] & _ & H).
  assert (quiet s (with_send k b s)) as Hq by (apply (quiet_refl s)).
  destruct status; simplify_eq; try done. destruct (SB.empty b); simplify_eq.
  - eapply quiet_trans; [exact Hq|]. apply drop_write_quiet.
  - eapply quiet_trans; [exact Hq|]. by apply IH.
Qed.

Lemma read_part_quiet types s r : read_part types s = Ok r -> quiet s r.1.
Proof.
  unfold read_part. destruct (has types _); [apply read_loop_quiet|intros [= <-]; apply quiet_refl].
Qed.

Lemma write_part_quiet types s r : write_part types s = Ok r -> quiet s r.1.
Proof.
  unfold write_part. destruct (has types _); [apply write_loop_quiet|intros [= <-]; apply quiet_refl].
Qed.

Lemma send_now_quiet data s s' : send_now data s = Ok s' -> quiet s s'.
Proof.
  unfold send_now. destruct (stream_send_data _ _ _) as [k [ret status]].
  assert (forall buf, quiet s (want_write (with_send k buf s))) as Hw.
  { intros buf. eapply quiet_trans; [|apply want_write_quiet]. apply (quiet_refl s). }
  assert (quiet s (with_send k (send_buf_ s) s)) as Hs by apply (quiet_refl s).
  destruct status; [destruct (_ =? _)| | |]; try (by intros [= <-]);
    intros (b & _ & [= <-])%res_bind_Ok; apply Hw.
Qed.

Lemma send_quiet alive data s s' : session_send alive data s = Ok s' -> quiet s s'.
Proof.
  unfold session_send, queue_send. destruct alive; simpl; [|intros [= <-]; apply quiet_refl].
  destruct (negb _); [|apply send_now_quiet].
  intros (b & _ & [= <-])%res_bind_Ok. apply (quiet_refl s).
Qed.

(** One call of a virtual function, with its observation. *)
Lemma told_event b s u o :
  told b s -> calls u = calls (user_ s) ++ omap call_of [o] ->
  stops u = (stops (user_ s) + if ends o then 1 else 0)%nat ->
  told b (with_user u o s).
Proof.
  intros (d & Hd & Hl & Hn) Hu Hst. exists (d ++ [o]). unfold told_seg. cbn [with_user user_ trace_].
  split; [by rewrite Hd, app_assoc|]. split.
  - by rewrite Hu, omap_app, Hl, app_assoc.
  - rewrite Hst, filter_app, length_app, Hn, <- Nat.add_assoc. do 2 f_equal. by destruct o.
Qed.

Lemma told_fragment b d s : told b s -> told b (with_user (on_fragment d (user_ s)) (ObsFragment d) s).
Proof.
  intros H. apply told_event; [done| |]; simpl; unfold ep_fragment;
    destruct (fragment_cb_ c); simpl; rewrite ?app_nil_r; done || lia.
Qed.

Lemma told_cleared b s : told b s -> told b (clear_send (clear_recv s)).
Proof. apply quiet_told, (quiet_refl s). Qed.

Lemma told_error b err s : told b s -> told b (report_error err s).
Proof.
  intros H%told_cleared. apply told_event; [done| |]; simpl; unfold ep_error;
    destruct (error_cb_ c), (reported err); simpl; rewrite ?app_nil_r; done || lia.
Qed.

Lemma told_disconnect b s : told b s -> told b (disconnect s).
Proof.
  intros H%told_cleared. apply told_event; [done| |]; simpl; unfold ep_disconnect;
    destruct (disconnect_cb_ c); simpl; rewrite ?app_nil_r; done || lia.
Qed.

Lemma frame_loop_told b fuel s s' : told b s -> frame_loop fuel s = Ok s' -> told b s'.
Proof.
  revert s. induction fuel as [|fuel IH]; intros s Ht H; [done|]. cbn [frame_loop] in H.
  destruct (on_split _ (user_ s)) as [u n] eqn:Ho.
  set (s1 := mk_stream (kern s) (recv_buf_ s) (send_buf_ s) (channel_ s) u (trace_ s)) in *.
  assert (told b s1) as Ht1.
  { unfold on_split in Ho. simpl in Ho. unfold ep_split in Ho. destruct Ht as (d & Hd & Hl).
    exists d. destruct (split_cb_ c) as [f|]; [destruct (f _ _) as [x m]|]; injection Ho as <- <-;
      by split. }
  destruct (n <=? 0); [by simplify_eq|].
  apply res_bind_Ok in H as (d & _ & H). apply res_bind_Ok in H as (buf & _ & H).
  revert H. apply IH. apply (quiet_told b (with_user (on_fragment d u) (ObsFragment d) s1)).
  - apply (quiet_refl (with_user (on_fragment d u) (ObsFragment d) s1)).
  - by apply (told_fragment b d s1).
Qed.

Lemma session_error_told b types s : told b s -> told b (session_error types s).1.
Proof.
  intros Ht. unfold session_error. destruct (has types EventType.kError); [|done].
  destruct (so_error _ _) as [k err]. assert (told b (with_recv k (recv_buf_ s) s)) as Hk.
  { eapply quiet_told; [|exact Ht]. apply (quiet_refl s). }
  destruct (err =? 0); [exact Hk|]. destruct (_ || _); [exact Hk|]. apply (told_error _ _ _ Hk).
Qed.

Lemma run_session_op_told o s s' : run_session_op o s = Ok s' -> told s s'.
Proof.
  pose proof (told_refl s) as Ht. destruct o as [alive data|alive types]; cbn [run_session_op].
  { intros H. eapply quiet_told; [|exact Ht]. by eapply send_quiet. }
  unfold session_cb. destruct alive; cbn [negb]; [|by intros [= <-]].
  intros (r1 & H1 & H)%res_bind_Ok. apply res_bind_Ok in H as (r2 & H2 & H).
  pose proof (quiet_told s _ _ (read_part_quiet _ _ _ H1) Ht) as Ht1.
  pose proof (quiet_told s _ _ (write_part_quiet _ _ _ H2) Ht1) as Ht2.
  pose proof (session_error_told s types _ Ht2) as Ht3.
  apply res_bind_Ok in H as (s4 & H4 & H). apply (frame_loop_told s) in H4; [|done].
  destruct (_ || _); simplify_eq; [by apply told_disconnect|done].
Qed.

Lemma session_start_quiet life (cb : F) s : quiet s (session_start life cb s).
Proof.
  unfold session_start, subscribe_stream.
  destruct (update_event_cb _ _ _ _ _) as [ch ps]. split; [done|]. by exists ps.
Qed.
End told.

(** ** Theorems *)

Section theorems.
Context {K : Type} `{SK : StreamKernel K, SL : !StreamLaws K} {L F X : Type}.

Definition reports (unix : bool) : Z -> bool := if unix then unix_reported else tcp_reported.
Definition handler (unix : bool) (c : callbacks X) : StreamHandler (endpoint X) :=
  if unix then unix_handler c else tcp_handler c.

(** A split callback that honours its contract. *)
Definition split_ok (c : callbacks X) : Prop :=
  forall f d x, split_cb_ c = Some f -> (f d x).2 <= zlen d.

Lemma family_split_laws reported c : split_ok c -> SplitLaws (endpoint X) (H := family_handler reported c).
Proof.
  intros Hc. split. intros d u u' n. simpl. unfold ep_split.
  destruct (split_cb_ c) as [f|] eqn:Hf; [|intros [= <- <-]; apply zlen_nonneg].
  pose proof (Hc f d (user_data u) Hf) as Hn. destruct (f d (user_data u)) as [x m].
  intros [= <- <-]. exact Hn.
Qed.

(** What the user does with a socket that is served: set callbacks, at any
    time, among the send tasks and events of the session. *)
Inductive user_op :=
| SetSplit (f : option (list byte -> X -> X * Z))
| SetFragment (b : bool)
| SetError (b : bool)
| SetDisconnect (b : bool)
| SessionOp (o : session_op).

Definition user_op_ok (o : user_op) : Prop :=
  match o with
  | SetSplit (Some f) => forall d x, (f d x).2 <= zlen d
  | SessionOp o => zlen (op_data o) < 2 ^ 63
  | _ => True
  end.

(** What happened while the same callbacks were registered. *)
Definition segment : Type := callbacks X * list (obs L F).

Definition run_user_op (unix : bool) (o : user_op) (c : callbacks X) (s : stream K L F (endpoint X))
    : res (callbacks X * stream K L F (endpoint X)) :=
  match o with
  | SetSplit f => Ok (set_split_cb f c, s)
  | SetFragment b => Ok (set_fragment_cb b c, s)
  | SetError b => Ok (set_error_cb b c, s)
  | SetDisconnect b => Ok (set_disconnect_cb b c, s)
  | SessionOp o => s' ← run_session_op (SH := handler unix c) o s; Ok (c, s')
  end.

(** A run, with the observations of each operation and the callbacks then
    registered. *)
Fixpoint run_user_ops (unix : bool) (os : list user_op) (c : callbacks X)
    (s : stream K L F (endpoint X)) : res (stream K L F (endpoint X) * list segment) :=
  match os with
  | [] => Ok (s, [])
  | o :: os' =>
      r ← run_user_op unix o c s;
      r' ← run_user_ops unix os' r.1 r.2;
      Ok (r'.1, (c, drop (length (trace_ s)) (trace_ r.2)) :: r'.2)
  end.

(** The calls a run of segments amounts to. *)
Definition calls_of (unix : bool) (segs : list segment) : list user_call :=
  concat (map (fun g : segment => omap (call_of (reports unix) g.1) g.2) segs).

Definition ended (t : list (obs L F)) : nat := length (filter (fun o => ends o = true) t).

Lemma run_user_op_ok unix o c s :
  good true s -> split_ok c -> user_op_ok o ->
  exists c' s', run_user_op unix o c s = Ok (c', s') /\ good true s' /\ split_ok c' /\
    told (reports unix) c s s'.
Proof.
  intros Hg Hc Ho.
  destruct o as [f|b|b|b|o]; simpl; try (do 2 eexists; split_and!; [done|done| |apply told_refl]; done).
  - do 2 eexists. split_and!; [done|done| |apply told_refl].
    intros f' d x Hf. simpl in Hf. subst f. apply Ho.
  - pose proof (family_split_laws (reports unix) c Hc) as SPL.
    assert (handler unix c = family_handler (reports unix) c) as -> by by destruct unix.
    destruct (session_op_ok (SH := family_handler (reports unix) c) o s Hg Ho) as (s' & Hr & Hg' & _).
    exists c, s'. rewrite Hr. split_and!; [done..|]. by eapply run_session_op_told.
Qed.

Lemma run_user_ops_ok unix os c s :
  good true s -> split_ok c -> Forall user_op_ok os ->
  exists s' segs, run_user_ops unix os c s = Ok (s', segs) /\
    trace_ s' = trace_ s ++ concat (map snd segs) /\
    calls (user_ s') = calls (user_ s) ++ calls_of unix segs /\
    stops (user_ s') = (stops (user_ s) + ended (concat (map snd segs)))%nat.
Proof.
  intros Hg Hc Hos. revert c s Hg Hc. induction Hos as [|o os Ho _ IH]; intros c s Hg Hc.
  { exists s, []. unfold calls_of, ended. simpl. by rewrite !app_nil_r, Nat.add_0_r. }
  destruct (run_user_op_ok unix o c s Hg Hc Ho) as (c1 & s1 & H1 & Hg1 & Hc1 & d & Hd & Hl & Hn).
  destruct (IH c1 s1 Hg1 Hc1) as (s2 & segs & H2 & Ht2 & Hl2 & Hn2).
  exists s2, ((c, d) :: segs). simpl. rewrite H1. simpl. rewrite H2. simpl.
  unfold calls_of, ended in *. simpl.
  rewrite Hd, drop_app_length. split; [done|]. rewrite Ht2, Hl2, Hn2, Hd, Hl, Hn.
  rewrite filter_app, length_app. split_and!; [by rewrite app_assoc..|lia].
Qed.

(** C29: what the user of a TCP or unix session is told.  From the constructor
    on, whatever send tasks and events come, whenever callbacks are set or
    unset, and with split callbacks that take no more than they are shown: the
    run never leaves defined behaviour; the callbacks called are, in order, one
    fragment for each frame cut, one error for each error reported (if it is one
    the family lets through) and one disconnection for each disconnection, as
    far as the callback was registered then; and the session was stopped once
    for each error or disconnection, told or not. *)
Theorem user_calls_follow_events unix c x loop fd (k : K) life (cb : F) os :
  0 <= fd -> split_ok c -> Forall user_op_ok os ->
  exists (s : stream K L F (endpoint X)) segs,
    run_user_ops unix os c (session_start life cb (session_ctor loop fd k (mk_endpoint x [] 0))) =
      Ok (s, segs) /\
    calls (user_ s) = calls_of unix segs /\ stops (user_ s) = ended (trace_ s).
Proof.
  intros Hfd Hc Hos.
  set (s0 := session_ctor loop fd k (mk_endpoint x [] 0) : stream K L F (endpoint X)).
  destruct (session_start_quiet life cb s0) as [Hu (ps & Ht)].
  destruct (run_user_ops_ok unix os c (session_start life cb s0)) as (s & segs & Hr & Htr & Hl & Hn);
    [|done..|].
  - apply session_start_good; [split; by apply SB.make_sb_inv|]. unfold usable, s0, session_ctor. simpl.
    unfold valid. simpl. by destruct (Z.eqb_spec fd (-1)); [lia|].
  - exists s, segs. split; [exact Hr|]. rewrite Hl, Hn, Hu, Htr, Ht. split; [done|].
    unfold ended. by rewrite !filter_app, filter_posts, length_app.
Qed.
End theorems.

(** ** Clients

    [TcpClient] and [UnixClient] split and deliver as the sessions do; their
    [on_error] and [on_disconnect], called after [stop()] (that is in
    [StreamClient]), run the user's callback on the client itself, which may
    connect again. *)

Section client_side.
Context {K : Type} `{SK : StreamKernel K, SL : !StreamLaws K} `{CK : ConnectKernel K} {L X : Type}.
Variable (c : callbacks X).

Definition tcp_client_handler : StreamHandler (endpoint X) := tcp_handler c.
Definition unix_client_handler : StreamHandler (endpoint X) := unix_handler c.

Variable (error_fun disconnect_fun : client K L (endpoint X) -> client K L (endpoint X)).

Definition tcp_client_error (err : Z) (cl : client K L (endpoint X)) : client K L (endpoint X) :=
  if negb (error_cb_ c) then cl else if tcp_reported err then error_fun cl else cl.
Definition unix_client_error (err : Z) (cl : client K L (endpoint X)) : client K L (endpoint X) :=
  if negb (error_cb_ c) then cl else if unix_reported err then error_fun cl else cl.
Definition tcp_client_disconnect (cl : client K L (endpoint X)) : client K L (endpoint X) :=
  if negb (disconnect_cb_ c) then cl else disconnect_fun cl.
Definition unix_client_disconnect (cl : client K L (endpoint X)) : client K L (endpoint X) :=
  if negb (disconnect_cb_ c) then cl else disconnect_fun cl.

(** What [StreamClient] asks of the two virtual functions, when the user's
    callbacks keep it. *)
Variable (strict : bool).
Hypothesis error_fun_ok : forall cl, client_wf strict cl -> client_wf strict (error_fun cl).
Hypothesis disconnect_fun_ok : forall cl, client_wf strict cl -> client_wf strict (disconnect_fun cl).
Hypothesis error_fun_connecting : forall cl,
  connected_ cl = Connecting -> connected_ (error_fun cl) = Connecting.

Lemma client_error_ok err cl :
  client_wf strict cl -> client_wf strict (tcp_client_error err cl) /\
    client_wf strict (unix_client_error err cl).
Proof. unfold tcp_client_error, unix_client_error. repeat case_match; auto. Qed.

Lemma client_error_connecting err cl :
  connected_ cl = Connecting ->
  connected_ (tcp_client_error err cl) = Connecting /\ connected_ (unix_client_error err cl) = Connecting.
Proof. unfold tcp_client_error, unix_client_error. repeat case_match; auto. Qed.

Lemma client_disconnect_ok cl :
  client_wf strict cl -> client_wf strict (tcp_client_disconnect cl) /\
    client_wf strict (unix_client_disconnect cl).
Proof. unfold tcp_client_disconnect, unix_client_disconnect. repeat case_match; auto. Qed.
End client_side.

(** The path a unix socket removes when it is destroyed is the path it was
    bound to, except that a path that starts with ['@'] is left behind; an
    abstract name removes nothing. *)
Theorem cleanup_removes_own_path `{AS : AddrServices} a s :
  (make_unix s = Some a ->
   cleanup_path (get_ip_or_path a) = if bool_decide (head s = Some 64) then None else Some s) /\
  (make_abstract s = Some a -> cleanup_path (get_ip_or_path a) = None).
Proof.
  split.
  - intros H. pose proof (proj1 (make_unix_shape _ _) H) as [(Hz & _ & _) _].
    destruct (unix_info _ _ H) as (_ & _ & ->). unfold cleanup_path. destruct s as [|c s]; [done|]. simpl.
    destruct (Z.eqb_spec c 64) as [->|Hc]; [done|]. rewrite bool_decide_false by congruence. simpl.
    pose proof (c_str_id (c :: s) Hz) as Hi. simpl in Hi. by rewrite Hi.
  - intros H. by destruct (abstract_info _ _ H) as (_ & _ & ->).
Qed.

(** A user that counts its frames of two bytes, without an error callback. *)
Definition demo_callbacks : callbacks nat :=
  mk_callbacks (Some (fun d n => (S n, if 2 <=? zlen d then 2 else 0))) true false true.

Lemma demo_split_ok : split_ok demo_callbacks.
Proof.
  intros f d x [= <-]. simpl. pose proof (zlen_nonneg d). destruct (Z.leb_spec 2 (zlen d)); simpl; lia.
Qed.

(** The error callback is set between the two events. *)
Definition demo_user_ops : list (user_op (X := nat)) :=
  match demo_session_ops with
  | [] => []
  | o :: os => SessionOp o :: SetError true :: SetFragment false :: map SessionOp os
  end.

Lemma user_calls_follow_events_witness :
  0 <= 7 /\
  exists (s : stream demo_sock nat nat (endpoint nat)) segs,
    run_user_ops false demo_user_ops demo_callbacks
      (session_start 0%nat 1%nat (session_ctor 5%nat 7 demo_kernel (mk_endpoint 0%nat [] 0))) =
      Ok (s, segs) /\
    calls (user_ s) = calls_of false segs /\ stops (user_ s) = ended (trace_ s).
Proof.
  split; [lia|].
  apply (user_calls_follow_events false demo_callbacks 0%nat 5%nat 7 demo_kernel 0%nat 1%nat demo_user_ops).
  - lia.
  - apply demo_split_ok.
  - repeat constructor; vm_compute; reflexivity.
Defined.
