(* ===== verification/Clients.v ===== *)
(** * Clients: TCP and unix clients whose callbacks call back

    [TcpUnix] has the virtual functions of [TcpClient] and [UnixClient]
    ([src/net/tcp_socket.cpp], [src/net/unix_socket.cpp]), [StreamClient] the
    client they are called by.  Here the two run together, with user callbacks
    that change the user's data and then connect again or stop.  An error
    callback that connects may fail at once and be called from inside itself;
    the first theorem says that this happens at most once, the second what the
    user of a client is told, over any run. *)

From S2P Require Import Prelude Events StreamBuffer LoopFd Channel InetAddr StreamIo StreamLoops.
From S2P Require Import StreamSession StreamClient TcpUnix.

(** What a callback does with the client it is given, in the end. *)
Inductive reaction :=
| Nothing
| Reconnect (addr : inet_addr) (timeout_ms : Z)
| StopClient.

Section clients.
Context {K : Type} `{SK : StreamKernel K, SL : !StreamLaws K} `{CK : ConnectKernel K} {L X : Type}.
Variable (unix : bool) (life : nat).

(** The user's error and disconnection callbacks. *)
Variable (error_fun : Z -> X -> X * reaction) (disconnect_fun : X -> X * reaction).

Notation client_ := (client K L (endpoint X)).
Notation stream_ := (stream K L client_fun (endpoint X)).

Section callbacks.
Variable (c : callbacks X).

Definition set_user (u : endpoint X) (cl : client_) : client_ :=
  let s := st cl in
  set_st (mk_stream (kern s) (recv_buf_ s) (send_buf_ s) (channel_ s) u (trace_ s)) cl.

(** A call of a user callback: it is noted, the data changes, the reaction
    follows; [f] is the client's own [on_error], should [connect] fail. *)
Definition user_callback (f : Z -> client_ -> client_) (call : user_call) (r : X * reaction)
    (cl : client_) : client_ :=
  let u := user_ (st cl) in
  let cl1 := set_user (mk_endpoint r.1 (calls u ++ [call]) (stops u)) cl in
  match r.2 with
  | Nothing => cl1
  | Reconnect addr timeout_ms => connect life f addr timeout_ms cl1
  | StopClient => stop cl1
  end.

(** [on_error] and [on_disconnect] after their [stop()]. *)
Definition client_on_error (f : Z -> client_ -> client_) (err : Z) (cl : client_) : client_ :=
  let body := fun cl => user_callback f (CallError err) (error_fun err (user_data (user_ (st cl)))) cl in
  if unix then unix_client_error c body err cl else tcp_client_error c body err cl.

Definition client_on_disconnect (f : Z -> client_ -> client_) (cl : client_) : client_ :=
  let body := fun cl => user_callback f CallDisconnect (disconnect_fun (user_data (user_ (st cl)))) cl in
  if unix then unix_client_disconnect c body cl else tcp_client_disconnect c body cl.

(** ** How deep [on_error] nests *)

(** [on_error] calls itself through [connect]; cut at depth [n]. *)
Fixpoint error_handler (n : nat) : Z -> client_ -> client_ :=
  match n with
  | O => client_on_error (fun _ cl => cl)
  | S n' => client_on_error (error_handler n')
  end.

Implicit Types (cl : client_) (s : stream_) (f g : Z -> client_ -> client_).

Definition same_connecting f g : Prop := forall err cl, connected_ cl = Connecting -> f err cl = g err cl.

Lemma connect_ext f g addr ms cl :
  same_connecting f g -> connect life f addr ms cl = connect life g addr ms cl.
Proof.
  intros H. unfold connect. destruct (connected_ cl); [|done..].
  destruct (sys_connect _ _ _ _) as [k [e|]]; [|done]. destruct (_ =? _); [done|].
  unfold on_error_. by rewrite H.
Qed.

Lemma connect_busy f addr ms cl : connected_ cl <> Disconnected -> connect life f addr ms cl = cl.
Proof. unfold connect. by destruct (connected_ cl). Qed.

Lemma user_callback_busy f g call r cl :
  connected_ cl <> Disconnected -> user_callback f call r cl = user_callback g call r cl.
Proof. intros H. unfold user_callback. destruct r.2; [done| |done]. by rewrite !connect_busy. Qed.

Lemma on_error_busy f g : same_connecting (client_on_error f) (client_on_error g).
Proof.
  intros err cl H. unfold client_on_error, unix_client_error, tcp_client_error.
  repeat case_match; try done; apply user_callback_busy; congruence.
Qed.

Lemma on_error_ext f g err cl : same_connecting f g -> client_on_error f err cl = client_on_error g err cl.
Proof.
  intros H. unfold client_on_error, unix_client_error, tcp_client_error, user_callback.
  repeat case_match; try done; by apply connect_ext.
Qed.
End callbacks.

(** C31: an error callback that connects again nests at most once.  [on_error] is a
    recursive function of the program, through the callback and [connect];
    whether the callback ends by connecting again, by stopping or by neither, the
    recursion stops after one nested call,
    because that one finds the client connecting: [error_handler 1] satisfies
    the program's equation, and nothing else does. *)
Theorem error_retry_terminates c :
  (forall err cl, error_handler c 1 err cl = client_on_error c (error_handler c 1) err cl) /\
  (forall f, (forall err cl, f err cl = client_on_error c f err cl) ->
     forall err cl, f err cl = error_handler c 1 err cl).
Proof.
  split.
  - intros err cl. apply on_error_ext, on_error_busy.
  - intros f Hf err cl. rewrite Hf. apply on_error_ext. intros err' cl' Hc.
    rewrite Hf. by apply on_error_busy.
Qed.

Definition user_error (c : callbacks X) : Z -> client_ -> client_ := error_handler c 1.
Definition user_disconnect (c : callbacks X) : client_ -> client_ := client_on_disconnect c (user_error c).

(** ** Runs *)

(** The user's operations on a client, and what happens to it. *)
Inductive client_user_op :=
| CSetSplit (f : option (list byte -> X -> X * Z))
| CSetFragment (b : bool)
| CSetError (b : bool)
| CSetDisconnect (b : bool)
| ClientOp (o : client_op).

Definition client_user_op_ok (o : client_user_op) : Prop :=
  match o with
  | CSetSplit (Some f) => forall d x, (f d x).2 <= zlen d
  | ClientOp o => StreamClient.op_ok o
  | _ => True
  end.

Definition run_client_user_op (o : client_user_op) (c : callbacks X) (cl : client_)
    : res (callbacks X * client_) :=
  match o with
  | CSetSplit f => Ok (set_split_cb f c, cl)
  | CSetFragment b => Ok (set_fragment_cb b c, cl)
  | CSetError b => Ok (set_error_cb b c, cl)
  | CSetDisconnect b => Ok (set_disconnect_cb b c, cl)
  | ClientOp o =>
      cl' ← run_client_op (SH := handler unix c) life (user_error c) (user_disconnect c) o cl;
      Ok (c, cl')
  end.

(** A run, with the observations of each operation and the callbacks then
    registered. *)
Fixpoint run_client_user_ops (os : list client_user_op) (c : callbacks X) (cl : client_)
    : res (client_ * list (segment (L := L) (F := client_fun) (X := X))) :=
  match os with
  | [] => Ok (cl, [])
  | o :: os' =>
      r ← run_client_user_op o c cl;
      r' ← run_client_user_ops os' r.1 r.2;
      Ok (r'.1, (c, drop (length (trace_ (st cl))) (trace_ (st r.2))) :: r'.2)
  end.

(** ** What the user is told *)

Section informed.
Variable (c : callbacks X).
Implicit Types (cl : client_) (s : stream_) (f : Z -> client_ -> client_).

(** From [s] to [s'], the calls made are those the observations amount to. *)
Definition informed s s' : Prop :=
  exists d, trace_ s' = trace_ s ++ d /\
    calls (user_ s') = calls (user_ s) ++ omap (call_of (reports unix) c) d.

Definition informs cl cl' : Prop := informed (st cl) (st cl').

Lemma informed_trans s1 s2 s3 : informed s1 s2 -> informed s2 s3 -> informed s1 s3.
Proof.
  intros (d1 & H1 & C1) (d2 & H2 & C2). exists (d1 ++ d2).
  by rewrite H2, H1, C2, C1, omap_app, !app_assoc.
Qed.

Lemma quiet_informed s s' : quiet s s' -> informed s s'.
Proof. intros [Hu (ps & Ht)]. exists (map ObsPost ps). by rewrite Ht, Hu, omap_posts, app_nil_r. Qed.

Lemma told_informed s s' : told (reports unix) c s s' -> informed s s'.
Proof. intros (d & Ht & Hc & _). by exists d. Qed.

Lemma informed_refl s : informed s s.
Proof. apply quiet_informed, quiet_refl. Qed.

Lemma same_informs cl cl' :
  user_ (st cl') = user_ (st cl) -> trace_ (st cl') = trace_ (st cl) -> informs cl cl'.
Proof. intros Hu Ht. exists []. by rewrite Hu, Ht, !app_nil_r. Qed.

Lemma posts_informs ps cl : informs cl (posts ps cl).
Proof. apply quiet_informed. split; [done|]. by exists ps. Qed.

Lemma stop_quiet cl : quiet (st cl) (st (stop cl)).
Proof.
  split; [done|]. eexists (disable_event (channel_ (st cl)) ++ disable_event (connect_timer_channel_ cl)).
  simpl. by rewrite map_app, app_assoc.
Qed.

Lemma stop_informs cl : informs cl (stop cl).
Proof. apply quiet_informed, stop_quiet. Qed.

Lemma start_informs cl : informs cl (start life cl).
Proof.
  unfold start. destruct (started_ cl); [apply informed_refl|].
  apply quiet_informed, (session_start_quiet life FStreamCb (st cl)).
Qed.

Lemma await_informs ms cl : informs cl (await_connection life ms cl).
Proof.
  unfold await_connection. destruct (update_event_cb _ _ _ _ _) as [ch ps1].
  destruct (update_event_cb _ _ _ _ _) as [tch ps2].
  eapply informed_trans; [|apply posts_informs]. eapply informed_trans; [|apply posts_informs].
  apply quiet_informed. split; [done|]. by exists ps1.
Qed.

(** [on_error] told of an error, the observation included; first where a nested
    call finds the client connecting. *)
Definition tells f : Prop := forall err cl, informs cl (on_error_ f err cl).
Definition tells_connecting f : Prop :=
  forall err cl, connected_ cl = Connecting -> informs cl (on_error_ f err cl).

Lemma connect_informs f addr ms cl : tells_connecting f -> informs cl (connect life f addr ms cl).
Proof.
  intros Hf. unfold connect. destruct (connected_ cl); [|apply informed_refl..].
  destruct (sys_connect _ _ _ _) as [k [e|]].
  - destruct (_ =? _).
    + eapply informed_trans; [|apply await_informs]. by apply same_informs.
    + apply (informed_trans _ (st (on_error_ f e (set_kern k (set_connected Connecting cl)))));
        [|by apply same_informs].
      eapply informed_trans; [|by apply Hf]. by apply same_informs.
  - eapply informed_trans; [|apply start_informs]. by apply same_informs.
Qed.

(** A registered callback is noted with what it was called for. *)
Lemma user_callback_informs f call r o cl :
  call_of (reports unix) c o = Some call ->
  (forall addr ms cl', connected_ cl' = connected_ cl -> informs cl' (connect life f addr ms cl')) ->
  informs cl (user_callback f call r (stop (emit [o] cl))).
Proof.
  intros Hcall Hcon. unfold user_callback. set (u := user_ _). set (cl1 := set_user _ _).
  assert (H1 : informs cl cl1).
  { destruct (stop_quiet (emit [o] cl)) as [Hu (ps & Ht)]. exists (o :: map ObsPost ps).
    subst cl1 u. cbn [set_user set_st st trace_ user_ calls omap list_omap].
    rewrite Ht, Hu, Hcall, omap_posts. split; [|done]. simpl. by rewrite <- app_assoc. }
  destruct r.2; [done| |].
  - eapply informed_trans; [exact H1|]. by apply Hcon.
  - eapply informed_trans; [exact H1|]. apply stop_informs.
Qed.

Lemma silent_informs o cl : call_of (reports unix) c o = None -> informs cl (stop (emit [o] cl)).
Proof.
  intros Hcall. eapply informed_trans; [|apply stop_informs]. exists [o]. simpl. rewrite Hcall.
  by rewrite app_nil_r.
Qed.

Lemma on_error_informs f err cl :
  (forall addr ms cl', connected_ cl' = connected_ cl -> informs cl' (connect life f addr ms cl')) ->
  informs cl (on_error_ (client_on_error c f) err cl).
Proof.
  intros Hcon. unfold on_error_, client_on_error, unix_client_error, tcp_client_error.
  pose proof (fun call r => user_callback_informs f call r (ObsError err) cl) as Hcall.
  pose proof (silent_informs (ObsError err) cl) as Hsilent. cbn [call_of] in *.
  unfold reports in *. destruct (error_cb_ c); cbn [negb andb] in *; [|by destruct unix; apply Hsilent].
  destruct unix; (destruct (_ err); [by apply Hcall|by apply Hsilent]).
Qed.

Lemma user_error_tells : tells (user_error c).
Proof.
  intros err cl. apply on_error_informs. intros addr ms cl' _. apply connect_informs. intros err' cl1 Hc.
  apply on_error_informs. intros addr' ms' cl2 Hcl2. rewrite connect_busy by congruence.
  apply informed_refl.
Qed.

Lemma on_disconnect_informs cl : informs cl (on_disconnect_ (user_disconnect c) cl).
Proof.
  unfold on_disconnect_, user_disconnect, client_on_disconnect, unix_client_disconnect,
    tcp_client_disconnect.
  pose proof (fun call r => user_callback_informs (user_error c) call r ObsDisconnect cl) as Hcall.
  pose proof (silent_informs ObsDisconnect cl) as Hsilent. cbn [call_of] in *.
  destruct (disconnect_cb_ c); cbn [negb] in *; [|by destruct unix; apply Hsilent].
  destruct unix; (apply Hcall; [done|]; intros; apply connect_informs; intros ? ? _;
    apply user_error_tells).
Qed.

Lemma socket_cb_informs types cl : informs cl (socket_cb life (user_error c) types cl).
Proof.
  unfold socket_cb. destruct (has types _); [|apply informed_refl].
  destruct (so_error _ _) as [k err]. destruct (_ =? _).
  - eapply informed_trans; [|apply start_informs]. eapply informed_trans; [|apply posts_informs].
    by apply same_informs.
  - eapply informed_trans; [|apply user_error_tells]. eapply informed_trans; [|apply posts_informs].
    by apply same_informs.
Qed.

Lemma timer_cb_informs cl : informs cl (timer_cb (user_error c) cl).
Proof.
  unfold timer_cb. case_decide; [apply posts_informs|].
  eapply informed_trans; [|apply user_error_tells]. eapply informed_trans; [|apply posts_informs].
  by apply same_informs.
Qed.

Lemma client_send_informs d cl cl' : client_send d cl = Ok cl' -> informs cl cl'.
Proof.
  unfold client_send. intros (s & Hs & [= <-])%res_bind_Ok. apply quiet_informed. simpl.
  destruct (_ || _).
  - unfold queue_send in Hs. apply res_bind_Ok in Hs as (b & _ & [= <-]). apply (quiet_refl (st cl)).
  - by eapply send_now_quiet.
Qed.

Lemma client_error_informs types cl : informs cl (client_error (user_error c) types cl).1.
Proof.
  unfold client_error. destruct (has types _); [|apply informed_refl].
  destruct (so_error _ _) as [k err].
  destruct (_ && _); [destruct (_ || _)|]; try by apply same_informs.
  eapply informed_trans; [|apply user_error_tells]. by apply same_informs.
Qed.

Lemma client_cb_informs types cl cl' :
  client_cb (SH := handler unix c) (user_error c) (user_disconnect c) types cl = Ok cl' -> informs cl cl'.
Proof.
  unfold client_cb. intros (r1 & H1 & H)%res_bind_Ok. apply res_bind_Ok in H as (r2 & H2 & H).
  pose proof (client_error_informs types (set_st r2.1 cl)) as H3.
  destruct (client_error _ types (set_st r2.1 cl)) as [c3 d3]. simpl in H3.
  apply res_bind_Ok in H as (s4 & H4 & H).
  assert (informed (st cl) s4) as Hs4.
  { eapply informed_trans; [apply quiet_informed; by eapply read_part_quiet|].
    eapply informed_trans; [apply quiet_informed; by eapply write_part_quiet|].
    eapply informed_trans; [exact H3|]. apply told_informed.
    assert (Hh : handler unix c = family_handler (reports unix) c) by (by destruct unix).
    rewrite Hh in H4. eapply frame_loop_told; [apply told_refl|exact H4]. }
  destruct (_ || _); simplify_eq; [|exact Hs4].
  eapply informed_trans; [|apply on_disconnect_informs]. eapply informed_trans; [exact Hs4|].
  by apply (same_informs (set_st s4 c3)).
Qed.

Lemma run_client_op_informs o cl cl' :
  run_client_op (SH := handler unix c) life (user_error c) (user_disconnect c) o cl = Ok cl' ->
    informs cl cl'.
Proof.
  destruct o as [addr ms|d| | |types| |types]; simpl.
  - intros [= <-]. apply connect_informs. intros ? ? _. apply user_error_tells.
  - apply client_send_informs.
  - intros [= <-]. apply start_informs.
  - intros [= <-]. apply stop_informs.
  - intros [= <-]. apply socket_cb_informs.
  - intros [= <-]. apply timer_cb_informs.
  - apply client_cb_informs.
Qed.
End informed.

(** ** The user's callbacks keep what [StreamClient] asks *)

Section keeps.
Variable (c : callbacks X).
Implicit Types (cl : client_) (strict : bool).

Lemma set_user_inv strict u cl : client_wf strict cl -> client_wf strict (set_user u cl).
Proof. intros [[[] ? ?] ? ?]. by split; [split; [by split|..]|..]. Qed.

Lemma user_callback_inv strict f call r cl :
  (forall addr ms cl', client_wf strict cl' -> client_wf strict (connect life f addr ms cl')) ->
  client_wf strict cl -> client_wf strict (user_callback f call r cl).
Proof.
  intros Hf Hc. unfold user_callback.
  set (u := mk_endpoint _ _ _). assert (client_wf strict (set_user u cl))
    by by apply set_user_inv.
  destruct r.2; [done|by apply Hf|by apply stop_inv, inv_pre].
Qed.

Lemma on_error_connecting f err cl :
  connected_ cl = Connecting -> connected_ (client_on_error c f err cl) = Connecting.
Proof.
  intros Hc. unfold client_on_error, unix_client_error, tcp_client_error, user_callback.
  repeat case_match; try done; by rewrite connect_busy by (simpl; congruence).
Qed.

Lemma on_error_keeps strict f err cl :
  (forall addr ms cl', client_wf strict cl' -> client_wf strict (connect life f addr ms cl')) ->
  client_wf strict cl -> client_wf strict (client_on_error c f err cl).
Proof.
  intros Hf Hc. unfold client_on_error, unix_client_error, tcp_client_error.
  repeat case_match; try done; by apply user_callback_inv.
Qed.

Lemma user_error_keeps strict err cl : client_wf strict cl -> client_wf strict (user_error c err cl).
Proof.
  apply on_error_keeps. intros addr ms cl'. apply connect_inv; [|intros; by apply on_error_connecting].
  intros strict' err' cl1. apply on_error_keeps. intros addr' ms' cl2. by apply connect_inv.
Qed.

Lemma user_disconnect_keeps strict cl : client_wf strict cl -> client_wf strict (user_disconnect c cl).
Proof.
  intros Hc. unfold user_disconnect, client_on_disconnect, unix_client_disconnect, tcp_client_disconnect.
  repeat case_match; try done; (apply user_callback_inv; [|done]); intros addr ms cl'; apply connect_inv;
    intros; solve [by apply user_error_keeps|by apply on_error_connecting].
Qed.
End keeps.

Lemma run_client_user_op_ok strict o c cl :
  client_wf strict cl -> split_ok c -> client_user_op_ok o -> (strict = true -> o <> ClientOp OpStart) ->
  exists c' cl', run_client_user_op o c cl = Ok (c', cl') /\ client_wf strict cl' /\ split_ok c' /\
    informs c cl cl'.
Proof.
  intros Hi Hc Ho Hst.
  destruct o as [f|b|b|b|o]; simpl; try (do 2 eexists; split_and!; [done|done|done|apply informed_refl]).
  - do 2 eexists. split_and!; [done|done| |apply informed_refl].
    intros f' d x Hf. simpl in Hf. subst f. apply Ho.
  - pose proof (family_split_laws (reports unix) c Hc) as SPL.
    assert (Hh : handler unix c = family_handler (reports unix) c) by (by destruct unix).
    pose proof (run_client_op_inv (SH := family_handler (reports unix) c) life (user_error c)
      (user_disconnect c) (user_error_keeps c) (on_error_connecting c _) (user_disconnect_keeps c)) as Hop.
    destruct (Hop strict o cl Hi Ho) as (cl' & Hr & Hi'); [by intros H ->; destruct (Hst H)|].
    rewrite <- Hh in Hr. exists c, cl'. rewrite Hr. split_and!; [done..|].
    by eapply run_client_op_informs.
Qed.

Lemma run_client_user_ops_ok strict os c cl :
  client_wf strict cl -> split_ok c -> Forall client_user_op_ok os ->
  (strict = true -> ClientOp OpStart ∉ os) ->
  exists cl' segs, run_client_user_ops os c cl = Ok (cl', segs) /\ client_wf strict cl' /\
    trace_ (st cl') = trace_ (st cl) ++ concat (map snd segs) /\
    calls (user_ (st cl')) = calls (user_ (st cl)) ++ calls_of unix segs.
Proof.
  intros Hi Hc Hos Hst. revert c cl Hi Hc. induction Hos as [|o os Ho _ IH]; intros c cl Hi Hc.
  { exists cl, []. unfold calls_of. simpl. by rewrite !app_nil_r. }
  destruct (run_client_user_op_ok strict o c cl Hi Hc Ho) as (c1 & cl1 & H1 & Hi1 & Hc1 & d & Hd & Hl);
    [intros H ->; apply (Hst H); by left|].
  destruct (IH ltac:(intros H Hin; apply (Hst H);
    by right) c1 cl1 Hi1 Hc1) as (cl2 & segs & H2 & Hi2 & Ht2 & Hl2).
  exists cl2, ((c, d) :: segs). simpl. rewrite H1. simpl. rewrite H2. simpl.
  rewrite Hd, drop_app_length. split; [done|]. split; [done|].
  unfold calls_of in *. simpl. by rewrite Ht2, Hl2, Hd, Hl, !app_assoc.
Qed.

(** C30: what the user of a TCP or unix client is told.  From the constructor on,
    whatever the user calls ([connect], [post_send_task], [start], [stop], callbacks
    set and unset in between, callbacks that end by connecting again or
    stopping, split callbacks that return no more than they are given),
    whatever the kernel answers and whatever events come: the run never leaves
    defined behaviour, and the callbacks called are, in order, one fragment for
    each frame cut, one error for each error reported (if it is one the family lets
    through), nested ones included, and one disconnection for each disconnection,
    as far as the callback was registered then.  A user that leaves [start] to
    [connect] has a client that is started only while it is connected. *)
Theorem client_calls_follow_events c x loop fd timer_fd (k : K) os :
  0 <= fd -> 0 <= timer_fd -> split_ok c -> Forall client_user_op_ok os ->
  exists cl segs,
    run_client_user_ops os c (client_ctor loop fd timer_fd k (mk_endpoint x [] 0)) = Ok (cl, segs) /\
    calls (user_ (st cl)) = calls_of unix segs /\
    (ClientOp OpStart ∉ os -> connected_ cl <> Connected -> started_ cl = false).
Proof.
  intros Hfd Ht Hc Hos.
  pose proof (client_ctor_inv loop fd timer_fd k (mk_endpoint x [] 0) Hfd Ht) as Hi0.
  destruct (run_client_user_ops_ok false os c _ (Hi0 false) Hc Hos) as (cl & segs & Hr & _ & _ & Hl);
    [done|].
  exists cl, segs. split_and!; [done|done|]. intros Hst.
  destruct (run_client_user_ops_ok true os c _ (Hi0 true) Hc Hos) as (cl' & segs' & Hr' & Hi & _); [done|].
  rewrite Hr in Hr'. injection Hr' as <- <-. by apply Hi.
Qed.

(** A client that lost its connection stays [Connected]: a disconnection callback
    that connects again does nothing. *)
Lemma reconnect_ignored c addr ms f cl :
  connected_ cl = Connected -> connect life f addr ms (on_disconnect_ (client_on_disconnect c f) cl) =
    on_disconnect_ (client_on_disconnect c f) cl.
Proof.
  intros Hc. apply connect_busy.
  assert (connected_ (on_disconnect_ (client_on_disconnect c f) cl) = Connected) as ->; [|done].
  unfold on_disconnect_, client_on_disconnect, unix_client_disconnect, tcp_client_disconnect, user_callback.
  repeat case_match; try done; (rewrite connect_busy; [done|simpl; congruence]).
Qed.
End clients.

(** ** Running it *)

(** A user that counts its errors and connects again after each; the peer
    refuses every connection. *)
Definition demo_retry (err : Z) (n : nat) : nat * reaction := (S n, Reconnect demo_peer 100).
Definition demo_stop (n : nat) : nat * reaction := (n, StopClient).

Definition demo_client_user_ops : list (client_user_op (X := nat)) :=
  [ClientOp (OpConnect demo_peer 100); CSetError true; ClientOp (OpConnect demo_peer 100);
   ClientOp OpTimerCb; CSetError false; ClientOp OpTimerCb].

Definition demo_client_run :=
  run_client_user_ops (K := demo_sock) (L := nat) false 1%nat demo_retry demo_stop demo_client_user_ops
    demo_callbacks (client_ctor 5%nat 7 8 (mk_sock [] [] 0 true 0) (mk_endpoint 0%nat [] 0)).

(** Refused before the callback is set, refused and told, timed out and told,
    with the refusal of the retry nested in it. *)
Example demo_told :
  match demo_client_run with
  | Ok (cl, _) => calls (user_ (st cl)) = [CallError ECONNREFUSED; CallError ETIMEDOUT;
    CallError ECONNREFUSED] /\
      user_data (user_ (st cl)) = 3%nat
  | _ => False
  end.
Proof. vm_compute. split; reflexivity. Qed.

Lemma error_retry_terminates_witness :
  let h := error_handler (K := demo_sock) (L := nat) false 1%nat demo_retry demo_callbacks in
  (forall err cl, h 1%nat err cl = client_on_error false 1%nat demo_retry demo_callbacks (h 1%nat)
    err cl) /\
  (forall err cl, h 2%nat err cl = h 1%nat err cl).
Proof.
  intros h. destruct (error_retry_terminates (K := demo_sock) (L :=
    nat) false 1%nat demo_retry demo_callbacks) as [H1 H2].
  split; [exact H1|]. apply (H2 (h 2%nat)). intros err cl. unfold h.
  apply on_error_ext, on_error_busy.
Defined.

Lemma client_calls_follow_events_witness :
  exists cl segs, demo_client_run = Ok (cl, segs) /\
    calls (user_ (st cl)) = calls_of false segs /\
    (ClientOp OpStart ∉ demo_client_user_ops -> connected_ cl <> Connected -> started_ cl = false).
Proof.
  apply (client_calls_follow_events false 1%nat demo_retry demo_stop demo_callbacks 0%nat 5%nat 7 8
    (mk_sock [] [] 0 true 0) demo_client_user_ops).
  - lia.
  - lia.
  - apply demo_split_ok.
  - repeat constructor.
Defined.
