(* ===== verification/Ledger.v ===== *)
(** * Ledger: the descriptors an object registers with its loop

    An object registers its descriptors when its members are built
    ([LoopChannel(Loop &, int32_t)] of [src/core.cpp]) and unregisters them when
    they are destroyed ([~LoopChannel()]).  Here is what that comes to in between:
    no operation of a stream session, a stream client, a datagram socket or a
    timer registers or unregisters anything, and their channels stay the ones
    they were.  [Sockets] has the lives from factory to destructor. *)

From S2P Require Import Prelude Events StreamBuffer LoopFd Channel InetAddr StreamIo StreamLoops.
From S2P Require Import Timer Dgram Udp StreamSession StreamClient TcpUnix Clients.

Section ledger.
Context {L F : Type}.
Implicit Types (c : channel L) (ps qs : list (post L F)).

(** The descriptors registered, and those unregistered, by a list of posts. *)
Definition registered ps : list Z :=
  omap (fun p => match p with PostFd _ (TRegister fd) => Some fd | _ => None end) ps.
Definition unregistered ps : list Z :=
  omap (fun p => match p with PostFd _ (TUnregister fd) => Some fd | _ => None end) ps.

Lemma registered_app ps qs : registered (ps ++ qs) = registered ps ++ registered qs.
Proof. apply omap_app. Qed.
Lemma unregistered_app ps qs : unregistered (ps ++ qs) = unregistered ps ++ unregistered qs.
Proof. apply omap_app. Qed.

Definition neutral ps : Prop := registered ps = [] /\ unregistered ps = [].

Lemma neutral_app ps qs : neutral ps -> neutral qs -> neutral (ps ++ qs).
Proof. intros [H1 H2] [H3 H4].
split; by rewrite ?registered_app, ?unregistered_app, ?H1, ?H2, ?H3, ?H4. Qed.

(** Posts were added, none of which registers or unregisters. *)
Definition adds ps qs : Prop := exists l, qs = ps ++ l /\ neutral l.

#[global] Instance adds_preorder : PreOrder adds.
Proof.
  split; [intros ps; exists []; by rewrite app_nil_r|].
  intros ps qs rs (l & -> & Hl) (k & -> & Hk). exists (l ++ k).
  split; [by rewrite app_assoc|by apply neutral_app].
Qed.

Lemma adds_one ps l : neutral l -> adds ps (ps ++ l).
Proof. intros H. by exists l. Qed.

Lemma adds_ledger ps qs : adds ps qs -> registered qs = registered ps /\ unregistered qs = unregistered ps.
Proof. intros (l & -> & H1 & H2). by rewrite registered_app, unregistered_app, H1, H2, !app_nil_r. Qed.

(** The same channel, but for what it listens to. *)
Definition same_channel c c' : Prop := valid c' = valid c /\ get_fd c' = get_fd c.

#[global] Instance same_channel_preorder : PreOrder same_channel.
Proof. split; [done|]. intros c1 c2 c3 [H1 H2] [H3 H4]. split; congruence. Qed.

Lemma same_fields c c' : in_loop_ c' = in_loop_ c -> fd_ c' = fd_ c -> same_channel c c'.
Proof. intros Hl Hf. unfold same_channel, get_fd, valid. by rewrite Hl, Hf. Qed.

Lemma update_cb_neutral life types modes (f : F) c :
  same_channel c (update_event_cb life types modes f c).1 /\
  neutral (update_event_cb life types modes f c).2.
Proof. unfold update_event_cb. destruct (valid c) eqn:H; [by split; [apply same_fields|]|done]. Qed.

Lemma update_neutral types modes c :
  same_channel c (update_event (F := F) types modes c).1 /\ neutral (update_event (F := F) types modes c).2.
Proof. unfold update_event. destruct (valid c) eqn:H; [by split; [apply same_fields|]|done]. Qed.

Lemma disable_neutral c : neutral (disable_event c).
Proof. unfold disable_event. by destruct (valid c). Qed.

Lemma io_neutral life task c : neutral (post_io_task life task c).
Proof. unfold post_io_task. by destruct (valid c). Qed.

Lemma heavy_neutral life task c : neutral (post_heavy_task life task c).
Proof. unfold post_heavy_task. by destruct (valid c). Qed.
End ledger.

#[export] Hint Resolve adds_one disable_neutral io_neutral heavy_neutral : ledger.

(** ** Streams *)

Section streams.
Context {K : Type} `{SK : StreamKernel K} {L F U : Type} `{SH : StreamHandler U}.
Implicit Types (s : stream K L F U) (tr : list (obs L F)).

Definition trace_posts tr : list (post L F) :=
  omap (fun o => match o with ObsPost p => Some p | _ => None end) tr.

Lemma trace_posts_app tr tr' : trace_posts (tr ++ tr') = trace_posts tr ++ trace_posts tr'.
Proof. apply omap_app. Qed.

Lemma trace_posts_map ps : trace_posts (map ObsPost ps) = ps.
Proof. induction ps as [|p ps IH]; [done|]. exact (f_equal (cons p) IH). Qed.

(** A stream keeps its channel, and posts no registration. *)
Definition stream_keeps s s' : Prop :=
  same_channel (channel_ s) (channel_ s') /\ adds (trace_posts (trace_ s)) (trace_posts (trace_ s')).

#[global] Instance stream_keeps_preorder : PreOrder stream_keeps.
Proof. split; [by intros s|]. intros s1 s2 s3 [H1 H2] [H3 H4]. split; by etrans. Qed.

Lemma posted_keeps c ps s : same_channel (channel_ s) c -> neutral ps ->
  stream_keeps s (with_channel c ps s).
Proof.
  intros Hc Hn. split; [done|]. simpl. rewrite trace_posts_app, trace_posts_map. by apply adds_one.
Qed.

Lemma user_keeps u o s : (forall p, o <> ObsPost p) -> stream_keeps s (with_user u o s).
Proof.
  intros Ho. split; [done|]. simpl. rewrite trace_posts_app.
  destruct o as [p| | |]; [by destruct (Ho p)|..];
    simpl; by rewrite app_nil_r.
Qed.

Lemma want_write_keeps s : stream_keeps s (want_write s).
Proof.
  unfold want_write. simpl. destruct (update_neutral (F := F) (event_types_ (channel_ s) |||
    EventType.kWrite)
    (event_modes_ (channel_ s)) (channel_ s)). destruct (update_event _ _ _). by apply posted_keeps.
Qed.

Lemma drop_write_keeps s : stream_keeps s (drop_write s).
Proof.
  unfold drop_write. simpl. destruct (update_neutral (F := F)
    (event_types_ (channel_ s) &&& ~~~ EventType.kWrite) (event_modes_ (channel_ s)) (channel_ s)).
  destruct (update_event _ _ _). by apply posted_keeps.
Qed.

Lemma subscribe_keeps life cb s : stream_keeps s (subscribe_stream life cb s).
Proof.
  unfold subscribe_stream. destruct (update_cb_neutral life (start_types s) EventMode.kDefault cb
    (channel_ s)).
  destruct (update_event_cb _ _ _ _ _). by apply posted_keeps.
Qed.

Lemma read_loop_keeps fuel s s' d : read_loop fuel s = Ok (s', d) -> stream_keeps s s'.
Proof.
  revert s. induction fuel as [|fuel IH]; intros s H; [done|]. simpl in H. inv_res.
  destruct a as [[k b] st]. destruct st; simplify_eq; try done. exact (IH _ H).
Qed.

Lemma write_loop_keeps fuel s s' d : write_loop fuel s = Ok (s', d) -> stream_keeps s s'.
Proof.
  revert s. induction fuel as [|fuel IH]; intros s H; [done|]. simpl in H. inv_res.
  destruct a as [[k b] st]. destruct st; [destruct (SB.empty b)| | |]; simplify_eq; try done.
  - etrans; [|apply drop_write_keeps]. done.
  - exact (IH _ H).
Qed.

Lemma frame_loop_keeps fuel s s' : frame_loop fuel s = Ok s' -> stream_keeps s s'.
Proof.
  revert s. induction fuel as [|fuel IH]; intros s H; [done|]. simpl in H.
  destruct (on_split _ _) as [u n]. destruct (n <=? 0); [by injection H as <-|].
  inv_res. etrans; [|by eapply IH]. by apply (user_keeps (on_fragment a u) (ObsFragment a) s).
Qed.

Lemma send_now_keeps data s s' : send_now data s = Ok s' -> stream_keeps s s'.
Proof.
  unfold send_now. destruct (stream_send_data _ _ _) as [k [ret st]].
  destruct st; [destruct (_ =? _)| | |]; intros H; inv_res; simplify_eq; try done;
    (etrans; [|apply want_write_keeps]; done).
Qed.

Lemma queue_send_keeps data s s' : queue_send data s = Ok s' -> stream_keeps s s'.
Proof. unfold queue_send. intros H. by inv_res; simplify_eq. Qed.

Lemma read_part_keeps types s s' d : read_part types s = Ok (s', d) -> stream_keeps s s'.
Proof. unfold read_part. destruct (has types _); [apply read_loop_keeps|by intros [= <- <-]]. Qed.

Lemma write_part_keeps types s s' d : write_part types s = Ok (s', d) -> stream_keeps s s'.
Proof. unfold write_part. destruct (has types _); [apply write_loop_keeps|by intros [= <- <-]]. Qed.

Lemma session_error_keeps types s : stream_keeps s (session_error types s).1.
Proof.
  unfold session_error. destruct (has types _); [|done]. destruct (so_error _ _) as [k err].
  destruct (err =? 0); [done|]. destruct (_ || _); [done|].
  by apply (user_keeps (user_ s) (ObsError err) s).
Qed.

Lemma session_op_keeps o s s' : run_session_op o s = Ok s' -> stream_keeps s s'.
Proof.
  destruct o as [[] data|[] types]; simpl; try by intros [= <-].
  - unfold session_send. cbn [negb]. destruct (negb _); [apply queue_send_keeps|apply send_now_keeps].
  - unfold session_cb. cbn [negb]. intros H. inv_res. destruct a as [s1 d1], a0 as [s2 d2].
    cbn [fst snd] in *. apply read_part_keeps in Hm. apply write_part_keeps in Hm0.
    pose proof (session_error_keeps types s2) as H3. apply frame_loop_keeps in Hm1.
    etrans; [exact Hm|]. etrans; [exact Hm0|]. etrans; [exact H3|].
    destruct (d1 || d2 || _); simplify_eq; [|done]. etrans; [exact Hm1|].
    by apply (user_keeps (user_ a1) ObsDisconnect a1).
Qed.

Lemma session_ops_keep os s s' : run_session_ops os s = Ok s' -> stream_keeps s s'.
Proof.
  revert s. induction os as [|o os IH]; intros s H; simpl in H; [by injection H as <-|].
  inv_res. etrans; [by eapply session_op_keeps|by eapply IH].
Qed.
End streams.

(** ** Stream clients *)

Section client.
Context {K : Type} `{SK : StreamKernel K} `{CK : ConnectKernel K} {L U : Type} `{SH : StreamHandler U}.
Variable (life : nat).
Implicit Types (c : client K L U).

Definition client_keeps c c' : Prop :=
  stream_keeps (st c) (st c') /\ same_channel (connect_timer_channel_ c) (connect_timer_channel_ c').

#[global] Instance client_keeps_preorder : PreOrder client_keeps.
Proof. split; [by intros c|]. intros c1 c2 c3 [H1 H2] [H3 H4]. split; by etrans. Qed.

Lemma stream_client_keeps s c : stream_keeps (st c) s -> client_keeps c (set_st s c).
Proof. by split. Qed.

Lemma posts_keeps ps c : neutral ps -> client_keeps c (posts ps c).
Proof. intros Hn. split; [|done]. by apply posted_keeps. Qed.

Lemma emit_error_keeps err c : client_keeps c (emit [ObsError err] c).
Proof. split; [|done]. by apply (user_keeps (user_ (st c)) (ObsError err) (st c)). Qed.

Lemma emit_disconnect_keeps c : client_keeps c (emit [ObsDisconnect] c).
Proof. split; [|done]. by apply (user_keeps (user_ (st c)) ObsDisconnect (st c)). Qed.

Lemma disable_timer_keeps c : client_keeps c (disable_timer c).
Proof. apply posts_keeps, disable_neutral. Qed.

Lemma stop_keeps c : client_keeps c (stop c).
Proof.
  unfold stop, disable_stream. etrans; [|apply disable_timer_keeps].
  etrans; [|apply posts_keeps, disable_neutral]. done.
Qed.

Lemma start_keeps c : client_keeps c (start life c).
Proof. unfold start. destruct (started_ c); [done|]. split; [apply subscribe_keeps|done]. Qed.

Lemma await_keeps timeout_ms c : client_keeps c (await_connection life timeout_ms c).
Proof.
  unfold await_connection.
  destruct (update_cb_neutral life EventType.kWrite EventMode.kDefault FSocketCb (channel_ (st c)))
    as [H1 N1].
  destruct (update_event_cb _ _ _ _ (channel_ (st c))) as [ch ps1]. cbn [set_st connect_timer_channel_].
  destruct (update_cb_neutral life EventType.kRead EventMode.kDefault FTimerCb (connect_timer_channel_ c))
    as [H2 N2].
  destruct (update_event_cb _ _ _ _ (connect_timer_channel_ c)) as [tch ps2].
  etrans; [|apply posts_keeps, io_neutral]. etrans; [|by apply posts_keeps].
  split; [by apply posted_keeps|done].
Qed.

(** The user's callbacks. *)
Variable (on_err : Z -> client K L U -> client K L U) (on_disc : client K L U -> client K L U).
Hypothesis err_keeps : forall err c, client_keeps c (on_err err c).

Lemma on_error_keeps_ledger err c : client_keeps c (on_error_ on_err err c).
Proof. unfold on_error_. etrans; [apply emit_error_keeps|]. etrans; [apply stop_keeps|apply err_keeps]. Qed.

Lemma connect_keeps addr timeout_ms c : client_keeps c (connect life on_err addr timeout_ms c).
Proof.
  unfold connect. destruct (connected_ c); [|done..]. destruct (sys_connect _ _ _ _) as [k [e|]].
  - destruct (e =? EINPROGRESS).
    + etrans; [|apply await_keeps]. done.
    + etrans; [|apply (on_error_keeps_ledger e)]. done.
  - etrans; [|apply start_keeps]. done.
Qed.

Hypothesis disc_keeps : forall c, client_keeps c (on_disc c).

Lemma client_error_keeps types c : client_keeps c (client_error on_err types c).1.
Proof.
  unfold client_error. destruct (has types _); [|done]. destruct (so_error _ _) as [k err].
  repeat case_match; try done. etrans; [|apply (on_error_keeps_ledger err)]. done.
Qed.

Lemma client_op_keeps o c c' : run_client_op life on_err on_disc o c = Ok c' -> client_keeps c c'.
Proof.
  destruct o as [addr ms|d| | |types| |types]; simpl.
  - intros [= <-]. apply connect_keeps.
  - unfold client_send. intros H. inv_res. apply stream_client_keeps.
    destruct (negb _ || _); [by eapply queue_send_keeps|by eapply send_now_keeps].
  - intros [= <-]. apply start_keeps.
  - intros [= <-]. apply stop_keeps.
  - intros [= <-]. unfold socket_cb. destruct (has types _); [|done].
    destruct (so_error _ _) as [k err]. destruct (err =? 0).
    + etrans; [|apply start_keeps]. etrans; [|apply disable_timer_keeps]. done.
    + etrans; [|apply (on_error_keeps_ledger err)]. etrans; [|apply disable_timer_keeps]. done.
  - intros [= <-]. unfold timer_cb. case_decide; [apply disable_timer_keeps|].
    etrans; [|apply (on_error_keeps_ledger ETIMEDOUT)]. etrans; [|apply disable_timer_keeps]. done.
  - unfold client_cb. intros H. inv_res. destruct a as [s1 d1], a0 as [s2 d2]. cbn [fst snd] in *.
    apply read_part_keeps in Hm. apply write_part_keeps in Hm0.
    pose proof (client_error_keeps types (set_st s2 c)) as H3.
    destruct (client_error _ _ _) as [c3 d3]. inv_res. apply frame_loop_keeps in Hm1. cbn [fst] in *.
    assert (H2 : client_keeps c (set_st s2 c)) by (apply stream_client_keeps; by etrans).
    etrans; [exact H2|]. etrans; [exact H3|].
    pose proof (stream_client_keeps a c3 Hm1) as H4. destruct (d1 || d2 || d3); simplify_eq; [|exact H4].
    etrans; [exact H4|]. unfold on_disconnect_. etrans; [|apply disc_keeps].
    etrans; [|apply stop_keeps]. etrans; [|apply emit_disconnect_keeps]. done.
Qed.
End client.

(** Clients whose callbacks call back. *)
Section callbacks.
Context {K : Type} `{SK : StreamKernel K} `{CK : ConnectKernel K} {L X : Type}.
Variable (unix : bool) (life : nat).
Variable (error_fun : Z -> X -> X * reaction) (disconnect_fun : X -> X * reaction).
Implicit Types (cl : client K L (endpoint X)) (c : callbacks X).

Lemma callback_keeps f call r cl :
  (forall err cl, client_keeps cl (f err cl)) -> client_keeps cl (user_callback life f call r cl).
Proof.
  intros Hf. unfold user_callback. assert (H : forall u, client_keeps cl (set_user u cl)) by done.
  destruct r.2; [apply H| |].
  - etrans; [apply H|by apply connect_keeps].
  - etrans; [apply H|apply stop_keeps].
Qed.

Lemma client_on_error_keeps c f err cl :
  (forall err cl, client_keeps cl (f err cl)) ->
  client_keeps cl (client_on_error unix life error_fun c f err cl).
Proof.
  intros Hf. unfold client_on_error, unix_client_error, tcp_client_error.
  repeat case_match; try done; by apply callback_keeps.
Qed.

Lemma user_error_keeps_ledger c err cl : client_keeps cl (user_error unix life error_fun c err cl).
Proof.
  apply client_on_error_keeps. intros err' cl'. by apply client_on_error_keeps.
Qed.

Lemma user_disconnect_keeps_ledger c cl :
  client_keeps cl (user_disconnect unix life error_fun disconnect_fun c cl).
Proof.
  pose proof (fun r => callback_keeps (user_error unix life error_fun c) CallDisconnect r cl
    (user_error_keeps_ledger c)) as Hc.
  unfold user_disconnect, client_on_disconnect, unix_client_disconnect, tcp_client_disconnect.
  destruct unix, (negb (disconnect_cb_ c)); try done; apply Hc.
Qed.

Lemma client_user_ops_keep os c cl cl' segs :
  run_client_user_ops unix life error_fun disconnect_fun os c cl = Ok (cl', segs) -> client_keeps cl cl'.
Proof.
  revert c cl segs. induction os as [|o os IH]; intros c cl segs H; cbn [run_client_user_ops] in H;
    [by simplify_eq|].
  apply res_bind_Ok in H as ([c1 cl1] & Ho & H). apply res_bind_Ok in H as ([cl2 segs2] & H & [= -> _]).
  cbn [fst snd] in H. etrans; [|by eapply IH].
  destruct o as [f|b|b|b|o]; cbn [run_client_user_op] in Ho; try by simplify_eq.
  apply res_bind_Ok in Ho as (cl3 & Ho & [= <- ->]).
  eapply (client_op_keeps (SH := handler unix c)); [..|exact Ho];
    [apply user_error_keeps_ledger|apply user_disconnect_keeps_ledger].
Qed.
End callbacks.

(** ** Datagram sockets and timers *)

Section dgram.
Context {K : Type} `{DK : DgramKernel K} {L F U : Type} `{DH : DgramHandler U}.
Implicit Types (s : dgram K L F U).

Definition dgram_keeps s s' : Prop :=
  same_channel (dgram_channel_ s) (dgram_channel_ s') /\ adds (dgram_posts s) (dgram_posts s').

#[global] Instance dgram_keeps_preorder : PreOrder dgram_keeps.
Proof. split; [by intros s|]. intros s1 s2 s3 [H1 H2] [H3 H4]. split; by etrans. Qed.

(** What is done to a datagram socket: its epoll callback, a datagram sent by a
    task, the methods, and the calls that only change the derived object. *)
Inductive dgram_use s : dgram K L F U -> Prop :=
| du_event types s' : dgram_cb types s = Ok s' -> dgram_use s s'
| du_send data addr : dgram_use s (dgram_send data addr s)
| du_start life cb : dgram_use s (dgram_start life cb s)
| du_stop : dgram_use s (dgram_stop s)
| du_post_send life task : dgram_use s (dgram_post_send life task s)
| du_post_heavy life task : dgram_use s (dgram_post_heavy life task s)
| du_derived u : dgram_use s (Dgram.with_derived u s).

Lemma dgram_loop_keeps fuel s s' : dgram_loop fuel s = Ok s' -> dgram_keeps s s'.
Proof.
  revert s. induction fuel as [|fuel IH]; intros s H; [done|]. simpl in H. unfold dgram_recv in H.
  destruct (sock_recvfrom _ _ _) as [k [[d [src len]]|e]].
  - destruct (make_from_sockaddr _ _) as [a|]; [|by injection H as <-]. apply IH in H.
    etrans; [|exact H]. done.
  - injection H as <-. by destruct (e =? EAGAIN).
Qed.

Lemma dgram_use_keeps s s' : dgram_use s s' -> dgram_keeps s s'.
Proof.
  intros [types s1 H|data addr|life cb| |life task|life task|u].
  - unfold dgram_cb in H. apply res_bind_Ok in H as (s2 & Hl & H).
    assert (H1 : dgram_keeps s s2) by (destruct (has types _); [by eapply dgram_loop_keeps|by simplify_eq]).
    etrans; [exact H1|]. destruct (has types EventType.kError); [|by simplify_eq].
    destruct (dgram_so_error _ _) as [k err]. by destruct (err =? 0); simplify_eq.
  - unfold dgram_send. destruct (sock_sendto _ _ _ _ _) as [k [n|e]]; [done|]. by destruct (e =? EAGAIN).
  - unfold dgram_start. destruct (Dgram.started_ s); [done|].
    destruct (update_cb_neutral life (EventType.kRead ||| EventType.kError) EventMode.kDefault cb
      (dgram_channel_ s)). destruct (update_event_cb _ _ _ _ _). split; [done|by apply adds_one].
  - split; [done|]. apply adds_one, disable_neutral.
  - split; [done|]. apply adds_one, io_neutral.
  - split; [done|]. apply adds_one, heavy_neutral.
  - done.
Qed.
End dgram.

Section udp.
Context {K : Type} `{DK : DgramKernel K} `{DH : DgramHandler udp_server} {L F : Type}.
Implicit Types (s : udp_socket (K := K) (L := L) (F := F)).

(** A server: its base, of which the scan only changes the derived object, and the
    channel of its scan. *)
Inductive udp_use s : udp_socket (K := K) (L := L) (F := F) -> Prop :=
| uu_base b : dgram_use (base_ s) b -> udp_use s (mk_udp_socket b (Udp.timer_channel_ s) (scan_started_ s))
| uu_start life cb scan : udp_use s (udp_start life cb scan s)
| uu_stop : udp_use s (udp_stop s)
| uu_session_send alive life task x : udp_use s (udp_session_send alive life task x s).

Definition udp_keeps s s' : Prop :=
  dgram_keeps (base_ s) (base_ s') /\ same_channel (Udp.timer_channel_ s) (Udp.timer_channel_ s').

#[global] Instance udp_keeps_preorder : PreOrder udp_keeps.
Proof. split; [by intros s|]. intros s1 s2 s3 [H1 H2] [H3 H4]. split; by etrans. Qed.

Lemma more_posts ps (b : dgram K L F udp_server) : neutral ps ->
  dgram_keeps b (with_posts (dgram_channel_ b) ps b).
Proof. intros H. split; [done|by apply adds_one]. Qed.

Lemma udp_use_keeps s s' : udp_use s s' -> udp_keeps s s'.
Proof.
  intros [b H|life cb scan| |alive life task x].
  - split; [by apply dgram_use_keeps|done].
  - unfold udp_start. pose proof (dgram_use_keeps _ _ (du_start (base_ s) life cb)) as H.
    destruct (scan_started_ s); [done|].
    destruct (update_cb_neutral life EventType.kRead EventMode.kDefault scan (Udp.timer_channel_ s)).
    destruct (update_event_cb _ _ _ scan _). split; [|done]. etrans; [exact H|by apply more_posts].
  - split; [|done]. etrans; [apply dgram_use_keeps, du_stop|]. apply more_posts, disable_neutral.
  - unfold udp_session_send. destruct (negb alive); [done|].
    split; [apply dgram_use_keeps, du_post_send|done].
Qed.
End udp.

Section timer.
Context {L G T : Type}.
Implicit Types (s : timer_object L G T).

(** A timer: [start] and [stop], its tasks posted, and whatever they and the expiry
    callback do to the table. *)
Inductive timer_use s : timer_object L G T -> Prop :=
| tu_start life cb : timer_use s (Timer.start life cb s)
| tu_stop : timer_use s (Timer.stop s)
| tu_post life task : timer_use s (post_task life task s)
| tu_tasks t : timer_use s (mk_timer_object t (Timer.timer_channel_ s) (Timer.started_ s) (timer_posts s)).

Definition timer_keeps s s' : Prop :=
  same_channel (Timer.timer_channel_ s) (Timer.timer_channel_ s') /\ adds (timer_posts s) (timer_posts s').

#[global] Instance timer_keeps_preorder : PreOrder timer_keeps.
Proof. split; [by intros s|]. intros s1 s2 s3 [H1 H2] [H3 H4]. split; by etrans. Qed.

Lemma timer_use_keeps s s' : timer_use s s' -> timer_keeps s s'.
Proof.
  intros [life cb| |life task|t].
  - unfold Timer.start. destruct (Timer.started_ s); [done|].
    destruct (update_cb_neutral life EventType.kRead EventMode.kDefault cb (Timer.timer_channel_ s)).
    destruct (update_event_cb _ _ _ _ _). split; [done|by apply adds_one].
  - split; [done|]. apply adds_one, disable_neutral.
  - split; [done|]. apply adds_one, io_neutral.
  - done.
Qed.
End timer.

(** Uses one after the other. *)
Lemma uses_keep {A} (R : relation A) (use : A -> A -> Prop) `{!PreOrder R} s s' :
  (forall a b, use a b -> R a b) -> rtc use s s' -> R s s'.
Proof. intros H. induction 1 as [|a b c Hu _ IH]; [done|]. etrans; [by apply H|exact IH]. Qed.
