(* ===== verification/Sockets.v ===== *)
(** * Sockets: objects from their factories to their destructors

    Models the static factories of the public classes ([make_udp_node],
    [make_udp_client], [make_tcp_server], [make_unix_server],
    [make_tcp_client], [make_unix_client], [make_timer]; [make_udp_server] is in
    [Udp]), with the constructors they call and the destructors that undo them:
    [src/net/udp_socket.cpp], [src/net/tcp_socket.cpp],
    [src/net/unix_socket.cpp], [src/timer/timer.cpp] and their headers.  The
    theorem follows a whole life: the factory, any use of the object, the
    destructor, and for a server the sessions its user still holds then. *)

From S2P Require Import Prelude Events StreamBuffer LoopFd Channel InetAddr StreamIo StreamLoops.
From S2P Require Import Timer Factories Dgram Udp StreamSession StreamClient StreamServer TcpUnix Clients.
From S2P Require Import Ledger.

(** What a factory gives: an empty pointer, an exception of a constructor, or
    the object. *)
Inductive product (A : Type) := NotSupported | Thrown | Made (a : A).
Arguments NotSupported {A}.
Arguments Thrown {A}.
Arguments Made {A} _.

Section sockets.
Context {K : Type} `{SK : SocketKernel K} {L F : Type}.
Variable (loop : L) (life : nat) (cb : F).

(** A factory's result, with the posts so far and the kernel. *)
Record result (A : Type) := mk_result {
  res_kernel : K;
  res_posts : list (post L F);
  res_object : product A
}.
Arguments mk_result {A} _ _ _.

(** A member built by a channel factory, whose failure the constructor throws. *)
Definition with_channel {A} (m : Factories.made K L F) (make : channel L -> list (post L F) -> A)
    (posted : A -> list (post L F)) : result A :=
  match made_channel m with
  | None => mk_result (made_kernel m) (made_posts m) Thrown
  | Some c => let a := make c (made_posts m) in mk_result (made_kernel m) (posted a) (Made a)
  end.

(** ** UDP nodes and clients *)

Definition make_udp_node (local : inet_addr) (k : K) : result (dgram K L F udp_node) :=
  if negb (udp_family_ok local) then mk_result k [] NotSupported
  else
    let m := make_dgram_channel loop local k in
    with_channel m
      (fun c ps => dgram_start life cb (mk_dgram (made_kernel m) c false (mk_node false []) ps []))
      dgram_posts.

Definition make_udp_client (local source : inet_addr) (k : K) : result (dgram K L F udp_client) :=
  if negb (make_udp_client_ok local source) then mk_result k [] NotSupported
  else
    let m := make_dgram_channel loop local k in
    with_channel m
      (fun c ps => dgram_start life cb
         (mk_dgram (made_kernel m) c false (mk_udp_client false false source [] 0) ps []))
      dgram_posts.

(** [~DgramSocket()] and its channel *)
Definition dgram_dtor {U} (s : dgram K L F U) : list (post L F) :=
  disable_event (dgram_channel_ s) ++ channel_dtor (dgram_channel_ s).

(** [UdpClient::post_send_task]: [task] sends to the peer. *)
Definition udp_client_send (task : inet_addr -> F) (s : dgram K L F udp_client) : dgram K L F udp_client :=
  dgram_post_send life (task (source_ (derived s))) s.

Definition node_set_read_cb (b : bool) (s : udp_node) : udp_node := mk_node b (node_posted s).
Definition client_set_read_cb (b : bool) (s : udp_client) : udp_client :=
  mk_udp_client b (client_error_cb_ s) (source_ s) (client_posted s) (refused s).
Definition client_set_error_cb (b : bool) (s : udp_client) : udp_client :=
  mk_udp_client (client_read_cb_ s) b (source_ s) (client_posted s) (refused s).

(** ** Stream servers *)

Definition make_server (family_ok : inet_addr -> bool) (local : inet_addr) (k : K) : result (server L F) :=
  if negb (family_ok local) then mk_result k [] NotSupported
  else
    with_channel (make_stream_server_channel loop local k)
      (fun c ps => server_start life cb (mk_server c false ∅ ∅ ∅ [] ps 0))
      (@posts_ L F).

Definition make_tcp_server : inet_addr -> K -> result (server L F) := make_server tcp_family_ok.
Definition make_unix_server : inet_addr -> K -> result (server L F) := make_server unix_family_ok.

(** [~StreamServerSocket()] and its members: the map gives up its sessions. *)
Definition server_dtor (s : server L F) : server L F :=
  let s1 := StreamServer.emit (disable_event (listen_channel_ s)) s in
  let s2 := foldr (@release L F) (set_sessions ∅ s1) (map_to_list (StreamServer.sessions_ s)).*2 in
  StreamServer.emit (channel_dtor (listen_channel_ s)) s2.

(** What is left of a destroyed server: the sessions its user holds, who drops and
    copies the references, and whose [stop] disables them (the task it posts finds
    no server). *)
Inductive orphan_step (s : server L F) : server L F -> Prop :=
| or_drop id : orphan_step s (release id (set_held (held s ∖ {[id]}) s))
| or_hold id : is_Some (objects s !! id) -> orphan_step s (set_held ({[id]} ∪ held s) s)
| or_stop id : is_Some (objects s !! id) -> orphan_step s (session_stop id s)
| or_channel id c c' :
    objects s !! id = Some c -> fd_ c' = fd_ c -> valid c' <> None ->
    orphan_step s (set_objects (<[id := c']> (objects s)) s).

(** ** Timers *)

Definition make_timer {T} (tasks : T) (k : K) : result (timer_object L F T) :=
  with_channel (make_plain_timer_channel loop k)
    (fun c ps => Timer.start life cb (mk_timer_object tasks c false ps))
    timer_posts.

(** [~Timer()], which stops, and its channel *)
Definition timer_dtor {T} (s : timer_object L F T) : list (post L F) :=
  disable_event (Timer.timer_channel_ s) ++ channel_dtor (Timer.timer_channel_ s).
End sockets.
Arguments mk_result {K L F A} _ _ _.
Arguments res_kernel {K L F A} _.
Arguments res_posts {K L F A} _.
Arguments res_object {K L F A} _.

(** ** Stream clients *)

Section clients.
Context {K : Type} `{SK : SocketKernel K} {L U : Type}.
Variable (loop : L).

Definition make_client (family_ok : inet_addr -> bool) (local : inet_addr) (u : U) (k : K)
    : result (F := client_fun) (client K L U) :=
  if negb (family_ok local) then mk_result k [] NotSupported
  else
    match client_channels loop local k with
    | (k', None, ps, _) => mk_result k' ps Thrown
    | (k', Some (c, t), ps, _) =>
        mk_result k' ps (Made (mk_client
          (mk_stream k' (SB.make_sb UINT16_MAX) (SB.make_sb UINT16_MAX) c u (map ObsPost ps))
          t false Disconnected))
    end.

Definition make_tcp_client := make_client tcp_family_ok.
Definition make_unix_client := make_client unix_family_ok.

(** [~StreamClientSocket()] and its two channels *)
Definition client_dtor (c : client K L U) : list (post L client_fun) :=
  disable_event (channel_ (st c)) ++ disable_event (connect_timer_channel_ c) ++
  channel_dtor (connect_timer_channel_ c) ++ channel_dtor (channel_ (st c)).
End clients.

(** ** The descriptors of a stream server *)

Section server.
Context {L F : Type}.
Implicit Types (s : server L F) (c : channel L) (ps : list (post L F)).

Definition object_fds (m : gmap nat (channel L)) : list Z := (fun x => fd_ x.2) <$> map_to_list m.

Lemma object_fds_delete m id c :
  m !! id = Some c -> object_fds m ≡ₚ fd_ c :: object_fds (delete id m).
Proof. intros H. unfold object_fds. by rewrite <- (map_to_list_delete m id c H). Qed.

Lemma object_fds_insert m id c :
  m !! id = None -> object_fds (<[id := c]> m) ≡ₚ fd_ c :: object_fds m.
Proof. intros H. unfold object_fds. by rewrite map_to_list_insert. Qed.

(** Registered and not yet unregistered: the descriptors of the living sessions
    and [base]. *)
Record sv_ledger (base : list Z) s : Prop := {
  sl_posts : registered (posts_ s) ≡ₚ unregistered (posts_ s) ++ base ++ object_fds (objects s);
  sl_valid id c : objects s !! id = Some c -> valid c <> None
}.

Lemma ledger_same base s s' :
  sv_ledger base s -> objects s' = objects s -> adds (posts_ s) (posts_ s') -> sv_ledger base s'.
Proof.
  intros [Hp Hv] Ho Ha. apply adds_ledger in Ha as [Hr Hu]. split; rewrite Ho; [by rewrite Hr, Hu|done].
Qed.

Lemma ledger_channel base id c c' s :
  sv_ledger base s -> objects s !! id = Some c -> fd_ c' = fd_ c -> valid c' <> None ->
  sv_ledger base (set_objects (<[id := c']> (objects s)) s).
Proof.
  intros [Hp Hv] Hc Hf Hval. split; simpl.
  - rewrite Hp. do 2 f_equiv. rewrite (object_fds_delete _ _ _ Hc), <- insert_delete_eq.
    rewrite object_fds_insert by apply lookup_delete_eq. by rewrite Hf.
  - intros i d [[<- <-]|[_ Hi]]%lookup_insert_Some; [done|by eapply Hv].
Qed.

Lemma ledger_stop base id s : sv_ledger base s -> sv_ledger base (session_stop id s).
Proof.
  intros H. unfold session_stop. destruct (objects s !! id); [|done].
  apply (ledger_same base s); [done..|]. apply adds_one, disable_neutral.
Qed.

Lemma ledger_release base id s : sv_ledger base s -> sv_ledger base (release id s).
Proof.
  intros H. unfold release. destruct (_ || _); [done|]. unfold destroy.
  destruct (objects s !! id) as [c|] eqn:Hc; [|done]. pose proof (ledger_stop base id s H) as [Hp Hv].
  assert (Ho : objects (session_stop id s) = objects s) by (unfold session_stop; by rewrite Hc).
  rewrite Ho in *. pose proof (Hv id c Hc) as Hval. split; simpl; rewrite ?Ho.
  - unfold channel_dtor. destruct (valid c) as [l|]; [|done].
    rewrite registered_app, unregistered_app, Hp, (object_fds_delete _ _ _ Hc). simpl.
    rewrite app_nil_r, <- app_assoc. simpl. f_equiv. by rewrite <- Permutation_middle.
  - intros i d [_ Hi]%lookup_delete_Some. by eapply Hv.
Qed.

Lemma ledger_add base cb fd loop s s' :
  sessions_inv s -> fresh_fd fd s -> valid (listen_channel_ s) = Some loop ->
  add_session cb fd s = Ok s' -> sv_ledger base s -> sv_ledger base s'.
Proof.
  intros Hs Hf Hl Ha [Hp Hv]. destruct (add_session_posts cb fd loop s Hs Hf Hl) as (qs & Hadd & Hq).
  rewrite Hadd in Ha. injection Ha as <-.
  destruct (session_channel_valid loop fd) as [Hvc _]; [by apply Hf|].
  split; simpl.
  - rewrite registered_app, unregistered_app, Hp. rewrite Hq. simpl. rewrite app_nil_r.
    rewrite object_fds_insert; cycle 1.
    { destruct (objects s !! made s) eqn:E; [|done]. apply (si_made s Hs) in E. lia. }
    rewrite <- !app_assoc. do 2 f_equiv. simpl. by rewrite <- Permutation_cons_append.
  - intros i d [[<- <-]|[_ Hi]]%lookup_insert_Some; [by rewrite Hvc|by eapply Hv].
Qed.

Lemma ledger_accept base cb answers s s' :
  sessions_inv s -> accept_ok cb answers s -> accept_loop cb answers s = Ok s' ->
  sv_ledger base s -> sv_ledger base s' /\ listen_channel_ s' = listen_channel_ s.
Proof.
  revert s. induction answers as [|[fd|e] rest IH]; intros s Hs Hok H Hle; simpl in *; [by simplify_eq| |].
  - destruct Hok as [Hf Hok]. destruct (valid (listen_channel_ s)) as [loop|] eqn:Hl;
      [|by destruct (si_listen s Hs)].
    destruct (add_session_inv cb fd s Hs Hf) as (s1 & id & E & Hs1 & _).
    pose proof (ledger_add base cb fd loop s s1 Hs Hf Hl E Hle) as Hle1.
    destruct (add_session_posts cb fd loop s Hs Hf Hl) as (qs & Hadd & _). rewrite E in *. simpl in H.
    destruct (IH s1 Hs1 Hok H Hle1) as [? ->]. split; [done|]. by injection Hadd as ->.
  - repeat case_match; simplify_eq; try done. by apply IH.
Qed.

(** A server in use. *)
Lemma ledger_step base s s' :
  sessions_inv s -> sv_step s s' -> sv_ledger base s ->
  sv_ledger base s' /\ same_channel (listen_channel_ s) (listen_channel_ s').
Proof.
  intros Hs Hst H. destruct Hst as [cb types answers err s s' Hok Hl|id s Hid|s Hne|id c c' s Hc Hf Hv
    |id s Hid|id s|s|life cb s].
  - unfold listen_cb in Hl. apply res_bind_Ok in Hl as (s1 & H1 & [= <-]).
    assert (Hle : sv_ledger base s1 /\ listen_channel_ s1 = listen_channel_ s)
      by (destruct (has types _); [by eapply ledger_accept|by simplify_eq]).
    destruct Hle as [Hle Hch]. destruct (has types EventType.kError && _).
    + split; [|simpl; by rewrite Hch]. apply (ledger_same base s1); [done..|].
      apply adds_one, disable_neutral.
    + by rewrite Hch.
  - split; [by apply ledger_stop|]. unfold session_stop. by destruct (objects s !! id).
  - unfold run_erase. destruct (erasing s) as [|id rest]; [done|]. unfold erase_session. simpl.
    assert (H1 : forall m, sv_ledger base (set_sessions m (set_erasing rest s)))
      by (intros m; by apply (ledger_same base s)).
    destruct (objects s !! id); [|by split; [apply (ledger_same base s)|]].
    destruct (sessions_ s !! _) as [v|]; [|by split; [apply (ledger_same base s)|]].
    split; [by apply ledger_release|]. by destruct (release_frame v (set_sessions (delete (get_fd c)
      (sessions_ s)) (set_erasing rest s))) as (_ & -> & _).
  - split; [by eapply ledger_channel|done].
  - split; [by apply (ledger_same base s)|done].
  - split; [apply ledger_release; by apply (ledger_same base s)|].
    by destruct (release_frame id (set_held (held s ∖ {[id]}) s)) as (_ & -> & _).
  - split; [|done]. apply (ledger_same base s); [done..|]. apply adds_one, disable_neutral.
  - unfold server_start. destruct (StreamServer.started_ s); [done|].
    destruct (update_cb_neutral life (EventType.kRead ||| EventType.kError) EventMode.kDefault cb
      (listen_channel_ s)). destruct (update_event_cb _ _ _ _ _). split; [|done].
    apply (ledger_same base s); [done..|by apply adds_one].
Qed.

Lemma ledger_steps base s s' :
  rtc sv_step s s' -> sessions_inv s -> sv_ledger base s ->
  sessions_inv s' /\ sv_ledger base s' /\ same_channel (listen_channel_ s) (listen_channel_ s').
Proof.
  induction 1 as [s|s s1 s' Hst _ IH]; intros Hs H; [done|].
  destruct (ledger_step base _ _ Hs Hst H) as [H1 Hc1].
  destruct IH as (? & ? & Hc); [by eapply sv_step_inv|done|]. split_and!; [done..|by etrans].
Qed.

(** A destroyed server: what lives is held by the user. *)
Record orphaned s : Prop := {
  oi_ledger : sv_ledger [] s;
  oi_sessions : sessions_ s = ∅;
  oi_held id c : objects s !! id = Some c -> id ∈ held s
}.

Lemma release_unheld id s :
  sessions_ s = ∅ -> id ∉ held s -> objects (release id s) !! id = None.
Proof.
  intros Hs Hh. unfold release. rewrite (bool_decide_eq_false_2 (owned_by_map id s)).
  2: { intros [fd Hfd]%owned_by_map_spec. by rewrite Hs in Hfd. }
  rewrite bool_decide_eq_false_2 by done. cbn [orb]. unfold destroy.
  destruct (objects s !! id) as [c|] eqn:Hc; [|done]. simpl. apply lookup_delete_eq.
Qed.

Lemma release_held id s : held (release id s) = held s.
Proof.
  unfold release, destroy, session_stop. destruct (_ || _); [done|]. by destruct (objects s !! id).
Qed.

Lemma releases base ids s :
  sessions_ s = ∅ -> sv_ledger base s ->
  let s' := foldr (@release L F) s ids in
  sv_ledger base s' /\ sessions_ s' = ∅ /\ held s' = held s /\
  (forall i c, objects s' !! i = Some c -> objects s !! i = Some c) /\
  (forall i c, i ∈ ids -> objects s' !! i = Some c -> i ∈ held s).
Proof.
  intros Hs Hl. induction ids as [|id ids (H1 & H2 & H3 & H4 & H5)]; simpl.
  { split_and!; try done. intros i c Hin. by apply elem_of_nil in Hin. }
  set (s1 := foldr release s ids) in *.
  assert (Ho : forall i c, objects (release id s1) !! i = Some c -> objects s1 !! i = Some c).
  { intros i c Hi. destruct (release_frame id s1) as (_ & _ & Hsub & _). by eapply lookup_weaken. }
  split_and!; [by apply ledger_release|by rewrite release_sessions|by rewrite release_held| |].
  - intros i c Hi. by apply H4, Ho.
  - intros i c [->|Hin]%elem_of_cons Hi; [|by eapply H5, Ho].
    destruct (decide (id ∈ held s)) as [|Hh]; [done|]. rewrite release_unheld in Hi; [done..|congruence].
Qed.

Lemma server_dtor_orphans fd s :
  sessions_inv s -> sv_ledger [fd] s -> valid (listen_channel_ s) <> None ->
    get_fd (listen_channel_ s) = fd ->
  orphaned (server_dtor s).
Proof.
  intros Hs Hl Hv Hg. unfold server_dtor. set (ids := (map_to_list (sessions_ s)).*2).
  set (s1 := set_sessions ∅ (StreamServer.emit (disable_event (listen_channel_ s)) s)).
  destruct (releases [fd] ids s1) as (H1 & H2 & H3 & H4 & H5); [done| |].
  { apply (ledger_same _ s); [done..|]. apply adds_one, disable_neutral. }
  set (s2 := foldr release s1 ids) in *. split; simpl; [|done|].
  - destruct H1 as [Hp Hval]. split; [|done]. simpl. unfold channel_dtor, get_fd in *.
    destruct (valid (listen_channel_ s)) as [l|]; [|done]. subst fd.
    rewrite registered_app, unregistered_app, Hp. simpl. rewrite app_nil_r, <- app_assoc. done.
  - intros i c Hi. rewrite H3. pose proof (H4 i c Hi) as Ho. simpl in Ho.
    destruct (si_owned s Hs i c Ho) as [[d Hd]%owned_by_map_spec|]; [|done].
    apply (H5 i c); [|done]. apply list_elem_of_fmap. exists (d, i). split; [done|].
    by apply elem_of_map_to_list.
Qed.

Lemma orphan_step_keeps s s' : orphaned s -> orphan_step s s' -> orphaned s'.
Proof.
  intros [Hl Hs Hh] [id|id Hid|id Hid|id c c' Hc Hf Hv].
  - set (s1 := set_held _ s). split.
    + by apply ledger_release, (ledger_same [] s).
    + by rewrite release_sessions.
    + intros i c Hi. rewrite release_held. simpl. destruct (decide (i = id)) as [->|Hne].
      * rewrite release_unheld in Hi; [done..|simpl; set_solver].
      * rewrite release_objects in Hi by done. simpl in Hi. apply Hh in Hi. set_solver.
  - split; [by apply (ledger_same [] s)|done|]. simpl. intros i c Hi. apply Hh in Hi. set_solver.
  - unfold session_stop. destruct (objects s !! id) eqn:E; [|done]. split; simpl; try done.
    apply (ledger_same [] s); [done..|]. apply adds_one, disable_neutral.
  - split; [by eapply ledger_channel|done|]. simpl.
    intros i d [[<- <-]|[_ Hi]]%lookup_insert_Some; by eapply Hh.
Qed.

Lemma orphans_end s s' :
  rtc orphan_step s s' -> orphaned s -> held s' = ∅ -> registered (posts_ s') ≡ₚ unregistered (posts_ s').
Proof.
  induction 1 as [s|s s1 s' Hst _ IH]; intros Hi Hh; [|by eapply IH, Hh; eapply orphan_step_keeps].
  destruct Hi as [[Hp _] _ Ho]. assert (objects s = ∅) as E.
  { apply map_empty. intros i. destruct (objects s !! i) eqn:E; [|done]. apply Ho in E. set_solver. }
  rewrite Hp, E. unfold object_fds. by rewrite map_to_list_empty, app_nil_r.
Qed.
End server.

(** ** Lives *)

(** Everything the public factories make. *)
Inductive kind :=
| KUdpNode (local : inet_addr)
| KUdpClient (local source : inet_addr)
| KUdpServer (local : inet_addr) (session_timeout_ms : Z)
| KTcpServer (local : inet_addr)
| KUnixServer (local : inet_addr)
| KTcpClient (local : inet_addr)
| KUnixClient (local : inet_addr)
| KTimer.

Section lifecycle.
Context {K : Type} `{SK : SocketKernel K, SL : !SocketLaws K, DK : DgramKernel K, TK : StreamKernel K,
  CK : ConnectKernel K} {L F X T : Type}.
Variable (loop : L) (life : nat) (cb scan : F) (clock : nat -> Z) (x0 : X) (t0 : T).

(** The descriptors registered and unregistered by a factory, and whether it
    returns an object. *)
Definition factory_ledger {A G} (r : result (K := K) (L := L) (F := G) A) : (list Z * list Z) * bool :=
  (registered (res_posts r), unregistered (res_posts r),
   match res_object r with Made _ => true | _ => false end).

Definition new_user : endpoint X := mk_endpoint x0 [] 0.

Definition udp_server_result (local : inet_addr) (ms : Z) (k : K) :=
  let '(k', s, ps) := make_udp_server loop life cb scan local ms k in
  mk_result k' ps (match s with Some s => Made s | None => Thrown end).

Definition born (x : kind) (k : K) : (list Z * list Z) * bool :=
  match x with
  | KUdpNode local => factory_ledger (make_udp_node loop life cb local k)
  | KUdpClient local source => factory_ledger (make_udp_client loop life cb local source k)
  | KUdpServer local ms => factory_ledger (udp_server_result local ms k)
  | KTcpServer local => factory_ledger (make_tcp_server loop life cb local k)
  | KUnixServer local => factory_ledger (make_unix_server loop life cb local k)
  | KTcpClient local => factory_ledger (make_tcp_client loop local new_user k)
  | KUnixClient local => factory_ledger (make_unix_client loop local new_user k)
  | KTimer => factory_ledger (make_timer loop life cb t0 k)
  end.

(** What was registered and unregistered when the factory gave no object; or, with
    an object, when it was used and destroyed, and nobody holds a session of it
    any more. *)
Inductive lived (k : K) : kind -> list Z -> list Z -> Prop :=
| lived_none x fds back : born x k = (fds, back, false) -> lived k x fds back
| lived_node local s s' :
    res_object (make_udp_node loop life cb local k) = Made s -> rtc dgram_use s s' ->
    let ps := dgram_posts s' ++ dgram_dtor s' in
    lived k (KUdpNode local) (registered ps) (unregistered ps)
| lived_udp_client local source s s' :
    res_object (make_udp_client loop life cb local source k) = Made s -> rtc dgram_use s s' ->
    let ps := dgram_posts s' ++ dgram_dtor s' in
    lived k (KUdpClient local source) (registered ps) (unregistered ps)
| lived_udp_server local ms s s' :
    res_object (udp_server_result local ms k) = Made s ->
    rtc (udp_use (DH := Udp.server_handler clock)) s s' ->
    let ps := dgram_posts (base_ s') ++ udp_dtor s' in
    lived k (KUdpServer local ms) (registered ps) (unregistered ps)
| lived_server unix local s s' e :
    res_object ((if unix : bool then make_unix_server else make_tcp_server) loop life cb local k) =
      Made s ->
    rtc sv_step s s' -> rtc orphan_step (server_dtor s') e -> held e = ∅ ->
    lived k (if unix then KUnixServer local else KTcpServer local) (registered (posts_ e))
      (unregistered (posts_ e))
| lived_client unix local s error_fun disconnect_fun c os segs s' :
    res_object ((if unix : bool then make_unix_client else make_tcp_client) loop local new_user k) =
      Made s ->
    run_client_user_ops unix life error_fun disconnect_fun os c s = Ok (s', segs) ->
    let ps := trace_posts (trace_ (st s')) ++ client_dtor s' in
    lived k (if unix then KUnixClient local else KTcpClient local) (registered ps) (unregistered ps)
| lived_timer s s' :
    res_object (make_timer loop life cb t0 k) = Made s -> rtc timer_use s s' ->
    let ps := timer_posts s' ++ timer_dtor s' in
    lived k KTimer (registered ps) (unregistered ps).

(** *** One channel *)

Lemma channel_end {G} (c c' : channel L) (ps ps' : list (post L G)) fd :
  valid c = Some loop -> get_fd c = fd -> same_channel c c' -> adds ps ps' ->
  registered (ps' ++ disable_event c' ++ channel_dtor c') = registered ps /\
  unregistered (ps' ++ disable_event c' ++ channel_dtor c') = unregistered ps ++ [fd].
Proof.
  intros Hv Hg [Hv' Hg'] [Hr Hu]%adds_ledger. rewrite Hv in Hv'. rewrite <- Hg, <- Hg'.
  unfold disable_event, channel_dtor, get_fd. rewrite Hv', !registered_app, !unregistered_app, Hr, Hu.
  simpl. by rewrite app_nil_r.
Qed.

Lemma clean_ledger {G} (m : Factories.made K L G) :
  clean_made loop m ->
  match made_channel m with
  | Some c => exists fd, 0 <= fd /\ valid c = Some loop /\ get_fd c = fd /\
      registered (made_posts m) = [fd] /\ unregistered (made_posts m) = []
  | None => registered (made_posts m) = unregistered (made_posts m)
  end.
Proof.
  unfold clean_made. destruct (made_channel m) as [c|].
  - intros (fd & ? & Hv & Hg & -> & _). by exists fd.
  - by intros [[-> | (fd & _ & ->)] _].
Qed.

(** An object around one channel: what its construction leaves. *)
Definition one_channel {A G} (r : result (K := K) (L := L) (F := G) A) (chan : A -> channel L)
    (posted : A -> list (post L G)) : Prop :=
  match res_object r with
  | Made s => exists fd, 0 <= fd /\ valid (chan s) = Some loop /\ get_fd (chan s) = fd /\
      registered (posted s) = [fd] /\ unregistered (posted s) = []
  | _ => registered (res_posts r) = unregistered (res_posts r)
  end.

Lemma with_channel_one {A G} (m : Factories.made K L G) make chan (posted : A -> list (post L G)) :
  clean_made loop m ->
  (forall c ps, same_channel c (chan (make c ps)) /\ adds ps (posted (make c ps))) ->
  one_channel (with_channel m make posted) chan posted.
Proof.
  intros Hm%clean_ledger Hmake. unfold one_channel, with_channel.
  destruct (made_channel m) as [c|]; [|done].
  simpl. destruct Hm as (fd & ? & Hv & Hg & Hr & Hu). exists fd.
  destruct (Hmake c (made_posts m)) as [[Hv' Hg'] [Hr' Hu']%adds_ledger]. by rewrite Hv', Hg', Hr', Hu'.
Qed.

Lemma dgram_one {U} `{DgramHandler U} local (u : U) (k : K) :
  one_channel (with_channel (make_dgram_channel loop local k)
      (fun c ps => dgram_start life cb (mk_dgram (made_kernel (make_dgram_channel (F := F) loop local k)) c
        false u ps [])) dgram_posts) dgram_channel_ dgram_posts.
Proof.
  apply with_channel_one; [apply (run_factory_clean loop (FDgram local) k I)|]. intros c ps.
  apply (dgram_use_keeps _ _ (du_start (mk_dgram _ c false u ps []) life cb)).
Qed.

Lemma server_one ok local (k : K) :
  one_channel (make_server loop life cb ok local k) listen_channel_ (@posts_ L F).
Proof.
  unfold make_server. destruct (negb _); [done|].
  apply with_channel_one; [apply (run_factory_clean loop (FServer local) k I)|]. intros c ps.
  unfold server_start. simpl.
  destruct (update_cb_neutral life (EventType.kRead ||| EventType.kError) EventMode.kDefault cb c).
  destruct (update_event_cb _ _ _ _ _). split; [done|by apply adds_one].
Qed.

Lemma timer_one (k : K) :
  one_channel (make_timer loop life cb t0 k) Timer.timer_channel_ timer_posts.
Proof.
  apply with_channel_one; [apply (run_factory_clean loop FPlainTimer k I)|]. intros c ps.
  apply (timer_use_keeps _ _ (tu_start (mk_timer_object t0 c false ps) life cb)).
Qed.

Lemma one_channel_none {A G} (r : result (K := K) (L := L) (F := G) A) chan posted fds back :
  one_channel r chan posted -> factory_ledger r = (fds, back, false) -> fds = back.
Proof. unfold one_channel, factory_ledger. destruct (res_object r); intros H [= <- <-]; done. Qed.

Lemma one_channel_life {A G} (r : result (K := K) (L := L) (F := G) A) chan posted s s' :
  one_channel r chan posted -> res_object r = Made s ->
  same_channel (chan s) (chan s') -> adds (posted s) (posted s') ->
  let ps := posted s' ++ disable_event (chan s') ++ channel_dtor (chan s') in registered ps =
    unregistered ps.
Proof.
  unfold one_channel. intros H Hr Hc Ha. rewrite Hr in H. destruct H as (fd & _ & Hv & Hg & Hre & Hu).
  destruct (channel_end _ _ _ _ fd Hv Hg Hc Ha) as [-> ->]. by rewrite Hre, Hu.
Qed.

Lemma dgram_life {U} `{DgramHandler U} (r : result (dgram K L F U)) s s' :
  one_channel r dgram_channel_ dgram_posts -> res_object r = Made s -> rtc dgram_use s s' ->
  let ps := dgram_posts s' ++ dgram_dtor s' in registered ps = unregistered ps.
Proof.
  intros Ho Hr Hu. destruct (uses_keep dgram_keeps dgram_use s s' dgram_use_keeps Hu) as [Hc Ha].
  by apply (one_channel_life r dgram_channel_ dgram_posts s s').
Qed.

(** *** Stream servers *)

Lemma server_start_life ok local (k : K) s :
  res_object (make_server loop life cb ok local k) = Made s ->
  sessions_inv s /\ exists fd, sv_ledger [fd] s /\ valid (listen_channel_ s) <> None /\
    get_fd (listen_channel_ s) = fd.
Proof.
  intros Hr. pose proof (server_one ok local k) as H. unfold one_channel in H. rewrite Hr in H.
  destruct H as (fd & _ & Hv & Hg & Hre & Hu). unfold make_server, with_channel in Hr.
  destruct (negb _); [done|]. destruct (made_channel _) as [c|]; [|done]. simpl in Hr.
  injection Hr as Hs. set (s0 := mk_server c _ _ _ _ _ _ _) in Hs.
  assert (Hl : valid c <> None /\ objects s = ∅).
  { revert Hv. rewrite <- Hs. unfold server_start. simpl.
    destruct (update_cb_neutral life (EventType.kRead ||| EventType.kError) EventMode.kDefault cb c)
      as [[Hc _] _]. destruct (update_event_cb _ _ _ _ _). simpl in *. intros Hv.
      split; [congruence|done]. }
  destruct Hl as [Hvc Hob]. split.
  - rewrite <- Hs. apply (sv_step_inv s0); [by split|apply sv_start].
  - exists fd. split_and!; [|congruence|done]. split; rewrite Hob; [by rewrite Hre, Hu|done].
Qed.

Lemma server_life ok local (k : K) s s' e :
  res_object (make_server loop life cb ok local k) = Made s -> rtc sv_step s s' ->
  rtc orphan_step (server_dtor s') e -> held e = ∅ -> registered (posts_ e) ≡ₚ unregistered (posts_ e).
Proof.
  intros Hr Hst Ho Hh. destruct (server_start_life ok local k s Hr) as (Hs & fd & Hl & Hv & Hg).
  destruct (ledger_steps [fd] s s' Hst Hs Hl) as (Hs' & Hl' & [Hv' Hg']).
  apply (orphans_end (server_dtor s') e Ho); [|done].
  apply (server_dtor_orphans fd s' Hs' Hl'); congruence.
Qed.

(** *** Two channels *)

Definition two_channels {G} (a b : channel L) (ps : list (post L G)) : Prop :=
  exists fd tfd, valid a = Some loop /\ get_fd a = fd /\ valid b = Some loop /\ get_fd b = tfd /\
    registered ps ≡ₚ [fd; tfd] /\ unregistered ps = [].

Lemma two_channels_end {G} (a b a' b' : channel L) (ps ps' qs : list (post L G)) :
  two_channels a b ps -> same_channel a a' -> same_channel b b' -> adds ps ps' ->
  qs ≡ₚ disable_event a' ++ disable_event b' ++ channel_dtor b' ++ channel_dtor a' ->
  registered (ps' ++ qs) ≡ₚ unregistered (ps' ++ qs).
Proof.
  intros (fd & tfd & Ha & Hga & Hb & Hgb & Hr & Hu) [Ha' Hga'] [Hb' Hgb'] [Hr' Hu']%adds_ledger Hqs.
  assert (Hre : registered qs ≡ₚ [] /\ unregistered qs ≡ₚ [tfd; fd]).
  { unfold registered, unregistered. rewrite Hqs. fold (@registered L G). fold (@unregistered L G).
    unfold disable_event, channel_dtor, get_fd in *. rewrite Ha', Hb', Ha, Hb in *. cbn [omap app].
    split; [done|]. simpl. by rewrite Hga', Hgb', Hga, Hgb. }
  destruct Hre as [Hq1 Hq2]. rewrite registered_app, unregistered_app, Hr', Hu', Hr, Hu, Hq1, Hq2.
  apply Permutation_swap.
Qed.

Lemma client_made ok local (k : K) :
  let r := make_client (L := L) loop ok local new_user k in
  match res_object r with
  | Made s => two_channels (channel_ (st s)) (connect_timer_channel_ s) (trace_posts (trace_ (st s)))
  | _ => registered (res_posts r) ≡ₚ unregistered (res_posts r)
  end.
Proof.
  cbn zeta. unfold make_client. destruct (negb _); [by cbn|]. unfold client_channels.
  set (m := make_stream_client_channel loop local k).
  pose proof (clean_ledger m (run_factory_clean loop (FClient local) k I)) as Hm.
  destruct (made_channel m) as [c|]; cycle 1.
  { cbn [res_posts res_object]. by rewrite Hm. }
  destruct Hm as (fd & _ & Hv & Hg & Ht & Hb).
  set (t := make_timer_channel loop 0 0 (made_kernel m)).
  pose proof (clean_ledger t (run_factory_clean loop (FTimer 0 0) (made_kernel m) I)) as Htm.
  destruct (made_channel t) as [tc|]; cbn [res_posts res_object].
  - destruct Htm as (tfd & _ & Hvt & Hgt & Htt & Hbt). exists fd, tfd.
    cbn [st channel_ connect_timer_channel_
      trace_]. rewrite trace_posts_map, registered_app, unregistered_app, Ht, Hb, Htt, Hbt. by split_and!.
  - unfold get_fd in Hg. rewrite Hv in Hg. unfold channel_dtor. rewrite Hv.
    rewrite !registered_app, !unregistered_app, Ht, Hb, Htm. simpl.
    rewrite app_nil_r, Hg. apply Permutation_cons_append.
Qed.

Lemma client_life unix error_fun disconnect_fun ok local (k : K) s c os segs s' :
  res_object (make_client (L := L) loop ok local new_user k) = Made s ->
  run_client_user_ops unix life error_fun disconnect_fun os c s = Ok (s', segs) ->
  let ps := trace_posts (trace_ (st s')) ++ client_dtor s' in registered ps ≡ₚ unregistered ps.
Proof.
  intros Hr Hu. pose proof (client_made ok local k) as H. cbn zeta in H. rewrite Hr in H.
  apply client_user_ops_keep in Hu as [[Hc Ha] Ht].
  by eapply (two_channels_end _ _ (channel_ (st s')) (connect_timer_channel_ s')).
Qed.

Lemma udp_server_made local ms (k : K) :
  match res_object (udp_server_result local ms k) with
  | Made s => two_channels (dgram_channel_ (base_ s)) (Udp.timer_channel_ s) (dgram_posts (base_ s))
  | _ => registered (res_posts (udp_server_result local ms k)) ≡ₚ
      unregistered (res_posts (udp_server_result local ms k))
  end.
Proof.
  unfold udp_server_result, make_udp_server. destruct (negb _); [by cbn|].
  set (m := make_dgram_channel loop local k).
  pose proof (clean_ledger m (run_factory_clean loop (FDgram local) k I)) as Hm.
  destruct (made_channel m) as [c|]; cycle 1.
  { cbn [res_posts res_object]. by rewrite Hm. }
  destruct Hm as (fd & _ & Hv & Hg & Ht & Hb).
  set (t := make_timer_channel loop _ _ (made_kernel m)).
  pose proof (clean_ledger t (run_factory_clean loop (FTimer _ _) (made_kernel m) I)) as Htm.
  destruct (made_channel t) as [tc|]; cbn [res_posts res_object].
  - destruct Htm as (tfd & _ & Hvt & Hgt & Htt & Hbt).
    set (s0 := mk_udp_socket _ tc false).
    destruct (udp_use_keeps (DH := Udp.server_handler clock) s0 _ (uu_start s0 life cb scan))
      as [[[Hc1 Hc2] [Ha1 Ha2]%adds_ledger] [Ht1 Ht2]].
    exists fd, tfd. rewrite Hc1, Hc2, Ht1, Ht2, Ha1, Ha2. simpl.
    rewrite registered_app, unregistered_app, Ht, Hb, Htt, Hbt. by split_and!.
  - unfold get_fd in Hg. rewrite Hv in Hg. unfold disable_event, channel_dtor. rewrite Hv.
    rewrite !registered_app, !unregistered_app, Ht, Hb, Htm. simpl.
    rewrite app_nil_r, Hg. apply Permutation_cons_append.
Qed.

Lemma udp_server_life local ms (k : K) s s' :
  res_object (udp_server_result local ms k) = Made s ->
  rtc (udp_use (DH := Udp.server_handler clock)) s s' ->
  let ps := dgram_posts (base_ s') ++ udp_dtor s' in registered ps ≡ₚ unregistered ps.
Proof.
  intros Hr Hu. pose proof (udp_server_made local ms k) as H. rewrite Hr in H.
  destruct (uses_keep udp_keeps udp_use s s' (udp_use_keeps (DH := Udp.server_handler clock)) Hu)
    as [[Hc Ha] Ht].
  eapply (two_channels_end _ _ (dgram_channel_ (base_ s')) (Udp.timer_channel_ s')); [exact H|done..|].
  unfold udp_dtor. rewrite app_assoc, Permutation_app_swap_app. by rewrite <- app_assoc.
Qed.

(** *** The theorem *)

Lemma lived_none_ok x (k : K) fds back : born x k = (fds, back, false) -> fds ≡ₚ back.
Proof.
  assert (Hone : forall A G (r : result (K := K) (L := L) (F := G) A) chan posted,
    one_channel r chan posted ->
    factory_ledger r = (fds, back, false) -> fds ≡ₚ back)
    by (intros * Ho Hf; by rewrite (one_channel_none r chan posted _ _ Ho Hf)).
  destruct x as [local|local source|local ms|local|local|local|local|]; simpl.
  - apply (Hone _ _ _ dgram_channel_ dgram_posts). unfold make_udp_node. destruct (negb _); [done|].
    apply dgram_one.
  - apply (Hone _ _ _ dgram_channel_ dgram_posts). unfold make_udp_client. destruct (negb _); [done|].
    apply dgram_one.
  - pose proof (udp_server_made local ms k) as H. unfold factory_ledger.
    destruct (res_object _); intros [= <- <-]; exact H.
  - apply (Hone _ _ _ listen_channel_ (@posts_ L F)), server_one.
  - apply (Hone _ _ _ listen_channel_ (@posts_ L F)), server_one.
  - pose proof (client_made tcp_family_ok local k) as H. unfold factory_ledger, make_tcp_client.
    cbn zeta in H. destruct (res_object _); intros [= <- <-]; exact H.
  - pose proof (client_made unix_family_ok local k) as H. unfold factory_ledger, make_unix_client.
    cbn zeta in H. destruct (res_object _); intros [= <- <-]; exact H.
  - apply (Hone _ _ _ Timer.timer_channel_ timer_posts), timer_one.
Qed.

(** C33: over its whole life every object of the library gives back what it took.
    Whatever the system calls answer and whatever the local address is: when the
    factory gives no object (the address is not supported, or a constructor
    throws, with members already built), the descriptors registered with the loop
    are those unregistered.  When it gives one, and the object is used in any way
    (its epoll callbacks, its public methods, the tasks they post, user callbacks
    that connect or stop, sessions accepted, held, stopped and erased), then
    destroyed, and the sessions its user still holds are dropped, all descriptors
    registered by then, those of its members and of every session, are exactly
    those unregistered, each as often.  And no operation of a session, a callback
    or a send, registers or unregisters anything. *)
Theorem sockets_release_descriptors (k : K) :
  (forall x fds back, lived k x fds back -> fds ≡ₚ back) /\
  (forall U (SH : StreamHandler U) os (s s' : stream K L F U), run_session_ops os s = Ok s' ->
     registered (trace_posts (trace_ s')) = registered (trace_posts (trace_ s)) /\
     unregistered (trace_posts (trace_ s')) = unregistered (trace_posts (trace_ s))).
Proof.
  split; [|by intros U SH os s s' [_ Ha%adds_ledger]%session_ops_keep].
  intros x fds back H.
  destruct H as [x fds back H|local s s' Hr Hu ps|local source s s' Hr Hu ps|local ms s s' Hr Hu ps
    |unix local s s' e Hr Hst Ho Hh|unix local s ef df c os segs s' Hr Hrun ps|s s' Hr Hu ps].
  - by eapply lived_none_ok.
  - assert (registered ps = unregistered ps) as ->; [|done].
    apply (dgram_life (make_udp_node loop life cb local k) s s'); [|exact Hr|exact Hu].
    unfold make_udp_node. destruct (negb _); [done|]. apply dgram_one.
  - assert (registered ps = unregistered ps) as ->; [|done].
    apply (dgram_life (make_udp_client loop life cb local source k) s s'); [|exact Hr|exact Hu].
    unfold make_udp_client. destruct (negb _); [done|]. apply dgram_one.
  - by eapply udp_server_life.
  - destruct unix; by eapply server_life.
  - destruct unix; by eapply client_life.
  - destruct (uses_keep timer_keeps timer_use s s' timer_use_keeps Hu) as [Hc Ha].
    assert (registered ps = unregistered ps) as ->; [|done].
    exact (one_channel_life _ _ _ s s' (timer_one k) Hr Hc Ha).
Qed.
End lifecycle.

(** ** Witness *)

(** Sockets nothing arrives at. *)
#[local] Instance idle_streams : StreamKernel nat := {
  sock_send k _ _ := (k, Err EAGAIN);
  sock_readv k _ _ := (k, Err EAGAIN);
  so_error k _ := (k, 0);
  accepted _ _ := [];
  unread _ _ := []
}.
#[local] Instance idle_dgrams : DgramKernel nat := {
  sock_recvfrom k _ _ := (k, Err EAGAIN);
  sock_sendto k _ _ _ _ := (k, Err EAGAIN);
  dgram_so_error k _ := (k, 0);
  queued _ _ := []
}.
#[local] Instance idle_connect : ConnectKernel nat := { sys_connect k _ _ _ := (k, Some EINPROGRESS) }.

Abbreviation demo_lived := (lived (L := nat) (F := nat) 5%nat 0%nat 1%nat 2%nat Z.of_nat () () 7%nat).

(** A server takes two connections; its user holds the first and stops the second;
    the server is destroyed, and the held session dropped. *)
Definition demo_server : server nat nat :=
  match res_object (make_tcp_server 5%nat 0%nat 1%nat demo_local 7%nat) with
  | Made s => s
  | _ => server_ctor 5%nat 0
  end.
Definition demo_accepted : server nat nat :=
  match listen_cb 1%nat EventType.kRead [Ret 20; Ret 21; Err EAGAIN] 0 demo_server with
  | Ok s => s
  | _ => demo_server
  end.
Definition demo_used : server nat nat :=
  run_erase (session_stop 1 (set_held ({[0%nat]} ∪ held demo_accepted) demo_accepted)).
Definition demo_ended : server nat nat :=
  let s := server_dtor demo_used in release 0 (set_held (held s ∖ {[0%nat]}) s).

Lemma demo_server_ledger :
  registered (posts_ demo_ended) = [7; 20; 21] /\ unregistered (posts_ demo_ended) = [21; 7; 20].
Proof. split; vm_compute; reflexivity. Qed.

(** Before, the held session has kept its descriptor. *)
Example demo_server_holding : unregistered (posts_ (server_dtor demo_used)) = [21; 7].
Proof. vm_compute. reflexivity. Qed.

Lemma demo_server_used : rtc sv_step demo_server demo_used.
Proof.
  eapply rtc_l; [apply (sv_listen 1%nat EventType.kRead [Ret 20; Ret 21; Err EAGAIN] 0 _ demo_accepted)|].
  - apply accept_okb_ok. vm_compute. reflexivity.
  - vm_compute. reflexivity.
  - eapply rtc_l; [apply (sv_hold 0); apply is_Some_alt; vm_compute; exact I|].
    eapply rtc_l; [apply (sv_session_stop 1); apply is_Some_alt; vm_compute; exact I|].
    apply rtc_once, sv_erase. vm_compute. discriminate.
Qed.

Lemma demo_server_lived : demo_lived (KTcpServer demo_local) [7; 20; 21] [21; 7; 20].
Proof.
  destruct demo_server_ledger as [<- <-].
  apply (lived_server 5%nat 0%nat 1%nat 2%nat Z.of_nat () () 7%nat false demo_local demo_server demo_used).
  - vm_compute. reflexivity.
  - exact demo_server_used.
  - apply rtc_once, or_drop.
  - vm_compute. reflexivity.
Qed.

(** A client of a port in use, and a unix server at an IPv4 address. *)
Example demo_clients :
  demo_lived (KTcpClient demo_taken) [7] [7] /\
  born (L := nat) (F := nat) 5%nat 0%nat 1%nat 2%nat () () (KUnixServer demo_local) 7%nat = ([], [], false).
Proof. split; [apply lived_none|]; vm_compute; reflexivity. Qed.

Lemma sockets_release_descriptors_witness :
  demo_lived (KTcpServer demo_local) [7; 20; 21] [21; 7; 20] /\
  (forall x fds back, demo_lived x fds back -> fds ≡ₚ back) /\
  (forall U (SH : StreamHandler U) os (s s' : stream nat nat nat U), run_session_ops os s = Ok s' ->
     registered (trace_posts (trace_ s')) = registered (trace_posts (trace_ s)) /\
     unregistered (trace_posts (trace_ s')) = unregistered (trace_posts (trace_ s))).
Proof.
  split; [exact demo_server_lived|].
  exact (sockets_release_descriptors 5%nat 0%nat 1%nat 2%nat Z.of_nat () () 7%nat).
Defined.
