(* ===== verification/UnixPaths.v ===== *)
(** * UnixPaths: unix sockets and their files

    Models [UnixServer] and [UnixClient] of [src/net/unix_socket.cpp] and
    [include/kzevent/net/unix_socket.hpp] as whole objects: the base class, the
    registered callbacks and [path_], from the factory, whose [bind] makes a file,
    to the destructor, whose [cleanup_path] removes it. *)

From S2P Require Import Prelude Events Kernel StreamBuffer LoopFd Channel InetAddr StreamIo StreamLoops.
From S2P Require Import StreamSession StreamClient StreamServer Timer Factories Dgram Udp TcpUnix Sockets.

(** The files that are unix sockets, and [unlink]. *)
Class PathKernel (K : Type) `{SocketKernel K} := {
  sys_unlink : K -> list byte -> K * sysret;
  socket_files : K -> gset (list byte)
}.

Class PathLaws (K : Type) `{PathKernel K} := {
  socket_keeps k fam ty k' r : sys_socket k fam ty = (k', r) -> socket_files k' = socket_files k;
  setsockopt_keeps k fd o k' r : sys_setsockopt k fd o = (k', r) -> socket_files k' = socket_files k;
  listen_keeps k fd k' r : sys_listen k fd = (k', r) -> socket_files k' = socket_files k;
  timerfd_keeps k k' r : timerfd_create k = (k', r) -> socket_files k' = socket_files k;
  bind_fails k fd m n k' e : sys_bind k fd m n = (k', Some e) -> socket_files k' = socket_files k;
  bind_makes k fd s a k' :
    make_unix s = Some a -> sys_bind k fd (get_sockaddr a) (get_socklen a) = (k', None) ->
    s ∉ socket_files k /\ socket_files k' = {[s]} ∪ socket_files k;
  bind_abstract k fd s a k' :
    make_abstract s = Some a -> sys_bind k fd (get_sockaddr a) (get_socklen a) = (k', None) ->
    socket_files k' = socket_files k;
  unlink_removes k s k' : sys_unlink k s = (k', None) -> socket_files k' = socket_files k ∖ {[s]};
  unlink_fails k s k' e : sys_unlink k s = (k', Some e) -> socket_files k' = socket_files k
}.

(** ** The objects *)

Record unix_object (A X : Type) := mk_unix_object {
  unix_base : A;
  unix_cbs : callbacks X;
  path_ : list byte
}.
Arguments mk_unix_object {A X} _ _ _.
Arguments unix_base {A X} _.
Arguments unix_cbs {A X} _.
Arguments path_ {A X} _.

Definition no_callbacks {X} : callbacks X := mk_callbacks None false false false.

(** [UnixServer(loop, local)] and [UnixClient(loop, local)]: the base, whose
    constructor may throw, then [path_]. *)
Definition with_path {K L F A X} `{AddrServices} (local : inet_addr) (r : result (K := K) (L :=
  L) (F := F) A)
    : result (K := K) (L := L) (F := F) (unix_object A X) :=
  mk_result (res_kernel r) (res_posts r)
    (match res_object r with
     | NotSupported => NotSupported
     | Thrown => Thrown
     | Made a => Made (mk_unix_object a no_callbacks (get_ip_or_path local))
     end).

(** The setters. *)
Definition on_callbacks {A X} (f : callbacks X -> callbacks X) (o : unix_object A X) : unix_object A X :=
  mk_unix_object (unix_base o) (f (unix_cbs o)) (path_ o).
Definition unix_set_split_cb {A X} (f : option (list byte -> X -> X * Z)) : unix_object A X ->
  unix_object A X :=
  on_callbacks (set_split_cb f).
Definition unix_set_fragment_cb {A X} (b : bool) : unix_object A X -> unix_object A X :=
  on_callbacks (set_fragment_cb b).
Definition unix_set_error_cb {A X} (b : bool) : unix_object A X -> unix_object A X :=
  on_callbacks (set_error_cb b).
Definition unix_set_disconnect_cb {A X} (b : bool) : unix_object A X -> unix_object A X :=
  on_callbacks (set_disconnect_cb b).

(** [~UnixServer()] and [~UnixClient()]: [cleanup_path()], then the base. *)
Definition unix_dtor {K A X G} `{PathKernel K} (dtor : A -> G) (o : unix_object A X) (k : K) : K * G :=
  let k1 := match cleanup_path (path_ o) with Some p => (sys_unlink k p).1 | None => k end in
  (k1, dtor (unix_base o)).

Section unix.
Context {K : Type} `{PK : PathKernel K, PL : !PathLaws K} `{AS : AddrServices} {L X : Type}.
Variable (loop : L).

(** [make_unix_server] and [make_unix_client] *)
Definition make_unix_server_object {F} (life : nat) (cb : F) (local : inet_addr) (k : K)
    : result (K := K) (L := L) (F := F) (unix_object (server L F) X) :=
  with_path local (make_unix_server loop life cb local k).
Definition make_unix_client_object {U} (local : inet_addr) (u : U) (k : K)
    : result (K := K) (L := L) (F := client_fun) (unix_object (client K L U) X) :=
  with_path local (make_unix_client loop local u k).

(** What a factory does to the files: nothing, or [bind] made that of its path. *)
Definition files_after (s : list byte) (k k' : K) : Prop :=
  s ∉ socket_files k /\ socket_files k' = {[s]} ∪ socket_files k.

Lemma files_after_keep s k k1 k2 k3 :
  socket_files k1 = socket_files k -> files_after s k1 k2 -> socket_files k3 = socket_files k2 ->
  files_after s k k3.
Proof. unfold files_after. intros -> [Hs ->] ->. done. Qed.

(** A channel factory for the address of a path. *)
Definition channel_files {F} (s : list byte) (k : K) (m : Factories.made K L F) : Prop :=
  match made_channel m with
  | Some _ => files_after s k (made_kernel m)
  | None => socket_files (made_kernel m) = socket_files k \/ files_after s k (made_kernel m)
  end.

Lemma server_channel_files {F} s a (k : K) :
  make_unix s = Some a -> channel_files s k (make_stream_server_channel (F := F) loop a k).
Proof.
  intros Ha. destruct (unix_info a s Ha) as (Hf & _). unfold make_stream_server_channel, family_of.
  destruct (sys_socket k _ _) as [k1 [fd|e]] eqn:E1; apply socket_keeps in E1; [|by left]. simpl.
  destruct (sys_setsockopt k1 fd _) as [k2 [e|]] eqn:E2; apply setsockopt_keeps in E2; simpl;
    [left; simpl; congruence|].
  unfold option_for, family_of. rewrite Hf. simpl.
  destruct (sys_bind k2 fd _ _) as [k4 [e|]] eqn:E4; simpl.
  { apply bind_fails in E4. left. simpl. congruence. }
  apply (bind_makes _ _ _ _ _ Ha) in E4. fold (files_after s k2 k4) in E4.
  destruct (sys_listen k4 fd) as [k5 [e|]] eqn:E5; apply listen_keeps in E5; [right|];
    (eapply files_after_keep; [|exact E4|exact E5]; congruence).
Qed.

Lemma client_channel_files {F} s a (k : K) :
  make_unix s = Some a -> channel_files s k (make_stream_client_channel (F := F) loop a k).
Proof.
  intros Ha. destruct (unix_info a s Ha) as (Hf & _). unfold make_stream_client_channel, family_of.
  destruct (sys_socket k _ _) as [k1 [fd|e]] eqn:E1; apply socket_keeps in E1; [|by left]. simpl.
  unfold option_for, family_of. rewrite Hf. simpl.
  destruct (sys_bind k1 fd _ _) as [k4 [e|]] eqn:E4; simpl.
  { apply bind_fails in E4. left. simpl. congruence. }
  apply (bind_makes _ _ _ _ _ Ha) in E4. by eapply files_after_keep.
Qed.

(** A factory of objects: an object has its file; an exception may leave it. *)
Definition object_files {F A} (s : list byte) (k : K) (r : result (K := K) (L := L) (F := F) A)
    (path : A -> list byte) : Prop :=
  match res_object r with
  | NotSupported => False
  | Thrown => socket_files (res_kernel r) = socket_files k \/ files_after s k (res_kernel r)
  | Made o => files_after s k (res_kernel r) /\ path o = s
  end.

Lemma unix_server_files {F} life (cb : F) s a (k : K) :
  make_unix s = Some a -> object_files s k (make_unix_server_object life cb a k) path_.
Proof.
  intros Ha. destruct (unix_info a s Ha) as (Hf & _ & Hp).
  unfold make_unix_server_object, make_unix_server, make_server, unix_family_ok, with_path, object_files.
  rewrite Hf. simpl. pose proof (server_channel_files (F := F) s a k Ha) as Hc.
  unfold with_channel, channel_files in *.
  destruct (made_channel (make_stream_server_channel loop a k)); simpl; done.
Qed.

Lemma timer_channel_keeps {F} (k : K) :
  socket_files (made_kernel (make_timer_channel (F := F) loop 0 0 k)) = socket_files k.
Proof.
  unfold make_timer_channel. destruct (timerfd_create k) as [k1 [fd|e]] eqn:E; by apply timerfd_keeps in E.
Qed.

Lemma unix_client_files {U} (u : U) s a (k : K) :
  make_unix s = Some a -> object_files s k (make_unix_client_object a u k) path_.
Proof.
  intros Ha. destruct (unix_info a s Ha) as (Hf & _ & Hp).
  unfold make_unix_client_object, make_unix_client, make_client, unix_family_ok, with_path, object_files.
  rewrite Hf. simpl. unfold client_channels.
  pose proof (client_channel_files (F := client_fun) s a k Ha) as Hc. unfold channel_files in Hc.
  set (m := make_stream_client_channel loop a k) in *.
  pose proof (timer_channel_keeps (F := client_fun) (made_kernel m)) as Ht.
  destruct (made_channel m); simpl; [|done].
  destruct (made_channel (make_timer_channel loop 0 0 (made_kernel m))); simpl.
  - split; [|done]. by eapply files_after_keep.
  - right. by eapply files_after_keep.
Qed.

(** Nothing but [s] is removed. *)
Definition file_removed (s : list byte) (k k' : K) : Prop :=
  if bool_decide (head s = Some 64) then socket_files k' = socket_files k
  else socket_files k' = socket_files k ∖ {[s]} \/
    exists e, (sys_unlink k s).2 = Some e /\ socket_files k' = socket_files k.

(** The destructor of an object of path [s], whatever has happened since. *)
Lemma unix_dtor_files {A Y G} (dtor : A -> G) (o : unix_object A Y) s a (k : K) :
  make_unix s = Some a -> path_ o = s ->
  file_removed s k (unix_dtor dtor o k).1.
Proof.
  intros Ha Hp. unfold unix_dtor, file_removed. rewrite Hp.
  pose proof (proj1 (cleanup_removes_own_path a s) Ha) as Hc. destruct (unix_info a s Ha) as (_ & _ & Hi).
  rewrite Hi in Hc. rewrite Hc. case_bool_decide; simpl; [done|].
  destruct (sys_unlink k s) as [k1 [e|]] eqn:E; simpl.
  - apply unlink_fails in E. right. by exists e.
  - left. by apply unlink_removes in E.
Qed.

(** C34: the file of a unix server and of a unix client.  For the address of a path [s],
    whatever the system calls answer: the factory gives an object only with a new
    file [s]; an exception leaves the files as they were, or [s] with nothing to
    remove it (the server's when [listen] is refused, the client's when its timer
    is); and the destructor removes that file and no other, unless [unlink] is
    refused, or the path starts with ['@']. *)
Theorem unix_files_follow_objects {F U Y} life (cb : F) (u : U) s a (k : K)
    (o : unix_object (server L F) Y) (o' : unix_object (client K L U) Y) k2 :
  make_unix s = Some a -> path_ o = s -> path_ o' = s ->
  object_files s k (make_unix_server_object life cb a k) path_ /\
  object_files s k (make_unix_client_object a u k) path_ /\
  file_removed s k2 (unix_dtor server_dtor o k2).1 /\ file_removed s k2 (unix_dtor client_dtor o' k2).1.
Proof.
  intros Ha Ho Ho'. split_and!; [by apply unix_server_files|by apply unix_client_files| |];
    by eapply unix_dtor_files.
Qed.

(** The constructor of the base throws after [bind]: [path_] does not exist yet,
    and nothing removes the file. *)
Theorem refused_listen_leaves_file {F} life (cb : F) s a (k k1 k2 k3 k4 : K) fd e :
  make_unix s = Some a ->
  sys_socket k AF_UNIX SOCK_STREAM = (k1, Ret fd) -> sys_setsockopt k1 fd SO_REUSEADDR = (k2, None) ->
  sys_bind k2 fd (get_sockaddr a) (get_socklen a) = (k3, None) -> sys_listen k3 fd = (k4, Some e) ->
  let r := make_unix_server_object life cb a k in
  res_object r = Thrown /\ s ∉ socket_files k /\ s ∈ socket_files (res_kernel r).
Proof.
  intros Ha H1 H2 H3 H4. destruct (unix_info a s Ha) as (Hf & _ & _).
  unfold make_unix_server_object, make_unix_server, make_server, unix_family_ok, with_path, with_channel.
  rewrite Hf. simpl. unfold make_stream_server_channel, option_for, family_of. rewrite Hf, H1. simpl.
  rewrite H2. simpl. rewrite H3. simpl. rewrite H4. simpl. split; [done|].
  apply socket_keeps in H1. apply setsockopt_keeps in H2. apply (bind_makes _ _ _ _ _ Ha) in H3 as [Hs H3].
  apply listen_keeps in H4. rewrite H4, H3. split; [congruence|set_solver].
Qed.
End unix.

(** ** A concrete kernel: files, and whether [listen] is refused *)

Record demo_unix := mk_demo_unix { next_fd : nat; sockets_at : gset (list byte); deaf : bool }.

#[export] Instance demo_unix_sockets : SocketKernel demo_unix := {
  sys_socket k _ _ := (mk_demo_unix (S (next_fd k)) (sockets_at k) (deaf k), Ret (Z.of_nat (next_fd k)));
  sys_setsockopt k _ _ := (k, None);
  sys_bind k _ m n :=
    let s := get_ip_or_path (mk_addr m n) in
    if negb (family (mk_addr m n) =? AF_UNIX) || (get_byte base m =? 0) then (k, None)
    else if decide (s ∈ sockets_at k) then (k, Some EADDRINUSE)
    else (mk_demo_unix (next_fd k) ({[s]} ∪ sockets_at k) (deaf k), None);
  sys_listen k _ := (k, if deaf k then Some EADDRINUSE else None);
  timerfd_create k := (mk_demo_unix (S (next_fd k)) (sockets_at k) (deaf k), Ret (Z.of_nat (next_fd k)));
  timerfd_settime k _ _ := (k, None)
}.

#[export] Instance demo_unix_paths : PathKernel demo_unix := {
  sys_unlink k s :=
    if decide (s ∈ sockets_at k) then (mk_demo_unix (next_fd k) (sockets_at k ∖ {[s]}) (deaf k), None)
    else (k, Some 2);
  socket_files := sockets_at
}.

Lemma unix_not_abstract s a : make_unix s = Some a -> (get_byte base (get_sockaddr a) =? 0) = false.
Proof.
  intros [(Hz & Hne & _) ->]%make_unix_shape. unfold get_sockaddr, padded, base. cbn [addr_storage_].
  rewrite <- !app_assoc. by apply (head_not_zero s).
Qed.

Lemma abstract_is_abstract s a : make_abstract s = Some a -> (get_byte base (get_sockaddr a) =? 0) = true.
Proof. by intros [_ ->]%make_abstract_shape. Qed.

#[export] Instance demo_unix_path_laws : PathLaws demo_unix.
Proof.
  split; simpl.
  - by intros k fam ty k' r [= <- <-].
  - by intros k fd o k' r [= <- <-].
  - by intros k fd k' r [= <- <-].
  - by intros k k' r [= <- <-].
  - intros k fd m n k' e H. destruct (_ || _); [done|]. by destruct (decide _); simplify_eq.
  - intros k fd s a k' Ha H. rewrite (unix_not_abstract s a Ha) in H.
    change (mk_addr (get_sockaddr a) (get_socklen a)) with (mk_addr (addr_storage_ a) (socklen_ a)) in H.
    destruct (unix_info a s Ha) as (Hf & _ & Hp). destruct a as [m n]. simpl in *. rewrite Hf, Hp in H.
    simpl in H. destruct (decide _); simplify_eq/=. done.
  - intros k fd s a k' Ha H. rewrite (abstract_is_abstract s a Ha), orb_true_r in H. by simplify_eq.
  - intros k s k' H. by destruct (decide _); simplify_eq/=.
  - intros k s k' e H. by destruct (decide _); simplify_eq/=.
Qed.

Definition demo_unix_addr : inet_addr := demo_addr (make_unix demo_path).

Lemma unix_files_follow_objects_witness :
  let k := mk_demo_unix 7 ∅ false in
  let k2 := mk_demo_unix 9 {[demo_path]} false in
  let o := mk_unix_object (mk_server (mk_channel (Some 5%nat) 7 0 0) false ∅ ∅ ∅ [] [] 0) no_callbacks
    demo_path in
  let o' := mk_unix_object (mk_client
    (mk_stream k (SB.make_sb 4) (SB.make_sb 4) (mk_channel (Some 5%nat) 7 0 0) () [])
    (mk_channel (Some 5%nat) 8 0 0) false Disconnected) no_callbacks demo_path in
  object_files (L := nat) (F := nat) demo_path k
    (make_unix_server_object (X := nat) 5%nat 0%nat 1%nat demo_unix_addr k) path_ /\
  object_files (L := nat) demo_path k (make_unix_client_object (X :=
    nat) 5%nat demo_unix_addr () k) path_ /\
  file_removed demo_path k2 (unix_dtor (X := nat) (server_dtor (L := nat) (F := nat)) o k2).1 /\
  file_removed demo_path k2 (unix_dtor (X := nat) client_dtor o' k2).1.
Proof. intros k k2 o o'. by apply unix_files_follow_objects. Defined.

(** A server whose [listen] is refused leaves its file; so the next one, whose
    [bind] finds it, fails as well. *)
Lemma refused_listen_leaves_file_witness :
  let r := make_unix_server_object (X := nat) (L :=
    nat) 5%nat 0%nat 1%nat demo_unix_addr (mk_demo_unix 7 ∅ true) in
  res_object r = Thrown /\ demo_path ∉ socket_files (mk_demo_unix 7 ∅ true) /\
  demo_path ∈ socket_files (res_kernel r).
Proof.
  intros r. by eapply refused_listen_leaves_file.
Defined.
