(* ===== verification/Log.v ===== *)
(** * Log: the rotating log file, the logging front end, and sys_error

    Models [src/log.cpp], [include/kzevent/log.hpp] and
    [include/kzevent/sys_error.hpp].  The directory is a list of the files
    opened so far, oldest first, each with the time its name is made from and
    the lines written since that [open]; two entries of the same second are one
    file, opened in append mode.  [open_ok n] tells whether the [n]-th [open]
    succeeds, [clock n] is the [n]-th reading of the clock in seconds, [stamp]
    and [file_stamp] what [std::put_time] prints; [dir_exists n] is the answer of
    the [n]-th [fs::exists] ([None]: it throws), [dir_created n] that of
    [fs::create_directories] after it.  [write_ok n i] tells whether
    line [i] of the [n]-th opening reaches the file: a stream that failed drops
    every line until the next [open] clears its state, and nothing reports it
    (what a failed write left of its line is not in the model).  [write] runs
    under [write_mtx_], so writers are one sequence. *)

From stdpp Require Import strings pretty.
From S2P Require Import Prelude.

#[local] Open Scope string_scope.
#[local] Open Scope Z_scope.

Inductive Level := kInfo | kError | kFatal.

Definition level_to_string (level : Level) : string :=
  match level with kInfo => "INFO " | kError => "ERROR" | kFatal => "FATAL" end.

Definition kMaxLines : Z := 5000.

(** A record to write: level, thread and payload. *)
Definition log_call : Type := Level * string * string.

(** What goes to [std::cerr]. *)
Inductive cerr_line := CreateFailed (err : Z) | OpenFailed (name : string).

#[export] Instance cerr_line_eq_dec : EqDecision cerr_line.
Proof. solve_decision. Defined.

Definition is_open_failure (m : cerr_line) : Prop := match m with OpenFailed _ => True | _ => False end.
#[export] Instance is_open_failure_dec m : Decision (is_open_failure m).
Proof. destruct m; apply _. Defined.

(** ** The manager *)

Section log.
Variable (open_ok : nat -> bool) (write_ok : nat -> Z -> bool) (clock : nat ->
  Z) (stamp file_stamp : Z -> string).
Variable (dir_exists : nat -> option bool) (dir_created : nat -> option Z).

Record log_manager := mk_log {
  (** [log_file_.is_open()] *)
  is_open : bool;
  (** [log_file_.good()], of an open file *)
  is_good : bool;
  current_line_count_ : Z;
  files : list (Z * list string);
  opens : nat;
  clock_reads : nat;
  cerr : list cerr_line;
  (** the lines given to an open file that failed; not in the code *)
  dropped : nat
}.

(** [LogManager()], from the answer of [fs::exists] and the error of
    [fs::create_directories]. *)
Definition manager_ctor (exists_ : bool) (ec : option Z) : log_manager :=
  mk_log false true 0 [] 0 0
    (match exists_, ec with false, Some e => [CreateFailed e] | _, _ => [] end) 0.

Definition file_name (t : Z) : string := String.app "kz_log_" (String.app (file_stamp t) ".txt").

Definition new_log_file (s : log_manager) : log_manager :=
  let now := clock (clock_reads s) in
  if open_ok (opens s)
  then mk_log true true 0 (files s ++ [(now, [])])%list (S (opens s)) (S (clock_reads s)) (cerr s)
         (dropped s)
  else mk_log false false 0 (files s) (S (opens s)) (S (clock_reads s))
         (cerr s ++ [OpenFailed (file_name now)])%list (dropped s).

(** Output goes to the open file while its stream is good; on a closed stream it
    is dropped. *)
Definition put_line (line : string) (s : log_manager) : log_manager :=
  if is_open s then
    match rev (files s) with
    | (t, ls) :: older =>
        if is_good s && write_ok (opens s) (current_line_count_ s)
        then mk_log true true (current_line_count_ s) (rev older ++ [(t, ls ++ [line])])%list
               (opens s) (clock_reads s) (cerr s) (dropped s)
        else mk_log true false (current_line_count_ s) (files s) (opens s) (clock_reads s) (cerr s)
               (S (dropped s))
    | [] => s
    end
  else s.

Definition format_line (t : Z) (level : Level) (tid payload : string) : string :=
  String.app "[" (String.app (stamp t) (String.app "] [" (String.app (level_to_string level)
    (String.app "] [TID:" (String.app tid (String.app "] " payload)))))).

Definition tick (s : log_manager) : log_manager :=
  mk_log (is_open s) (is_good s) (current_line_count_ s) (files s) (opens s) (S (clock_reads s))
    (cerr s) (dropped s).
Definition count_line (s : log_manager) : log_manager :=
  mk_log (is_open s) (is_good s) (current_line_count_ s + 1) (files s) (opens s) (clock_reads s)
    (cerr s) (dropped s).

Definition needs_file (s : log_manager) : bool := negb (is_open s) || (kMaxLines <=? current_line_count_ s).

Definition write (c : log_call) (s : log_manager) : log_manager :=
  let s1 := if needs_file s then new_log_file s else s in
  let now := clock (clock_reads s1) in
  count_line (put_line (format_line now c.1.1 c.1.2 c.2) (tick s1)).

(** [LogManager::instance()]: the static is made by the first call whose
    constructor does not throw. *)
Record logger := mk_logger { manager : option log_manager; tries : nat }.

Definition logger_init : logger := mk_logger None 0.

Definition instance (s : logger) : logger :=
  match manager s with
  | Some _ => s
  | None =>
      mk_logger ((fun b => manager_ctor b (dir_created (tries s))) <$> dir_exists (tries s)) (S (tries s))
  end.

(** [log_impl]: an exception of the constructor is swallowed with the line. *)
Definition log_impl (c : log_call) (s : logger) : logger :=
  let s1 := instance s in
  match manager s1 with
  | Some m => mk_logger (Some (write c m)) (tries s1)
  | None => s1
  end.

Definition log_all (cs : list log_call) (s : logger) : logger := foldl (fun s c => log_impl c s) s cs.

(** [log(level, args...)]: the arguments as [operator<<] prints them, on thread
    [tid]; and the three macros, with [__FILE__] and [__LINE__]. *)
Definition log (tid : string) (level : Level) (args : list string) (s : logger) : logger :=
  log_impl (level, tid, String.concat "" args) s.

Definition kz_log (tid : string) (level : Level) (file : string) (line : Z) (args : list string)
    (s : logger) : logger :=
  log tid level ("[" :: file :: ":" :: pretty line :: "] " :: args) s.

(** ** What is lost *)

Definition log_files (s : logger) : list (Z * list string) := default [] (files <$> manager s).
Definition log_lines (s : logger) : list string := concat (map snd (log_files s)).

(** The calls that found no manager, those that found no file, each reported on
    [std::cerr], and those whose file had failed. *)
Definition thrown (s : logger) : nat := match manager s with Some _ => pred (tries s) | None => tries s end.
Definition reported (s : logger) : nat :=
  length (filter is_open_failure (default [] (cerr <$> manager s))).
Definition lost (s : logger) : nat := default 0%nat (dropped <$> manager s).

(** A line of a call is stamped by some reading of the clock. *)
Definition line_of (c : log_call) (line : string) : Prop :=
  exists t, line = format_line t c.1.1 c.1.2 c.2.

(** The log without its contents: no manager yet, no open file, or a file with
    so many lines and the state of its stream; and what becomes of the next
    line: written, dropped by the stream, or without a file. *)
Inductive phase := Unborn (n : nat) | Closed (n : nat) | Writing (n : nat) (count : Z) (good : bool).
Inductive outcome := Written | Dropped | NoFile.

Definition try_write (n : nat) (count : Z) (good : bool) : outcome * phase :=
  if good && write_ok n count then (Written, Writing n (count + 1) true)
  else (Dropped, Writing n (count + 1) false).

Definition try_open (n : nat) : outcome * phase :=
  if open_ok n then try_write (S n) 0 true else (NoFile, Closed (S n)).

Definition next_phase (p : phase) : outcome * phase :=
  match p with
  | Unborn n => match dir_exists n with Some _ => try_open 0 | None => (NoFile, Unborn (S n)) end
  | Closed n => try_open n
  | Writing n count good => if kMaxLines <=? count then try_open n else try_write n count good
  end.

Fixpoint written (p : phase) (cs : list log_call) : list log_call :=
  match cs with
  | [] => []
  | c :: cs' =>
      match next_phase p with
      | (Written, p') => c :: written p' cs'
      | (_, p') => written p' cs'
      end
  end.

Definition lines_of (m : log_manager) : list string := concat (map snd (files m)).
Definition failures (m : log_manager) : nat := length (filter is_open_failure (cerr m)).
(** The lines its files were given. *)
Definition given (m : log_manager) : Z := zlen (lines_of m) + Z.of_nat (dropped m).

(** A manager in a phase: every file but the last was given [kMaxLines] lines. *)
Definition manager_at (p : phase) (m : log_manager) : Prop :=
  Forall (fun f => zlen f.2 <= kMaxLines) (files m) /\
  match p with
  | Unborn _ => False
  | Closed n => is_open m = false /\ opens m = n /\ given m = kMaxLines * zlen (files m)
  | Writing n count good => exists older t ls,
      is_open m = true /\ is_good m = good /\ opens m = n /\ current_line_count_ m = count /\
      files m = (older ++ [(t, ls)])%list /\ zlen ls <= count /\ 1 <= count <= kMaxLines /\
      given m = kMaxLines * zlen older + count
  end.

Definition logger_at (p : phase) (s : logger) : Prop :=
  match manager s with
  | None => p = Unborn (tries s)
  | Some m => tries s <> 0%nat /\ manager_at p m
  end.

(** One line more, one dropped more, or one failure more. *)
Definition wrote (c : log_call) (o : outcome) (ls ls' : list string) (d d' k k' : nat) : Prop :=
  match o with
  | Written => (exists line, line_of c line /\ ls' = (ls ++ [line])%list) /\ d' = d /\ k' = k
  | Dropped => ls' = ls /\ d' = S d /\ k' = k
  | NoFile => ls' = ls /\ d' = d /\ k' = S k
  end.

Lemma lines_last (older : list (Z * list string)) t ls :
  concat (map snd (older ++ [(t, ls)])) = (concat (map snd older) ++ ls)%list.
Proof. rewrite map_app, concat_app. simpl. by rewrite app_nil_r. Qed.

(** A line put on an open file. *)
Lemma put_line_open c now n count good older t ls m :
  is_open m = true -> is_good m = good -> opens m = n -> current_line_count_ m = count ->
  files m = (older ++ [(t, ls)])%list -> zlen ls <= count -> 0 <= count < kMaxLines ->
  Forall (fun f => zlen f.2 <= kMaxLines) older -> given m = kMaxLines * zlen older + count ->
  let m' := count_line (put_line (format_line now c.1.1 c.1.2 c.2) (tick m)) in
  manager_at (try_write n count good).2 m' /\
  wrote c (try_write n count good).1 (lines_of m) (lines_of m') (dropped m) (dropped m')
    (failures m) (failures m').
Proof.
  intros Ho Hg Hn Hc Hf Hl Hb Hall Hgiven m'. unfold try_write.
  assert (Hsplit : forall line, Forall (fun f => zlen f.2 <= kMaxLines) (older ++ [(t, line)]) <->
    zlen line <= kMaxLines).
  { intros line. rewrite Forall_app, Forall_singleton. simpl. tauto. }
  assert (Hm : m' = if good && write_ok n count
    then mk_log true true (count + 1) (older ++ [(t, ls ++ [format_line now c.1.1 c.1.2 c.2])])%list
           n (S (clock_reads m)) (cerr m) (dropped m)
    else mk_log true false (count + 1) (older ++ [(t, ls)])%list n (S (clock_reads m)) (cerr m)
           (S (dropped m))).
  { unfold m', put_line, tick, count_line. simpl. rewrite Ho, Hf, rev_app_distr, Hg, Hn, Hc. simpl.
    rewrite rev_involutive. by destruct (good && write_ok n count). }
  clearbody m'. subst m'. unfold given, lines_of in *. rewrite Hf, lines_last, zlen_app in Hgiven.
  destruct (good && write_ok n count); simpl.
  - split; [split|].
    + apply Hsplit. rewrite zlen_app. change (zlen [_]) with 1. lia.
    + exists older, t, (ls ++ [format_line now c.1.1 c.1.2 c.2])%list. unfold given, lines_of. simpl.
      rewrite lines_last, !zlen_app. change (zlen [_]) with 1. split_and!; try done; lia.
    + split_and!; [|done|done]. eexists. split; [by eexists|]. by rewrite Hf, !lines_last, app_assoc.
  - split; [split|].
    + apply Hsplit. lia.
    + exists older, t, ls. unfold given, lines_of. simpl. rewrite lines_last, zlen_app.
      split_and!; try done; lia.
    + by rewrite Hf.
Qed.

(** A line that needs a file: the opening decides. *)
Lemma put_line_new c m now :
  Forall (fun f => zlen f.2 <= kMaxLines) (files m) -> given m = kMaxLines * zlen (files m) ->
  let m' := count_line (put_line (format_line now c.1.1 c.1.2 c.2) (tick (new_log_file m))) in
  manager_at (try_open (opens m)).2 m' /\
  wrote c (try_open (opens m)).1 (lines_of m) (lines_of m') (dropped m) (dropped m')
    (failures m) (failures m').
Proof.
  intros Hf Hg m'. unfold try_open, new_log_file in *. destruct (open_ok (opens m)).
  - set (m1 := mk_log true true 0 _ _ _ _ _) in m'.
    assert (Hl : lines_of m1 = lines_of m).
    { unfold lines_of. simpl. by rewrite lines_last, app_nil_r. }
    destruct (put_line_open c now (S (opens m)) 0 true (files m) (clock (clock_reads m)) [] m1)
      as [H1 H2]; try done.
    { unfold given in *. rewrite Hl. change (dropped m1) with (dropped m). lia. }
    split; [exact H1|]. by rewrite Hl in H2.
  - split; [by split|]. split; [done|]. unfold m', failures. simpl.
    rewrite filter_app, length_app. simpl. lia.
Qed.

Lemma write_at_phase c p m :
  manager_at p m ->
  manager_at (next_phase p).2 (write c m) /\
  wrote c (next_phase p).1 (lines_of m) (lines_of (write c m)) (dropped m) (dropped (write c m))
    (failures m) (failures (write c m)).
Proof.
  intros [Hall Hm]. destruct p as [|n|n count good]; [done| |].
  - destruct Hm as (Ho & <- & Hg). unfold write, needs_file. rewrite Ho. simpl. by apply put_line_new.
  - destruct Hm as (older & t & ls & Ho & Hgood & Hn & Hc & Hf & Hl & Hb & Hg).
    unfold write, needs_file. rewrite Ho, Hc. simpl. destruct (Z.leb_spec kMaxLines count).
    + rewrite <- Hn. apply put_line_new; [done|]. rewrite Hg, Hf, zlen_app. change (zlen [_]) with 1. lia.
    + rewrite Hf in Hall. apply Forall_app in Hall as [Hall _]. eapply put_line_open; eauto; lia.
Qed.

(** A logger with a manager in a phase. *)
Lemma logger_with c o p m m' n :
  n <> 0%nat -> manager_at p m' ->
  wrote c o (lines_of m) (lines_of m') (dropped m) (dropped m') (failures m) (failures m') ->
  logger_at p (mk_logger (Some m') n) /\
  wrote c o (lines_of m) (log_lines (mk_logger (Some m') n))
    (dropped m) (lost (mk_logger (Some m') n))
    (pred n + failures m) (thrown (mk_logger (Some m') n) + reported (mk_logger (Some m') n)).
Proof.
  intros Hn Hm Hw. split; [by split|].
  unfold log_lines, log_files, thrown, reported, lost, wrote, lines_of, failures in *. simpl.
  destruct o; [destruct Hw as (? & -> & ->)|destruct Hw as (-> & -> & ->)..]; split_and!;
    first [done|lia].
Qed.

Lemma log_impl_at_phase c p s :
  logger_at p s ->
  logger_at (next_phase p).2 (log_impl c s) /\
  wrote c (next_phase p).1 (log_lines s) (log_lines (log_impl c s)) (lost s) (lost (log_impl c s))
    (thrown s + reported s) (thrown (log_impl c s) + reported (log_impl c s)).
Proof.
  destruct s as [[m|] n]; unfold logger_at, log_impl, instance; cbn [manager tries].
  - intros [Hn Hm]. destruct (write_at_phase c p m Hm). by apply logger_with.
  - intros ->. cbn [next_phase]. destruct (dir_exists n) as [b|];
      cbn [fmap option_fmap option_map manager tries].
    + destruct (write_at_phase c (Closed 0) (manager_ctor b (dir_created n))) as [H1 H2];
        [by repeat split|].
      destruct (logger_with c _ _ _ _ (S n) (Nat.neq_succ_0 n) H1 H2) as [? Hw]. split; [done|].
      unfold manager_ctor, lines_of, failures in Hw. simpl in Hw.
      replace (length _) with 0%nat in Hw by (by destruct b, (dir_created n)). exact Hw.
    + by split_and!.
Qed.

Lemma log_all_at_phase cs p s :
  logger_at p s ->
  exists p' ls, logger_at p' (log_all cs s) /\ Forall2 line_of (written p cs) ls /\
    log_lines (log_all cs s) = (log_lines s ++ ls)%list /\
    (thrown (log_all cs s) + reported (log_all cs s) + lost (log_all cs s) + length (written p cs) =
     thrown s + reported s + lost s + length cs)%nat.
Proof.
  revert p s. induction cs as [|c cs IH]; intros p s Hp; simpl.
  { exists p, []. rewrite app_nil_r. split_and!; [done|constructor|done|lia]. }
  destruct (log_impl_at_phase c p s Hp) as [H1 H2]. destruct (next_phase p) as [o p1]. simpl in *.
  destruct (IH p1 _ H1) as (p' & ls & Hp' & Hls & Hl & Hk).
  destruct o; simpl in H2.
  - destruct H2 as ((line & Hline & Hl1) & Hd1 & Hk1). exists p', (line :: ls).
    split_and!; [done|by constructor| |simpl; lia].
    by rewrite Hl, Hl1, <- app_assoc.
  - destruct H2 as (Hl1 & Hd1 & Hk1). exists p', ls. split_and!; [done|done|by rewrite Hl, Hl1|lia].
  - destruct H2 as (Hl1 & Hd1 & Hk1). exists p', ls. split_and!; [done|done|by rewrite Hl, Hl1|lia].
Qed.

(** The files of a log in some phase. *)
Lemma phase_files p s :
  logger_at p s ->
  Forall (fun f => zlen f.2 <= kMaxLines) (log_files s) /\
  zlen (log_files s) = (zlen (log_lines s) + Z.of_nat (lost s) + (kMaxLines - 1)) / kMaxLines.
Proof.
  unfold logger_at, log_lines, log_files, lost. destruct (manager s) as [m|]; simpl; [|done].
  intros [_ [Hall Hm]]. split; [done|]. unfold given, lines_of, kMaxLines in *.
  destruct p as [|n|n count good]; [done| |].
  - destruct Hm as (_ & _ & Hg). apply (Z.div_unique _ _ _ 4999); lia.
  - destruct Hm as (older & t & ls & _ & _ & _ & _ & Hf & Hl & Hb & Hg).
    rewrite Hf, zlen_app in *. change (zlen [_]) with 1.
    apply (Z.div_unique _ _ _ (count - 1)); lia.
Qed.

(** A log that can be written: the state of the stream is always good. *)
Lemma written_all cs p :
  (forall n, dir_exists n <> None) -> (forall n, open_ok n = true) ->
  (forall n i, write_ok n i = true) ->
  match p with Writing _ _ good => good = true | _ => True end -> written p cs = cs.
Proof.
  intros Hd Ho Hw. revert p.
  assert (Hok : forall n, exists p', try_open n = (Written, p') /\
    match p' with Writing _ _ good => good = true | _ => True end).
  { intros n. unfold try_open, try_write. rewrite Ho, Hw. simpl. by eexists. }
  assert (Hnext : forall q, match q with Writing _ _ good => good = true | _ => True end ->
    exists p', next_phase q = (Written, p') /\
      match p' with Writing _ _ good => good = true | _ => True end).
  { intros [n|n|n c good] Hq; simpl; [destruct (dir_exists n) eqn:E; [apply Hok|by apply Hd in E]
      |apply Hok|]. destruct (_ <=? _); [apply Hok|]. subst good. unfold try_write. rewrite Hw.
    simpl. by eexists. }
  induction cs as [|c cs IH]; intros p Hp; [done|]. simpl.
  destruct (Hnext p Hp) as (p' & -> & Hp'). by rewrite IH.
Qed.

(** C39: the log, whatever the file system answers.  [KZ_LOG_*] never throws; the
    files hold one line for each call that found a manager and an open file whose
    stream was still good, in the order of the calls; no file gets more than
    [kMaxLines] lines for one opening (two openings of the same second append to
    one file), and the openings are exactly as many as the lines given to them
    take; of the other calls each was lost to an exception of [fs::exists], to a
    failed opening, which is reported on [std::cerr], or, reported nowhere, to a
    file that could not be written; and when the directory and the files can be
    used and written, no call is lost. *)
Theorem log_rotates cs :
  let s := log_all cs logger_init in
  let ws := written (Unborn 0) cs in
  Forall2 line_of ws (log_lines s) /\
  Forall (fun f => zlen f.2 <= kMaxLines) (log_files s) /\
  zlen (log_files s) = (zlen ws + Z.of_nat (lost s) + (kMaxLines - 1)) / kMaxLines /\
  length cs = (length ws + thrown s + reported s + lost s)%nat /\
  ((forall n, dir_exists n <> None) -> (forall n, open_ok n = true) ->
   (forall n i, write_ok n i = true) -> ws = cs).
Proof.
  intros s ws. destruct (log_all_at_phase cs (Unborn 0) logger_init eq_refl) as (p & ls & Hp & Hls &
    Hl & Hk).
  fold s ws in Hp, Hls, Hl, Hk. simpl in Hl, Hk. rewrite <- Hl in Hls.
  destruct (phase_files p s Hp) as [Hb Hn].
  split_and!; [done|done| |cbn in Hk; lia|intros; by apply written_all].
  rewrite Hn. unfold zlen. by rewrite (Forall2_length _ _ _ Hls).
Qed.

(** ** sys_error *)

(** [std::system_category().message], the path [__FILE__] stands for in
    [sys_error.hpp], and the thread that calls. *)
Variable (message : Z -> string) (sys_error_hpp tid : string).

(** What leaves a [\[\[noreturn\]\]] function. *)
Inductive raised := SystemError (err : Z) | Rethrown (what : string) | Terminated.

Definition error_exn (what : string) : logger -> logger :=
  kz_log tid kError sys_error_hpp 10 ["msg: "; what].

Definition errno_args (saved_errno : Z) : list string :=
  ["errno: "; pretty saved_errno; ", msg: "; message saved_errno].

Definition error (errno : Z) : logger -> logger := kz_log tid kError sys_error_hpp 16 (errno_args errno).

(** [throw;] rethrows the exception being handled, if there is one. *)
Definition fatal_exn (handling : option string) (what : string) (s : logger) : logger * raised :=
  (kz_log tid kFatal sys_error_hpp 22 ["msg: "; what] s,
   match handling with Some e => Rethrown e | None => Terminated end).

Definition fatal (errno : Z) (s : logger) : logger * raised :=
  (kz_log tid kFatal sys_error_hpp 31 (errno_args errno) s, SystemError errno).
End log.

(** ** Running it *)

(** The [n]-th file of a log that is opened twice within a second has the name of
    the one before: its lines are appended to a file that is already full. *)
Example same_second_same_file :
  let name := fun t : Z => if t =? 0 then "2024-01-01_00-00-00" else "2024-01-01_00-00-01" in
  let s := log_all (fun _ => true) (fun _ _ => true) (fun _ => 0) name name (fun _ => Some true) (fun
    _ => None)
             (replicate 5001 (kInfo, "1", "x")) logger_init in
  map (fun f => file_name name f.1) (log_files s) =
  ["kz_log_2024-01-01_00-00-00.txt"; "kz_log_2024-01-01_00-00-00.txt"].
Proof. vm_compute. reflexivity. Qed.

(** The directory can be asked for at the second call only, the first opening
    fails, and the file of the second fails at its third line: two of five lines
    are left. *)
Definition demo_dir (n : nat) : option bool := match n with O => None | _ => Some false end.
Definition demo_open (n : nat) : bool := match n with O => false | _ => true end.
Definition demo_write (n : nat) (i : Z) : bool := negb (i =? 2).
Definition demo_calls : list log_call :=
  [(kInfo, "1", "a"); (kInfo, "1", "b"); (kError, "2", "c"); (kInfo, "1", "d");
   (kInfo, "1", "e")].
Definition demo_logger (cs : list log_call) : logger :=
  log_all demo_open demo_write Z.of_nat (fun _ => "now") (fun _ => "today") demo_dir (fun _ => Some
    13) cs logger_init.

Example demo_log :
  log_lines (demo_logger demo_calls) =
    ["[now] [ERROR] [TID:2] c"; "[now] [INFO ] [TID:1] d"] /\
  (cerr <$> manager (demo_logger demo_calls)) =
    Some [CreateFailed 13; OpenFailed "kz_log_today.txt"] /\
  lost (demo_logger demo_calls) = 1%nat.
Proof. split_and!; vm_compute; reflexivity. Qed.

(** [sys_error::fatal()] when [epoll_create1] failed. *)
Example demo_fatal :
  let r := fatal (fun _ => true) (fun _ _ => true) Z.of_nat (fun _ => "now") (fun _ => "today") (fun
    _ => Some true)
             (fun _ => None) (fun _ => "Too many open files") "sys_error.hpp" "1" 24 logger_init in
  log_lines r.1 =
    ["[now] [FATAL] [TID:1] [sys_error.hpp:31] errno: 24, msg: Too many open files"] /\
  r.2 = SystemError 24.
Proof. split; vm_compute; reflexivity. Qed.

Lemma log_rotates_witness :
  let s := demo_logger demo_calls in
  let ws := written demo_open demo_write demo_dir (Unborn 0) demo_calls in
  Forall2 (line_of (fun _ => "now")) ws (log_lines s) /\
  Forall (fun f => zlen f.2 <= kMaxLines) (log_files s) /\
  zlen (log_files s) = (zlen ws + Z.of_nat (lost s) + (kMaxLines - 1)) / kMaxLines /\
  length demo_calls = (length ws + thrown s + reported s + lost s)%nat /\
  ((forall n, demo_dir n <> None) -> (forall n, demo_open n = true) ->
   (forall n i, demo_write n i = true) -> ws = demo_calls).
Proof.
  exact (log_rotates demo_open demo_write Z.of_nat (fun _ => "now") (fun _ => "today") demo_dir (fun
    _ => Some
    13) demo_calls).
Defined.
