(* ===== verification/Framing.v ===== *)
(** * Framing: the length-prefixed protocol of the examples

    Models [data_to_packet] and the split callbacks of
    [examples/tcp_example.cpp] ([examples/unix_example.cpp] and the README have
    the same ones), and proves them correct on the library's frame loop: a
    message is its length, 32 bits in host order, then its bytes. *)

From S2P Require Import Prelude Events StreamBuffer LoopFd Channel InetAddr StreamIo StreamLoops.

Definition FRAM_HEAD : Z := 4.

Definition data_to_packet (data : list byte) : list byte := le32 (u32 (zlen data)) ++ data.

(** [len + 4] is a sum of [uint32_t]. *)
Definition split (slice : list byte) : Z :=
  if zlen slice <? 4 then 0
  else
    let len := get32 0 slice in
    if u32 (len + 4) <=? zlen slice then u32 (len + 4) else 0.

(** A user with this protocol, who keeps the frames. *)
#[export] Instance packet_handler : StreamHandler (list (list byte)) := {
  on_split d u := (u, split d);
  on_fragment d u := u ++ [d];
  on_error _ u := u;
  on_disconnect u := u
}.

Lemma split_bound d : split d <= zlen d.
Proof.
  unfold split. pose proof (zlen_nonneg d). destruct (_ <? 4); [lia|].
  destruct (Z.leb_spec (u32 (get32 0 d + 4)) (zlen d)); lia.
Qed.

#[export] Instance packet_split_laws : SplitLaws (list (list byte)).
Proof. split. intros d u u' n [= <- <-]. apply split_bound. Qed.

(** ** Round trip *)

Definition message_ok (data : list byte) : Prop := zlen data + 4 < 2 ^ 32.

Lemma zlen_packet data : zlen (data_to_packet data) = zlen data + 4.
Proof. unfold data_to_packet. rewrite zlen_app. unfold zlen at 1. simpl. lia. Qed.

Lemma get32_le32 n r : in_u 32 n -> get32 0 (le32 n ++ r) = n.
Proof.
  unfold in_u. intros H. unfold get32, get16, get_byte, le32. simpl. dlia.
Qed.

Lemma split_packet data r :
  message_ok data -> split (data_to_packet data ++ r) = zlen data + 4.
Proof.
  unfold message_ok. intros H. pose proof (zlen_nonneg data). pose proof (zlen_nonneg r).
  unfold split. rewrite zlen_app, zlen_packet. destruct (Z.ltb_spec (zlen data + 4 + zlen r) 4); [lia|].
  unfold data_to_packet. rewrite <- app_assoc. unfold u32.
  rewrite (wrap_id 32 (zlen data)) by (unfold in_u; lia).
  rewrite get32_le32 by (unfold in_u; lia). rewrite wrap_id by (unfold in_u; lia).
  destruct (Z.leb_spec (zlen data + 4) (zlen data + 4 + zlen r)); lia.
Qed.

(** Any user whose split callback is [split]. *)
Section deliver.
Context {K : Type} `{SK : StreamKernel K} {L F U : Type} `{SH : StreamHandler U}.
Hypothesis framed : forall d u, on_split d u = (u, split d).
Implicit Types (s : stream K L F U).

(** One turn of the loop, on a packet. *)
Lemma frame_loop_packet fuel s m r :
  SB.sb_inv (recv_buf_ s) -> message_ok m -> SB.contents (recv_buf_ s) = data_to_packet m ++ r ->
  exists b, SB.sb_inv b /\ SB.contents b = r /\
    frame_loop (S fuel) s =
      frame_loop fuel (mk_stream (kern s) b (send_buf_ s) (channel_ s)
        (on_fragment (data_to_packet m) (user_ s)) (trace_ s ++ [ObsFragment (data_to_packet m)])).
Proof.
  intros Hi Hm Hc. pose proof (zlen_nonneg m). pose proof (zlen_nonneg r).
  assert (Hz : zlen (SB.contents (recv_buf_ s)) = zlen m + 4 + zlen r)
    by (rewrite Hc, zlen_app, zlen_packet; done).
  destruct (SB.pop_ok (zlen m + 4) (recv_buf_ s)) as (b & Hp & Hib & Hcb & _); [done|lia|].
  exists b. split; [done|]. split.
  { rewrite Hcb, Hc. apply zdrop_app_exact. by rewrite zlen_packet. }
  cbn [frame_loop]. rewrite framed, Hc, split_packet by done.
  destruct (Z.leb_spec (zlen m + 4) 0); [lia|].
  set (s1 := mk_stream _ _ _ _ _ _). change (recv_buf_ s) with (recv_buf_ s1) in Hz, Hi, Hc, Hp.
  rewrite (frame_of_ok _ (recv_buf_ s1)) by (done || lia).
  assert (ztake (zlen m + 4) (SB.contents (recv_buf_ s1)) = data_to_packet m) as ->.
  { rewrite Hc. apply ztake_app_exact. by rewrite zlen_packet. }
  cbn [mbind res_bind with_user recv_buf_]. by rewrite Hp.
Qed.

Lemma frame_loop_packets fuel s ms rest :
  SB.sb_inv (recv_buf_ s) -> Forall message_ok ms -> split rest = 0 ->
  SB.contents (recv_buf_ s) = concat (map data_to_packet ms) ++ rest -> (length ms < fuel)%nat ->
  exists s', frame_loop fuel s = Ok s' /\
    fragments (trace_ s') = fragments (trace_ s) ++ map data_to_packet ms /\
    SB.contents (recv_buf_ s') = rest /\
    user_ s' = foldl (fun u m => on_fragment (data_to_packet m) u) (user_ s) ms.
Proof.
  revert fuel s. induction ms as [|m ms IH]; intros [|fuel] s Hi Hms Hrest Hc Hf; try (simpl in Hf; lia).
  - cbn [frame_loop]. simpl in Hc. rewrite framed, Hc, Hrest. simpl.
    eexists. split_and!; [reflexivity| |exact Hc|done]. simpl. by rewrite app_nil_r.
  - apply Forall_cons in Hms as [Hm Hms]. cbn [map concat] in Hc. rewrite <- app_assoc in Hc.
    destruct (frame_loop_packet fuel s m _ Hi Hm Hc) as (b & Hib & Hcb & ->).
    edestruct (IH fuel) as (s' & -> & Hfr & Hcs & Hu); [exact Hib|done|done|exact Hcb|simpl in Hf; lia|].
    exists s'. split_and!; [done| |done|exact Hu].
    rewrite Hfr. cbn [trace_]. rewrite fragments_app. by rewrite <- app_assoc.
Qed.

Lemma length_packets ms : (length ms <= length (concat (map data_to_packet ms)))%nat.
Proof.
  induction ms as [|m ms IH]; [done|]. simpl. rewrite length_app.
  pose proof (zlen_packet m) as Hz. pose proof (zlen_nonneg m). unfold zlen in *. lia.
Qed.

Lemma frame_fuel_packets s ms rest :
  SB.contents (recv_buf_ s) = concat (map data_to_packet ms) ++ rest -> (length ms < frame_fuel s)%nat.
Proof. intros Hc. unfold frame_fuel. rewrite Hc, length_app. pose proof (length_packets ms). lia. Qed.

(** The protocol of the examples, on the library's frame loop, whatever
    the fragment callback does: when the bytes received are packets of messages
    shorter than 2^32 - 4 bytes, followed by the incomplete start of another, the
    user gets exactly those packets, one by one, in order, and the start stays
    in the buffer. *)
Theorem packets_are_delivered s ms rest :
  SB.sb_inv (recv_buf_ s) -> Forall message_ok ms -> split rest = 0 ->
  SB.contents (recv_buf_ s) = concat (map data_to_packet ms) ++ rest ->
  exists s', frame_loop (frame_fuel s) s = Ok s' /\
    fragments (trace_ s') = fragments (trace_ s) ++ map data_to_packet ms /\
    SB.contents (recv_buf_ s') = rest /\
    user_ s' = foldl (fun u m => on_fragment (data_to_packet m) u) (user_ s) ms.
Proof. eauto using frame_loop_packets, frame_fuel_packets. Qed.
End deliver.

(** A length of 2^32 - 4 or more wraps in [len + 4]: whatever follows, a
    peer that announces it makes the loop deliver a frame of at most three
    bytes, shorter than the header the fragment callbacks of the examples skip
    ([fragment.begin() + 4]); with 2^32 - 4 exactly, nothing is ever cut again. *)
Theorem huge_length_cuts_short n r :
  2 ^ 32 - 4 <= n < 2 ^ 32 -> split (le32 n ++ r) = n - (2 ^ 32 - 4).
Proof.
  intros Hn. unfold split. rewrite zlen_app. change (zlen (le32 n)) with 4. pose proof (zlen_nonneg r).
  destruct (Z.ltb_spec (4 + zlen r) 4); [lia|]. rewrite get32_le32 by (unfold in_u; lia).
  assert (u32 (n + 4) = n - (2 ^ 32 - 4)) as ->.
  { unfold u32, wrap. replace (n + 4) with (n - (2 ^ 32 - 4) + 1 * 2 ^ 32) by lia.
    rewrite Z.mod_add by lia. apply Z.mod_small. lia. }
  destruct (Z.leb_spec (n - (2 ^ 32 - 4)) (4 + zlen r)); lia.
Qed.

(** ** Witnesses *)

Definition demo_packets : stream demo_sock nat nat (list (list byte)) :=
  mk_stream (mk_sock [] [] 0 false 0) (SB.mk_sb [1; 0; 0; 0; 7; 0; 0; 0; 0; 9; 0] 0 11 0 4)
    (SB.make_sb 4) (mk_channel (Some 5%nat) 7 EventType.kRead EventMode.kDefault) [] [].

Lemma packets_are_delivered_witness :
  exists s', frame_loop (frame_fuel demo_packets) demo_packets = Ok s' /\
    fragments (trace_ s') = fragments (trace_ demo_packets) ++ map data_to_packet [[7]; []] /\
    SB.contents (recv_buf_ s') = [9; 0] /\
    user_ s' = [data_to_packet [7]; data_to_packet []].
Proof.
  apply (packets_are_delivered (SH := packet_handler) (fun _ _ => eq_refl) demo_packets [[7]; []] [9; 0]).
  - split; vm_compute; try split; congruence.
  - repeat constructor; vm_compute; reflexivity.
  - reflexivity.
  - reflexivity.
Defined.

Lemma huge_length_cuts_short_witness : split (le32 (2 ^ 32 - 3) ++ [1; 2]) = 1.
Proof. apply (huge_length_cuts_short (2 ^ 32 - 3) [1; 2]). lia. Defined.
