(* ===== verification/Examples.v ===== *)
(** * Examples: the services of the example programs

    Models the callbacks of [examples/tcp_example.cpp] (those of
    [examples/unix_example.cpp] differ in their types only) and of
    [examples/udp_example.cpp]: a register for each session, set by the first
    message and by every later one except ["GET"], which is answered with the
    register.  The callbacks run on the heavy executor, one at a time and in the
    order they were posted, so that a run of the service is a fold over what the
    io thread posted. *)

From S2P Require Import Prelude Events StreamBuffer LoopFd Channel InetAddr StreamIo.
From S2P Require Import StreamLoops Framing Timer Dgram Udp UdpSessions.

Definition GET : list byte := [71; 69; 84].
Definition NEW : list byte := [78; 69; 87].

(** A vector made of [begin() + n] to [end()]: no such range in a shorter one. *)
Definition from_begin (n : Z) (v : list byte) : res (list byte) :=
  if zlen v <? n then Undef else Ok (zdrop n v).

(** ** The register *)

(** What both services do: the messages sent, in order. *)
Definition register_step (c : option (list byte)) (m : list byte)
    : option (list byte) * list (list byte) :=
  match c with
  | None => (Some m, [NEW])
  | Some v => if decide (m = GET) then (Some v, [v]) else (Some m, [])
  end.

Fixpoint register (c : option (list byte)) (ms : list (list byte))
    : option (list byte) * list (list byte) :=
  match ms with
  | [] => (c, [])
  | m :: ms' =>
      let r := register_step c m in
      let r' := register r.1 ms' in
      (r'.1, r.2 ++ r'.2)
  end.

Lemma register_snoc c ms m :
  register c (ms ++ [m]) =
    let r := register c ms in
    let r' := register_step r.1 m in (r'.1, r.2 ++ r'.2).
Proof.
  revert c. induction ms as [|m' ms IH]; intros c; simpl; [by rewrite app_nil_r|].
  rewrite IH. simpl. by rewrite app_assoc.
Qed.

(** The messages it sends are its constant and messages it got. *)
Lemma register_sends (P : list byte -> Prop) ms :
  P NEW -> Forall P ms -> forall c, (forall v, c = Some v -> P v) -> Forall P (register c ms).2.
Proof.
  intros Hnew. induction 1 as [|m ms Hm _ IH]; intros c Hc; simpl; [constructor|].
  unfold register_step. destruct c as [v|]; [destruct (decide (m = GET))|]; simpl;
    repeat constructor; auto; apply IH; naive_solver.
Qed.

(** ** The stream service *)

Module Stream.

(** [user_context] is the vector the session's context points to, if it has
    one; the second result is what is given to [post_send_task]. *)
Definition server_fragment_cb (fragment : list byte) (raw_ctx : option (list byte))
    : res (option (list byte) * list (list byte)) :=
  match raw_ctx with
  | None =>
      new_ctx ← from_begin 4 fragment;
      Ok (Some new_ctx, [data_to_packet NEW])
  | Some ctx =>
      if decide (fragment = data_to_packet GET) then Ok (Some ctx, [data_to_packet ctx])
      else ctx' ← from_begin FRAM_HEAD fragment; Ok (Some ctx', [])
  end.

(** What is printed. *)
Definition client_fragment_cb (fragment : list byte) : res (list byte) :=
  from_begin FRAM_HEAD fragment.

Fixpoint serve (c : option (list byte)) (fs : list (list byte))
    : res (option (list byte) * list (list byte)) :=
  match fs with
  | [] => Ok (c, [])
  | f :: fs' => r ← server_fragment_cb f c; r' ← serve r.1 fs'; Ok (r'.1, r.2 ++ r'.2)
  end.

Fixpoint show (fs : list (list byte)) : res (list (list byte)) :=
  match fs with
  | [] => Ok []
  | f :: fs' => m ← client_fragment_cb f; ms ← show fs'; Ok (m :: ms)
  end.
End Stream.

(** ** The datagram service *)

Module Datagram.

(** The user contexts of the sessions, and what [post_send_task] got, with the
    session it was called on. *)
Record heavy := mk_heavy {
  contexts : gmap nat (list byte);
  sent : list (nat * list byte)
}.

Definition set_user_context (session : nat) (v : list byte) (h : heavy) : heavy :=
  mk_heavy (<[session := v]> (contexts h)) (sent h).

(** [None]: the null pointer. *)
Definition get_user_context (session : nat) (h : heavy) : option (list byte) :=
  contexts h !! session.

Definition post_send_task (session : nat) (data : list byte) (h : heavy) : heavy :=
  mk_heavy (contexts h) (sent h ++ [(session, data)]).

(** [ctx->assign(data)]: the vector the context points to; the session holds the
    only other pointer to it. *)
Definition assign (session : nat) (data : list byte) (h : heavy) : heavy :=
  mk_heavy (<[session := data]> (contexts h)) (sent h).

Definition new_session_cb (session : nat) (data : list byte) (h : heavy) : res heavy :=
  let h1 := set_user_context session [] h in
  _ ← of_option (get_user_context session h1);
  Ok (post_send_task session NEW (assign session data h1)).

Definition read_cb (session : nat) (data : list byte) (h : heavy) : res heavy :=
  ctx ← of_option (get_user_context session h);
  if negb (bool_decide (data = GET)) then Ok (assign session data h)
  else Ok (post_send_task session ctx h).

(** A task of the heavy queue; a server posts only these two. *)
Definition run_call (c : heavy_call) (h : heavy) : res heavy :=
  match c with
  | CallNewSession id d => new_session_cb id d h
  | CallRead id d => read_cb id d h
  | CallNode _ _ | CallClient _ => Undef
  end.

Fixpoint run_calls (cs : list heavy_call) (h : heavy) : res heavy :=
  match cs with
  | [] => Ok h
  | c :: cs' => h1 ← run_call c h; run_calls cs' h1
  end.
End Datagram.

(** ** Streams: both ends *)

Section stream.
Context {K : Type} `{SK : StreamKernel K} {L F U : Type} `{SH : StreamHandler U}.
Hypothesis framed : forall d u, on_split d u = (u, split d).
Implicit Types (s cl : stream K L F U).

Lemma from_begin_packet m : from_begin 4 (data_to_packet m) = Ok m.
Proof.
  unfold from_begin. rewrite zlen_packet. pose proof (zlen_nonneg m).
  destruct (Z.ltb_spec (zlen m + 4) 4); [lia|]. unfold data_to_packet. by rewrite zdrop_app_exact.
Qed.

Lemma packet_inj m1 m2 : data_to_packet m1 = data_to_packet m2 -> m1 = m2.
Proof.
  intros H. pose proof (from_begin_packet m1) as H1. rewrite H, from_begin_packet in H1. congruence.
Qed.

Lemma server_fragment_step m c :
  Stream.server_fragment_cb (data_to_packet m) c =
    Ok ((register_step c m).1, map data_to_packet (register_step c m).2).
Proof.
  unfold Stream.server_fragment_cb, register_step, FRAM_HEAD. rewrite from_begin_packet.
  destruct c as [v|]; [|done]. destruct (decide (m = GET)) as [->|Hne].
  - by rewrite decide_True.
  - rewrite decide_False; [done|]. by intros H%packet_inj.
Qed.

Lemma serve_packets ms c :
  Stream.serve c (map data_to_packet ms) =
    Ok ((register c ms).1, map data_to_packet (register c ms).2).
Proof.
  revert c. induction ms as [|m ms IH]; intros c; [done|]. cbn [map Stream.serve].
  rewrite server_fragment_step. cbn [mbind res_bind fst snd]. rewrite IH.
  cbn [mbind res_bind fst snd register]. by rewrite map_app.
Qed.

Lemma show_packets ms : Stream.show (map data_to_packet ms) = Ok ms.
Proof.
  induction ms as [|m ms IH]; [done|]. cbn [map Stream.show]. unfold Stream.client_fragment_cb, FRAM_HEAD.
  rewrite from_begin_packet. cbn [mbind res_bind]. by rewrite IH.
Qed.

(** The stream example, end to end, on the library's frame loop.  When a
    new session of the server has received the packets of some messages, and the
    start of another, the fragment callbacks run within defined behaviour; and
    once a client has received all the bytes the server then posted, the client
    prints what a register answers to those messages: ["NEW"] to the first,
    then, to each ["GET"], the last message that was not one. *)
Lemma stream_example_echoes s cl ms rest :
  SB.sb_inv (recv_buf_ s) -> SB.sb_inv (recv_buf_ cl) ->
  fragments (trace_ s) = [] -> fragments (trace_ cl) = [] ->
  Forall message_ok ms -> split rest = 0 ->
  SB.contents (recv_buf_ s) = concat (map data_to_packet ms) ++ rest ->
  exists s' ctx posted, frame_loop (frame_fuel s) s = Ok s' /\
    Stream.serve None (fragments (trace_ s')) = Ok (ctx, posted) /\
    (SB.contents (recv_buf_ cl) = concat posted ->
     exists cl' printed, frame_loop (frame_fuel cl) cl = Ok cl' /\
       Stream.show (fragments (trace_ cl')) = Ok printed /\ register None ms = (ctx, printed)).
Proof.
  intros Hs Hcl Hts Htc Hms Hrest Hc.
  destruct (frame_loop_packets framed (frame_fuel s) s ms rest) as (s' & Hl & Hf & _);
    [done..|by eapply frame_fuel_packets|].
  rewrite Hts in Hf. exists s', (register None ms).1, (map data_to_packet (register None ms).2).
  rewrite Hf. cbn [app]. rewrite serve_packets. split_and!; [done..|]. intros Hcc.
  assert (Hok : Forall message_ok (register None ms).2) by (by apply register_sends).
  assert (Hcc' : SB.contents (recv_buf_ cl) = concat (map data_to_packet (register None ms).2) ++ [])
    by (by rewrite app_nil_r).
  destruct (frame_loop_packets framed (frame_fuel cl) cl _ [] Hcl Hok eq_refl Hcc') as (cl' & Hl' &
    Hf' & _);
    [by eapply frame_fuel_packets|].
  exists cl', (register None ms).2. rewrite Hf', Htc. cbn [app]. rewrite show_packets.
  split_and!; [done..|]. by destruct (register None ms).
Qed.
End stream.

(** ** Datagrams: a register for each session *)

Definition replies (id : nat) (h : Datagram.heavy) : list (list byte) :=
  omap (fun x => if decide (x.1 = id) then Some x.2 else None) (Datagram.sent h).

(** The datagrams given to a session, in the order the heavy executor gets them. *)
Definition given (id : nat) (cs : list heavy_call) : list (list byte) :=
  omap (fun c => match c with
                 | CallNewSession i d | CallRead i d => if decide (i = id) then Some d else None
                 | _ => None
                 end) cs.

Lemma replies_snoc id id' d h c :
  replies id (Datagram.mk_heavy c (Datagram.sent h ++ [(id', d)])) =
    replies id h ++ if decide (id' = id) then [d] else [].
Proof. unfold replies. simpl. rewrite omap_app. simpl. by case_decide. Qed.

Lemma run_calls_snoc cs c h h' :
  Datagram.run_calls cs h = Ok h' -> Datagram.run_calls (cs ++ [c]) h = Datagram.run_call c h'.
Proof.
  revert h. induction cs as [|c' cs IH]; intros h H; simpl in *.
  - simplify_eq. by destruct (Datagram.run_call c h').
  - destruct (Datagram.run_call c' h) as [h1| |]; try done. by apply IH.
Qed.

(** The sessions numbered below [n] have a register; the others nothing yet. *)
Record registers (n : nat) (cs : list heavy_call) (h : Datagram.heavy) : Prop := {
  reg_run : Datagram.run_calls cs (Datagram.mk_heavy ∅ []) = Ok h;
  reg_made id : is_Some (Datagram.contexts h !! id) <-> (id < n)%nat;
  reg_state id : (Datagram.contexts h !! id, replies id h) = register None (given id cs)
}.

Lemma new_session_cb_ok id d h :
  Datagram.new_session_cb id d h = Ok (Datagram.post_send_task id NEW (Datagram.assign id d h)).
Proof.
  unfold Datagram.new_session_cb, Datagram.get_user_context, Datagram.assign. simpl.
  by rewrite lookup_insert_eq, insert_insert_eq.
Qed.

Lemma registers_new n cs h d :
  registers n cs h ->
  exists h', Datagram.new_session_cb n d h = Ok h' /\
    registers (S n) (cs ++ [CallNewSession n d]) h'.
Proof.
  intros [Hr Hm Hs]. eexists. split; [apply new_session_cb_ok|]. split.
  - rewrite (run_calls_snoc _ _ _ h) by done. apply new_session_cb_ok.
  - intros id. simpl. rewrite lookup_insert_is_Some, Hm. lia.
  - intros id. unfold given. rewrite omap_app. simpl. fold (given id cs).
    unfold Datagram.post_send_task. cbn [Datagram.contexts Datagram.assign].
    rewrite (replies_snoc id n NEW (Datagram.assign n d h)).
    change (replies id (Datagram.assign n d h)) with (replies id h).
    specialize (Hs id). destruct (decide (n = id)) as [->|Hne]; simpl.
    + assert (Datagram.contexts h !! id = None) as Hn.
      { apply eq_None_not_Some. rewrite Hm. lia. }
      rewrite Hn in Hs. rewrite register_snoc, <- Hs. simpl. by rewrite lookup_insert_eq.
    + rewrite lookup_insert_ne by done. by rewrite !app_nil_r.
Qed.

Lemma registers_read n cs h id d :
  registers n cs h -> (id < n)%nat ->
  exists h', Datagram.read_cb id d h = Ok h' /\ registers n (cs ++ [CallRead id d]) h'.
Proof.
  intros [Hr Hm Hs] Hid. destruct (proj2 (Hm id) Hid) as [v Hv].
  assert (Hstep : Datagram.read_cb id d h =
    Ok (if decide (d = GET) then Datagram.post_send_task id v h else Datagram.assign id d h)).
  { unfold Datagram.read_cb, Datagram.get_user_context. rewrite Hv. simpl.
    destruct (decide (d = GET)); [by rewrite bool_decide_true|by rewrite bool_decide_false]. }
  eexists. split; [exact Hstep|]. split.
  - rewrite (run_calls_snoc _ _ _ h) by done. exact Hstep.
  - intros id'. destruct (decide (d = GET)); simpl; [done|]. rewrite lookup_insert_is_Some, Hm.
    destruct (decide (id = id')); [subst|]; naive_solver.
  - intros id'. unfold given. rewrite omap_app. simpl. fold (given id' cs). specialize (Hs id').
    destruct (decide (id = id')) as [->|Hne]; simpl.
    + rewrite register_snoc, <- Hs, Hv. simpl. destruct (decide (d = GET)); simpl.
      * unfold Datagram.post_send_task. rewrite replies_snoc. by rewrite decide_True, Hv.
      * rewrite lookup_insert_eq. unfold replies. simpl. by rewrite app_nil_r.
    + rewrite app_nil_r, <- Hs. destruct (decide (d = GET)); simpl.
      * unfold Datagram.post_send_task. rewrite replies_snoc. simpl.
        by rewrite decide_False, app_nil_r.
      * by rewrite lookup_insert_ne.
Qed.

Section datagram.
Variable (clock : nat -> Z).
Hypothesis clock_mono : forall i j, (i <= j)%nat -> clock i <= clock j.
Hypothesis clock_range : forall i, 0 <= clock i < 2 ^ 62.

(** Both callbacks stay registered. *)
Definition serving_op (o : udp_op) : Prop :=
  udp_op_ok o /\ match o with URead _ _ | UScan => True | _ => False end.

Lemma serving_step ms o s h :
  0 <= ms <= 2000000000000 -> session_timeout_ms_ s = ms -> serving_op o ->
  server_ok clock s -> new_session_cb_ s = true -> read_cb_ s = true ->
  registers (made s) (posted s) h ->
  exists s' h', run_udp_op clock o s = Ok s' /\ server_ok clock s' /\
    session_timeout_ms_ s' = ms /\ new_session_cb_ s' = true /\ read_cb_ s' = true /\
    registers (made s') (posted s') h'.
Proof.
  intros Hms Hm [Hop Hk] Hs Hnew Hread Hreg. rewrite <- Hm in Hms.
  destruct (run_udp_op_ok clock clock_mono clock_range o s Hms Hop Hs) as (s' & Hr & Hs' & Hm' & _).
  rewrite Hm in Hm'. pose proof Hr as Hrun.
  destruct o as [d source| | |]; try done; simpl in Hr.
  - injection Hr as Hr. unfold server_on_read in Hr. rewrite Hnew, Hread in Hr. simpl in Hr.
    destruct (find_session source (sessions_ s)) as [x|] eqn:Hf.
    + destruct (find_session_in _ _ _ Hf) as [a Ha]. destruct Hs as [_ _ [_ Hids] _].
      rewrite Forall_forall in Hids.
      destruct (registers_read _ _ h (sess_id x) d Hreg (Hids _ Ha)) as (h' & _ & Hreg').
      exists s', h'. split_and!; [done..| | |]; by subst s'.
    + destruct (registers_new _ _ h d Hreg) as (h' & _ & Hreg').
      exists s', h'. split_and!; [done..| | |]; by subst s'.
  - exists s', h. split_and!; try done; unfold scan_cb in Hr;
      destruct (scan_sessions _ _ _) as [l| |]; simplify_eq/=; done.
Qed.

(** The datagram example: once both callbacks are registered, whatever
    datagrams arrive and however the scan drops sessions, the tasks the server
    posts to the heavy executor run within defined behaviour (no callback finds
    a session without its context), and each session is a register of its own:
    it answers to the datagrams it was given, ["NEW"] to the first, then, to
    each ["GET"], the last datagram that was not one. *)
Lemma udp_example_registers ms os :
  0 <= ms <= 2000000000000 -> Forall serving_op os ->
  exists s h, run_udp_ops clock (USetRead true :: USetNew true :: os) (udp_server_ctor ms) = Ok s /\
    Datagram.run_calls (posted s) (Datagram.mk_heavy ∅ []) = Ok h /\
    forall id, (Datagram.contexts h !! id, replies id h) = register None (given id (posted s)).
Proof.
  intros Hms Hos. set (s0 := mk_udp_server true true [] ms 0 0 []).
  assert (H : forall s h, session_timeout_ms_ s = ms -> server_ok clock s -> new_session_cb_ s = true ->
    read_cb_ s = true -> registers (made s) (posted s) h ->
    exists s' h', run_udp_ops clock os s = Ok s' /\ registers (made s') (posted s') h').
  { induction Hos as [|o os Ho _ IH]; intros s h Hm Hs Hn Hr Hreg; [by exists s, h|]. simpl.
    destruct (serving_step ms o s h) as (s1 & h1 & -> & ? & ? & ? & ? & ?); [done..|]. simpl.
    by eapply IH. }
  destruct (H s0 (Datagram.mk_heavy ∅ [])) as (s & h & Hs & [Hr _ Hst]); try done.
  - split; try split; simpl; constructor.
  - split; [done| |done]. intros id. simpl. rewrite lookup_empty. split; [intros [? ?]; done|lia].
  - by exists s, h.
Qed.
End datagram.

(** ** Witnesses *)

(** A server session that got ["AAA"], ["GET"] and two bytes of a third packet;
    a client that got the two answers. *)
Definition demo_AAA : list byte := [65; 65; 65].

Definition demo_end (bytes : list byte) : stream demo_sock nat nat (list (list byte)) :=
  mk_stream (mk_sock [] [] 0 false 0) (SB.mk_sb bytes 0 (zlen bytes) 0 4)
    (SB.make_sb 4) (mk_channel (Some 5%nat) 7 EventType.kRead EventMode.kDefault) [] [].

Definition demo_requests : list byte := concat (map data_to_packet [demo_AAA; GET]) ++ [3; 0].
Definition demo_answers : list byte := concat (map data_to_packet [NEW; demo_AAA]).

Lemma stream_example_echoes_witness :
  exists s' ctx posted, frame_loop (frame_fuel (demo_end demo_requests)) (demo_end demo_requests) = Ok s' /\
    Stream.serve None (fragments (trace_ s')) = Ok (ctx, posted) /\
    (SB.contents (recv_buf_ (demo_end demo_answers)) = concat posted ->
     exists cl' printed,
       frame_loop (frame_fuel (demo_end demo_answers)) (demo_end demo_answers) = Ok cl' /\
       Stream.show (fragments (trace_ cl')) = Ok printed /\
       register None [demo_AAA; GET] = (ctx, printed)).
Proof.
  apply (stream_example_echoes (SH := packet_handler) (fun _ _ => eq_refl)
    (demo_end demo_requests) (demo_end demo_answers) [demo_AAA; GET] [3; 0]).
  - split; vm_compute; try split; congruence.
  - split; vm_compute; try split; congruence.
  - reflexivity.
  - reflexivity.
  - repeat constructor; vm_compute; reflexivity.
  - reflexivity.
  - vm_compute. reflexivity.
Defined.

(** The answers are those: the client's premise holds there. *)
Example demo_echo :
  register None [demo_AAA; GET] = (Some demo_AAA, [NEW; demo_AAA]) /\
  match frame_loop 99 (demo_end demo_requests) with
  | Ok s => Stream.serve None (fragments (trace_ s))
  | _ => Undef
  end = Ok (Some demo_AAA, map data_to_packet [NEW; demo_AAA]).
Proof. split; vm_compute; reflexivity. Qed.

(** A header of 2^32 - 3 is cut as a frame of one byte ([split] wraps), and the
    fragment callback then takes a range that ends before it begins. *)
Example huge_length_breaks_callback :
  split (le32 (2 ^ 32 - 3)) = 1 /\ Stream.server_fragment_cb [253] None = Undef.
Proof. split; vm_compute; reflexivity. Qed.

Definition demo_serving : list udp_op :=
  [URead demo_AAA (demo_source 1); URead GET (demo_source 2); URead GET (demo_source 1); UScan;
   URead GET (demo_source 2)].

Lemma udp_example_registers_witness :
  exists s h, run_udp_ops demo_clock (USetRead true :: USetNew true :: demo_serving) (udp_server_ctor
    1) = Ok s /\
    Datagram.run_calls (posted s) (Datagram.mk_heavy ∅ []) = Ok h /\
    forall id, (Datagram.contexts h !! id, replies id h) = register None (given id (posted s)).
Proof.
  apply (udp_example_registers demo_clock demo_clock_mono demo_clock_range 1); [lia|].
  repeat constructor; vm_compute; congruence.
Defined.
