(* ===== verification/Served.v ===== *)
(** * Served: a stream session and its user on the threads of a loop

    [StreamSession] runs the callback and the send tasks of a session by
    themselves, [Examples] the user's functions.  Here both run on a loop of
    [Executors]: the io thread runs what the session is given, each frame it
    cuts is posted to the heavy executor, where the user's function answers it
    with messages, and [post_send_task] ([include/kzevent/net/inet.hpp]) takes
    them back to the io thread, all in any interleaving with the rest of the
    program.  The server is taken to outlive its session. *)

From S2P Require Import Prelude Events StreamBuffer LoopFd LoopIo LoopHeavy Channel InetAddr StreamIo.
From S2P Require Import StreamLoops StreamSession Executors Framing Examples.

Section served.
Context {K : Type} `{SK : StreamKernel K, SL : !StreamLaws K} {L F U : Type}
  `{SH : StreamHandler U, SPL : !SplitLaws U}.
Implicit Types (s : stream K L F U).

(** An io task or a callback of the session, and the frames it posts to the
    heavy executor. *)
Definition session_step (o : session_op) s : res (stream K L F U * list (list byte)) :=
  s' ← run_session_op o s;
  Ok (s', drop (length (fragments (trace_ s))) (fragments (trace_ s'))).

(** The session as [start()] left it, and its user: what the fragment callback
    does to the user's data and gives to [post_send_task]. *)
Variable (life : nat) (loop : L) (fd : Z) (k : K) (u : U) (cb : F).
Definition s0 : stream K L F U := session_start life cb (session_ctor loop fd k u).

Context {W : Type}.
Variable (fragment_cb : list byte -> W -> res (W * list (list byte))) (w0 : W).

Definition session_user (f : list byte) (w : W) : res (W * list session_op) :=
  r ← fragment_cb f w; Ok (r.1, map (SendTask true) r.2).

Definition is_callback (o : session_op) : Prop := match o with Callback _ _ => True | _ => False end.

#[local] Instance session_service : Service (stream K L F U) session_op (list byte) W := {|
  svc_init := s0;
  svc_world := w0;
  svc_step := session_step;
  svc_event := is_callback;
  svc_heavy := session_user;
  svc_owner _ := life
|}.

Definition small (o : session_op) : Prop := zlen (op_data o) < 2 ^ 63.

Lemma session_step_run o s s' fs :
  run_session_op o s = Ok s' -> fragments (trace_ s') = fragments (trace_ s) ++ fs ->
  session_step o s = Ok (s', fs).
Proof. intros H Hf. unfold session_step. rewrite H. simpl. by rewrite Hf, drop_app_length. Qed.

(** A run on the loop is a run of [StreamSession]. *)
Lemma session_steps os s :
  good true s -> Forall small os ->
  exists s' fs, run_session_ops os s = Ok s' /\ run_all session_step os s = Ok (s', fs) /\
    fragments (trace_ s') = fragments (trace_ s) ++ fs.
Proof.
  revert s. induction os as [|o os IH]; intros s Hg Hl.
  { exists s, []. by rewrite app_nil_r. }
  apply Forall_cons in Hl as [Ho Hl].
  destruct (session_op_ok o s Hg Ho) as (s1 & Hr1 & Hg1 & _ & _ & _ & (f1 & Hf1 & _) & _).
  destruct (IH s1 Hg1 Hl) as (s' & fs & Hr & Hra & Hf).
  exists s', (f1 ++ fs). simpl. rewrite Hr1, (session_step_run o s s1 f1) by done. simpl.
  rewrite Hra. split_and!; [done|done|by rewrite Hf, Hf1, app_assoc].
Qed.

Lemma session_user_run fs w :
  run_all session_user fs w = (r ← run_all fragment_cb fs w; Ok (r.1, map (SendTask true) r.2)).
Proof. by apply run_all_map. Qed.

(** The peer is there and the kernel reports no system error. *)
Context (P : K -> Prop) `{!CleanKernel P}.
Hypothesis fd_nonneg : 0 <= fd.
Hypothesis clean : P k.

Lemma session_run os :
  Forall small os ->
  exists s fs, run_session_ops os s0 = Ok s /\ run_all session_step os s0 = Ok (s, fs) /\
    fragments (trace_ s) = fs /\
    (ObsDisconnect ∉ trace_ s ->
     accepted (kern s) fd ++ SB.contents (send_buf_ s) = accepted k fd ++ concat (map op_data os) /\
     cut_from (unread k fd) fs /\
     concat fs ++ SB.contents (recv_buf_ s) ++ unread (kern s) fd = unread k fd).
Proof.
  intros Hos. destruct (session_started loop fd k u life cb fd_nonneg) as (Hg & _ & _ & _ & Hf & _).
  destruct (session_steps os s0 Hg Hos) as (s & fs & Hr & Hra & Hfr).
  destruct (session_runs P loop fd k u life cb os fd_nonneg clean Hos) as (s' & Hr' & _ & _ & Hfd & Hc).
  assert (s' = s) as -> by (unfold s0 in Hr; congruence).
  unfold s0 in Hfr. rewrite Hf in Hfr. simpl in Hfr.
  exists s, fs. split_and!; [done..|]. intros Hd. destruct (Hc Hd) as (Hs & Hcut & Hu).
  unfold sent_stream, received_stream in *. rewrite Hfd, Hfr in *. done.
Qed.

(** Inputs for which the peer stays. *)
Definition undisturbed (os : list session_op) : Prop :=
  Forall small os /\ exists s, run_session_ops os s0 = Ok s /\ ObsDisconnect ∉ trace_ s.

Lemma run_session_ops_app os os' s :
  run_session_ops (os ++ os') s = (s' ← run_session_ops os s; run_session_ops os' s').
Proof.
  revert s. induction os as [|o os IH]; intros s; [done|]. simpl.
  destruct (run_session_op o s); try done. apply IH.
Qed.

Lemma undisturbed_app os os' : undisturbed (os ++ os') -> undisturbed os.
Proof.
  intros [[H1 H2]%Forall_app (s & Hr & Hd)]. split; [done|].
  destruct (session_started loop fd k u life cb fd_nonneg) as (Hg & _).
  destruct (session_ops_ok os s0 Hg H1) as (s1 & Hr1 & Hg1 & _).
  destruct (session_ops_ok os' s1 Hg1 H2) as (s2 & Hr2 & _ & Hgr & _).
  exists s1. split; [done|]. rewrite run_session_ops_app, Hr1 in Hr. simpl in Hr.
  assert (s2 = s) as -> by congruence. by eapply grows_not_elem.
Qed.

(** A user safe on the frames cut from what the peer sends makes the whole
    safe. *)
Hypothesis user_safe : forall fs rest, cut_from (unread k fd) fs -> concat fs ++ rest = unread k fd ->
  exists r, run_all fragment_cb fs w0 = Ok r.

#[local] Instance session_laws : ServiceLaws (St := stream K L F U).
Proof.
  refine {| inputs_ok := undisturbed |}.
  - intros xs ys. apply undisturbed_app.
  - intros xs [Hxs _]. destruct (session_run xs Hxs) as (s & fs & _ & H & _). by eexists.
  - intros xs st os cs [Hxs (s' & Hr' & Hd)] Hr Hdel.
    destruct (session_run xs Hxs) as (s & fs & Hrs & H & _ & Hc).
    simpl in Hr. rewrite H in Hr. simplify_eq.
    apply (delivered_one life) in Hdel as [l ->]; [|done].
    assert (s' = st) as -> by congruence.
    destruct (Hc Hd) as (_ & Hcut%cut_from_prefix & Hu). rewrite concat_app, <- app_assoc in Hu.
    destruct (user_safe _ _ Hcut Hu) as [r Hrr]. simpl. rewrite session_user_run, Hrr. by eexists.
Qed.

Implicit Types (σ : sys (stream K L F U) session_op (list byte) W).

Lemma callbacks_send_nothing l :
  Forall (fun e => e.1 = false -> is_callback e.2) l ->
  concat (map op_data (snd <$> l)) = concat (map op_data (tasks l)).
Proof.
  apply (only_tasks (fun os => concat (map op_data os))).
  - intros os os'. by rewrite map_app, concat_app.
  - by intros [[]|[]].
Qed.

(** A session served on a loop, under every interleaving of the io thread,
    the heavy thread, the kernel and the rest of the program, as long as the
    peer is there and nobody but the user's function sends on the session: the
    function has been called with the frames of what the peer sent, a first part
    of them, in order; and the bytes the kernel accepted, followed by those in
    the send buffer, are the messages it gave, a first part of them, in order,
    unbroken. *)
Lemma session_served σ :
  reachable life σ -> Forall small (snd <$> log σ) -> ObsDisconnect ∉ trace_ (object σ) ->
  own (io_posted (sio σ)) = back σ ->
  exists fs answers n,
    concat fs ++ SB.contents (recv_buf_ (object σ)) ++ unread (kern (object σ)) fd = unread k fd /\
    cut_from (unread k fd) fs /\ called σ `prefix_of` fs /\
    run_all fragment_cb (called σ) w0 = Ok (world σ, answers) /\
    accepted (kern (object σ)) fd ++ SB.contents (send_buf_ (object σ)) =
      accepted k fd ++ concat (take n answers).
Proof.
  intros Hr Hsmall Hd Hback.
  destruct (reachable_runs (SL := session_laws) life σ Hr)
    as (outs & Hrun & Htasks & Hev & Hdel & Hcall & _).
  destruct (session_run _ Hsmall) as (s & fs & Hrs & H & _ & Hc).
  simpl in Hrun. rewrite H in Hrun. simplify_eq. destruct (Hc Hd) as (Hsent & Hcut & Hrecv).
  apply (delivered_one life) in Hdel; [|done].
  simpl in Hcall. rewrite session_user_run in Hcall.
  apply res_bind_Ok in Hcall as ([w ms] & Hcb & Hw).
  injection Hw as -> Hw. simpl in Hw.
  exists outs, ms, (length (tasks (log σ))). split_and!; [done|done|done|done|].
  rewrite Hsent, callbacks_send_nothing by done. f_equal.
  assert (Ht : tasks (log σ) = map (SendTask true) (take (length (tasks (log σ))) ms)).
  { apply prefix_map_take. rewrite Hw. rewrite Hback in Htasks. by apply prefix_app_r. }
  rewrite Ht at 1. rewrite map_map. by rewrite map_id.
Qed.
End served.

(** ** The stream example on its loop *)

(** A complete frame stays one when more bytes arrive. *)
Lemma split_prefix d l : d `prefix_of` l -> 0 < split d -> split l = split d.
Proof.
  intros [r ->]. unfold split. rewrite zlen_app. pose proof (zlen_nonneg r).
  destruct (Z.ltb_spec (zlen d) 4); [lia|]. destruct (Z.ltb_spec (zlen d + zlen r) 4); [lia|].
  assert (get32 0 (d ++ r) = get32 0 d) as ->.
  { destruct d as [|x1 [|x2 [|x3 [|x4 d]]]]; try (unfold zlen in *; simpl in *; lia). done. }
  destruct (Z.leb_spec (u32 (get32 0 d + 4)) (zlen d)); [|lia].
  by destruct (Z.leb_spec (u32 (get32 0 d + 4)) (zlen d + zlen r)); [|lia].
Qed.

Section framed.
Context {U : Type} `{SH : StreamHandler U}.
Hypothesis framed : forall d u, on_split d u = (u, split d).

(** What is cut from packets are those packets. *)
Lemma cut_packets ms rest fs :
  Forall message_ok ms -> split rest = 0 -> cut_from (concat (map data_to_packet ms) ++ rest) fs ->
  exists i, fs = map data_to_packet (take i ms).
Proof.
  revert fs. induction ms as [|m ms IH]; intros fs Hms Hrest H; inversion H as [|l d u l' fs' Hp Hn Hl H'];
    subst; try (by exists 0%nat); rewrite framed in *; cbn [snd] in *.
  - simpl in Hp. apply split_prefix in Hp; [lia|done].
  - apply Forall_cons in Hms as [Hm Hms]. cbn [map concat] in *. rewrite <- app_assoc in *.
    pose proof (split_prefix _ _ Hp Hn) as Hs. rewrite split_packet in Hs by done. rewrite <- Hs in *.
    assert (Hf : ztake (zlen m + 4) d = data_to_packet m).
    { pose proof (f_equal (ztake (zlen m + 4)) Hl) as Ht. rewrite !ztake_app_exact in Ht; [done| |].
      - rewrite zlen_take. pose proof (split_bound d). pose proof (zlen_nonneg m). lia.
      - by rewrite zlen_packet. }
    rewrite Hf in *. apply app_inv_head in Hl. subst l'.
    destruct (IH fs') as [i ->]; [done..|]. by exists (S i).
Qed.
End framed.

Lemma serve_run fs c : run_all Stream.server_fragment_cb fs c = Stream.serve c fs.
Proof.
  revert c. induction fs as [|f fs IH]; intros c; [done|]. simpl.
  destruct (Stream.server_fragment_cb f c) as [[c' ms]| |]; try done. simpl. by rewrite IH.
Qed.

Section example.
Context {K : Type} `{SK : StreamKernel K, SL : !StreamLaws K} {L F U : Type}
  `{SH : StreamHandler U, SPL : !SplitLaws U}.
Hypothesis framed : forall d u, on_split d u = (u, split d).
Context (P : K -> Prop) `{!CleanKernel P}.
Variables (life : nat) (loop : L) (fd : Z) (k : K) (u : U) (cb : F).
#[local] Existing Instance session_service.

(** The stream example, served on a loop.  A client sends the packets of some
    messages, and perhaps the start of another.  Under every interleaving of the
    io thread, the heavy thread, the kernel and the rest of the program: the
    fragment callback has been called with a first part of those packets and has
    left the register they make; and what the server's kernel accepted, with the
    bytes waiting in the send buffer, are the packets of a first part of the
    answers of a register, unbroken. *)
Lemma stream_example_served ms rest
    (s : sys (stream K L F U) session_op (list byte) (option (list byte))) :
  0 <= fd -> P k -> Forall message_ok ms -> split rest = 0 ->
  unread k fd = concat (map data_to_packet ms) ++ rest ->
  reachable (SV := session_service life loop fd k u cb Stream.server_fragment_cb None) life s ->
  Forall small (snd <$> log s) -> ObsDisconnect ∉ trace_ (object s) -> own (io_posted (sio s)) = back s ->
  exists i j, called s = map data_to_packet (take i ms) /\ world s = (register None (take i ms)).1 /\
    accepted (kern (object s)) fd ++ SB.contents (send_buf_ (object s)) =
      accepted k fd ++ concat (map data_to_packet (take j (register None (take i ms)).2)).
Proof.
  intros Hfd HP Hms Hrest Hun Hr Hsmall Hd Hback.
  destruct (session_served life loop fd k u cb Stream.server_fragment_cb None P Hfd HP) with (σ := s)
    as (fs & answers & n & _ & Hcut & Hcalled & Hrun & Hacc); try done.
  - intros fs r Hcut _. rewrite Hun in Hcut. destruct (cut_packets framed _ _ _ Hms Hrest Hcut) as [i ->].
    rewrite serve_run, serve_packets. by eexists.
  - rewrite Hun in Hcut. destruct (cut_packets framed _ _ _ Hms Hrest Hcut) as [i ->].
    apply prefix_map_take in Hcalled as Hc. rewrite take_take in Hc.
    set (j := (length (called s) `min` i)%nat) in *. clearbody j.
    rewrite Hc in Hrun. rewrite serve_run, serve_packets in Hrun. injection Hrun as Hw <-.
    exists j, n. split_and!; [done|done|]. by rewrite Hacc, firstn_map.
Qed.
End example.

(** ** Witnesses *)

(** The peer sends ["AAA"], ["GET"] and two bytes of a third packet; five bytes fit
    in the window. *)
Definition demo_served_kernel : demo_sock := mk_sock demo_requests [] 5 false 0.

Abbreviation demo_service :=
  (session_service (K := demo_sock) (L := nat) (F := nat) 0%nat 5%nat 7 demo_served_kernel
     ([] : list (list byte)) 1%nat Stream.server_fragment_cb None).

(** Both packets arrive in one event; the first answer is being sent. *)
Definition demo_served_moves : list (move session_op) :=
  [MStart; HStart; MEnter; MReportFd 7 1; MEvent [Callback true EventType.kRead]; MFlushHeavy;
   MFlushHeavy; MEnd; HEnter; HLock; HPred; HSwap; HCall; MFlushIo; HCall; MWake; MEnter; MReportWake;
   MDrain; MSwap; MCall; MFlushIo].

Abbreviation demo_served_sys :=
  (sys (stream demo_sock nat nat (list (list byte))) session_op (list byte) (option (list byte))).

Definition demo_served : demo_served_sys :=
  default (sys_init (SV := demo_service)) (run_moves (SV := demo_service) 0 demo_served_moves
    (sys_init (SV := demo_service))).

Example demo_served_answers :
  SB.contents (send_buf_ (object demo_served)) = [69; 87] /\
  length (called demo_served) = 2%nat /\ back demo_served = own (io_posted (sio demo_served)) /\
  world demo_served = Some demo_AAA.
Proof. vm_compute. done. Qed.

Lemma demo_served_reachable : reachable (SV := demo_service) 0 demo_served.
Proof.
  apply (run_moves_reach (SV := demo_service)); [by repeat constructor|]. vm_compute. reflexivity.
Qed.

Lemma demo_served_quiet : ObsDisconnect ∉ trace_ (object demo_served).
Proof.
  assert (Forall (fun o => o <> ObsDisconnect) (trace_ (object demo_served))) as H.
  { vm_compute. repeat constructor; discriminate. }
  rewrite Forall_forall in H. intros Hin. by apply (H _ Hin).
Qed.

Lemma stream_example_served_witness :
  exists i j, called demo_served = map data_to_packet (take i [demo_AAA; GET]) /\
    world demo_served = (register None (take i [demo_AAA; GET])).1 /\
    accepted (kern (object demo_served)) 7 ++ SB.contents (send_buf_ (object demo_served)) =
      accepted demo_served_kernel 7 ++
      concat (map data_to_packet (take j (register None (take i [demo_AAA; GET])).2)).
Proof.
  apply (stream_example_served (SH := packet_handler) (fun _ _ => eq_refl) demo_clean 0%nat 5%nat 7
    demo_served_kernel [] 1%nat [demo_AAA; GET] [3; 0] demo_served).
  - lia.
  - repeat split; vm_compute; congruence.
  - repeat constructor; vm_compute; reflexivity.
  - reflexivity.
  - reflexivity.
  - apply demo_served_reachable.
  - assert (snd <$> log demo_served = [Callback true EventType.kRead; SendTask true (data_to_packet NEW)])
      as -> by (vm_compute; reflexivity).
    repeat constructor; vm_compute; reflexivity.
  - apply demo_served_quiet.
  - vm_compute. reflexivity.
Defined.

