(* ===== verification/SessionsServed.v ===== *)
(** * SessionsServed: a stream server and its user on the threads of a loop

    [Sessions] runs a server with all its sessions by itself.  Here it runs on a
    loop of [Executors]: the io thread accepts, reads, writes and erases, each
    frame is a heavy task of its session ([on_fragment] in
    [src/net/tcp_socket.cpp] and [src/net/unix_socket.cpp]), and the user's
    function answers there through [post_send_task] of that session, or stops it.
    The task holds its session, so that the life it checks is never over; it does
    not hold the server whose callback it calls, and the theorem is about a
    server that is still there.  The example is the stream example with any
    number of clients. *)

From S2P Require Import Prelude Events StreamBuffer LoopFd LoopIo LoopHeavy Channel InetAddr.
From S2P Require Import Executors StreamIo StreamLoops StreamSession StreamServer Sessions StreamGrows.
From S2P Require Import StreamClient TcpUnix Framing Examples Served.

(** What the user asks of the session its function was called with. *)
Inductive request :=
| ReqSend (data : list byte)
| ReqStop.

(** The messages asked for on a session. *)
Definition sends_of (id : nat) (ans : list (nat * request)) : list (list byte) :=
  omap (fun x => match x.2 with ReqSend d => if decide (x.1 = id) then Some d else None |
    ReqStop => None end)
    ans.

Lemma sends_of_app id ans ans' : sends_of id (ans ++ ans') = sends_of id ans ++ sends_of id ans'.
Proof. apply omap_app. Qed.

Section served.
Context {K : Type} `{SK : StreamKernel K, SL : !StreamLaws K, SN : !StreamNet K, SNL : !StreamNetLaws K}
  {L F U : Type} `{SH : StreamHandler U, SPL : !SplitLaws U}.
Variables (loop : L) (listen_fd : Z) (life : nat) (listen_fun cb : F) (u0 : U).
Context {W : Type}.
Variable (fragment_cb : nat -> list byte -> W -> res (W * list request)) (w0 : W).

Definition request_input (x : nat * request) : hub_input K :=
  match x.2 with ReqSend d => SendTo x.1 d | ReqStop => StopSession x.1 end.

(** The heavy task of a fragment. *)
Definition answer (o : nat * list byte) (w : W) : res (W * list (nat * request)) :=
  r ← fragment_cb o.1 o.2 w; Ok (r.1, map (pair o.1) r.2).

Definition hub_user (o : nat * list byte) (w : W) : res (W * list (hub_input K)) :=
  r ← answer o w; Ok (r.1, map request_input r.2).

Definition is_hub_event (x : hub_input K) : Prop :=
  match x with SendTo _ _ | StopSession _ => False | _ => True end.

Abbreviation init := (hub0 loop listen_fd life listen_fun : hub K L F U).

#[local] Instance hub_service : Service (hub K L F U) (hub_input K) (nat * list byte) W := {|
  svc_init := init;
  svc_world := w0;
  svc_step := hub_step loop cb u0;
  svc_event := is_hub_event;
  svc_heavy := hub_user;
  svc_owner _ := life
|}.

Context (P : K -> Prop) `{!CleanKernel P}.
Hypothesis arrive_clean : forall d k fd, P k -> P (stream_arrive d k fd).
Hypothesis listen_nonneg : 0 <= listen_fd.

(** What peers may send, and calls made of it: of each session, frames cut from
    what one of them sends. *)
Variable (peer : list byte -> Prop).
Hypothesis peer_prefix : forall l r, peer (l ++ r) -> peer l.

Definition served_frames (cs : list (nat * list byte)) : Prop :=
  forall id, frames_of id cs = [] \/
    exists l, peer l /\ cut_from l (frames_of id cs) /\ concat (frames_of id cs) `prefix_of` l.

Hypothesis user_safe : forall cs, served_frames cs -> exists r, run_all answer cs w0 = Ok r.

Definition peers_ok (xs : list (hub_input K)) : Prop :=
  forall i y, sockets xs !! i = Some y -> peer (unread y.2 y.1 ++ arrived i xs).

Lemma hub_user_run cs w :
  run_all hub_user cs w = (r ← run_all answer cs w; Ok (r.1, map request_input r.2)).
Proof. by apply run_all_map. Qed.

Lemma frames_of_prefix id cs os : cs `prefix_of` os -> frames_of id cs `prefix_of` frames_of id os.
Proof. intros [l ->]. rewrite frames_of_app. by apply prefix_app_r. Qed.

Lemma concat_prefix {A} (l k : list (list A)) : l `prefix_of` k -> concat l `prefix_of` concat k.
Proof. intros [m ->]. rewrite concat_app. by apply prefix_app_r. Qed.

(** What the user sees of one session: a first part of its frames. *)
Lemma called_of_session xs h os cs id c :
  hub_inv loop listen_fd life listen_fun cb u0 P xs h os -> cs `prefix_of` os ->
  conns h !! id = Some c -> plain P c ->
  cut_from (peer_sent c) (frames_of id cs) /\ concat (frames_of id cs) `prefix_of` peer_sent c.
Proof.
  intros Hi Hp Hc Hplain. pose proof (hi_frames _ _ _ _ _ _ _ _ _ _ Hi id) as Hf. rewrite Hc in Hf.
  destruct (co_streams _ _ (hi_conn _ _ _ _ _ _ _ _ _ _ Hi id c Hc) Hplain) as (Hcut & Hpart & _).
  pose proof (frames_of_prefix id _ _ Hp) as Hp'. rewrite Hf in Hp'. split.
  - destruct Hp' as [l Hl]. rewrite Hl in Hcut. by eapply cut_from_prefix.
  - etrans; [by apply concat_prefix|done].
Qed.

(** All that the peer of a session sent, from the inputs. *)
Lemma session_peer_sent xs h os id c :
  hub_inv loop listen_fd life listen_fun cb u0 P xs h os -> conns h !! id = Some c ->
  sockets xs !! id = Some (c_fd c, c_sock c) /\ peer_sent c = unread (c_sock c) (c_fd c) ++ arrived id xs.
Proof.
  intros Hi Hc. split.
  - rewrite <- (hi_socks _ _ _ _ _ _ _ _ _ _ Hi). change (@map ?A ?B) with (@fmap list _ A B).
    by rewrite list_lookup_fmap, Hc.
  - unfold peer_sent. by rewrite (hi_arrived _ _ _ _ _ _ _ _ _ _ Hi id c Hc).
Qed.

(** Every socket is free of system errors, and no event came late. *)
Definition all_plain (h : hub K L F U) : Prop := forall id c, conns h !! id = Some c -> plain P c.

Lemma frames_served xs h os cs :
  hub_inv loop listen_fd life listen_fun cb u0 P xs h os -> all_plain h ->
  (forall id c, conns h !! id = Some c -> peer (peer_sent c)) -> cs `prefix_of` os -> served_frames cs.
Proof.
  intros Hi Hall Hpeers Hp id. destruct (conns h !! id) as [c|] eqn:Hc.
  - right. exists (peer_sent c). split; [by eapply Hpeers|]. eapply called_of_session; [done..|].
    by eapply Hall.
  - left. pose proof (hi_frames _ _ _ _ _ _ _ _ _ _ Hi id) as Hf. rewrite Hc in Hf.
    apply prefix_nil_inv. rewrite <- Hf. by apply frames_of_prefix.
Qed.

Lemma called_frames xs h os cs :
  hub_inv loop listen_fd life listen_fun cb u0 P xs h os -> all_plain h -> peers_ok xs ->
  cs `prefix_of` os -> served_frames cs.
Proof.
  intros Hi Hall Hpeers. apply (frames_served xs h os cs Hi Hall). intros id c Hc.
  destruct (session_peer_sent _ _ _ _ _ Hi Hc) as [Hs ->]. exact (Hpeers _ _ Hs).
Qed.

Lemma run_plain xs h h' os : run_all (hub_step loop cb u0) xs h = Ok (h', os) -> all_plain h' ->
  all_plain h.
Proof.
  revert h os. induction xs as [|x xs IH]; intros h os H Hall; cbn [run_all] in H; [by simplify_eq|].
  apply res_bind_Ok in H as ([h1 os1] & Hst & H). apply res_bind_Ok in H as ([h2 os2] & H & [= -> _]).
  pose proof (IH _ _ H Hall) as H1. intros id c Hc.
  destruct (hub_step_peer loop cb u0 _ _ _ _ _ _ Hst Hc) as (c' & Hc' & [_ Hk _ _ Hlate]).
  destruct (H1 id c' Hc') as [HP Hl]. rewrite Hk in HP. split; [done|]. by apply Hlate.
Qed.

Abbreviation admissible_run xs := (admissible loop cb u0 xs init).

Lemma admissible_app xs ys h :
  admissible loop cb u0 (xs ++ ys) h -> admissible loop cb u0 xs h.
Proof.
  revert h. induction xs as [|x xs IH]; intros h; [done|]. intros [Hx H]. split; [done|].
  intros h' os Hst. by eapply IH, H.
Qed.

Lemma hub_runs xs :
  admissible_run xs ->
  exists h os, run_all (hub_step loop cb u0) xs init = Ok (h, os) /\
    hub_inv loop listen_fd life listen_fun cb u0 P xs h os.
Proof.
  intros Hok. apply (hub_run_inv loop listen_fd life listen_fun cb u0 P arrive_clean listen_nonneg []
    xs init []);
    [by apply hub0_inv|done].
Qed.

Definition plain_run xs : Prop :=
  forall h os, run_all (hub_step loop cb u0) xs init = Ok (h, os) -> all_plain h.

Definition hub_inputs_ok xs : Prop := admissible_run xs /\ peers_ok xs /\ plain_run xs.

Lemma hub_inputs_ok_app xs ys : hub_inputs_ok (xs ++ ys) -> hub_inputs_ok xs.
Proof.
  intros (Ha & Hp & Hpl). split_and!; [by eapply admissible_app| |].
  - intros i y Hy. apply (peer_prefix _ (arrived i ys)). rewrite <- app_assoc, <- arrived_app. apply Hp.
    rewrite sockets_app. by apply lookup_app_l_Some.
  - intros h os Hr. destruct (hub_runs _ Ha) as (h' & os' & Hr' & _). pose proof (Hpl _ _ Hr') as H'.
    rewrite run_all_app, Hr in Hr'. cbn [mbind res_bind fst snd] in Hr'.
    apply res_bind_Ok in Hr' as ([h2 os2] & Hr2 & [= -> _]). by eapply run_plain.
Qed.

Lemma hub_steps_ok xs : hub_inputs_ok xs -> exists r, run_all (hub_step loop cb u0) xs init = Ok r.
Proof. intros [Hxs _]. destruct (hub_runs xs Hxs) as (h & os & H & _). by eexists. Qed.

Lemma hub_heavy_ok xs h os cs :
  hub_inputs_ok xs -> run_all (hub_step loop cb u0) xs init = Ok (h, os) -> delivered os cs ->
  exists r, run_all hub_user cs w0 = Ok r.
Proof.
  intros (Hxs & Hp & Hpl) Hr Hdel. destruct (hub_runs xs Hxs) as (h' & os' & H & Hi).
  pose proof (Hpl _ _ H) as Hall. rewrite H in Hr. simplify_eq.
  apply (delivered_one life) in Hdel; [|done].
  destruct (user_safe cs) as [r Hrr]; [by eapply called_frames|]. rewrite hub_user_run, Hrr. by eexists.
Qed.

#[local] Instance hub_laws : ServiceLaws (St := hub K L F U) (W := W) := {|
  inputs_ok := hub_inputs_ok;
  inputs_ok_app := hub_inputs_ok_app;
  svc_step_ok := hub_steps_ok;
  svc_heavy_ok := hub_heavy_ok
|}.

Implicit Types (σ : sys (hub K L F U) (hub_input K) (nat * list byte) W).

Lemma events_give_nothing (l : list (bool * hub_input K)) :
  Forall (fun e => e.1 = false -> is_hub_event e.2) l ->
  forall id, sent_data id (snd <$> l) = sent_data id (tasks l).
Proof.
  intros Hl id. apply (only_tasks (sent_data id) is_hub_event); [apply sent_data_app| |done].
  by intros [].
Qed.

Lemma requests_sent id (ans : list (nat * request)) : sent_data id (map request_input ans) = sends_of
  id ans.
Proof.
  induction ans as [|[j [d|]] ans IH]; [done| |].
  - change (sent_data id (map request_input ((j, ReqSend d) :: ans))) with
      (sent_data id ([SendTo j d] ++ map request_input ans)).
    change (sends_of id ((j, ReqSend d) :: ans)) with (sends_of id ([(j, ReqSend d)] ++ ans)).
    rewrite sent_data_app, sends_of_app, IH. done.
  - exact IH.
Qed.

Lemma sends_of_take id n (ans : list (nat * request)) :
  exists m, sends_of id (take n ans) = take m (sends_of id ans).
Proof.
  exists (length (sends_of id (take n ans))).
  assert (sends_of id ans = sends_of id (take n ans) ++ sends_of id (drop n ans)) as ->
    by (by rewrite <- sends_of_app, take_drop). by rewrite take_app_length.
Qed.

(** A server on a loop, under every interleaving, when only the user's function
    sends on its sessions: each session gives its frames and takes its answers,
    whatever the others do. *)
Lemma hub_served σ :
  reachable life σ -> admissible_run (snd <$> log σ) -> own (io_posted (sio σ)) = back σ ->
  exists ans, run_all answer (called σ) w0 = Ok (world σ, ans) /\
    forall id c, conns (object σ) !! id = Some c -> plain P c ->
      cut_from (peer_sent c) (frames_of id (called σ)) /\
      concat (frames_of id (called σ)) `prefix_of` peer_sent c /\
      (peer_here c -> exists n,
        accepted (kern (c_stream c)) (c_fd c) ++ SB.contents (send_buf_ (c_stream c)) =
          accepted (c_sock c) (c_fd c) ++ concat (take n (sends_of id ans))).
Proof.
  intros Hr Hok Hback. destruct (reachable_log life σ Hr) as (outs & Hrun & Htasks & Hev & Hdel & Hcall).
  destruct (hub_runs _ Hok) as (h & os & H & Hi). simpl in Hrun. rewrite H in Hrun. simplify_eq.
  apply (delivered_one life) in Hdel; [|done].
  simpl in Hcall. rewrite hub_user_run in Hcall. apply res_bind_Ok in Hcall as ([w ans] & Hans & Hw).
  injection Hw as -> Hw. simpl in Hw. exists ans. split; [done|].
  intros id c Hc Hplain. split_and!; [by eapply called_of_session..|]. intros Hhere.
  destruct (hi_conn _ _ _ _ _ _ _ _ _ _ Hi id c Hc) as [_ _ Hget _ Hstr].
  destruct (Hstr Hplain) as (_ & _ & Hst).
  destruct (Hst Hhere) as (_ & Hsent & _). unfold sent_stream in Hsent. rewrite Hget in Hsent.
  destruct (hi_given _ _ _ _ _ _ _ _ _ _ Hi id c Hc) as [[r Hg] _].
  rewrite events_give_nothing in Hg by done.
  assert (Ht : tasks (log σ) = map request_input (take (length (tasks (log σ))) ans)).
  { apply prefix_map_take. rewrite Hw. rewrite Hback in Htasks. by apply prefix_app_r. }
  rewrite Ht, requests_sent in Hg. destruct (sends_of_take id (length (tasks (log σ))) ans) as [m Hm].
  rewrite Hm in Hg. exists (length (given_data (c_given c)) `min` m)%nat. rewrite Hsent. do 2 f_equal.
  rewrite <- take_take, Hg. by rewrite take_app_length.
Qed.

Lemma hub_conn_ok σ id c :
  reachable life σ -> admissible_run (snd <$> log σ) -> conns (object σ) !! id = Some c -> conn_ok P c.
Proof.
  intros Hr Hok Hc. destruct (reachable_log life σ Hr) as (outs & Hrun & _).
  destruct (hub_runs _ Hok) as (h & os & H & Hi). simpl in Hrun. rewrite H in Hrun. simplify_eq.
  exact (hi_conn _ _ _ _ _ _ _ _ _ _ Hi id c Hc).
Qed.

(** The fragment callbacks stay within defined behaviour. *)
Lemma hub_user_safe σ t m :
  reachable life σ -> admissible_run (snd <$> log σ) -> peers_ok (snd <$> log σ) -> all_plain (object σ) ->
  hv_at (shv σ) = HV_run m -> heavy_exe_queue_ (shv σ) !! m = Some t ->
  exists σ', run_heavy t m σ = Ok σ'.
Proof.
  intros Hr Hok Hp Hall Hat Hx. eapply reachable_heavy; [exact Hr|exact Hat|exact Hx|].
  intros outs cs Hrun. apply (hub_heavy_ok (snd <$> log σ) (object σ)); [|done].
  split_and!; [done|done|]. intros h os H. simpl in Hrun. rewrite Hrun in H. by simplify_eq.
Qed.
End served.

(** ** The stream example with all its clients *)

(** The contexts of the sessions ([user_context_]); none: the null pointer. *)
Definition get_user_context (id : nat) (w : gmap nat (list byte)) : option (list byte) := w !! id.
Definition set_user_context (id : nat) (v : list byte) (w : gmap nat (list byte)) : gmap nat (list byte) :=
  <[id := v]> w.

(** [server_fragment_cb] on them. *)
Definition stream_user (id : nat) (f : list byte) (w : gmap nat (list byte))
    : res (gmap nat (list byte) * list request) :=
  r ← Stream.server_fragment_cb f (get_user_context id w);
  Ok (match r.1 with Some v => set_user_context id v w | None => w end, map ReqSend r.2).

Definition packets_from (l : list byte) : Prop :=
  exists ms rest, Forall message_ok ms /\ split rest = 0 /\ l = concat (map data_to_packet ms) ++ rest.

Lemma split_nonneg d : 0 <= split d.
Proof.
  unfold split. destruct (_ <? 4); [lia|]. destruct (_ <=? _); [|lia]. apply (wrap_bound 32). lia.
Qed.

(** What came so far of packets and a part of one is that too. *)
Lemma split_incomplete d l : d `prefix_of` l -> split l = 0 -> split d = 0.
Proof.
  intros Hp Hl. destruct (Z.eq_dec (split d) 0) as [|Hd]; [done|].
  pose proof (split_nonneg d). rewrite <- (split_prefix d l Hp) in Hd by lia. done.
Qed.

Lemma packets_prefix l r : packets_from (l ++ r) -> packets_from l.
Proof.
  intros (ms & rest & Hms & Hrest & H). revert l H. induction Hms as [|m ms Hm Hms IH]; intros l H.
  - exists [], l. split_and!; [constructor| |done]. apply (split_incomplete l rest); [|done]. by exists r.
  - cbn [map concat] in H. rewrite <- app_assoc in H.
    destruct (decide (zlen (data_to_packet m) <= zlen l)) as [Hle|Hlt].
    + assert (Hl : exists l', l = data_to_packet m ++ l').
      { exists (zdrop (zlen (data_to_packet m)) l).
        pose proof (f_equal (ztake (zlen (data_to_packet m))) H) as Ht.
        rewrite ztake_app_le, ztake_app_exact in Ht by done.
        rewrite <- (ztake_zdrop (zlen (data_to_packet m)) l) at 1. by rewrite Ht. }
      destruct Hl as [l' ->]. rewrite <- app_assoc in H. apply app_inv_head in H.
      destruct (IH l' H) as (ms' & rest' & ? & ? & ->). exists (m :: ms'), rest'.
      split_and!; [by constructor|done|]. cbn [map concat]. by rewrite app_assoc.
    + exists [], l. split_and!; [constructor| |done].
      destruct (Z.eq_dec (split l) 0) as [|Hne]; [done|]. exfalso.
      assert (0 < split l) by (pose proof (split_nonneg l); lia).
      assert (split (l ++ r) = split l) as Hs by (apply split_prefix; [by exists r|done]).
      rewrite H, split_packet in Hs by done. pose proof (split_bound l). rewrite zlen_packet in Hlt. lia.
Qed.

Lemma sends_of_map id j ms : sends_of id (map (pair j) (map ReqSend ms)) = if decide (j = id) then ms
  else [].
Proof.
  induction ms as [|m ms IH]; [by case_decide|].
  change (map (pair j) (map ReqSend (m :: ms))) with ([(j, ReqSend m)] ++ map (pair j) (map ReqSend ms)).
  rewrite sends_of_app, IH. unfold sends_of. simpl. by case_decide.
Qed.

Lemma register_step_some c m : exists v, (register_step c m).1 = Some v.
Proof. unfold register_step. destruct c; [case_decide|]; simpl; by eexists. Qed.

(** A register for each session. *)
Lemma answer_packet j m w :
  let r := register_step (w !! j) m in
  exists v, r.1 = Some v /\ answer stream_user (j, data_to_packet m) w =
    Ok (<[j := v]> w, map (pair j) (map ReqSend (map data_to_packet r.2))).
Proof.
  intros r. destruct (register_step_some (w !! j) m) as [v Hv]. fold r in Hv. exists v. split; [done|].
  unfold answer, stream_user, get_user_context. cbn [fst snd]. rewrite server_fragment_step. fold r.
  cbn [mbind res_bind fst snd]. by rewrite Hv.
Qed.

(** The others see nothing of it, whatever was sent. *)
Lemma answer_others j f w w' reqs id :
  j <> id -> answer stream_user (j, f) w = Ok (w', reqs) -> w' !! id = w !! id /\ sends_of id reqs = [].
Proof.
  intros Hne H. unfold answer in H. apply res_bind_Ok in H as ([w1 rs] & Hm & [= <- <-]).
  cbn [fst snd] in *.
  apply res_bind_Ok in Hm as ([v ms] & _ & [= <- <-]). cbn [fst snd] in *.
  rewrite sends_of_map, decide_False by done. split; [|done].
  destruct v; [|done]. by apply lookup_insert_ne.
Qed.

Lemma stream_users_ran cs w ans id ms :
  run_all (answer stream_user) cs ∅ = Ok (w, ans) -> frames_of id cs = map data_to_packet ms ->
  w !! id = (register None ms).1 /\ sends_of id ans = map data_to_packet (register None ms).2.
Proof.
  revert w ans ms. induction cs as [|[j f] cs IH] using rev_ind; intros w ans ms Hr Hf.
  { injection Hr as <- <-. symmetry in Hf. by apply map_eq_nil in Hf as ->. }
  rewrite run_all_app in Hr. apply res_bind_Ok in Hr as ([w1 ans1] & Hr & H).
  apply res_bind_Ok in H as ([w2 ans2] & H & [= <- <-]). cbn [run_all fst snd] in H.
  apply res_bind_Ok in H as ([w3 ans3] & Ha & [= <- <-]). cbn [fst snd] in *.
  rewrite frames_of_app in Hf. change (frames_of id [(j, f)]) with (frames_of id (map (pair j) [f])) in Hf.
  rewrite frames_of_map in Hf. rewrite app_nil_r, sends_of_app. case_decide as Hd.
  - subst j. destruct ms as [|m ms _] using rev_ind; [by destruct (frames_of id cs)|].
    rewrite map_app in Hf. apply app_inj_tail in Hf as [Hf ->].
    destruct (IH _ _ _ Hr Hf) as [Hw Hs]. destruct (answer_packet id m w1) as (v & Hv & Ha').
    rewrite Ha in Ha'. injection Ha' as -> ->. rewrite lookup_insert_eq, register_snoc, Hs.
    rewrite sends_of_map, decide_True by done. cbn zeta. rewrite <- Hw. cbn [fst snd].
    by rewrite Hv, map_app.
  - rewrite app_nil_r in Hf. destruct (IH _ _ _ Hr Hf) as [Hw Hs].
    destruct (answer_others _ _ _ _ _ id Hd Ha) as [-> ->]. by rewrite app_nil_r.
Qed.

Lemma stream_users cs w :
  Forall (fun x => exists m, x.2 = data_to_packet m) cs ->
  exists r, run_all (answer stream_user) cs w = Ok r.
Proof.
  intros H. revert w. induction H as [|[j f] cs [m Hm] _ IH]; intros w; [by eexists|]. simpl in Hm. subst f.
  destruct (answer_packet j m w) as (v & _ & Ha). cbn [run_all]. rewrite Ha. cbn [mbind res_bind fst snd].
  destruct (IH (<[j := v]> w)) as [r ->]. by eexists.
Qed.

#[export] Instance packet_inj_instance : Inj (=) (=) data_to_packet.
Proof. intros m m'. apply packet_inj. Qed.

Section example.
Context {K : Type} `{SK : StreamKernel K, SL : !StreamLaws K, SN : !StreamNet K, SNL : !StreamNetLaws K}
  {L F U : Type} `{SH : StreamHandler U, SPL : !SplitLaws U}.
Hypothesis framed : forall d u, on_split d u = (u, split d).
Context (P : K -> Prop) `{!CleanKernel P}.
Hypothesis arrive_clean : forall d k fd, P k -> P (stream_arrive d k fd).
Variables (loop : L) (listen_fd : Z) (life : nat) (listen_fun cb : F) (u0 : U).
#[local] Existing Instance hub_service.

(** Frames cut from packets, session by session. *)
Lemma served_packets cs :
  served_frames packets_from cs -> Forall (fun x => exists m, x.2 = data_to_packet m) cs.
Proof.
  intros H. apply Forall_forall. intros [id f] Hin.
  assert (Hf : f ∈ frames_of id cs).
  { apply list_elem_of_omap. exists (id, f). split; [done|]. simpl. by rewrite decide_True. }
  destruct (H id) as [E|(l & (ms & rest & Hms & Hrest & ->) & Hcut & _)]; [rewrite E in Hf;
    by apply elem_of_nil in Hf|].
  destruct (cut_packets framed _ _ _ Hms Hrest Hcut) as [i E]. rewrite E in Hf.
  apply list_elem_of_fmap in Hf as (m & -> & _). by exists m.
Qed.

Lemma stream_user_safe cs :
  served_frames packets_from cs -> exists r, run_all (answer stream_user) cs ∅ = Ok r.
Proof. intros H. by apply stream_users, served_packets. Qed.

(** C35: the stream example with any number of clients, served on a loop by a
    server that is there, once its callbacks are set, where only its fragment
    callbacks post to the sessions.  Under every interleaving of the io thread, the heavy
    thread, the kernel and the rest of the program, connections that come and go,
    and whatever the other clients send and whatever befalls them, every session
    is a register of its own.  When its client sends the packets of some messages,
    and perhaps the start of another, while its socket reports no system error and
    no event is dispatched after the end of its stream ([plain]), its fragment
    callback has been called with a first part of those packets and has left the
    register they make in the context of the session; and while the client is
    there, what the kernel accepted for it, with the bytes waiting in the send
    buffer, are the packets of a first part of the answers of that register.  When
    all clients send such packets, over such sockets, no fragment callback leaves
    defined behaviour. *)
Theorem stream_server_served
    (s : sys (hub K L F U) (hub_input K) (nat * list byte) (gmap nat (list byte))) :
  0 <= listen_fd -> life ∉ dead s ->
  reachable (SV := hub_service loop listen_fd life listen_fun cb u0 stream_user ∅) life s ->
  admissible loop cb u0 (snd <$> log s) (hub0 loop listen_fd life listen_fun) ->
  own (io_posted (sio s)) = back s ->
  (forall id c ms rest, conns (object s) !! id = Some c -> plain P c ->
    Forall message_ok ms -> split rest = 0 -> peer_sent c = concat (map data_to_packet ms) ++ rest ->
    exists i, frames_of id (called s) = map data_to_packet (take i ms) /\
      world s !! id = (register None (take i ms)).1 /\
      (peer_here c -> exists j,
       accepted (kern (c_stream c)) (c_fd c) ++ SB.contents (send_buf_ (c_stream c)) =
         accepted (c_sock c) (c_fd c) ++
         concat (map data_to_packet (take j (register None (take i ms)).2)))) /\
  (all_plain P (object s) -> peers_ok packets_from (snd <$> log s) ->
   forall t m, hv_at (shv s) = HV_run m -> heavy_exe_queue_ (shv s) !! m = Some t ->
     exists s', run_heavy (SV := hub_service loop listen_fd life listen_fun cb u0 stream_user ∅) t m
       s = Ok s').
Proof.
  intros Hfd _ Hr Hok Hback. split.
  - intros id c ms rest Hc Hplain Hms Hrest Hun.
    destruct (hub_served loop listen_fd life listen_fun cb u0 stream_user ∅ P arrive_clean Hfd
      s Hr Hok Hback) as (ans & Hrun & Hall).
    destruct (Hall id c Hc Hplain) as (Hcut & _ & Hacc). rewrite Hun in Hcut.
    destruct (cut_packets framed _ _ _ Hms Hrest Hcut) as [i Hi].
    destruct (stream_users_ran _ _ _ _ _ Hrun Hi) as [Hreg Hsends].
    exists i. split_and!; [done|done|]. intros Hh. destruct (Hacc Hh) as [j Hj]. exists j.
    by rewrite Hj, Hsends, <- firstn_map.
  - intros Hall Hp t m Hat Hx. eapply (hub_user_safe loop listen_fd life listen_fun cb u0 stream_user ∅ P
      arrive_clean Hfd packets_from stream_user_safe); eassumption.
Qed.
End example.

(** ** Witness *)

(** The callbacks the example registers on its server. *)
Definition example_callbacks : callbacks unit := mk_callbacks (Some (fun d x => (x,
  split d))) true false true.

#[local] Instance example_handler : StreamHandler (endpoint unit) := tcp_handler example_callbacks.

#[local] Instance example_split_laws : SplitLaws (endpoint unit).
Proof. apply (family_split_laws tcp_reported). intros f d x [= <-]. apply split_bound. Qed.

Lemma example_framed d (u : endpoint unit) : on_split d u = (u, split d).
Proof. by destruct u. Qed.

(** Two clients: one sends ["AAA"], ["GET"] and closes; the other ["GET"] twice and a
    part of a third packet. *)
Definition demo_client0 : list (list byte) := [demo_AAA; GET].
Definition demo_client1 : list (list byte) := [GET; GET].
Definition demo_sock0 : demo_sock := mk_sock (data_to_packet demo_AAA) [] 9 false 0.
Definition demo_sock1 : demo_sock := mk_sock (concat (map data_to_packet demo_client1) ++ [3;
  0]) [] 99 false 0.

Abbreviation demo_hub_service :=
  (hub_service (K := demo_sock) (L := nat) (F := nat) 5%nat 6 0%nat 2%nat 1%nat (mk_endpoint tt [] 0)
     stream_user ∅).

Definition demo_hub_moves : list (move (hub_input demo_sock)) :=
  [MStart; HStart; MEnter; MReportFd 6 1;
   MEvent [AcceptEvent EventType.kRead [Ret (7, demo_sock0); Ret (8, demo_sock1); Err EAGAIN] 0]; MEnd;
   MEnter; MReportFd 7 1; MEvent [StreamEvent 0 EventType.kRead]; MFlushHeavy; MEnd;
   MEnter; MReportFd 7 1; MEvent [Arrives 0 (data_to_packet GET); StreamEvent 0 EventType.kRead];
   MFlushHeavy; MEnd;
   HEnter; HLock; HPred; HSwap; HCall; MFlushIo;
   MEnter; MReportFd 8 1; MEvent [StreamEvent 1 EventType.kRead]; MFlushHeavy; MFlushHeavy; MEnd;
   HCall; MFlushIo; HClear; HEnter; HLock; HPred; HSwap; HCall; MFlushIo; HCall; MFlushIo;
   MWake; MEnter; MReportWake; MDrain; MSwap; MCall; MCall; MCall].

Abbreviation demo_hub_sys :=
  (sys (hub demo_sock nat nat (endpoint unit)) (hub_input demo_sock) (nat * list byte)
     (gmap nat (list byte))).

Definition demo_hub_served : demo_hub_sys :=
  default (sys_init (SV := demo_hub_service)) (run_moves (SV := demo_hub_service) 0 demo_hub_moves
    (sys_init (SV := demo_hub_service))).

Example demo_hub_answers :
  map fst (called demo_hub_served) = [0; 0; 1; 1]%nat /\
  world demo_hub_served !! 0%nat = Some demo_AAA /\ world demo_hub_served !! 1%nat = Some GET /\
  map (fun c => outbox (kern (c_stream c))) (conns (object demo_hub_served)) =
    [data_to_packet NEW ++ [3; 0]; data_to_packet NEW].
Proof. vm_compute. done. Qed.

Lemma demo_hub_served_reachable : reachable (SV := demo_hub_service) 0 demo_hub_served.
Proof.
  apply (run_moves_reach (SV := demo_hub_service)); [by repeat constructor|]. vm_compute. reflexivity.
Qed.

Lemma demo_sockets : sockets (snd <$> log demo_hub_served) = [(7, demo_sock0); (8, demo_sock1)].
Proof. vm_compute. reflexivity. Qed.

Lemma demo_arrivals id :
  arrived id (snd <$> log demo_hub_served) = if decide (0%nat = id) then data_to_packet GET else [].
Proof.
  assert (omap (fun i => match i with Arrives j data => Some (j, data) | _ => None end)
    (snd <$> log demo_hub_served) = [(0%nat, data_to_packet GET)]) as H by (vm_compute; reflexivity).
  rewrite arrived_pairs, H. simpl. case_decide; [apply app_nil_r|done].
Qed.

Lemma peers_ok_two {K} `{StreamKernel K} (peer : list byte -> Prop) (xs : list (hub_input K)) x y :
  sockets xs = [x; y] -> peer (unread x.2 x.1 ++ arrived 0 xs) -> peer (unread y.2 y.1 ++ arrived 1 xs) ->
  peers_ok peer xs.
Proof. intros Hs Hx Hy i z. rewrite Hs. by destruct i as [|[|i]]; intros [= <-]. Qed.

Definition demo_conn0 : connection demo_sock nat nat (endpoint unit) :=
  default (mk_conn 0 demo_sock0 [] [] (opened 5%nat 1%nat (mk_endpoint tt [] 0) 0 7 demo_sock0) false)
    (conns (object demo_hub_served) !! 0%nat).

Lemma demo_conn0_here : conns (object demo_hub_served) !! 0%nat = Some demo_conn0 /\
  peer_sent demo_conn0 = concat (map data_to_packet demo_client0).
Proof.
  assert (H : (fun c => (c_fd c, c_sock c, c_arrived c)) <$> conns (object demo_hub_served) !! 0%nat =
    Some (7, demo_sock0, data_to_packet GET)) by (vm_compute; reflexivity).
  unfold demo_conn0. destruct (conns (object demo_hub_served) !! 0%nat) as [c|]; [|done].
  split; [done|]. injection H as Hfd Hk Ha. cbn [default from_option]. unfold id, peer_sent.
  rewrite Hfd, Hk, Ha. reflexivity.
Qed.

Definition plainb {L F U} (c : connection demo_sock L F U) : bool :=
  demo_quietb (c_sock c) && negb (c_late c).

Lemma all_plainb {L F U} (h : hub demo_sock L F U) : forallb plainb (conns h) = true ->
  all_plain demo_quiet h.
Proof.
  intros H id c Hc. apply list_elem_of_lookup_2, list_elem_of_In in Hc.
  assert (plainb c = true) as [Hq Hl]%andb_true_iff by (revert c Hc; by apply forallb_forall).
  split; [by apply demo_quietb_ok|by apply negb_true_iff].
Qed.

Lemma demo_all_plain : all_plain demo_quiet (object demo_hub_served).
Proof. apply all_plainb. vm_compute. reflexivity. Qed.

Lemma stream_server_served_witness :
  (exists i, frames_of 0 (called demo_hub_served) = map data_to_packet (take i demo_client0) /\
    world demo_hub_served !! 0%nat = (register None (take i demo_client0)).1 /\
    (peer_here demo_conn0 -> exists j,
     accepted (kern (c_stream demo_conn0)) (c_fd demo_conn0) ++
       SB.contents (send_buf_ (c_stream demo_conn0)) =
       accepted (c_sock demo_conn0) (c_fd demo_conn0) ++
       concat (map data_to_packet (take j (register None (take i demo_client0)).2)))) /\
  forall t m, hv_at (shv demo_hub_served) = HV_run m ->
    heavy_exe_queue_ (shv demo_hub_served) !! m = Some t ->
    exists s', run_heavy (SV := demo_hub_service) t m demo_hub_served = Ok s'.
Proof.
  destruct demo_conn0_here as [Hc Hun].
  destruct (stream_server_served example_framed demo_quiet demo_arrive_quiet 5%nat 6 0%nat 2%nat 1%nat
    (mk_endpoint tt [] 0) demo_hub_served) as [Hsession Hsafe].
  - lia.
  - assert (dead demo_hub_served = ∅) as -> by (vm_compute; reflexivity). apply not_elem_of_empty.
  - apply demo_hub_served_reachable.
  - apply admissibleb_ok. vm_compute. reflexivity.
  - vm_compute. reflexivity.
  - split.
    + apply (Hsession 0%nat demo_conn0 demo_client0 []).
      * exact Hc.
      * exact (demo_all_plain _ _ Hc).
      * repeat constructor; vm_compute; reflexivity.
      * reflexivity.
      * rewrite Hun, app_nil_r. reflexivity.
    + apply Hsafe; [exact demo_all_plain|].
      apply (peers_ok_two packets_from _ _ _ demo_sockets); rewrite demo_arrivals.
      * exists demo_client0, []. split_and!; [repeat constructor; vm_compute; reflexivity|reflexivity..].
      * exists demo_client1, [3; 0]. split_and!; [repeat constructor; vm_compute;
          reflexivity|reflexivity..].
Defined.
