(* ===== verification/EndToEnd.v ===== *)
(** * EndToEnd: the stream example, both ends on one loop

    The main functions of [examples/tcp_example.cpp] and
    [examples/unix_example.cpp]: a server with the register callbacks, a client of
    it, and one loop that runs both.  The server is the one of [Sessions], with
    any other clients too; the client is [StreamClient], connected by the main
    function, with nothing registered for errors and disconnections; the network
    carries bytes from what the kernel accepted of one end to what the other end
    reads, some at a time; and both threads of the loop run as in [Executors].
    The lives of the server and of the client are the main function's: they end
    together.  The theorem is what the program prints. *)

From S2P Require Import Prelude Events StreamBuffer LoopFd LoopIo LoopHeavy Channel InetAddr StreamIo.
From S2P Require Import Executors StreamLoops StreamSession StreamServer Sessions StreamClient StreamGrows.
From S2P Require Import TcpUnix Framing Examples Served SessionsServed.

(** What the server and its client are given; the network brings the next bytes
    of one end to the other. *)
Inductive both_input (K : Type) :=
| OnServer (x : hub_input K)
| OnClient (o : client_op)
| ToServer (n : nat)
| ToClient (n : nat).
Arguments OnServer {K} x.
Arguments OnClient {K} o.
Arguments ToServer {K} n.
Arguments ToClient {K} n.

(** A frame of a session of the server, or of the client. *)
Definition both_output : Type := (nat * list byte) + list byte.

Definition lefts (os : list both_output) : list (nat * list byte) :=
  omap (fun o => match o with inl x => Some x | inr _ => None end) os.
Definition rights (os : list both_output) : list (list byte) :=
  omap (fun o => match o with inl _ => None | inr f => Some f end) os.
Definition on_server {K} (xs : list (both_input K)) : list (hub_input K) :=
  omap (fun x => match x with OnServer x => Some x | _ => None end) xs.
Definition client_sends {K} (xs : list (both_input K)) : list (list byte) :=
  omap (fun x => match x with OnClient (OpSend d) => Some d | _ => None end) xs.

Lemma lefts_app os os' : lefts (os ++ os') = lefts os ++ lefts os'.
Proof. apply omap_app. Qed.
Lemma rights_app os os' : rights (os ++ os') = rights os ++ rights os'.
Proof. apply omap_app. Qed.
Lemma on_server_app {K} (xs ys : list (both_input K)) : on_server (xs ++ ys) = on_server xs ++ on_server ys.
Proof. apply omap_app. Qed.
Lemma client_sends_app {K} (xs ys : list (both_input K)) :
  client_sends (xs ++ ys) = client_sends xs ++ client_sends ys.
Proof. apply omap_app. Qed.

Lemma lefts_inl os : lefts (map inl os) = os /\ rights (map inl os) = [].
Proof. by induction os as [|o os [IH1 IH2]]; [|split; [exact (f_equal (cons o) IH1)|]]. Qed.

Lemma rights_inr fs : lefts (map inr fs) = [] /\ rights (map inr fs) = fs.
Proof. by induction fs as [|f fs [IH1 IH2]]; [|split; [|exact (f_equal (cons f) IH2)]]. Qed.

(** The next [n] bytes after those that came. *)
Definition next_of (n : nat) (sent came : list byte) : list byte := take n (drop (length came) sent).

Lemma next_of_prefix n sent came : came `prefix_of` sent -> came ++ next_of n sent came `prefix_of` sent.
Proof.
  intros [l ->]. unfold next_of. rewrite drop_app_length. exists (drop n l).
  by rewrite <- app_assoc, take_drop.
Qed.

(** ** The users *)

(** The contexts of the sessions, and what was printed. *)
Definition both_world : Type := gmap nat (list byte) * list (list byte).

(** [server_fragment_cb] and [client_fragment_cb]. *)
Definition both_user {K} (o : both_output) (w : both_world) : res (both_world * list (both_input K)) :=
  match o with
  | inl f => r ← answer stream_user f w.1; Ok ((r.1, w.2), map (fun x => OnServer (request_input x)) r.2)
  | inr f => m ← Stream.client_fragment_cb f; Ok ((w.1, w.2 ++ [m]), [])
  end.

(** Callables of epoll, and the network. *)
Definition is_both_event {K} (x : both_input K) : Prop :=
  match x with
  | OnServer x => is_hub_event x
  | OnClient (OpSocketCb _ | OpTimerCb | OpStreamCb _) | ToServer _ | ToClient _ => True
  | OnClient _ => False
  end.

(** What [main] gives to [post_send_task], when its loop has run [n] times. *)
Definition main_messages (n : nat) : list (list byte) := demo_AAA :: replicate n GET.

Section users.
Context {K : Type}.

Lemma users_run cs (w : both_world) w' ans ms :
  run_all (answer stream_user) (lefts cs) w.1 = Ok (w', ans) -> Stream.show (rights cs) = Ok ms ->
  run_all (both_user (K := K)) cs w =
    Ok ((w', w.2 ++ ms), map (fun x => OnServer (request_input x)) ans).
Proof.
  revert w ans ms. induction cs as [|[f|f] cs IH]; intros [w p] ans ms Hl Hr.
  - injection Hl as -> <-. injection Hr as <-. simpl. by rewrite app_nil_r.
  - change (lefts (inl f :: cs)) with (f :: lefts cs) in Hl.
    change (rights (inl f :: cs)) with (rights cs) in Hr.
    cbn [run_all] in *. apply res_bind_Ok in Hl as ([w1 ans1] & Ha & Hl).
    apply res_bind_Ok in Hl as ([w2 ans2] & Hl & [= <- <-]). cbn [both_user fst snd] in *.
    rewrite Ha. cbn [mbind res_bind fst snd]. rewrite (IH (w1, p) ans2 ms) by done.
    cbn [mbind res_bind fst snd]. by rewrite map_app.
  - change (lefts (inr f :: cs)) with (lefts cs) in Hl.
    change (rights (inr f :: cs)) with (f :: rights cs) in Hr.
    cbn [run_all Stream.show] in *. apply res_bind_Ok in Hr as (m & Hm & Hr).
    apply res_bind_Ok in Hr as (ms' & Hr & [= <-]). cbn [both_user fst snd] in *.
    rewrite Hm. cbn [mbind res_bind fst snd]. rewrite (IH (w, p ++ [m]) ans ms') by done.
    cbn [mbind res_bind fst snd]. by rewrite <- app_assoc.
Qed.

Lemma users_ran cs (w w' : both_world) out :
  run_all (both_user (K := K)) cs w = Ok (w', out) ->
  exists ans ms, run_all (answer stream_user) (lefts cs) w.1 = Ok (w'.1, ans) /\
    Stream.show (rights cs) = Ok ms /\ w'.2 = w.2 ++ ms /\
    out = map (fun x => OnServer (request_input x)) ans.
Proof.
  revert w out. induction cs as [|[f|f] cs IH]; intros [w p] out H.
  - injection H as <- <-. exists [], []. by rewrite app_nil_r.
  - change (lefts (inl f :: cs)) with (f :: lefts cs). change (rights (inl f :: cs)) with (rights cs).
    cbn [run_all] in *. apply res_bind_Ok in H as ([w1 o1] & Ha & H). cbn [both_user fst snd] in Ha.
    apply res_bind_Ok in Ha as ([v ans1] & Ha & [= <- <-]).
    apply res_bind_Ok in H as ([w2 o2] & H & [= <- <-]). cbn [fst snd] in *.
    destruct (IH _ _ H) as (ans2 & ms & Hl & Hr & Hp & ->). cbn [fst snd] in *. exists (ans1 ++ ans2), ms.
    rewrite Ha. cbn [mbind res_bind fst snd]. rewrite Hl. split_and!; [done..|by rewrite map_app].
  - change (lefts (inr f :: cs)) with (lefts cs). change (rights (inr f :: cs)) with (f :: rights cs).
    cbn [run_all Stream.show] in *. apply res_bind_Ok in H as ([w1 o1] & Ha & H).
    cbn [both_user fst snd] in Ha.
    apply res_bind_Ok in Ha as (m & Ha & [= <- <-]).
    apply res_bind_Ok in H as ([w2 o2] & H & [= <- <-]). cbn [fst snd] in *.
    destruct (IH _ _ H) as (ans & ms & Hl & Hr & Hp & ->). cbn [fst snd] in *. exists ans, (m :: ms).
    rewrite Ha. cbn [mbind res_bind]. rewrite Hr. split_and!; [done..| |done].
    by rewrite Hp, <- app_assoc.
Qed.
End users.

Lemma requests_on_server {K} (ans : list (nat * request)) :
  on_server (map (fun x => OnServer (K := K) (request_input x)) ans) = map request_input ans.
Proof. induction ans as [|a ans IH]; [done|]. exact (f_equal (cons (request_input a)) IH). Qed.

(** ** Both ends *)

Section both.
Context {K : Type} `{SK : StreamKernel K, SL : !StreamLaws K, SN : !StreamNet K, SNL : !StreamNetLaws K}
  `{CK : ConnectKernel K, CL : !ConnectLaws K} {L F U Uc : Type}
  `{SH : StreamHandler U, SPL : !SplitLaws U} `{SHc : StreamHandler Uc, SPLc : !SplitLaws Uc}.

(** [brought]: what the network brought the client (ghost). *)
Record both := mk_both {
  server_ : hub K L F U;
  client_ : client K L Uc;
  brought : list byte
}.

Variables (loop : L) (listen_fd : Z) (life : nat) (listen_fun cb : F) (u0 : U).
(** The client's descriptors, socket and user, and the address it connects to; the
    identity of its session. *)
Variables (client_fd timer_fd : Z) (kc : K) (uc : Uc) (server_addr : inet_addr) (timeout_ms : Z).
Variable (sid : nat).

Definition client_receive (d : list byte) (c : client K L Uc) : client K L Uc :=
  set_st (receive d (st c)) c.

Definition client_accepted (b : both) : list byte :=
  accepted (kern (st (client_ b))) (fd_of (st (client_ b))).

Definition session_accepted (c : connection K L F U) : list byte := accepted (kern (c_stream c)) (c_fd c).

Definition both_step (x : both_input K) (b : both) : res (both * list both_output) :=
  match x with
  | OnServer x =>
      r ← hub_step loop cb u0 x (server_ b); Ok (mk_both r.1 (client_ b) (brought b), map inl r.2)
  | OnClient o =>
      c ← run_client_op life no_error_cb no_disconnect_cb o (client_ b);
      Ok (mk_both (server_ b) c (brought b),
          map inr (drop (length (fragments (trace_ (st (client_ b))))) (fragments (trace_ (st c)))))
  | ToServer n =>
      match conns (server_ b) !! sid with
      | Some c =>
          let d := next_of n (client_accepted b) (peer_sent c) in
          Ok (mk_both (receive_on sid d (server_ b)) (client_ b) (brought b), [])
      | None => Ok (b, [])
      end
  | ToClient n =>
      match conns (server_ b) !! sid with
      | Some c =>
          let d := next_of n (session_accepted c) (brought b) in
          Ok (mk_both (server_ b) (client_receive d (client_ b)) (brought b ++ d), [])
      | None => Ok (b, [])
      end
  end.

(** [client->connect(server_addr, 1000)] of a client just made. *)
Definition client0 : client K L Uc :=
  connect life no_error_cb server_addr timeout_ms (client_ctor loop client_fd timer_fd kc uc).

Definition both0 : both := mk_both (hub0 loop listen_fd life listen_fun) client0 [].

(** ** What they are meant for *)

Context (P : K -> Prop) `{!CleanKernel P}.

(** The server's inputs are those of [Sessions], except that only the network
    brings bytes to the session of the client; when it is accepted, some may
    already be there. *)
Definition both_ok (x : both_input K) (b : both) : Prop :=
  match x with
  | OnServer x =>
      input_ok cb x (server_ b) /\ (forall d, x <> Arrives sid d) /\
      (forall h' os c, hub_step loop cb u0 x (server_ b) = Ok (h', os) ->
         conns (server_ b) !! sid = None -> conns h' !! sid = Some c ->
         peer_sent c `prefix_of` client_accepted b /\ accepted (c_sock c) (c_fd c) = [])
  | OnClient o => op_ok o
  | ToServer _ | ToClient _ => True
  end.

Fixpoint both_admissible (xs : list (both_input K)) (b : both) : Prop :=
  match xs with
  | [] => True
  | x :: xs' => both_ok x b /\ forall b' os, both_step x b = Ok (b', os) -> both_admissible xs' b'
  end.

Hypothesis arrive_clean : forall d k fd, P k -> P (stream_arrive d k fd).
Hypothesis connect_clean : forall k fd a n k' r, P k -> sys_connect k fd a n = (k', r) -> P k'.
Hypothesis listen_nonneg : 0 <= listen_fd.
Hypothesis client_nonneg : 0 <= client_fd.
Hypothesis timer_nonneg : 0 <= timer_fd.
Hypothesis client_clean : P kc.
(** Nothing has been exchanged on the client's socket. *)
Hypothesis client_fresh : accepted kc client_fd = [] /\ unread kc client_fd = [].

(** Each end by itself, and each has from the other a first part of what the
    other's kernel accepted. *)
Record both_inv (xs : list (both_input K)) (b : both) (os : list both_output) : Prop := {
  bi_run : run_all both_step xs both0 = Ok (b, os);
  bi_hub : exists hxs,
    hub_inv loop listen_fd life listen_fun cb u0 P hxs (server_ b) (lefts os) /\
    (forall id, sent_data id hxs = sent_data id (on_server xs)) /\
    sockets hxs = sockets (on_server xs) /\
    (forall id, id <> sid -> arrived id hxs = arrived id (on_server xs));
  bi_client : client_wf false (client_ b);
  bi_fd : fd_of (st (client_ b)) = client_fd;
  bi_frames : fragments (trace_ (st (client_ b))) = rights os;
  bi_streams : calm (client_ b) ->
    P (kern (st (client_ b))) /\ sent_stream (st (client_ b)) = concat (client_sends xs) /\
    cut_from (U := Uc) (brought b) (rights os) /\
    concat (rights os) ++ received_stream (st (client_ b)) = brought b;
  bi_up c : conns (server_ b) !! sid = Some c ->
    peer_sent c `prefix_of` client_accepted b /\ accepted (c_sock c) (c_fd c) = [];
  bi_down : brought b = [] \/
    exists c, conns (server_ b) !! sid = Some c /\ brought b `prefix_of` session_accepted c
}.

Lemma connect_frames addr ms (c : client K L Uc) :
  fragments (trace_ (st (connect life no_error_cb addr ms c))) = fragments (trace_ (st c)).
Proof.
  unfold connect. destruct (connected_ c); [|done..]. destruct (sys_connect _ _ _ _) as [k r].
  assert (Hp : forall (c1 c2 : client K L Uc) ps, trace_ (st c2) = trace_ (st c1) ++ map ObsPost ps ->
    fragments (trace_ (st c2)) = fragments (trace_ (st c1)))
    by (intros c1 c2 ps ->; by rewrite fragments_app, fragments_posts, app_nil_r).
  set (c2 := set_kern k _). destruct r as [e|]; [destruct (e =? EINPROGRESS)|].
  - destruct (await_quiet life ms c2) as (ps & _ & _ & _ & _ & Ht). by apply Hp in Ht.
  - unfold on_error_, stop, disable_timer, disable_stream, posts, emit. simpl.
    by rewrite !fragments_app, !fragments_posts, !app_nil_r.
  - destruct (start_quiet life (set_connected Connected c2)) as (ps & _ & _ & _ & _ & Ht).
    by apply Hp in Ht.
Qed.

Lemma both0_inv : both_inv [] both0 [].
Proof.
  pose proof (client_ctor_inv loop client_fd timer_fd kc uc client_nonneg timer_nonneg) as Hi.
  assert (Hfd : fd_of (st (client_ctor loop client_fd timer_fd kc uc)) = client_fd).
  { unfold fd_of, get_fd, client_ctor, channel_ctor, valid. simpl.
    by destruct (Z.eqb_spec client_fd (-1)); [lia|]. }
  destruct (connect_kept life no_error_cb no_disconnect_cb (fun _ _ _ H => H) (fun _ _ H => H) (fun _
    _ H => H)
    (fun _ c => grows_refl (st c)) (fun c => grows_refl (st c)) P server_addr timeout_ms
    (client_ctor loop client_fd timer_fd kc uc) connect_clean) as [Hg Hk]. fold client0 in Hg, Hk.
  assert (Hcl : client_wf false client0) by (by apply connect_inv).
  assert (Hf0 : fd_of (st client0) = client_fd).
  { rewrite <- Hfd. apply ka_fd, connect_accepted. }
  split; try done.
  - exists []. split; [by apply hub0_inv|done].
  - apply connect_frames.
  - intros Hcalm. destruct (Hk Hcalm client_clean) as (HP & Hf & Hs & fs & Hfr & _ & Hc).
    destruct client_fresh as [Ha Hu]. split; [done|]. unfold sent_stream, received_stream in Hs, Hc.
    rewrite Hf, Hfd in Hs, Hc. simpl in Hs, Hc. rewrite Hu in Hc. rewrite Ha in Hs.
    apply app_eq_nil in Hc as [_ Hc]. unfold sent_stream, received_stream. cbn [client_ both0].
    rewrite Hf0, Hs. by split_and!; [|constructor|].
  - by left.
Qed.

(** *** A step of the server *)

Lemma session_peer hxs hx h h' os os' c c' :
  hub_inv loop listen_fd life listen_fun cb u0 P hxs h os ->
  hub_inv loop listen_fd life listen_fun cb u0 P (hxs ++ [hx]) h' os' ->
  hub_step loop cb u0 hx h = Ok (h', drop (length os) os') ->
  conns h !! sid = Some c -> conns h' !! sid = Some c' ->
  peer_sent c' = peer_sent c ++ arrived sid [hx] /\ c_sock c' = c_sock c /\ c_fd c' = c_fd c /\
  session_accepted c `prefix_of` session_accepted c'.
Proof.
  intros Hi Hi' Hst Hc Hc'. destruct (hub_step_peer loop cb u0 _ _ _ _ _ _ Hst Hc) as (c1 & Hc1 & Hs).
  assert (c1 = c') as -> by congruence. destruct Hs as [Hf Hk Ha _ _].
  rewrite (co_get _ _ (hi_conn _ _ _ _ _ _ _ _ _ _ Hi sid c Hc)) in Ha.
  unfold peer_sent, session_accepted. rewrite Hf, Hk. split_and!; [|done..].
  rewrite (hi_arrived _ _ _ _ _ _ _ _ _ _ Hi sid c Hc), (hi_arrived _ _ _ _ _ _ _ _ _ _ Hi' sid c' Hc').
  by rewrite arrived_app, app_assoc.
Qed.

Lemma server_moves xs x hx b os h' os' :
  both_inv xs b os -> input_ok cb hx (server_ b) ->
  hub_step loop cb u0 hx (server_ b) = Ok (h', os') ->
  both_step x b = Ok (mk_both h' (client_ b) (brought b), map inl os') ->
  (forall id, sent_data id [hx] = sent_data id (on_server [x])) ->
  sockets [hx] = sockets (on_server [x]) ->
  (forall id, id <> sid -> arrived id [hx] = arrived id (on_server [x])) -> client_sends [x] = [] ->
  (forall c, conns (server_ b) !! sid = Some c ->
     peer_sent c ++ arrived sid [hx] `prefix_of` client_accepted b) ->
  (forall c', conns (server_ b) !! sid = None -> conns h' !! sid = Some c' ->
     peer_sent c' `prefix_of` client_accepted b /\ accepted (c_sock c') (c_fd c') = []) ->
  both_inv (xs ++ [x]) (mk_both h' (client_ b) (brought b)) (os ++ map inl os').
Proof.
  intros [Hr (hxs & Hh & Hsd & Hsk & Har) Hc Hf Hfr Hst Hup Hdown] Hok Hstep Hb Hd Hs Ha Hcs Hmore Hnew.
  destruct (hub_step_inv loop listen_fd life listen_fun cb u0 P arrive_clean listen_nonneg
    hxs hx (server_ b) (lefts os) Hh Hok) as (h1 & os1 & Hstep' & Hh').
  rewrite Hstep in Hstep'. simplify_eq. destruct (lefts_inl os1) as [Hl Hrt].
  assert (Hpeer : forall c c', conns (server_ b) !! sid = Some c -> conns h1 !! sid = Some c' ->
    peer_sent c' = peer_sent c ++ arrived sid [hx] /\ c_sock c' = c_sock c /\ c_fd c' = c_fd c /\
    session_accepted c `prefix_of` session_accepted c').
  { intros c c'. eapply session_peer; [done..|]. by rewrite drop_app_length. }
  split; cbn [server_ client_ brought]; rewrite ?rights_app, ?Hrt, ?app_nil_r; try done.
  - by eapply run_all_snoc.
  - exists (hxs ++ [hx]). rewrite lefts_app, Hl. split; [done|]. split_and!.
    + intros id. by rewrite sent_data_app, Hsd, Hd, on_server_app, sent_data_app.
    + by rewrite sockets_app, Hsk, Hs, on_server_app, sockets_app.
    + intros id Hid. by rewrite arrived_app, Har, Ha, on_server_app, arrived_app by done.
  - by rewrite client_sends_app, Hcs, app_nil_r.
  - intros c' Hc'. destruct (conns (server_ b) !! sid) as [c|] eqn:Hcn; [|by apply Hnew].
    destruct (Hpeer c c' eq_refl Hc') as (-> & -> & -> & _). split; [by apply Hmore|by apply Hup].
  - destruct Hdown as [|(c & Hcn & Hp)]; [by left|right].
    destruct (hub_step_peer loop cb u0 _ _ _ _ _ _ Hstep Hcn) as (c' & Hc' & _).
    exists c'. split; [done|]. etrans; [exact Hp|]. by apply (Hpeer c c').
Qed.

Lemma on_server_inv xs x b os :
  both_inv xs b os -> both_ok (OnServer x) b ->
  exists b' os', both_step (OnServer x) b = Ok (b', os') /\ both_inv (xs ++ [OnServer x]) b' (os ++ os').
Proof.
  intros Hi (Hok & Hna & Hnew). pose proof (bi_hub _ _ _ Hi) as (hxs & Hh & _).
  destruct (hub_step_inv loop listen_fd life listen_fun cb u0 P arrive_clean listen_nonneg
    hxs x (server_ b) (lefts os) Hh Hok) as (h' & os' & Hst & _).
  eexists _, _. split; [cbn [both_step]; rewrite Hst; reflexivity|].
  eapply server_moves; [done|done|exact Hst| |done..| |by intros c'; apply (Hnew h' os')].
  - cbn [both_step]. by rewrite Hst.
  - intros c Hc. assert (arrived sid [x] = []) as ->.
    { destruct x as [id d| | | | | |]; try done. unfold arrived. simpl.
      rewrite decide_False; [done|]. intros ->. by apply (Hna d). }
    rewrite app_nil_r. by apply (bi_up _ _ _ Hi).
Qed.

(** There is no session to carry bytes to or from. *)
Lemma nothing_inv xs x b os :
  both_inv xs b os -> both_step x b = Ok (b, []) -> on_server [x] = [] -> client_sends [x] = [] ->
  both_inv (xs ++ [x]) b os.
Proof.
  intros [Hr (hxs & Hh & Hsd & Hsk & Har) Hc Hf Hfr Hst Hup Hdown] Hb Hs Hcs. split; try done.
  - rewrite <- (app_nil_r os). by eapply run_all_snoc.
  - exists hxs. split; [done|]. rewrite on_server_app, Hs, app_nil_r. done.
  - by rewrite client_sends_app, Hcs, app_nil_r.
Qed.

Lemma to_server_inv xs n b os :
  both_inv xs b os ->
  exists b', both_step (ToServer n) b = Ok (b', []) /\ both_inv (xs ++ [ToServer n]) b' os.
Proof.
  intros Hi. cbn [both_step]. destruct (conns (server_ b) !! sid) as [c|] eqn:Hc.
  - set (d := next_of n (client_accepted b) (peer_sent c)). eexists. split; [done|].
    rewrite <- (app_nil_r os). change (@nil both_output) with (map (@inl (nat * list byte) (list byte)) []).
    eapply (server_moves xs (ToServer n) (Arrives sid d)); try done.
    + cbn [input_ok]. by eapply lookup_lt_Some.
    + cbn [both_step]. by rewrite Hc.
    + intros id Hid. unfold arrived. simpl. by rewrite decide_False.
    + intros c' Hc'. simplify_eq. unfold arrived. simpl. rewrite decide_True by done. simpl.
      rewrite app_nil_r. apply next_of_prefix. by apply (bi_up _ _ _ Hi).
    + intros c'. congruence.
  - exists b. split; [done|]. apply nothing_inv; try done. cbn [both_step]. by rewrite Hc.
Qed.

(** *** A step of the client *)

Lemma grows_fragments (c c' : client K L Uc) :
  grows (st c) (st c') -> exists fs, fragments (trace_ (st c')) = fragments (trace_ (st c)) ++ fs /\
    drop (length (fragments (trace_ (st c)))) (fragments (trace_ (st c'))) = fs.
Proof. intros [l ->]. exists (fragments l). by rewrite fragments_app, drop_app_length. Qed.

Lemma sends_one o : concat (client_sends [OnClient (K := K) o]) = client_data o.
Proof. destruct o; try done. apply app_nil_r. Qed.

Lemma on_client_inv xs o b os :
  both_inv xs b os -> op_ok o ->
  exists b' os', both_step (OnClient o) b = Ok (b', os') /\ both_inv (xs ++ [OnClient o]) b' (os ++ os').
Proof.
  intros [Hr (hxs & Hh & Hsd & Hsk & Har) Hc Hf Hfr Hst Hup Hdown] Ho.
  destruct (run_client_op_inv life no_error_cb no_disconnect_cb (fun _ _ _ H => H) (fun _ _ H => H)
    (fun _ _ H => H) false o (client_ b) Hc Ho) as (c' & Hrun & Hc'); [done|].
  destruct (run_client_op_kept life no_error_cb no_disconnect_cb (fun _ _ _ H => H) (fun _ _ H => H)
    (fun _ _ H => H) (fun _ c => grows_refl (st c)) (fun c => grows_refl (st c)) false P o (client_ b) c'
    connect_clean Hc Ho Hrun) as [Hg Hk].
  destruct (client_op_accepted life o _ _ Hrun) as [Hfd Hacc _].
  destruct (grows_fragments _ _ Hg) as (fs & Hfs & Hdrop).
  assert (Hst' : both_step (OnClient o) b = Ok (mk_both (server_ b) c' (brought b), map inr fs))
    by (cbn [both_step]; rewrite Hrun; cbn [mbind res_bind]; by rewrite Hdrop).
  destruct (rights_inr fs) as [Hl Hrt]. eexists _, _. split; [exact Hst'|].
  split; cbn [server_ client_ brought]; rewrite ?lefts_app, ?rights_app, ?Hl, ?Hrt, ?app_nil_r; try done.
  - by eapply run_all_snoc.
  - exists hxs. rewrite on_server_app, app_nil_r. done.
  - congruence.
  - by rewrite Hfs, Hfr.
  - intros Hcalm. destruct (Hst (calm_before _ _ Hg Hcalm)) as (HP & Hsent & Hcut & Hrecv).
    destruct (Hk Hcalm HP) as (HP' & _ & Hs & gs & Hgs & Hgc & Hgr). split; [done|].
    assert (gs = fs) as -> by (rewrite Hfs in Hgs; by apply app_inv_head in Hgs).
    rewrite Hs, Hsent, client_sends_app, concat_app, sends_one. split; [done|]. split.
    + by eapply cut_from_app.
    + by rewrite concat_app, <- app_assoc, Hgr.
  - intros c Hcn. destruct (Hup c Hcn) as [Hp ?]. split; [|done]. etrans; [exact Hp|].
    unfold client_accepted. cbn [client_]. by rewrite Hfd.
Qed.

Lemma to_client_inv xs n b os :
  both_inv xs b os ->
  exists b', both_step (ToClient n) b = Ok (b', []) /\ both_inv (xs ++ [ToClient n]) b' os.
Proof.
  intros Hi. cbn [both_step]. destruct (conns (server_ b) !! sid) as [c|] eqn:Hcn; cycle 1.
  { exists b. split; [done|]. apply nothing_inv; try done. cbn [both_step]. by rewrite Hcn. }
  set (d := next_of n (session_accepted c) (brought b)). eexists. split; [done|].
  destruct Hi as [Hr (hxs & Hh & Hsd & Hsk & Har) Hc Hf Hfr Hst Hup Hdown].
  destruct (receive_streams d (st (client_ b))) as [Hs Hrc].
  split; cbn [server_ client_ brought]; try done.
  - rewrite <- (app_nil_r os). eapply run_all_snoc; [done|]. cbn [both_step]. by rewrite Hcn.
  - exists hxs. rewrite on_server_app, app_nil_r. done.
  - destruct Hc as [[[] ? ?] ? ?]. by split; [split; [by split|..]|..].
  - intros Hcalm. destruct (Hst Hcalm) as (HP & Hsent & Hcut & Hrecv). unfold client_receive. simpl.
    rewrite Hs, Hrc, client_sends_app, app_nil_r. split_and!; [by apply arrive_clean|done| |].
    + by apply cut_from_more.
    + by rewrite app_assoc, Hrecv.
  - intros c' Hc'. destruct (Hup c' Hc') as [Hp ?]. split; [|done]. etrans; [exact Hp|].
    unfold client_accepted, client_receive, receive, fd_of. simpl. by rewrite arrive_accepted.
  - right. exists c. split; [done|]. apply next_of_prefix.
    destruct Hdown as [->|(c' & Hc' & Hp)]; [apply prefix_nil|by simplify_eq].
Qed.

Lemma both_runs xs ys b os :
  both_inv xs b os -> both_admissible ys b ->
  exists b' os', run_all both_step ys b = Ok (b', os') /\ both_inv (xs ++ ys) b' (os ++ os').
Proof.
  revert xs b os. induction ys as [|y ys IH]; intros xs b os Hi Hok.
  { exists b, []. by rewrite !app_nil_r. }
  destruct Hok as [Hy Hok].
  assert (H : exists b1 os1, both_step y b = Ok (b1, os1) /\ both_inv (xs ++ [y]) b1 (os ++ os1)).
  { destruct y as [x|o|n|n]; [by apply on_server_inv|by apply on_client_inv| |].
    - destruct (to_server_inv xs n b os Hi) as (b1 & ? & ?). exists b1, []. by rewrite app_nil_r.
    - destruct (to_client_inv xs n b os Hi) as (b1 & ? & ?). exists b1, []. by rewrite app_nil_r. }
  destruct H as (b1 & os1 & Hst & Hi1). destruct (IH _ _ _ Hi1 (Hok _ _ Hst)) as (b' & os' & Hr & Hi').
  exists b', (os1 ++ os'). cbn [run_all]. rewrite Hst. cbn [mbind res_bind fst snd]. rewrite Hr.
  split; [done|]. by rewrite <- app_assoc, <- app_assoc in Hi'.
Qed.

(** ** The frames and the answers *)

Hypothesis framed : forall d (u : U), on_split d u = (u, split d).
Hypothesis framed_client : forall d (u : Uc), on_split d u = (u, split d).

(** The session of the client: its socket reports no error, its client is there and
    no event came late. *)
Definition sid_here (b : both) : Prop :=
  forall c, conns (server_ b) !! sid = Some c -> peer_here c /\ plain P c.

(** No error, no end of the connection. *)
Definition quiet (b : both) : Prop := calm (client_ b) /\ sid_here b.

(** What the other clients send. *)
Definition others_ok (xs : list (both_input K)) : Prop :=
  forall i y, i <> sid -> sockets (on_server xs) !! i = Some y ->
    packets_from (unread y.2 y.1 ++ arrived i (on_server xs)).

Lemma packets_of ms : Forall message_ok ms -> packets_from (concat (map data_to_packet ms)).
Proof. intros H. exists ms, []. by rewrite app_nil_r. Qed.

(** The client's packets arrive at the server in order. *)
Lemma session_gets xs b os msgs c :
  both_inv xs b os -> calm (client_ b) -> client_sends xs = map data_to_packet msgs ->
  conns (server_ b) !! sid = Some c -> peer_sent c `prefix_of` concat (map data_to_packet msgs).
Proof.
  intros Hi Hcalm Hsends Hc. destruct (bi_up _ _ _ Hi c Hc) as [Hp _].
  destruct (bi_streams _ _ _ Hi Hcalm) as (_ & Hsent & _). rewrite Hsends in Hsent. etrans; [exact Hp|].
  rewrite <- Hsent. by eexists.
Qed.

Lemma server_frames xs b os msgs cs :
  both_inv xs b os -> quiet b -> client_sends xs = map data_to_packet msgs ->
  Forall message_ok msgs -> cs `prefix_of` lefts os ->
  exists i, frames_of sid cs = map data_to_packet (take i msgs).
Proof.
  intros Hi [Hcalm Hhere] Hsends Hms Hcs. destruct (bi_hub _ _ _ Hi) as (hxs & Hh & _).
  destruct (conns (server_ b) !! sid) as [c|] eqn:Hc.
  - destruct (Hhere c Hc) as [_ Hplain].
    destruct (called_of_session _ _ _ _ _ _ _ _ _ _ _ _ _ Hh Hcs Hc Hplain) as [Hcut _].
    destruct (session_gets _ _ _ _ _ Hi Hcalm Hsends Hc) as [r Hr].
    apply (cut_packets framed msgs []); [done|done|]. rewrite app_nil_r, Hr. by apply cut_from_more.
  - exists 0%nat. apply prefix_nil_inv.
    pose proof (hi_frames _ _ _ _ _ _ _ _ _ _ Hh sid) as Hf. rewrite Hc in Hf. rewrite <- Hf.
    by apply frames_of_prefix.
Qed.

(** All the frames of the server, when the other clients send packets too. *)
Lemma all_served xs b os msgs cs :
  both_inv xs b os -> quiet b -> all_plain P (server_ b) -> client_sends xs = map data_to_packet msgs ->
  Forall message_ok msgs -> others_ok xs -> cs `prefix_of` lefts os ->
  served_frames (U := U) packets_from cs.
Proof.
  intros Hi [Hcalm _] Hall Hsends Hms Hoth Hcs. destruct (bi_hub _ _ _ Hi) as (hxs & Hh & _ & Hsk & Har).
  eapply frames_served; [exact Hh|done| |exact Hcs]. intros id c Hc.
  destruct (decide (id = sid)) as [->|Hne].
  - destruct (session_gets _ _ _ _ _ Hi Hcalm Hsends Hc) as [r Hr]. apply (packets_prefix _ r).
    rewrite <- Hr. by apply packets_of.
  - destruct (session_peer_sent _ _ _ _ _ _ _ _ _ _ _ _ Hh Hc) as [Hs ->].
    rewrite Hsk in Hs. rewrite Har by done. by apply (Hoth id (c_fd c, c_sock c)).
Qed.

(** The streams of its session. *)
Lemma sid_streams hxs h os b c :
  hub_inv loop listen_fd life listen_fun cb u0 P hxs h os -> sid_here b -> h = server_ b ->
  conns h !! sid = Some c ->
  fd_of (c_stream c) = c_fd c /\ P (kern (c_stream c)) /\
  sent_stream (c_stream c) = accepted (c_sock c) (c_fd c) ++ concat (given_data (c_given c)) /\
  concat (fragments (trace_ (c_stream c))) ++ received_stream (c_stream c) = peer_sent c.
Proof.
  intros Hh Hhere -> Hc. destruct (Hhere c Hc) as [Hp Hplain].
  destruct (hi_conn _ _ _ _ _ _ _ _ _ _ Hh sid c Hc) as [_ _ Hget _ Hstr].
  split; [done|]. by apply Hstr.
Qed.

(** The answers for the client arrive there in order. *)
Lemma client_frames xs b os ms cs :
  both_inv xs b os -> quiet b ->
  sent_data sid (on_server xs) = map data_to_packet ms -> Forall message_ok ms ->
    cs `prefix_of` rights os ->
  exists j, cs = map data_to_packet (take j ms).
Proof.
  intros Hi [Hcalm Hhere] Hsd Hms [l Hl]. destruct (bi_streams _ _ _ Hi Hcalm) as (_ & _ & Hcut & _).
  rewrite Hl in Hcut. apply cut_from_prefix in Hcut.
  assert (Hb : exists r, concat (map data_to_packet ms) = brought b ++ r).
  { destruct (bi_down _ _ _ Hi) as [->|(c & Hc & Hp)]; [by eexists|].
    destruct (bi_hub _ _ _ Hi) as (hxs & Hh & Hgiv & _).
    destruct (sid_streams _ _ _ _ _ Hh Hhere eq_refl Hc) as (Hget & _ & Hsent & _).
    unfold sent_stream in Hsent. rewrite Hget in Hsent. destruct (bi_up _ _ _ Hi c Hc) as [_ Hfresh].
    rewrite Hfresh in Hsent. simpl in Hsent.
    destruct (hi_given _ _ _ _ _ _ _ _ _ _ Hh sid c Hc) as [Hg%concat_prefix _].
    rewrite Hgiv, Hsd, <- Hsent in Hg.
    assert (brought b `prefix_of` concat (map data_to_packet ms)) as [r Hr]; [|by exists r].
    etrans; [exact Hp|]. etrans; [|exact Hg]. by apply prefix_app_r. }
  destruct Hb as [r Hr]. apply (cut_packets framed_client ms []); [done|done|].
  rewrite app_nil_r, Hr. by apply cut_from_more.
Qed.

(** ** Quiet runs *)

Lemma both_step_peers x b b' os :
  both_step x b = Ok (b', os) ->
  grows (st (client_ b)) (st (client_ b')) /\
  forall id c, conns (server_ b) !! id = Some c ->
    exists c', conns (server_ b') !! id = Some c' /\ same_peer c c'.
Proof.
  intros Hst. assert (Hsame : forall id c, conns (server_ b) !! id = Some c ->
    exists c', conns (server_ b) !! id = Some c' /\ same_peer c c')
    by (intros id c Hc; exists c; split; [done|apply same_peer_refl]).
  destruct x as [x|o|n|n]; cbn [both_step] in Hst.
  - inv_res. destruct a as [h' os']. split; [apply grows_refl|]. intros id c. by eapply hub_step_peer.
  - inv_res. split; [|done]. by apply client_op_accepted in Hm as [_ _ Hg].
  - destruct (conns (server_ b) !! sid) as [c|] eqn:Hc; simplify_eq; [|split; [apply grows_refl|done]].
    split; [apply grows_refl|]. cbn [server_]. intros id c'.
    set (d := next_of _ _ _). by apply (hub_step_peer loop cb u0 (Arrives sid d) _ _ []).
  - destruct (conns (server_ b) !! sid) as [c|] eqn:Hc; simplify_eq; [|split; [apply grows_refl|done]].
    split; [cbn [client_]; grown|done].
Qed.

(** What went well so far had before. *)
Definition well (b : both) : Prop := quiet b /\ all_plain P (server_ b).

Lemma same_plain (c c' : connection K L F U) : same_peer c c' -> plain P c' -> plain P c.
Proof. intros [_ Hk _ _ Hl] [HP Hlate]. rewrite Hk in HP. split; [done|by apply Hl]. Qed.

Lemma both_step_well x b b' os : both_step x b = Ok (b', os) -> well b' -> well b.
Proof.
  intros [Hg Hs]%both_step_peers [[Hcalm Hhere] Hall]. split; [split; [by eapply calm_before|]|].
  - intros c Hc. destruct (Hs _ c Hc) as (c' & Hc' & Hp). destruct (Hhere c' Hc') as [Hh Hplain].
    split; [|by eapply same_plain]. eapply grows_not_elem; [by apply sp_trace|exact Hh].
  - intros id c Hc. destruct (Hs id c Hc) as (c' & Hc' & Hp). by eapply same_plain, Hall.
Qed.

Lemma both_run_well xs b b' os : run_all both_step xs b = Ok (b', os) -> well b' -> well b.
Proof.
  revert b os. induction xs as [|x xs IH]; intros b os H; cbn [run_all] in H; [by simplify_eq|].
  apply res_bind_Ok in H as ([b1 os1] & Hst & H). apply res_bind_Ok in H as ([b2 os2] & H & [= -> _]).
  intros Hq. eapply both_step_well; [exact Hst|]. by eapply IH.
Qed.

(** ** On the loop *)

(** Messages in packets. *)
Definition packets (l : list (list byte)) : Prop := exists ms, Forall message_ok ms /\
  l = map data_to_packet ms.

Lemma packets_prefix_of l k : k `prefix_of` l -> packets l -> packets k.
Proof.
  intros Hk (ms & Hms & ->). exists (take (length k) ms). split; [by apply Forall_take|].
  by apply prefix_map_take.
Qed.

(** What the two are given on the loop: to the session of the client, as to the
    client, messages in packets, and nothing goes wrong. *)
Record both_inputs_ok (xs : list (both_input K)) : Prop := {
  bo_admissible : both_admissible xs both0;
  bo_client : packets (client_sends xs);
  bo_session : packets (sent_data sid (on_server xs));
  bo_others : others_ok xs;
  bo_well b os : run_all both_step xs both0 = Ok (b, os) -> well b
}.

Lemma both_runs0 xs :
  both_admissible xs both0 -> exists b os, run_all both_step xs both0 = Ok (b, os) /\ both_inv xs b os.
Proof. intros H. by apply (both_runs [] xs both0 [] both0_inv). Qed.

Lemma both_admissible_app xs ys b : both_admissible (xs ++ ys) b -> both_admissible xs b.
Proof.
  revert b. induction xs as [|x xs IH]; intros b; [done|]. intros [Hx H]. split; [done|].
  intros b' os Hst. by eapply IH, H.
Qed.

Lemma others_ok_app xs ys : others_ok (xs ++ ys) -> others_ok xs.
Proof.
  intros H i y Hi Hy. apply (packets_prefix _ (arrived i (on_server ys))).
  rewrite <- app_assoc, <- arrived_app, <- on_server_app. apply H; [done|].
  rewrite on_server_app, sockets_app. by apply lookup_app_l_Some.
Qed.

Lemma both_inputs_ok_app xs ys : both_inputs_ok (xs ++ ys) -> both_inputs_ok xs.
Proof.
  intros [Ha Hc Hs Ho Hq]. pose proof (both_admissible_app _ _ _ Ha) as Ha1. split; [done| | | |].
  - eapply packets_prefix_of; [|exact Hc]. rewrite client_sends_app. by eexists.
  - eapply packets_prefix_of; [|exact Hs]. rewrite on_server_app, sent_data_app. by eexists.
  - by eapply others_ok_app.
  - intros b os Hr. destruct (both_runs0 _ Ha) as (b' & os' & Hr' & _).
    pose proof (Hq _ _ Hr') as Hq'. rewrite run_all_app, Hr in Hr'. cbn [mbind res_bind fst snd] in Hr'.
    apply res_bind_Ok in Hr' as ([b2 os2] & Hr2 & [= -> _]). by eapply both_run_well.
Qed.

#[local] Instance both_service : Service both (both_input K) both_output both_world := {|
  svc_init := both0;
  svc_world := (∅, []);
  svc_step := both_step;
  svc_event := is_both_event;
  svc_heavy := both_user;
  svc_owner _ := life
|}.

Lemma lefts_prefix cs os : cs `prefix_of` os -> lefts cs `prefix_of` lefts os.
Proof. intros [l ->]. rewrite lefts_app. by eexists. Qed.

Lemma rights_prefix cs os : cs `prefix_of` os -> rights cs `prefix_of` rights os.
Proof. intros [l ->]. rewrite rights_app. by eexists. Qed.

Lemma both_heavy_ok xs b os cs :
  both_inputs_ok xs -> run_all both_step xs both0 = Ok (b, os) -> delivered os cs ->
  exists r, run_all (both_user (K := K)) cs (∅, []) = Ok r.
Proof.
  intros [Ha (msgs & Hm & Hms) (ms & Hmo & Hs) Ho Hq] Hr Hdel.
  destruct (both_runs0 xs Ha) as (b' & os' & H & Hi). rewrite H in Hr. simplify_eq.
  apply (delivered_one life) in Hdel; [|done]. destruct (Hq _ _ H) as [Hquiet Hall].
  destruct (stream_user_safe framed (lefts cs)) as [[w ans] Hrun];
    [eapply all_served; try done; by apply lefts_prefix|].
  destruct (client_frames xs b os ms (rights cs) Hi Hquiet Hs Hmo) as [j Hj];
    [by apply rights_prefix|].
  eexists. apply (users_run cs (∅, []) w ans (take j ms)); [exact Hrun|]. rewrite Hj. apply show_packets.
Qed.

Lemma both_steps_ok xs : both_inputs_ok xs -> exists r, run_all both_step xs both0 = Ok r.
Proof. intros [Ha _ _ _ _]. destruct (both_runs0 xs Ha) as (b & os & H & _). by eexists. Qed.

#[local] Instance both_laws : ServiceLaws (St := both) (W := both_world) := {|
  inputs_ok := both_inputs_ok;
  inputs_ok_app := both_inputs_ok_app;
  svc_step_ok := both_steps_ok;
  svc_heavy_ok := both_heavy_ok
|}.

Implicit Types (s : sys both (both_input K) both_output both_world).

(** What the main function posts, and nothing else but the server's answers. *)
Definition posts_only s (msgs : list (list byte)) : Prop :=
  on_server (own (io_posted (sio s))) = on_server (back s) /\
  client_sends (own (io_posted (sio s))) = map data_to_packet msgs.

(** A run on the loop, with what both users made of it. *)
Record both_served s (msgs : list (list byte)) (outs : list both_output) (got : list (list byte))
    (ans : list (nat * request)) : Prop := {
  bs_inv : both_inv (snd <$> log s) (object s) outs;
  bs_called : called s `prefix_of` outs;
  bs_sends : client_sends (snd <$> log s) = client_sends (tasks (log s));
  bs_first : client_sends (snd <$> log s) `prefix_of` map data_to_packet msgs;
  bs_frames : frames_of sid (lefts (called s)) = map data_to_packet got;
  bs_got : exists i, got = take i msgs;
  bs_contexts : (world s).1 !! sid = (register None got).1;
  bs_printed : Stream.show (rights (called s)) = Ok (world s).2;
  bs_back : back s ++ hv_out s = map (fun x => OnServer (request_input x)) ans;
  bs_answers : sends_of sid ans = map data_to_packet (register None got).2;
  bs_given : sent_data sid (on_server (snd <$> log s)) = sent_data sid (on_server (tasks (log s)));
  bs_sent : sent_data sid (on_server (snd <$> log s)) `prefix_of` sends_of sid ans
}.

Lemma tasks_only {A} (f : list (both_input K) -> list A) s :
  (forall xs ys, f (xs ++ ys) = f xs ++ f ys) -> (forall x, is_both_event x -> f [x] = []) ->
  Forall (fun e => e.1 = false -> is_both_event e.2) (log s) ->
  tasks (log s) `prefix_of` own (io_posted (sio s)) ->
  f (snd <$> log s) = f (tasks (log s)) /\ f (snd <$> log s) `prefix_of` f (own (io_posted (sio s))).
Proof.
  intros Hf Hev Hl [l Hp]. rewrite (only_tasks f is_both_event) by done. split; [done|].
  rewrite Hp, Hf. by eexists.
Qed.

Lemma both_serve s msgs :
  reachable life s -> both_admissible (snd <$> log s) both0 -> quiet (object s) ->
  posts_only s msgs -> Forall message_ok msgs -> exists outs got ans, both_served s msgs outs got ans.
Proof.
  intros Hr Ha Hquiet [Hsrv Hcl] Hms.
  destruct (reachable_log life s Hr) as (outs & Hrun & Htasks & Hev & Hdel & Hcall).
  destruct (both_runs0 _ Ha) as (b & os & H & Hi). simpl in Hrun. rewrite H in Hrun. simplify_eq.
  apply (delivered_one life) in Hdel; [|done].
  destruct (tasks_only client_sends s) as [Hs1 Hs2]; [apply client_sends_app|by intros [|[]| |]|done|done|].
  rewrite Hcl in Hs2. pose proof (prefix_map_take _ _ _ Hs2) as Hs3.
  destruct (server_frames _ _ _ _ (lefts (called s)) Hi Hquiet Hs3) as [i Hsid];
    [by apply Forall_take|by apply lefts_prefix|].
  simpl in Hcall. destruct (users_ran _ _ _ _ Hcall) as (ans & ms & Hans & Hshow & Hprint & Hback).
  cbn [fst snd] in *. destruct (stream_users_ran _ _ _ _ _ Hans Hsid) as [Hreg Hsends].
  destruct (tasks_only (fun xs => sent_data sid (on_server xs)) s) as [Hd1 Hd2];
    [intros xs ys; by rewrite on_server_app, sent_data_app|by intros [[]| | |]|done|done|].
  eexists outs, _, ans. split; try done.
  - rewrite take_take. by eexists.
  - by rewrite Hprint, Hshow.
  - etrans; [exact Hd2|]. rewrite Hsrv.
    rewrite <- (requests_sent (K := K)), <- requests_on_server, <- Hback.
    rewrite on_server_app, sent_data_app. by eexists.
Qed.

(** The client prints a first part of what the register answers to a first part of
    the messages. *)
Lemma both_prints s msgs outs got ans :
  both_served s msgs outs got ans -> quiet (object s) -> Forall message_ok msgs ->
  exists j, rights (called s) = map data_to_packet (take j (register None got).2) /\
    (world s).2 = take j (register None got).2.
Proof.
  intros H Hquiet Hms. pose proof (bs_inv _ _ _ _ _ H) as Hi.
  assert (Hok : Forall message_ok (register None got).2).
  { destruct (bs_got _ _ _ _ _ H) as [i ->]. apply register_sends; [done|by apply Forall_take|done]. }
  pose proof (bs_sent _ _ _ _ _ H) as Hs. rewrite (bs_answers _ _ _ _ _ H) in Hs.
  apply prefix_map_take in Hs.
  destruct (client_frames _ _ _ _ (rights (called s)) Hi Hquiet Hs) as [j Hj];
    [by apply Forall_take|by eapply rights_prefix, bs_called|].
  pose proof (bs_printed _ _ _ _ _ H) as Hp. rewrite Hj, show_packets in Hp. injection Hp as <-.
  rewrite take_take in *. by eexists.
Qed.

(** Nothing is under way: every task and every frame was run, the network carried
    everything, both ends read and sent everything; and the session is there. *)
Record at_rest s : Prop := {
  ar_tasks : tasks (log s) = own (io_posted (sio s));
  ar_called : called s = own (hv_posted (shv s)) /\ io_out s = [] /\ hv_out s = [];
  ar_client : SB.contents (send_buf_ (st (client_ (object s)))) = [] /\
    received_stream (st (client_ (object s))) = [];
  ar_session : exists c, conns (server_ (object s)) !! sid = Some c /\
    is_Some (objects (srv (server_ (object s))) !! sid) /\
    SB.contents (send_buf_ (c_stream c)) = [] /\ received_stream (c_stream c) = [] /\
    peer_sent c = client_accepted (object s) /\ brought (object s) = session_accepted c
}.

Lemma packets_all i ms :
  concat (map data_to_packet (take i ms)) = concat (map data_to_packet ms) -> take i ms = ms.
Proof.
  revert i. induction ms as [|m ms IH]; intros [|i]; [done|done| |]; cbn [take map concat].
  - intros H%(f_equal zlen). rewrite zlen_app, zlen_packet in H.
    pose proof (zlen_nonneg m). pose proof (zlen_nonneg (concat (map data_to_packet ms))).
    change (zlen (@nil byte)) with 0 in H. lia.
  - intros H%app_inv_head. by rewrite IH.
Qed.

Lemma rest_outs s msgs outs got ans :
  reachable life s -> both_served s msgs outs got ans -> at_rest s -> outs = called s.
Proof.
  intros Hr H [_ (-> & Ho & _) _ _]. apply sys_reach_inv in Hr. pose proof (si_replay _ _ Hr) as Hrun.
  pose proof (bi_run _ _ _ (bs_inv _ _ _ _ _ H)) as Hrun'. simpl in Hrun. rewrite Hrun' in Hrun.
  injection Hrun as ->. by rewrite Ho, app_nil_r.
Qed.

(** At rest the server has got all the messages ... *)
Lemma rest_got s msgs outs got ans :
  reachable life s -> both_served s msgs outs got ans -> quiet (object s) -> posts_only s msgs ->
  at_rest s -> got = msgs.
Proof.
  intros Hr H [Hcalm Hhere] [_ Hcl] Hrest. rewrite (rest_outs _ _ _ _ _ Hr H Hrest) in H.
  pose proof (bs_inv _ _ _ _ _ H) as Hi. destruct Hrest as [Ht _ [Hsb _] (c & Hc & _ & _ & Hrc & Hup & _)].
  destruct (bi_streams _ _ _ Hi Hcalm) as (_ & Hsent & _).
  rewrite (bs_sends _ _ _ _ _ H), Ht, Hcl in Hsent. unfold sent_stream in Hsent.
  rewrite Hsb, app_nil_r in Hsent. fold (client_accepted (object s)) in Hsent.
  destruct (bi_hub _ _ _ Hi) as (hxs & Hh & _).
  destruct (sid_streams _ _ _ _ _ Hh Hhere eq_refl Hc) as (_ & _ & _ & Hrecv).
  rewrite Hrc, app_nil_r, Hup, Hsent in Hrecv.
  pose proof (hi_frames _ _ _ _ _ _ _ _ _ _ Hh sid) as Hf. rewrite Hc, (bs_frames _ _ _ _ _ H) in Hf.
  rewrite <- Hf in Hrecv. destruct (bs_got _ _ _ _ _ H) as [i Hg]. rewrite Hg in *. by apply packets_all.
Qed.

(** ... and the client has printed all the answers. *)
Lemma rest_printed s msgs outs got ans :
  reachable life s -> both_served s msgs outs got ans -> quiet (object s) -> posts_only s msgs ->
  Forall message_ok msgs -> at_rest s -> (world s).2 = (register None msgs).2.
Proof.
  intros Hr H Hq Hposts Hms Hrest. pose proof (rest_got _ _ _ _ _ Hr H Hq Hposts Hrest) as Hg.
  destruct (both_prints _ _ _ _ _ H Hq Hms) as (j & Hrights & ->). rewrite Hg in Hrights |- *.
  rewrite (rest_outs _ _ _ _ _ Hr H Hrest) in H. pose proof (bs_inv _ _ _ _ _ H) as Hi.
  destruct Hq as [Hcalm Hhere], Hposts as [Hsrv _].
  destruct Hrest as [Ht (_ & _ & Ho) [_ Hrv] (c & Hc & Hal & Hsb & _ & _ & Hdown)].
  destruct (bi_streams _ _ _ Hi Hcalm) as (_ & _ & _ & Hrecv). rewrite Hrv, app_nil_r, Hrights in Hrecv.
  apply packets_all. rewrite Hrecv, Hdown.
  destruct (bi_hub _ _ _ Hi) as (hxs & Hh & Hgiv & _).
  destruct (sid_streams _ _ _ _ _ Hh Hhere eq_refl Hc) as (Hget & _ & Hsent & _).
  unfold sent_stream in Hsent.
  destruct (bi_up _ _ _ Hi c Hc) as [_ Hfresh]. rewrite Hget, Hsb, app_nil_r, Hfresh in Hsent.
  unfold session_accepted. rewrite Hsent. simpl. f_equal.
  destruct (hi_given _ _ _ _ _ _ _ _ _ _ Hh sid c Hc) as [_ Hall]. rewrite (Hall Hal), Hgiv.
  rewrite (bs_given _ _ _ _ _ H), Ht, Hsrv. pose proof (bs_back _ _ _ _ _ H) as Hb.
  rewrite Ho, app_nil_r in Hb. rewrite Hb, requests_on_server, requests_sent, (bs_answers _ _ _ _ _ H).
  by rewrite Hg.
Qed.

Lemma served_inputs s msgs outs got ans :
  both_served s msgs outs got ans -> both_admissible (snd <$> log s) both0 -> well (object s) ->
  others_ok (snd <$> log s) -> Forall message_ok msgs -> both_inputs_ok (snd <$> log s).
Proof.
  intros H Ha Hq Ho Hms. split; [done| | |done|].
  - eapply packets_prefix_of; [by eapply bs_first|]. by exists msgs.
  - eapply packets_prefix_of; [by eapply bs_sent|]. rewrite (bs_answers _ _ _ _ _ H).
    exists (register None got).2. split; [|done]. destruct (bs_got _ _ _ _ _ H) as [i ->].
    apply register_sends; [done|by apply Forall_take|done].
  - intros b os Hr. pose proof (bi_run _ _ _ (bs_inv _ _ _ _ _ H)) as Hr'. rewrite Hr in Hr'.
    by injection Hr' as -> _.
Qed.

(** No callable of the loop leaves defined behaviour. *)
Lemma both_safe s t m :
  reachable life s -> both_inputs_ok (snd <$> log s) -> hv_at (shv s) = HV_run m ->
  heavy_exe_queue_ (shv s) !! m = Some t -> exists s', run_heavy t m s = Ok s'.
Proof.
  intros Hr Hin Hat Hx. eapply reachable_heavy; [done..|]. intros outs cs. by apply both_heavy_ok.
Qed.

Lemma both_io_safe s t m evs :
  reachable life s -> io_out s = [] ->
  (life ∉ dead s -> both_admissible ((snd <$> log s) ++ own [t]) both0) ->
  exists s', run_io life t m evs s = Ok s'.
Proof.
  intros Hr Ho Ha. apply (reachable_io life s t m evs Hr Ho). intros Hk.
  destruct (both_runs0 _ (Ha Hk)) as (b & os & H & _). by eexists.
Qed.

Lemma both_event_safe s xs evs :
  reachable life s -> both_admissible ((snd <$> log s) ++ xs) both0 -> exists s',
    run_event xs evs s = Ok s'.
Proof.
  intros Hr Ha. apply (reachable_event life s xs evs Hr).
  destruct (both_runs0 _ Ha) as (b & os & H & _). by eexists.
Qed.

Lemma register_gets n v : register (Some v) (replicate n GET) = (Some v, replicate n v).
Proof.
  induction n as [|n IH]; [done|]. cbn [replicate register]. unfold register_step.
  rewrite decide_True by done. cbn [fst snd]. by rewrite IH.
Qed.

(** The register of a first part of what [main] sends. *)
Lemma register_main i n :
  register None (take i (main_messages n)) =
    if decide (i = 0%nat) then (None, [])
    else (Some demo_AAA, NEW :: replicate (Nat.pred i `min` n) demo_AAA).
Proof.
  destruct i as [|i]; [done|]. unfold main_messages. cbn [take].
  rewrite take_replicate. cbn [register register_step fst snd]. by rewrite register_gets.
Qed.

Lemma main_messages_ok n : Forall message_ok (main_messages n).
Proof. constructor; [done|]. by apply Forall_replicate. Qed.


(** ** Admissible inputs, computed *)

Section check.
Definition op_okb (o : client_op) : bool :=
  match o with OpSend d => zlen d <? 2 ^ 63 | _ => true end.

Definition both_okb (x : both_input K) (b : both) : bool :=
  match x with
  | OnServer x =>
      input_okb cb x (server_ b) &&
      match x with Arrives id _ => negb (bool_decide (id = sid)) | _ => true end &&
      match hub_step loop cb u0 x (server_ b) with
      | Ok (h', _) =>
          match conns (server_ b) !! sid, conns h' !! sid with
          | None, Some c => bool_decide (peer_sent c `prefix_of` client_accepted b) &&
              bool_decide (accepted (c_sock c) (c_fd c) = [])
          | _, _ => true
          end
      | _ => true
      end
  | OnClient o => op_okb o
  | ToServer _ | ToClient _ => true
  end.

Fixpoint both_admissibleb (xs : list (both_input K)) (b : both) : bool :=
  match xs with
  | [] => true
  | x :: xs' => both_okb x b && match both_step x b with Ok r => both_admissibleb xs' r.1 | _ => true end
  end.

Lemma both_okb_ok x b : both_okb x b = true -> both_ok x b.
Proof.
  destruct x as [x|o|n|n]; cbn [both_okb both_ok]; try done.
  - intros [[Hok Hna]%andb_true_iff Hnew]%andb_true_iff. split_and!.
    + by apply input_okb_ok.
    + intros d ->. by rewrite bool_decide_eq_true_2 in Hna.
    + intros h' os c Hst Hn Hc. rewrite Hst, Hn, Hc in Hnew.
      apply andb_true_iff in Hnew as [Hp%bool_decide_eq_true Ha%bool_decide_eq_true]. done.
  - destruct o; try done. apply Z.ltb_lt.
Qed.

Lemma both_admissibleb_ok xs b : both_admissibleb xs b = true -> both_admissible xs b.
Proof.
  revert b. induction xs as [|x xs IH]; intros b H; cbn [both_admissibleb both_admissible] in *; [done|].
  apply andb_true_iff in H as [Hx H]. split; [by apply both_okb_ok|].
  intros b' os Hst. rewrite Hst in H. by apply IH.
Qed.
End check.

Definition calmb (tr : list (obs L client_fun)) : bool :=
  forallb (fun o => match o with ObsDisconnect | ObsError _ => false | _ => true end) tr.

Lemma calmb_ok (c : client K L Uc) : calmb (trace_ (st c)) = true -> calm c.
Proof.
  unfold calmb. rewrite forallb_forall. intros H.
  split; [intros Hin|intros e Hin]; apply list_elem_of_In, H in Hin; done.
Qed.
End both.
Arguments both : clear implicits.

(** ** The example *)

(** The callbacks [main] registers on its client; the session and the client have
    the same split function. *)
Definition example_client_callbacks : callbacks nat :=
  mk_callbacks (Some (fun d x => (x, split d))) true false false.

#[local] Instance server_handler : StreamHandler (endpoint unit) := tcp_handler example_callbacks.
#[local] Instance client_handler : StreamHandler (endpoint nat) :=
  tcp_client_handler example_client_callbacks.

#[local] Instance server_split_laws : SplitLaws (endpoint unit).
Proof. apply (family_split_laws tcp_reported). intros f d x [= <-]. apply split_bound. Qed.
#[local] Instance client_split_laws : SplitLaws (endpoint nat).
Proof. apply (family_split_laws tcp_reported). intros f d x [= <-]. apply split_bound. Qed.

Lemma client_framed d (u : endpoint nat) : on_split d u = (u, split d).
Proof. by destruct u. Qed.

Lemma demo_connect_quiet k fd a n k' r :
  demo_quiet k -> sys_connect k fd a n = (k', r) -> demo_quiet k'.
Proof. by intros H [= <- <-]. Qed.

Definition demo_server_sock : demo_sock := mk_sock [] [] 99 false 0.
Definition demo_client_sock : demo_sock := mk_sock [] [] 99 false 0.
Definition demo_server_addr : inet_addr := demo_addr (make_ipv4 loopback4 7777).

Abbreviation demo_both := (both demo_sock nat nat (endpoint unit) (endpoint nat)).
Abbreviation demo_both_sys := (sys demo_both (both_input demo_sock) both_output both_world).
Abbreviation demo_both_service :=
  (both_service (K := demo_sock) (L := nat) (F := nat) 5%nat 6 0%nat 2%nat 1%nat (mk_endpoint tt [] 0)
     8 9 demo_client_sock (mk_endpoint 0%nat [] 0) demo_server_addr 1000 0).
Abbreviation demo_both0 :=
  (both0 (K := demo_sock) (L := nat) (F := nat) (U := endpoint unit) 5%nat 6 0%nat 2%nat 8 9
     demo_client_sock (mk_endpoint 0%nat [] 0) demo_server_addr 1000).

Definition demo_both_moves : list (move (both_input demo_sock)) :=
  (* main posts its messages; the loop accepts, and the client is connected *)
  [MPost (Own (OnClient (OpSend (data_to_packet demo_AAA)))); MStart; HStart;
   MPost (Own (OnClient (OpSend (data_to_packet GET))));
   MEnter; MReportFd 6 1; MEvent [OnServer (AcceptEvent EventType.kRead [Ret (7, demo_server_sock);
     Err EAGAIN] 0)]; MEnd;
   MEnter; MReportFd 8 4; MEvent [OnClient (OpSocketCb EventType.kWrite)]; MEnd;
   MWake; MEnter; MReportWake; MDrain; MSwap; MCall; MCall; MClear; MEnd;
   (* the packets arrive in two parts *)
   MEnter; MReportFd 7 1; MEvent [ToServer 9; OnServer (StreamEvent 0 EventType.kRead)]; MFlushHeavy; MEnd;
   MEnter; MReportFd 7 1; MEvent [ToServer 9; OnServer (StreamEvent 0 EventType.kRead)]; MFlushHeavy; MEnd;
   HEnter; HLock; HPred; HSwap; HCall; MFlushIo; HCall; MFlushIo; HClear;
   MWake; MEnter; MReportWake; MDrain; MSwap; MCall; MCall; MClear; MEnd;
   MEnter; MReportFd 8 1; MEvent [ToClient 9; OnClient (OpStreamCb EventType.kRead)]; MFlushHeavy; MEnd;
   MEnter; MReportFd 8 1; MEvent [ToClient 9; OnClient (OpStreamCb EventType.kRead)]; MFlushHeavy; MEnd;
   HEnter; HLock; HPred; HSwap; HCall; HCall].

Definition demo_both_run : demo_both_sys :=
  default (sys_init (SV := demo_both_service)) (run_moves (SV := demo_both_service) 0 demo_both_moves
    (sys_init (SV := demo_both_service))).

Lemma demo_both_prints : (world demo_both_run).2 = [NEW; demo_AAA].
Proof. vm_compute. reflexivity. Qed.

Lemma demo_both_reachable : reachable (SV := demo_both_service) 0 demo_both_run.
Proof.
  apply (run_moves_reach (SV := demo_both_service)); [by repeat constructor|]. vm_compute. reflexivity.
Qed.

Lemma demo_both_admissible :
  both_admissible 5%nat 0%nat 1%nat (mk_endpoint tt [] 0) 0 (snd <$> log demo_both_run) demo_both0.
Proof. apply both_admissibleb_ok. vm_compute. reflexivity. Qed.

Lemma demo_both_here : forall c, conns (server_ (object demo_both_run)) !! 0%nat = Some c -> peer_here c.
Proof.
  assert (H : (fun c => is_gone (c_stream c)) <$> conns (server_ (object demo_both_run)) !! 0%nat =
    Some false)
    by (vm_compute; reflexivity).
  intros c Hc. rewrite Hc in H. injection H as H. by apply is_gone_here.
Qed.

Lemma demo_both_plain : all_plain demo_quiet (server_ (object demo_both_run)).
Proof. apply all_plainb. vm_compute. reflexivity. Qed.

Lemma demo_both_quiet : quiet 0 demo_quiet (object demo_both_run).
Proof.
  split; [apply calmb_ok; vm_compute; reflexivity|].
  intros c Hc. split; [by apply demo_both_here|by apply (demo_both_plain 0%nat)].
Qed.

Lemma demo_both_others : others_ok 0 (snd <$> log demo_both_run).
Proof.
  assert (H : sockets (on_server (snd <$> log demo_both_run)) = [(7, demo_server_sock)])
    by (vm_compute; reflexivity).
  intros i y Hi. rewrite H. destruct i as [|i]; [by destruct Hi|]. intros Hy. discriminate Hy.
Qed.

Lemma demo_both_posts : posts_only demo_both_run (main_messages 1).
Proof. split; vm_compute; reflexivity. Qed.

Lemma rest_session (b : demo_both) :
  (fun c => (bool_decide (is_Some (objects (srv (server_ b)) !! 0%nat)),
      SB.contents (send_buf_ (c_stream c)), received_stream (c_stream c),
      bool_decide (peer_sent c = client_accepted b), bool_decide (brought b = session_accepted c))) <$>
    conns (server_ b) !! 0%nat = Some (true, [], [], true, true) ->
  exists c, conns (server_ b) !! 0%nat = Some c /\ is_Some (objects (srv (server_ b)) !! 0%nat) /\
    SB.contents (send_buf_ (c_stream c)) = [] /\ received_stream (c_stream c) = [] /\
    peer_sent c = client_accepted b /\ brought b = session_accepted c.
Proof.
  intros (c & Hc & H)%fmap_Some. injection H as H1 H2 H3 H4 H5. symmetry in H1, H4, H5.
  apply bool_decide_eq_true in H1, H4, H5. exists c. by split_and!.
Qed.

(** The run above ends at rest. *)
Lemma demo_both_rest : at_rest 0 demo_both_run.
Proof.
  split.
  - vm_compute. reflexivity.
  - vm_compute. done.
  - vm_compute. done.
  - apply rest_session. vm_compute. reflexivity.
Qed.

