(* ===== verification/UdpServed.v ===== *)
(** * UdpServed: a datagram server and its user on the threads of a loop

    [Udp] runs the callbacks of a [UdpServer] by themselves, [Examples] the
    user's functions on what they post.  Here both run on a loop of [Executors]:
    the io thread drains the socket and scans the sessions, each datagram is a
    heavy task with its session, the user's function answers there through
    [UdpSession::post_send_task] ([include/kzevent/net/udp_socket.hpp]), and the
    answers come back to the io thread as calls of [dgram_send], in any
    interleaving with the rest of the program.  The main function of
    [examples/udp_example.cpp] sets the two callbacks when the loop and the server
    run already: the setters are inputs of the run ([SetReadCb],
    [SetNewSessionCb], taken as atomic), datagrams read before the first are
    dropped, and one read between the two breaks the read callback. *)

From S2P Require Import Prelude Events LoopFd LoopIo LoopHeavy Channel Executors InetAddr StreamIo.
From S2P Require Import Timer Dgram Factories Udp UdpSessions Examples.

(** ** The network

    Between two callbacks datagrams arrive; [departures] is what [sendto] gave to
    the network, bytes and destination. *)
Class DgramNet (K : Type) `{DgramKernel K} := {
  dgram_arrive : list datagram -> K -> Z -> K;
  departures : K -> Z -> list (list byte * list byte)
}.

Class DgramNetLaws (K : Type) `{DgramNet K} := {
  arrive_queued ds k fd : queued (dgram_arrive ds k fd) fd = queued k fd ++ ds;
  arrive_departures ds k fd : departures (dgram_arrive ds k fd) fd = departures k fd;
  recvfrom_departures k fd cap k' r : sock_recvfrom k fd cap = (k', r) ->
    departures k' fd = departures k fd;
  so_error_departures k fd k' e : dgram_so_error k fd = (k', e) -> departures k' fd = departures k fd;
  sendto_queued k fd d a n k' r : sock_sendto k fd d a n = (k', r) -> queued k' fd = queued k fd;
  sendto_ret k fd d a n k' r :
    sock_sendto k fd d a n = (k', Ret r) -> departures k' fd = departures k fd ++ [(d, ztake n a)];
  sendto_err k fd d a n k' e :
    sock_sendto k fd d a n = (k', Err e) -> departures k' fd = departures k fd
}.

(** What [dgram_send] gives to the network for an address. *)
Definition sent_to (a : inet_addr) (data : list byte) : list byte * list byte :=
  (data, ztake (get_socklen a) (get_sockaddr a)).

Definition readable_source (d : datagram) : Prop := is_Some (source_of d).

#[export] Instance readable_source_dec d : Decision (readable_source d).
Proof. unfold readable_source. apply _. Defined.

(** ** Heavy tasks of a server *)

(** The session a task holds, and the datagram it passes on. *)
Definition call_session (c : heavy_call) : nat :=
  match c with CallNewSession i _ | CallRead i _ => i | _ => 0%nat end.
Definition call_data (c : heavy_call) : list byte :=
  match c with CallNode d _ | CallClient d | CallNewSession _ d | CallRead _ d => d end.

(** The tasks of a server whose callbacks were set before it had a session: they are
    new once, in the order of their numbers, and read after that. *)
Inductive calls_ok : nat -> list heavy_call -> Prop :=
| calls_nil : calls_ok 0 []
| calls_new n cs d : calls_ok n cs -> calls_ok (S n) (cs ++ [CallNewSession n d])
| calls_read n cs id d : calls_ok n cs -> (id < n)%nat -> calls_ok n (cs ++ [CallRead id d]).

Lemma prefix_of_snoc {A} (l k : list A) x : l `prefix_of` k ++ [x] -> l = k ++ [x] \/ l `prefix_of` k.
Proof.
  intros [r Hr]. destruct r as [|y r _] using rev_ind; [left; by rewrite app_nil_r in Hr|].
  rewrite app_assoc in Hr. apply app_inj_tail in Hr as [-> _]. right. by exists r.
Qed.

Lemma calls_ok_prefix n cs cs' : calls_ok n cs -> cs' `prefix_of` cs -> exists n', calls_ok n' cs'.
Proof.
  intros H. revert cs'. induction H as [|n cs d H IH|n cs id d H IH Hid]; intros cs' Hp.
  - apply prefix_nil_inv in Hp as ->. exists 0%nat. constructor.
  - apply prefix_of_snoc in Hp as [->|Hp]; [|by apply IH]. eexists. by constructor.
  - apply prefix_of_snoc in Hp as [->|Hp]; [|by apply IH]. eexists. by constructor.
Qed.

(** The source of a session that the server still has. *)
Fixpoint session_source (id : nat) (l : list (inet_addr * udp_session)) : option inet_addr :=
  match l with
  | [] => None
  | (_, x) :: l' => if decide (sess_id x = id) then Some (sess_source x) else session_source id l'
  end.

(** A session the server has is found, with its source. *)
Lemma session_source_found (srcs : list inet_addr) l id :
  Forall (fun e : inet_addr * udp_session => srcs !! sess_id e.2 = Some (sess_source e.2) /\
    sess_source e.2 = e.1) l ->
  id ∈ sess_id <$> l.*2 -> session_source id l = srcs !! id.
Proof.
  intros Hl. induction Hl as [|[a x] l [Hx _] _ IH]; simpl; [set_solver|]. intros Hin.
  case_decide as Hd; [by subst|]. apply IH. set_solver.
Qed.
(** ** The sessions while the server runs *)

Section sessions.
Variable (clock : nat -> Z).
Hypothesis clock_mono : forall i j, (i <= j)%nat -> clock i <= clock j.
Hypothesis clock_range : forall i, 0 <= clock i < 2 ^ 62.
Variable (ms : Z).
Hypothesis timeout_range : 0 <= ms <= 2000000000000.
Implicit Types (u : udp_server) (srcs : list inet_addr) (d : datagram).

#[local] Hint Extern 0 (DgramHandler udp_server) => exact (server_handler clock) : typeclass_instances.

(** [c] passes on [d], and its session belongs to the endpoint [d] came from. *)
Definition serves srcs (c : heavy_call) d : Prop :=
  call_data c = ztake kMaxUdpPacketSize d.1 /\
  exists a b, source_of d = Some a /\ srcs !! call_session c = Some b /\ addr_eq b a = true.

(** [p]: whether the read callback and the session callback were set; [srcs]: the
    sources of all sessions made so far; [taken]: the datagrams read since. *)
Record serving (p : bool * bool) u srcs (taken : list datagram) : Prop := {
  sv_server : server_ok clock u;
  sv_callbacks : read_cb_ u = p.1 /\ new_session_cb_ u = p.2;
  sv_timeout : session_timeout_ms_ u = ms;
  sv_made : length srcs = made u;
  sv_sources : Forall (fun e => srcs !! sess_id e.2 = Some (sess_source e.2) /\ sess_source e.2 = e.1)
    (sessions_ u);
  sv_calls : calls_ok (made u) (posted u);
  sv_given : Forall2 (serves srcs) (posted u) taken
}.

Abbreviation ready := (true, true).

Lemma serving_init : serving (false, false) (udp_server_ctor ms) [] [].
Proof. split; try done; [|by constructor..]. split; try split; simpl; constructor. Qed.

(** The two setters; without callbacks a datagram is dropped. *)
Lemma set_serving p u srcs taken r n :
  serving p u srcs taken -> serving (r, n) (set_read_cb r (set_new_session_cb n u)) srcs taken.
Proof. intros [Hs _ Hm Hl Hsrc Hc Hg]. by split. Qed.

Lemma drop_serving u srcs taken ds : serving (false, false) u srcs taken -> foldl deliver u ds = u.
Proof.
  intros [_ [Hr Hn] _ _ _ _ _]. simpl in *. induction ds as [|d ds IH]; [done|]. cbn [foldl].
  replace (deliver u d) with u; [done|]. unfold deliver. destruct (source_of d); [|done]. simpl.
  unfold server_on_read. by rewrite Hr, Hn.
Qed.

Lemma serves_more srcs srcs' c d : serves srcs c d -> serves (srcs ++ srcs') c d.
Proof.
  intros (Hd & a & b & Ha & Hb & He). split; [done|]. exists a, b. split_and!; [done| |done].
  by apply lookup_app_l_Some.
Qed.

Lemma find_session_source source l x :
  find_session source l = Some x -> exists a, (a, x) ∈ l /\ addr_eq a source = true.
Proof.
  induction l as [|[a y] l IH]; [done|]. simpl. destruct (addr_eq a source) eqn:E.
  - intros [= ->]. exists a. split; [by left|done].
  - intros (b & Hb & He)%IH. exists b. split; [by right|done].
Qed.

(** One datagram: one heavy task, for a session the server has. *)
Lemma read_serving u srcs taken d a :
  serving ready u srcs taken -> source_of d = Some a ->
  exists c srcs', serving ready (deliver u d) (srcs ++ srcs') (taken ++ [d]) /\
    posted (deliver u d) = posted u ++ [c] /\
    call_session c ∈ sess_id <$> (sessions_ (deliver u d)).*2 /\
    sess_id <$> (sessions_ u).*2 ⊆ sess_id <$> (sessions_ (deliver u d)).*2.
Proof.
  intros [Hs [Hr Hn] Hm Hl Hsrc Hc Hg] Ha. simpl in Hr, Hn. unfold deliver. rewrite Ha. simpl.
  assert (Hk : addr_key a <> None) by (by eapply from_sockaddr_named).
  destruct (run_udp_op_ok clock clock_mono clock_range
    (URead (ztake kMaxUdpPacketSize d.1) a) u) as (u' & Hrun & Hs' & Hm' & _); [lia|done|done|].
  simpl in Hrun. injection Hrun as Hrun. rewrite <- Hrun in Hs', Hm'. clear u' Hrun.
  unfold server_on_read in *. rewrite Hn, Hr in *. simpl in *.
  destruct (find_session a (sessions_ u)) as [x|] eqn:Hf.
  - destruct (find_session_source _ _ _ Hf) as (b & Hb & He).
    exists (CallRead (sess_id x) (ztake kMaxUdpPacketSize d.1)), []. rewrite app_nil_r. simpl.
    rewrite touch_ids. split_and!; [|done| |done].
    + split; simpl; try done.
      * apply Forall_touch; [by simpl|done].
      * constructor; [done|]. destruct Hs as [_ _ [_ Hids] _]. rewrite Forall_forall in Hids.
        by apply (Hids _ Hb).
      * apply Forall2_app; [done|]. constructor; [|constructor]. split; [done|].
        rewrite Forall_forall in Hsrc.
        destruct (Hsrc _ Hb) as [Hx Hxb]. simpl in *. rewrite Hxb in Hx. by exists a, b.
    + apply list_elem_of_fmap. exists x. split; [done|]. apply list_elem_of_fmap. by exists (b, x).
  - exists (CallNewSession (made u) (ztake kMaxUdpPacketSize d.1)), [a]. simpl.
    rewrite fmap_app. rewrite fmap_app. simpl. split_and!; [|done|set_solver|set_solver].
    split; simpl; try done.
    + rewrite length_app, Hl. simpl. lia.
    + apply Forall_app. split; [|repeat constructor; simpl].
      * eapply Forall_impl; [exact Hsrc|]. intros e [He1 He2]. split; [by apply lookup_app_l_Some|done].
      * rewrite lookup_app_r, <- Hl by lia. by rewrite Nat.sub_diag.
    + by constructor.
    + apply Forall2_app; [eapply Forall2_impl; [exact Hg|]; intros; by apply serves_more|].
      constructor; [|constructor]. split; [done|]. exists a, a. split_and!; [done| |].
      * simpl. rewrite lookup_app_r, <- Hl by lia. by rewrite Nat.sub_diag.
      * apply addr_eq_key. destruct (addr_key a) as [k|]; [by exists k|done].
Qed.

(** All the datagrams of a callback. *)
Lemma reads_serving u srcs taken ds :
  serving ready u srcs taken -> Forall readable_source ds ->
  exists (cs : list heavy_call) srcs', serving ready (foldl deliver u ds) (srcs ++ srcs') (taken ++ ds) /\
    posted (foldl deliver u ds) = posted u ++ cs /\
    Forall (fun c => call_session c ∈ sess_id <$> (sessions_ (foldl deliver u ds)).*2) cs /\
    sess_id <$> (sessions_ u).*2 ⊆ sess_id <$> (sessions_ (foldl deliver u ds)).*2.
Proof.
  intros Hs Hds. revert u srcs taken Hs. induction Hds as [|d ds [a Ha] _ IH]; intros u srcs taken Hs.
  { exists [], []. rewrite !app_nil_r. by split_and!. }
  destruct (read_serving u srcs taken d a Hs Ha) as (c & s1 & Hs1 & Hp1 & Hc1 & Hi1).
  destruct (IH _ _ _ Hs1) as (cs & s2 & Hs2 & Hp2 & Hc2 & Hi2). exists (c :: cs), (s1 ++ s2). cbn [foldl].
  rewrite <- app_assoc in Hs2. rewrite <- app_assoc in Hs2. split_and!; [done| | |set_solver].
  - by rewrite Hp2, Hp1, <- app_assoc.
  - constructor; [set_solver|done].
Qed.

Lemma scan_serving p u srcs taken :
  serving p u srcs taken -> exists u', scan_cb clock u = Ok u' /\ serving p u' srcs taken /\
    posted u' = posted u.
Proof.
  intros [Hs Hcb Hm Hl Hsrc Hc Hg].
  destruct (run_udp_op_ok clock clock_mono clock_range UScan u) as (u' & Hrun & Hs' & Hm' & _);
    [by rewrite Hm|done|done|]. simpl in Hrun. exists u'. split; [done|].
  unfold scan_cb in Hrun. destruct (scan_sessions_ok clock clock_range _ _ (session_timeout_ms_ u) _
    ltac:(by rewrite Hm) Hs) as (l & Hl' & Hsub & _).
  rewrite Hl' in Hrun. simpl in Hrun. injection Hrun as <-. split; [|done].
  split; simpl; try done. by eapply Forall_sublist.
Qed.
End sessions.

(** ** The socket *)

Section socket.
Context {K : Type} `{DK : DgramKernel K, DL : !DgramLaws K, DN : !DgramNet K, NL : !DgramNetLaws K}
  {L F U : Type} `{DH : DgramHandler U}.
Implicit Types (s : dgram K L F U).

Lemma dgram_recv_departs s s' r b :
  dgram_recv s = (s', r, b) ->
  departures (dkern s') (dgram_fd s) = departures (dkern s) (dgram_fd s) /\ dgram_fd s' = dgram_fd s.
Proof.
  unfold dgram_recv. destruct (sock_recvfrom _ _ _) as [k [[d [m n]]|e]] eqn:Hr;
    apply recvfrom_departures in Hr; [|destruct (e =? EAGAIN)]; intros [= <- <- <-]; done.
Qed.

Lemma dgram_loop_departs fuel s s' :
  dgram_loop fuel s = Ok s' -> departures (dkern s') (dgram_fd s) = departures (dkern s) (dgram_fd s).
Proof.
  revert s. induction fuel as [|fuel IH]; intros s H; [done|]. simpl in H.
  destruct (dgram_recv s) as [[s1 [len [a|]]] b] eqn:Hr; apply dgram_recv_departs in Hr as [<- Hfd];
    [|by simplify_eq]. rewrite <- Hfd. by apply IH in H.
Qed.

(** The callback: some datagrams are taken from the queue; those whose source can
    be read are delivered.  A server and a node only log an error. *)
Lemma dgram_cb_takes types s :
  (forall e (u : U), on_dgram_error e u = u) ->
  exists s' consumed, dgram_cb types s = Ok s' /\
    derived s' = foldl deliver (derived s) (filter readable_source consumed) /\
    queued (dkern s) (dgram_fd s) = consumed ++ queued (dkern s') (dgram_fd s) /\
    departures (dkern s') (dgram_fd s) = departures (dkern s) (dgram_fd s) /\
    dgram_channel_ s' = dgram_channel_ s.
Proof.
  intros Hlog. assert (H : exists s1 consumed,
    (if has types EventType.kRead
     then dgram_loop (S (length (queued (dkern s) (dgram_fd s)))) s else Ok s) = Ok s1 /\
    derived s1 = foldl deliver (derived s) (filter readable_source consumed) /\
    queued (dkern s) (dgram_fd s) = consumed ++ queued (dkern s1) (dgram_fd s) /\
    departures (dkern s1) (dgram_fd s) = departures (dkern s) (dgram_fd s) /\
    dgram_channel_ s1 = dgram_channel_ s).
  { destruct (has types EventType.kRead); [|exists s, []; by split_and!].
    destruct (dgram_loop_ok (S (length (queued (dkern s) (dgram_fd s)))) s) as (s1 & taken & Hl & Hd);
      [lia|]. destruct Hd as [Hr (rest & Hq & Hrest) Hu (Hch & _)].
    assert (Hall : forall l, Forall (fun d => source_of d <> None) l -> filter readable_source l = l).
    { induction 1 as [|d l Hd _ IH]; [done|].
      rewrite filter_cons_True by (unfold readable_source; by apply not_eq_None_Some). by rewrite IH. }
    exists s1. rewrite Hl, Hu. pose proof (dgram_loop_departs _ _ _ Hl).
    destruct Hrest as [(-> & Hq' & _)|[(-> & _)|(d & -> & Hn & _)]].
    - exists taken. rewrite Hall, Hq' by done. by split_and!.
    - exists taken. rewrite Hall by done. by split_and!.
    - exists (taken ++ [d]). rewrite filter_app, Hall by done.
      rewrite filter_cons_False by (unfold readable_source; rewrite Hn; by intros [? ?]).
      rewrite app_nil_r, <- app_assoc. by split_and!. }
  destruct H as (s1 & consumed & H & Hu & Hq & Hd & Hc). unfold dgram_cb. rewrite H. simpl.
  destruct (has types EventType.kError); [|by exists s1, consumed].
  destruct (dgram_so_error (dkern s1) (dgram_fd s1)) as [k err] eqn:He.
  assert (dgram_fd s1 = dgram_fd s) as Hfd by (unfold dgram_fd; by rewrite Hc). rewrite Hfd in He.
  pose proof (so_error_departures _ _ _ _ He). apply dgram_so_error_queue in He.
  destruct (err =? 0); eexists _, consumed; (split; [done|]); simpl; rewrite ?Hlog; split_and!; congruence.
Qed.

Lemma dgram_send_departs data a s :
  let s' := dgram_send data a s in
  derived s' = derived s /\ dgram_channel_ s' = dgram_channel_ s /\
  queued (dkern s') (dgram_fd s) = queued (dkern s) (dgram_fd s) /\
  exists out, departures (dkern s') (dgram_fd s) = departures (dkern s) (dgram_fd s) ++ out /\
    out `sublist_of` [sent_to a data].
Proof.
  unfold dgram_send. destruct (sock_sendto _ _ _ _ _) as [k [n|e]] eqn:Hr; simpl;
    pose proof (sendto_queued _ _ _ _ _ _ _ Hr) as Hq.
  - apply sendto_ret in Hr. split_and!; [done..|]. by exists [sent_to a data].
  - apply sendto_err in Hr.
    destruct (e =? EAGAIN); simpl; (split_and!; [done..|]); exists []; rewrite app_nil_r;
      (split; [done|]); apply sublist_nil_l.
Qed.
End socket.

(** ** The service *)

(** What a server is given: its socket's callback, before which [ds] arrived; the
    callback of its scan timer; the task of [post_send_task]; the main function's
    [set_read_cb] and [set_new_session_cb]. *)
Inductive udp_input :=
| SocketEvent (types : Z) (ds : list datagram)
| ScanEvent
| SendDatagram (data : list byte) (addr : inet_addr)
| SetReadCb
| SetNewSessionCb.

(** The order of the main function, with no datagram read between the two: [p] is
    what was set so far. *)
Definition set_step (p : bool * bool) (x : udp_input) : bool * bool :=
  match x with SetReadCb => (true, p.2) | SetNewSessionCb => (p.1, true) | _ => p end.
Definition set_allowed (p : bool * bool) (x : udp_input) : Prop :=
  match x with
  | SetReadCb => p = (false, false)
  | SetNewSessionCb => p = (true, false)
  | SocketEvent _ _ => p.1 = p.2
  | _ => True
  end.
Definition was_set : list udp_input -> bool * bool := foldl set_step (false, false).

Fixpoint set_up_from (p : bool * bool) (xs : list udp_input) : Prop :=
  match xs with [] => True | x :: xs' => set_allowed p x /\ set_up_from (set_step p x) xs' end.
Definition set_up : list udp_input -> Prop := set_up_from (false, false).

Lemma set_up_from_app p xs ys :
  set_up_from p (xs ++ ys) <-> set_up_from p xs /\ set_up_from (foldl set_step p xs) ys.
Proof.
  revert p. induction xs as [|x xs IH]; intros p; simpl; [tauto|]. rewrite IH. tauto.
Qed.

Lemma set_up_app xs ys : set_up (xs ++ ys) -> set_up xs.
Proof. intros [H _]%set_up_from_app. exact H. Qed.

Lemma set_up_snoc xs x : set_up (xs ++ [x]) -> set_up xs /\ set_allowed (was_set xs) x.
Proof. intros [H [Hx _]]%set_up_from_app. done. Qed.

Lemma was_set_snoc xs x : was_set (xs ++ [x]) = set_step (was_set xs) x.
Proof. apply foldl_snoc. Qed.

(** The datagrams that arrived during some inputs, and those before
    [set_read_cb]. *)
Definition arrivals (xs : list udp_input) : list datagram :=
  concat (map (fun i => match i with SocketEvent _ ds => ds | _ => [] end) xs).

Fixpoint before_setters (xs : list udp_input) : list udp_input :=
  match xs with [] => [] | SetReadCb :: _ => [] | x :: xs' => x :: before_setters xs' end.

Lemma before_setters_prefix xs x : before_setters xs `prefix_of` before_setters (xs ++ [x]).
Proof.
  induction xs as [|y xs IH]; [apply prefix_nil|]. destruct y; simpl; first [done|by apply prefix_cons].
Qed.

(** Nothing set yet: all inputs are before. *)
Lemma before_none xs : (was_set xs).1 = false -> before_setters xs = xs.
Proof.
  intros H. assert (Hp : forall p, (foldl set_step p xs).1 = false -> p.1 = false /\
    before_setters xs = xs).
  { clear H. induction xs as [|x xs IH]; intros p H; [done|]. apply IH in H as [Hp Hb].
    destruct x; simpl in *; first [discriminate|split; [done|by rewrite Hb]]. }
  by apply Hp in H as [_ ?].
Qed.

(** A heavy task, which holds its session, and with it the session's source. *)
Definition job : Type := heavy_call * option inet_addr.

Section service.
Context {K : Type} `{DK : DgramKernel K, DL : !DgramLaws K, DN : !DgramNet K, NL : !DgramNetLaws K}
  {L F W : Type}.
Variable (clock : nat -> Z).
#[local] Hint Extern 0 (DgramHandler udp_server) => exact (server_handler clock) : typeclass_instances.
Implicit Types (s : dgram K L F udp_server).

(** The tasks posted on the way from [s] to [s']. *)
Definition jobs s s' : list job :=
  map (fun c => (c, session_source (call_session c) (sessions_ (derived s'))))
    (drop (length (posted (derived s))) (posted (derived s'))).

Definition udp_step (i : udp_input) s : res (dgram K L F udp_server * list job) :=
  match i with
  | SocketEvent types ds =>
      s' ← dgram_cb types (with_kern (dgram_arrive ds (dkern s) (dgram_fd s)) s);
      Ok (s', jobs s s')
  | ScanEvent => u ← scan_cb clock (derived s); let s' := with_derived u s in Ok (s', jobs s s')
  | SendDatagram data addr => let s' := dgram_send data addr s in Ok (s', jobs s s')
  | SetReadCb => Ok (with_derived (set_read_cb true (derived s)) s, [])
  | SetNewSessionCb => Ok (with_derived (set_new_session_cb true (derived s)) s, [])
  end.

(** What the loop dispatches, and what the main function does meanwhile. *)
Definition is_event (i : udp_input) : Prop := match i with SendDatagram _ _ => False | _ => True end.

(** The user: what the callback of a task does to its data, and what it gives to
    [post_send_task] of the session. *)
Variable (user_cb : heavy_call -> W -> res (W * list (list byte))).

Definition udp_user (j : job) (w : W) : res (W * list udp_input) :=
  source ← of_option j.2;
  r ← user_cb j.1 w;
  Ok (r.1, map (fun data => SendDatagram data source) r.2).

Variables (life : nat) (loop : L) (fd : Z) (k : K) (cb : F) (ms : Z) (w0 : W).

(** The socket as the factory left it. *)
Definition udp_s0 : dgram K L F udp_server :=
  dgram_start life cb (dgram_ctor loop fd k (udp_server_ctor ms)).

#[local] Instance udp_service : Service (dgram K L F udp_server) udp_input job W := {|
  svc_init := udp_s0;
  svc_world := w0;
  svc_step := udp_step;
  svc_event := is_event;
  svc_heavy := udp_user;
  svc_owner _ := life
|}.

Hypothesis clock_mono : forall i j, (i <= j)%nat -> clock i <= clock j.
Hypothesis clock_range : forall i, 0 <= clock i < 2 ^ 62.
Hypothesis timeout_range : 0 <= ms <= 2000000000000.
Hypothesis fd_nonneg : 0 <= fd.

Definition sends (xs : list udp_input) : list (list byte * list byte) :=
  omap (fun i => match i with SendDatagram data a => Some (sent_to a data) | _ => None end) xs.

Definition job_of (srcs : list inet_addr) (c : heavy_call) : job := (c, srcs !! call_session c).

(** What the server has done with its inputs: [srcs] are the sources of its
    sessions, [early] the datagrams that left the queue before there were
    callbacks, [late] those that did since. *)
Record served (xs : list udp_input) s (os : list job) (srcs : list inet_addr)
    (early late : list datagram) : Prop := {
  sd_run : run_all udp_step xs udp_s0 = Ok (s, os);
  sd_serving : serving clock ms (was_set xs) (derived s) srcs (filter readable_source late);
  sd_late : was_set xs <> (true, true) -> late = [];
  sd_early : early `prefix_of` queued k fd ++ arrivals (before_setters xs);
  sd_jobs : os = map (job_of srcs) (posted (derived s));
  sd_fd : dgram_fd s = fd;
  sd_queue : queued k fd ++ arrivals xs = (early ++ late) ++ queued (dkern s) fd;
  sd_sent : exists out, departures (dkern s) fd = departures k fd ++ out /\ out `sublist_of` sends xs
}.

Lemma udp_s0_facts : derived udp_s0 = udp_server_ctor ms /\ dkern udp_s0 = k /\ dgram_fd udp_s0 = fd.
Proof.
  unfold udp_s0, dgram_start, dgram_ctor, dgram_fd, get_fd, channel_ctor, update_event_cb, valid. simpl.
  destruct (fd =? -1) eqn:E; [lia|]. simpl. rewrite ?E. done.
Qed.

Lemma served_nil : served [] udp_s0 [] [] [] [].
Proof.
  destruct udp_s0_facts as (Hu & Hk & Hf).
  split; [done| |done|apply prefix_nil|by rewrite Hu|done| |].
  - rewrite Hu. apply serving_init.
  - rewrite Hk. apply app_nil_r.
  - exists []. rewrite Hk, app_nil_r. split; [done|]. apply sublist_nil_l.
Qed.

Lemma jobs_of p srcs s s' cs taken :
  serving clock ms p (derived s') srcs taken -> posted (derived s') = posted (derived s) ++ cs ->
  Forall (fun c => call_session c ∈ sess_id <$> (sessions_ (derived s')).*2) cs ->
  jobs s s' = map (job_of srcs) cs.
Proof.
  intros Hs Hp Hcs. unfold jobs. rewrite Hp, drop_app_length. apply map_ext_in. intros c Hc.
  unfold job_of. f_equal. rewrite Forall_forall in Hcs. apply session_source_found.
  - apply Hs.
  - apply Hcs. by apply list_elem_of_In.
Qed.

Lemma serves_named srcs (cs : list heavy_call) taken :
  Forall2 (serves srcs) cs taken -> Forall (fun c => is_Some (srcs !! call_session c)) cs.
Proof. induction 1 as [|c d cs taken (_ & a & b & _ & Hb & _) _ IH]; constructor; [by eexists|done]. Qed.

Lemma old_jobs srcs srcs' (cs : list heavy_call) taken :
  Forall2 (serves srcs) cs taken -> map (job_of srcs) cs = map (job_of (srcs ++ srcs')) cs.
Proof.
  induction 1 as [|c d cs taken (_ & a & b & _ & Hb & _) _ IH]; [done|]. simpl. f_equal; [|done].
  unfold job_of. by rewrite (lookup_app_l_Some _ _ _ _ Hb), Hb.
Qed.

Lemma arrivals_app xs ys : arrivals (xs ++ ys) = arrivals xs ++ arrivals ys.
Proof. unfold arrivals. by rewrite map_app, concat_app. Qed.

(** What a step adds, and that it adds up. *)
Lemma served_step xs x s s' os srcs srcs' early early' late late' cs out :
  served xs s os srcs early late -> udp_step x s = Ok (s', jobs s s') ->
  serving clock ms (was_set (xs ++ [x])) (derived s') (srcs ++ srcs') (filter readable_source (late
    ++ late')) ->
  (was_set (xs ++ [x]) <> (true, true) -> late' = []) -> (early' <> [] ->
    (was_set (xs ++ [x])).1 = false) ->
  posted (derived s') = posted (derived s) ++ cs ->
  Forall (fun c => call_session c ∈ sess_id <$> (sessions_ (derived s')).*2) cs ->
  dgram_channel_ s' = dgram_channel_ s ->
  queued (dkern s) fd ++ arrivals [x] = (early' ++ late') ++ queued (dkern s') fd ->
  departures (dkern s') fd = departures (dkern s) fd ++ out -> out `sublist_of` sends [x] ->
  (was_set xs = (true, true) -> was_set (xs ++ [x]) = (true, true)) ->
  served (xs ++ [x]) s' (os ++ jobs s s') (srcs ++ srcs') (early ++ early') (late ++ late').
Proof.
  intros [Hr Hs Hl He Hj Hf Hq (o & Ho & Hsub)] Hst Hs' Hl' He' Hp Hcs Hch Hq' Hd' Hsub' Hmono.
  assert (Hempty : early' <> [] -> late = []) by (intros H%He'; apply Hl; intros E%Hmono;
    by rewrite E in H).
  split.
  - by eapply run_all_snoc.
  - done.
  - intros Hn. rewrite Hl, Hl'; [done|done|]. intros E. by apply Hn, Hmono.
  - destruct (decide (early' = [])) as [->|Hne].
    + rewrite app_nil_r. etrans; [exact He|]. destruct (before_setters_prefix xs x) as [r ->].
      rewrite arrivals_app, app_assoc. by eexists.
    + rewrite (before_none _ (He' Hne)), arrivals_app, app_assoc, Hq, (Hempty Hne), app_nil_r.
      rewrite <- !app_assoc, Hq'. apply prefix_app. rewrite <- app_assoc. by eexists.
  - rewrite (jobs_of _ _ _ _ _ _ Hs' Hp Hcs), Hj, Hp, map_app. f_equal.
    eapply old_jobs, (sv_given _ _ _ _ _ _ Hs).
  - unfold dgram_fd. by rewrite Hch.
  - rewrite arrivals_app, app_assoc, Hq, <- !app_assoc, Hq'. f_equal.
    destruct (decide (early' = [])) as [->|Hne]; [by rewrite <- !app_assoc|].
    by rewrite (Hempty Hne), <- !app_assoc.
  - exists (o ++ out). rewrite Hd', Ho, <- app_assoc. split; [done|].
    unfold sends. rewrite omap_app. by apply sublist_app.
Qed.

Lemma was_set_cases xs :
  set_up xs -> was_set xs = (false, false) \/ was_set xs = (true, false) \/ was_set xs = (true, true).
Proof.
  induction xs as [|x xs IH] using rev_ind; [by left|].
  intros [H Hx]%set_up_snoc. rewrite was_set_snoc.
  destruct (IH H) as [E|[E|E]]; rewrite E in *; destruct x; simpl in *; auto; discriminate.
Qed.

(** A callback of the socket: without callbacks it drops what it reads. *)
Lemma served_socket xs types ds s os srcs early late :
  served xs s os srcs early late -> set_up (xs ++ [SocketEvent types ds]) ->
  exists s' os' srcs' early' late',
    served (xs ++ [SocketEvent types ds]) s' (os ++ os') (srcs ++ srcs') (early ++ early') (late ++ late').
Proof.
  intros H [Hup Heq]%set_up_snoc. pose proof (was_set_cases _ Hup) as Hcases.
  pose proof H as [_ Hs Hl _ _ Hf _ _]. simpl in Heq.
  set (s1 := with_kern (dgram_arrive ds (dkern s) (dgram_fd s)) s).
  destruct (dgram_cb_takes types s1) as (s' & got & Hcb & Hu & Hq & Hd & Hch); [done|].
  change (dgram_fd s1) with (dgram_fd s) in *. simpl in Hu, Hq, Hd. rewrite Hf in *.
  rewrite arrive_queued in Hq. rewrite arrive_departures in Hd.
  assert (Hst : udp_step (SocketEvent types ds) s = Ok (s', jobs s s'))
    by (unfold udp_step; fold s1; by rewrite Hcb).
  assert (Hsame : was_set (xs ++ [SocketEvent types ds]) = was_set xs) by (by rewrite was_set_snoc).
  assert (Harr : arrivals [SocketEvent types ds] = ds) by (unfold arrivals; simpl; by rewrite app_nil_r).
  assert (Hw : was_set xs = (true, true) \/ was_set xs = (false, false)).
  { destruct Hcases as [->|[E| ->]]; auto. by rewrite E in Heq. }
  destruct Hw as [Hw|Hw]; rewrite Hw in Hs.
  - destruct (reads_serving clock clock_mono clock_range ms timeout_range _ _ _
      (filter readable_source got) Hs) as (cs & srcs' & Hs' & Hp & Hcs & _).
    { apply Forall_forall. by intros d [Hd' _]%list_elem_of_filter. }
    rewrite <- filter_app in Hs'. rewrite <- Hu in Hs', Hp, Hcs.
    exists s', (jobs s s'), srcs', [], got. rewrite <- Hw in Hs'.
    eapply (served_step _ _ _ _ _ _ _ _ [] _ got cs []); rewrite ?Hsame, ?Harr; try done.
    by rewrite app_nil_r.
  - rewrite (drop_serving clock ms _ _ _ _ Hs) in Hu. exists s', (jobs s s'), [], got, [].
    eapply (served_step _ _ _ _ _ _ _ _ got _ [] [] []); rewrite ?Hsame, ?Harr, ?Hw, ?app_nil_r, ?Hu; done.
Qed.

Lemma served_next xs x s os srcs early late :
  served xs s os srcs early late -> set_up (xs ++ [x]) ->
  exists s' os' srcs' early' late',
    served (xs ++ [x]) s' (os ++ os') (srcs ++ srcs') (early ++ early') (late ++ late').
Proof.
  intros H Hup. pose proof H as [_ Hs _ _ _ Hf _ _].
  pose proof (set_up_snoc _ _ Hup) as [_ Hx]. pose proof (was_set_snoc xs x) as Hw.
  destruct x as [types ds| |data addr| |]; simpl in Hx, Hw; [by eapply served_socket| | | |].
  - destruct (scan_serving clock clock_mono clock_range ms timeout_range _ _ _ _ Hs) as (u & Hsc &
      Hs' & Hp).
    set (s' := with_derived u s). exists s', (jobs s s'), [], [], [].
    apply (served_step _ _ _ _ _ _ _ _ [] _ [] [] []); rewrite ?app_nil_r, ?Hw; try done.
    simpl. by rewrite Hsc.
  - destruct (dgram_send_departs data addr s) as (Hu & Hch & Hq & out & Hd & Hsub). rewrite Hf in *.
    set (s' := dgram_send data addr s) in *. exists s', (jobs s s'), [], [], [].
    apply (served_step _ _ _ _ _ _ _ _ [] _ [] [] out); rewrite ?app_nil_r, ?Hu, ?Hw; try done.
  - apply (set_serving clock ms _ _ _ _ true false) in Hs.
    set (s' := with_derived (set_read_cb true (derived s)) s).
    assert (Hj : jobs s s' = []) by (unfold jobs; simpl; by rewrite drop_ge).
    exists s', (jobs s s'), [], [], []. rewrite Hx in Hw. simpl in Hw.
    apply (served_step _ _ _ _ _ _ _ _ [] _ [] [] []); rewrite ?app_nil_r, ?Hw, ?Hx, ?Hj; try done.
    pose proof (sv_callbacks _ _ _ _ _ _ (sd_serving _ _ _ _ _ _ H)) as [_ Hn]. rewrite Hx in Hn.
    simpl in Hn.
    unfold set_read_cb, set_new_session_cb in *. simpl in *. by rewrite Hn.
  - apply (set_serving clock ms _ _ _ _ true true) in Hs.
    set (s' := with_derived (set_new_session_cb true (derived s)) s).
    assert (Hj : jobs s s' = []) by (unfold jobs; simpl; by rewrite drop_ge).
    exists s', (jobs s s'), [], [], []. rewrite Hx in Hw. simpl in Hw.
    apply (served_step _ _ _ _ _ _ _ _ [] _ [] [] []); rewrite ?app_nil_r, ?Hw, ?Hx, ?Hj; try done.
    pose proof (sv_callbacks _ _ _ _ _ _ (sd_serving _ _ _ _ _ _ H)) as [Hr _]. rewrite Hx in Hr.
    simpl in Hr.
    unfold set_read_cb, set_new_session_cb in *. simpl in *. by rewrite Hr.
Qed.

(** Every run of a server is such. *)
Lemma served_all xs : set_up xs -> exists s os srcs early late, served xs s os srcs early late.
Proof.
  induction xs as [|x xs IH] using rev_ind; [intros _; exists udp_s0, [], [], [], []; apply served_nil|].
  intros Hup. destruct IH as (s & os & srcs & early & late & H); [by eapply set_up_app|].
  destruct (served_next xs x s os srcs early late H Hup) as (s' & os' & srcs' & e' & l' & H').
  by eexists _, _, _, _, _.
Qed.

(** ** The user *)

(** The answers of the user's function, each with its session. *)
Definition answer (c : heavy_call) (w : W) : res (W * list (nat * list byte)) :=
  r ← user_cb c w; Ok (r.1, map (pair (call_session c)) r.2).

(** The tasks that send them. *)
Definition replies_of (srcs : list inet_addr) (ans : list (nat * list byte)) : list udp_input :=
  omap (fun x => SendDatagram x.2 <$> srcs !! x.1) ans.

Lemma replies_of_app srcs ans ans' : replies_of srcs (ans ++ ans') = replies_of srcs ans ++
  replies_of srcs ans'.
Proof. apply omap_app. Qed.

Lemma udp_user_one srcs c w a :
  srcs !! call_session c = Some a ->
  udp_user (job_of srcs c) w = (r ← answer c w; Ok (r.1, replies_of srcs r.2)).
Proof.
  intros Ha. unfold udp_user, job_of, answer. simpl. rewrite Ha. simpl.
  destruct (user_cb c w) as [[w' ms']| |]; try done. simpl. do 2 f_equal.
  induction ms' as [|m ms' IH]; [done|]. simpl. unfold replies_of in *. simpl. rewrite Ha. simpl.
  by f_equal.
Qed.

Lemma udp_user_run srcs cs w :
  Forall (fun c => is_Some (srcs !! call_session c)) cs ->
  run_all udp_user (map (job_of srcs) cs) w = (r ← run_all answer cs w; Ok (r.1, replies_of srcs r.2)).
Proof.
  intros Hcs. revert w. induction Hcs as [|c cs [a Ha] _ IH]; intros w; [done|]. simpl.
  rewrite (udp_user_one _ _ _ _ Ha). destruct (answer c w) as [[w1 a1]| |]; try done. simpl. rewrite IH.
  destruct (run_all answer cs w1) as [[w2 a2]| |]; try done. simpl. by rewrite replies_of_app.
Qed.

Lemma answers_run cs w :
  (exists r, run_all user_cb cs w = Ok r) -> exists r, run_all answer cs w = Ok r.
Proof.
  revert w. induction cs as [|c cs IH]; intros w [r Hr]; [by eexists|]. simpl in *.
  assert (Ha : answer c w = (r ← user_cb c w; Ok (r.1, map (pair (call_session c)) r.2))) by done.
  rewrite Ha.
  destruct (user_cb c w) as [[w1 a1]| |]; try done. simpl in *.
  destruct (run_all user_cb cs w1) as [[w2 a2]| |] eqn:E; try done.
  destruct (IH w1) as [[w3 a3] ->]; [by eexists|]. by eexists.
Qed.

(** A user safe on the tasks of a server makes the whole safe. *)
Hypothesis user_safe : forall n cs, calls_ok n cs -> exists r, run_all user_cb cs w0 = Ok r.

(** The tasks called so far, by their number in what the server posted. *)
Lemma called_jobs xs s os srcs early late cs :
  served xs s os srcs early late -> delivered os cs ->
  exists cs', cs' `prefix_of` posted (derived s) /\ cs = map (job_of srcs) cs' /\
    Forall (fun c => is_Some (srcs !! call_session c)) cs' /\
    exists r, run_all answer cs' w0 = Ok r.
Proof.
  intros [_ Hs _ _ -> _ _ _] Hd%(delivered_one life); [|done].
  assert (Hcs : cs = map (job_of srcs) (take (length cs) (posted (derived s)))).
  { by apply prefix_map_take. }
  exists (take (length cs) (posted (derived s))).
  assert (Hp : take (length cs) (posted (derived s)) `prefix_of` posted (derived s)) by (by eexists;
    rewrite take_drop).
  split_and!; [done|done| |].
  - eapply Forall_take, serves_named, (sv_given _ _ _ _ _ _ Hs).
  - destruct (calls_ok_prefix _ _ _ (sv_calls _ _ _ _ _ _ Hs) Hp) as [n Hn].
    by eapply answers_run, user_safe.
Qed.

#[local] Instance udp_laws : ServiceLaws (St := dgram K L F udp_server) (W := W).
Proof.
  refine {| inputs_ok := set_up |}; [apply set_up_app| |].
  - intros xs Hup. destruct (served_all xs Hup) as (s & os & srcs & early & late & H).
    eexists. by eapply sd_run.
  - intros xs st os cs Hup Hr Hd. destruct (served_all xs Hup) as (s & os' & srcs & early & late & H).
    pose proof (sd_run _ _ _ _ _ _ H) as Hr'. simpl in Hr. rewrite Hr' in Hr. simplify_eq.
    destruct (called_jobs _ _ _ _ _ _ _ H Hd) as (cs' & _ & -> & Hcs & [r Hrun]). simpl.
    rewrite udp_user_run, Hrun by done. by eexists.
Defined.

Implicit Types (σ : sys (dgram K L F udp_server) udp_input job W).

Lemma sends_app xs ys : sends (xs ++ ys) = sends xs ++ sends ys.
Proof. apply omap_app. Qed.

Lemma events_send_nothing l :
  Forall (fun e => e.1 = false -> is_event e.2) l -> sends (snd <$> l) = sends (tasks l).
Proof.
  induction 1 as [|[b x] l Hx _ IH]; [done|]. rewrite fmap_cons. destruct b.
  - change (tasks ((true, x) :: l)) with ([x] ++ tasks l). cbn [snd].
    change (x :: (snd <$> l)) with ([x] ++ (snd <$> l)). by rewrite !sends_app, IH.
  - specialize (Hx eq_refl). change (tasks ((false, x) :: l)) with (tasks l). rewrite <- IH. by destruct x.
Qed.

(** A server on a loop, under every interleaving, when only its sessions send. *)
Lemma server_served σ :
  reachable life σ -> set_up (snd <$> log σ) -> own (io_posted (sio σ)) = back σ ->
  exists srcs early late ans,
    queued k fd ++ arrivals (snd <$> log σ) = (early ++ late) ++ queued (dkern (object σ)) fd /\
    early `prefix_of` queued k fd ++ arrivals (before_setters (snd <$> log σ)) /\
    serving clock ms (was_set (snd <$> log σ)) (derived (object σ)) srcs (filter readable_source late) /\
    map fst (called σ) `prefix_of` posted (derived (object σ)) /\
    run_all answer (map fst (called σ)) w0 = Ok (world σ, ans) /\
    (exists out, departures (dkern (object σ)) fd = departures k fd ++ out /\
      out `sublist_of` sends (replies_of srcs ans)) /\
    forall t m, hv_at (shv σ) = HV_run m -> heavy_exe_queue_ (shv σ) !! m = Some t ->
      exists σ', run_heavy t m σ = Ok σ'.
Proof.
  intros Hr Hup Hback.
  destruct (reachable_runs (SL := udp_laws) life σ Hr)
    as (outs & Hrun & Htasks & Hev & Hdel & Hcall & Hheavy & _).
  destruct (served_all (snd <$> log σ) Hup) as (s & os & srcs & early & late & H).
  pose proof (sd_run _ _ _ _ _ _ H) as Hrun'. simpl in Hrun. rewrite Hrun' in Hrun. simplify_eq.
  destruct (called_jobs _ _ _ _ _ _ _ H Hdel) as (cs & Hp & Hc & Hcs & [[w ans] Hans]).
  simpl in Hcall. rewrite Hc, udp_user_run, Hans in Hcall by done. simpl in Hcall.
  injection Hcall as -> Hreplies.
  assert (map fst (called σ) = cs) as ->.
  { rewrite Hc, map_map. apply map_id. }
  destruct H as [_ Hs _ He _ _ Hq (out & Ho & Hsub)]. exists srcs, early, late, ans.
  split_and!; [done..| |intros t m; by apply Hheavy].
  exists out. split; [done|]. rewrite Hreplies. etrans; [exact Hsub|].
  rewrite events_send_nothing by done. rewrite Hback in Htasks. destruct Htasks as [l1 ->].
  rewrite <- app_assoc, sends_app. by apply sublist_inserts_r.
Qed.
End service.

(** ** The datagram example on its loop *)

Section example.
Implicit Types (h : Datagram.heavy) (c : heavy_call).

(** The callbacks of the example: the messages they give to [post_send_task]. *)
Definition datagram_user c h : res (Datagram.heavy * list (list byte)) :=
  h' ← Datagram.run_call c h;
  Ok (h', map snd (drop (length (Datagram.sent h)) (Datagram.sent h'))).

Lemma run_call_sent c h h' :
  Datagram.run_call c h = Ok h' ->
  exists ms, Datagram.sent h' = Datagram.sent h ++ map (pair (call_session c)) ms.
Proof.
  destruct c as [d a|d|id d|id d]; simpl; try done.
  - rewrite new_session_cb_ok. intros [= <-]. by exists [NEW].
  - unfold Datagram.read_cb. destruct (Datagram.get_user_context id h) as [v|]; [|done]. simpl.
    destruct (negb _); intros [= <-]; [exists []; simpl; by rewrite app_nil_r|by exists [v]].
Qed.

Lemma datagram_answers cs h h' :
  Datagram.run_calls cs h = Ok h' ->
  exists ans, Datagram.sent h' = Datagram.sent h ++ ans /\
    run_all (answer datagram_user) cs h = Ok (h', ans).
Proof.
  revert h. induction cs as [|c cs IH]; intros h H; [simplify_eq/=; exists []; by rewrite app_nil_r|].
  simpl in H. destruct (Datagram.run_call c h) as [h1| |] eqn:H1; try done. simpl in H.
  destruct (run_call_sent _ _ _ H1) as [ms Hms]. destruct (IH h1 H) as (ans & Hans & Hr).
  exists (map (pair (call_session c)) ms ++ ans). rewrite app_assoc, <- Hms. split; [done|]. simpl.
  assert (answer datagram_user c h = Ok (h1, map (pair (call_session c)) ms)) as ->.
  { unfold answer, datagram_user. rewrite H1. simpl. rewrite Hms, drop_app_length.
    do 3 f_equal. rewrite map_map. apply map_id. }
  simpl. by rewrite Hr.
Qed.

Lemma calls_registers n cs : calls_ok n cs -> exists h, registers n cs h.
Proof.
  induction 1 as [|n cs d _ [h IH]|n cs id d _ [h IH] Hid].
  - exists (Datagram.mk_heavy ∅ []). split; [done| |done]. intros id. simpl. rewrite lookup_empty.
    split; [by intros [? ?]|lia].
  - destruct (registers_new _ _ _ d IH) as (h' & _ & H). by exists h'.
  - destruct (registers_read _ _ _ id d IH Hid) as (h' & _ & H). by exists h'.
Qed.

Lemma datagram_user_safe n cs :
  calls_ok n cs -> exists r, run_all datagram_user cs (Datagram.mk_heavy ∅ []) = Ok r.
Proof.
  intros [h [Hr _ _]]%calls_registers. revert Hr. generalize (Datagram.mk_heavy ∅ []) as h0.
  induction cs as [|c cs IH]; intros h0 H; [by eexists|]. simpl in *.
  destruct (Datagram.run_call c h0) as [h1| |] eqn:E; try done. simpl in *.
  assert (datagram_user c h0 = Ok (h1, map snd (drop (length (Datagram.sent h0)) (Datagram.sent h1)))) as ->
    by (unfold datagram_user; by rewrite E). simpl.
  destruct (IH h1 H) as [r ->]. by eexists.
Qed.

Context {K : Type} `{DK : DgramKernel K, DL : !DgramLaws K, DN : !DgramNet K, NL : !DgramNetLaws K}
  {L F : Type}.
Variables (clock : nat -> Z) (life : nat) (loop : L) (fd : Z) (k : K) (cb : F) (ms : Z).
#[local] Existing Instance udp_service.

Lemma sends_replies srcs ans :
  sends (replies_of srcs ans) = omap (fun x => (fun a => sent_to a x.2) <$> srcs !! x.1) ans.
Proof.
  induction ans as [|[id m] ans IH]; [done|]. unfold replies_of, sends in *. simpl.
  destruct (srcs !! id); simpl; [by f_equal|done].
Qed.

(** C36: the datagram example, served on a loop that runs, as its server does,
    before the main function sets the callbacks, and on whose sessions only these
    post.  Under every interleaving of the io thread, the heavy thread, the kernel,
    the main function and the rest of the program in which no datagram is read
    between its two setters ([set_up]; one that is breaks the read callback,
    [between_setters_breaks]): what left the
    queue are some datagrams that arrived before [set_read_cb], which are dropped,
    and then the others; with [srcs] the endpoints its sessions were made for,
    every one of these others with a source the library can read was posted as a
    heavy task of the session of that endpoint, in order; the callbacks have been
    called on a first part of these and stay within defined behaviour; each
    session is a register that has seen the datagrams of its own calls; and what
    went to the network are answers of those registers, in order, none twice, each
    to the endpoint of its own session. *)
Theorem datagram_example_served
    (s : sys (dgram K L F udp_server) udp_input job Datagram.heavy) :
  (forall i j, (i <= j)%nat -> clock i <= clock j) -> (forall i, 0 <= clock i < 2 ^ 62) ->
  0 <= ms <= 2000000000000 -> 0 <= fd ->
  reachable (SV := udp_service clock datagram_user life loop fd k cb ms (Datagram.mk_heavy ∅ [])) life s ->
  set_up (snd <$> log s) -> own (io_posted (sio s)) = back s ->
  exists srcs early late out,
    queued k fd ++ arrivals (snd <$> log s) = (early ++ late) ++ queued (dkern (object s)) fd /\
    early `prefix_of` queued k fd ++ arrivals (before_setters (snd <$> log s)) /\
    Forall2 (serves srcs) (posted (derived (object s))) (filter readable_source late) /\
    map fst (called s) `prefix_of` posted (derived (object s)) /\
    (forall id, (Datagram.contexts (world s) !! id, replies id (world s)) =
       register None (given id (map fst (called s)))) /\
    departures (dkern (object s)) fd = departures k fd ++ out /\
    out `sublist_of` omap (fun x => (fun a => sent_to a x.2) <$> srcs !! x.1) (Datagram.sent (world s)) /\
    forall t m, hv_at (shv s) = HV_run m -> heavy_exe_queue_ (shv s) !! m = Some t ->
      exists s', run_heavy (SV := udp_service clock datagram_user life loop fd k cb ms
        (Datagram.mk_heavy ∅ [])) t m s = Ok s'.
Proof.
  intros Hmono Hrange Hms Hfd Hr Hup Hback.
  destruct (server_served clock datagram_user life loop fd k cb ms (Datagram.mk_heavy ∅ []) Hmono Hrange Hms
    Hfd datagram_user_safe s Hr Hup Hback)
    as (srcs & early & late & ans & Hq & He & Hs & Hp & Hans & (out & Ho & Hsub) & Hsafe).
  destruct (calls_ok_prefix _ _ _ (sv_calls _ _ _ _ _ _ Hs) Hp) as [n Hn].
  destruct (calls_registers _ _ Hn) as [h [Hrun _ Hreg]].
  destruct (datagram_answers _ _ _ Hrun) as (ans' & Hsent & Hans'). rewrite Hans' in Hans. simplify_eq.
  exists srcs, early, late, out.
  split_and!; [done|done|by apply (sv_given _ _ _ _ _ _ Hs)|done|done|done| |done].
  rewrite sends_replies in Hsub. simpl in Hsent. by rewrite Hsent.
Qed.
End example.

(** ** Witness *)

#[export] Instance demo_dgram_net : DgramNet demo_dgram := {
  dgram_arrive ds k _ := mk_demo_dgram (arrived k ++ ds) (departed k) (soft_error k);
  departures k _ := departed k
}.

#[export] Instance demo_dgram_net_laws : DgramNetLaws demo_dgram.
Proof.
  split; simpl; try done.
  - intros k _ cap k' r H. destruct (arrived k) as [|[d src] ds]; by simplify_eq.
  - by intros k _ k' e [= <- <-].
  - by intros k _ d a n k' r [= <- <-].
  - by intros k _ d a n k' r [= <- <-].
Qed.

Abbreviation demo_udp_service :=
  (udp_service (K := demo_dgram) (L := nat) (F := nat) demo_clock datagram_user 0%nat 5%nat 7
     (mk_demo_dgram [] [] 0) 1%nat 1000 (Datagram.mk_heavy ∅ [])).

Definition demo_stranger : list byte * Z := (le16 AF_INET ++ le16 (htons 54) ++ [127; 0; 0; 1], 16).

(** A datagram comes before there are callbacks; two endpoints send ["AAA"], the
    first one then ["GET"]; a datagram of nobody is lost; the scan runs in
    between. *)
Definition demo_udp_moves : list (move udp_input) :=
  [MStart; HStart; MEnter; MReportFd 7 1;
   MEvent [SocketEvent EventType.kRead [([2], demo_peer4)]; SetReadCb]; MEnd;
   MEnter; MReportFd 7 1;
   MEvent [SetNewSessionCb; SocketEvent EventType.kRead [(demo_AAA, demo_peer4); (demo_AAA, demo_stranger);
     ([1], demo_nobody)]];
   MFlushHeavy; MFlushHeavy; MEnd; MEnter; MReportFd 8 1; MEvent [ScanEvent]; MEnd;
   HEnter; HLock; HPred; HSwap; HCall; MFlushIo; MEnter; MReportFd 7 1;
   MEvent [SocketEvent EventType.kRead [(GET, demo_peer4)]]; MFlushHeavy; MEnd;
   HCall; MFlushIo; HClear; HEnter; HLock; HPred; HSwap; HCall; MFlushIo; MWake; MEnter; MReportWake;
     MDrain; MSwap;
   MCall; MCall].

Abbreviation demo_udp_sys := (sys (dgram demo_dgram nat nat udp_server) udp_input job Datagram.heavy).

Definition demo_udp_served : demo_udp_sys :=
  default (sys_init (SV := demo_udp_service)) (run_moves (SV := demo_udp_service) 0 demo_udp_moves
    (sys_init (SV := demo_udp_service))).

Example demo_udp_answers :
  map fst (called demo_udp_served) =
    [CallNewSession 0 demo_AAA; CallNewSession 1 demo_AAA; CallRead 0 GET] /\
  Datagram.sent (world demo_udp_served) = [(0, NEW); (1, NEW); (0, demo_AAA)]%nat /\
  map fst (departed (dkern (object demo_udp_served))) = [NEW; NEW].
Proof. vm_compute. done. Qed.

Lemma demo_udp_served_reachable : reachable (SV := demo_udp_service) 0 demo_udp_served.
Proof.
  apply (run_moves_reach (SV := demo_udp_service)); [by repeat constructor|]. vm_compute. reflexivity.
Qed.

(** Read between the two setters, the first datagram of an endpoint goes to the read
    callback, which finds no context. *)
Example between_setters_breaks :
  match run_all (udp_step demo_clock)
    [SetReadCb; SocketEvent EventType.kRead [(demo_AAA, demo_peer4)]; SetNewSessionCb]
    (udp_s0 0%nat 5%nat 7 (mk_demo_dgram [] [] 0) 1%nat 1000 : dgram demo_dgram nat nat udp_server) with
  | Ok (_, js) => run_all (udp_user datagram_user) js (Datagram.mk_heavy ∅ [])
  | r => Ok (Datagram.mk_heavy ∅ [], [])
  end = Undef.
Proof. vm_compute. reflexivity. Qed.

Lemma datagram_example_served_witness :
  exists srcs early late out,
    queued (mk_demo_dgram [] [] 0) 7 ++ arrivals (snd <$> log demo_udp_served) =
      (early ++ late) ++ queued (dkern (object demo_udp_served)) 7 /\
    early `prefix_of` queued (mk_demo_dgram [] [] 0) 7 ++ arrivals (before_setters (snd <$> log
      demo_udp_served)) /\
    Forall2 (serves srcs) (posted (derived (object demo_udp_served)))
      (filter readable_source late) /\
    map fst (called demo_udp_served) `prefix_of` posted (derived (object demo_udp_served)) /\
    (forall id, (Datagram.contexts (world demo_udp_served) !! id, replies id (world demo_udp_served)) =
       register None (given id (map fst (called demo_udp_served)))) /\
    departures (dkern (object demo_udp_served)) 7 = departures (mk_demo_dgram [] [] 0) 7 ++ out /\
    out `sublist_of` omap (fun x => (fun a => sent_to a x.2) <$> srcs !! x.1)
      (Datagram.sent (world demo_udp_served)) /\
    forall t m, hv_at (shv demo_udp_served) = HV_run m ->
      heavy_exe_queue_ (shv demo_udp_served) !! m = Some t ->
      exists s', run_heavy (SV := demo_udp_service) t m demo_udp_served = Ok s'.
Proof.
  apply (datagram_example_served demo_clock 0%nat 5%nat 7 (mk_demo_dgram [] [] 0) 1%nat 1000
    demo_udp_served).
  - apply demo_clock_mono.
  - apply demo_clock_range.
  - lia.
  - lia.
  - apply demo_udp_served_reachable.
  - vm_compute. by repeat split.
  - vm_compute. reflexivity.
Defined.
