(* ===== verification/MulticastExample.v ===== *)
(** * MulticastExample: a node that talks to its multicast group

    Models [examples/udp_multicast_example.cpp]: the node [main] makes, the group
    it joins, the heartbeats it posts in its loop and the lines its callback
    prints, with the node on both threads of a loop of [Executors].  [main] joins
    the group and sets the callback when the loop and the node run already: both
    are inputs of the run ([NodeJoin], [SetNodeCb], taken as atomic), and what is
    read before the callback is set is dropped. *)

From stdpp Require Import strings pretty.
From S2P Require Import Prelude Events LoopFd LoopIo LoopHeavy Channel Executors InetAddr StreamIo.
From S2P Require Import Dgram Multicast Factories Udp Sockets UdpServed.

#[local] Open Scope Z_scope.

(** ** Payloads *)

(** The bytes of a string literal. *)
Definition str (s : string) : list byte :=
  map (fun c => Z.of_N (Ascii.N_of_ascii c)) (String.list_ascii_of_string s).

Lemma str_app s s' : str (String.app s s') = str s ++ str s'.
Proof. induction s as [|c s IH]; [done|]. unfold str in *. simpl. by f_equal. Qed.

Lemma str_length s : zlen (str s) = Z.of_nat (String.length s).
Proof. unfold str, zlen. f_equal. induction s as [|c s IH]; [done|]. simpl. by f_equal. Qed.

#[export] Instance str_inj : Inj (=) (=) str.
Proof.
  intros s. induction s as [|c s IH]; intros [|c' s'] H; try done. injection H as Hc Hs.
  f_equal; [|by apply IH]. apply N2Z.inj in Hc.
  by rewrite <- (Ascii.ascii_N_embedding c), Hc, Ascii.ascii_N_embedding.
Qed.

Definition group_ip : list byte := str "239.255.255.250"%string.
Definition any_ip : list byte := str "0.0.0.0"%string.

Definition multicast_group `{AddrServices} : option inet_addr := make_ipv4 group_ip 9999.
Definition local_listen `{AddrServices} : option inet_addr := make_ipv4 any_ip 9999.

(** ["still alive: " + std::to_string(count)] *)
Definition heart_beat (count : Z) : list byte := str (String.app "still alive: "%string (pretty count)).

(** [count++] on an [int32_t] *)
Definition next_count (count : Z) : res Z := if count <? 2 ^ 31 - 1 then Ok (count + 1) else Undef.

(** The payloads of [n] rounds of the loop. *)
Fixpoint heart_beats (n : nat) (count : Z) : res (list (list byte)) :=
  match n with
  | O => Ok []
  | S n' =>
      count' ← next_count count;
      bs ← heart_beats n' count';
      Ok (heart_beat count :: bs)
  end.

Lemma heart_beats_ok n count :
  count + Z.of_nat n < 2 ^ 31 -> heart_beats n count = Ok (map heart_beat (seqZ count (Z.of_nat n))).
Proof.
  revert count. induction n as [|n IH]; intros count Hn; [done|]. cbn [heart_beats]. unfold next_count.
  destruct (Z.ltb_spec count (2 ^ 31 - 1)); [|lia]. cbn [mbind res_bind].
  rewrite IH by lia. cbn [mbind res_bind]. rewrite (seqZ_cons count) by lia. simpl. do 4 f_equal; lia.
Qed.

(** Two seconds a round, the count leaves [int32_t] after 136 years. *)
Lemma heart_beats_overflow n count :
  0 <= count < 2 ^ 31 -> 2 ^ 31 <= count + Z.of_nat n -> heart_beats n count = Undef.
Proof.
  revert count. induction n as [|n IH]; intros count Hc Hn; [lia|]. cbn [heart_beats]. unfold next_count.
  destruct (Z.ltb_spec count (2 ^ 31 - 1)); [|done]. cbn [mbind res_bind]. by rewrite IH by lia.
Qed.

#[export] Instance heart_beat_inj : Inj (=) (=) heart_beat.
Proof.
  intros i j H%str_inj. by apply (inj (String.app "still alive: "%string)), (inj pretty) in H.
Qed.

(** Decimal digits. *)
Lemma pretty_N_length k x s :
  (x < 10 ^ N.of_nat k)%N -> (String.length (pretty_N_go x s) <= k + String.length s)%nat.
Proof.
  revert x s. induction k as [|k IH]; intros x s Hx.
  { assert (x = 0%N) as -> by (simpl in Hx; lia). by rewrite pretty_N_go_0. }
  destruct (decide (x = 0%N)) as [->|Hne]; [rewrite pretty_N_go_0; lia|].
  rewrite pretty_N_go_step by lia. etrans; [apply IH|simpl; lia].
  apply N.Div0.div_lt_upper_bound. by rewrite Nat2N.inj_succ, N.pow_succ_r' in Hx.
Qed.

Lemma heart_beat_short count : 0 <= count < 2 ^ 31 -> zlen (heart_beat count) <= 23.
Proof.
  intros Hc. unfold heart_beat. rewrite str_app, zlen_app, str_length, str_length. simpl (String.length _).
  assert (String.length (pretty count) <= 10)%nat; [|lia].
  destruct count as [|p|p]; [simpl; lia| |lia].
  change (pretty (Zpos p)) with (pretty (Npos p)). unfold pretty, pretty_N.
  destruct (decide _); [done|]. apply (pretty_N_length 10). simpl. lia.
Qed.

(** ** The node on its loop *)

(** What the node is given: its socket's callback, before which [ds] arrived; the
    task of [post_send_task]; the main function's [joint_group] and
    [set_read_cb]. *)
Inductive node_input :=
| NodeEvent (types : Z) (ds : list datagram)
| NodeSend (data : list byte) (addr : inet_addr)
| NodeJoin (group : inet_addr)
| SetNodeCb.

(** The callback was set; the inputs before. *)
Definition cb_set (xs : list node_input) : bool :=
  existsb (fun x => match x with SetNodeCb => true | _ => false end) xs.

Fixpoint before_cb (xs : list node_input) : list node_input :=
  match xs with [] => [] | SetNodeCb :: _ => [] | x :: xs' => x :: before_cb xs' end.

Lemma cb_set_app xs ys : cb_set (xs ++ ys) = cb_set xs || cb_set ys.
Proof. apply existsb_app. Qed.

Lemma before_cb_app xs ys : before_cb (xs ++ ys) = if cb_set xs then before_cb xs else xs ++ before_cb ys.
Proof.
  unfold cb_set. induction xs as [|x xs IH]; [done|]. destruct x; simpl; rewrite ?IH;
    try done; by destruct (existsb _ xs).
Qed.

(** Datagrams and memberships do not touch each other. *)
Class GroupNetLaws (K : Type) `{DgramNet K, GroupKernel K} := {
  recvfrom_members k fd cap k' r fd' : sock_recvfrom k fd cap = (k', r) -> members k' fd' = members k fd';
  sendto_members k fd d a n k' r fd' : sock_sendto k fd d a n = (k', r) -> members k' fd' = members k fd';
  so_error_members k fd k' e fd' : dgram_so_error k fd = (k', e) -> members k' fd' = members k fd';
  arrive_members ds k fd fd' : members (dgram_arrive ds k fd) fd' = members k fd';
  group_queued k fd level opt mreq k' r fd' :
    set_group k fd level opt mreq = (k', r) -> queued k' fd' = queued k fd';
  group_departures k fd level opt mreq k' r fd' :
    set_group k fd level opt mreq = (k', r) -> departures k' fd' = departures k fd'
}.

(** The line the callback prints, with [std::endl]. *)
Definition line `{AddrServices} (source : inet_addr) (data : list byte) : list byte :=
  str "[multicast] from: "%string ++ get_ip_or_path source ++ str " msg: "%string ++ data ++ [10].

Section printing.
Context `{AS : AddrServices}.

(** The heavy task of a datagram, on what was printed so far. *)
Definition print_cb (c : heavy_call) (printed : list (list byte)) : res (list (list byte) * list
  node_input) :=
  match c with
  | CallNode data source => Ok (printed ++ [line source data], [])
  | _ => Undef
  end.

Definition is_node_event (i : node_input) : Prop := match i with NodeSend _ _ => False | _ => True end.

(** What [on_read] makes of a datagram, and what becomes of it on the screen. *)
Definition call_of (d : datagram) : option heavy_call :=
  CallNode (ztake kMaxUdpPacketSize d.1) <$> source_of d.
Definition line_of (d : datagram) : option (list byte) :=
  (fun a => line a (ztake kMaxUdpPacketSize d.1)) <$> source_of d.

Lemma print_calls ds printed :
  run_all print_cb (omap call_of ds) printed = Ok (printed ++ omap line_of ds, []).
Proof.
  revert printed. induction ds as [|d ds IH]; intros printed; simpl; [by rewrite app_nil_r|].
  unfold call_of, line_of. destruct (source_of d) as [a|]; simpl; [|by apply IH].
  rewrite IH. simpl. by rewrite <- app_assoc.
Qed.

Lemma node_drops u ds : node_read_cb_ u = false -> foldl deliver u ds = u.
Proof.
  intros Hcb. induction ds as [|d ds IH]; [done|]. cbn [foldl]. replace (deliver u d) with u; [done|].
  unfold deliver. destruct (source_of d); [|done]. simpl. unfold node_on_read. by rewrite Hcb.
Qed.

Lemma node_reads u ds :
  node_read_cb_ u = true ->
  foldl deliver u (filter readable_source ds) = mk_node true (node_posted u ++ omap call_of ds).
Proof.
  revert u. induction ds as [|d ds IH]; intros [cb p] Hcb; simpl in Hcb; subst cb;
    [by rewrite app_nil_r|].
  unfold call_of. simpl. destruct (source_of d) as [a|] eqn:Ha.
  - rewrite filter_cons_True by (unfold readable_source; by rewrite Ha). cbn [foldl].
    unfold deliver at 2. rewrite Ha. simpl. rewrite IH by done. simpl. by rewrite <- app_assoc.
  - rewrite filter_cons_False; [by apply IH|]. unfold readable_source. rewrite Ha. by intros [? ?].
Qed.

End printing.

Section node.
Context `{AS : AddrServices} {K : Type} `{DK : DgramKernel K, DL : !DgramLaws K, DN : !DgramNet K,
  NL : !DgramNetLaws K}
  `{GK : GroupKernel K, GL : !GroupLaws K, GN : !GroupNetLaws K, SK : SocketKernel K} {L F : Type}.
Implicit Types (s : dgram K L F udp_node).

Definition node_step (i : node_input) s : res (dgram K L F udp_node * list heavy_call) :=
  match i with
  | NodeEvent types ds =>
      s' ← dgram_cb types (with_kern (dgram_arrive ds (dkern s) (dgram_fd s)) s);
      Ok (s', drop (length (node_posted (derived s))) (node_posted (derived s')))
  | NodeSend data addr => Ok (dgram_send data addr s, [])
  | NodeJoin group => Ok ((joint_group group s).1, [])
  | SetNodeCb => Ok (with_derived (node_set_read_cb true (derived s)) s, [])
  end.

(** ** Making the node *)

Section main.
Variables (life : nat) (loop : L) (cb : F).

(** [main] up to its node: [value()] of the addresses and the factory. *)
Definition main_node (k : K) : product (dgram K L F udp_node) :=
  match multicast_group, local_listen with
  | Some _, Some local => res_object (make_udp_node loop life cb local k)
  | _, _ => Thrown
  end.

(** The membership of 239.255.255.250 on any interface. *)
Definition joined_group : membership := (IPPROTO_IP, [239; 255; 255; 250; 0; 0; 0; 0]).

Lemma group_is :
  inet_pton AF_INET group_ip = PtonOk [239; 255; 255; 250] ->
  exists g, multicast_group = Some g /\ group_of g = Some joined_group /\ whole g.
Proof.
  intros Hip. unfold multicast_group, make_ipv4.
  assert (c_str group_ip = group_ip) as -> by (vm_compute; reflexivity). rewrite Hip.
  eexists. split; [reflexivity|]. by split; vm_compute.
Qed.

(** What it is, if the socket was granted: a started node without callback. *)
Lemma main_node_ok k s :
  main_node k = Made s -> derived s = mk_node false [] /\ started_ s = true /\ syslog_ s = [].
Proof.
  unfold main_node. destruct multicast_group, local_listen as [l|]; try done.
  unfold make_udp_node, with_channel. destruct (negb _); [done|].
  destruct (made_channel _) as [c|]; [|done]. cbn [res_object]. intros [= <-].
  unfold dgram_start. simpl. by destruct (update_event_cb _ _ _ _ _).
Qed.
End main.

(** ** The service *)

(** *** Memberships *)

(** The log only grows, and memberships stay. *)
Definition keeps_groups s s' : Prop :=
  members (dkern s') (dgram_fd s) = members (dkern s) (dgram_fd s) /\ dgram_fd s' = dgram_fd s /\
  syslog_ s `prefix_of` syslog_ s'.

#[local] Instance keeps_groups_preorder : PreOrder keeps_groups.
Proof.
  split; [by intros s|]. intros s1 s2 s3 (H1 & F1 & L1) (H2 & F2 & L2). unfold keeps_groups.
  rewrite F1 in *. split_and!; [congruence|congruence|by etrans].
Qed.

Lemma dgram_loop_groups fuel s s' : dgram_loop fuel s = Ok s' -> keeps_groups s s'.
Proof.
  revert s. induction fuel as [|fuel IH]; intros s H; [done|]. simpl in H. unfold dgram_recv in H.
  destruct (sock_recvfrom _ _ _) as [k r] eqn:E.
  pose proof (recvfrom_members _ _ _ _ _ (dgram_fd s) E) as Hm.
  assert (H1 : keeps_groups s (with_kern k s)) by (by split_and!).
  destruct r as [[d [src len]]|e].
  - destruct (make_from_sockaddr _ _) as [a|]; [|by injection H as <-]. etrans; [exact H1|].
    etrans; [|by apply IH]. done.
  - injection H as <-. destruct (e =? EAGAIN); [done|]. etrans; [exact H1|].
    split_and!; [done|done|]. simpl. by eexists.
Qed.

Lemma dgram_cb_groups types ds s s' :
  dgram_cb types (with_kern (dgram_arrive ds (dkern s) (dgram_fd s)) s) = Ok s' -> keeps_groups s s'.
Proof.
  intros H. unfold dgram_cb in H. set (s0 := with_kern _ s) in H.
  assert (H0 : keeps_groups s s0) by (split_and!; [simpl; apply arrive_members|done|done]).
  apply res_bind_Ok in H as (s1 & Hl & H).
  assert (H1 : keeps_groups s0 s1)
    by (destruct (has types EventType.kRead); [by eapply dgram_loop_groups|by simplify_eq]).
  etrans; [exact H0|]. etrans; [exact H1|]. destruct (has types EventType.kError); [|by simplify_eq].
  destruct (dgram_so_error _ _) as [k err] eqn:E. pose proof (so_error_members _ _ _ _ (dgram_fd s1) E).
  by destruct (err =? 0); simplify_eq.
Qed.

Lemma dgram_send_groups data a s : keeps_groups s (dgram_send data a s).
Proof.
  unfold dgram_send. destruct (sock_sendto _ _ _ _ _) as [k [n|e]] eqn:E;
    pose proof (sendto_members _ _ _ _ _ _ _ (dgram_fd s) E); [done|].
  destruct (e =? EAGAIN); [done|]. split_and!; [done|done|]. simpl. by eexists.
Qed.

(** Joining leaves datagrams alone. *)
Lemma join_keeps group s :
  let s' := (joint_group group s).1 in
  derived s' = derived s /\ dgram_channel_ s' = dgram_channel_ s /\
  queued (dkern s') (dgram_fd s) = queued (dkern s) (dgram_fd s) /\
  departures (dkern s') (dgram_fd s) = departures (dkern s) (dgram_fd s).
Proof.
  unfold joint_group, group_call. repeat case_match; try done; simpl;
    match goal with H : set_group _ _ _ _ _ = _ |- _ =>
      split_and!; [done|done|by eapply group_queued|by eapply group_departures] end.
Qed.

Lemma join_member group s m :
  whole group -> group_of group = Some m ->
  let s' := (joint_group group s).1 in
  (m ∈ members (dkern s') (dgram_fd s) \/ exists e, e ∈ syslog_ s') /\
  syslog_ s `prefix_of` syslog_ s' /\
  (m ∈ members (dkern s) (dgram_fd s) -> m ∈ members (dkern s') (dgram_fd s)).
Proof.
  intros Hw Hg. pose proof (run_group_ok (true, group) s Hw) as H. unfold run_group in H. simpl in H.
  destruct (joint_group group s) as [s' out]. destruct H as (_ & Hm & _ & Hl & Hu). cbn [fst] in *.
  rewrite Hm. unfold spec_group. cbn [fst snd]. rewrite Hg in *. rewrite Hl.
  destruct out as [|e|]; simpl; [..|discriminate (proj1 Hu eq_refl)].
  - split_and!; [left; set_solver|by rewrite app_nil_r|set_solver].
  - split_and!; [right; exists e; set_solver|by eexists|done].
Qed.

Section service.
Variables (life : nat) (node0 : dgram K L F udp_node) (group : inet_addr).
Hypothesis node_fresh : derived node0 = mk_node false [].
Hypothesis group_whole : whole group.
Hypothesis group_joined : group_of group = Some joined_group.

#[local] Instance node_service : Service (dgram K L F udp_node) node_input heavy_call (list (list
  byte)) := {|
  svc_init := node0;
  svc_world := [];
  svc_step := node_step;
  svc_event := is_node_event;
  svc_heavy := print_cb;
  svc_owner _ := life
|}.

Definition node_arrivals (xs : list node_input) : list datagram :=
  concat (map (fun i => match i with NodeEvent _ ds => ds | _ => [] end) xs).
Definition node_sends (xs : list node_input) : list (list byte * list byte) :=
  omap (fun i => match i with NodeSend data a => Some (sent_to a data) | _ => None end) xs.

Lemma node_arrivals_app xs ys : node_arrivals (xs ++ ys) = node_arrivals xs ++ node_arrivals ys.
Proof. unfold node_arrivals. by rewrite map_app, concat_app. Qed.
Lemma node_sends_app xs ys : node_sends (xs ++ ys) = node_sends xs ++ node_sends ys.
Proof. apply omap_app. Qed.

(** What the node has done with its inputs: [early] left the queue before there was
    a callback, [late] since. *)
Record node_run (xs : list node_input) s (os : list heavy_call) (early late : list datagram) : Prop := {
  nr_run : run_all node_step xs node0 = Ok (s, os);
  nr_user : derived s = mk_node (cb_set xs) os;
  nr_calls : os = omap call_of late;
  nr_late : cb_set xs = false -> late = [];
  nr_early : early `prefix_of` queued (dkern node0) (dgram_fd node0) ++ node_arrivals (before_cb xs);
  nr_fd : dgram_fd s = dgram_fd node0;
  nr_queue : queued (dkern node0) (dgram_fd node0) ++ node_arrivals xs =
    (early ++ late) ++ queued (dkern s) (dgram_fd node0);
  nr_sent : exists out, departures (dkern s) (dgram_fd node0) =
      departures (dkern node0) (dgram_fd node0) ++ out /\ out `sublist_of` node_sends xs;
  nr_member : NodeJoin group ∈ xs ->
    joined_group ∈ members (dkern s) (dgram_fd node0) \/ exists e, e ∈ syslog_ s
}.

Lemma node_run_nil : node_run [] node0 [] [] [].
Proof.
  split; try done.
  - apply prefix_nil.
  - apply app_nil_r.
  - exists []. rewrite app_nil_r. split; [done|apply sublist_nil_l].
  - by intros H%elem_of_nil.
Qed.

Lemma member_stays s s' :
  keeps_groups s s' -> dgram_fd s = dgram_fd node0 ->
  joined_group ∈ members (dkern s) (dgram_fd node0) \/ (exists e, e ∈ syslog_ s) ->
  joined_group ∈ members (dkern s') (dgram_fd node0) \/ exists e, e ∈ syslog_ s'.
Proof.
  intros (Hm & _ & [l Hl]) <- [H|[e H]]; [left; by rewrite Hm|right; exists e]. rewrite Hl. set_solver.
Qed.

(** What a step adds: datagrams taken from the queue, before or after the callback
    was set, and sent. *)
Lemma node_run_adds xs x s s' os early late got out :
  node_run xs s os early late ->
  node_step x s = Ok (s', if cb_set xs then omap call_of got else []) ->
  (x = SetNodeCb -> got = []) -> cb_set [x] = true \/ cb_set [x] = false ->
  derived s' = mk_node (cb_set (xs ++ [x])) (os ++ if cb_set xs then omap call_of got else []) ->
  dgram_fd s' = dgram_fd s ->
  queued (dkern s) (dgram_fd node0) ++ node_arrivals [x] = got ++ queued (dkern s') (dgram_fd node0) ->
  departures (dkern s') (dgram_fd node0) = departures (dkern s) (dgram_fd node0) ++ out ->
  out `sublist_of` node_sends [x] ->
  (NodeJoin group ∈ xs ++ [x] ->
    joined_group ∈ members (dkern s') (dgram_fd node0) \/ exists e, e ∈ syslog_ s') ->
  exists os' early' late', node_run (xs ++ [x]) s' (os ++ os') (early ++ early') (late ++ late').
Proof.
  intros [Hr Hu Hc Hl He Hf Hq (o & Ho & Hsub) Hm] Hst Hset Hx Hu' Hf' Hq' Hd Hout Hm'.
  set (c := cb_set xs) in *. exists (if c then omap call_of got else []), (if c then [] else got),
    (if c then got else []). split.
  - by eapply run_all_snoc.
  - done.
  - rewrite omap_app, Hc. by destruct c.
  - rewrite cb_set_app. fold c. destruct c; [done|]. intros _. by rewrite app_nil_r, Hl.
  - rewrite before_cb_app. fold c. destruct c.
    + by rewrite app_nil_r.
    + rewrite node_arrivals_app, app_assoc, Hq, Hl by done. rewrite app_nil_r, <- app_assoc.
      apply prefix_app. destruct (decide (got = [])) as [->|Hne]; [apply prefix_nil|].
      assert (before_cb [x] = [x]) as -> by (destruct x; try done; by destruct Hne; apply Hset).
      rewrite Hq'. by eexists.
  - congruence.
  - rewrite node_arrivals_app, app_assoc, Hq, <- app_assoc, Hq'.
    destruct c; rewrite ?app_nil_r, <- !app_assoc; [done|]. by rewrite Hl.
  - exists (o ++ out). rewrite Hd, Ho, app_assoc. split; [done|]. rewrite node_sends_app.
    by apply sublist_app.
  - exact Hm'.
Qed.

Lemma joined_before xs x : x <> NodeJoin group -> NodeJoin group ∈ xs ++ [x] -> NodeJoin group ∈ xs.
Proof. intros Hne [|H%list_elem_of_singleton]%elem_of_app; [done|congruence]. Qed.

Lemma node_run_event xs types ds s os early late :
  node_run xs s os early late ->
  exists s' os' early' late',
    node_run (xs ++ [NodeEvent types ds]) s' (os ++ os') (early ++ early') (late ++ late').
Proof.
  intros H. pose proof H as [_ Hu _ _ _ Hf _ _ Hm].
  set (s1 := with_kern (dgram_arrive ds (dkern s) (dgram_fd s)) s).
  destruct (dgram_cb_takes types s1) as (s' & got & Hcb & Hu' & Hq' & Hd & Hch); [done|].
  pose proof (dgram_cb_groups _ _ _ _ Hcb) as Hk.
  change (dgram_fd s1) with (dgram_fd s) in *. simpl in Hu', Hq', Hd.
  rewrite arrive_queued, Hf in Hq'. rewrite arrive_departures, Hf in Hd. exists s'.
  assert (Hd' : derived s' = mk_node (cb_set xs) (os ++ if cb_set xs then omap call_of got else [])).
  { rewrite Hu', Hu. destruct (cb_set xs).
    - by rewrite node_reads.
    - by rewrite node_drops, app_nil_r. }
  apply (node_run_adds xs _ s s' os early late got []); try done.
  - unfold node_step. fold s1. rewrite Hcb. simpl. rewrite Hd', Hu. cbn [node_posted].
    by rewrite drop_app_length.
  - by right.
  - by rewrite cb_set_app, orb_false_r.
  - unfold dgram_fd in *. by rewrite Hch.
  - unfold node_arrivals. simpl. by rewrite app_nil_r.
  - by rewrite app_nil_r.
  - intros Hin. apply (member_stays s); [done|done|]. apply Hm.
    eapply joined_before; [|exact Hin]. done.
Qed.

Lemma node_run_next xs x s os early late :
  node_run xs s os early late -> (forall g, x = NodeJoin g -> g = group) ->
  exists s' os' early' late', node_run (xs ++ [x]) s' (os ++ os') (early ++ early') (late ++ late').
Proof.
  intros H Hg. pose proof H as [_ Hu _ _ _ Hf _ _ Hm]. destruct x as [types ds|data addr|g|].
  - by eapply node_run_event.
  - destruct (dgram_send_departs data addr s) as (Hu' & Hch & Hq' & out & Hd & Hsub'). rewrite Hf in *.
    exists (dgram_send data addr s).
    apply (node_run_adds xs _ s _ os early late [] out); try done.
    + by destruct (cb_set xs).
    + by right.
    + rewrite Hu', Hu, cb_set_app, orb_false_r. by destruct (cb_set xs); rewrite app_nil_r.
    + unfold dgram_fd in *. by rewrite Hch.
    + by rewrite app_nil_r, Hq'.
    + intros Hin. apply (member_stays s); [apply dgram_send_groups|done|]. apply Hm.
      eapply joined_before; [|exact Hin]. done.
  - rewrite (Hg g eq_refl). destruct (join_keeps group s) as (Hu' & Hch & Hq' & Hd). rewrite Hf in *.
    destruct (join_member group s _ group_whole group_joined) as (Hj & [l Hl] & Hold). rewrite Hf in *.
    exists (joint_group group s).1.
    apply (node_run_adds xs _ s _ os early late [] []); try done.
    + by destruct (cb_set xs).
    + by right.
    + rewrite Hu', Hu, cb_set_app, orb_false_r. by destruct (cb_set xs); rewrite app_nil_r.
    + unfold dgram_fd in *. by rewrite Hch.
    + by rewrite app_nil_r, Hq'.
    + by rewrite app_nil_r.
  - exists (with_derived (node_set_read_cb true (derived s)) s).
    apply (node_run_adds xs _ s _ os early late [] []); try done.
    + by destruct (cb_set xs).
    + by left.
    + simpl. rewrite Hu, cb_set_app, orb_true_r. by destruct (cb_set xs); rewrite app_nil_r.
    + by rewrite app_nil_r.
    + by rewrite app_nil_r.
    + intros Hin. apply Hm. eapply joined_before; [|exact Hin]. done.
Qed.

(** [main] joins its group only. *)
Definition joins_only (xs : list node_input) : Prop := forall g, NodeJoin g ∈ xs -> g = group.

Lemma node_runs xs : joins_only xs -> exists s os early late, node_run xs s os early late.
Proof.
  induction xs as [|x xs IH] using rev_ind; intros Hg; [exists node0, [], [], []; apply node_run_nil|].
  destruct IH as (s & os & early & late & IH); [intros g Hin; apply Hg; set_solver|].
  destruct (node_run_next xs x _ _ _ _ IH) as (s' & os' & e' & l' & H);
    [intros g ->; apply Hg; set_solver|]. by eexists _, _, _, _.
Qed.

(** The calls so far, of a first part of the datagrams. *)
Lemma call_prefix ds cs :
  cs `prefix_of` omap call_of ds -> exists ds', ds' `prefix_of` ds /\ cs = omap call_of ds'.
Proof.
  revert cs. induction ds as [|d ds IH]; intros cs Hp; simpl in Hp.
  { apply prefix_nil_inv in Hp as ->. by exists []. }
  destruct (call_of d) as [c|] eqn:Hd.
  - destruct cs as [|c' cs]; [exists []; split; [apply prefix_nil|done]|].
    apply prefix_cons_inv_1 in Hp as Hc. apply prefix_cons_inv_2 in Hp. subst c'.
    destruct (IH _ Hp) as (ds' & Hp' & ->). exists (d :: ds'). split; [by apply prefix_cons|].
    simpl. by rewrite Hd.
  - destruct (IH _ Hp) as (ds' & Hp' & ->). exists (d :: ds'). split; [by apply prefix_cons|].
    simpl. by rewrite Hd.
Qed.

#[local] Instance node_laws : ServiceLaws (St := dgram K L F udp_node) (W := list (list byte)).
Proof.
  refine {| inputs_ok := joins_only |}.
  - intros xs ys H g Hin. apply H. set_solver.
  - intros xs Hj. destruct (node_runs xs Hj) as (s & os & early & late & H). eexists. by eapply nr_run.
  - intros xs s os cs Hj Hr Hd%(delivered_one life); [|done].
    destruct (node_runs xs Hj) as (s' & os' & early & late & H). pose proof (nr_calls _ _ _ _ _ H) as Hc.
    apply nr_run in H. simpl in Hr. rewrite H in Hr. injection Hr as _ <-. rewrite Hc in Hd.
    destruct (call_prefix _ _ Hd) as (ds & _ & ->). eexists. apply print_calls.
Defined.

Implicit Types (σ : sys (dgram K L F udp_node) node_input heavy_call (list (list byte))).

(** The node under every interleaving, when only [data] is posted to it. *)
Lemma node_served bs σ :
  reachable life σ -> joins_only (snd <$> log σ) ->
  own (io_posted (sio σ)) = map (fun b => NodeSend b group) bs ->
  exists early late out,
    queued (dkern node0) (dgram_fd node0) ++ node_arrivals (snd <$> log σ) =
      (early ++ late) ++ queued (dkern (object σ)) (dgram_fd node0) /\
    early `prefix_of` queued (dkern node0) (dgram_fd node0) ++ node_arrivals (before_cb (snd <$> log σ)) /\
    (NodeJoin group ∈ snd <$> log σ ->
      joined_group ∈ members (dkern (object σ)) (dgram_fd node0) \/ exists e, e ∈ syslog_ (object σ)) /\
    world σ `prefix_of` omap line_of late /\
    (called σ = own (hv_posted (shv σ)) -> io_out σ = [] -> world σ = omap line_of late) /\
    departures (dkern (object σ)) (dgram_fd node0) = departures (dkern node0) (dgram_fd node0) ++ out /\
    out `sublist_of` map (sent_to group) bs.
Proof.
  intros Hr Hj Hposts. pose proof (sys_reach_inv life σ Hr) as Hinv.
  destruct (reachable_log life σ Hr) as (outs & Hrun & Htasks & Hev & Hdel & Hcall).
  pose proof (si_replay _ _ Hinv) as Hreplay. rewrite Hrun in Hreplay. injection Hreplay as Houts.
  apply (delivered_one life) in Hdel; [|done].
  destruct (node_runs (snd <$> log σ) Hj) as (s & os & early & late & H).
  pose proof (nr_run _ _ _ _ _ H) as Hrun'. simpl in Hrun, Hcall. rewrite Hrun' in Hrun.
  injection Hrun as -> <-. destruct H as [_ _ Hc _ He _ Hq (out & Ho & Hsub) Hm].
  rewrite Hc in Hdel. destruct (call_prefix _ _ Hdel) as (ds & [rest ->] & Hcs).
  rewrite Hcs, print_calls in Hcall. injection Hcall as Hw _.
  exists early, (ds ++ rest), out. split_and!; [done..| | |done|].
  - rewrite <- Hw, omap_app. by eexists.
  - intros Hall Hout. rewrite Hout, app_nil_r, <- Hall, Hcs, Hc in Houts. rewrite <- Hw.
    rewrite omap_app in Houts. rewrite omap_app.
    assert (Hn : omap call_of rest = []) by (apply (app_inv_head (omap call_of ds)); by rewrite app_nil_r).
    assert (omap line_of rest = []) as ->; [|by rewrite app_nil_r].
    clear -Hn. induction rest as [|d rest IH]; [done|]. unfold call_of, line_of in *. simpl in *.
    destruct (source_of d); [done|by apply IH].
  - etrans; [exact Hsub|]. rewrite (only_tasks node_sends is_node_event);
      [|by intros xs ys; apply node_sends_app|by intros [] |done].
    rewrite Hposts in Htasks. destruct Htasks as [l Hl].
    assert (node_sends (map (fun b => NodeSend b group) bs) = map (sent_to group) bs) as <-.
    { clear. induction bs as [|b bs IH]; [done|]. unfold node_sends in *. simpl. by f_equal. }
    rewrite Hl, node_sends_app. by apply sublist_inserts_r.
Qed.

(** The callback that prints stays within defined behaviour. *)
Lemma node_safe σ t m :
  reachable life σ -> joins_only (snd <$> log σ) -> hv_at (shv σ) = HV_run m ->
  heavy_exe_queue_ (shv σ) !! m = Some t -> exists σ', run_heavy t m σ = Ok σ'.
Proof.
  intros Hr Hj Hat Hx. eapply reachable_heavy; [done..|]. intros outs cs.
  by apply (svc_heavy_ok (ServiceLaws := node_laws)).
Qed.
End service.

(** ** The example *)

Lemma beats_sent_once group n bs :
  heart_beats n 0 = Ok bs -> NoDup (map (sent_to group) bs).
Proof.
  intros Hb. destruct (decide (Z.of_nat n < 2 ^ 31)) as [Hn|Hn];
    [|by rewrite heart_beats_overflow in Hb by lia].
  rewrite heart_beats_ok in Hb by lia. injection Hb as <-.
  assert (Inj (=) (=) (sent_to group)) by by intros b b' [= ->].
  change (NoDup (sent_to group <$> (heart_beat <$> seqZ 0 (Z.of_nat n)))).
  apply (NoDup_fmap_2 _), (NoDup_fmap_2 _), NoDup_seqZ.
Qed.

(** Another node's heartbeat is shown whole. *)
Lemma beat_line d a count :
  source_of d = Some a -> d.1 = heart_beat count -> 0 <= count < 2 ^ 31 ->
  line_of d = Some (line a (heart_beat count)).
Proof.
  intros Ha Hd Hc. unfold line_of. rewrite Ha, Hd. simpl. rewrite ztake_all; [done|].
  pose proof (heart_beat_short count Hc). unfold kMaxUdpPacketSize. lia.
Qed.

(** C37: the multicast example.  The node runs on its loop from its factory on;
    [main] joins the group, sets the callback and posts the heartbeats of [n]
    rounds.  Under every interleaving of the io thread, the heavy thread, the
    kernel, [main] and the rest of the program: once the group was joined, the
    node is a member of 239.255.255.250 on any interface, or a refusal was logged;
    what left the queue are some datagrams that arrived before the callback was
    set, which are dropped, and then the others; the lines printed are those of a
    first part of these others with a source the library can read, each once, in
    order, and of all of them once every heavy task was run; what went to the
    network are heartbeats for the group, in the order of their counts, none
    twice; and no callback leaves defined behaviour. *)
Theorem multicast_example (life : nat) (loop : L) (cb : F) (k : K) node group n bs
    (s : sys (dgram K L F udp_node) node_input heavy_call (list (list byte))) :
  inet_pton AF_INET group_ip = PtonOk [239; 255; 255; 250] ->
  main_node life loop cb k = Made node -> multicast_group = Some group ->
  heart_beats n 0 = Ok bs ->
  reachable (SV := node_service life node) life s -> joins_only group (snd <$> log s) ->
  own (io_posted (sio s)) = map (fun b => NodeSend b group) bs ->
  exists early late out,
    (NodeJoin group ∈ snd <$> log s ->
      joined_group ∈ members (dkern (object s)) (dgram_fd node) \/ exists e, e ∈ syslog_ (object s)) /\
    queued (dkern node) (dgram_fd node) ++ node_arrivals (snd <$> log s) =
      (early ++ late) ++ queued (dkern (object s)) (dgram_fd node) /\
    early `prefix_of` queued (dkern node) (dgram_fd node) ++ node_arrivals (before_cb (snd <$> log s)) /\
    world s `prefix_of` omap line_of late /\
    (called s = own (hv_posted (shv s)) -> io_out s = [] -> world s = omap line_of late) /\
    departures (dkern (object s)) (dgram_fd node) = departures (dkern node) (dgram_fd node) ++ out /\
    out `sublist_of` map (sent_to group) bs /\ NoDup out /\
    forall t m, hv_at (shv s) = HV_run m -> heavy_exe_queue_ (shv s) !! m = Some t ->
      exists r, run_heavy (SV := node_service life node) t m s = Ok r.
Proof.
  intros Hip Hmain Hgroup Hb Hr Hj Hp. destruct (main_node_ok _ _ _ _ _ Hmain) as (Hu & _ & _).
  destruct (group_is Hip) as (g & Hg' & Hof & Hw). rewrite Hgroup in Hg'. injection Hg' as <-.
  destruct (node_served life node group Hu Hw Hof bs s Hr Hj Hp)
    as (early & late & out & ? & ? & ? & ? & ? & ? & Hs).
  exists early, late, out. split_and!; [done..| |].
  - eapply sublist_NoDup; [by eapply beats_sent_once|done].
  - intros t m. by apply (node_safe life node group Hu Hw Hof).
Qed.
End node.

(** ** A concrete node *)

(** A C library that knows the addresses of the example. *)
Definition demo_names : AddrServices := {|
  inet_pton fam s :=
    if bool_decide (s = group_ip) then PtonOk [239; 255; 255; 250]
    else if bool_decide (s = any_ip) then PtonOk [0; 0; 0; 0] else PtonInvalid;
  inet_ntop fam b := Some (str "127.0.0.1"%string);
  hash16 n := n;
  hash32 n := n;
  hash_view s := 0
|}.

(** Queues and memberships; every call of a factory is granted. *)
Definition demo_node_kernel : Type := demo_dgram * demo_groups.

#[export] Instance demo_node_dgram : DgramKernel demo_node_kernel := {
  sock_recvfrom k fd cap := let '(d, r) := sock_recvfrom k.1 fd cap in ((d, k.2), r);
  sock_sendto k fd d a n := let '(d', r) := sock_sendto k.1 fd d a n in ((d', k.2), r);
  dgram_so_error k fd := let '(d, e) := dgram_so_error k.1 fd in ((d, k.2), e);
  queued k fd := queued k.1 fd
}.

#[export] Instance demo_node_dgram_laws : DgramLaws demo_node_kernel.
Proof.
  split; simpl.
  - intros k _ cap k' d src H. destruct (arrived k.1) as [|[d0 src0] ds]; simplify_eq. by exists d0.
  - intros k _ cap k' e H. destruct (arrived k.1) as [|[d0 src0] ds] eqn:E; simplify_eq. by cbn [fst].
  - by intros k _ k' e [= <- <-].
Qed.

#[export] Instance demo_node_net : DgramNet demo_node_kernel := {
  dgram_arrive ds k fd := (dgram_arrive ds k.1 fd, k.2);
  departures k fd := departures k.1 fd
}.

#[export] Instance demo_node_net_laws : DgramNetLaws demo_node_kernel.
Proof.
  split; simpl; try done.
  - intros k _ cap k' r H. destruct (arrived k.1) as [|[d src] ds]; by simplify_eq.
  - by intros k _ k' e [= <- <-].
  - by intros k _ d a n k' r [= <- <-].
  - by intros k _ d a n k' r [= <- <-].
Qed.

#[export] Instance demo_node_groups : GroupKernel demo_node_kernel := {
  set_group k fd level opt mreq := let '(g, r) := set_group k.2 fd level opt mreq in ((k.1, g), r);
  members k fd := members k.2 fd
}.

#[export] Instance demo_node_group_laws : GroupLaws demo_node_kernel.
Proof.
  split.
  - intros k fd level join mreq k' Hl Hz H. simpl in H.
    destruct (refuse k.2) eqn:E; [done|]. injection H as <-.
    apply (group_ok k.2 fd level join mreq); [done|done|]. simpl. by rewrite E.
  - intros k fd level opt mreq k' e H. simpl in H. destruct (refuse k.2); [|done]. by injection H as <- _.
Qed.

#[export] Instance demo_group_net_laws : GroupNetLaws demo_node_kernel.
Proof.
  split; simpl; try done.
  - intros k _ cap k' r fd' H. destruct (arrived k.1) as [|[d src] ds]; by simplify_eq.
  - by intros k _ d a n k' r fd' [= <- <-].
  - by intros k _ k' e fd' [= <- <-].
  - intros k fd level opt mreq k' r fd' H. destruct (refuse k.2); by simplify_eq.
  - intros k fd level opt mreq k' r fd' H. destruct (refuse k.2); by simplify_eq.
Qed.

#[export] Instance demo_node_sockets : SocketKernel demo_node_kernel := {
  sys_socket k _ _ := (k, Ret 7);
  sys_setsockopt k _ _ := (k, None);
  sys_bind k _ _ _ := (k, None);
  sys_listen k _ := (k, None);
  timerfd_create k := (k, Ret 8);
  timerfd_settime k _ _ := (k, None)
}.

Definition demo_fresh : demo_node_kernel := (mk_demo_dgram [] [] 0, mk_demo_groups ∅ false).

Definition demo_main : product (dgram demo_node_kernel nat nat udp_node) :=
  main_node (AS := demo_names) 0%nat 5%nat 1%nat demo_fresh.

Definition demo_node : dgram demo_node_kernel nat nat udp_node :=
  match demo_main with Made s => s | _ => dgram_ctor 5%nat 7 demo_fresh (mk_node false []) end.

Definition demo_mgroup : inet_addr := demo_addr (multicast_group (H := demo_names)).
Abbreviation demo_node_service := (node_service (AS := demo_names) 0%nat demo_node).

Definition demo_beats : list (list byte) := [heart_beat 0; heart_beat 1].

(** A datagram comes before there is a callback.  [main] joins its group, sets the
    callback and posts two heartbeats; between them another node's arrives, and a
    datagram of nobody. *)
Definition demo_node_moves : list (move node_input) :=
  [MStart; HStart; MEnter; MReportFd 7 1;
   MEvent [NodeJoin demo_mgroup; NodeEvent EventType.kRead [(heart_beat 40, demo_peer4)]; SetNodeCb]; MEnd;
   MPost (Own (NodeSend (heart_beat 0) demo_mgroup)); MEnter; MReportFd 7 1;
   MEvent [NodeEvent EventType.kRead [(heart_beat 41, demo_peer4); ([1], demo_nobody)]];
   MFlushHeavy; MEnd; MPost (Own (NodeSend (heart_beat 1) demo_mgroup));
   HEnter; HLock; HPred; HSwap; HCall; MWake; MEnter; MReportWake; MDrain; MSwap; MCall; MCall].

Abbreviation demo_node_sys :=
  (sys (dgram demo_node_kernel nat nat udp_node) node_input heavy_call (list (list byte))).

Definition demo_node_run : demo_node_sys :=
  default (sys_init (SV := demo_node_service)) (run_moves (SV := demo_node_service) 0 demo_node_moves
    (sys_init (SV := demo_node_service))).

Example demo_node_prints :
  world demo_node_run = [str "[multicast] from: 127.0.0.1 msg: still alive: 41"%string ++ [10]] /\
  map fst (departures (dkern (object demo_node_run)) 7) = demo_beats.
Proof. vm_compute. done. Qed.

Lemma demo_node_reachable : reachable (SV := demo_node_service) 0 demo_node_run.
Proof.
  apply (run_moves_reach (SV := demo_node_service)); [by repeat constructor|]. vm_compute. reflexivity.
Qed.

Lemma demo_joins : joins_only demo_mgroup (snd <$> log demo_node_run).
Proof.
  assert (H : forallb (fun x => match x with
      | NodeJoin g => bool_decide (addr_storage_ g = addr_storage_ demo_mgroup) &&
          (socklen_ g =? socklen_ demo_mgroup)
      | _ => true
      end) (snd <$> log demo_node_run) = true) by (vm_compute; reflexivity).
  intros g Hin. rewrite forallb_forall in H. apply list_elem_of_In, H in Hin.
  apply andb_true_iff in Hin as [Hs%bool_decide_eq_true Hl%Z.eqb_eq]. revert Hs Hl.
  destruct g as [a l], demo_mgroup as [a' l']. simpl. by intros -> ->.
Qed.

Lemma multicast_example_witness :
  exists early late out,
    (NodeJoin demo_mgroup ∈ snd <$> log demo_node_run ->
      joined_group ∈ members (dkern (object demo_node_run)) (dgram_fd demo_node) \/
      exists e, e ∈ syslog_ (object demo_node_run)) /\
    queued (dkern demo_node) (dgram_fd demo_node) ++ node_arrivals (snd <$> log demo_node_run) =
      (early ++ late) ++ queued (dkern (object demo_node_run)) (dgram_fd demo_node) /\
    early `prefix_of` queued (dkern demo_node) (dgram_fd demo_node) ++
      node_arrivals (before_cb (snd <$> log demo_node_run)) /\
    world demo_node_run `prefix_of` omap (line_of (AS := demo_names)) late /\
    (called demo_node_run = own (hv_posted (shv demo_node_run)) -> io_out demo_node_run = [] ->
     world demo_node_run = omap (line_of (AS := demo_names)) late) /\
    departures (dkern (object demo_node_run)) (dgram_fd demo_node) =
      departures (dkern demo_node) (dgram_fd demo_node) ++ out /\
    out `sublist_of` map (sent_to demo_mgroup) demo_beats /\ NoDup out /\
    forall t m, hv_at (shv demo_node_run) = HV_run m ->
      heavy_exe_queue_ (shv demo_node_run) !! m = Some t ->
      exists r, run_heavy (SV := demo_node_service) t m demo_node_run = Ok r.
Proof.
  apply (multicast_example (AS := demo_names) 0%nat 5%nat 1%nat demo_fresh demo_node demo_mgroup 2
    demo_beats demo_node_run).
  - vm_compute. reflexivity.
  - vm_compute. reflexivity.
  - vm_compute. reflexivity.
  - vm_compute. reflexivity.
  - exact demo_node_reachable.
  - exact demo_joins.
  - vm_compute. reflexivity.
Defined.
