(* ===== verification/Http.v ===== *)
(** * Http: the pressure example

    Models the two callbacks of [examples/pressure_example.cpp]: a frame is
    everything up to the first blank line, and each frame is answered with the
    same response.  The reference is a reader of single bytes; the theorem runs
    the callbacks on a server with any number of sessions ([SessionsServed]),
    from the moment both are set. *)

From S2P Require Import Prelude Events StreamBuffer LoopFd LoopIo LoopHeavy Channel InetAddr.
From S2P Require Import Executors StreamIo StreamLoops StreamSession StreamServer Sessions.
From S2P Require Import StreamClient TcpUnix SessionsServed.

(** ["\r\n\r\n"] *)
Definition terminator : list byte := [13; 10; 13; 10].

(** [std::string_view::find]: the first position at which [p] occurs. *)
Fixpoint find (p s : list byte) : option nat :=
  if decide (take (length p) s = p) then Some 0%nat
  else match s with [] => None | _ :: s' => S <$> find p s' end.

Definition http_split_cb (slice : list byte) : Z :=
  match find terminator slice with
  | Some pos => Z.of_nat pos + 4
  | None => 0
  end.

Definition http_resp : list byte :=
  (** HTTP/1.1 200 OK *)
  [72; 84; 84; 80; 47; 49; 46; 49; 32; 50; 48; 48; 32; 79; 75; 13; 10] ++
  (** Content-Length: 6 *)
  [67; 111; 110; 116; 101; 110; 116; 45; 76; 101; 110; 103; 116; 104; 58; 32; 54; 13; 10] ++
  (** Connection: keep-alive *)
  [67; 111; 110; 110; 101; 99; 116; 105; 111; 110; 58; 32;
   107; 101; 101; 112; 45; 97; 108; 105; 118; 101; 13; 10] ++
  [13; 10] ++
  (** Hello! *)
  [72; 101; 108; 108; 111; 33].

(** What the fragment callback gives to [post_send_task] of the session it is
    called with; it keeps nothing. *)
Definition http_fragment_cb (session : nat) (fragment : list byte) (w : unit) :
    res (unit * list request) :=
  Ok (w, [ReqSend http_resp]).

(** ** The reference: one byte at a time *)

(** [acc]: the bytes since the last blank line. *)
Fixpoint requests (acc l : list byte) : list (list byte) * list byte :=
  match l with
  | [] => ([], acc)
  | b :: l' =>
      let acc' := acc ++ [b] in
      if decide (drop (length acc' - 4) acc' = terminator)
      then let r := requests [] l' in (acc' :: r.1, r.2)
      else requests acc' l'
  end.

(** ** Searching *)

Definition occurs (p s : list byte) (n : nat) : Prop := take (length p) (drop n s) = p.

Lemma find_first p s :
  match find p s with
  | Some n => occurs p s n /\ forall m, (m < n)%nat -> ~ occurs p s m
  | None => forall m, ~ occurs p s m
  end.
Proof.
  unfold occurs. induction s as [|b s IH]; cbn [find]; destruct (decide _) as [Ht|Ht].
  - split; [by rewrite drop_0|lia].
  - intros m. by rewrite drop_nil.
  - split; [by rewrite drop_0|lia].
  - destruct (find p s) as [n|]; simpl.
    + destruct IH as [H1 H2]. split; [done|]. intros [|m] Hm; [by rewrite drop_0|]. apply H2. lia.
    + intros [|m]; [by rewrite drop_0|apply IH].
Qed.

Lemma occurs_bound s n : occurs terminator s n -> (n + 4 <= length s)%nat.
Proof.
  unfold occurs. intros H. apply (f_equal length) in H. rewrite length_take, length_drop in H.
  change (length terminator) with 4%nat in H. lia.
Qed.

(** An occurrence does not depend on what follows it. *)
Lemma occurs_app s r n : (n + 4 <= length s)%nat -> occurs terminator (s ++ r) n <-> occurs terminator s n.
Proof.
  intros Hn. unfold occurs. rewrite drop_app_le by lia.
  rewrite take_app_le; [done|]. rewrite length_drop. change (length terminator) with 4%nat. lia.
Qed.

(** The reader's test: the bytes so far end with a blank line. *)
Lemma ends_occurs s : drop (length s - 4) s = terminator <-> (4 <= length s)%nat /\
  occurs terminator s (length s - 4).
Proof.
  unfold occurs. split.
  - intros H. assert (Hl : (4 <= length s)%nat).
    { apply (f_equal length) in H. rewrite length_drop in H.
      change (length terminator) with 4%nat in H. lia. }
    split; [done|]. by rewrite H.
  - intros [Hl H]. rewrite take_ge in H; [done|]. rewrite length_drop.
    change (length terminator) with 4%nat. lia.
Qed.

(** ** The split callback and the reader agree *)

(** A request: it ends with its only blank line. *)
Definition is_request (f : list byte) : Prop :=
  (4 <= length f)%nat /\ forall m, occurs terminator f m <-> m = (length f - 4)%nat.

Lemma http_split_request d :
  0 < http_split_cb d -> is_request (ztake (http_split_cb d) d).
Proof.
  unfold http_split_cb. pose proof (find_first terminator d) as Hf.
  destruct (find terminator d) as [n|]; [|lia]. intros _. destruct Hf as [Hn Hfirst].
  pose proof (occurs_bound _ _ Hn) as Hb. unfold ztake.
  replace (Z.to_nat (Z.of_nat n + 4)) with (n + 4)%nat by lia.
  set (f := take (n + 4) d). assert (Hl : length f = (n + 4)%nat) by (unfold f; rewrite length_take; lia).
  assert (Hocc : forall m, (m + 4 <= length f)%nat -> occurs terminator f m <-> occurs terminator d m).
  { intros m Hm. rewrite <- (take_drop (n + 4) d) at 1. symmetry. by apply occurs_app. }
  split; [lia|]. rewrite Hl. intros m.
  split; [|intros ->; apply Hocc; [lia|]; by replace (n + 4 - 4)%nat with n by lia].
  intros Hm. pose proof (occurs_bound _ _ Hm). apply Hocc in Hm; [|lia].
  destruct (decide (m < n)%nat) as [Hlt|]; [by apply Hfirst in Hlt|lia].
Qed.

Lemma http_no_frame d : http_split_cb d <= 0 -> forall m, ~ occurs terminator d m.
Proof.
  unfold http_split_cb. pose proof (find_first terminator d). destruct (find terminator d); [lia|done].
Qed.

Lemma http_split_bound d : http_split_cb d <= zlen d.
Proof.
  unfold http_split_cb. pose proof (find_first terminator d) as Hf.
  destruct (find terminator d) as [n|]; [|apply zlen_nonneg].
  destruct Hf as [Hn%occurs_bound _]. unfold zlen. lia.
Qed.

(** The reader on the rest of a request, and on bytes without a blank line. *)
Lemma requests_one acc l r :
  l <> [] -> is_request (acc ++ l) ->
  requests acc (l ++ r) = ((acc ++ l) :: (requests [] r).1, (requests [] r).2).
Proof.
  revert acc. induction l as [|b l IH]; intros acc Hne [Hlen Hreq]; [done|].
  cbn [app requests]. destruct (decide _) as [He|He].
  - apply ends_occurs in He as [Hl Ho]. apply (occurs_app _ l) in Ho; [|lia].
    rewrite <- app_assoc in Ho. cbn [app] in Ho. apply Hreq in Ho.
    rewrite !length_app in *. simpl in *. destruct l; [done|simpl in *; lia].
  - destruct l as [|b' l].
    { destruct He. apply ends_occurs. split; [done|]. by apply Hreq. }
    rewrite IH; [by rewrite <- app_assoc|done|]. rewrite <- app_assoc. by split.
Qed.

Lemma requests_none acc l : (forall m, ~ occurs terminator (acc ++ l) m) -> requests acc l = ([], acc ++ l).
Proof.
  revert acc. induction l as [|b l IH]; intros acc Hno; [by rewrite app_nil_r|].
  cbn [requests]. destruct (decide _) as [He|He].
  - apply ends_occurs in He as [Hl Ho]. apply (occurs_app _ l) in Ho; [|lia].
    rewrite <- app_assoc in Ho. by apply Hno in Ho.
  - rewrite IH; [by rewrite <- app_assoc|]. by rewrite <- app_assoc.
Qed.

Lemma requests_all fs r :
  Forall is_request fs -> requests [] (concat fs ++ r) = (fs ++ (requests [] r).1, (requests [] r).2).
Proof.
  induction 1 as [|f fs Hf _ IH]; [simpl; by destruct (requests [] r)|].
  cbn [concat]. rewrite <- app_assoc, (requests_one [] f); [by rewrite IH| |done].
  destruct Hf as [Hl _]. by destruct f; [simpl in Hl; lia|].
Qed.

(** ** The server *)

Section server.
Context {K : Type} `{SK : StreamKernel K, SL : !StreamLaws K, SN : !StreamNet K, SNL : !StreamNetLaws K}
  {L F U : Type} `{SH : StreamHandler U, SPL : !SplitLaws U}.
Hypothesis framed : forall d u, on_split d u = (u, http_split_cb d).
Context (P : K -> Prop) `{!CleanKernel P}.
Hypothesis arrive_clean : forall d k fd, P k -> P (stream_arrive d k fd).
Variables (loop : L) (listen_fd : Z) (life : nat) (listen_fun cb : F) (u0 : U).
#[local] Existing Instance hub_service.

Lemma frames_are_requests l fs : cut_from l fs -> Forall is_request fs.
Proof.
  intros Hcut%cut_from_cut. eapply Forall_impl; [exact Hcut|]. intros f (d & v & Hn & ->).
  rewrite framed in *. by apply http_split_request.
Qed.

(** Frames cut from some bytes are the first requests in them. *)
Lemma frames_first l fs : cut_from l fs -> concat fs `prefix_of` l -> fs `prefix_of` (requests [] l).1.
Proof.
  intros Hreq%frames_are_requests [r ->]. rewrite requests_all by done. by apply prefix_app_r.
Qed.

(** When what is left holds no frame, they are all of them. *)
Lemma frames_all l fs rest :
  cut_from l fs -> no_frame rest -> requests [] (concat fs ++ rest) = (fs, rest).
Proof.
  intros Hreq%frames_are_requests [u Hu]. rewrite framed in Hu.
  rewrite requests_all, requests_none; [by rewrite app_nil_r|by apply http_no_frame|done].
Qed.

(** The answers: one response for each call. *)
Definition one_each (x : nat * list byte) : nat * request := (x.1, ReqSend http_resp).

Lemma http_answers cs w : run_all (answer http_fragment_cb) cs w = Ok (w, map one_each cs).
Proof. revert w. induction cs as [|x cs IH]; intros w; [done|]. simpl. by rewrite IH. Qed.

Lemma one_each_sends id cs :
  sends_of id (map one_each cs) = replicate (length (frames_of id cs)) http_resp.
Proof.
  induction cs as [|[j f] cs IH]; [done|].
  change (map one_each ((j, f) :: cs)) with ([(j, ReqSend http_resp)] ++ map one_each cs).
  rewrite sends_of_app, IH. change ((j, f) :: cs) with ([(j, f)] ++ cs). rewrite frames_of_app.
  unfold sends_of, frames_of. simpl. by case_decide.
Qed.

(** C38: the pressure example, on a server that is there, with any number of
    clients, from the moment both its callbacks are set, where only they post to
    the sessions, under every interleaving of the io thread, the heavy thread,
      the kernel and the rest of the program.
    The calls of the fragment callback have posted to each session one response
    for each frame they were called with, and no call leaves defined behaviour.
    For a session whose socket reports no system error and that gets no event
    after the end of its stream ([plain]), whatever the others do and in whatever
    pieces its bytes arrive: the frames it was called with are the first of the
    requests that a reader of single bytes finds in what the client has sent.
    While no disconnect is seen, the frames cut are exactly the requests in the
    bytes read, what is left of these waits in the buffer, and the bytes the
    kernel accepted for the client, with those in the send buffer, are responses,
    unbroken, at most one for each call. *)
Theorem http_requests_answered
    (s : sys (hub K L F U) (hub_input K) (nat * list byte) unit) :
  0 <= listen_fd -> life ∉ dead s ->
  reachable (SV := hub_service loop listen_fd life listen_fun cb u0 http_fragment_cb tt) life s ->
  admissible loop cb u0 (snd <$> log s) (hub0 loop listen_fd life listen_fun) ->
  own (io_posted (sio s)) = back s ->
  (forall id, sent_data id (back s ++ hv_out s) =
     replicate (length (frames_of id (called s))) http_resp) /\
  (forall t m, hv_at (shv s) = HV_run m -> heavy_exe_queue_ (shv s) !! m = Some t ->
     exists s', run_heavy (SV := hub_service loop listen_fd life listen_fun cb u0 http_fragment_cb tt)
       t m s = Ok s') /\
  (forall id c, conns (object s) !! id = Some c -> plain P c ->
    frames_of id (called s) `prefix_of` (requests [] (peer_sent c)).1 /\
    (peer_here c ->
     (exists bytes, peer_sent c = bytes ++ unread (kern (c_stream c)) (c_fd c) /\
        requests [] bytes = (fragments (trace_ (c_stream c)), SB.contents (recv_buf_ (c_stream c)))) /\
     exists n, (n <= length (frames_of id (called s)))%nat /\
       accepted (kern (c_stream c)) (c_fd c) ++ SB.contents (send_buf_ (c_stream c)) =
         accepted (c_sock c) (c_fd c) ++ concat (replicate n http_resp))).
Proof.
  intros Hfd _ Hr Hok Hback. split_and!.
  - intros id. destruct (reachable_log life s Hr) as (outs & _ & _ & _ & _ & Hcall).
    cbn [svc_heavy hub_service] in Hcall. rewrite hub_user_run, http_answers in Hcall.
    injection Hcall as _ <-. by rewrite requests_sent, one_each_sends.
  - intros t m Hat Hx. eapply reachable_heavy; [exact Hr|exact Hat|exact Hx|]. intros outs cs _ _.
    cbn [svc_heavy hub_service]. rewrite hub_user_run, http_answers. by eexists.
  - intros id c Hc Hplain.
    destruct (hub_served loop listen_fd life listen_fun cb u0 http_fragment_cb tt P arrive_clean Hfd
      s Hr Hok Hback) as (ans & Hrun & Hall).
    destruct (Hall id c Hc Hplain) as (Hcut & Hpart & Hacc).
    rewrite http_answers in Hrun. injection Hrun as _ <-. split; [by apply frames_first|]. intros Hh.
    destruct (Hacc Hh) as [n Hn]. split.
    + destruct (hub_conn_ok loop listen_fd life listen_fun cb u0 http_fragment_cb tt P arrive_clean Hfd
        s id c Hr Hok Hc) as [_ _ Hget Hset Hstr].
      destruct (Hstr Hplain) as (Hcut' & _ & Hst). destruct (Hst Hh) as (_ & _ & Hrecv).
      exists (concat (fragments (trace_ (c_stream c))) ++ SB.contents (recv_buf_ (c_stream c))).
      unfold received_stream in Hrecv. rewrite Hget in Hrecv. split; [by rewrite <- app_assoc|].
      by eapply frames_all.
    + rewrite one_each_sends, take_replicate in Hn. eexists. split; [|exact Hn]. lia.
Qed.
End server.

(** ** Running it *)

(** The response announces its body. *)
Example resp_length : find terminator http_resp = Some (length http_resp - 4 - 6)%nat.
Proof. vm_compute. reflexivity. Qed.

(** Two requests in three pieces, cut inside a blank line. *)
Definition demo_http : list byte := [71; 13; 10; 13; 10; 71; 47; 13; 10; 13; 10; 71].

Example demo_reader : requests [] demo_http = ([[71; 13; 10; 13; 10]; [71; 47; 13; 10; 13; 10]], [71]).
Proof. vm_compute. reflexivity. Qed.

(** The server of the example; its callbacks are a [split_cb_] and a
    [fragment_cb_]. *)
Definition http_callbacks : callbacks unit :=
  mk_callbacks (Some (fun d x => (x, http_split_cb d))) true false false.

#[local] Instance http_handler : StreamHandler (endpoint unit) := tcp_handler http_callbacks.

#[local] Instance http_split_laws : SplitLaws (endpoint unit).
Proof. apply (family_split_laws tcp_reported). intros f d x [= <-]. apply http_split_bound. Qed.

Lemma http_framed d (u : endpoint unit) : on_split d u = (u, http_split_cb d).
Proof. by destruct u. Qed.

(** Two clients: the requests of the first come in pieces, the second sends none;
    nine bytes fit in the window of the first. *)
Definition demo_http0 : demo_sock := mk_sock [71; 13; 10; 13] [] 9 false 0.
Definition demo_http1 : demo_sock := mk_sock [10] [] 99 false 0.

Abbreviation demo_http_service :=
  (hub_service (K := demo_sock) (L := nat) (F := nat) 5%nat 6 0%nat 2%nat 1%nat (mk_endpoint tt [] 0)
     http_fragment_cb tt).

Definition demo_http_moves : list (move (hub_input demo_sock)) :=
  [MStart; HStart; MEnter; MReportFd 6 1;
   MEvent [AcceptEvent EventType.kRead [Ret (7, demo_http0); Ret (8, demo_http1); Err EAGAIN] 0]; MEnd;
   MEnter; MReportFd 7 1; MEvent [StreamEvent 0 EventType.kRead]; MEnd;
   MEnter; MReportFd 7 1;
   MEvent [Arrives 0 [10; 71; 47; 13; 10; 13; 10; 71]; StreamEvent 0 EventType.kRead];
   MFlushHeavy; MFlushHeavy; MEnd;
   MEnter; MReportFd 8 1; MEvent [StreamEvent 1 EventType.kRead]; MEnd;
   HEnter; HLock; HPred; HSwap; HCall; MFlushIo; HCall; MFlushIo;
   MWake; MEnter; MReportWake; MDrain; MSwap; MCall; MCall].

Definition demo_http_served : sys (hub demo_sock nat nat (endpoint unit)) (hub_input demo_sock)
    (nat * list byte) unit :=
  default (sys_init (SV := demo_http_service)) (run_moves (SV := demo_http_service) 0 demo_http_moves
    (sys_init (SV := demo_http_service))).

Example demo_http_answers :
  called demo_http_served = [(0%nat, [71; 13; 10; 13; 10]); (0%nat, [71; 47; 13; 10; 13; 10])] /\
  map (fun c => outbox (kern (c_stream c))) (conns (object demo_http_served)) = [take 9 http_resp; []] /\
  map (fun c => SB.contents (send_buf_ (c_stream c))) (conns (object demo_http_served)) =
    [drop 9 http_resp ++ http_resp; []].
Proof. vm_compute. done. Qed.

Lemma demo_http_reachable : reachable (SV := demo_http_service) 0 demo_http_served.
Proof.
  apply (run_moves_reach (SV := demo_http_service)); [by repeat constructor|]. vm_compute. reflexivity.
Qed.

Definition demo_http_conn : connection demo_sock nat nat (endpoint unit) :=
  default (mk_conn 0 demo_http0 [] [] (opened 5%nat 1%nat (mk_endpoint tt [] 0) 0 7 demo_http0) false)
    (conns (object demo_http_served) !! 0%nat).

Lemma demo_http_here :
  conns (object demo_http_served) !! 0%nat = Some demo_http_conn /\ plain demo_quiet demo_http_conn.
Proof.
  assert (H : plainb <$> conns (object demo_http_served) !! 0%nat = Some true)
    by (vm_compute; reflexivity).
  unfold demo_http_conn. destruct (conns (object demo_http_served) !! 0%nat) as [c|]; [|done].
  split; [done|]. injection H as [Hq Hl]%andb_true_iff.
  split; [by apply demo_quietb_ok|by apply negb_true_iff].
Qed.

Lemma http_requests_answered_witness :
  (forall id, sent_data id (back demo_http_served ++ hv_out demo_http_served) =
     replicate (length (frames_of id (called demo_http_served))) http_resp) /\
  frames_of 0 (called demo_http_served) `prefix_of` (requests [] (peer_sent demo_http_conn)).1 /\
  (peer_here demo_http_conn ->
   (exists bytes,
      peer_sent demo_http_conn =
        bytes ++ unread (kern (c_stream demo_http_conn)) (c_fd demo_http_conn) /\
      requests [] bytes = (fragments (trace_ (c_stream demo_http_conn)),
                           SB.contents (recv_buf_ (c_stream demo_http_conn)))) /\
   exists n, (n <= length (frames_of 0 (called demo_http_served)))%nat /\
     accepted (kern (c_stream demo_http_conn)) (c_fd demo_http_conn) ++
       SB.contents (send_buf_ (c_stream demo_http_conn)) =
       accepted (c_sock demo_http_conn) (c_fd demo_http_conn) ++ concat (replicate n http_resp)).
Proof.
  destruct demo_http_here as [Hc Hplain].
  destruct (http_requests_answered http_framed demo_quiet demo_arrive_quiet 5%nat 6 0%nat 2%nat 1%nat
    (mk_endpoint tt [] 0) demo_http_served) as (Hposted & _ & Hsession).
  - lia.
  - assert (dead demo_http_served = ∅) as -> by (vm_compute; reflexivity). apply not_elem_of_empty.
  - apply demo_http_reachable.
  - apply admissibleb_ok. vm_compute. reflexivity.
  - vm_compute. reflexivity.
  - split; [exact Hposted|]. exact (Hsession 0%nat demo_http_conn Hc Hplain).
Defined.
